(* ===== verification/_CoqProject ===== *)
-Q . S2P
Prelude.v
Order.v
Text.v
Utf8.v
Paths.v
Files.v
Url.v
Clock.v
Contract.v
Nmp.v
Tags.v
Parse.v
ParseShape.v
Compose.v
Roundtrip.v
Answer.v
Related.v
Membership.v
Model.v
Projection.v
ProjectionSpec.v
ProjectionOrder.v
ProjectionTree.v
ProjectionReactions.v
ProjectionQueue.v
Identity.v
Session.v
Runtime.v
RuntimeFacts.v
Handle.v
Control.v
Kernel.v
KernelFacts.v
KernelAccounts.v
Cancel.v
ProducerApi.v
DaemonModel.v
Journal.v
Runner.v
RunnerFacts.v
Kokoro.v
Receipt.v
Observe.v
NmpPublisher.v
Bootstrap.v
Production.v
ProductionFacts.v
AnswerWait.v
LocalService.v
LocalServer.v
Ledger.v
Shutdown.v
Socket.v
SocketFacts.v
Blossom.v
DaemonIdentity.v
DaemonConfig.v
McpAuth.v
McpConfig.v
McpIngress.v
Startup.v
Cli.v
McpTool.v
McpServer.v
McpMain.v
Daemon.v
Exchange.v
LiveNetwork.v
LiveSmoke.v
Gateway.v
EndToEnd.v
