(* ===== verification/Prelude.v ===== *)
(** * TTS29: a verification development

    TTS29 is a durable spoken queue on a NIP-29 group: producers publish complete
    spoken items as events of the group, every device reconstructs the same queue
    from them, and listeners answer questions with events of their own. This
    library models the Rust code of the repository (under [src/]) as executable
    definitions and proves what makes it correct. This file is the prelude shared
    by all others: results, the state and error monad, machine integers, lists,
    the tactics [opt], [guard], [run], [pure], [okay], [passed] that invert one
    step of a computation, and the hint and rewrite database [tts29].

    ** How the program is put together

    - The _protocol_ ([protocol/src], [contract/src]) reads and composes events.
    - The _kernel_ ([core/src]) is the client: it holds the rows of an observation
      of the group, projects them to a queue snapshot, keeps the accounts of the
      listener, and publishes answers.
    - The _daemon_ ([daemon/src]) is the producer: a request is journaled as a job
      and advanced through synthesis, upload, authorization and publication, one
      durable phase at a time; a local socket serves requests and may wait for an
      answer.
    - The _MCP endpoint_ ([mcp/src]) forwards requests to the daemon for clients
      with an access token; [producer-api/src] is the protocol between them.

    The NMP engine, its NIP-29 and Blossom crates, HTTP, JSON, JWT and URL
    libraries are not part of the repository: they are classes or section
    variables ([Nmp.Nip29], [Identity]'s engine, [Runner]'s capabilities,
    [Blossom.BlossomClient], [McpAuth.Jwt], [Url.UrlParser], ...), and what the
    code relies on of them is stated as laws beside them.

    ** The files

    Foundations: [Prelude]; [Order] (Rust's [Ord], [max_by], stable sorting,
    ordered iteration); [Text] (strings as lists of scalar values, UTF-8 lengths,
    [trim], decimal [u64]s), [Utf8] (reading bytes as text), [Paths]
    ([std::path]), [Files] (a file system every step of which may fail), [Url],
    [Clock] (the system clocks of the three programs).

    Protocol: [Contract] ([contract/src/lib.rs]); [Nmp] (the boundary to the
    engine's crates); [Tags] and [Parse] ([protocol/src/parse]) with [ParseShape];
    [Compose] ([compose.rs]) with [Roundtrip]; [Answer] ([answer.rs]); [Related]
    ([related.rs]); [Membership] ([membership.rs], [group_admin.rs]).

    Kernel: [Model] ([core/src/model.rs]); [Projection] ([projection.rs]) with
    [ProjectionSpec], [ProjectionOrder], [ProjectionTree], [ProjectionReactions]
    and [ProjectionQueue]; [Identity] ([identity.rs]); [Session] ([session.rs]);
    [Runtime] ([runtime.rs], [action.rs]) with [RuntimeFacts]; [Handle] (the
    exported calls of [lib.rs] and the threads that feed the loop), [Control]
    (starting and stopping at once), and [Kernel] with [KernelFacts] and
    [KernelAccounts]: the owner of a handle and all threads of the kernel as one
    machine.

    Daemon: [ProducerApi] ([producer-api/src]); [DaemonModel] ([model.rs]);
    [Journal] ([journal.rs]); [Runner] ([request.rs], [runner.rs]) with
    [RunnerFacts]; [Kokoro] ([kokoro.rs]); [Blossom] ([blossom.rs]); [Receipt]
    ([nmp_receipt.rs]); [Observe] (the observation loop [nmp_publisher.rs] and
    [group_bootstrap.rs] share), [NmpPublisher], [Bootstrap]; [Production]
    ([production.rs], [identity.rs]) with [ProductionFacts]; [AnswerWait] and
    [Cancel] ([answer_wait.rs]); [LocalService] ([local_service.rs]);
    [LocalServer], [Shutdown] and [Socket] with [SocketFacts]
    ([local_server.rs]); [DaemonIdentity] ([daemon_identity.rs]);
    [DaemonConfig] ([daemon_config.rs]); [Startup] ([open_with_clock] in
    [production.rs]: the start of the daemon from its parts); [Cli]
    ([bin/tts29.rs]); [Ledger], the specification of the daemon, which the
    pipeline of [Runner] refines; [Daemon] ([bin/tts29d.rs]), the whole process
    and any number of its runs over one disk; [LiveNetwork] and [LiveSmoke]
    ([live_network.rs], [live_smoke.rs] and their programs), the checks that run
    a daemon of their own and verify from outside what came of a request.

    MCP endpoint: [McpAuth] ([auth.rs]), [McpConfig] ([config.rs]), [McpIngress]
    ([ingress.rs]), [McpTool] ([tool.rs]), [McpServer] ([server.rs]), the endpoint
    as a whole, and [McpMain] ([main.rs]), its process; [Exchange] (a client and
    the daemon over one connection) and [Gateway] (the endpoint in front of a
    running daemon, as one system).

    [EndToEnd] is about the producer and the clients together: what one of them
    publishes, and what the other one makes of it.

    ** How the code is modelled

    A struct is a [Record], an enum an [Inductive] with the same constructors, a
    method that mutates and may fail a function in the monad [io] over an explicit
    world ([?] is the bind, and the world reached at an error is kept), a loop
    with early returns a [Fixpoint] or [try_fold]. A [String] is the list of its
    [char]s; byte lengths go through UTF-8. A [BTreeMap] is a [gmap] that is
    iterated in key order. Integers are [N] with their wrap-around, saturation or
    checks written out where the code has them. Durations are numbers of seconds
    or milliseconds; every reading of a clock is an input. Code that runs
    concurrently is a step relation over its atomic accesses: [Control],
    [Kernel], [Cancel], [Shutdown], [McpIngress]; [Socket] takes what other processes do
    between two steps as a function.

    Interfaces between components are classes: [Journal.JobJournal] with its laws
    is what the runner relies on and [Journal.FileJobJournal] implements;
    [Runner]'s [Synthesizer], [ArtifactUploader] and [Publisher] are what
    [Kokoro], [Blossom] and [NmpPublisher] provide; [LocalServer] serves any
    publication service, and [LocalService] is the daemon's.

    ** What is proved

    - Order and convergence: the projection does not depend on the order of the
      rows ([ProjectionOrder]); the queue is bounded, newest first, without hidden
      or repeated items, nests every visible child there is room for, and shows of
      each item exactly what the protocol selects ([ProjectionQueue]).
    - Well-formedness and round trips: what the parser accepts is what its tags
      say, within every bound ([ParseShape]); composed items and answers parse back ([Roundtrip],
      [Related]); a generated identity is read back ([DaemonIdentity]).
    - Durability: whatever step fails, a job record is the old or the complete new
      one ([Journal]), audio is committed once ([Kokoro]), jobs keep their
      identity, move forward only and carry the evidence of their phase
      ([RunnerFacts]); over any number of runs of the daemon, however they end,
      no job is lost and every answer ever given is true of the journal, and the
      whole process refines a ledger in which an order is accepted once and
      published in one step ([Ledger], [Daemon]).
    - End to end: an item that the publisher accepts is what every client reads
      and shows; the answer a client submits is found by the wait of the daemon
      and shown by every client ([EndToEnd]); what a live check reports is so
      ([LiveSmoke]), and what the endpoint tells its clients is true of the
      daemon's journal, whoever else the daemon serves ([Gateway]).
    - Composition: a daemon that starts has its key, its group and its
      capabilities ([Startup]); a kernel that was stopped has handled every call
      made before ([KernelFacts]) and ends with its accounts released, and nobody
      but the account that is signed in ever answers ([KernelAccounts]); a run of
      the endpoint serves nothing, or a sound configuration and key set
      ([McpMain]).
    - Termination: six stages publish a job or end with the error of one
      ([ProductionFacts]); the waits are bounded ([Receipt], [AnswerWait]); stopping
      the kernel returns, in every interleaving, after a bounded number of the
      program's own steps ([KernelFacts]).
    - Concurrency: the threads of the kernel do together what its sequential loop
      does with the events it receives ([KernelFacts]);
      cancellation refines an atomic object ([Cancel]); stopping is never lost
      ([Control], [Shutdown]); permits are neither lost nor exceeded
      ([McpIngress]); under any interference, the name of the socket is removed
      only right after it was checked ([SocketFacts]), and daemons that do not
      start at once hand it on ([Daemon]).
    - Declarative contracts of validators, as equivalences: [Compose],
      [DaemonConfig], [McpConfig], [McpAuth], [Cli].
    - Security: only authorized authors publish ([NmpPublisher]), every call of
      the MCP tool comes from an accepted token, and a client without one finds
      where to get it ([McpServer]), an agent's key
      does not outlive its request ([ProductionFacts]), artifacts are what was
      sent ([Blossom]), secrets stay out of configuration files and public
      messages ([DaemonConfig], [McpTool]).
    - Defects the code has, each as a theorem about the definitions:
      [Roundtrip.unreadable_label_rejected],
      [RuntimeFacts.duplicate_submit_forgets_receipt],
      [NmpPublisher.duplicate_member_stuck], [ProductionFacts.long_ids_collide],
      the race of two starting daemons, [SocketFacts.bind_race], the resource at
      the path of its own metadata, [McpServer.build_router_distinct], and the
      third redirect, [LiveNetwork.third_redirect_refused].

    ** Bounds and fuel

    Loops the code bounds keep its bound: [Production.STAGES] (6),
    [AnswerWait.FRAME_BOUND] (128), the statuses of a receipt and the frames of an
    observation, the sixteen attempts of [DaemonIdentity.generate_and_install]; the
    constants are generalized before a proof unfolds a loop. Fuel of the model
    itself: [Text.dec_digits] has twenty digits, enough for every [u64]
    ([Text.dec_digits_value]); [Utf8.decode_chars] has the number of bytes, and
    each character takes one ([Utf8.from_utf8_bytes]); [Socket.create_dir_all] has
    the length of the path, and a parent is shorter
    ([SocketFacts.create_dir_all_fuel]); [LiveNetwork.follow_redirects] has three
    requests, and the policy admits no fourth ([LiveNetwork.redirects_bounded]).
    [KernelFacts.kernel_measure] is the number of steps a kernel that is being
    stopped may still take by itself.
    A run of the daemon is the list of what its loop meets, and may end with the
    process still waiting. Everything else is structural.

    ** Not modelled

    - The third-party servers under [mcp/src/server.rs]: the router, the MCP
      transport and TLS are parameters, and what becomes of open connections at
      a graceful shutdown is not described.
    - The NMP engine behind its calls: [Kernel] relies on a cancelled observation
      and the receipts of an engine that was shut down to end, the other files on
      the laws they state; what the engine drops when a run ends with an error is
      not described.
    - Power failures: every step on a file may fail and a process may end at any
      of them, but a file that was written and not yet synced is kept like one
      that was ([Files.sync] is a step like any other).
    - The Apple shell (Swift), scripts and documents: other languages. Of the
      application [Kernel] uses that its calls are made one after another.
    - Constructors that only fill a record, accessors, [Debug] and [Display] of
      errors that are never compared, and the texts the programs print on success.
    - [McpTool.tool_result] has no result for a published tree, as the code has no
      arm for it and does not compile there. *)

From Stdlib Require Export NArith Lia.
From stdpp Require Export base tactics numbers list option gmap sorting.

(** ** Results

    Rust's [Result<A, E>], with stdpp's monad notations: [x ← m; k] is the
    [?] operator. *)
Inductive result (E A : Type) : Type :=
  | Ok (a : A)
  | Err (e : E).
Arguments Ok {E A} a.
Arguments Err {E A} e.

#[export] Instance result_ret {E} : MRet (result E) := λ A a, Ok a.
#[export] Instance result_bind {E} : MBind (result E) := λ A B f m,
  match m with Ok a => f a | Err e => Err e end.
#[export] Instance result_fmap {E} : FMap (result E) := λ A B f m,
  match m with Ok a => Ok (f a) | Err e => Err e end.

#[export] Instance result_eq_dec {E A} `{EqDecision E, EqDecision A} :
  EqDecision (result E A).
Proof. solve_decision. Defined.

Definition map_err {E F A} (f : E → F) (m : result E A) : result F A :=
  match m with Ok a => Ok a | Err e => Err (f e) end.

(** [Option::ok_or]. *)
Definition ok_or {E A} (e : E) (o : option A) : result E A :=
  match o with Some a => Ok a | None => Err e end.

(** [Result::ok]. *)
Definition result_ok {E A} (m : result E A) : option A :=
  match m with Ok a => Some a | Err _ => None end.

(** An early [return Err(e)] taken when the test holds. *)
Definition fail_if {E} (e : E) (b : bool) : result E unit :=
  if b then Err e else Ok ().

(** [bool::then_some]. *)
Definition then_some {A} (b : bool) (a : A) : option A :=
  if b then Some a else None.

Definition is_none {A} (o : option A) : bool :=
  match o with Some _ => false | None => true end.

(** [Option::is_some_and]. *)
Definition is_some_and {A} (f : A → bool) (o : option A) : bool :=
  match o with Some a => f a | None => false end.

Lemma bind_ok {E A B} (m : result E A) (f : A → result E B) b :
  (m ≫= f) = Ok b ↔ ∃ a, m = Ok a ∧ f a = Ok b.
Proof. destruct m; naive_solver. Qed.

Lemma bind_err {E A B} (m : result E A) (f : A → result E B) e :
  (m ≫= f) = Err e ↔ m = Err e ∨ ∃ a, m = Ok a ∧ f a = Err e.
Proof. destruct m; naive_solver. Qed.

Lemma fail_if_ok {E} (e : E) b u : fail_if e b = Ok u ↔ b = false.
Proof. destruct b, u; naive_solver. Qed.

Lemma ok_or_ok {E A} (e : E) (o : option A) a : ok_or e o = Ok a ↔ o = Some a.
Proof. destruct o; naive_solver. Qed.

Lemma map_err_ok {E F A} (f : E → F) (m : result E A) a :
  map_err f m = Ok a ↔ m = Ok a.
Proof. destruct m; naive_solver. Qed.

Lemma then_some_Some {A} (b : bool) (a a' : A) :
  then_some b a = Some a' ↔ b = true ∧ a = a'.
Proof. destruct b; naive_solver. Qed.

Lemma is_none_false {A} (o : option A) : is_none o = false ↔ is_Some o.
Proof. destruct o; simpl; split; intros; [eauto|done..|by destruct H]. Qed.

Lemma is_none_Some {A} (o : option A) : is_Some o → is_none o = false.
Proof. by intros [? ->]. Qed.

Lemma is_none_true {A} (o : option A) : is_none o = true ↔ o = None.
Proof. destruct o; naive_solver. Qed.

(** An early [return None] taken when the test holds. *)
Definition reject_if (b : bool) : option unit := if b then None else Some ().

Lemma reject_if_Some b u : reject_if b = Some u ↔ b = false.
Proof. destruct b, u; naive_solver. Qed.

Lemma bind_Some' {A B} (m : option A) (f : A → option B) b :
  (m ≫= f) = Some b ↔ ∃ a, m = Some a ∧ f a = Some b.
Proof. destruct m; naive_solver. Qed.

(** A [for] loop whose body may return early. *)
Fixpoint try_fold {M : Type → Type} `{MRet M, MBind M} {A B}
    (f : B → A → M B) (b : B) (l : list A) : M B :=
  match l with
  | [] => mret b
  | x :: l => b' ← f b x; try_fold f b' l
  end.

Lemma try_fold_app_option {A B} (f : B → A → option B) b l k :
  try_fold f b (l ++ k) = try_fold f b l ≫= λ b', try_fold f b' k.
Proof.
  revert b. induction l as [|x l IH]; intros b; simpl; [done|].
  destruct (f b x); simpl; [apply IH|done].
Qed.

(** A loop invariant of a loop that may return early. *)
Lemma try_fold_option_inv {A B} (I : list A → B → Prop) (f : B → A → option B) b l b' :
  I [] b →
  (∀ done x b b', I done b → f b x = Some b' → I (done ++ [x]) b') →
  try_fold f b l = Some b' → I l b'.
Proof.
  intros H0 Hstep. assert (∀ done b, I done b → try_fold f b l = Some b' → I (done ++ l) b')
    as Hgen; [|by apply (Hgen [])].
  clear H0 b. induction l as [|x l IH]; simpl; intros done b HI Hf.
  { rewrite app_nil_r. by injection Hf as <-. }
  apply bind_Some' in Hf as (b1 & Hx & Hl).
  rewrite (cons_middle x done l), (assoc_L (++)). eauto.
Qed.

(** ** State and error monad

    A method [fn f(&mut self, ..) -> Result<A, E>] acts on an explicit world
    [W]; on an error the world reached so far is kept, as in Rust. *)
Definition io (W E A : Type) : Type := W → result E A * W.

#[export] Instance io_ret {W E} : MRet (io W E) := λ A a w, (Ok a, w).
#[export] Instance io_bind {W E} : MBind (io W E) := λ A B f m w,
  match m w with (Ok a, w') => f a w' | (Err e, w') => (Err e, w') end.

Definition io_err {W E A} (e : E) : io W E A := λ w, (Err e, w).
Definition io_lift {W E A} (m : result E A) : io W E A := λ w, (m, w).
Definition io_map_err {W E F A} (f : E → F) (m : io W E A) : io W F A :=
  λ w, let '(r, w') := m w in (map_err f r, w').
(** Observe a result without propagating its error. *)
Definition io_try {W E F A} (m : io W E A) : io W F (result E A) :=
  λ w, let '(r, w') := m w in (Ok r, w').

#[export] Instance io_fmap {W E} : FMap (io W E) := λ A B f m w,
  match m w with (Ok a, w') => (Ok (f a), w') | (Err e, w') => (Err e, w') end.

Lemma io_bind_inv {W E A B} (m : io W E A) (f : A → io W E B) w r w'' :
  (m ≫= f) w = (r, w'') →
  (∃ a w', m w = (Ok a, w') ∧ f a w' = (r, w'')) ∨
  (∃ e, m w = (Err e, w'') ∧ r = Err e).
Proof. unfold mbind, io_bind. destruct (m w) as [[a|e] w'] eqn:?; naive_solver. Qed.

Lemma io_bind_ext {W E A B} (m m' : io W E A) (f g : A → io W E B) w :
  m w = m' w → (∀ a w, f a w = g a w) → (m ≫= f) w = (m' ≫= g) w.
Proof. unfold mbind, io_bind. intros -> Hfg. by destruct (m' w) as [[a|e] w']. Qed.

Lemma io_fmap_ok {W E A B} (f : A → B) (m : io W E A) w b w' :
  (f <$> m) w = (Ok b, w') ↔ ∃ a, b = f a ∧ m w = (Ok a, w').
Proof. unfold fmap, io_fmap. destruct (m w) as [[a|e] w1] eqn:?; naive_solver. Qed.

(** An effect that leaves a part of the world alone. *)
Definition io_keeps {W E A V} (view : W → V) (m : io W E A) : Prop :=
  ∀ w r w', m w = (r, w') → view w' = view w.

Lemma keeps_ret {W E A V} (view : W → V) (a : A) : io_keeps view (mret a : io W E A).
Proof. by intros w r w' [= _ <-]. Qed.
Lemma keeps_lift {W E A V} (view : W → V) (m : result E A) :
  io_keeps view (io_lift m : io W E A).
Proof. by intros w r w' [= _ <-]. Qed.
Lemma keeps_bind {W E A B V} (view : W → V) (m : io W E A) (f : A → io W E B) :
  io_keeps view m → (∀ a, io_keeps view (f a)) → io_keeps view (m ≫= f).
Proof.
  intros Hm Hf w r w'' [(a & w' & Ha & Hb)|(e & He & _)]%io_bind_inv; [|by eapply Hm].
  by rewrite (Hf _ _ _ _ Hb), (Hm _ _ _ Ha).
Qed.
Lemma keeps_fmap {W E A B V} (view : W → V) (f : A → B) (m : io W E A) :
  io_keeps view m → io_keeps view (f <$> m).
Proof.
  intros Hm w r w'. unfold fmap, io_fmap. destruct (m w) as [[a|e] w1] eqn:Heq;
    intros [= _ <-]; by eapply Hm.
Qed.

Lemma io_bind_ok {W E A B} (m : io W E A) (f : A → io W E B) w b w'' :
  (m ≫= f) w = (Ok b, w'') ↔ ∃ a w', m w = (Ok a, w') ∧ f a w' = (Ok b, w'').
Proof. unfold mbind, io_bind. destruct (m w) as [[a|e] w'] eqn:?; naive_solver. Qed.

Lemma io_map_err_ok {W E F A} (f : E → F) (m : io W E A) w a w' :
  io_map_err f m w = (Ok a, w') ↔ m w = (Ok a, w').
Proof. unfold io_map_err. destruct (m w) as [[]]; naive_solver. Qed.

Lemma io_lift_ok {W E A} (m : result E A) (w : W) a w' :
  io_lift m w = (Ok a, w') ↔ m = Ok a ∧ w = w'.
Proof. unfold io_lift. naive_solver. Qed.

(** ** Machine integers *)
Definition u64_max : N := 18446744073709551615.
Definition u16_max : N := 65535.
Definition u64_saturating_add (a b : N) : N := N.min (a + b) u64_max.
Definition u64_saturating_sub (a b : N) : N := a - b.
Definition u64_checked_add (a b : N) : option N :=
  if (a + b <=? u64_max)%N then Some (a + b)%N else None.

Lemma u64_checked_add_Some a b c :
  u64_checked_add a b = Some c ↔ c = (a + b)%N ∧ (a + b ≤ u64_max)%N.
Proof.
  unfold u64_checked_add. destruct (N.leb_spec (a + b) u64_max); split;
    intros; simplify_eq; naive_solver lia.
Qed.

(** ** Lists

    Lengths are [usize] values; the bounds of the code are compared on [N]. *)
Definition len {A} (l : list A) : N := N.of_nat (length l).
Definition is_empty {A} (l : list A) : bool :=
  match l with [] => true | _ => false end.

Lemma is_empty_true {A} (l : list A) : is_empty l = true ↔ l = [].
Proof. by destruct l. Qed.
Lemma is_empty_false {A} (l : list A) : is_empty l = false ↔ l ≠ [].
Proof. by destruct l. Qed.
Lemma len_nil {A} : len (@nil A) = 0%N.
Proof. done. Qed.
Lemma len_cons {A} (x : A) l : len (x :: l) = (len l + 1)%N.
Proof. unfold len. simpl. lia. Qed.
Lemma len_app {A} (l k : list A) : len (l ++ k) = (len l + len k)%N.
Proof. unfold len. rewrite length_app. lia. Qed.
Lemma len_0 {A} (l : list A) : len l = 0%N ↔ l = [].
Proof. destruct l; unfold len; simpl; split; intros; (done || lia). Qed.
Lemma len_fmap {A B} (f : A → B) l : len (f <$> l) = len l.
Proof. unfold len. by rewrite length_fmap. Qed.

Lemma NoDup_fmap_inj {A B} (f : A → B) l x y :
  NoDup (f <$> l) → x ∈ l → y ∈ l → f x = f y → x = y.
Proof.
  induction l as [|z l IH]; csimpl; [by intros _ ?%not_elem_of_nil|].
  intros [Hz Hnd]%NoDup_cons [->|Hx]%elem_of_cons [->|Hy]%elem_of_cons Heq; auto.
  - destruct Hz. rewrite Heq. by apply list_elem_of_fmap_2.
  - destruct Hz. rewrite <-Heq. by apply list_elem_of_fmap_2.
Qed.

(** ** Loops that reject repeated keys

    The validators thread the set of keys already seen through a loop that may
    return early, in [option] or in [result]; [returns m a] says that the
    computation [m] yields [a]. *)
Class Returns (M : Type → Type) `{MRet M, MBind M} := {
  returns : ∀ {A}, M A → A → Prop;
  returns_ret : ∀ {A} (a b : A), returns (mret a) b ↔ a = b;
  returns_bind : ∀ {A B} (m : M A) (f : A → M B) b,
    returns (m ≫= f) b ↔ ∃ a, returns m a ∧ returns (f a) b;
}.

#[export, refine] Instance option_returns : Returns option :=
  {| returns := λ A m a, m = Some a |}.
Proof.
  - intros A a b. unfold mret, option_ret. naive_solver.
  - intros A B m f b. apply bind_Some'.
Defined.
#[export, refine] Instance result_returns {E} : Returns (result E) :=
  {| returns := λ A m a, m = Ok a |}.
Proof.
  - intros A a b. unfold mret, result_ret. naive_solver.
  - intros A B m f b. apply bind_ok.
Defined.

Section distinct.
Context {M : Type → Type} `{Returns M} {A K : Type} `{Countable K}.
Context (key : A → K) (P : A → Prop) (step : gset K → A → M (gset K)).
Context (Hstep : ∀ seen x seen',
  returns (step seen x) seen' ↔ seen' = {[key x]} ∪ seen ∧ (key x ∉ seen) ∧ P x).

Lemma try_fold_distinct_from seen l :
  (∃ seen', returns (try_fold step seen l) seen') ↔
  NoDup (key <$> l) ∧ (∀ x, x ∈ l → key x ∉ seen) ∧ Forall P l.
Proof using Hstep.
  revert seen. induction l as [|x l IH]; intros seen; csimpl.
  { split.
    - intros _. split_and!; [constructor| |constructor]. by intros ? ?%not_elem_of_nil.
    - intros _. exists seen. by apply returns_ret. }
  rewrite NoDup_cons, Forall_cons. split.
  - intros (s' & (s1 & (-> & Hx & HP)%Hstep & Hl)%returns_bind).
    destruct (proj1 (IH ({[key x]} ∪ seen))) as (Hnd & Hnew & Hall); [eauto|].
    split_and!; try done.
    + intros (y & Heq & Hy)%list_elem_of_fmap. specialize (Hnew y Hy). set_solver.
    + intros y [->|Hy]%elem_of_cons; [done|]. specialize (Hnew y Hy). set_solver.
  - intros ([Hx Hnd] & Hnew & HP & Hall).
    destruct (proj2 (IH ({[key x]} ∪ seen))) as [s' Hs']; [split_and!; try done|].
    + intros y Hy. rewrite not_elem_of_union, not_elem_of_singleton.
      split; [|apply Hnew; by right]. intros Heq. apply Hx. rewrite <-Heq.
      by apply list_elem_of_fmap_2.
    + exists s'. apply returns_bind. eexists. split; [|done]. apply Hstep.
      split_and!; [done| |done]. apply Hnew. by left.
Qed.

Lemma try_fold_distinct l :
  (∃ seen', returns (try_fold step ∅ l) seen') ↔ NoDup (key <$> l) ∧ Forall P l.
Proof using Hstep. rewrite try_fold_distinct_from. set_solver. Qed.
End distinct.

(** [Iterator::find_map]. *)
Fixpoint find_map {A B} (f : A → option B) (l : list A) : option B :=
  match l with
  | [] => None
  | x :: l => match f x with Some b => Some b | None => find_map f l end
  end.

Lemma find_map_Some {A B} (f : A → option B) l b :
  find_map f l = Some b ↔
  ∃ before x after, l = before ++ x :: after ∧ f x = Some b ∧ Forall (λ y, f y = None) before.
Proof.
  induction l as [|x l IH]; simpl.
  { split; [done|]. by intros ([] & ? & ? & ? & _). }
  destruct (f x) as [b'|] eqn:Hx; [|rewrite IH]; split.
  - intros [= ->]. by exists [], x, l.
  - intros ([|y before] & z & after & [= <- ->] & Hz & Hall); [congruence|].
    apply Forall_cons in Hall as [? _]. congruence.
  - intros (before & y & after & -> & Hy & Hall). exists (x :: before), y, after.
    split_and!; [done|done|by constructor].
  - intros ([|y before] & z & after & [= <- ->] & Hz & Hall); [congruence|].
    apply Forall_cons in Hall as [_ ?]. by exists before, z, after.
Qed.

Lemma find_map_None {A B} (f : A → option B) l :
  find_map f l = None ↔ ∀ x, x ∈ l → f x = None.
Proof.
  induction l as [|x l IH]; simpl; [split; [by intros _ ? ?%not_elem_of_nil|done]|].
  destruct (f x) eqn:Hx.
  - split; [done|]. intros Hall. by rewrite Hall in Hx by left.
  - rewrite IH. set_solver.
Qed.

(** [Iterator::find]. *)
Definition find {A} (f : A → bool) (l : list A) : option A :=
  find_map (λ x, if f x then Some x else None) l.

Lemma find_Some {A} (f : A → bool) l x : find f l = Some x → x ∈ l ∧ f x = true.
Proof.
  intros (l1 & y & l2 & -> & Hy & _)%find_map_Some.
  destruct (f y) eqn:Hf; simplify_eq. split; [set_solver|done].
Qed.

(** Sums over a list in which one element changes. *)
Lemma sum_list_insert {A} (f : A → nat) (l : list A) i x y :
  l !! i = Some x → sum_list_with f (<[i:=y]> l) + f x = sum_list_with f l + f y.
Proof.
  intros Hi. rewrite <-(take_drop_middle l i x Hi) at 2.
  rewrite (insert_take_drop l i y) by by eapply lookup_lt_Some.
  rewrite !sum_list_with_app. simpl. lia.
Qed.

Lemma forallb_True {A} (f : A → bool) l :
  forallb f l = true ↔ Forall (λ x, f x = true) l.
Proof.
  induction l as [|x l IH]; simpl; [by split|].
  rewrite andb_true_iff, IH, Forall_cons. done.
Qed.

Lemma existsb_False {A} (f : A → bool) l :
  existsb f l = false ↔ Forall (λ x, f x = false) l.
Proof.
  induction l as [|x l IH]; simpl; [by split|].
  rewrite orb_false_iff, IH, Forall_cons. done.
Qed.

Lemma existsb_True {A} (f : A → bool) l :
  existsb f l = true ↔ ∃ x, x ∈ l ∧ f x = true.
Proof.
  rewrite existsb_exists. setoid_rewrite list_elem_of_In. done.
Qed.

Create HintDb tts29.
Create Rewrite HintDb tts29.
#[export] Hint Rewrite @bind_ok @fail_if_ok @reject_if_Some @bind_Some' @ok_or_ok @map_err_ok @then_some_Some
  @is_none_false @is_none_true @is_empty_true @is_empty_false
  @orb_false_iff @orb_true_iff @andb_true_iff @andb_false_iff
  @negb_true_iff @negb_false_iff @bool_decide_eq_true @bool_decide_eq_false
  @N.leb_le @N.leb_gt @N.ltb_lt @N.ltb_ge @N.eqb_eq @N.eqb_neq
  @forallb_True @existsb_False : tts29.

(** Turn boolean guards and [Result] plumbing in the context into
    propositions. *)
Ltac reflect := autorewrite with tts29 in *.
Ltac reflect_in H := autorewrite with tts29 in H.

(** Invert one step of an [option] computation: [opt H as x Hx] names the
    value of the first step and what is known of it; [guard H as p] does the
    same for an early exit, whose condition is turned into propositions. *)
Tactic Notation "opt" hyp(H) "as" simple_intropattern(x) simple_intropattern(Hx) :=
  apply bind_Some' in H as (x & Hx & H); cbn beta in H.
Tactic Notation "guard" hyp(H) "as" simple_intropattern(p) :=
  let Hg := fresh "Hguard" in
  apply bind_Some' in H as ([] & Hg & H); cbn beta in H;
  apply reject_if_Some in Hg; reflect_in Hg; revert Hg; intros p.

#[export] Hint Resolve keeps_ret keeps_lift keeps_bind keeps_fmap : tts29.

(** The same for an [io] computation that returned [Ok] (the result and the
    world after the step are named), and for its pure steps. *)
Tactic Notation "run" hyp(H) "as" simple_intropattern(x) simple_intropattern(w)
    simple_intropattern(Hx) :=
  apply io_bind_ok in H as (x & w & Hx & H); cbn beta in H.
Tactic Notation "pure" hyp(H) "as" simple_intropattern(x) simple_intropattern(Hx) :=
  let Hl := fresh "Hlift" in
  let w := fresh "w" in
  apply io_bind_ok in H as (x & w & Hl & H); cbn beta in H;
  apply io_lift_ok in Hl as [Hl <-]; revert Hl; intros Hx.

(** The same for a computation that returned [Ok]. *)
Tactic Notation "okay" hyp(H) "as" simple_intropattern(x) simple_intropattern(Hx) :=
  apply bind_ok in H as (x & Hx & H); cbn beta in H.
Tactic Notation "passed" hyp(H) "as" simple_intropattern(p) :=
  let Hg := fresh "Hguard" in
  apply bind_ok in H as ([] & Hg & H); cbn beta in H;
  apply fail_if_ok in Hg; reflect_in Hg; revert Hg; intros p.

Lemma try_fold_result_inv {E A B} (I : list A → B → Prop) (f : B → A → result E B) b l b' :
  I [] b →
  (∀ done x b b', I done b → f b x = Ok b' → I (done ++ [x]) b') →
  try_fold f b l = Ok b' → I l b'.
Proof.
  intros H0 Hstep. assert (∀ done b, I done b → try_fold f b l = Ok b' → I (done ++ l) b')
    as Hgen; [|by apply (Hgen [])].
  clear H0 b. induction l as [|x l IH]; simpl; intros done b HI Hf.
  { rewrite app_nil_r. by injection Hf as <-. }
  apply bind_ok in Hf as (b1 & Hx & Hl).
  rewrite (cons_middle x done l), (assoc_L (++)). eauto.
Qed.

Lemma is_some_and_false {A} (f : A → bool) o :
  is_some_and f o = false ↔ ∀ a, o = Some a → f a = false.
Proof. destruct o; naive_solver. Qed.
