(* ===== verification/Order.v ===== *)
(** Rust's [Ord] as a class, its instances for the key types of the program,
    [Iterator::max_by], stable sorting by a key, and the ordered iteration of
    [BTreeMap]s and [BTreeSet]s modelled as [gmap]s and [gset]s. *)

From S2P Require Import Prelude.

(** ** [Ord::cmp] and its laws *)
Class Cmp (A : Type) := cmp : A → A → comparison.

Class CmpLaws (A : Type) `{Cmp A} : Prop := {
  cmp_eq : ∀ x y, cmp x y = Eq ↔ x = y;
  cmp_opp : ∀ x y, cmp y x = CompOpp (cmp x y);
  cmp_lt_trans : ∀ x y z, cmp x y = Lt → cmp y z = Lt → cmp x z = Lt;
}.

Definition cmp_le {A} `{Cmp A} (x y : A) : Prop := cmp x y ≠ Gt.
Definition cmp_ltb {A} `{Cmp A} (x y : A) : bool :=
  match cmp x y with Lt => true | _ => false end.
Definition cmp_gtb {A} `{Cmp A} (x y : A) : bool :=
  match cmp x y with Gt => true | _ => false end.

#[export] Instance comparison_eq_dec : EqDecision comparison.
Proof. solve_decision. Defined.

#[global] Instance cmp_le_dec {A} `{Cmp A} (x y : A) : Decision (cmp_le x y).
Proof. unfold cmp_le. apply _. Defined.

Section laws.
Context {A : Type} `{CmpLaws A}.
Implicit Types x y z : A.

Lemma cmp_refl x : cmp x x = Eq.
Proof. by apply cmp_eq. Qed.

Lemma cmp_gt_lt x y : cmp x y = Gt ↔ cmp y x = Lt.
Proof. rewrite (cmp_opp x y). destruct (cmp x y); naive_solver. Qed.

Lemma cmp_le_cases x y : cmp_le x y ↔ cmp x y = Lt ∨ x = y.
Proof. unfold cmp_le. rewrite <-(cmp_eq x y). destruct (cmp x y); naive_solver. Qed.

#[global] Instance cmp_le_preorder : PreOrder (@cmp_le A _).
Proof.
  split.
  - intros x. unfold cmp_le. by rewrite cmp_refl.
  - intros x y z. rewrite !cmp_le_cases. naive_solver eauto using cmp_lt_trans.
Qed.

#[global] Instance cmp_le_antisymm : AntiSymm (=) (@cmp_le A _).
Proof.
  intros x y. rewrite !cmp_le_cases. intros [Hl| ->] [Hr|?]; try done.
  rewrite (cmp_opp x y), Hl in Hr. done.
Qed.

#[global] Instance cmp_le_total : Total (@cmp_le A _).
Proof.
  intros x y. unfold cmp_le. rewrite (cmp_opp x y). destruct (cmp x y); naive_solver.
Qed.

Lemma not_cmp_le x y : ¬ cmp_le x y ↔ cmp y x = Lt.
Proof. unfold cmp_le. rewrite <-cmp_gt_lt. destruct (cmp x y); naive_solver. Qed.

Lemma cmp_lt_le_trans x y z : cmp x y = Lt → cmp_le y z → cmp x z = Lt.
Proof. rewrite cmp_le_cases. intros ? [?| ->]; eauto using cmp_lt_trans. Qed.

Lemma cmp_gtb_true x y : cmp_gtb x y = true ↔ cmp y x = Lt.
Proof. unfold cmp_gtb. rewrite <-cmp_gt_lt. by destruct (cmp x y). Qed.

Lemma cmp_gtb_false x y : cmp_gtb x y = false ↔ cmp_le x y.
Proof. unfold cmp_gtb, cmp_le. destruct (cmp x y); naive_solver. Qed.

Lemma cmp_gtb_antisym x y : x ≠ y → cmp_gtb y x = negb (cmp_gtb x y).
Proof.
  intros Hne. unfold cmp_gtb. rewrite (cmp_opp x y).
  destruct (cmp x y) eqn:E; try done. by apply cmp_eq in E.
Qed.

Lemma cmp_gtb_le_trans x y z : cmp_gtb x z = true → cmp_gtb y z = false → cmp_gtb x y = true.
Proof.
  rewrite !cmp_gtb_true, cmp_gtb_false, cmp_le_cases.
  intros Hx [Hy| ->]; [by eapply cmp_lt_trans|done].
Qed.
End laws.

(** ** Instances *)
#[export] Instance N_cmp : Cmp N := N.compare.
#[export] Instance N_cmp_laws : CmpLaws N.
Proof.
  split; unfold cmp, N_cmp.
  - apply N.compare_eq_iff.
  - intros. apply N.compare_antisym.
  - intros x y z. rewrite !N.compare_lt_iff. lia.
Qed.

Fixpoint list_cmp {A} `{Cmp A} (l k : list A) : comparison :=
  match l, k with
  | [], [] => Eq
  | [], _ => Lt
  | _, [] => Gt
  | x :: l, y :: k => match cmp x y with Eq => list_cmp l k | c => c end
  end.
#[export] Instance list_Cmp {A} `{Cmp A} : Cmp (list A) := list_cmp.
#[export] Instance list_cmp_laws {A} `{CmpLaws A} : CmpLaws (list A).
Proof.
  split; unfold cmp, list_Cmp.
  - intros l. induction l as [|x l IH]; intros [|y k]; simpl; try done.
    destruct (cmp x y) eqn:E.
    + apply cmp_eq in E as ->. rewrite IH. naive_solver.
    + split; [done|]. intros [= -> ->]. by rewrite cmp_refl in E.
    + split; [done|]. intros [= -> ->]. by rewrite cmp_refl in E.
  - intros l. induction l as [|x l IH]; intros [|y k]; simpl; try done.
    rewrite (cmp_opp x y), IH. by destruct (cmp x y).
  - intros l. induction l as [|x l IH]; intros [|y k] [|z m]; simpl; try done.
    destruct (cmp x y) eqn:E1; [..|done].
    + apply cmp_eq in E1 as ->. destruct (cmp y z) eqn:E2; eauto.
    + intros _. destruct (cmp y z) eqn:E2; [..|done].
      * apply cmp_eq in E2 as ->. by rewrite E1.
      * by rewrite (cmp_lt_trans x y z).
Qed.

#[export] Instance prod_Cmp {A B} `{Cmp A, Cmp B} : Cmp (A * B) := λ p q,
  match cmp p.1 q.1 with Eq => cmp p.2 q.2 | c => c end.
#[export] Instance prod_cmp_laws {A B} `{CmpLaws A, CmpLaws B} : CmpLaws (A * B).
Proof.
  split; unfold cmp, prod_Cmp.
  - intros [a b] [c d]; simpl. destruct (cmp a c) eqn:E.
    + apply cmp_eq in E as ->. rewrite cmp_eq. naive_solver.
    + split; [done|]. intros [= -> ->]. by rewrite cmp_refl in E.
    + split; [done|]. intros [= -> ->]. by rewrite cmp_refl in E.
  - intros [a b] [c d]; simpl. rewrite (cmp_opp a c), (cmp_opp b d).
    by destruct (cmp a c).
  - intros [a b] [c d] [e f]; simpl. destruct (cmp a c) eqn:E1; [..|done].
    + apply cmp_eq in E1 as ->. destruct (cmp c e) eqn:E2; eauto using cmp_lt_trans.
    + intros _. destruct (cmp c e) eqn:E2; [..|done].
      * apply cmp_eq in E2 as ->. by rewrite E1.
      * by rewrite (cmp_lt_trans a c e).
Qed.

(** ** [Iterator::max_by]: the last of the maximal elements *)
Definition max_step {A} (f : A → A → comparison) (acc : option A) (x : A) : option A :=
  match acc with
  | None => Some x
  | Some y => match f y x with Gt => Some y | _ => Some x end
  end.
Definition max_by {A} (f : A → A → comparison) (l : list A) : option A :=
  foldl (max_step f) None l.

Lemma max_by_None {A} (f : A → A → comparison) l : max_by f l = None ↔ l = [].
Proof.
  assert (∀ l x, is_Some (foldl (max_step f) (Some x) l)) as Hgen.
  { clear l. intros l. induction l as [|y l IH]; simpl; [by eauto|].
    intros x. destruct (f x y); apply IH. }
  destruct l as [|x l]; [done|]. split; [|done]. unfold max_by. simpl.
  destruct (Hgen l x) as [y ->]. done.
Qed.

(** ** Stable sorting by the comparison of a key *)
Section sort.
Context {A K : Type} `{CmpLaws K} (key : A → K).

Definition key_le (x y : A) : Prop := cmp_le (key x) (key y).
#[global] Instance key_le_dec x y : Decision (key_le x y).
Proof. unfold key_le. apply _. Defined.
#[global] Instance key_le_total : Total key_le.
Proof. intros x y. apply (total (@cmp_le K _)). Qed.
#[global] Instance key_le_trans : Transitive key_le.
Proof. intros x y z ??. unfold key_le in *. by etrans. Qed.

Definition sort_by_key (l : list A) : list A := merge_sort key_le l.

Lemma sort_by_key_perm l : sort_by_key l ≡ₚ l.
Proof. apply merge_sort_Permutation. Qed.

Lemma sort_by_key_sorted l : StronglySorted key_le (sort_by_key l).
Proof. apply StronglySorted_merge_sort; apply _. Qed.

Lemma sort_by_key_unique l k :
  (∀ x y, x ∈ l → y ∈ l → key x = key y → x = y) →
  l ≡ₚ k → sort_by_key l = sort_by_key k.
Proof.
  intros Hinj Hp. apply (StronglySorted_unique_strong key_le).
  - intros x y. rewrite !sort_by_key_perm, <-Hp. intros Hx Hy Hl Hr.
    apply Hinj; [done..|]. by apply (anti_symm (@cmp_le K _)).
  - apply sort_by_key_sorted.
  - apply sort_by_key_sorted.
  - by rewrite !sort_by_key_perm.
Qed.

(** A sorted list whose keys determine its elements is what sorting gives. *)
Lemma sort_by_key_eq l k :
  (∀ x y, x ∈ l → y ∈ l → key x = key y → x = y) →
  l ≡ₚ k → StronglySorted key_le k → sort_by_key l = k.
Proof.
  intros Hinj Hp Hk. apply (StronglySorted_unique_strong key_le).
  - intros x y. rewrite !sort_by_key_perm, <-Hp. intros Hx Hy Hl Hr.
    apply Hinj; [done..|]. by apply (anti_symm (@cmp_le K _)).
  - apply sort_by_key_sorted.
  - done.
  - by rewrite sort_by_key_perm.
Qed.

Lemma max_by_key_aux l acc m :
  foldl (max_step (λ x y, cmp (key x) (key y))) acc l = Some m →
  (acc = Some m ∨ m ∈ l) ∧ ∀ x, acc = Some x ∨ x ∈ l → key_le x m.
Proof.
  revert acc. induction l as [|x l IH]; simpl; intros acc Hm.
  { subst. split; [by left|]. intros x [[= ->]|Hx%not_elem_of_nil]; [|done].
    unfold key_le. reflexivity. }
  apply IH in Hm as [Hin Hle]. destruct acc as [y|]; simpl in *.
  - destruct (cmp (key y) (key x)) eqn:E.
    + split; [set_solver|]. intros z [[= <-]|Hz].
      * unfold key_le. apply cmp_eq in E as ->. apply Hle. by left.
      * apply elem_of_cons in Hz as [->|Hz]; apply Hle; auto.
    + split; [set_solver|]. intros z [[= <-]|Hz].
      * trans x; [|apply Hle; by left]. unfold key_le, cmp_le. by rewrite E.
      * apply elem_of_cons in Hz as [->|Hz]; apply Hle; auto.
    + split; [set_solver|]. intros z [[= <-]|Hz]; [apply Hle; by left|].
      apply elem_of_cons in Hz as [->|Hz]; [|apply Hle; auto].
      trans y; [|apply Hle; by left]. unfold key_le, cmp_le.
      rewrite (cmp_opp (key y)), E. done.
  - split; [set_solver|]. intros z [?|Hz]; [done|].
    apply elem_of_cons in Hz as [->|Hz]; apply Hle; auto.
Qed.

Lemma max_by_key l m :
  max_by (λ x y, cmp (key x) (key y)) l = Some m →
  m ∈ l ∧ ∀ x, x ∈ l → key_le x m.
Proof.
  intros [[?|Hin] Hle]%max_by_key_aux; [done|]. split; [done|].
  intros x Hx. apply Hle. auto.
Qed.

Lemma max_by_perm l k :
  (∀ x y, x ∈ l → y ∈ l → key x = key y → x = y) →
  l ≡ₚ k →
  max_by (λ x y, cmp (key x) (key y)) l = max_by (λ x y, cmp (key x) (key y)) k.
Proof.
  intros Hinj Hp.
  destruct (max_by _ l) as [m|] eqn:Em, (max_by _ k) as [n|] eqn:En.
  - apply max_by_key in Em as [Hm Hlem], En as [Hn Hlen]. f_equal. apply Hinj.
    + done.
    + by rewrite Hp.
    + apply (anti_symm (@cmp_le K _)); [apply Hlen; by rewrite <-Hp|].
      apply Hlem. by rewrite Hp.
  - apply max_by_None in En as ->. apply Permutation_nil_r in Hp as ->. done.
  - apply max_by_None in Em as ->. symmetry in Hp.
    apply Permutation_nil_r in Hp as ->. done.
  - done.
Qed.
End sort.

(** ** Ordered maps and sets *)
Section btree.
Context {K : Type} `{Countable K, CmpLaws K}.

(** Iteration of a [BTreeMap] visits the entries in key order. *)
Definition btree_iter {V} (m : gmap K V) : list (K * V) :=
  sort_by_key fst (map_to_list m).
Definition btree_keys {V} (m : gmap K V) : list K := (btree_iter m).*1.
Definition btree_values {V} (m : gmap K V) : list V := (btree_iter m).*2.

Lemma btree_iter_perm {V} (m : gmap K V) : btree_iter m ≡ₚ map_to_list m.
Proof. apply sort_by_key_perm. Qed.

Lemma elem_of_btree_iter {V} (m : gmap K V) k v :
  (k, v) ∈ btree_iter m ↔ m !! k = Some v.
Proof. by rewrite btree_iter_perm, elem_of_map_to_list. Qed.

Lemma elem_of_btree_keys {V} (m : gmap K V) k :
  k ∈ btree_keys m ↔ is_Some (m !! k).
Proof.
  unfold btree_keys. rewrite list_elem_of_fmap. split.
  - intros [[k' v] [-> Hv]]. exists v. by apply elem_of_btree_iter.
  - intros [v Hv]. exists (k, v). split; [done|]. by apply elem_of_btree_iter.
Qed.

Lemma NoDup_btree_keys {V} (m : gmap K V) : NoDup (btree_keys m).
Proof. unfold btree_keys. rewrite btree_iter_perm. apply NoDup_fst_map_to_list. Qed.

Lemma btree_iter_fst_inj {V} (m : gmap K V) x y :
  x ∈ map_to_list m → y ∈ map_to_list m → x.1 = y.1 → x = y.
Proof.
  destruct x as [k v], y as [k' v']. rewrite !elem_of_map_to_list. simpl. naive_solver.
Qed.

(** The values appear in the order of their keys. *)
Lemma btree_values_order {V} (key : V → K) (m : gmap K V) before x after y :
  (∀ k v, m !! k = Some v → key v = k) →
  btree_values m = before ++ x :: after → y ∈ x :: after → cmp_le (key x) (key y).
Proof.
  intros Hkey Hv Hy.
  pose proof (sort_by_key_sorted fst (map_to_list m)) as Hs. fold (btree_iter m) in Hs.
  assert (∀ p, p ∈ btree_iter m → key p.2 = p.1) as Hp.
  { intros [k v] Hin. by apply Hkey, elem_of_btree_iter. }
  unfold btree_values in Hv. revert Hs Hp Hv. generalize (btree_iter m). intros l.
  revert before. induction l as [|p l IH]; intros before Hs Hp Hv; [by destruct before|].
  apply StronglySorted_inv in Hs as [Hs Hall].
  destruct before as [|b before]; csimpl in Hv; simplify_eq.
  - apply elem_of_cons in Hy as [->|Hy]; [unfold cmp_le; by rewrite cmp_refl|].
    apply list_elem_of_fmap in Hy as (q & -> & Hq).
    rewrite (Hp p), (Hp q) by set_solver. by eapply Forall_forall in Hall.
  - eapply IH; [done| |done]. intros q Hq. apply Hp. by right.
Qed.

Lemma btree_iter_fmap {V W} (f : V → W) (m : gmap K V) :
  btree_iter (f <$> m) = prod_map id f <$> btree_iter m.
Proof.
  unfold btree_iter at 1. apply sort_by_key_eq.
  - apply btree_iter_fst_inj.
  - rewrite map_to_list_fmap. by rewrite btree_iter_perm.
  - pose proof (sort_by_key_sorted fst (map_to_list m)) as Hs.
    fold (btree_iter m) in Hs. induction Hs as [|x l Hs IH Hall]; csimpl; constructor; [done|].
    apply Forall_fmap. eapply Forall_impl; [done|]. by intros [] ?.
Qed.
End btree.
