(* ===== verification/Text.v ===== *)
(** Rust strings. A [String] or [&str] is the list of its Unicode scalar
    values ([chars]); [len] and [bytes] go through the UTF-8 encoding, [trim]
    removes [White_Space] characters, and [to_string]/[parse::<u64>] are the
    decimal forms of a [u64]. *)

From Stdlib Require Export String Ascii.
From stdpp Require Import list.
From S2P Require Export Prelude Order.

Definition str : Type := list N.

#[export] Instance str_eq_dec : EqDecision str := _.
#[export] Instance str_countable : Countable str := _.
#[export] Instance str_inhabited : Inhabited str := populate [].
#[export] Instance str_cmp : Cmp str := list_Cmp.
#[export] Instance str_cmp_laws : CmpLaws str := list_cmp_laws.

(** A literal of the source: [lit "item"], written [$"item"]. *)
Definition lit (s : string) : str := N_of_ascii <$> list_ascii_of_string s.
Arguments lit s%_string_scope : simpl never.
#[global] Opaque lit.
Declare Scope text_scope.
Delimit Scope text_scope with text.
Notation "$ s" := (lit s%string) (at level 1, format "$ s") : text_scope.
Open Scope text_scope.

Definition str_eqb (s t : str) : bool := bool_decide (s = t).
Infix "=?s" := str_eqb (at level 70) : text_scope.

Lemma str_eqb_eq s t : (s =?s t) = true ↔ s = t.
Proof. apply bool_decide_eq_true. Qed.
Lemma str_eqb_neq s t : (s =?s t) = false ↔ s ≠ t.
Proof. apply bool_decide_eq_false. Qed.
Lemma str_eqb_refl s : (s =?s s) = true.
Proof. by apply str_eqb_eq. Qed.
#[export] Hint Rewrite str_eqb_eq str_eqb_neq : tts29.

(** ** UTF-8 *)
Definition encode_utf8 (c : N) : list N :=
  (if c <? 128 then [c]
   else if c <? 2048 then [192 + c / 64; 128 + c mod 64]
   else if c <? 65536 then
     [224 + c / 4096; 128 + (c / 64) mod 64; 128 + c mod 64]
   else
     [240 + c / 262144; 128 + (c / 4096) mod 64; 128 + (c / 64) mod 64;
      128 + c mod 64])%N.

(** [str::bytes] and [str::len]. *)
Definition bytes (s : str) : list N := s ≫= encode_utf8.
Definition str_len (s : str) : N := len (bytes s).

(** [str::chars().count()]. *)
Definition chars_count (s : str) : N := len s.

Definition is_ascii_digit (b : N) : bool := ((48 <=? b) && (b <=? 57))%N.
Definition is_ascii_lowercase (b : N) : bool := ((97 <=? b) && (b <=? 122))%N.
Definition is_ascii_uppercase (b : N) : bool := ((65 <=? b) && (b <=? 90))%N.
Definition is_ascii_alphanumeric (b : N) : bool :=
  is_ascii_digit b || is_ascii_lowercase b || is_ascii_uppercase b.
(** [u8::is_ascii_whitespace]: space, tab, LF, form feed, CR. *)
Definition is_ascii_whitespace (b : N) : bool :=
  ((b =? 32) || (b =? 9) || (b =? 10) || (b =? 12) || (b =? 13))%N.
Definition is_ascii_control (b : N) : bool := ((b <? 32) || (b =? 127))%N.

Definition lower_char (b : N) : N := if is_ascii_uppercase b then (b + 32)%N else b.
Definition to_ascii_lowercase (s : str) : str := lower_char <$> s.
Definition eq_ignore_ascii_case (s t : str) : bool :=
  to_ascii_lowercase s =?s to_ascii_lowercase t.

Lemma encode_utf8_ascii c : (c < 128)%N → encode_utf8 c = [c].
Proof. intros H. unfold encode_utf8. by apply N.ltb_lt in H as ->. Qed.

Lemma encode_utf8_non_ascii c : (128 ≤ c)%N → ∀ b, b ∈ encode_utf8 c → (128 ≤ b)%N.
Proof.
  intros H b. unfold encode_utf8. rewrite (proj2 (N.ltb_ge c 128) H).
  repeat case_match; rewrite !elem_of_cons, elem_of_nil; intros Hb;
    destruct_or?; subst; try done; (etrans; [|apply N.le_add_r]); done.
Qed.

Lemma encode_utf8_nonempty c : encode_utf8 c ≠ [].
Proof. unfold encode_utf8. by repeat case_match. Qed.

Lemma bytes_cons c s : bytes (c :: s) = encode_utf8 c ++ bytes s.
Proof. done. Qed.

Lemma bytes_app s t : bytes (s ++ t) = bytes s ++ bytes t.
Proof. unfold bytes. apply bind_app. Qed.

(** A byte test that only ASCII bytes pass is a test on characters. *)
Lemma forallb_bytes (p : N → bool) s :
  (∀ b, p b = true → (b < 128)%N) →
  forallb p (bytes s) = forallb p s.
Proof.
  intros Hp. induction s as [|c s IH]; [done|].
  rewrite bytes_cons, forallb_app, IH. simpl. f_equal.
  destruct (N.lt_ge_cases c 128) as [Hc|Hc].
  - rewrite encode_utf8_ascii by done. simpl. by rewrite andb_true_r.
  - assert (p c = false) as ->.
    { destruct (p c) eqn:E; [|done]. apply Hp in E. lia. }
    pose proof (encode_utf8_nonempty c). pose proof (encode_utf8_non_ascii c Hc) as Hb.
    destruct (encode_utf8 c) as [|b bs]; [done|]. simpl.
    destruct (p b) eqn:E; [|done]. apply Hp in E.
    pose proof (Hb b ltac:(by left)). lia.
Qed.

Lemma str_len_ascii s : Forall (λ c, c < 128)%N s → str_len s = len s.
Proof.
  unfold str_len. induction 1 as [|c s Hc _ IH]; [done|].
  rewrite bytes_cons, encode_utf8_ascii by done. simpl. rewrite !len_cons. lia.
Qed.

Lemma len_le_str_len s : (len s ≤ str_len s)%N.
Proof.
  unfold str_len. induction s as [|c s IH]; [done|].
  rewrite bytes_cons, len_app, len_cons.
  assert (1 ≤ len (encode_utf8 c))%N; [|lia].
  pose proof (encode_utf8_nonempty c). destruct (encode_utf8 c); [done|].
  rewrite len_cons. lia.
Qed.

(** ** Trimming *)
Definition is_whitespace (c : N) : bool :=
  (((9 <=? c) && (c <=? 13)) || (c =? 32) || (c =? 133) || (c =? 160)
   || (c =? 5760) || ((8192 <=? c) && (c <=? 8202)) || (c =? 8232)
   || (c =? 8233) || (c =? 8239) || (c =? 8287) || (c =? 12288))%N.

Fixpoint trim_start (s : str) : str :=
  match s with
  | [] => []
  | c :: s' => if is_whitespace c then trim_start s' else s
  end.
Definition trim_end (s : str) : str := reverse (trim_start (reverse s)).
Definition trim (s : str) : str := trim_end (trim_start s).

(** A string that [trim] leaves alone. *)
Definition trimmed (s : str) : Prop :=
  (∀ c, head s = Some c → is_whitespace c = false) ∧
  (∀ c, last s = Some c → is_whitespace c = false).

Lemma trim_start_suffix s : trim_start s `suffix_of` s.
Proof.
  induction s as [|c s IH]; simpl; [done|].
  destruct (is_whitespace c); [by apply suffix_cons_r|done].
Qed.

Lemma trim_start_head s c : head (trim_start s) = Some c → is_whitespace c = false.
Proof.
  induction s as [|d s IH]; simpl; [done|].
  destruct (is_whitespace d) eqn:E; [done|]. by intros [= <-].
Qed.

Lemma trim_start_id s :
  (∀ c, head s = Some c → is_whitespace c = false) → trim_start s = s.
Proof. destruct s as [|c s]; simpl; [done|]. intros H. by rewrite (H c). Qed.

Lemma trim_end_prefix s : trim_end s `prefix_of` s.
Proof.
  unfold trim_end. destruct (trim_start_suffix (reverse s)) as [k Hk].
  exists (reverse k). rewrite <-reverse_app, <-Hk. by rewrite reverse_involutive.
Qed.

Lemma trim_trimmed s : trimmed (trim s).
Proof.
  unfold trim. split.
  - intros c. destruct (trim_end_prefix (trim_start s)) as [k Hk].
    pose proof (trim_start_head s) as Hh.
    destruct (trim_end (trim_start s)) as [|d t] eqn:E; [done|].
    rewrite Hk in Hh. simpl in *. auto.
  - intros c. unfold trim_end. rewrite <-head_reverse, reverse_involutive.
    apply trim_start_head.
Qed.

Lemma trim_id s : trimmed s → trim s = s.
Proof.
  intros [Hh Hl]. unfold trim, trim_end. rewrite (trim_start_id s) by done.
  rewrite trim_start_id, reverse_involutive; [done|].
  intros c. rewrite head_reverse. auto.
Qed.

Lemma trim_trim s : trim (trim s) = trim s.
Proof. apply trim_id, trim_trimmed. Qed.

Lemma trim_sublist s : ∃ l r, s = l ++ trim s ++ r.
Proof.
  unfold trim. destruct (trim_start_suffix s) as [l Hl].
  destruct (trim_end_prefix (trim_start s)) as [r Hr].
  exists l, r. by rewrite <-Hr, <-Hl.
Qed.

Lemma trim_no_whitespace s : Forall (λ c, is_whitespace c = false) s → trim s = s.
Proof.
  intros Hs. apply trim_id. rewrite Forall_forall in Hs. split; intros c Hc; apply Hs.
  - by apply head_Some_elem_of.
  - by apply last_Some_elem_of.
Qed.

Lemma Forall_trim (P : N → Prop) s : Forall P s → Forall P (trim s).
Proof.
  destruct (trim_sublist s) as (l & r & E). rewrite E at 1.
  rewrite !Forall_app. naive_solver.
Qed.

Lemma len_trim s : (len (trim s) ≤ len s)%N.
Proof. destruct (trim_sublist s) as (l & r & E). rewrite E at 2. rewrite !len_app. lia. Qed.

(** ** Searching *)
Fixpoint starts_with (p s : str) : bool :=
  match p, s with
  | [], _ => true
  | _, [] => false
  | c :: p, d :: s => (c =? d)%N && starts_with p s
  end.
Definition ends_with (p s : str) : bool := starts_with (reverse p) (reverse s).
Fixpoint contains (p s : str) : bool :=
  starts_with p s || match s with [] => false | _ :: s => contains p s end.
Definition contains_char (c : N) (s : str) : bool := existsb (N.eqb c) s.

Lemma starts_with_app p s : starts_with p s = true ↔ ∃ t, s = p ++ t.
Proof.
  revert s. induction p as [|c p IH]; intros s; simpl; [naive_solver|].
  destruct s as [|d s]; [naive_solver|].
  rewrite andb_true_iff, IH, N.eqb_eq. naive_solver.
Qed.

Lemma contains_app p l r : contains p (l ++ p ++ r) = true.
Proof.
  induction l as [|c l IH].
  - assert (starts_with p (p ++ r) = true) as Hs by (apply starts_with_app; by exists r).
    simpl. destruct (p ++ r); simpl in *; by rewrite Hs.
  - simpl. by rewrite IH, orb_true_r.
Qed.

Lemma contains_inv p s : contains p s = true → ∃ l r, s = l ++ p ++ r.
Proof.
  induction s as [|c s IH]; simpl; intros [Hs|Hs]%orb_true_iff; try done;
    try (apply starts_with_app in Hs as [t ->]; by exists [], t).
  apply IH in Hs as (l & r & ->). by exists (c :: l), r.
Qed.

(** A text contains what any of its parts contains. *)
Lemma contains_suffix p l s : contains p s = true → contains p (l ++ s) = true.
Proof. intros (a & b & ->)%contains_inv. rewrite (assoc_L (++)). apply contains_app. Qed.

Lemma trim_start_app s t :
  (∀ c, head t = Some c → is_whitespace c = false) →
  trim_start (s ++ t) = trim_start s ++ t.
Proof.
  intros Ht. induction s as [|c s IH]; simpl; [by apply trim_start_id|].
  destruct (is_whitespace c); [done|]. done.
Qed.

(** A prefix without white space survives trimming. *)
Lemma starts_with_trim p s :
  p ≠ [] → Forall (λ c, is_whitespace c = false) p →
  starts_with p s = true → starts_with p (trim s) = true.
Proof.
  intros Hp Hf (t & ->)%starts_with_app. rewrite Forall_forall in Hf.
  unfold trim, trim_end. rewrite (trim_start_id (p ++ t)).
  - rewrite reverse_app, trim_start_app, reverse_app, reverse_involutive.
    + apply starts_with_app. eauto.
    + intros c. rewrite head_reverse. intros Hc. by apply Hf, last_Some_elem_of.
  - destruct p as [|d p]; [done|]. simpl. intros c [= <-]. apply Hf. by left.
Qed.

(** ** Decimal numbers *)
Fixpoint dec_digits (fuel : nat) (n : N) (acc : str) : str :=
  match fuel with
  | O => acc
  | S fuel =>
      let acc := (48 + n mod 10)%N :: acc in
      if (n <? 10)%N then acc else dec_digits fuel (n / 10)%N acc
  end.

(** [u64::to_string]: at most twenty digits, as [u64::MAX < 10^20]. *)
Definition u64_to_string (n : N) : str := dec_digits 20 n [].

Fixpoint dec_value (acc : N) (s : str) : option N :=
  match s with
  | [] => Some acc
  | c :: s => if is_ascii_digit c then dec_value (10 * acc + (c - 48))%N s else None
  end.

(** [str::parse::<u64>]: an optional leading [+] (a lone [+] is not a number),
    at least one digit, and no overflow. *)
Definition strip_plus (s : str) : str :=
  match s with
  | c :: d :: s' => if (c =? 43)%N then d :: s' else s
  | _ => s
  end.
Definition u64_parse (s : str) : option N :=
  let digits := strip_plus s in
  if is_empty digits then None
  else n ← dec_value 0 digits; if (n <=? u64_max)%N then Some n else None.

Lemma dec_value_app acc s t :
  dec_value acc (s ++ t) = dec_value acc s ≫= λ acc, dec_value acc t.
Proof.
  revert acc. induction s as [|c s IH]; intros acc; simpl; [done|].
  destruct (is_ascii_digit c); [apply IH|done].
Qed.

Lemma dec_digits_value fuel n k :
  (n < 10 ^ N.of_nat fuel)%N → fuel ≠ 0 →
  ∃ s, dec_digits fuel n k = s ++ k ∧ s ≠ [] ∧ dec_value 0 s = Some n ∧
    head s ≠ Some 43%N.
Proof.
  revert n k. induction fuel as [|fuel IH]; intros n k Hn Hf; [done|]. simpl.
  assert (is_ascii_digit (48 + n mod 10) = true) as Hd.
  { unfold is_ascii_digit. pose proof (N.mod_lt n 10 ltac:(done)).
    generalize dependent (n mod 10)%N. intros m Hm. reflect. lia. }
  destruct (n <? 10)%N eqn:E.
  - apply N.ltb_lt in E. exists [(48 + n mod 10)%N].
    split_and!; [done..| |].
    + simpl. rewrite Hd. f_equal. rewrite N.mod_small by done. lia.
    + cbn [head]. intros [= Hc]. revert Hc. generalize (n mod 10)%N. lia.
  - apply N.ltb_ge in E.
    assert (fuel ≠ 0) as Hf'.
    { intros ->. simpl in Hn. change (10 ^ N.of_nat 1)%N with 10%N in Hn. lia. }
    destruct (IH (n / 10)%N ((48 + n mod 10)%N :: k)) as (s & Hs & Hne & Hv & Hh); [|done|].
    { apply N.Div0.div_lt_upper_bound. rewrite Nat2N.inj_succ, N.pow_succ_r' in Hn. done. }
    exists (s ++ [(48 + n mod 10)%N]). split_and!.
    + rewrite Hs. by rewrite <-(assoc_L (++)).
    + by destruct s.
    + rewrite dec_value_app, Hv. simpl. rewrite Hd. f_equal.
      pose proof (N.Div0.div_mod n 10) as Hdm. revert Hdm.
      generalize (n mod 10)%N, (n / 10)%N. intros; lia.
    + by destruct s.
Qed.

Lemma u64_parse_to_string n : (n ≤ u64_max)%N → u64_parse (u64_to_string n) = Some n.
Proof.
  intros Hn. unfold u64_parse, u64_to_string.
  destruct (dec_digits_value 20 n []) as (s & Hs & Hne & Hv & Hh); [|done|].
  { change (10 ^ N.of_nat 20)%N with 100000000000000000000%N. unfold u64_max in Hn. lia. }
  rewrite Hs, app_nil_r.
  assert (strip_plus s = s) as ->.
  { destruct s as [|c [|d s]]; [done..|]. unfold strip_plus.
    destruct (N.eqb_spec c 43); [by subst|done]. }
  destruct (is_empty s) eqn:E; [by apply is_empty_true in E|]. rewrite Hv. simpl.
  by apply N.leb_le in Hn as ->.
Qed.

Lemma u64_parse_bound s n : u64_parse s = Some n → (n ≤ u64_max)%N.
Proof.
  unfold u64_parse. destruct (is_empty _); [done|].
  destruct (dec_value _ _) as [m|]; simpl; [|done].
  destruct (N.leb_spec m u64_max); naive_solver.
Qed.

Lemma dec_digits_digits fuel : ∀ n acc,
  Forall (λ c, is_ascii_digit c = true) acc →
  Forall (λ c, is_ascii_digit c = true) (dec_digits fuel n acc).
Proof.
  induction fuel as [|fuel IH]; intros n acc Hacc; simpl; [done|].
  assert (Forall (λ c, is_ascii_digit c = true) ((48 + n mod 10)%N :: acc)) as Hacc'.
  { constructor; [|done]. unfold is_ascii_digit. pose proof (N.mod_lt n 10 ltac:(done)).
    generalize dependent (n mod 10)%N. intros m Hm. reflect. lia. }
  destruct (n <? 10)%N; [done|]. by apply IH.
Qed.

Lemma u64_to_string_free c n : is_ascii_digit c = false → c ∉ u64_to_string n.
Proof.
  intros Hc Hin. pose proof (dec_digits_digits 20 n [] (Forall_nil_2 _)) as Hall.
  rewrite Forall_forall in Hall. apply Hall in Hin. congruence.
Qed.

Lemma u64_to_string_inj m n :
  (m ≤ u64_max)%N → (n ≤ u64_max)%N → u64_to_string m = u64_to_string n → m = n.
Proof.
  intros Hm Hn Heq. apply u64_parse_to_string in Hm, Hn. rewrite Heq, Hn in Hm. by injection Hm.
Qed.

(** [[String]::join]. *)
Fixpoint join (sep : str) (l : list str) : str :=
  match l with
  | [] => []
  | [x] => x
  | x :: l => x ++ sep ++ join sep l
  end.

(** ** Paths *)

(** [PathBuf::join] of a name that is not absolute. *)
Definition join_name (base name : str) : str :=
  if is_empty base || ends_with $"/" base then base ++ name else base ++ $"/" ++ name.

(** The parts of a path between separators. *)
Fixpoint split_on (sep : N) (s : str) : list str :=
  match s with
  | [] => [[]]
  | c :: s =>
      if (c =? sep)%N then [] :: split_on sep s
      else match split_on sep s with
           | [] => [[c]]
           | p :: ps => (c :: p) :: ps
           end
  end.

(** [Path]'s components: repeated and trailing separators and inner [.] do not
    count; a leading [.] of a relative path does. *)
Definition path_components (s : str) : bool * bool * list str :=
  let parts := split_on 47 s in
  let rooted := starts_with $"/" s in
  (rooted, negb rooted && bool_decide (head parts = Some $"."),
   filter (λ p, p ≠ [] ∧ p ≠ $".") parts).
Definition path_eqb (s t : str) : bool :=
  bool_decide (path_components s = path_components t).
