(* ===== verification/Utf8.v ===== *)
(** Reading text ([String::from_utf8], [fs::read_to_string]): the bytes of a
    file are a string exactly when they are well-formed UTF-8. *)

From S2P Require Export Text.

(** A continuation byte and its six bits. *)
Definition continuation (b : N) : option N :=
  if ((128 <=? b) && (b <? 192))%N then Some (b - 128)%N else None.

(** Well-formed scalar values: neither too short for their encoding, nor
    surrogates, nor too large. *)
Definition scalar (least c : N) : option N :=
  if ((least <=? c) && (c <? 1114112) && negb ((55296 <=? c) && (c <? 57344)))%N
  then Some c else None.

(** The first scalar value of a byte sequence and the bytes after it. *)
Definition decode_char (data : list N) : option (N * list N) :=
  match data with
  | [] => None
  | b0 :: rest =>
      if (b0 <? 128)%N then Some (b0, rest)
      else if ((192 <=? b0) && (b0 <? 224))%N then
        match rest with
        | b1 :: rest =>
            c1 ← continuation b1;
            c ← scalar 128 ((b0 - 192) * 64 + c1)%N; Some (c, rest)
        | _ => None
        end
      else if ((224 <=? b0) && (b0 <? 240))%N then
        match rest with
        | b1 :: b2 :: rest =>
            c1 ← continuation b1; c2 ← continuation b2;
            c ← scalar 2048 ((b0 - 224) * 4096 + c1 * 64 + c2)%N; Some (c, rest)
        | _ => None
        end
      else if ((240 <=? b0) && (b0 <? 248))%N then
        match rest with
        | b1 :: b2 :: b3 :: rest =>
            c1 ← continuation b1; c2 ← continuation b2; c3 ← continuation b3;
            c ← scalar 65536 ((b0 - 240) * 262144 + c1 * 4096 + c2 * 64 + c3)%N;
            Some (c, rest)
        | _ => None
        end
      else None
  end.

Fixpoint decode_chars (fuel : nat) (data : list N) : option str :=
  match data, fuel with
  | [], _ => Some []
  | _, O => None
  | _, S fuel =>
      '(c, rest) ← decode_char data;
      s ← decode_chars fuel rest;
      Some (c :: s)
  end.

(** Every scalar value takes a byte at least. *)
Definition from_utf8 (data : list N) : option str := decode_chars (length data) data.

(** [OsString] on Unix: any bytes; [OsStr::to_str]. *)
Abbreviation OsString := (list N).
Definition to_str : OsString → option str := from_utf8.

(** [std::env::var]. *)
Inductive EnvVar := NotPresent | NotUnicode | EnvValue (value : str).

(** [char]: a Unicode scalar value. *)
Definition is_scalar (c : N) : Prop := (c < 55296 ∨ 57344 ≤ c < 1114112)%N.

Lemma continuation_byte c : (c < 64)%N → continuation (128 + c) = Some c.
Proof.
  intros Hc. unfold continuation. rewrite (proj2 (N.leb_le 128 (128 + c))) by lia.
  rewrite (proj2 (N.ltb_lt (128 + c) 192)) by lia. simpl. f_equal. lia.
Qed.

Lemma scalar_Some least c : is_scalar c → (least ≤ c)%N → scalar least c = Some c.
Proof.
  intros Hc Hl. unfold scalar, is_scalar in *. rewrite (proj2 (N.leb_le least c)) by lia.
  rewrite (proj2 (N.ltb_lt c 1114112)) by lia.
  destruct (N.leb_spec 55296 c), (N.ltb_spec c 57344); simpl; done || lia.
Qed.

(** A value and its low six bits. *)
Lemma low_bits n : (n mod 64 < 64)%N ∧ (n / 64 * 64 + n mod 64 = n)%N.
Proof. split; [by apply N.mod_lt|]. pose proof (N.div_mod n 64 ltac:(done)). lia. Qed.

Lemma decode_encode c rest : is_scalar c → decode_char (encode_utf8 c ++ rest) = Some (c, rest).
Proof.
  intros Hc. unfold encode_utf8. pose proof (low_bits c) as [Hl0 He0].
  pose proof (low_bits (c / 64)) as [Hl1 He1]. pose proof (low_bits (c / 64 / 64)) as [Hl2 He2].
  rewrite !N.Div0.div_div in *. change (64 * 64)%N with 4096%N in *.
  change (64 * 4096)%N with 262144%N in *. unfold is_scalar in Hc.
  generalize dependent (c mod 64)%N. generalize dependent ((c / 64) mod 64)%N.
  generalize dependent ((c / 4096) mod 64)%N. generalize dependent (c / 262144)%N.
  generalize dependent (c / 4096)%N. generalize dependent (c / 64)%N.
  intros q1 q2 q3 r2 Hl2 He2 r1 Hl1 He1 r0 Hl0 He0.
  destruct (N.ltb_spec c 128) as [|H1]; [|destruct (N.ltb_spec c 2048) as [|H2];
    [|destruct (N.ltb_spec c 65536) as [|H3]]]; cbn [app decode_char];
    repeat match goal with
    | |- context [(?a <? ?b)%N] =>
        first [rewrite (proj2 (N.ltb_lt a b)) by lia|rewrite (proj2 (N.ltb_ge a b)) by lia]
    | |- context [(?a <=? ?b)%N] =>
        first [rewrite (proj2 (N.leb_le a b)) by lia|rewrite (proj2 (N.leb_gt a b)) by lia]
    end; cbn [andb]; [done|..]; rewrite !continuation_byte by done; cbn [mbind option_bind];
    rewrite scalar_Some by (unfold is_scalar; lia); cbn [mbind option_bind]; do 2 f_equal; lia.
Qed.

Lemma decode_chars_bytes s : ∀ fuel,
  Forall is_scalar s → length (bytes s) ≤ fuel → decode_chars fuel (bytes s) = Some s.
Proof.
  induction s as [|c s IH]; intros fuel Hs Hf; [by destruct fuel|].
  apply Forall_cons in Hs as [Hc Hs]. rewrite bytes_cons in *. rewrite length_app in Hf.
  pose proof (encode_utf8_nonempty c) as Hne. pose proof (decode_encode c (bytes s) Hc) as Hd.
  destruct (encode_utf8 c) as [|b l]; [done|]. destruct fuel as [|fuel]; [simpl in Hf; lia|].
  change ((b :: l) ++ bytes s) with (b :: (l ++ bytes s)) in *. cbn [decode_chars].
  rewrite Hd. cbn [mbind option_bind]. rewrite IH; [done|done|]. simpl in Hf. lia.
Qed.

(** The bytes of a string are read back as the string. *)
Lemma from_utf8_bytes s : Forall is_scalar s → from_utf8 (bytes s) = Some s.
Proof. intros Hs. by apply decode_chars_bytes. Qed.
