(* ===== verification/Paths.v ===== *)
(** Paths, as [std::path] splits them on Unix. *)

From S2P Require Export Text.

(** [Path::file_name] and [Path::parent], on the reversed text: trailing
    separators and trailing [.] components do not count. *)
Fixpoint trim_path (r : str) : str :=
  match r with
  | c :: r' =>
      if (c =? 47)%N then match r' with [] => r | _ => trim_path r' end
      else if (c =? 46)%N then
        match r' with d :: _ => if (d =? 47)%N then trim_path r' else r | [] => r end
      else r
  | [] => []
  end.
Fixpoint last_component (r : str) : str :=
  match r with
  | c :: r => if (c =? 47)%N then [] else c :: last_component r
  | [] => []
  end.
Fixpoint before_component (r : str) : str :=
  match r with
  | c :: r' => if (c =? 47)%N then r else before_component r'
  | [] => []
  end.

Definition file_name (path : str) : option str :=
  let name := reverse (last_component (trim_path (reverse path))) in
  if is_empty name || (name =?s $".") || (name =?s $"..") then None else Some name.

Definition parent (path : str) : option str :=
  let r := trim_path (reverse path) in
  if is_empty r || (r =?s $"/") then None else Some (reverse (trim_path (before_component r))).

Lemma last_component_no_separator r : 47%N ∉ last_component r.
Proof.
  induction r as [|c r IH]; simpl; [by apply not_elem_of_nil|].
  destruct (N.eqb_spec c 47) as [->|Hc]; [by apply not_elem_of_nil|].
  rewrite not_elem_of_cons. by split.
Qed.

Lemma last_component_app s r :
  47%N ∉ s → (r = [] ∨ ∃ t, r = 47%N :: t) → last_component (s ++ r) = s.
Proof.
  intros Hs Hr. induction s as [|c s IH]; simpl.
  - by destruct Hr as [->|(t & ->)].
  - apply not_elem_of_cons in Hs as [Hc Hs]. destruct (N.eqb_spec c 47); [done|].
    by rewrite IH.
Qed.

Lemma trim_path_id c r : c ≠ 47%N → c ≠ 46%N → trim_path (c :: r) = c :: r.
Proof. intros H1 H2. simpl. by rewrite (proj2 (N.eqb_neq c 47)), (proj2 (N.eqb_neq c 46)). Qed.

Lemma file_name_no_separator path name : file_name path = Some name → 47%N ∉ name.
Proof.
  unfold file_name. destruct (_ || _); [done|]. intros [= <-].
  rewrite elem_of_reverse. apply last_component_no_separator.
Qed.

(** The name of a file that was joined to a directory. *)
Lemma file_name_join base name c :
  47%N ∉ name → last name = Some c → c ≠ 46%N →
  file_name (join_name base name) = Some name.
Proof.
  intros Hn Hl Hc.
  assert (c ≠ 47%N) as Hc' by (intros ->; destruct Hn; by apply last_Some_elem_of).
  assert (∃ r, reverse name = c :: r) as [r Hr].
  { apply last_Some in Hl as [l ->]. rewrite reverse_app. by eexists. }
  assert (last_component (trim_path (reverse (join_name base name))) = reverse name) as Hlast.
  { assert (∀ t, trim_path (reverse name ++ t) = reverse name ++ t) as Htrim
      by (intros t; rewrite Hr; by apply trim_path_id).
    unfold join_name. destruct (_ || _) eqn:Hb; rewrite !reverse_app, <-?(assoc_L (++)), Htrim;
      (apply last_component_app; [by rewrite elem_of_reverse|]); [|right; by eexists].
    apply orb_true_iff in Hb as [->%is_empty_true|Hb]; [by left|right].
    unfold ends_with in Hb. change (reverse $"/") with $"/" in Hb.
    apply starts_with_app in Hb as [t ->]. by exists t. }
  unfold file_name. rewrite Hlast, reverse_involutive.
  assert (is_empty name = false) as -> by (destruct name; done).
  assert ((name =?s $".") = false) as ->
    by (apply str_eqb_neq; intros ->; by injection Hl as <-).
  assert ((name =?s $"..") = false) as -> by (apply str_eqb_neq; intros ->; by injection Hl as <-).
  done.
Qed.

(** [Path::extension]: what follows the last dot of the file name, unless
    nothing is before the dot. The scan is over the reversed name. *)
Fixpoint split_dot (r : str) : option (str * str) :=
  match r with
  | [] => None
  | c :: r =>
      if (c =? 46)%N then Some ([], r)
      else '(after, before) ← split_dot r; Some (c :: after, before)
  end.
Definition extension (path : str) : option str :=
  name ← file_name path;
  '(after, before) ← split_dot (reverse name);
  if is_empty before then None else Some (reverse after).

Definition is_absolute (path : str) : bool := starts_with $"/" path.
(** [Path::join]: an absolute path replaces the base. *)
Definition join_path (base path : str) : str :=
  if is_absolute path then path else join_name base path.

Example extension_last : extension $"/a.b/notes.tar.md" = Some $"md".
Proof. reflexivity. Qed.
Example extension_hidden : extension $"/a.b/.profile" = None.
Proof. reflexivity. Qed.
