(* ===== verification/Files.v ===== *)
(** A file system for the code that must survive failures: the journal
    ([daemon/src/journal.rs]) and the committed audio ([daemon/src/kokoro.rs]).

    A path names a file; every operation is one step, and [fault] decides which
    steps fail: [Some n] makes the step an error, after [n] bytes when it
    writes. Failing every step from some point on is a crash. *)

From S2P Require Export Text.

Inductive IoError := NotFound | AlreadyExistsError | OtherError (reason : str).

#[export] Instance io_error_eq_dec : EqDecision IoError.
Proof. solve_decision. Defined.

Definition io_error_message (e : IoError) : str :=
  match e with
  | NotFound => $"entity not found"
  | AlreadyExistsError => $"entity already exists"
  | OtherError reason => reason
  end.

(** The files, the steps made so far, and the process-wide counter of staged
    names. *)
Record World := mkWorld {
  w_files : gmap str (list N);
  w_steps : nat;
  w_temp_id : N;
}.

Section files.
Context (fault : nat → option nat).

(** One file-system step: [act] is what it does to the files when it does
    not fail, and [torn] what it leaves when it does. *)
Definition fs_step {A} (act : gmap str (list N) → result IoError A * gmap str (list N))
    (torn : nat → gmap str (list N) → gmap str (list N)) : io World IoError A := λ w,
  match fault (w_steps w) with
  | Some n => (Err (OtherError $"fault"), mkWorld (torn n (w_files w)) (S (w_steps w)) (w_temp_id w))
  | None =>
      let '(r, files) := act (w_files w) in
      (r, mkWorld files (S (w_steps w)) (w_temp_id w))
  end.
Definition unchanged (_ : nat) (files : gmap str (list N)) : gmap str (list N) := files.

Definition create_new (path : str) : io World IoError unit :=
  fs_step (λ files, match files !! path with
    | Some _ => (Err AlreadyExistsError, files)
    | None => (Ok (), <[path := []]> files)
    end) unchanged.
(** [write_all]: a failing write may have written a part. *)
Definition append (data : list N) (path : str) (files : gmap str (list N))
    : gmap str (list N) :=
  <[path := default [] (files !! path) ++ data]> files.
Definition write_all (path : str) (data : list N) : io World IoError unit :=
  fs_step (λ files, (Ok (), append data path files)) (λ n, append (take n data) path).
Definition sync : io World IoError unit := fs_step (λ files, (Ok (), files)) unchanged.
Definition fs_read (path : str) : io World IoError (list N) :=
  fs_step (λ files, (ok_or NotFound (files !! path), files)) unchanged.
Definition hard_link (source dest : str) : io World IoError unit :=
  fs_step (λ files, match files !! source, files !! dest with
    | Some data, None => (Ok (), <[dest := data]> files)
    | Some _, Some _ => (Err AlreadyExistsError, files)
    | None, _ => (Err NotFound, files)
    end) unchanged.
Definition rename (source dest : str) : io World IoError unit :=
  fs_step (λ files, match files !! source with
    | Some data => (Ok (), <[dest := data]> (delete source files))
    | None => (Err NotFound, files)
    end) unchanged.
Definition remove_file (path : str) : io World IoError unit :=
  fs_step (λ files, match files !! path with
    | Some _ => (Ok (), delete path files)
    | None => (Err NotFound, files)
    end) unchanged.
(** [Path::exists]: an error counts as absence. *)
Definition exists_file {E} (path : str) : io World E bool := λ w,
  match fault (w_steps w) with
  | Some _ => (Ok false, mkWorld (w_files w) (S (w_steps w)) (w_temp_id w))
  | None => (Ok (negb (is_none (w_files w !! path))),
             mkWorld (w_files w) (S (w_steps w)) (w_temp_id w))
  end.
(** [fetch_add(1, Relaxed)] on the counter of staged names. *)
Definition next_temp_id {E} : io World E N := λ w,
  (Ok (w_temp_id w), mkWorld (w_files w) (w_steps w)
     (if (w_temp_id w =? u64_max)%N then 0%N else w_temp_id w + 1)).

(** ** What the steps do *)

Lemma fs_step_cases {A} act torn w (r : result IoError A) w' :
  fs_step act torn w = (r, w') →
  (∃ n, r = Err (OtherError $"fault") ∧ w_files w' = torn n (w_files w)) ∨
  act (w_files w) = (r, w_files w').
Proof.
  unfold fs_step. destruct (fault (w_steps w)) as [n|].
  - intros [= <- <-]. left. by exists n.
  - destruct (act (w_files w)) as [r0 files] eqn:E. intros [= <- <-]. by right.
Qed.

(** Only the file at this path can differ. *)
Definition only (path : str) (w w' : World) : Prop :=
  ∀ p, p ≠ path → w_files w' !! p = w_files w !! p.

Lemma only_files path w w' : w_files w' = w_files w → only path w w'.
Proof. intros Hw p _. by rewrite Hw. Qed.

Lemma create_new_step path w r w' :
  create_new path w = (r, w') →
  only path w w' ∧
  match r with
  | Ok _ => w_files w !! path = None ∧ w_files w' !! path = Some []
  | Err _ => w_files w' = w_files w
  end.
Proof.
  intros [(n & -> & Hw)|Ha]%fs_step_cases; [by split; [apply only_files|]|].
  destruct (w_files w !! path) eqn:E; injection Ha as <- Hw.
  - by split; [apply only_files|].
  - rewrite <-Hw. split; [intros p ?; rewrite <-Hw; by apply lookup_insert_ne|].
    by rewrite lookup_insert_eq.
Qed.

Lemma create_new_exists path w w' :
  create_new path w = (Err AlreadyExistsError, w') → is_Some (w_files w !! path).
Proof.
  intros [(n & [=] & _)|Ha]%fs_step_cases. destruct (w_files w !! path); [by eexists|done].
Qed.

Lemma write_all_step path data w r w' :
  write_all path data w = (r, w') →
  only path w w' ∧
  (r = Ok () → w_files w' !! path = Some (default [] (w_files w !! path) ++ data)).
Proof.
  intros [(n & -> & Hw)|Ha]%fs_step_cases.
  { split; [|done]. intros p ?. rewrite Hw. by apply lookup_insert_ne. }
  injection Ha as <- Hw. unfold append in Hw. split.
  - intros p ?. rewrite <-Hw. by apply lookup_insert_ne.
  - intros _. by rewrite <-Hw, lookup_insert_eq.
Qed.

Lemma sync_step w r w' : sync w = (r, w') → w_files w' = w_files w.
Proof. intros [(n & -> & Hw)|Ha]%fs_step_cases; [done|]. by injection Ha as _ <-. Qed.

Lemma fs_read_step path w r w' :
  fs_read path w = (r, w') →
  w_files w' = w_files w ∧
  match r with
  | Ok data => w_files w !! path = Some data
  | Err e => e = NotFound → w_files w !! path = None
  end.
Proof.
  intros [(n & -> & Hw)|Ha]%fs_step_cases; [done|].
  destruct (w_files w !! path) eqn:E; by injection Ha as <- ->.
Qed.

Lemma hard_link_step source dest w r w' :
  hard_link source dest w = (r, w') →
  match r with
  | Ok _ => ∃ data, w_files w !! source = Some data ∧ w_files w !! dest = None ∧
      w_files w' = <[dest := data]> (w_files w)
  | Err e => w_files w' = w_files w ∧
      (e = AlreadyExistsError → is_Some (w_files w !! dest))
  end.
Proof.
  intros [(n & -> & Hw)|Ha]%fs_step_cases; [done|].
  destruct (w_files w !! source) as [data|] eqn:Es; [|by injection Ha as <- ->].
  destruct (w_files w !! dest) eqn:Ed; injection Ha as <- Hw; [by rewrite Hw|].
  by exists data.
Qed.

Lemma remove_file_step path w r w' :
  remove_file path w = (r, w') →
  only path w w' ∧
  match r with
  | Ok _ => w_files w' !! path = None
  | Err e => w_files w' = w_files w ∧ (e = NotFound → w_files w !! path = None)
  end.
Proof.
  intros [(n & -> & Hw)|Ha]%fs_step_cases; [by split; [apply only_files|]|].
  destruct (w_files w !! path) eqn:E; injection Ha as <- Hw.
  - rewrite <-Hw, lookup_delete_eq. split; [|done]. intros p ?. rewrite <-Hw.
    by apply lookup_delete_ne.
  - rewrite Hw. by split; [apply only_files|].
Qed.

Lemma exists_file_step {E} path w (r : result E bool) w' :
  exists_file path w = (r, w') →
  w_files w' = w_files w ∧ ∃ b, r = Ok b ∧ (b = true → is_Some (w_files w !! path)).
Proof.
  unfold exists_file. destruct (fault (w_steps w)); intros [= <- <-]; simpl;
    (split; [done|]; eexists; split; [done|]); [done|].
  by intros ?%negb_true_iff%is_none_false.
Qed.
End files.

(** Names in a directory. *)
Lemma join_name_prefix base : ∃ p, ∀ name, join_name base name = p ++ name.
Proof.
  unfold join_name. destruct (_ || _); [by eexists|]. exists (base ++ $"/").
  intros name. by rewrite <-(assoc_L (++)).
Qed.
