(* ===== verification/Url.v ===== *)
(** The [url] crate: what a parsed absolute URL shows through its accessors.
    The parser itself is a parameter. *)

From S2P Require Export Text.

Record Url := mkUrl {
  url_scheme : str;
  url_username : str;
  url_password : option str;
  url_host_str : option str;
  url_path : str;
  url_query : option str;
  url_fragment : option str;
  url_origin : str;   (** [origin().ascii_serialization()] *)
}.

Class UrlParser := { url_parse : str → option Url }.
