(* ===== verification/Clock.v ===== *)
(** The clocks: of the kernel ([core/src/clock.rs]), of the endpoint's tokens
    ([mcp/src/auth.rs]) and of the daemon ([daemon/src/blossom.rs]). A time is
    read as the nanoseconds since the epoch, before which it is negative. *)

From S2P Require Export Text.

(** [SystemTime::duration_since(UNIX_EPOCH)], in nanoseconds. *)
Definition since_epoch (now : Z) : option N := if (now <? 0)%Z then None else Some (Z.to_N now).

(** [Duration::as_secs] and [Duration::as_millis], a 128-bit number. *)
Definition as_secs (duration : N) : N := (duration / 1000000000)%N.
Definition as_millis (duration : N) : N := (duration / 1000000)%N.

(** [unix_seconds] of the kernel, and [now_unix]. *)
Definition system_seconds (now : Z) : N := as_secs (default 0%N (since_epoch now)).
(** [unix_millis]: the conversion to 64 bits wraps around. *)
Definition system_millis (now : Z) : N :=
  match since_epoch now with
  | Some duration => (as_millis duration mod 2 ^ 64)%N
  | None => 0
  end.

(** The programs agree on the time: the seconds the daemon makes of its
    milliseconds are those of the kernel, for the next 584 million years and
    for every time before the epoch, which is read as the epoch. *)
Lemma clocks_agree now :
  (now < 2 ^ 64 * 1000000)%Z → (system_millis now / 1000)%N = system_seconds now.
Proof.
  intros Hnow. unfold system_millis, system_seconds, since_epoch.
  destruct (now <? 0)%Z eqn:Hneg; [done|]. apply Z.ltb_ge in Hneg. simpl.
  unfold as_millis, as_secs. rewrite N.mod_small.
  - by rewrite N.Div0.div_div.
  - apply N.Div0.div_lt_upper_bound. lia.
Qed.

(** Time goes on, as far as the clock does. *)
Lemma system_seconds_mono now later :
  (now ≤ later)%Z → (system_seconds now ≤ system_seconds later)%N.
Proof.
  intros Hle. unfold system_seconds, since_epoch, as_secs.
  destruct (now <? 0)%Z eqn:Hn, (later <? 0)%Z eqn:Hl; simpl; apply N.Div0.div_le_mono; lia.
Qed.
