(* ===== verification/Contract.v ===== *)
(** The data-only contract crate ([contract/src/lib.rs]): the values of spoken
    items, questions, answers, acknowledgements and reactions that every other
    component exchanges. *)

From S2P Require Export Text.

Record DurableArtifact := mkArtifact {
  artifact_url : str;
  artifact_sha256 : str;
  artifact_media_type : str;
  artifact_byte_count : N;
  artifact_label : option str;
}.

Inductive QuestionKind := SingleChoice | MultipleChoice | Freeform.

Record QuestionOption := mkOption {
  option_id : str;
  option_title : str;
  option_description : option str;
}.

Record Question := mkQuestion {
  question_id : str;
  question_kind : QuestionKind;
  question_short_title : str;
  question_title : str;
  question_description : option str;
  question_options : list QuestionOption;
}.

Record QuestionAnswer := mkQuestionAnswer {
  qa_question_id : str;
  qa_values : list str;
}.

Record AnswerBundle := mkAnswerBundle {
  answer_event_id : str;
  answer_author : str;
  answer_created_at : N;
  answer_answers : list QuestionAnswer;
}.

Inductive AcknowledgementState := Active | Heard | Dismissed | Archived.

Record Acknowledgement := mkAcknowledgement {
  ack_event_id : str;
  ack_author : str;
  ack_created_at : N;
  ack_state : AcknowledgementState;
  ack_reason : option str;
}.

Record ReactionSummary := mkReactionSummary {
  summary_emoji : str;
  summary_count : N;
  summary_authors : list str;
}.

Record AttachLink := mkAttachLink { parent_id : str }.

Inductive SpokenItem := mkSpokenItem {
  item_id : str;
  item_author : str;
  item_created_at : N;
  item_agent_name : str;
  item_subject : str;
  item_summary : str;
  item_body : str;
  item_audio_url : option str;
  item_audio : DurableArtifact;
  item_attachments : list DurableArtifact;
  item_questions : list Question;
  item_answer : option AnswerBundle;
  item_acknowledgement : option Acknowledgement;
  item_reactions : list ReactionSummary;
  item_attach : option AttachLink;
  item_children : list SpokenItem;
}.

#[export] Instance artifact_eq_dec : EqDecision DurableArtifact.
Proof. solve_decision. Defined.
#[export] Instance question_kind_eq_dec : EqDecision QuestionKind.
Proof. solve_decision. Defined.
#[export] Instance option_eq_dec' : EqDecision QuestionOption.
Proof. solve_decision. Defined.
#[export] Instance question_eq_dec : EqDecision Question.
Proof. solve_decision. Defined.
#[export] Instance question_answer_eq_dec : EqDecision QuestionAnswer.
Proof. solve_decision. Defined.
#[export] Instance answer_bundle_eq_dec : EqDecision AnswerBundle.
Proof. solve_decision. Defined.
#[export] Instance ack_state_eq_dec : EqDecision AcknowledgementState.
Proof. solve_decision. Defined.
#[export] Instance ack_eq_dec : EqDecision Acknowledgement.
Proof. solve_decision. Defined.
#[export] Instance reaction_summary_eq_dec : EqDecision ReactionSummary.
Proof. solve_decision. Defined.
#[export] Instance attach_link_eq_dec : EqDecision AttachLink.
Proof. solve_decision. Defined.

(** The updates the projection makes in place on a parsed item. *)
Definition set_related (answer : option AnswerBundle) (ack : option Acknowledgement)
    (reactions : list ReactionSummary) (i : SpokenItem) : SpokenItem :=
  mkSpokenItem (item_id i) (item_author i) (item_created_at i) (item_agent_name i)
    (item_subject i) (item_summary i) (item_body i) (item_audio_url i) (item_audio i)
    (item_attachments i) (item_questions i) answer ack reactions (item_attach i)
    (item_children i).

Definition set_children (children : list SpokenItem) (i : SpokenItem) : SpokenItem :=
  mkSpokenItem (item_id i) (item_author i) (item_created_at i) (item_agent_name i)
    (item_subject i) (item_summary i) (item_body i) (item_audio_url i) (item_audio i)
    (item_attachments i) (item_questions i) (item_answer i) (item_acknowledgement i)
    (item_reactions i) (item_attach i) children.

(** Induction over the tree of narrated children. *)
Lemma SpokenItem_tree_ind (P : SpokenItem → Prop) :
  (∀ i, Forall P (item_children i) → P i) → ∀ i, P i.
Proof.
  intros IH. fix go 1. intros i. apply IH. destruct i; simpl.
  induction item_children0 as [|c cs IHcs]; constructor; [apply go|apply IHcs].
Qed.
