(* ===== verification/Nmp.v ===== *)
(** The boundary to the NMP crates ([nmp], [nmp-nip29]), which are not part of
    this repository. Events and rows are the values the code reads through
    their accessors; an [EventId] or [PublicKey] is what its [to_hex] shows,
    and a [RelayUrl] is what its [as_str] shows. Parsers and composers are
    parameters, gathered in the class [Nip29], and what the code relies on of
    them is the class [Nip29Laws]. *)

From S2P Require Export Text.

Record EventId := mkEventId { eid_hex : str }.
Record PublicKey := mkPublicKey { pk_hex : str }.
Record RelayUrl := mkRelayUrl { relay_str : str }.

#[export] Instance event_id_eq_dec : EqDecision EventId.
Proof. solve_decision. Defined.
#[export] Instance public_key_eq_dec : EqDecision PublicKey.
Proof. solve_decision. Defined.
#[export] Instance relay_url_eq_dec : EqDecision RelayUrl.
Proof. solve_decision. Defined.
#[export] Instance event_id_countable : Countable EventId.
Proof. by refine (inj_countable' eid_hex mkEventId _); intros []. Defined.
#[export] Instance event_id_Cmp : Cmp EventId := λ x y, cmp (eid_hex x) (eid_hex y).
#[export] Instance event_id_cmp_laws : CmpLaws EventId.
Proof.
  split; unfold cmp, event_id_Cmp.
  - intros [x] [y]; simpl. rewrite cmp_eq. naive_solver.
  - intros. apply cmp_opp.
  - intros x y z. apply cmp_lt_trans.
Qed.

(** [nmp::Event], with [Timestamp::as_secs], [Kind::as_u16] and
    [Tag::as_slice] already applied. *)
Record Event := mkEvent {
  event_id : EventId;
  event_pubkey : PublicKey;
  event_created_at : N;
  event_kind : N;
  event_tags : list (list str);
  event_content : str;
}.

(** [nmp::Row]: an event and the relays it was seen on. *)
Record Row := mkRow {
  row_event : Event;
  row_sources : list RelayUrl;
}.

(** [nmp::UnsignedEvent], the payload of the intents the program composes. *)
Record UnsignedEvent := mkUnsigned {
  unsigned_pubkey : PublicKey;
  unsigned_created_at : N;
  unsigned_kind : N;
  unsigned_tags : list (list str);
  unsigned_content : str;
}.

(** An event that was obtained by signing an unsigned one. *)
Definition signs (e : Event) (u : UnsignedEvent) : Prop :=
  event_pubkey e = unsigned_pubkey u ∧
  event_created_at e = unsigned_created_at u ∧
  event_kind e = unsigned_kind u ∧
  event_tags e = unsigned_tags u ∧
  event_content e = unsigned_content u.

Class Nip29 := {
  (** [PublicKey::parse], [EventId::from_hex], [RelayUrl::parse]. *)
  pk_parse : str → option PublicKey;
  eid_from_hex : str → option EventId;
  relay_parse : str → option RelayUrl;
  (** [nmp::WriteIntent] and the fields the program reads or assigns. *)
  WriteIntent : Type;
  intent_host : WriteIntent → RelayUrl;
  intent_payload : WriteIntent → UnsignedEvent;
  identity_override : WriteIntent → option PublicKey;
  set_identity_override : option PublicKey → WriteIntent → WriteIntent;
  correlation : WriteIntent → option str;
  set_correlation : option str → WriteIntent → WriteIntent;
  (** [nmp_nip29::compose_group_send] with no timeline evidence: host, group,
      author, time, kind, content and tags. *)
  compose_group_send :
    RelayUrl → str → PublicKey → N → N → str → list (list str) → option WriteIntent;
}.

Class Nip29Laws `{Nip29} : Prop := {
  pk_parse_hex pk : pk_parse (pk_hex pk) = Some pk;
  (** The composer pins the host and adds exactly the group's [h] tag. *)
  send_host h g a t k c ts w :
    compose_group_send h g a t k c ts = Some w → intent_host w = h;
  send_payload h g a t k c ts w :
    compose_group_send h g a t k c ts = Some w →
    intent_payload w = mkUnsigned a t k ([$"h"; g] :: ts) c;
  override_get p w : identity_override (set_identity_override p w) = p;
  override_host p w : intent_host (set_identity_override p w) = intent_host w;
  override_payload p w : intent_payload (set_identity_override p w) = intent_payload w;
  correlation_get c w : correlation (set_correlation c w) = c;
  correlation_host c w : intent_host (set_correlation c w) = intent_host w;
  correlation_payload c w : intent_payload (set_correlation c w) = intent_payload w;
  send_no_override h g a t k c ts w :
    compose_group_send h g a t k c ts = Some w → identity_override w = None;
  correlation_override c w :
    identity_override (set_correlation c w) = identity_override w;
}.

(** A concrete boundary on which the hypotheses can be evaluated: keys, event
    ids and relays are parsed by their shape alone. *)
Module Example_nmp.
Record intent := mkIntent {
  i_host : RelayUrl;
  i_payload : UnsignedEvent;
  i_override : option PublicKey;
  i_correlation : option str;
}.

#[export] Instance nip29 : Nip29 := {|
  pk_parse s := Some (mkPublicKey s);
  eid_from_hex s := Some (mkEventId s);
  relay_parse s := Some (mkRelayUrl s);
  WriteIntent := intent;
  intent_host := i_host;
  intent_payload := i_payload;
  identity_override := i_override;
  set_identity_override p w := mkIntent (i_host w) (i_payload w) p (i_correlation w);
  correlation := i_correlation;
  set_correlation c w := mkIntent (i_host w) (i_payload w) (i_override w) c;
  compose_group_send h g a t k c ts :=
    Some (mkIntent h (mkUnsigned a t k ([$"h"; g] :: ts) c) None None);
|}.

#[export] Instance nip29_laws : Nip29Laws.
Proof. split; try done; try (intros; simpl in *; by simplify_eq). by intros []. Qed.
End Example_nmp.

(** [nmp::WriteStatus]: the variants the program distinguishes, and every other
    one. *)
Inductive WriteStatus :=
  | StatusSigned (event_id : EventId)
  | StatusAcked (relay : RelayUrl)
  | StatusRejected (relay : RelayUrl) (reason : str)
  | StatusGaveUp (relay : RelayUrl)
  | StatusOutcomeUnknown (relay : RelayUrl)
  | StatusCancelled
  | StatusReplaceableConflict
  | StatusFailed (reason : str)
  | StatusOther.

#[export] Instance write_status_eq_dec : EqDecision WriteStatus.
Proof. solve_decision. Defined.
