(* ===== verification/Tags.v ===== *)
(** Reading event tags ([protocol/src/parse/tags.rs]): the bounded text,
    identifier, artifact and question readers shared by the parser and by the
    validators of composed events. *)

From S2P Require Export Contract Nmp.

Definition MAX_ARTIFACT_BYTES : N := 250 * 1024 * 1024.

(** ** Text *)

(** An identifier has 1 to 64 ASCII letters, digits, [-] or [_]. *)
Definition identifier_byte (b : N) : bool :=
  is_ascii_alphanumeric b || (b =? 45)%N || (b =? 95)%N.
Definition identifier (value : str) : option str :=
  let valid := negb (is_empty value) && (str_len value <=? 64)%N
               && forallb identifier_byte (bytes value) in
  then_some valid value.

Definition bounded (value : str) (max : N) : option str :=
  let value := trim value in
  then_some (negb (is_empty value) && (chars_count value <=? max)%N) value.

Definition lower_hex_byte (b : N) : bool :=
  is_ascii_digit b || ((97 <=? b) && (b <=? 102))%N.
Definition is_lower_hex (value : str) (length : N) : bool :=
  (str_len value =? length)%N && forallb lower_hex_byte (bytes value).

(** ** Rows *)

(** The element at an index that a length check has admitted. *)
Definition at_ (value : list str) (i : nat) : str := default [] (value !! i).

Definition rows (row : Row) (name : str) : list (list str) :=
  filter (λ tag, head tag = Some name) (event_tags (row_event row)).

Definition unique (row : Row) (name : str) (max : N) : option str :=
  let matches := rows row name in
  match matches with
  | [value] => _ ← reject_if (negb (len value =? 2)%N); bounded (at_ value 1) max
  | _ => None
  end.

Definition optional (row : Row) (name : str) (max : N) : option (option str) :=
  match rows row name with
  | [] => Some None
  | [value] =>
      if (len value =? 2)%N then Some <$> bounded (at_ value 1) max else None
  | _ => None
  end.

Definition marker (row : Row) : option (str * str) :=
  let matches := rows row $"tts29" in
  value ← head matches;
  then_some ((len matches =? 1)%N && (len value =? 3)%N) (at_ value 1, at_ value 2).

Definition group_matches (row : Row) (group_id : str) : bool :=
  bool_decide (rows row $"h" = [[$"h"; group_id]]).

Definition attach_link (row : Row) : option (option AttachLink) :=
  match rows row $"e" with
  | [] => Some None
  | [value] =>
      let valid := (len value =? 4)%N && is_empty (at_ value 2)
                   && (at_ value 3 =?s $"attach") && is_lower_hex (at_ value 1) 64 in
      _ ← reject_if (negb valid);
      Some (Some (mkAttachLink (at_ value 1)))
  | _ => None
  end.

Definition root_event (row : Row) : option str :=
  match rows row $"e" with
  | [value] =>
      _ ← reject_if (negb (len value =? 4)%N || negb (at_ value 3 =?s $"root"));
      then_some (is_lower_hex (at_ value 1) 64 && is_empty (at_ value 2)) (at_ value 1)
  | _ => None
  end.

Definition artifact (row : list str) (tag_name : str) (with_label : bool)
    : option DurableArtifact :=
  let expected := (if with_label then 6 else 5)%N in
  _ ← reject_if (negb (len row =? expected)%N
                 || negb (bool_decide (head row = Some tag_name)));
  url ← bounded (at_ row 1) 2048;
  sha256 ← bounded (at_ row 2) 64;
  media_type ← bounded (at_ row 3) 128;
  byte_count ← u64_parse (at_ row 4);
  _ ← reject_if (negb (starts_with $"https://" url)
                 || negb (is_lower_hex sha256 64)
                 || negb (contains_char 47 media_type)
                 || (byte_count =? 0)%N
                 || (MAX_ARTIFACT_BYTES <? byte_count)%N);
  Some (mkArtifact url sha256 media_type byte_count
          (if with_label then bounded (at_ row 5) 120 else None)).

(** ** Questions *)
Definition keyed_text_step (max : N) (result : gmap str str) (value : list str)
    : option (gmap str str) :=
  _ ← reject_if (negb (len value =? 3)%N);
  id ← identifier (at_ value 1);
  text ← bounded (at_ value 2) max;
  _ ← reject_if (negb (is_none (result !! id)));
  Some (<[id := text]> result).
Definition keyed_text (row : Row) (name : str) (max : N) : option (gmap str str) :=
  try_fold (keyed_text_step max) ∅ (rows row name).

Definition option_text (value : list str) : option (option str) :=
  match value !! 4 with
  | Some description =>
      if negb (is_empty description) then Some <$> bounded description 300
      else Some None
  | None => Some None
  end.
Definition keyed_options_step
    (state : gmap str (list QuestionOption) * gset (str * str)) (value : list str)
    : option (gmap str (list QuestionOption) * gset (str * str)) :=
  let '(result, seen) := state in
  _ ← reject_if (negb ((len value =? 4)%N || (len value =? 5)%N));
  question_id ← identifier (at_ value 1);
  id ← identifier (at_ value 2);
  _ ← reject_if (bool_decide ((question_id, id) ∈ seen));
  let values := default [] (result !! question_id) in
  _ ← reject_if (len values =? 8)%N;
  description ← option_text value;
  title ← bounded (at_ value 3) 120;
  Some (<[question_id := values ++ [mkOption id title description]]> result,
        {[(question_id, id)]} ∪ seen).
Definition keyed_options (row : Row) : option (gmap str (list QuestionOption)) :=
  fst <$> try_fold keyed_options_step (∅, ∅) (rows row $"option").

Definition question_kind_of (tag : str) : option QuestionKind :=
  if tag =?s $"single" then Some SingleChoice
  else if tag =?s $"multiple" then Some MultipleChoice
  else if tag =?s $"freeform" then Some Freeform
  else None.
Definition is_choice (kind : QuestionKind) : bool :=
  match kind with SingleChoice | MultipleChoice => true | Freeform => false end.

(** One round of the loop over [question] rows; the state is the options not
    yet claimed, the ids seen and the questions read. *)
Definition questions_step (labels descriptions : gmap str str)
    (state : gmap str (list QuestionOption) * gset str * list Question)
    (value : list str)
    : option (gmap str (list QuestionOption) * gset str * list Question) :=
  let '(options, seen, result) := state in
  _ ← reject_if (negb (len value =? 4)%N || bool_decide (at_ value 1 ∈ seen));
  id ← identifier (at_ value 1);
  kind ← question_kind_of (at_ value 2);
  title ← bounded (at_ value 3) 240;
  let question_options := default [] (options !! id) in
  _ ← reject_if (Bool.eqb (is_choice kind) (is_empty question_options));
  Some (delete id options, {[at_ value 1]} ∪ seen,
        result ++ [mkQuestion id kind (default title (labels !! id)) title
                     (descriptions !! id) question_options]).

Definition questions (row : Row) : option (list Question) :=
  let question_rows := rows row $"question" in
  _ ← reject_if (3 <? len question_rows)%N;
  labels ← keyed_text row $"label" 40;
  descriptions ← keyed_text row $"description" 500;
  options ← keyed_options row;
  '(options, known, result) ←
    try_fold (questions_step labels descriptions) (options, ∅, []) question_rows;
  _ ← reject_if (negb (bool_decide (dom labels ⊆ known))
                 || negb (bool_decide (dom descriptions ⊆ known))
                 || negb (bool_decide (options = ∅)));
  Some result.

Arguments keyed_text_step : simpl never.
Arguments keyed_options_step : simpl never.
Arguments questions_step : simpl never.

(** ** Facts about text *)
Lemma bounded_Some value max t :
  bounded value max = Some t ↔ t = trim value ∧ t ≠ [] ∧ (len t ≤ max)%N.
Proof.
  unfold bounded, chars_count. reflect. split; [naive_solver|].
  intros (-> & ? & ?). split_and!; done.
Qed.

Lemma bounded_trimmed value max t : bounded value max = Some t → bounded t max = Some t.
Proof. rewrite !bounded_Some. intros (-> & ? & ?). by rewrite trim_trim. Qed.

Lemma identifier_byte_ascii b : identifier_byte b = true → (b < 128)%N.
Proof.
  unfold identifier_byte, is_ascii_alphanumeric, is_ascii_digit,
    is_ascii_lowercase, is_ascii_uppercase. reflect. lia.
Qed.

Lemma lower_hex_byte_ascii b : lower_hex_byte b = true → (b < 128)%N.
Proof. unfold lower_hex_byte, is_ascii_digit. reflect. lia. Qed.

(** What an identifier is, on characters. *)
Definition is_identifier (s : str) : Prop :=
  s ≠ [] ∧ (len s ≤ 64)%N ∧ Forall (λ c, identifier_byte c = true) s.

Lemma identifier_Some value id :
  identifier value = Some id ↔ id = value ∧ is_identifier value.
Proof.
  unfold identifier, is_identifier. rewrite then_some_Some.
  rewrite forallb_bytes by apply identifier_byte_ascii. reflect.
  split.
  - intros [[[Hne Hl] Hf] ->]. split_and!; [done..| |done].
    rewrite <-str_len_ascii; [done|]. eapply Forall_impl; [done|]. apply identifier_byte_ascii.
  - intros (-> & Hne & Hl & Hf). split_and!; try done.
    rewrite str_len_ascii; [done|]. eapply Forall_impl; [done|]. apply identifier_byte_ascii.
Qed.

Lemma is_lower_hex_true value n :
  is_lower_hex value n = true ↔ len value = n ∧ Forall (λ c, lower_hex_byte c = true) value.
Proof.
  unfold is_lower_hex. rewrite forallb_bytes by apply lower_hex_byte_ascii. reflect.
  split; intros [Hl Hf]; (split; [|done]).
  - rewrite <-Hl. symmetry. apply str_len_ascii. eapply Forall_impl; [done|].
    apply lower_hex_byte_ascii.
  - rewrite <-Hl. apply str_len_ascii. eapply Forall_impl; [done|].
    apply lower_hex_byte_ascii.
Qed.

Lemma identifier_byte_not_whitespace b :
  identifier_byte b = true → is_whitespace b = false.
Proof.
  unfold identifier_byte, is_ascii_alphanumeric, is_ascii_digit,
    is_ascii_lowercase, is_ascii_uppercase, is_whitespace. reflect. lia.
Qed.

Lemma trim_identifier s : is_identifier s → trim s = s.
Proof.
  intros (_ & _ & Hf). apply trim_no_whitespace. eapply Forall_impl; [done|].
  apply identifier_byte_not_whitespace.
Qed.
