(* ===== verification/Parse.v ===== *)
(** The event parser ([protocol/src/parse/mod.rs]): every kind-9 group event is
    read as a spoken item, an answer, an acknowledgement or a reaction, or is
    rejected. *)

From S2P Require Export Tags.

Definition VERSION : str := $"1".

Record Related (T : Type) := mkRelated {
  related_root_id : str;
  related_value : T;
}.
Arguments mkRelated {T} _ _.
Arguments related_root_id {T} _.
Arguments related_value {T} _.

Record Reaction := mkReaction {
  reaction_event_id : str;
  reaction_author : str;
  reaction_created_at : N;
  reaction_emoji : str;
  reaction_active : bool;
}.

Inductive ParsedEvent :=
  | PItem (item : SpokenItem)
  | PAnswer (answer : Related AnswerBundle)
  | PAcknowledgement (ack : Related Acknowledgement)
  | PReaction (reaction : Related Reaction).

Definition row_id (row : Row) : str := eid_hex (event_id (row_event row)).
Definition row_author (row : Row) : str := pk_hex (event_pubkey (row_event row)).
Definition row_created_at (row : Row) : N := event_created_at (row_event row).

Definition audio_media (a : DurableArtifact) : bool :=
  starts_with $"audio/" (artifact_media_type a).

Definition parse_item (row : Row) : option SpokenItem :=
  match rows row $"audio" with
  | [audio_row] =>
      audio ← artifact audio_row $"audio" false;
      _ ← reject_if (negb (audio_media audio));
      let attachment_rows := rows row $"attachment" in
      _ ← reject_if (12 <? len attachment_rows)%N;
      attachments ← mapM (λ value, artifact value $"attachment" true) attachment_rows;
      _ ← reject_if (existsb (λ a, is_none (artifact_label a)) attachments);
      attach ← attach_link row;
      agent_name ← optional row $"agent" 80;
      subject ← unique row $"title" 80;
      summary ← optional row $"summary" 280;
      body ← bounded (event_content (row_event row)) 40000;
      questions ← questions row;
      Some (mkSpokenItem (row_id row) (row_author row) (row_created_at row)
              (default [] agent_name) subject (default [] summary) body
              (Some (artifact_url audio)) audio attachments questions
              None None [] attach [])
  | _ => None
  end.

(** One round of the loop over [answer] rows. *)
Definition parse_answer_step (state : gset str * list QuestionAnswer) (value : list str)
    : option (gset str * list QuestionAnswer) :=
  let '(seen, answers) := state in
  _ ← reject_if ((len value <? 3)%N || (10 <? len value)%N);
  question_id ← identifier (at_ value 1);
  _ ← reject_if (bool_decide (question_id ∈ seen));
  values ← mapM (λ item, bounded item 4000) (drop 2 value);
  Some ({[question_id]} ∪ seen, answers ++ [mkQuestionAnswer question_id values]).

Definition parse_answer (row : Row) : option (Related AnswerBundle) :=
  let answer_rows := rows row $"answer" in
  _ ← reject_if (is_empty answer_rows || (3 <? len answer_rows)%N);
  '(_, answers) ← try_fold parse_answer_step (∅, []) answer_rows;
  root_id ← root_event row;
  Some (mkRelated root_id
          (mkAnswerBundle (row_id row) (row_author row) (row_created_at row) answers)).

Definition ack_state_of (state : str) : option AcknowledgementState :=
  if state =?s $"active" then Some Active
  else if state =?s $"heard" then Some Heard
  else if state =?s $"dismissed" then Some Dismissed
  else if state =?s $"archived" then Some Archived
  else None.

Definition parse_acknowledgement (row : Row) : option (Related Acknowledgement) :=
  text ← unique row $"state" 16;
  state ← ack_state_of text;
  root_id ← root_event row;
  reason ← optional row $"reason" 500;
  Some (mkRelated root_id
          (mkAcknowledgement (row_id row) (row_author row) (row_created_at row)
             state reason)).

Definition parse_reaction (row : Row) : option (Related Reaction) :=
  match rows row $"reaction" with
  | [value] =>
      _ ← reject_if (negb (len value =? 3)%N);
      active ← (if at_ value 2 =?s $"add" then Some true
                else if at_ value 2 =?s $"remove" then Some false else None);
      root_id ← root_event row;
      emoji ← bounded (at_ value 1) 16;
      Some (mkRelated root_id
              (mkReaction (row_id row) (row_author row) (row_created_at row)
                 emoji active))
  | _ => None
  end.

Definition parse (row : Row) (group_id : str) : option ParsedEvent :=
  _ ← reject_if (negb (event_kind (row_event row) =? 9)%N
                 || negb (group_matches row group_id));
  '(type, version) ← marker row;
  if version =?s VERSION then
    if type =?s $"item" then PItem <$> parse_item row
    else if type =?s $"answer" then PAnswer <$> parse_answer row
    else if type =?s $"ack" then PAcknowledgement <$> parse_acknowledgement row
    else if type =?s $"reaction" then PReaction <$> parse_reaction row
    else None
  else None.

(** ** The contract of accepted events

    What [docs/protocol.md] promises of an accepted item, stated without the
    readers. *)

Definition text_ok (max : N) (s : str) : Prop :=
  trimmed s ∧ s ≠ [] ∧ (len s ≤ max)%N.

Definition hex64 (s : str) : Prop :=
  len s = 64%N ∧ Forall (λ c, lower_hex_byte c = true) s.

Record artifact_ok (a : DurableArtifact) : Prop := {
  artifact_https : ∃ rest, artifact_url a = $"https://" ++ rest;
  artifact_url_ok : text_ok 2048 (artifact_url a);
  artifact_digest : hex64 (artifact_sha256 a);
  artifact_media_ok : text_ok 128 (artifact_media_type a);
  artifact_media_slash : 47%N ∈ artifact_media_type a;
  artifact_size : (0 < artifact_byte_count a ≤ MAX_ARTIFACT_BYTES)%N;
}.

Record question_ok (q : Question) : Prop := {
  question_id_ok : is_identifier (question_id q);
  question_title_ok : text_ok 240 (question_title q);
  question_label_ok :
    text_ok 40 (question_short_title q) ∨ question_short_title q = question_title q;
  question_description_ok : ∀ d, question_description q = Some d → text_ok 500 d;
  question_choice_options :
    question_options q = [] ↔ question_kind q = Freeform;
  question_options_bound : (len (question_options q) ≤ 8)%N;
  question_option_ids : NoDup (option_id <$> question_options q);
  question_options_ok : Forall (λ o, is_identifier (option_id o) ∧
    text_ok 120 (option_title o) ∧
    ∀ d, option_description o = Some d → text_ok 300 d) (question_options q);
}.

Record item_ok (i : SpokenItem) : Prop := {
  item_subject_ok : text_ok 80 (item_subject i);
  item_body_ok : text_ok 40000 (item_body i);
  item_agent_ok : item_agent_name i = [] ∨ text_ok 80 (item_agent_name i);
  item_summary_ok : item_summary i = [] ∨ text_ok 280 (item_summary i);
  item_audio_ok : artifact_ok (item_audio i);
  item_audio_media : audio_media (item_audio i) = true;
  item_audio_url_ok : item_audio_url i = Some (artifact_url (item_audio i));
  item_attachments_bound : (len (item_attachments i) ≤ 12)%N;
  item_attachments_ok : Forall (λ a, artifact_ok a ∧
    ∃ l, artifact_label a = Some l ∧ text_ok 120 l) (item_attachments i);
  item_questions_bound : (len (item_questions i) ≤ 3)%N;
  item_question_ids : NoDup (question_id <$> item_questions i);
  item_questions_ok : Forall question_ok (item_questions i);
  item_attach_ok : ∀ l, item_attach i = Some l → hex64 (parent_id l);
}.

Record answer_ok (a : AnswerBundle) : Prop := {
  answer_bound : (1 ≤ len (answer_answers a) ≤ 3)%N;
  answer_ids : NoDup (qa_question_id <$> answer_answers a);
  answer_values_ok : Forall (λ qa, is_identifier (qa_question_id qa) ∧
    (1 ≤ len (qa_values qa) ≤ 8)%N ∧ Forall (text_ok 4000) (qa_values qa))
    (answer_answers a);
}.

Lemma bounded_text_ok s max t : bounded s max = Some t → text_ok max t.
Proof.
  rewrite bounded_Some. intros (-> & ? & ?). split_and!; [apply trim_trimmed|done..].
Qed.

Lemma text_ok_bounded max s : text_ok max s → bounded s max = Some s.
Proof. intros (Ht & ? & ?). apply bounded_Some. by rewrite (trim_id s). Qed.

(** *** Artifacts *)
Lemma artifact_artifact_ok row name with_label a :
  artifact row name with_label = Some a → artifact_ok a.
Proof.
  unfold artifact. intros H. guard H as _. opt H as url Hurl. opt H as sha Hsha.
  opt H as media Hmedia. opt H as n Hn. guard H as [[[[Hh Hx] Hs] H0] Hmax].
  injection H as <-.
  apply is_lower_hex_true in Hx. split; simpl.
  - by apply starts_with_app in Hh.
  - by eapply bounded_text_ok.
  - done.
  - by eapply bounded_text_ok.
  - unfold contains_char in Hs. apply existsb_True in Hs as (c & ? & ->%N.eqb_eq). done.
  - lia.
Qed.

Lemma artifact_label_ok row name a l :
  artifact row name true = Some a → artifact_label a = Some l → text_ok 120 l.
Proof.
  unfold artifact. intros H. guard H as _. opt H as url Hurl. opt H as sha Hsha.
  opt H as media Hmedia. opt H as n Hn. guard H as _. injection H as <-. simpl.
  apply bounded_text_ok.
Qed.

(** *** Single rows *)
Lemma unique_text_ok row name max t : unique row name max = Some t → text_ok max t.
Proof.
  unfold unique. destruct (rows row name) as [|v [|]]; try done. intros H.
  guard H as _. by eapply bounded_text_ok.
Qed.

Lemma optional_text_ok row name max t :
  optional row name max = Some (Some t) → text_ok max t.
Proof.
  unfold optional. destruct (rows row name) as [|v [|]]; try done.
  destruct (len v =? 2)%N; [|done].
  destruct (bounded _ _) as [b|] eqn:E; [|done]. intros [= <-].
  by eapply bounded_text_ok.
Qed.

Lemma attach_link_ok row l : attach_link row = Some (Some l) → hex64 (parent_id l).
Proof.
  unfold attach_link. destruct (rows row _) as [|v [|]]; try done. intros H.
  guard H as [_ Hx]. injection H as <-. by apply is_lower_hex_true.
Qed.

Lemma root_event_ok row id : root_event row = Some id → hex64 id.
Proof.
  unfold root_event. destruct (rows row _) as [|v [|]]; try done. intros H.
  guard H as _. apply then_some_Some in H as [[Hx _]%andb_true_iff <-].
  by apply is_lower_hex_true.
Qed.

(** *** Questions *)
Lemma keyed_text_ok row name max m :
  keyed_text row name max = Some m → map_Forall (λ _, text_ok max) m.
Proof.
  apply (try_fold_option_inv (λ _ m, map_Forall (λ _, text_ok max) m)).
  - apply map_Forall_empty.
  - intros _ v b b' Hb. unfold keyed_text_step. intros H. guard H as _.
    opt H as id Hid. opt H as t Ht. guard H as _. injection H as <-.
    apply map_Forall_insert_2; [|done]. by eapply bounded_text_ok.
Qed.

Definition options_ok (os : list QuestionOption) : Prop :=
  os ≠ [] ∧ (len os ≤ 8)%N ∧ NoDup (option_id <$> os) ∧
  Forall (λ o, is_identifier (option_id o) ∧ text_ok 120 (option_title o) ∧
    ∀ d, option_description o = Some d → text_ok 300 d) os.

Lemma option_text_ok value d : option_text value = Some (Some d) → text_ok 300 d.
Proof.
  unfold option_text. destruct (value !! 4); [|done]. case_match; [|done].
  destruct (bounded _ _) eqn:E; [|done]. intros [= <-]. by eapply bounded_text_ok.
Qed.

Lemma keyed_options_ok row m :
  keyed_options row = Some m → map_Forall (λ _, options_ok) m.
Proof.
  unfold keyed_options. intros (st & Hst & ->)%fmap_Some. revert Hst.
  enough (try_fold keyed_options_step (∅, ∅) (rows row $"option") = Some st →
    map_Forall (λ _, options_ok) st.1 ∧
    ∀ q os o, st.1 !! q = Some os → o ∈ os → (q, option_id o) ∈ st.2) by naive_solver.
  apply (try_fold_option_inv (λ _ st, map_Forall (λ _, options_ok) st.1 ∧
    ∀ q os o, st.1 !! q = Some os → o ∈ os → (q, option_id o) ∈ st.2)); simpl.
  { split; [apply map_Forall_empty|]. intros q os o. by rewrite lookup_empty. }
  intros _ v [m seen] [m' seen'] [Hm Hseen]. unfold keyed_options_step. intros H.
  guard H as _. opt H as q Hq. opt H as id Hid. guard H as Hnew. guard H as H8.
  opt H as d Hd. opt H as t Ht. injection H as <- <-.
  simpl in *. apply identifier_Some in Hq as [-> _], Hid as [-> Hid].
  assert (∀ o, o ∈ default [] (m !! at_ v 1) → (at_ v 1, option_id o) ∈ seen) as Hdef.
  { destruct (m !! at_ v 1) eqn:E; simpl; [eauto|]. by intros o ?%not_elem_of_nil. }
  split.
  - apply map_Forall_insert_2; [|done].
    assert (default [] (m !! at_ v 1) = [] ∨ options_ok (default [] (m !! at_ v 1))) as Ho.
    { destruct (m !! at_ v 1) eqn:E; simpl; [right; by eapply Hm|by left]. }
    split_and!.
    + by destruct (default _ _).
    + rewrite len_app, len_cons, len_nil. destruct Ho as [->|(_ & ? & _)]; [done|lia].
    + rewrite fmap_app. apply NoDup_app. split_and!.
      * destruct Ho as [->|(_ & _ & ? & _)]; [constructor|done].
      * intros i (o & -> & Ho')%list_elem_of_fmap. simpl.
        rewrite list_elem_of_singleton. intros Heq. apply Hnew. rewrite <-Heq. auto.
      * apply NoDup_singleton.
    + apply Forall_app. split.
      * destruct Ho as [->|(_ & _ & _ & ?)]; [constructor|done].
      * apply Forall_singleton. simpl. split_and!; [done|by eapply bounded_text_ok|].
        intros d' ->. by eapply option_text_ok.
  - intros q os o. rewrite lookup_insert. case_decide as Hqq; simpl.
    + intros [= <-]. rewrite elem_of_app, list_elem_of_singleton. subst.
      intros [Ho| ->]; [apply elem_of_union_r; auto|set_solver].
    + intros ? ?. apply elem_of_union_r. eauto.
Qed.

Lemma question_kind_of_choice kind : is_choice kind = false ↔ kind = Freeform.
Proof. by destruct kind. Qed.

Lemma questions_ok row qs :
  questions row = Some qs →
  (len qs ≤ 3)%N ∧ NoDup (question_id <$> qs) ∧ Forall question_ok qs.
Proof.
  unfold questions. intros H. guard H as H3. opt H as labels Hlab. opt H as descs Hdesc.
  opt H as opts Hopts. opt H as [[opts' known] qs'] Hfold. guard H as _.
  injection H as ->.
  apply keyed_text_ok in Hdesc, Hlab. apply keyed_options_ok in Hopts.
  apply (try_fold_option_inv (λ l st, len st.2 = len l ∧
    map_Forall (λ _, options_ok) st.1.1 ∧
    (∀ q, q ∈ st.2 → question_id q ∈ st.1.2) ∧
    NoDup (question_id <$> st.2) ∧ Forall question_ok st.2)) in Hfold.
  - simpl in Hfold. destruct Hfold as (-> & _ & _ & ? & ?). done.
  - simpl. split_and!; [done..| |constructor|done]. by intros q ?%not_elem_of_nil.
  - intros l v [[os seen] res] [[os' seen'] res'] (Hl & Hos & Hseen & Hnd & Hqs).
    unfold questions_step. intros H. guard H as [_ Hnew]. opt H as id Hid.
    opt H as k Hk. opt H as t Ht. guard H as Hc. injection H as <- <- <-.
    simpl in *. apply identifier_Some in Hid as [-> Hid].
    assert (default [] (os !! at_ v 1) = [] ∨ options_ok (default [] (os !! at_ v 1))) as Ho.
    { destruct (os !! at_ v 1) eqn:E; simpl; [right; by eapply Hos|by left]. }
    split_and!.
    + rewrite !len_app, Hl. done.
    + by apply map_Forall_delete.
    + intros q. rewrite elem_of_app, list_elem_of_singleton. set_solver.
    + rewrite fmap_app. apply NoDup_app. split_and!; [done| |apply NoDup_singleton].
      intros i (o & -> & Ho')%list_elem_of_fmap. simpl.
      rewrite list_elem_of_singleton. intros Heq. apply Hnew. rewrite <-Heq. auto.
    + apply Forall_app. split; [done|]. apply Forall_singleton. split; simpl.
      * done.
      * by eapply bounded_text_ok.
      * destruct (labels !! at_ v 1) as [text|] eqn:Htext; simpl; [left; by eapply Hlab|by right].
      * intros d Hd. by eapply Hdesc.
      * rewrite <-question_kind_of_choice, <-is_empty_true.
        destruct (is_choice k), (is_empty _); naive_solver.
      * destruct Ho as [->|(_ & ? & _)]; done.
      * destruct Ho as [->|(_ & _ & ? & _)]; [constructor|done].
      * destruct Ho as [->|(_ & _ & _ & ?)]; [constructor|done].
Qed.

(** *** Whole events *)
Lemma artifacts_ok rs ats :
  mapM (λ value, artifact value $"attachment" true) rs = Some ats →
  Forall (λ a, is_none (artifact_label a) = false) ats →
  Forall (λ a, artifact_ok a ∧ ∃ l, artifact_label a = Some l ∧ text_ok 120 l) ats.
Proof.
  intros Hm%mapM_Some Hl. induction Hm as [|r a rs ats Hr _ IH]; [constructor|].
  apply Forall_cons in Hl as [[l Hl]%is_none_false ?]. constructor; [|by apply IH].
  split; [by eapply artifact_artifact_ok|]. exists l. split; [done|].
  by eapply artifact_label_ok.
Qed.

Lemma optional_default_ok row name max o :
  optional row name max = Some o → default [] o = [] ∨ text_ok max (default [] o).
Proof. destruct o; simpl; [|by left]. right. by eapply optional_text_ok. Qed.

Lemma parse_item_ok row i : parse_item row = Some i → item_ok i.
Proof.
  unfold parse_item. destruct (rows row $"audio") as [|ar [|]]; try done. intros H.
  opt H as audio Haudio. guard H as Hmedia. guard H as H12. opt H as ats Hats.
  guard H as Hlab. opt H as attach Hattach. opt H as agent Hagent.
  opt H as subject Hsubject. opt H as summary Hsummary. opt H as body Hbody.
  opt H as qs Hqs. injection H as <-.
  apply questions_ok in Hqs as (? & ? & ?). split; simpl; try done.
  - by eapply unique_text_ok.
  - by eapply bounded_text_ok.
  - by eapply optional_default_ok.
  - by eapply optional_default_ok.
  - by eapply artifact_artifact_ok.
  - apply length_mapM in Hats. unfold len in *. by rewrite Hats in H12.
  - by eapply artifacts_ok.
  - intros l ->. by eapply attach_link_ok.
Qed.

Lemma parse_answer_ok row r :
  parse_answer row = Some r → hex64 (related_root_id r) ∧ answer_ok (related_value r).
Proof.
  unfold parse_answer. intros H. guard H as [Hne H3]. opt H as [seen ans] Hf.
  opt H as root Hroot. injection H as <-. simpl. split; [by eapply root_event_ok|].
  apply (try_fold_option_inv (λ l st, len st.2 = len l ∧
    (∀ qa, qa ∈ st.2 → qa_question_id qa ∈ st.1) ∧ NoDup (qa_question_id <$> st.2) ∧
    Forall (λ qa, is_identifier (qa_question_id qa) ∧
      (1 ≤ len (qa_values qa) ≤ 8)%N ∧ Forall (text_ok 4000) (qa_values qa)) st.2)) in Hf.
  - simpl in Hf. destruct Hf as (Hl & _ & ? & ?). split; simpl; [|done..].
    rewrite Hl. split; [|done]. assert (len (rows row $"answer") ≠ 0%N); [|lia].
    by rewrite len_0.
  - simpl. split_and!; [done| |constructor|done]. by intros ? ?%not_elem_of_nil.
  - intros l v [sn as'] [sn' as''] (Hl & Hseen & Hnd & Hall). unfold parse_answer_step.
    intros H. guard H as [Hlo Hhi]. opt H as id Hid. guard H as Hnew. opt H as vs Hvs.
    injection H as <- <-. simpl in *. apply identifier_Some in Hid as [-> Hid].
    split_and!.
    + by rewrite !len_app, Hl.
    + intros qa. rewrite elem_of_app, list_elem_of_singleton. set_solver.
    + rewrite fmap_app. apply NoDup_app. split_and!; [done| |apply NoDup_singleton].
      intros i (qa & -> & Hqa)%list_elem_of_fmap. simpl.
      rewrite list_elem_of_singleton. intros Heq. apply Hnew. rewrite <-Heq. auto.
    + apply Forall_app. split; [done|]. apply Forall_singleton. simpl. split_and!; [done|..].
      * apply length_mapM in Hvs. unfold len in *. rewrite length_drop in Hvs. lia.
      * apply length_mapM in Hvs. unfold len in *. rewrite length_drop in Hvs. lia.
      * apply mapM_Some in Hvs. eapply Forall2_Forall_r; [done|].
        apply Forall_forall. intros v' _ t. apply bounded_text_ok.
Qed.

Lemma parse_acknowledgement_ok row r :
  parse_acknowledgement row = Some r →
  hex64 (related_root_id r) ∧ ∀ t, ack_reason (related_value r) = Some t → text_ok 500 t.
Proof.
  unfold parse_acknowledgement. intros H. opt H as t Ht. opt H as st Hst.
  opt H as root Hroot. opt H as reason Hreason. injection H as <-. simpl.
  split; [by eapply root_event_ok|]. intros r ->. by eapply optional_text_ok.
Qed.

Lemma parse_reaction_ok row r :
  parse_reaction row = Some r →
  hex64 (related_root_id r) ∧ text_ok 16 (reaction_emoji (related_value r)).
Proof.
  unfold parse_reaction. destruct (rows row _) as [|v [|]]; try done. intros H.
  guard H as _. opt H as act Hact. opt H as root Hroot. opt H as emoji Hemoji.
  injection H as <-. simpl. split; [by eapply root_event_ok|by eapply bounded_text_ok].
Qed.

(** The identity of a parsed event is the identity of its row. *)
Definition parsed_origin (ev : ParsedEvent) : str * str * N :=
  match ev with
  | PItem i => (item_id i, item_author i, item_created_at i)
  | PAnswer r => (answer_event_id (related_value r), answer_author (related_value r),
                  answer_created_at (related_value r))
  | PAcknowledgement r => (ack_event_id (related_value r), ack_author (related_value r),
                           ack_created_at (related_value r))
  | PReaction r => (reaction_event_id (related_value r), reaction_author (related_value r),
                    reaction_created_at (related_value r))
  end.

Lemma parse_cases row g ev :
  parse row g = Some ev →
  match ev with
  | PItem i => parse_item row = Some i
  | PAnswer r => parse_answer row = Some r
  | PAcknowledgement r => parse_acknowledgement row = Some r
  | PReaction r => parse_reaction row = Some r
  end.
Proof.
  unfold parse. intros H. guard H as _. opt H as [ty v] Hm.
  repeat case_match; simplify_eq; by apply fmap_Some in H as (? & ? & [= <-]).
Qed.

Lemma parse_origin row g ev :
  parse row g = Some ev → parsed_origin ev = (row_id row, row_author row, row_created_at row).
Proof.
  intros H%parse_cases. destruct ev as [i|r|r|r]; simpl.
  - unfold parse_item in H. destruct (rows row $"audio") as [|ar [|]]; try done.
    opt H as ? ?. guard H as _. guard H as _. opt H as ? ?. guard H as _.
    opt H as ? ?. opt H as ? ?. opt H as ? ?. opt H as ? ?. opt H as ? ?. opt H as ? ?.
    by injection H as <-.
  - unfold parse_answer in H. guard H as _. opt H as [] ?. opt H as ? ?.
    by injection H as <-.
  - unfold parse_acknowledgement in H. opt H as ? ?. opt H as ? ?. opt H as ? ?.
    opt H as ? ?. by injection H as <-.
  - unfold parse_reaction in H. destruct (rows row _) as [|v [|]]; try done.
    guard H as _. opt H as ? ?. opt H as ? ?. opt H as ? ?. by injection H as <-.
Qed.

Lemma parse_item_fresh row i :
  parse_item row = Some i →
  item_answer i = None ∧ item_acknowledgement i = None ∧ item_reactions i = [] ∧
  item_children i = [].
Proof.
  unfold parse_item. destruct (rows row $"audio") as [|ar [|]]; try done. intros H.
  opt H as ? ?. guard H as _. guard H as _. opt H as ? ?. guard H as _.
  opt H as ? ?. opt H as ? ?. opt H as ? ?. opt H as ? ?. opt H as ? ?. opt H as ? ?.
  by injection H as <-.
Qed.

Module Example_parse.
Definition author : PublicKey := mkPublicKey (repeat 97%N 64).
Definition digest : str := repeat 48%N 64.
Definition item_tags : list (list str) :=
  [[$"h"; $"group"]; [$"tts29"; $"item"; $"1"]; [$"title"; $"Hello"];
   [$"audio"; $"https://a.example/x.wav"; digest; $"audio/wav"; $"10"];
   [$"question"; $"q1"; $"single"; $"Which one?"]; [$"label"; $"q1"; $"Pick"];
   [$"option"; $"q1"; $"a"; $"Yes"]; [$"option"; $"q1"; $"b"; $"No"]].
Definition item_row (id : N) (at_time : N) : Row :=
  mkRow (mkEvent (mkEventId (repeat id 64)) author at_time 9 item_tags $"Body") [].
Definition answer_row (id : N) (at_time : N) (root : N) (choice : str) : Row :=
  mkRow (mkEvent (mkEventId (repeat id 64)) author at_time 9
    [[$"h"; $"group"]; [$"tts29"; $"answer"; $"1"];
     [$"e"; repeat root 64; []; $"root"]; [$"answer"; $"q1"; choice]] []) [].
End Example_parse.
