(* ===== verification/ParseShape.v ===== *)
(** What an accepted event looks like, tag by tag: the shapes that
    [docs/protocol.md] gives to the four types of events, stated without the
    readers of [Tags], and the soundness of the parser for them. *)

From S2P Require Export Parse.

(** ** Singular tags *)

(** There is one tag of the name, of two elements, and this is its text. *)
Definition one_tag (row : Row) (name value : str) : Prop :=
  ∃ text, rows row name = [[name; text]] ∧ value = trim text.
Definition at_most_one_tag (row : Row) (name : str) (value : option str) : Prop :=
  match value with
  | Some value => one_tag row name value
  | None => rows row name = []
  end.

Lemma rows_head row name tag : tag ∈ rows row name → ∃ rest, tag = name :: rest.
Proof.
  intros [Hh _]%list_elem_of_filter. destruct tag as [|x rest]; simplify_eq/=. by exists rest.
Qed.

(** A tag of a name and a length. *)
Lemma tag_shape row name tag n :
  tag ∈ rows row name → len tag = N.of_nat (S n) → ∃ rest, tag = name :: rest ∧ length rest = n.
Proof.
  intros [rest ->]%rows_head Hl. exists rest. split; [done|]. rewrite len_cons in Hl.
  unfold len in Hl. lia.
Qed.

Ltac elements rest Hl :=
  repeat (destruct rest as [|? rest]; try (discriminate Hl)); clear Hl.

Lemma unique_one row name max value : unique row name max = Some value → one_tag row name value.
Proof.
  unfold unique. destruct (rows row name) as [|tag [|]] eqn:Hr; try done. intros H.
  guard H as Hl. apply bounded_Some in H as (-> & _).
  destruct (tag_shape row name tag 1) as (rest & -> & Hrest); [rewrite Hr; by left|done|].
  elements rest Hrest. by eexists.
Qed.

Lemma optional_one row name max value :
  optional row name max = Some value → at_most_one_tag row name value.
Proof.
  unfold optional, at_most_one_tag. destruct (rows row name) as [|tag [|]] eqn:Hr; try done.
  { by intros [= <-]. }
  destruct (N.eqb_spec (len tag) 2) as [Hl|]; [|done].
  intros (text & Ht & ->)%fmap_Some. apply bounded_Some in Ht as (-> & _).
  destruct (tag_shape row name tag 1) as (rest & -> & Hrest); [rewrite Hr; by left|done|].
  elements rest Hrest. by eexists.
Qed.

Lemma root_event_one row id :
  root_event row = Some id → rows row $"e" = [[$"e"; id; []; $"root"]].
Proof.
  unfold root_event. destruct (rows row $"e") as [|tag [|]] eqn:Hr; try done. intros H.
  guard H as [Hl Hroot]. apply then_some_Some in H as [[_ He]%andb_true_iff <-].
  destruct (tag_shape row $"e" tag 3) as (rest & -> & Hrest); [rewrite Hr; by left|done|].
  elements rest Hrest. unfold at_ in *. simpl in *. rewrite Hroot.
  by apply is_empty_true in He as ->.
Qed.

(** The only [e] tag of an item links it to its parent. *)
Definition attach_tag (row : Row) (link : option AttachLink) : Prop :=
  rows row $"e" = match link with
    | Some link => [[$"e"; parent_id link; []; $"attach"]]
    | None => []
    end.

Lemma attach_link_one row link : attach_link row = Some link → attach_tag row link.
Proof.
  unfold attach_link, attach_tag. destruct (rows row $"e") as [|tag [|]] eqn:Hr; try done.
  { by intros [= <-]. }
  intros H. guard H as [[[Hl He] Ha] _]. injection H as <-.
  destruct (tag_shape row $"e" tag 3) as (rest & -> & Hrest); [rewrite Hr; by left|done|].
  elements rest Hrest. unfold at_ in *. simpl in *.
  by rewrite Ha, He.
Qed.

(** ** Artifacts *)
Definition artifact_tag (name : str) (label : list str) (a : DurableArtifact) (tag : list str)
    : Prop :=
  ∃ url digest media size, tag = [name; url; digest; media; size] ++ label ∧
    artifact_url a = trim url ∧ artifact_sha256 a = trim digest ∧
    artifact_media_type a = trim media ∧ u64_parse size = Some (artifact_byte_count a).
Definition audio_tag (a : DurableArtifact) (tag : list str) : Prop :=
  artifact_tag $"audio" [] a tag ∧ artifact_label a = None.
Definition attachment_tag (tag : list str) (a : DurableArtifact) : Prop :=
  ∃ label, artifact_tag $"attachment" [label] a tag ∧ artifact_label a = Some (trim label).

Lemma artifact_reads tag name with_label a :
  artifact tag name with_label = Some a →
  ∃ label, artifact_tag name label a tag ∧
    if with_label : bool then ∃ text, label = [text] ∧ artifact_label a = bounded text 120
    else label = [] ∧ artifact_label a = None.
Proof.
  unfold artifact. intros H. guard H as [Hl Hh]. opt H as url Hurl. opt H as digest Hdigest.
  opt H as media Hmedia. opt H as n Hn. guard H as _. injection H as <-.
  apply bounded_Some in Hurl as (-> & _), Hdigest as (-> & _), Hmedia as (-> & _).
  destruct tag as [|x tag]; [done|]. injection Hh as ->. rewrite len_cons in Hl. unfold len in Hl.
  destruct with_label.
  - assert (length tag = 5) as Ht by lia. elements tag Ht. unfold at_ in *. simpl in *.
    eexists [_]. split; [|by eexists]. by eexists _, _, _, _.
  - assert (length tag = 4) as Ht by lia. elements tag Ht. unfold at_ in *. simpl in *.
    exists []. split; [|done]. by eexists _, _, _, _.
Qed.

Lemma attachments_read tags ats :
  mapM (λ value, artifact value $"attachment" true) tags = Some ats →
  Forall (λ a, is_none (artifact_label a) = false) ats → Forall2 attachment_tag tags ats.
Proof.
  intros Hm%mapM_Some Hl. induction Hm as [|tag a tags ats Ha _ IH]; [constructor|].
  apply Forall_cons in Hl as [[label Hl]%is_none_false ?]. constructor; [|by apply IH].
  apply artifact_reads in Ha as (? & Ht & text & -> & Hlabel). exists text. split; [done|].
  rewrite Hlabel in Hl |- *. by apply bounded_Some in Hl as Hb; destruct Hb as (-> & _).
Qed.

(** ** Questions *)

(** The texts of a name that are keyed by the id of a question: three elements
    each, and one of each id. *)
Definition keyed_tags (row : Row) (name : str) (ids : list str) : Prop :=
  ∃ texts, rows row name = (λ '(id, text), [name; id; text]) <$> texts ∧
    NoDup texts.*1 ∧ Forall (λ id, id ∈ ids) texts.*1.
Definition keyed_tag (row : Row) (name id value : str) : Prop :=
  ∃ text, [name; id; text] ∈ rows row name ∧ value = trim text.

Lemma keyed_text_reads row name max m :
  keyed_text row name max = Some m →
  (∃ texts, rows row name = (λ '(id, text), [name; id; text]) <$> texts ∧ NoDup texts.*1 ∧
     ∀ id, is_Some (m !! id) ↔ id ∈ texts.*1) ∧
  ∀ id value, m !! id = Some value → keyed_tag row name id value.
Proof.
  intros Hm. unfold keyed_tag.
  assert (∀ tag, tag ∈ rows row name → ∃ rest, tag = name :: rest) as Hheads by apply rows_head.
  unfold keyed_text in Hm. revert Hheads Hm. generalize (rows row name) as tags. intros tags Hheads Hm.
  apply (try_fold_option_inv (λ l m, (∀ tag, tag ∈ l → ∃ rest, tag = name :: rest) →
    (∃ texts, l = (λ '(id, text), [name; id; text]) <$> texts ∧ NoDup texts.*1 ∧
       ∀ id, is_Some (m !! id) ↔ id ∈ texts.*1) ∧
    ∀ id value, m !! id = Some value → ∃ text, [name; id; text] ∈ l ∧ value = trim text))
    in Hm; [exact Hm| | |exact Hheads].
  - intros _. split; [|by intros ? ?; rewrite lookup_empty]. exists []. split_and!; [done|constructor|].
    intros id. rewrite lookup_empty. split; [by intros []|by intros ?%not_elem_of_nil].
  - clear. intros l tag m m' IH Hstep Hheads.
    destruct IH as ((texts & -> & Hnd & Hdom) & Hval); [set_solver|].
    destruct (Hheads tag) as [rest ->]; [set_solver|]. unfold keyed_text_step in Hstep.
    guard Hstep as Hl. opt Hstep as id Hid. opt Hstep as value Hv. guard Hstep as Hnew.
    injection Hstep as <-. rewrite len_cons in Hl. unfold len in Hl.
    assert (length rest = 2) as Hrest by lia. elements rest Hrest. unfold at_ in *. simpl in *.
    apply identifier_Some in Hid as [-> _]. apply bounded_Some in Hv as (-> & _).
    split.
    + exists (texts ++ [(s, s0)]). rewrite !fmap_app. simpl. split_and!; [done| |].
      * apply NoDup_app. split_and!; [done| |apply NoDup_singleton].
        intros id Hid ->%list_elem_of_singleton. apply Hdom in Hid as [? Hid]. by rewrite Hid in Hnew.
      * intros id. rewrite elem_of_app, list_elem_of_singleton, <-Hdom, lookup_insert.
        case_decide; subst; naive_solver.
    + intros id value. rewrite lookup_insert. case_decide as Heq.
      * intros [= <-]. subst. exists s0. set_solver.
      * intros (text & Hin & ->)%Hval. exists text. set_solver.
Qed.

(** The options of a question, in order. *)
Definition option_tag (question : str) (tag : list str) (o : QuestionOption) : Prop :=
  ∃ title rest, tag = [$"option"; question; option_id o; title] ++ rest ∧
    option_title o = trim title ∧
    match option_description o with
    | Some description => ∃ text, rest = [text] ∧ description = trim text
    | None => rest = [] ∨ rest = [[]]
    end.
Definition options_of (row : Row) (question : str) : list (list str) :=
  filter (λ tag, tag !! 1 = Some question) (rows row $"option").

Lemma option_tag_reads tag question id o d :
  tag !! 0 = Some $"option" → (len tag = 4 ∨ len tag = 5)%N → tag !! 1 = Some question →
  tag !! 2 = Some id → option_text tag = Some d → bounded (at_ tag 3) 120 = Some o →
  option_tag question tag (mkOption id o d).
Proof.
  intros H0 Hl H1 H2 Hd (-> & _)%bounded_Some. unfold option_tag, option_text in *. simpl.
  destruct tag as [|x0 [|x1 [|x2 [|x3 rest]]]]; try done;
    [destruct Hl as [Hl|Hl]; discriminate Hl|].
  injection H0 as ->. injection H1 as ->. injection H2 as ->. exists x3, rest.
  rewrite !len_cons in Hl. simpl in Hd. split; [done|]. split; [done|].
  destruct rest as [|text [|? rest]]; simpl in Hd; [injection Hd as <-; by left| |].
  - destruct text as [|c text]; simpl in Hd; [injection Hd as <-; by right|].
    apply fmap_Some in Hd as (d' & Hd' & ->). apply bounded_Some in Hd' as (-> & _). by eexists.
  - rewrite !len_cons in Hl. lia.
Qed.

Lemma keyed_options_reads row m :
  keyed_options row = Some m →
  (∀ question, Forall2 (option_tag question) (options_of row question)
     (default [] (m !! question))) ∧
  ∀ tag, tag ∈ rows row $"option" → ∃ question, tag !! 1 = Some question ∧ is_Some (m !! question).
Proof.
  unfold keyed_options, options_of. intros ([m' seen] & Hm & ->)%fmap_Some. simpl.
  assert (∀ tag, tag ∈ rows row $"option" → ∃ rest, tag = $"option" :: rest) as Hheads
    by apply rows_head.
  revert Hheads Hm. generalize (rows row $"option") as tags. intros tags Hheads Hm.
  apply (try_fold_option_inv (λ l st, (∀ tag, tag ∈ l → ∃ rest, tag = $"option" :: rest) →
    (∀ question, Forall2 (option_tag question) (filter (λ tag, tag !! 1 = Some question) l)
       (default [] (st.1 !! question))) ∧
    ∀ tag, tag ∈ l → ∃ question, tag !! 1 = Some question ∧ is_Some (st.1 !! question))) in Hm;
    [exact Hm| | |exact Hheads].
  - intros _. split; [|by intros ? ?%not_elem_of_nil]. intros question. simpl.
    rewrite lookup_empty. constructor.
  - clear. intros l tag [m seen] [m' seen'] IH Hstep Hheads. simpl in *.
    destruct IH as [Hopts Hdom]; [set_solver|].
    destruct (Hheads tag) as [rest Htag]; [set_solver|]. unfold keyed_options_step in Hstep.
    guard Hstep as Hl. opt Hstep as q Hq. opt Hstep as id Hid. guard Hstep as _. guard Hstep as _.
    opt Hstep as d Hd. opt Hstep as t Ht. injection Hstep as <- _.
    apply identifier_Some in Hq as [-> [Hqne _]], Hid as [-> [Hidne _]].
    assert (tag !! 1 = Some (at_ tag 1)) as Hat1 by (unfold at_ in *; by destruct (tag !! 1)).
    assert (tag !! 2 = Some (at_ tag 2)) as Hat2 by (unfold at_ in *; by destruct (tag !! 2)).
    split.
    + intros question. rewrite filter_app, filter_cons, filter_nil, Hat1, lookup_insert.
      destruct (decide (at_ tag 1 = question)) as [<-|Hne].
      * rewrite !decide_True by done. simpl. apply Forall2_app; [apply Hopts|].
        constructor; [|constructor]. apply option_tag_reads; try done. by rewrite Htag.
      * rewrite !decide_False by congruence. rewrite app_nil_r. apply Hopts.
    + intros tag' [Hin| ->%list_elem_of_singleton]%elem_of_app.
      * destruct (Hdom _ Hin) as (question & ? & ?). exists question. split; [done|].
        rewrite lookup_insert. by case_decide.
      * exists (at_ tag 1). by rewrite lookup_insert_eq.
Qed.

(** One question: its label is its own, or else its title. *)
Definition question_tag (row : Row) (tag : list str) (q : Question) : Prop :=
  (∃ kind title, tag = [$"question"; question_id q; kind; title] ∧
     question_kind_of kind = Some (question_kind q) ∧ question_title q = trim title) ∧
  (keyed_tag row $"label" (question_id q) (question_short_title q) ∨
   (∀ text, [$"label"; question_id q; text] ∉ rows row $"label") ∧
     question_short_title q = question_title q) ∧
  match question_description q with
  | Some description => keyed_tag row $"description" (question_id q) description
  | None => ∀ text, [$"description"; question_id q; text] ∉ rows row $"description"
  end ∧
  Forall2 (option_tag (question_id q)) (options_of row (question_id q)) (question_options q).

(** The questions are those of the [question] tags, in order; every label,
    description and option is that of one of them. *)
Record questions_read (row : Row) (qs : list Question) : Prop := {
  qr_questions : Forall2 (question_tag row) (rows row $"question") qs;
  qr_labels : keyed_tags row $"label" (question_id <$> qs);
  qr_descriptions : keyed_tags row $"description" (question_id <$> qs);
  qr_options tag : tag ∈ rows row $"option" →
    ∃ id, tag !! 1 = Some id ∧ id ∈ question_id <$> qs;
}.

Lemma keyed_tags_of row name max m (known : gset str) ids :
  keyed_text row name max = Some m → dom m ⊆ known → (∀ id, id ∈ known → id ∈ ids) →
  keyed_tags row name ids.
Proof.
  intros [(texts & Hr & Hnd & Hdom) _]%keyed_text_reads Hsub Hknown. exists texts.
  split_and!; [done..|]. apply Forall_forall. intros id Hid%Hdom. apply Hknown, Hsub.
  by apply elem_of_dom.
Qed.

Lemma keyed_text_none row name max m id :
  keyed_text row name max = Some m → m !! id = None → ∀ text, [name; id; text] ∉ rows row name.
Proof.
  intros [(texts & -> & _ & Hdom) _]%keyed_text_reads Hn text ([id' t] & Heq & Hin)%list_elem_of_fmap.
  injection Heq as <- <-. assert (is_Some (m !! id)) as [? ?]; [|congruence].
  apply Hdom. by apply (list_elem_of_fmap_2 fst) in Hin.
Qed.

(** The state of the loop over the questions, after some of them: their
    options are claimed, their ids are known. *)
Record claiming (row : Row) (labels descriptions : gmap str str)
    (options0 : gmap str (list QuestionOption)) (tags : list (list str))
    (st : gmap str (list QuestionOption) * gset str * list Question) : Prop := {
  cl_read : Forall2 (question_tag row) tags st.2;
  cl_known id : id ∈ st.1.2 ↔ id ∈ question_id <$> st.2;
  cl_options id : st.1.1 !! id = if bool_decide (id ∈ st.1.2) then None else options0 !! id;
}.

Lemma questions_step_claims row labels descriptions options0 :
  keyed_text row $"label" 40 = Some labels →
  keyed_text row $"description" 500 = Some descriptions →
  keyed_options row = Some options0 →
  ∀ tags st tag st', (∃ rest, tag = $"question" :: rest) →
    claiming row labels descriptions options0 tags st →
    questions_step labels descriptions st tag = Some st' →
    claiming row labels descriptions options0 (tags ++ [tag]) st'.
Proof.
  intros Hlabels Hdescs Hopts tags [[os known] qs] tag st' [rest ->] [Hread Hknown Hos] Hstep.
  simpl in *. unfold questions_step in Hstep. guard Hstep as [Hl Hnew]. opt Hstep as id Hid.
  opt Hstep as kind Hkind. opt Hstep as title Htitle. guard Hstep as _. injection Hstep as <-.
  rewrite len_cons in Hl. unfold len in Hl. assert (length rest = 3) as Hrest by lia.
  elements rest Hrest. unfold at_ in *. simpl in *.
  apply identifier_Some in Hid as [-> _]. apply bounded_Some in Htitle as (-> & _).
  split; simpl.
  - apply Forall2_app; [done|]. constructor; [|constructor]. split_and!; simpl.
    + by eexists _, _.
    + destruct (labels !! s) as [l|] eqn:Hls; simpl; [left|right; split; [|done]].
      * by eapply keyed_text_reads.
      * by eapply keyed_text_none.
    + destruct (descriptions !! s) as [d|] eqn:Hds;
        [by eapply keyed_text_reads|by eapply keyed_text_none].
    + rewrite Hos, bool_decide_false by done. by apply keyed_options_reads.
  - intros id. rewrite fmap_app, elem_of_app, <-Hknown. set_solver.
  - intros id. rewrite lookup_delete. case_decide as Hs.
    + subst. by rewrite bool_decide_true by set_solver.
    + rewrite Hos. by rewrite (bool_decide_ext (id ∈ {[s]} ∪ known) (id ∈ known)) by set_solver.
Qed.

Lemma questions_reads row qs : questions row = Some qs → questions_read row qs.
Proof.
  unfold questions. intros H. guard H as _. opt H as labels Hlabels. opt H as descs Hdescs.
  opt H as opts Hopts. opt H as [[os known] qs'] Hfold. guard H as [[Hl Hd] Hempty].
  injection H as ->.
  assert (claiming row labels descs opts (rows row $"question") (os, known, qs)) as [Hread Hknown Hos].
  { assert (∀ tag, tag ∈ rows row $"question" → ∃ rest, tag = $"question" :: rest) as Hheads
      by apply rows_head.
    revert Hheads Hfold. generalize (rows row $"question") as tags. intros tags Hheads Hfold.
    apply (try_fold_option_inv (λ l st, (∀ tag, tag ∈ l → ∃ rest, tag = $"question" :: rest) →
      claiming row labels descs opts l st)) in Hfold; [exact Hfold| | |exact Hheads].
    - intros _. split; simpl; [done|set_solver|]. intros id.
      by rewrite bool_decide_false by set_solver.
    - intros l tag st st' IH Hstep Hh. eapply questions_step_claims; [done..| | |exact Hstep].
      + apply Hh. set_solver.
      + apply IH. set_solver. }
  simpl in *. split; [done|eapply keyed_tags_of; [done..|apply Hknown]
    |eapply keyed_tags_of; [done..|apply Hknown]|].
  intros tag (id & Hid & Hsome)%(proj2 (keyed_options_reads _ _ Hopts)). exists id. split; [done|].
  apply Hknown. destruct (decide (id ∈ known)) as [|Hn]; [done|].
  specialize (Hos id). rewrite bool_decide_false, Hempty, lookup_empty in Hos by done.
  rewrite <-Hos in Hsome. by destruct Hsome.
Qed.

(** ** The four types of events *)
Record item_read (row : Row) (i : SpokenItem) : Prop := {
  ir_title : one_tag row $"title" (item_subject i);
  ir_summary : ∃ text, at_most_one_tag row $"summary" text ∧ item_summary i = default [] text;
  ir_agent : ∃ text, at_most_one_tag row $"agent" text ∧ item_agent_name i = default [] text;
  ir_audio : ∃ tag, rows row $"audio" = [tag] ∧ audio_tag (item_audio i) tag;
  ir_attachments : Forall2 attachment_tag (rows row $"attachment") (item_attachments i);
  ir_attach : attach_tag row (item_attach i);
  ir_body : item_body i = trim (event_content (row_event row));
  ir_questions : questions_read row (item_questions i);
}.

Definition root_tag (row : Row) (id : str) : Prop :=
  rows row $"e" = [[$"e"; id; []; $"root"]].

Definition answer_reads (tag : list str) (answer : QuestionAnswer) : Prop :=
  ∃ values, tag = $"answer" :: qa_question_id answer :: values ∧
    qa_values answer = trim <$> values.

Definition state_name (state : AcknowledgementState) : str :=
  match state with
  | Active => $"active" | Heard => $"heard" | Dismissed => $"dismissed" | Archived => $"archived"
  end.

(** The type of the marker, and the tags that go with it. *)
Definition type_name (ev : ParsedEvent) : str :=
  match ev with
  | PItem _ => $"item" | PAnswer _ => $"answer" | PAcknowledgement _ => $"ack"
  | PReaction _ => $"reaction"
  end.
Definition event_read (row : Row) (ev : ParsedEvent) : Prop :=
  match ev with
  | PItem i => item_read row i
  | PAnswer r => root_tag row (related_root_id r) ∧
      Forall2 answer_reads (rows row $"answer") (answer_answers (related_value r))
  | PAcknowledgement r => root_tag row (related_root_id r) ∧
      one_tag row $"state" (state_name (ack_state (related_value r))) ∧
      at_most_one_tag row $"reason" (ack_reason (related_value r))
  | PReaction r => root_tag row (related_root_id r) ∧
      ∃ emoji, reaction_emoji (related_value r) = trim emoji ∧
        rows row $"reaction" = [[$"reaction"; emoji;
          if reaction_active (related_value r) then $"add" else $"remove"]]
  end.

Lemma parse_item_read row i : parse_item row = Some i → item_read row i.
Proof.
  unfold parse_item. destruct (rows row $"audio") as [|tag [|]] eqn:Haudio; try done. intros H.
  opt H as audio Ha. guard H as _. guard H as _. opt H as ats Hats. guard H as Hlab.
  opt H as attach Hattach. opt H as agent Hagent. opt H as subject Hsubject.
  opt H as summary Hsummary. opt H as body Hbody. opt H as qs Hqs. injection H as <-.
  split; simpl.
  - by eapply unique_one.
  - exists summary. split; [|done]. by eapply optional_one.
  - exists agent. split; [|done]. by eapply optional_one.
  - exists tag. split; [done|]. apply artifact_reads in Ha as (? & Ht & -> & Hl). by split.
  - by eapply attachments_read.
  - by eapply attach_link_one.
  - by apply bounded_Some in Hbody as (-> & _).
  - by apply questions_reads.
Qed.

Lemma parse_answer_read row r :
  parse_answer row = Some r →
  root_tag row (related_root_id r) ∧
  Forall2 answer_reads (rows row $"answer") (answer_answers (related_value r)).
Proof.
  unfold parse_answer. intros H. guard H as _. opt H as [seen answers] Hf.
  opt H as root Hroot. injection H as <-. simpl. split; [by apply root_event_one|].
  assert (∀ tag, tag ∈ rows row $"answer" → ∃ rest, tag = $"answer" :: rest) as Hheads
    by apply rows_head.
  revert Hheads Hf. generalize (rows row $"answer") as tags. intros tags Hheads Hf.
  apply (try_fold_option_inv (λ l st, (∀ tag, tag ∈ l → ∃ rest, tag = $"answer" :: rest) →
    Forall2 answer_reads l st.2)) in Hf; [exact Hf|done| |exact Hheads].
  clear. intros l tag [seen answers] [seen' answers'] IH Hstep Hheads. simpl in *.
  destruct (Hheads tag) as [rest ->]; [set_solver|]. unfold parse_answer_step in Hstep.
  guard Hstep as [Hlo _]. opt Hstep as id Hid. guard Hstep as _. opt Hstep as values Hv.
  injection Hstep as _ <-. destruct rest as [|x rest]; [done|]. unfold at_ in *. simpl in *.
  apply identifier_Some in Hid as [-> _]. apply Forall2_app; [apply IH; set_solver|].
  constructor; [|constructor]. exists rest. split; [done|]. simpl.
  rewrite drop_0 in Hv. apply mapM_Some in Hv. clear -Hv.
  induction Hv as [|value text texts values Hb _ IH]; [done|]. csimpl.
  apply bounded_Some in Hb as (-> & _). by rewrite IH.
Qed.

Lemma ack_state_named text state : ack_state_of text = Some state → text = state_name state.
Proof.
  unfold ack_state_of. intros H. repeat case_match; simplify_eq;
    by match goal with Hs : (_ =?s _) = true |- _ => apply str_eqb_eq in Hs end.
Qed.

Lemma parse_acknowledgement_read row r :
  parse_acknowledgement row = Some r → event_read row (PAcknowledgement r).
Proof.
  unfold parse_acknowledgement. intros H. opt H as text Ht. opt H as state Hs%ack_state_named.
  opt H as root Hroot. opt H as reason Hreason. injection H as <-. simpl. subst text.
  split_and!; [by apply root_event_one|by eapply unique_one|by eapply optional_one].
Qed.

Lemma parse_reaction_read row r :
  parse_reaction row = Some r → event_read row (PReaction r).
Proof.
  unfold parse_reaction. destruct (rows row $"reaction") as [|tag [|]] eqn:Hr; try done. intros H.
  guard H as Hl. opt H as active Hactive. opt H as root Hroot. opt H as emoji Hemoji.
  injection H as <-. simpl. split; [by apply root_event_one|].
  destruct (tag_shape row $"reaction" tag 2) as (rest & -> & Hrest); [rewrite Hr; by left|done|].
  elements rest Hrest. unfold at_ in *. simpl in *. apply bounded_Some in Hemoji as (-> & _).
  exists s. split; [done|]. rewrite Hr.
  destruct (s0 =?s $"add") eqn:Hadd; [|destruct (s0 =?s $"remove") eqn:Hremove; [|done]];
    injection Hactive as <-.
  - by apply str_eqb_eq in Hadd as ->.
  - by apply str_eqb_eq in Hremove as ->.
Qed.

Lemma parse_read row g ev :
  parse row g = Some ev → event_read row ev ∧
    rows row $"tts29" = [[$"tts29"; type_name ev; VERSION]].
Proof.
  intros H. split.
  - apply parse_cases in H. destruct ev; [by apply parse_item_read|by apply parse_answer_read
      |by apply parse_acknowledgement_read|by apply parse_reaction_read].
  - unfold parse in H. guard H as _. opt H as [type version] Hm.
    unfold marker in Hm. destruct (rows row $"tts29") as [|tag tags] eqn:Hr; [done|]. cbn [head mbind option_bind] in Hm.
    apply then_some_Some in Hm as [[Hn Hl]%andb_true_iff Heq].
    destruct tags; [|rewrite !len_cons in Hn; apply N.eqb_eq in Hn; lia].
    apply N.eqb_eq in Hl.
    destruct (tag_shape row $"tts29" tag 2) as (rest & -> & Hrest); [rewrite Hr; by left|done|].
    elements rest Hrest. unfold at_ in Heq. simpl in Heq. injection Heq as -> ->.
    repeat case_match; simplify_eq; apply fmap_Some in H as (? & _ & ->);
      repeat match goal with Hs : (_ =?s _) = true |- _ => apply str_eqb_eq in Hs as -> end; done.
Qed.

(** C39: an accepted event is a kind-9 event whose only group tag is the parsed
    group and whose only marker is that of its type and of version 1. The parsed
    value carries the event's own id, author and time, and is what its tags say,
    trimmed: each singular tag occurs exactly once (a summary, an agent, a
    reason or a link to a parent at most once), and an [e] tag is the link to
    the parent or to the root and nothing else; the attachments, questions,
    options and answers are those of the tags, all of them and in order; labels
    and descriptions belong to one question each. The values satisfy the bounds
    of the protocol, that of forty characters on labels among them; and a parsed
    item has no answer, acknowledgement, reaction or child yet. *)
Theorem parse_sound row g ev :
  parse row g = Some ev →
  event_kind (row_event row) = 9%N ∧
  rows row $"h" = [[$"h"; g]] ∧
  rows row $"tts29" = [[$"tts29"; type_name ev; $"1"]] ∧
  parsed_origin ev = (row_id row, row_author row, row_created_at row) ∧
  event_read row ev ∧
  match ev with
  | PItem i => item_ok i ∧ item_answer i = None ∧ item_acknowledgement i = None ∧
               item_reactions i = [] ∧ item_children i = []
  | PAnswer r => hex64 (related_root_id r) ∧ answer_ok (related_value r)
  | PAcknowledgement r =>
      hex64 (related_root_id r) ∧
      ∀ t, ack_reason (related_value r) = Some t → text_ok 500 t
  | PReaction r =>
      hex64 (related_root_id r) ∧ text_ok 16 (reaction_emoji (related_value r))
  end.
Proof.
  intros H. pose proof (parse_cases _ _ _ H) as Hc. pose proof (parse_read _ _ _ H) as [Hr Hm].
  pose proof (parse_origin _ _ _ H) as Ho. unfold parse, group_matches in H.
  guard H as [Hk Hg]. split_and!; [done..|].
  destruct ev; eauto using parse_item_ok, parse_item_fresh, parse_answer_ok,
    parse_acknowledgement_ok, parse_reaction_ok.
Qed.

Lemma parse_sound_witness :
  ∃ i, parse (Example_parse.item_row 49 5) $"group" = Some (PItem i) ∧
    item_read (Example_parse.item_row 49 5) i ∧
    question_short_title <$> item_questions i = [$"Pick"].
Proof.
  destruct (parse (Example_parse.item_row 49 5) $"group") as [[i|?|?|?]|] eqn:E;
    try (exfalso; vm_compute in E; discriminate).
  exists i. split; [done|]. split; [apply (parse_sound _ $"group" _ E)|].
  vm_compute in E. injection E as <-. reflexivity.
Defined.
