(* ===== verification/Compose.v ===== *)
(** Composing spoken items ([protocol/src/compose.rs]): validation of a frozen
    item, its tags, the NMP write intent, and what a successful validation
    establishes. *)

From S2P Require Export Parse.

Record FrozenSpokenItem := mkFrozen {
  fz_author : str;
  fz_created_at : N;
  fz_group_id : str;
  fz_agent_name : str;
  fz_subject : str;
  fz_summary : str;
  fz_body : str;
  fz_audio : DurableArtifact;
  fz_attachments : list DurableArtifact;
  fz_questions : list Question;
  fz_attach : option AttachLink;
}.

#[export] Instance frozen_eq_dec : EqDecision FrozenSpokenItem.
Proof. solve_decision. Defined.

Inductive ComposeError :=
  | InvalidAuthor
  | InvalidField (field : str)
  | InvalidTag.

#[export] Instance compose_error_eq_dec : EqDecision ComposeError.
Proof. solve_decision. Defined.

(** [Display for ComposeError]. *)
Definition compose_error_message (e : ComposeError) : str :=
  match e with
  | InvalidAuthor => $"the frozen author is not a public key"
  | InvalidField field => $"invalid frozen field: " ++ field
  | InvalidTag => $"NMP refused a generated protocol tag"
  end.

(** ** Tags *)
Definition vec_insert {A} (i : nat) (x : A) (l : list A) : list A :=
  take i l ++ x :: drop i l.

Definition artifact_row (value : DurableArtifact) (name : str) : list str :=
  [name; artifact_url value; artifact_sha256 value; artifact_media_type value;
   u64_to_string (artifact_byte_count value)]
  ++ match artifact_label value with Some label => [label] | None => [] end.

Definition kind_tag (kind : QuestionKind) : str :=
  match kind with
  | SingleChoice => $"single"
  | MultipleChoice => $"multiple"
  | Freeform => $"freeform"
  end.

Definition option_row (question : Question) (option : QuestionOption) : list str :=
  [$"option"; question_id question; option_id option; option_title option]
  ++ match option_description option with Some d => [d] | None => [] end.

Definition question_tags (question : Question) : list (list str) :=
  [[$"question"; question_id question; kind_tag (question_kind question);
    question_title question];
   [$"label"; question_id question; question_short_title question]]
  ++ match question_description question with
     | Some d => [[$"description"; question_id question; d]]
     | None => []
     end
  ++ (option_row question <$> question_options question).

Definition tags (item : FrozenSpokenItem) : list (list str) :=
  let result :=
    [[$"tts29"; $"item"; VERSION]; [$"title"; fz_subject item];
     artifact_row (fz_audio item) $"audio"] in
  let result :=
    if negb (is_empty (fz_summary item))
    then vec_insert 2 [$"summary"; fz_summary item] result else result in
  let result :=
    if negb (is_empty (fz_agent_name item))
    then vec_insert 2 [$"agent"; fz_agent_name item] result else result in
  result
  ++ ((λ value, artifact_row value $"attachment") <$> fz_attachments item)
  ++ match fz_attach item with
     | Some attach => [[$"e"; parent_id attach; []; $"attach"]]
     | None => []
     end
  ++ (fz_questions item ≫= question_tags).

(** ** Validation *)
Definition valid_artifact (value : DurableArtifact) (with_label : bool) : bool :=
  let name := if with_label then $"attachment" else $"audio" in
  negb (is_none (artifact (artifact_row value name) name with_label)).

Definition validate_option_step (option_ids : gset str) (option : QuestionOption)
    : result ComposeError (gset str) :=
  _ ← fail_if (InvalidField $"question_option")
        (is_none (identifier (option_id option))
         || bool_decide (option_id option ∈ option_ids)
         || is_none (bounded (option_title option) 120)
         || is_some_and (λ value, is_none (bounded value 300))
              (option_description option));
  Ok ({[option_id option]} ∪ option_ids).

Definition validate_question_step (question_ids : gset str) (question : Question)
    : result ComposeError (gset str) :=
  _ ← fail_if (InvalidField $"question")
        (is_none (identifier (question_id question))
         || bool_decide (question_id question ∈ question_ids)
         || is_none (bounded (question_title question) 240)
         || is_none (bounded (question_short_title question) 40)
         || is_some_and (λ value, is_none (bounded value 500))
              (question_description question));
  let choices := is_choice (question_kind question) in
  _ ← fail_if (InvalidField $"question_options")
        (Bool.eqb choices (is_empty (question_options question))
         || (8 <? len (question_options question))%N);
  _ ← try_fold validate_option_step ∅ (question_options question);
  Ok ({[question_id question]} ∪ question_ids).

Definition validate_questions (questions : list Question) : result ComposeError unit :=
  _ ← fail_if (InvalidField $"questions") (3 <? len questions)%N;
  _ ← try_fold validate_question_step ∅ questions;
  Ok ().

Definition valid_parent (attach : AttachLink) : bool :=
  (str_len (parent_id attach) =? 64)%N
  && forallb lower_hex_byte (bytes (parent_id attach)).

Section compose.
Context `{Nip29}.

Definition validate_spoken_item (item : FrozenSpokenItem) : result ComposeError unit :=
  _ ← ok_or InvalidAuthor (pk_parse (fz_author item));
  _ ← fail_if (InvalidField $"group_id") (is_none (bounded (fz_group_id item) 128));
  _ ← fail_if (InvalidField $"subject_or_body")
        (is_none (bounded (fz_subject item) 80)
         || is_none (bounded (fz_body item) 40000));
  _ ← fail_if (InvalidField $"agent_name")
        (negb (is_empty (fz_agent_name item))
         && is_none (bounded (fz_agent_name item) 80));
  _ ← fail_if (InvalidField $"summary")
        (negb (is_empty (fz_summary item))
         && is_none (bounded (fz_summary item) 280));
  _ ← fail_if (InvalidField $"attach")
        (is_some_and (λ attach, negb (valid_parent attach)) (fz_attach item));
  _ ← fail_if (InvalidField $"audio")
        (negb (valid_artifact (fz_audio item) false)
         || negb (audio_media (fz_audio item)));
  _ ← fail_if (InvalidField $"attachments")
        ((12 <? len (fz_attachments item))%N
         || existsb (λ value, negb (valid_artifact value true)) (fz_attachments item));
  validate_questions (fz_questions item).

Definition compose_spoken_item (host : RelayUrl) (item : FrozenSpokenItem)
    : result ComposeError WriteIntent :=
  _ ← validate_spoken_item item;
  author ← ok_or InvalidAuthor (pk_parse (fz_author item));
  intent ← ok_or InvalidTag
    (compose_group_send host (fz_group_id item) author (fz_created_at item) 9
       (fz_body item) (tags item));
  Ok (set_identity_override (Some author) intent).
End compose.

(** ** What a successful validation establishes *)
Record option_valid (o : QuestionOption) : Prop := {
  ov_id : is_identifier (option_id o);
  ov_title : is_Some (bounded (option_title o) 120);
  ov_description : ∀ d, option_description o = Some d → is_Some (bounded d 300);
}.

Record question_valid (q : Question) : Prop := {
  qv_id : is_identifier (question_id q);
  qv_title : is_Some (bounded (question_title q) 240);
  qv_short_title : is_Some (bounded (question_short_title q) 40);
  qv_description : ∀ d, question_description q = Some d → is_Some (bounded d 500);
  qv_choice : is_choice (question_kind q) = negb (is_empty (question_options q));
  qv_bound : (len (question_options q) ≤ 8)%N;
  qv_ids : NoDup (option_id <$> question_options q);
  qv_options : Forall option_valid (question_options q);
}.

Record questions_valid (qs : list Question) : Prop := {
  qsv_bound : (len qs ≤ 3)%N;
  qsv_ids : NoDup (question_id <$> qs);
  qsv_all : Forall question_valid qs;
}.

Lemma identifier_is_some s : is_Some (identifier s) → is_identifier s.
Proof. by intros [? [-> ?]%identifier_Some]. Qed.

Lemma description_check (d : option str) max :
  is_some_and (λ value, is_none (bounded value max)) d = false ↔
  (∀ v, d = Some v → is_Some (bounded v max)).
Proof. rewrite is_some_and_false. by setoid_rewrite is_none_false. Qed.

Lemma identifier_check s : is_Some (identifier s) ↔ is_identifier s.
Proof.
  split; [apply identifier_is_some|].
  intros. eexists. by apply identifier_Some.
Qed.

Lemma validate_option_step_Ok seen o seen' :
  validate_option_step seen o = Ok seen' ↔
  seen' = {[option_id o]} ∪ seen ∧ (option_id o ∉ seen) ∧ option_valid o.
Proof.
  unfold validate_option_step. split.
  - intros H. passed H as [[[? ?] ?] ?]. injection H as <-. split_and!; [done..|].
    split; [by apply identifier_check|done|by apply description_check].
  - intros (-> & Hn & [Hi Ht Hd]).
    rewrite (is_none_Some (identifier _)) by by apply identifier_check.
    rewrite bool_decide_eq_false_2, is_none_Some by done.
    by apply description_check in Hd as ->.
Qed.

Lemma validate_options_iff os :
  (∃ seen, try_fold validate_option_step ∅ os = Ok seen) ↔
  NoDup (option_id <$> os) ∧ Forall option_valid os.
Proof.
  exact (try_fold_distinct option_id option_valid validate_option_step
    validate_option_step_Ok os).
Qed.

Lemma choice_check (k : QuestionKind) (os : list QuestionOption) :
  Bool.eqb (is_choice k) (is_empty os) = false ↔ is_choice k = negb (is_empty os).
Proof. by destruct (is_choice k), (is_empty os). Qed.

Lemma validate_question_step_Ok seen q seen' :
  validate_question_step seen q = Ok seen' ↔
  seen' = {[question_id q]} ∪ seen ∧ (question_id q ∉ seen) ∧ question_valid q.
Proof.
  unfold validate_question_step. split.
  - intros H. passed H as [[[[? ?] ?] ?] Hd]. passed H as [Hc ?]. okay H as ids Ho.
    injection H as <-. edestruct validate_options_iff as [[? ?] _]; [by eexists|].
    split_and!; [done..|]. split; try done; [by apply identifier_check| |].
    + by apply description_check.
    + by apply choice_check.
  - intros (-> & Hn & [Hi Ht Hs Hd Hc Hb Hno Hos]).
    rewrite (is_none_Some (identifier _)) by by apply identifier_check.
    rewrite bool_decide_eq_false_2, (is_none_Some (bounded (question_title q) _)),
      (is_none_Some (bounded (question_short_title q) _)) by done.
    apply description_check in Hd as ->. apply choice_check in Hc as ->.
    apply N.ltb_ge in Hb as ->. simpl.
    destruct (proj2 (validate_options_iff (question_options q))) as [ids ->]; done.
Qed.

Lemma validate_questions_iff qs : validate_questions qs = Ok () ↔ questions_valid qs.
Proof.
  pose proof (try_fold_distinct question_id question_valid validate_question_step
    validate_question_step_Ok qs) as Hf.
  unfold validate_questions. split.
  - intros H. passed H as H3. okay H as seen Hs. clear H.
    destruct (proj1 Hf) as [??]; [by exists seen|]. done.
  - intros [H3 Hnd Hall]. apply N.ltb_ge in H3 as ->. simpl.
    destruct (proj2 Hf) as [s Hs]; [done|]. cbn in Hs. by rewrite Hs.
Qed.

Record frozen_valid `{Nip29} (item : FrozenSpokenItem) : Prop := {
  fv_author : is_Some (pk_parse (fz_author item));
  fv_group : is_Some (bounded (fz_group_id item) 128);
  fv_subject : is_Some (bounded (fz_subject item) 80);
  fv_body : is_Some (bounded (fz_body item) 40000);
  fv_agent : fz_agent_name item = [] ∨ is_Some (bounded (fz_agent_name item) 80);
  fv_summary : fz_summary item = [] ∨ is_Some (bounded (fz_summary item) 280);
  fv_attach : ∀ l, fz_attach item = Some l → hex64 (parent_id l);
  fv_audio : is_Some (artifact (artifact_row (fz_audio item) $"audio") $"audio" false);
  fv_media : audio_media (fz_audio item) = true;
  fv_bound : (len (fz_attachments item) ≤ 12)%N;
  fv_attachments : Forall (λ a,
    is_Some (artifact (artifact_row a $"attachment") $"attachment" true))
    (fz_attachments item);
  fv_questions : questions_valid (fz_questions item);
}.

Lemma valid_parent_hex64 l : valid_parent l = true → hex64 (parent_id l).
Proof. intros Hv. by apply is_lower_hex_true. Qed.

Lemma validate_spoken_item_ok `{Nip29} item u :
  validate_spoken_item item = Ok u → frozen_valid item.
Proof.
  unfold validate_spoken_item. intros Hv. okay Hv as a Ha. apply ok_or_ok in Ha.
  passed Hv as Hg. passed Hv as [Hs Hb]. passed Hv as Hag. passed Hv as Hsu.
  passed Hv as Hat. passed Hv as [Hau Hme]. passed Hv as [H12 Hats].
  split; try done.
  - intros l Hl. rewrite is_some_and_false in Hat. apply valid_parent_hex64.
    by apply negb_false_iff, Hat.
  - by apply is_none_false, negb_true_iff.
  - eapply Forall_impl; [done|]. intros a' Ha'.
    by apply is_none_false, negb_true_iff, negb_false_iff.
  - apply validate_questions_iff. by destruct u.
Qed.

(** Conversely, a valid item passes every check. *)
Lemma optional_check s max :
  s = [] ∨ is_Some (bounded s max) →
  negb (is_empty s) && is_none (bounded s max) = false.
Proof. intros [->|?]; [done|]. rewrite is_none_Some by done. apply andb_false_r. Qed.

Lemma validate_spoken_item_complete `{Nip29} item :
  frozen_valid item → validate_spoken_item item = Ok ().
Proof.
  intros [[a Ha] Hg Hs Hb Hag Hsu Hat Hau Hme H12 Hats Hqs].
  unfold validate_spoken_item, valid_artifact.
  rewrite Ha, (is_none_Some (bounded (fz_group_id item) 128)),
    (is_none_Some (bounded (fz_subject item) 80)),
    (is_none_Some (bounded (fz_body item) 40000)) by done. simpl.
  rewrite !optional_check by done. simpl.
  assert (is_some_and (λ attach, negb (valid_parent attach)) (fz_attach item) = false) as ->.
  { apply is_some_and_false. intros l Hl. apply negb_false_iff.
    by apply is_lower_hex_true, Hat. }
  rewrite (is_none_Some (artifact (artifact_row (fz_audio item) _) _ _)), Hme by done.
  simpl. assert ((12 <? len (fz_attachments item))%N = false) as ->
    by (by apply N.ltb_ge). simpl.
  assert (existsb (λ value, negb (negb (is_none (artifact (artifact_row value $"attachment")
    $"attachment" true)))) (fz_attachments item) = false) as ->.
  { apply existsb_False. eapply Forall_impl; [done|]. intros v Hv.
    by rewrite is_none_Some. }
  by apply validate_questions_iff.
Qed.

(** Validation accepts a frozen item exactly when the declarative contract
    [frozen_valid] holds: a parseable author, bounded texts, a well-formed
    parent link, an [audio/...] recording, at most twelve attachments and at
    most three questions whose ids are distinct. No valid item is refused and
    no invalid one is accepted. *)
Theorem validate_spoken_item_iff `{Nip29} item :
  validate_spoken_item item = Ok () ↔ frozen_valid item.
Proof.
  split; [apply validate_spoken_item_ok|apply validate_spoken_item_complete].
Qed.
