(* ===== verification/Roundtrip.v ===== *)
(** The round trip from a composed spoken item ([protocol/src/compose.rs]) back
    to the item the parser ([protocol/src/parse]) reads: the rows of the
    composed event, reading them back, and the exact condition under which a
    published item is accepted. *)

From S2P Require Export Compose.

(** ** What the parser makes of a composed item *)
Definition published_artifact (a : DurableArtifact) : DurableArtifact :=
  mkArtifact (trim (artifact_url a)) (trim (artifact_sha256 a))
    (trim (artifact_media_type a)) (artifact_byte_count a) (trim <$> artifact_label a).

Definition published_option (o : QuestionOption) : QuestionOption :=
  mkOption (option_id o) (trim (option_title o)) (trim <$> option_description o).

Definition published_question (q : Question) : Question :=
  mkQuestion (question_id q) (question_kind q) (trim (question_short_title q))
    (trim (question_title q)) (trim <$> question_description q)
    (published_option <$> question_options q).

Definition published_item (ev : Event) (item : FrozenSpokenItem) : SpokenItem :=
  let audio := published_artifact (fz_audio item) in
  mkSpokenItem (eid_hex (event_id ev)) (pk_hex (event_pubkey ev)) (fz_created_at item)
    (trim (fz_agent_name item)) (trim (fz_subject item)) (trim (fz_summary item))
    (trim (fz_body item)) (Some (artifact_url audio)) audio
    (published_artifact <$> fz_attachments item)
    (published_question <$> fz_questions item) None None [] (fz_attach item) [].

(** The [u64] fields of a frozen item. *)
Definition frozen_u64 (item : FrozenSpokenItem) : Prop :=
  (artifact_byte_count (fz_audio item) ≤ u64_max)%N ∧
  Forall (λ a, artifact_byte_count a ≤ u64_max)%N (fz_attachments item).

(** An attachment label the parser can read back. *)
Definition label_readable (a : DurableArtifact) : bool :=
  match artifact_label a with Some l => negb (is_none (bounded l 120)) | None => false end.

(** ** The rows of a composed event *)

(** Decide equalities between literals. *)
Ltac lit_decide :=
  repeat match goal with
  | |- context [$ ?x =?s $ ?y] =>
      let b := eval vm_compute in ($x =?s $y) in
      replace ($x =?s $y) with b by (vm_compute; reflexivity)
  end; cbv iota.

(** The tags of a list that carry a name. *)
Definition named (name : str) (ts : list (list str)) : list (list str) :=
  filter (λ tag, head tag = Some name) ts.

Lemma named_cons name n t ts :
  named name ((n :: t) :: ts) =
    if n =?s name then (n :: t) :: named name ts else named name ts.
Proof.
  unfold named. rewrite filter_cons. destruct (n =?s name) eqn:E; reflect.
  - by rewrite decide_True by (simpl; congruence).
  - by rewrite decide_False by (simpl; congruence).
Qed.

Lemma named_nil name : named name [] = [].
Proof. done. Qed.

Lemma named_app name ts us : named name (ts ++ us) = named name ts ++ named name us.
Proof. apply filter_app. Qed.

Lemma named_bind {A} name (f : A → list (list str)) l :
  named name (l ≫= f) = l ≫= λ x, named name (f x).
Proof. induction l as [|x l IH]; csimpl; [done|]. by rewrite named_app, IH. Qed.

Lemma named_fmap {A} name n (f : A → list str) l :
  (∀ x, head (f x) = Some n) →
  named name (f <$> l) = if n =?s name then f <$> l else [].
Proof.
  intros Hf. induction l as [|x l IH]; csimpl.
  { by destruct (n =?s name). }
  specialize (Hf x) as Hx. destruct (f x) as [|m r]; [done|]. injection Hx as ->.
  rewrite named_cons, IH. by destruct (n =?s name).
Qed.

Lemma bind_singleton {A B} (f : A → B) l : (l ≫= λ x, [f x]) = f <$> l.
Proof. induction l as [|x l IH]; csimpl; [done|]. by rewrite IH. Qed.

Lemma bind_nil {A B} (l : list A) : (l ≫= λ _, []) = @nil B.
Proof. by induction l. Qed.

Definition question_row (q : Question) : list str :=
  [$"question"; question_id q; kind_tag (question_kind q); question_title q].
Definition label_row (q : Question) : list str :=
  [$"label"; question_id q; question_short_title q].
Definition description_rows (q : Question) : list (list str) :=
  match question_description q with
  | Some d => [[$"description"; question_id q; d]]
  | None => []
  end.

Lemma named_question_tags name q :
  named name (question_tags q) =
    (if $"question" =?s name then [question_row q] else [])
    ++ (if $"label" =?s name then [label_row q] else [])
    ++ (if $"description" =?s name then description_rows q else [])
    ++ (if $"option" =?s name
        then option_row q <$> question_options q else []).
Proof.
  unfold question_tags, description_rows. rewrite !named_app, !named_cons.
  rewrite (named_fmap _ $"option") by done.
  destruct (question_description q); rewrite ?named_cons, named_nil;
    repeat case_match; done.
Qed.

Lemma named_questions name qs :
  named name (qs ≫= question_tags) = qs ≫= λ q,
    (if $"question" =?s name then [question_row q] else [])
    ++ (if $"label" =?s name then [label_row q] else [])
    ++ (if $"description" =?s name then description_rows q else [])
    ++ (if $"option" =?s name
        then option_row q <$> question_options q else []).
Proof.
  rewrite named_bind. apply list_bind_ext; [|done]. intros. apply named_question_tags.
Qed.

Section composed_rows.
Context (item : FrozenSpokenItem) (ev : Event) (srcs : list RelayUrl).
Context (Htags : event_tags ev = [$"h"; fz_group_id item] :: tags item).

Lemma rows_named name : rows (mkRow ev srcs) name =
  named name ([$"h"; fz_group_id item] :: tags item).
Proof. unfold rows. simpl. by rewrite Htags. Qed.

(** Each kind of row of the event, read off the item. *)
Definition agent_rows : list (list str) :=
  if is_empty (fz_agent_name item) then [] else [[$"agent"; fz_agent_name item]].
Definition summary_rows : list (list str) :=
  if is_empty (fz_summary item) then [] else [[$"summary"; fz_summary item]].
Definition attach_rows : list (list str) :=
  match fz_attach item with
  | Some attach => [[$"e"; parent_id attach; []; $"attach"]]
  | None => []
  end.

Lemma tags_grouped : tags item =
  [[$"tts29"; $"item"; VERSION]; [$"title"; fz_subject item]]
  ++ agent_rows ++ summary_rows ++ [artifact_row (fz_audio item) $"audio"]
  ++ ((λ value, artifact_row value $"attachment") <$> fz_attachments item)
  ++ attach_rows ++ (fz_questions item ≫= question_tags).
Proof.
  unfold tags, agent_rows, summary_rows, attach_rows.
  by destruct (is_empty (fz_agent_name item)), (is_empty (fz_summary item)).
Qed.

Ltac row_tac :=
  rewrite rows_named, tags_grouped; unfold agent_rows, summary_rows, attach_rows;
  rewrite !named_cons, !named_app, ?named_cons, named_questions,
    (named_fmap _ $"attachment") by done;
  destruct (is_empty (fz_agent_name item)), (is_empty (fz_summary item)),
    (fz_attach item);
  rewrite ?named_cons; unfold artifact_row; simpl app; rewrite ?named_cons, ?named_nil;
  lit_decide; simpl app;
  rewrite ?app_nil_r, ?bind_nil, ?bind_singleton, ?app_nil_r;
  first [reflexivity | apply list_bind_ext; [intros; apply app_nil_r|done]].

Lemma rows_h : rows (mkRow ev srcs) $"h" = [[$"h"; fz_group_id item]].
Proof. row_tac. Qed.
Lemma rows_marker : rows (mkRow ev srcs) $"tts29" = [[$"tts29"; $"item"; VERSION]].
Proof. row_tac. Qed.
Lemma rows_title : rows (mkRow ev srcs) $"title" = [[$"title"; fz_subject item]].
Proof. row_tac. Qed.
Lemma rows_agent : rows (mkRow ev srcs) $"agent" = agent_rows.
Proof. row_tac. Qed.
Lemma rows_summary : rows (mkRow ev srcs) $"summary" = summary_rows.
Proof. row_tac. Qed.
Lemma rows_audio :
  rows (mkRow ev srcs) $"audio" = [artifact_row (fz_audio item) $"audio"].
Proof. row_tac. Qed.
Lemma rows_attachment : rows (mkRow ev srcs) $"attachment" =
  (λ value, artifact_row value $"attachment") <$> fz_attachments item.
Proof. row_tac. Qed.
Lemma rows_e : rows (mkRow ev srcs) $"e" = attach_rows.
Proof. row_tac. Qed.
Lemma rows_question :
  rows (mkRow ev srcs) $"question" = question_row <$> fz_questions item.
Proof. row_tac. Qed.
Lemma rows_label : rows (mkRow ev srcs) $"label" = label_row <$> fz_questions item.
Proof. row_tac. Qed.
Lemma rows_description :
  rows (mkRow ev srcs) $"description" = fz_questions item ≫= description_rows.
Proof. row_tac. Qed.
Lemma rows_option : rows (mkRow ev srcs) $"option" =
  fz_questions item ≫= λ q, option_row q <$> question_options q.
Proof. row_tac. Qed.
End composed_rows.

(** ** Reading the rows back *)
Lemma identifier_ok s : is_identifier s → identifier s = Some s.
Proof. intros. by apply identifier_Some. Qed.

Lemma bounded_is_some s max : is_Some (bounded s max) → bounded s max = Some (trim s).
Proof. intros [t Ht]. rewrite Ht. by apply bounded_Some in Ht as [-> _]. Qed.

(** A keyed-text table read from one row per pair: fresh keys are added with
    their trimmed text. *)
Lemma keyed_text_fold name max (kvs : list (str * str)) m :
  Forall (λ kv, is_identifier kv.1 ∧ is_Some (bounded kv.2 max)) kvs →
  NoDup kvs.*1 → (∀ k, k ∈ kvs.*1 → m !! k = None) →
  ∃ m', try_fold (keyed_text_step max) m ((λ kv, [name; kv.1; kv.2]) <$> kvs) = Some m' ∧
    (∀ k v, (k, v) ∈ kvs → m' !! k = Some (trim v)) ∧
    (∀ k, k ∉ kvs.*1 → m' !! k = m !! k).
Proof.
  revert m. induction kvs as [|[k v] kvs IH]; intros m Hok Hnd Hm.
  { exists m. split_and!; [done| |done]. by intros ?? ?%not_elem_of_nil. }
  apply Forall_cons in Hok as [[Hk Hv] Hok]. apply NoDup_cons in Hnd as [Hk' Hnd].
  csimpl in *. destruct (IH (<[k := trim v]> m)) as (m' & Hf & Hin & Hout); try done.
  { intros k' Hk''. rewrite lookup_insert_ne by (intros ->; done). apply Hm. by right. }
  exists m'. split_and!.
  - unfold keyed_text_step. simpl. unfold at_. simpl.
    rewrite identifier_ok by done. simpl. rewrite bounded_is_some by done. simpl.
    rewrite Hm by by left. simpl. done.
  - intros k' v' [[= -> ->]|?]%elem_of_cons; [|auto].
    rewrite Hout by done. apply lookup_insert_eq.
  - intros k' [??]%not_elem_of_cons. rewrite Hout by done. by apply lookup_insert_ne.
Qed.

(** The options of one question. *)
Lemma keyed_options_one q os m seen pre :
  is_identifier (question_id q) → Forall option_valid os →
  default [] (m !! question_id q) = pre → (len pre + len os ≤ 8)%N →
  NoDup (option_id <$> os) →
  (∀ o, o ∈ os → (question_id q, option_id o) ∉ seen) →
  ∃ m' seen', try_fold keyed_options_step (m, seen) (option_row q <$> os) = Some (m', seen') ∧
    default [] (m' !! question_id q) = pre ++ (published_option <$> os) ∧
    (os = [] → m' = m) ∧ (os ≠ [] → is_Some (m' !! question_id q)) ∧
    (∀ k, k ≠ question_id q → m' !! k = m !! k) ∧
    (∀ p, p ∈ seen' → p ∈ seen ∨ p.1 = question_id q).
Proof.
  intros Hq. revert m seen pre. induction os as [|o os IH]; intros m seen pre Hok Hpre Hlen Hnd Hnew.
  { exists m, seen. split_and!; try done; [by rewrite app_nil_r|auto]. }
  apply Forall_cons in Hok as [[Hid Ht Hd] Hok]. csimpl in *.
  apply NoDup_cons in Hnd as [Ho Hnd]. rewrite len_cons in Hlen.
  set (m1 := <[question_id q := pre ++ [published_option o]]> m).
  set (seen1 := {[(question_id q, option_id o)]} ∪ seen).
  destruct (IH m1 seen1 (pre ++ [published_option o])) as
    (m' & seen' & Hf & Hdef & Hnil & Hsome & Hother & Hseen); try done.
  { unfold m1. by rewrite lookup_insert_eq. }
  { rewrite len_app, len_cons, len_nil. lia. }
  { intros o' Ho'. unfold seen1. rewrite not_elem_of_union, not_elem_of_singleton. split.
    - intros [= Heq]. apply Ho. rewrite <-Heq. by apply list_elem_of_fmap_2.
    - apply Hnew. by right. }
  assert (keyed_options_step (m, seen) (option_row q o) = Some (m1, seen1)) as Hstep.
  { unfold keyed_options_step.
    assert (option_text (option_row q o) = Some (trim <$> option_description o)) as Hot.
    { unfold option_text, option_row. destruct (option_description o) as [d|] eqn:E; [|done].
      simpl. destruct (Hd d eq_refl) as [t Hb]. rewrite Hb.
      pose proof Hb as (-> & Hne & _)%bounded_Some.
      destruct d; [done|]. done. }
    rewrite Hot. clear Hot. unfold option_row.
    assert (bool_decide ((question_id q, option_id o) ∈ seen) = false) as Hn
      by (apply bool_decide_eq_false, Hnew; by left).
    assert ((len pre =? 8)%N = false) as H8 by (apply N.eqb_neq; lia).
    destruct (option_description o) eqn:Ed; unfold at_; simpl;
      rewrite !identifier_ok by done; simpl; rewrite Hn; simpl; rewrite Hpre, H8; simpl;
      rewrite bounded_is_some by done; simpl; unfold m1, published_option; by rewrite Ed. }
  exists m', seen'. csimpl. rewrite Hstep. simpl. split_and!; try done.
  - rewrite Hdef. by rewrite <-(assoc_L (++)).
  - intros _. destruct os; [|by apply Hsome]. rewrite Hnil by done.
    unfold m1. rewrite lookup_insert_eq. eauto.
  - intros k Hk. rewrite Hother by done. by apply lookup_insert_ne.
  - intros p [Hp|Hp]%Hseen; [|by right]. unfold seen1 in Hp. set_solver.
Qed.

(** The options of all questions. *)
Lemma keyed_options_fold qs m seen :
  Forall question_valid qs → NoDup (question_id <$> qs) →
  (∀ q, q ∈ qs → m !! question_id q = None) →
  (∀ p, p ∈ seen → p.1 ∉ question_id <$> qs) →
  ∃ m' seen', try_fold keyed_options_step (m, seen)
      (qs ≫= λ q, option_row q <$> question_options q) = Some (m', seen') ∧
    (∀ q, q ∈ qs → default [] (m' !! question_id q) = published_option <$> question_options q) ∧
    (∀ k, k ∉ question_id <$> qs → m' !! k = m !! k).
Proof.
  revert m seen. induction qs as [|q qs IH]; intros m seen Hok Hnd Hm Hseen.
  { exists m, seen. split_and!; [done| |done]. by intros ? ?%not_elem_of_nil. }
  apply Forall_cons in Hok as [Hq Hok]. csimpl in *. apply NoDup_cons in Hnd as [Hq' Hnd].
  destruct (keyed_options_one q (question_options q) m seen []) as
    (m1 & seen1 & Hf1 & Hd1 & _ & _ & Ho1 & Hs1).
  { apply Hq. } { apply Hq. } { by rewrite Hm by by left. }
  { rewrite len_nil. pose proof (qv_bound q Hq). lia. } { apply Hq. }
  { intros o _ Hin. apply (Hseen _ Hin). by left. }
  destruct (IH m1 seen1) as (m' & seen' & Hf & Hin & Hout); try done.
  { intros q1 Hq1. rewrite Ho1; [apply Hm; by right|].
    intros Heq. apply Hq'. rewrite <-Heq. by apply list_elem_of_fmap_2. }
  { intros p [Hp|Hp]%Hs1; [|by rewrite Hp]. specialize (Hseen p Hp). set_solver. }
  exists m', seen'. split_and!.
  - rewrite try_fold_app_option, Hf1. done.
  - intros q1 [->|Hq1]%elem_of_cons; [|by apply Hin]. by rewrite Hout.
  - intros k [??]%not_elem_of_cons. rewrite Hout by done. by apply Ho1.
Qed.

(** The loop over question rows. *)
Lemma question_kind_roundtrip k : question_kind_of (kind_tag k) = Some k.
Proof. destruct k; vm_compute; reflexivity. Qed.

Lemma questions_fold labels descs qs opts seen res :
  Forall question_valid qs → NoDup (question_id <$> qs) →
  (∀ q, q ∈ qs → labels !! question_id q = Some (trim (question_short_title q))) →
  (∀ q, q ∈ qs → descs !! question_id q = trim <$> question_description q) →
  (∀ q, q ∈ qs →
    default [] (opts !! question_id q) = published_option <$> question_options q) →
  (∀ q, q ∈ qs → question_id q ∉ seen) →
  ∃ opts' seen',
    try_fold (questions_step labels descs) (opts, seen, res) (question_row <$> qs) =
      Some (opts', seen', res ++ (published_question <$> qs)) ∧
    (∀ k, k ∈ question_id <$> qs → opts' !! k = None) ∧
    (∀ k, k ∉ question_id <$> qs → opts' !! k = opts !! k) ∧
    (∀ k, k ∈ seen' ↔ k ∈ seen ∨ k ∈ question_id <$> qs).
Proof.
  revert opts seen res. induction qs as [|q qs IH]; intros opts seen res Hok Hnd Hl Hd Ho Hs.
  { exists opts, seen. csimpl. rewrite app_nil_r. set_solver. }
  apply Forall_cons in Hok as [Hq Hok]. csimpl in *. apply NoDup_cons in Hnd as [Hq' Hnd].
  assert (∀ q1, q1 ∈ qs → question_id q ≠ question_id q1) as Hne.
  { intros q1 Hq1 Heq. apply Hq'. rewrite Heq. by apply list_elem_of_fmap_2. }
  destruct (IH (delete (question_id q) opts) ({[question_id q]} ∪ seen)
    (res ++ [published_question q])) as (opts' & seen' & Hf & Hin & Hout & Hseen);
    try done; try (intros; auto using list_elem_of_further; fail).
  { intros q1 Hq1. rewrite lookup_delete_ne; [apply Ho; by right|]. by apply Hne. }
  { intros q1 Hq1. specialize (Hne q1 Hq1). specialize (Hs q1). set_solver. }
  exists opts', seen'. split_and!.
  - assert (questions_step labels descs (opts, seen, res) (question_row q) =
      Some (delete (question_id q) opts, {[question_id q]} ∪ seen,
            res ++ [published_question q])) as ->.
    { destruct Hq as [Hid Ht Hst Hdesc Hc Hb Hn Hos].
      unfold questions_step, question_row, published_question, at_. simpl.
      assert (bool_decide (question_id q ∈ seen) = false) as ->
        by (apply bool_decide_eq_false, Hs; by left).
      simpl. rewrite identifier_ok by done. simpl. rewrite question_kind_roundtrip. simpl.
      rewrite bounded_is_some by done. simpl. rewrite Ho by by left.
      assert (is_empty (published_option <$> question_options q) =
        is_empty (question_options q)) as -> by by destruct (question_options q).
      rewrite Hc. assert (Bool.eqb (negb (is_empty (question_options q)))
        (is_empty (question_options q)) = false) as -> by by destruct (is_empty _).
      simpl. rewrite Hl, Hd by by left. done. }
    etrans; [apply Hf|]. by rewrite <-(assoc_L (++)).
  - intros k [->|Hk]%elem_of_cons; [|auto]. rewrite Hout by done. apply lookup_delete_eq.
  - intros k [??]%not_elem_of_cons. rewrite Hout by done. by apply lookup_delete_ne.
  - intros k. rewrite Hseen. set_solver.
Qed.

Section roundtrip.
Context `{Nip29Laws} (item : FrozenSpokenItem) (ev : Event) (srcs : list RelayUrl).
Context (Htags : event_tags ev = [$"h"; fz_group_id item] :: tags item).
Context (Hvalid : frozen_valid item).

Lemma label_kvs (qs : list Question) : label_row <$> qs =
  (λ kv, [$"label"; kv.1; kv.2]) <$> ((λ q, (question_id q, question_short_title q)) <$> qs).
Proof. by rewrite <-list_fmap_compose. Qed.

Lemma description_kvs (qs : list Question) : qs ≫= description_rows =
  (λ kv, [$"description"; kv.1; kv.2]) <$>
    omap (λ q, d ← question_description q; Some (question_id q, d)) qs.
Proof.
  induction qs as [|q qs IH]; csimpl; [done|]. rewrite IH. unfold description_rows.
  by destruct (question_description q).
Qed.

Lemma read_labels : ∃ m, keyed_text (mkRow ev srcs) $"label" 40 = Some m ∧
  (∀ q, q ∈ fz_questions item → m !! question_id q = Some (trim (question_short_title q))) ∧
  (∀ k, k ∉ question_id <$> fz_questions item → m !! k = None).
Proof.
  destruct (fv_questions _ Hvalid) as [_ Hids Hall].
  unfold keyed_text. rewrite (rows_label item) by done. rewrite label_kvs.
  set (kvs := (λ q, (question_id q, question_short_title q)) <$> fz_questions item).
  assert (kvs.*1 = question_id <$> fz_questions item) as Hk
    by (unfold kvs; by rewrite <-list_fmap_compose).
  destruct (keyed_text_fold $"label" 40 kvs ∅) as (m & Hm & Hin & Hout).
  - apply Forall_fmap. eapply Forall_impl; [done|]. intros q [? ? ?]; simpl. done.
  - by rewrite Hk.
  - intros. apply lookup_empty.
  - exists m. split_and!; [done| |].
    + intros q Hq. apply Hin. unfold kvs. apply list_elem_of_fmap. by exists q.
    + intros k Hk'. rewrite Hout by by rewrite Hk. apply lookup_empty.
Qed.

Lemma read_descriptions : ∃ m, keyed_text (mkRow ev srcs) $"description" 500 = Some m ∧
  (∀ q, q ∈ fz_questions item → m !! question_id q = trim <$> question_description q) ∧
  (∀ k, k ∉ question_id <$> fz_questions item → m !! k = None).
Proof.
  destruct (fv_questions _ Hvalid) as [_ Hids Hall].
  unfold keyed_text. rewrite (rows_description item) by done. rewrite description_kvs.
  set (f := λ q, d ← question_description q; Some (question_id q, d)).
  set (kvs := omap f (fz_questions item)).
  assert (∀ k v, (k, v) ∈ kvs ↔ ∃ q, q ∈ fz_questions item ∧ question_id q = k ∧
    question_description q = Some v) as Hkvs.
  { intros k v. unfold kvs. rewrite list_elem_of_omap. split.
    - intros (q & Hq & (d & Hd & [= <- <-])%bind_Some'). eauto.
    - intros (q & Hq & <- & Hd). exists q. split; [done|]. unfold f. by rewrite Hd. }
  assert (∀ k, k ∈ kvs.*1 → k ∈ question_id <$> fz_questions item) as Hsub.
  { intros k ([k' v] & -> & (q & Hq & <- & _)%Hkvs)%list_elem_of_fmap.
    simpl. by apply list_elem_of_fmap_2. }
  destruct (keyed_text_fold $"description" 500 kvs ∅) as (m & Hm & Hin & Hout).
  - apply Forall_forall. intros [k v] (q & Hq & <- & Hd)%Hkvs. simpl.
    rewrite Forall_forall in Hall. destruct (Hall q Hq). split; auto.
  - unfold kvs, f. clear -Hids. induction (fz_questions item) as [|q qs IH]; csimpl in *;
      [constructor|]. apply NoDup_cons in Hids as [Hq Hids].
    destruct (question_description q); csimpl; [|auto]. constructor; [|auto].
    intros ([k v] & Hk & (q' & Hq' & Hf)%list_elem_of_omap)%list_elem_of_fmap.
    apply bind_Some' in Hf as (d & _ & [= <- <-]). apply Hq. simpl in Hk. rewrite Hk.
    by apply list_elem_of_fmap_2.
  - intros. apply lookup_empty.
  - exists m. split_and!; [done| |].
    + intros q Hq. destruct (question_description q) as [d|] eqn:E; simpl.
      * apply Hin. apply Hkvs. eauto.
      * rewrite Hout; [apply lookup_empty|].
        intros ([k v] & Hkeq & (q' & Hq' & Hid & Hd)%Hkvs)%list_elem_of_fmap.
        simpl in Hkeq. subst k. assert (q = q') as ->; [|congruence].
        by eapply (NoDup_fmap_inj question_id).
    + intros k Hk'. rewrite Hout; [apply lookup_empty|]. auto.
Qed.

Lemma read_options : ∃ m, keyed_options (mkRow ev srcs) = Some m ∧
  (∀ q, q ∈ fz_questions item →
    default [] (m !! question_id q) = published_option <$> question_options q) ∧
  (∀ k, k ∉ question_id <$> fz_questions item → m !! k = None).
Proof.
  destruct (fv_questions _ Hvalid) as [_ Hids Hall].
  unfold keyed_options. rewrite (rows_option item) by done.
  destruct (keyed_options_fold (fz_questions item) ∅ ∅) as (m & seen & Hf & Hin & Hout).
  - done.
  - done.
  - intros. apply lookup_empty.
  - set_solver.
  - exists m. rewrite Hf. split_and!; [done..|].
    intros k Hk. rewrite Hout by done. apply lookup_empty.
Qed.

Lemma read_questions :
  questions (mkRow ev srcs) = Some (published_question <$> fz_questions item).
Proof.
  destruct (fv_questions _ Hvalid) as [Hb Hids Hall].
  destruct read_labels as (labels & Hl & Hlin & Hlout).
  destruct read_descriptions as (descs & Hd & Hdin & Hdout).
  destruct read_options as (opts & Ho & Hoin & Hoout).
  destruct (questions_fold labels descs (fz_questions item) opts ∅ [])
    as (opts' & seen' & Hf & Hin & Hout & Hseen); try done.
  unfold questions. rewrite (rows_question item), len_fmap by done.
  assert ((3 <? len (fz_questions item))%N = false) as -> by (apply N.ltb_ge; lia).
  simpl. rewrite Hl. simpl. rewrite Hd. simpl. rewrite Ho. simpl. rewrite Hf. simpl.
  assert (∀ m : gmap str str, (∀ k, k ∉ question_id <$> fz_questions item → m !! k = None) →
    negb (bool_decide (dom m ⊆ seen')) = false) as Hsub.
  { intros m Hm. apply negb_false_iff, bool_decide_eq_true. intros k [v Hk]%elem_of_dom.
    apply Hseen. right. destruct (decide (k ∈ question_id <$> fz_questions item)); [done|].
    by rewrite Hm in Hk. }
  rewrite !Hsub by done. simpl.
  assert (opts' = ∅) as ->; [|done].
  apply map_empty. intros k. destruct (decide (k ∈ question_id <$> fz_questions item)).
  - by apply Hin.
  - rewrite Hout by done. by apply Hoout.
Qed.
End roundtrip.

(** *** Artifacts *)
Lemma artifact_row_back a name (with_label : bool) b :
  (artifact_byte_count a ≤ u64_max)%N →
  artifact (artifact_row a name) name with_label = Some b →
  b = mkArtifact (trim (artifact_url a)) (trim (artifact_sha256 a))
        (trim (artifact_media_type a)) (artifact_byte_count a) (artifact_label b) ∧
  (with_label = false → artifact_label a = None ∧ artifact_label b = None) ∧
  (with_label = true →
    ∃ l, artifact_label a = Some l ∧ artifact_label b = bounded l 120).
Proof.
  intros Hn. unfold artifact. intros H. guard H as [Hlen _].
  opt H as url Hurl. opt H as sha Hsha. opt H as media Hmedia. opt H as n Hbytes.
  guard H as _. injection H as <-. unfold artifact_row, at_ in *. simpl in *.
  rewrite u64_parse_to_string in Hbytes by done. injection Hbytes as <-.
  apply bounded_Some in Hurl as [-> _], Hsha as [-> _], Hmedia as [-> _].
  split; [done|]. destruct (artifact_label a) as [l|], with_label; simpl in *;
    try done; split; intros; [done|eauto].
Qed.

(** The parser reads an artifact row the validator accepted, and keeps its
    label exactly when the label is readable. *)
Lemma attachments_back ats :
  Forall (λ a, artifact_byte_count a ≤ u64_max)%N ats →
  Forall (λ a, is_Some (artifact (artifact_row a $"attachment") $"attachment" true)) ats →
  ∃ bs, mapM (λ value, artifact value $"attachment" true)
      ((λ value, artifact_row value $"attachment") <$> ats) = Some bs ∧
    (forallb label_readable ats = true → bs = published_artifact <$> ats) ∧
    existsb (λ a, is_none (artifact_label a)) bs = negb (forallb label_readable ats).
Proof.
  induction ats as [|a ats IH]; intros Hu Hok; [by exists []|].
  apply Forall_cons in Hu as [Ha Hu], Hok as [[b Hb] Hok].
  destruct (IH Hu Hok) as (bs & Hbs & Hpub & Hex). exists (b :: bs).
  split; [rewrite fmap_cons; apply mapM_Some; constructor; [done|by apply mapM_Some]|].
  csimpl.
  apply artifact_row_back in Hb as (Heq & _ & Hl); [|done].
  destruct (Hl eq_refl) as (l & Hla & Hlb). unfold label_readable at 1 3. rewrite Hla.
  split.
  - intros [[t Ht]%negb_true_iff%is_none_false Hr]%andb_true_iff. csimpl.
    rewrite Hpub by done. f_equal. rewrite Heq. unfold published_artifact. f_equal.
    rewrite Hla, Hlb, Ht. by apply bounded_Some in Ht as [-> _].
  - simpl. rewrite Hlb, Hex. by destruct (bounded l 120), (forallb label_readable ats).
Qed.

(** *** The whole item *)
Section theorems.
Context `{Nip29Laws}.

Lemma compose_inv host item w :
  compose_spoken_item host item = Ok w →
  frozen_valid item ∧ ∃ author, pk_parse (fz_author item) = Some author ∧
    intent_host w = host ∧ identity_override w = Some author ∧
    intent_payload w = mkUnsigned author (fz_created_at item) 9
      ([$"h"; fz_group_id item] :: tags item) (fz_body item).
Proof.
  unfold compose_spoken_item. intros Hc. okay Hc as u Hv. okay Hc as author Ha.
  okay Hc as w0 Hw. injection Hc as <-. apply ok_or_ok in Ha, Hw.
  split; [by eapply validate_spoken_item_ok|]. exists author.
  rewrite override_host, override_payload, override_get.
  split_and!; [done|by eapply send_host|done|by eapply send_payload].
Qed.

Lemma read_optional ev srcs name s max :
  rows (mkRow ev srcs) name = (if is_empty s then [] else [[name; s]]) →
  s = [] ∨ is_Some (bounded s max) →
  ∃ o, optional (mkRow ev srcs) name max = Some o ∧ default [] o = trim s.
Proof.
  intros Hr Hs. unfold optional. rewrite Hr. destruct s as [|c s].
  { by exists None. }
  destruct Hs as [?|Hs]; [done|]. exists (Some (trim (c :: s))). simpl.
  unfold at_. simpl. by rewrite bounded_is_some.
Qed.

Lemma compose_parse host item w ev srcs :
  compose_spoken_item host item = Ok w → frozen_u64 item →
  signs ev (intent_payload w) →
  parse (mkRow ev srcs) (fz_group_id item) =
    if forallb label_readable (fz_attachments item)
    then Some (PItem (published_item ev item)) else None.
Proof.
  intros (Hv & author & Ha & _ & _ & Hw)%compose_inv [Hau Hatt] Hs.
  rewrite Hw in Hs. destruct Hs as (Hpk & Hca & Hk & Htags & Hcontent). simpl in *.
  unfold parse, group_matches, marker. simpl. rewrite Hk, (rows_h item), (rows_marker item) by done.
  rewrite bool_decide_eq_true_2 by done. simpl.
  replace (at_ [$"tts29"; $"item"; VERSION] 2 =?s VERSION) with true by (vm_compute; reflexivity).
  replace (at_ [$"tts29"; $"item"; VERSION] 1 =?s $"item") with true by (vm_compute; reflexivity).
  unfold parse_item. rewrite (rows_audio item), (rows_attachment item), len_fmap by done.
  destruct (fv_audio _ Hv) as [audio Haudio]. rewrite Haudio. simpl.
  apply artifact_row_back in Haudio as (Heq & Hnone & _); [|done].
  destruct (Hnone eq_refl) as [Hla Hlb]. rewrite Hlb in Heq. clear Hnone Hlb. subst audio.
  assert (audio_media (mkArtifact (trim (artifact_url (fz_audio item)))
    (trim (artifact_sha256 (fz_audio item))) (trim (artifact_media_type (fz_audio item)))
    (artifact_byte_count (fz_audio item)) None) = true) as ->.
  { apply starts_with_trim; [by vm_compute| |apply (fv_media _ Hv)].
    apply (bool_decide_unpack _). by vm_compute. }
  assert ((12 <? len (fz_attachments item))%N = false) as ->.
  { apply N.ltb_ge, (fv_bound _ Hv). }
  destruct (attachments_back _ Hatt (fv_attachments _ Hv)) as (bs & Hbs & Hpub & Hex).
  simpl. rewrite Hbs. simpl. rewrite Hex.
  destruct (forallb label_readable (fz_attachments item)); [|done]. simpl.
  specialize (Hpub eq_refl). subst bs.
  assert (attach_link (mkRow ev srcs) = Some (fz_attach item)) as ->.
  { unfold attach_link. rewrite (rows_e item) by done. unfold attach_rows.
    destruct (fz_attach item) as [[p]|] eqn:E; [|done]. unfold at_. simpl.
    rewrite str_eqb_refl. simpl.
    by rewrite (proj2 (is_lower_hex_true p 64) (fv_attach _ Hv _ E)). }
  destruct (read_optional ev srcs $"agent" (fz_agent_name item) 80) as (ag & -> & Hag).
  { by rewrite (rows_agent item). } { apply (fv_agent _ Hv). }
  destruct (read_optional ev srcs $"summary" (fz_summary item) 280) as (su & -> & Hsu).
  { by rewrite (rows_summary item). } { apply (fv_summary _ Hv). }
  assert (unique (mkRow ev srcs) $"title" 80 = Some (trim (fz_subject item))) as ->.
  { unfold unique. rewrite (rows_title item) by done. unfold at_. simpl.
    apply bounded_is_some, (fv_subject _ Hv). }
  simpl. rewrite Hcontent, bounded_is_some by apply (fv_body _ Hv). simpl.
  rewrite (read_questions item) by done. simpl.
  unfold published_item, published_artifact, row_id, row_author, row_created_at. simpl.
  by rewrite Hag, Hsu, Hca, Hla.
Qed.
End theorems.

(** C16: a composed item whose attachment labels are readable, once signed,
    parses back to the frozen item itself (texts trimmed, audio label gone),
    under the group it was composed for. *)
Theorem composed_item_roundtrip `{Nip29Laws} host item w ev srcs :
  compose_spoken_item host item = Ok w → frozen_u64 item →
  signs ev (intent_payload w) →
  forallb label_readable (fz_attachments item) = true →
  parse (mkRow ev srcs) (fz_group_id item) = Some (PItem (published_item ev item)).
Proof. intros Hc Hu Hs Hl. rewrite (compose_parse host item w) by done. by rewrite Hl. Qed.

(** C40: validation does not look at attachment labels, so an item with an
    unreadable one (blank, or more than 120 characters) is composed and signed
    although every reader will reject the event it becomes. *)
Theorem unreadable_label_rejected `{Nip29Laws} host item w ev srcs :
  compose_spoken_item host item = Ok w → frozen_u64 item →
  signs ev (intent_payload w) →
  forallb label_readable (fz_attachments item) = false →
  parse (mkRow ev srcs) (fz_group_id item) = None.
Proof. intros Hc Hu Hs Hl. rewrite (compose_parse host item w) by done. by rewrite Hl. Qed.

Import Example_nmp.

Module Example_compose.
Definition host : RelayUrl := mkRelayUrl $"wss://relay.example".
Definition audio : DurableArtifact :=
  mkArtifact $"https://a.example/x.wav" Example_parse.digest $"audio/wav" 10 None.
Definition attachment (label : str) : DurableArtifact :=
  mkArtifact $"https://a.example/x.md" Example_parse.digest $"text/markdown" 10 (Some label).
Definition question : Question :=
  mkQuestion $"q1" SingleChoice $"Pick" $"Which one?" None
    [mkOption $"a" $"Yes" None; mkOption $"b" $"No" None].
Definition item (label : str) : FrozenSpokenItem :=
  mkFrozen (repeat 97%N 64) 5 $"group" $"agent" $"Hello" $"short" $" Body " audio
    [attachment label] [question] None.
Definition signed (w : Example_nmp.intent) : Event :=
  let u := Example_nmp.i_payload w in
  mkEvent (mkEventId (repeat 49%N 64)) (unsigned_pubkey u) (unsigned_created_at u)
    (unsigned_kind u) (unsigned_tags u) (unsigned_content u).
Definition composed (label : str) : result ComposeError Example_nmp.intent :=
  compose_spoken_item host (item label).
Lemma signed_signs (w : Example_nmp.intent) : signs (signed w) (Example_nmp.i_payload w).
Proof. done. Qed.
Lemma item_u64 label : frozen_u64 (item label).
Proof. split; [vm_compute; discriminate|]. repeat constructor. vm_compute. discriminate. Qed.
End Example_compose.

Lemma composed_item_roundtrip_witness :
  match Example_compose.composed $"Notes" with
  | Ok w => parse (mkRow (Example_compose.signed w) []) $"group" =
      Some (PItem (published_item (Example_compose.signed w) (Example_compose.item $"Notes")))
  | Err _ => False
  end.
Proof.
  destruct (Example_compose.composed _) as [w|e] eqn:E.
  - apply (@composed_item_roundtrip nip29 nip29_laws Example_compose.host (Example_compose.item $"Notes") w).
    + exact E.
    + apply Example_compose.item_u64.
    + apply Example_compose.signed_signs.
    + vm_compute. reflexivity.
  - vm_compute in E. discriminate.
Defined.

Lemma unreadable_label_rejected_witness :
  match Example_compose.composed $" " with
  | Ok w => parse (mkRow (Example_compose.signed w) []) $"group" = None
  | Err _ => False
  end.
Proof.
  destruct (Example_compose.composed _) as [w|e] eqn:E.
  - apply (@unreadable_label_rejected nip29 nip29_laws Example_compose.host (Example_compose.item $" ") w).
    + exact E.
    + apply Example_compose.item_u64.
    + apply Example_compose.signed_signs.
    + vm_compute. reflexivity.
  - vm_compute in E. discriminate.
Defined.
