(* ===== verification/Answer.v ===== *)
(** Choosing the answer to an item ([protocol/src/answer.rs]): which answers
    fit the item's questions, and which of those wins. *)

From S2P Require Export Contract.

Definition option_ids (question : Question) : gset str :=
  list_to_set (option_id <$> question_options question).

(** The index of the questions by id; a later question takes the place of an
    earlier one with the same id. *)
Definition question_index (questions : list Question) : gmap str Question :=
  list_to_map (reverse ((λ question, (question_id question, question)) <$> questions)).

(** One round of [Iterator::all]; the state is the set [answered]. *)
Definition valid_answer_step (questions : gmap str Question) (answered : gset str)
    (value : QuestionAnswer) : option (gset str) :=
  _ ← reject_if (bool_decide (qa_question_id value ∈ answered));
  question ← questions !! qa_question_id value;
  let selected : gset str := list_to_set (qa_values value) in
  _ ← reject_if (negb (N.of_nat (size selected) =? len (qa_values value))%N);
  let fits := match question_kind question with
    | Freeform => (len (qa_values value) =? 1)%N
    | SingleChoice =>
        (len (qa_values value) =? 1)%N && bool_decide (selected ⊆ option_ids question)
    | MultipleChoice => bool_decide (selected ⊆ option_ids question)
    end in
  _ ← reject_if (negb fits);
  Some ({[qa_question_id value]} ∪ answered).

Definition valid_answer (questions : list Question) (answer : AnswerBundle) : bool :=
  if is_empty (answer_answers answer) || (3 <? len (answer_answers answer))%N then false
  else negb (is_none (try_fold (valid_answer_step (question_index questions)) ∅
                        (answer_answers answer))).

Definition answer_order (value : AnswerBundle) : N * str :=
  (answer_created_at value, answer_event_id value).

Definition select_answer (questions : list Question) (candidates : list AnswerBundle)
    : option AnswerBundle :=
  max_by (λ left right, cmp (answer_order left) (answer_order right))
    (filter (λ answer, valid_answer questions answer = true) candidates).

(** ** The declarative contract *)

(** A value that answers one question. *)
Record value_fits (q : Question) (v : QuestionAnswer) : Prop := {
  vf_distinct : NoDup (qa_values v);
  vf_single : question_kind q ≠ MultipleChoice → len (qa_values v) = 1%N;
  vf_options : question_kind q ≠ Freeform →
    ∀ s, s ∈ qa_values v → ∃ o, o ∈ question_options q ∧ option_id o = s;
}.

Record answer_fits (qs : list Question) (a : AnswerBundle) : Prop := {
  af_bound : (1 ≤ len (answer_answers a) ≤ 3)%N;
  af_distinct : NoDup (qa_question_id <$> answer_answers a);
  af_values : ∀ v, v ∈ answer_answers a →
    ∃ q, q ∈ qs ∧ question_id q = qa_question_id v ∧ value_fits q v;
}.

(** ** Facts *)
Lemma question_index_lookup qs id q :
  NoDup (question_id <$> qs) →
  question_index qs !! id = Some q ↔ q ∈ qs ∧ question_id q = id.
Proof.
  intros Hnd. unfold question_index.
  rewrite <-elem_of_list_to_map.
  - rewrite elem_of_reverse, list_elem_of_fmap. naive_solver.
  - rewrite fmap_reverse, reverse_Permutation, <-list_fmap_compose. done.
Qed.

Lemma size_list_to_set_le (l : list str) : size (list_to_set l : gset str) ≤ length l.
Proof.
  induction l as [|x l IH]; [done|]. rewrite list_to_set_cons, size_union_alt, size_singleton.
  assert (size (list_to_set l ∖ {[x]} : gset str) ≤ size (list_to_set l : gset str));
    [apply subseteq_size; set_solver|simpl; lia].
Qed.

Lemma size_list_to_set_len (l : list str) :
  N.of_nat (size (list_to_set l : gset str)) = len l ↔ NoDup l.
Proof.
  unfold len. rewrite Nat2N.inj_iff. split; [|intros; by rewrite size_list_to_set].
  induction l as [|x l IH]; [constructor|]. rewrite list_to_set_cons. intros Hs.
  pose proof (size_list_to_set_le l) as Hle. simpl in Hs.
  destruct (decide (x ∈ l)) as [Hx|Hx].
  - exfalso. rewrite subseteq_union_1_L in Hs; [lia|]. set_solver.
  - constructor; [done|]. apply IH. rewrite size_union, size_singleton in Hs; [lia|].
    set_solver.
Qed.

Lemma options_superset q (l : list str) :
  (list_to_set l : gset str) ⊆ option_ids q ↔
  ∀ s, s ∈ l → ∃ o, o ∈ question_options q ∧ option_id o = s.
Proof.
  unfold option_ids. split.
  - intros Hs s Hin. specialize (Hs s). rewrite !elem_of_list_to_set in Hs.
    apply Hs in Hin. apply list_elem_of_fmap in Hin. naive_solver.
  - intros Hs s. rewrite !elem_of_list_to_set. intros (o & ? & <-)%Hs.
    by apply list_elem_of_fmap_2.
Qed.

Lemma value_fits_bool q v :
  (N.of_nat (size (list_to_set (qa_values v) : gset str)) = len (qa_values v)) →
  match question_kind q with
  | Freeform => (len (qa_values v) =? 1)%N
  | SingleChoice => (len (qa_values v) =? 1)%N
      && bool_decide ((list_to_set (qa_values v) : gset str) ⊆ option_ids q)
  | MultipleChoice => bool_decide ((list_to_set (qa_values v) : gset str) ⊆ option_ids q)
  end = true ↔ value_fits q v.
Proof.
  intros Hs%size_list_to_set_len.
  split.
  - intros Hf. split; [done|..]; destruct (question_kind q); reflect;
      rewrite ?options_superset in Hf; naive_solver.
  - intros [_ H1 Ho]. destruct (question_kind q); reflect; rewrite ?options_superset;
      naive_solver.
Qed.

(** What one round of the loop checks of a value. *)
Definition value_answers (qs : list Question) (v : QuestionAnswer) : Prop :=
  ∃ q, q ∈ qs ∧ question_id q = qa_question_id v ∧ value_fits q v.

Lemma valid_answer_step_Some qs :
  NoDup (question_id <$> qs) → ∀ seen v seen',
  valid_answer_step (question_index qs) seen v = Some seen' ↔
  seen' = {[qa_question_id v]} ∪ seen ∧ (qa_question_id v ∉ seen) ∧ value_answers qs v.
Proof.
  intros Hnd seen v seen'. unfold valid_answer_step. split.
  - intros H. guard H as Hnew. opt H as q Hq. guard H as Hs. guard H as Hf.
    injection H as <-. apply question_index_lookup in Hq as [??]; [|done].
    apply value_fits_bool in Hf; [|done]. split_and!; [done..|]. by exists q.
  - intros (-> & Hnew & q & Hin & Hid & Hfit). rewrite bool_decide_eq_false_2 by done. simpl.
    rewrite (proj2 (question_index_lookup qs _ q Hnd)) by done. simpl.
    pose proof (vf_distinct _ _ Hfit) as Hdis. apply size_list_to_set_len in Hdis.
    apply N.eqb_eq in Hdis as Hb. rewrite Hb. simpl.
    apply (value_fits_bool q v) in Hfit as ->; done.
Qed.

Lemma valid_answer_fits qs a :
  NoDup (question_id <$> qs) → valid_answer qs a = true ↔ answer_fits qs a.
Proof.
  intros Hqs. unfold valid_answer.
  pose proof (try_fold_distinct qa_question_id (value_answers qs)
    (valid_answer_step (question_index qs))
    (valid_answer_step_Some qs Hqs) (answer_answers a)) as Hf.
  destruct (is_empty _ || _) eqn:E; reflect.
  - split; [done|]. intros [Hb _ _]. exfalso. destruct E as [E|E]; [|lia].
    rewrite E in Hb. unfold len in Hb. simpl in Hb. lia.
  - unfold is_Some. rewrite Forall_forall in Hf. etrans; [exact Hf|].
    destruct E as [Hne H3]. split; [|by intros [_ ? ?]].
    intros [Hnd Hall]. split; [|done..]. split; [|done].
    assert (len (answer_answers a) ≠ 0%N); [by rewrite len_0|lia].
Qed.

Lemma select_answer_None qs cs :
  select_answer qs cs = None ↔ Forall (λ a, valid_answer qs a = false) cs.
Proof.
  unfold select_answer. rewrite max_by_None. split.
  - intros Hf. apply Forall_forall. intros a Ha. apply not_true_is_false. intros Hv.
    assert (a ∈ filter (λ a, valid_answer qs a = true) cs) as Hin
      by by apply list_elem_of_filter.
    rewrite Hf in Hin. by apply not_elem_of_nil in Hin.
  - intros Hf. induction Hf as [|a cs Ha Hf IH]; [done|]. rewrite filter_cons_False; [done|].
    by rewrite Ha.
Qed.

Lemma select_answer_Some qs cs a :
  select_answer qs cs = Some a →
  a ∈ cs ∧ valid_answer qs a = true ∧
  ∀ b, b ∈ cs → valid_answer qs b = true → cmp_le (answer_order b) (answer_order a).
Proof.
  unfold select_answer. intros [[Hv Hin]%list_elem_of_filter Hmax]%(max_by_key answer_order).
  split_and!; [done..|]. intros b Hb Hvb. apply Hmax. by apply list_elem_of_filter.
Qed.

Lemma select_answer_perm qs cs cs' :
  NoDup (answer_event_id <$> cs) → cs ≡ₚ cs' → select_answer qs cs = select_answer qs cs'.
Proof.
  intros Hnd Hp. unfold select_answer. apply (max_by_perm answer_order).
  - intros a b [_ Ha]%list_elem_of_filter [_ Hb]%list_elem_of_filter [= _ Heq].
    by eapply (NoDup_fmap_inj answer_event_id).
  - by rewrite Hp.
Qed.

(** With distinct question ids, the selected answer is a candidate that
    fits the questions and is the greatest of those by time, then event id;
    nothing is selected exactly when no candidate fits; and the order in which
    candidates arrived does not matter when their event ids are distinct. *)
Theorem select_answer_correct qs cs :
  NoDup (question_id <$> qs) →
  (select_answer qs cs = None ↔ ∀ a, a ∈ cs → ¬ answer_fits qs a) ∧
  (∀ a, select_answer qs cs = Some a →
     a ∈ cs ∧ answer_fits qs a ∧
     ∀ b, b ∈ cs → answer_fits qs b → cmp_le (answer_order b) (answer_order a)) ∧
  (∀ cs', NoDup (answer_event_id <$> cs) → cs ≡ₚ cs' →
     select_answer qs cs = select_answer qs cs').
Proof.
  intros Hqs. split_and!.
  - rewrite select_answer_None, Forall_forall.
    setoid_rewrite <-(valid_answer_fits qs); [|done..].
    by setoid_rewrite not_true_iff_false.
  - intros a (Hin & Hv & Hmax)%select_answer_Some.
    split_and!; [done|by apply valid_answer_fits|].
    intros b Hb Hf. apply Hmax; [done|]. by apply valid_answer_fits.
  - intros cs'. apply select_answer_perm.
Qed.

Module Example_answer.
Definition question : Question :=
  mkQuestion $"q1" SingleChoice $"Pick" $"Which one?" None
    [mkOption $"a" $"Yes" None; mkOption $"b" $"No" None].
Definition answer (id : N) (at_time : N) (choice : str) : AnswerBundle :=
  mkAnswerBundle (repeat id 64) $"author" at_time [mkQuestionAnswer $"q1" [choice]].
End Example_answer.

Lemma select_answer_correct_witness :
  ∃ a, select_answer [Example_answer.question]
         [Example_answer.answer 49 5 $"a"; Example_answer.answer 50 9 $"c";
          Example_answer.answer 51 5 $"b"] = Some a ∧ a = Example_answer.answer 51 5 $"b" ∧
       answer_fits [Example_answer.question] a.
Proof.
  exists (Example_answer.answer 51 5 $"b").
  assert (select_answer [Example_answer.question]
         [Example_answer.answer 49 5 $"a"; Example_answer.answer 50 9 $"c";
          Example_answer.answer 51 5 $"b"] = Some (Example_answer.answer 51 5 $"b")) as E
    by (vm_compute; reflexivity).
  split_and!; [exact E|reflexivity|].
  eapply (select_answer_correct [Example_answer.question]); [|exact E].
  apply NoDup_singleton.
Defined.
