(* ===== verification/Related.v ===== *)
(** Composing an answer ([protocol/src/related.rs]) and reading it back with
    the event parser. *)

From S2P Require Export Compose Answer.
From S2P Require Import Roundtrip.

Record FrozenAnswer := mkFrozenAnswer {
  fa_author : str;
  fa_created_at : N;
  fa_group_id : str;
  fa_root_event_id : str;
  fa_content : str;
  fa_answers : list QuestionAnswer;
}.

Inductive RelatedComposeError :=
  | RelatedInvalidAuthor
  | RelatedInvalidGroup
  | RelatedInvalidRoot
  | RelatedInvalidContent
  | RelatedInvalidAnswer
  | RelatedInvalidTag.

#[export] Instance related_compose_error_eq_dec : EqDecision RelatedComposeError.
Proof. solve_decision. Defined.

(** [Display for RelatedComposeError]. *)
Definition related_error_message (e : RelatedComposeError) : str :=
  match e with
  | RelatedInvalidAuthor => $"the answer author is not a public key"
  | RelatedInvalidGroup => $"the answer group is invalid"
  | RelatedInvalidRoot => $"the answer root is not an event id"
  | RelatedInvalidContent => $"the answer content is invalid"
  | RelatedInvalidAnswer => $"the answer values are invalid"
  | RelatedInvalidTag => $"NMP refused a generated answer tag"
  end.

Definition validate_answers_step (questions : gset str) (answer : QuestionAnswer)
    : result RelatedComposeError (gset str) :=
  _ ← fail_if RelatedInvalidAnswer
        (is_none (identifier (qa_question_id answer))
         || bool_decide (qa_question_id answer ∈ questions)
         || is_empty (qa_values answer)
         || (8 <? len (qa_values answer))%N
         || existsb (λ value, is_none (bounded value 4000)) (qa_values answer));
  Ok ({[qa_question_id answer]} ∪ questions).

Definition validate_answers (answers : list QuestionAnswer)
    : result RelatedComposeError unit :=
  _ ← fail_if RelatedInvalidAnswer (is_empty answers || (3 <? len answers)%N);
  _ ← try_fold validate_answers_step ∅ answers;
  Ok ().

Definition answer_tag (value : QuestionAnswer) : list str :=
  [$"answer"; qa_question_id value] ++ qa_values value.

Definition answer_tags (answer : FrozenAnswer) : list (list str) :=
  [[$"tts29"; $"answer"; VERSION]; [$"e"; fa_root_event_id answer; []; $"root"]]
  ++ (answer_tag <$> fa_answers answer).

Section compose_answer.
Context `{Nip29}.

Definition compose_answer (host : RelayUrl) (answer : FrozenAnswer)
    : result RelatedComposeError WriteIntent :=
  author ← ok_or RelatedInvalidAuthor (pk_parse (fa_author answer));
  _ ← ok_or RelatedInvalidGroup (bounded (fa_group_id answer) 128);
  _ ← ok_or RelatedInvalidRoot (eid_from_hex (fa_root_event_id answer));
  _ ← ok_or RelatedInvalidContent (bounded (fa_content answer) 4000);
  _ ← validate_answers (fa_answers answer);
  intent ← ok_or RelatedInvalidTag
    (compose_group_send host (fa_group_id answer) author (fa_created_at answer) 9
       (fa_content answer) (answer_tags answer));
  Ok (set_identity_override (Some author) intent).
End compose_answer.

(** ** What the validation establishes *)
Record value_valid (v : QuestionAnswer) : Prop := {
  av_id : is_identifier (qa_question_id v);
  av_bound : (1 ≤ len (qa_values v) ≤ 8)%N;
  av_values : Forall (λ value, is_Some (bounded value 4000)) (qa_values v);
}.

Record answers_valid (vs : list QuestionAnswer) : Prop := {
  avs_bound : (1 ≤ len vs ≤ 3)%N;
  avs_ids : NoDup (qa_question_id <$> vs);
  avs_all : Forall value_valid vs;
}.

Lemma nonempty_len {A} (l : list A) : l ≠ [] ↔ (1 ≤ len l)%N.
Proof. rewrite <-len_0. lia. Qed.

Lemma value_checks v :
  (is_Some (identifier (qa_question_id v)) ∧ qa_values v ≠ [] ∧
   (len (qa_values v) ≤ 8)%N ∧
   Forall (λ value, is_none (bounded value 4000) = false) (qa_values v)) ↔ value_valid v.
Proof.
  rewrite identifier_check, nonempty_len. setoid_rewrite is_none_false. split.
  - by intros (? & ? & ? & ?).
  - by intros [? [??] ?].
Qed.

Lemma validate_answers_step_Ok seen v seen' :
  validate_answers_step seen v = Ok seen' ↔
  seen' = {[qa_question_id v]} ∪ seen ∧ (qa_question_id v ∉ seen) ∧ value_valid v.
Proof.
  unfold validate_answers_step. split.
  - intros H. passed H as [[[[Hi Hq] He] H8] Hv]. injection H as <-.
    split_and!; [done..|]. by apply value_checks.
  - intros (-> & Hn & (Hi & Hne & H8 & Hvs)%value_checks).
    rewrite bool_decide_eq_false_2, is_none_Some by done.
    apply is_empty_false in Hne as ->. apply N.ltb_ge in H8 as ->.
    by apply existsb_False in Hvs as ->.
Qed.

Lemma validate_answers_ok vs : validate_answers vs = Ok () ↔ answers_valid vs.
Proof.
  pose proof (try_fold_distinct qa_question_id value_valid validate_answers_step
    validate_answers_step_Ok vs) as Hf.
  unfold validate_answers. split.
  - intros H. passed H as [Hne H3]. okay H as seen Hs.
    destruct (proj1 Hf) as [Hnd Hall]; [by exists seen|].
    apply nonempty_len in Hne. done.
  - intros [[Hne H3] Hnd Hall]. apply nonempty_len, is_empty_false in Hne as ->.
    apply N.ltb_ge in H3 as ->. simpl.
    destruct (proj2 Hf) as [s Hs]; [done|]. cbn in Hs. by rewrite Hs.
Qed.

(** ** Reading the answer back *)
Definition published_values (v : QuestionAnswer) : QuestionAnswer :=
  mkQuestionAnswer (qa_question_id v) (trim <$> qa_values v).

Definition published_answer (ev : Event) (a : FrozenAnswer) : Related AnswerBundle :=
  mkRelated (fa_root_event_id a)
    (mkAnswerBundle (eid_hex (event_id ev)) (pk_hex (event_pubkey ev)) (fa_created_at a)
       (published_values <$> fa_answers a)).

Lemma mapM_bounded values :
  Forall (λ value, is_Some (bounded value 4000)) values →
  mapM (λ item, bounded item 4000) values = Some (trim <$> values).
Proof.
  intros Hv. apply mapM_Some_2, Forall2_fmap_r, Forall_Forall2_diag.
  eapply Forall_impl; [done|]. intros v. apply bounded_is_some.
Qed.

Lemma parse_answer_fold vs seen acc :
  Forall value_valid vs → NoDup (qa_question_id <$> vs) →
  (∀ v, v ∈ vs → qa_question_id v ∉ seen) →
  ∃ seen', try_fold parse_answer_step (seen, acc) (answer_tag <$> vs) =
    Some (seen', acc ++ (published_values <$> vs)).
Proof.
  revert seen acc. induction vs as [|v vs IH]; intros seen acc Hall Hnd Hnew.
  { exists seen. by rewrite app_nil_r. }
  apply Forall_cons in Hall as [[Hi Hb Hv] Hall]. csimpl in *.
  apply NoDup_cons in Hnd as [Hx Hnd].
  destruct (IH ({[qa_question_id v]} ∪ seen) (acc ++ [published_values v]))
    as [s' Hs']; [done..| |].
  { intros y Hy. rewrite not_elem_of_union, not_elem_of_singleton.
    split; [|apply Hnew; by right]. intros Heq. apply Hx. rewrite <-Heq.
    by apply list_elem_of_fmap_2. }
  exists s'. rewrite drop_0, mapM_bounded by done.
  assert (len (answer_tag v) = len (qa_values v) + 2)%N as ->.
  { unfold answer_tag. rewrite len_app. simpl. rewrite !len_cons, len_nil. lia. }
  assert ((len (qa_values v) + 2 <? 3)%N = false) as -> by (apply N.ltb_ge; lia).
  assert ((10 <? len (qa_values v) + 2)%N = false) as -> by (apply N.ltb_ge; lia).
  change (at_ (answer_tag v) 1) with (qa_question_id v).
  rewrite identifier_ok by done. simpl.
  rewrite bool_decide_eq_false_2 by (apply Hnew; by left). simpl.
  rewrite <-app_assoc in Hs'. exact Hs'.
Qed.

Section answer_rows.
Context (a : FrozenAnswer) (ev : Event) (srcs : list RelayUrl).
Context (Htags : event_tags ev = [$"h"; fa_group_id a] :: answer_tags a).

Lemma answer_rows_named name : rows (mkRow ev srcs) name =
  named name ([$"h"; fa_group_id a] :: answer_tags a).
Proof. unfold rows. simpl. by rewrite Htags. Qed.

Ltac row_tac :=
  rewrite answer_rows_named; unfold answer_tags, answer_tag;
  simpl app; rewrite !named_cons, (named_fmap _ $"answer") by done; lit_decide; done.

Lemma answer_rows_h : rows (mkRow ev srcs) $"h" = [[$"h"; fa_group_id a]].
Proof. row_tac. Qed.
Lemma answer_rows_marker :
  rows (mkRow ev srcs) $"tts29" = [[$"tts29"; $"answer"; VERSION]].
Proof. row_tac. Qed.
Lemma answer_rows_e :
  rows (mkRow ev srcs) $"e" = [[$"e"; fa_root_event_id a; []; $"root"]].
Proof. row_tac. Qed.
Lemma answer_rows_answer :
  rows (mkRow ev srcs) $"answer" = answer_tag <$> fa_answers a.
Proof. row_tac. Qed.
End answer_rows.

(** A composed answer, once signed, parses back to the frozen answer with
    its values trimmed, related to the same root, under the same group. *)
Theorem composed_answer_roundtrip `{Nip29Laws} host a w ev srcs :
  compose_answer host a = Ok w → hex64 (fa_root_event_id a) →
  signs ev (intent_payload w) →
  parse (mkRow ev srcs) (fa_group_id a) = Some (PAnswer (published_answer ev a)).
Proof.
  unfold compose_answer. intros Hc Hroot Hs. okay Hc as author Ha. okay Hc as g Hg.
  okay Hc as e He. okay Hc as c Hcont. okay Hc as [] Hv. okay Hc as w0 Hw.
  injection Hc as <-. apply ok_or_ok in Hw. apply validate_answers_ok in Hv as [[H1 H3] Hnd Hall].
  rewrite override_payload, (send_payload _ _ _ _ _ _ _ _ Hw) in Hs.
  destruct Hs as (_ & Hca & Hk & Htags & _). simpl in *.
  unfold parse, group_matches, marker. simpl.
  rewrite Hk, (answer_rows_h a), (answer_rows_marker a) by done.
  rewrite bool_decide_eq_true_2 by done. simpl. unfold at_. simpl. lit_decide.
  replace (VERSION =?s VERSION) with true by (vm_compute; reflexivity).
  unfold parse_answer. rewrite (answer_rows_answer a), len_fmap by done.
  assert (is_empty (answer_tag <$> fa_answers a) = false) as ->.
  { apply is_empty_false. destruct (fa_answers a); [|done]. unfold len in H1. simpl in H1. lia. }
  apply N.ltb_ge in H3 as ->. simpl.
  destruct (parse_answer_fold (fa_answers a) ∅ []) as [s' ->]; [done..|set_solver|].
  simpl. unfold root_event. rewrite (answer_rows_e a) by done. unfold at_. simpl.
  rewrite str_eqb_refl, (proj2 (is_lower_hex_true (fa_root_event_id a) 64)) by done.
  simpl. unfold published_answer, row_id, row_author, row_created_at. simpl. by rewrite Hca.
Qed.

Import Example_nmp.

Module Example_related.
Definition host : RelayUrl := mkRelayUrl $"wss://relay.example".
Definition answer : FrozenAnswer :=
  mkFrozenAnswer (repeat 97%N 64) 7 $"group" (repeat 49%N 64) $"Yes"
    [mkQuestionAnswer $"q1" [$"a "; $"b"]].
Definition composed : result RelatedComposeError intent := compose_answer host answer.
Definition signed (w : intent) : Event :=
  let u := i_payload w in
  mkEvent (mkEventId (repeat 50%N 64)) (unsigned_pubkey u) (unsigned_created_at u)
    (unsigned_kind u) (unsigned_tags u) (unsigned_content u).
End Example_related.

Lemma composed_answer_roundtrip_witness :
  match Example_related.composed with
  | Ok w => parse (mkRow (Example_related.signed w) []) $"group" =
      Some (PAnswer (published_answer (Example_related.signed w) Example_related.answer))
  | Err _ => False
  end.
Proof.
  destruct Example_related.composed as [w|e] eqn:E.
  - apply (@composed_answer_roundtrip nip29 nip29_laws Example_related.host
      Example_related.answer w).
    + exact E.
    + apply is_lower_hex_true. vm_compute. reflexivity.
    + done.
  - vm_compute in E. discriminate.
Defined.
