(* ===== verification/Membership.v ===== *)
(** Group membership and group administration ([protocol/src/membership.rs],
    [protocol/src/group_admin.rs]): the demands on the group's relay, the
    predicates that read relay-signed group state, and the composers of the
    management events. *)

From S2P Require Export Tags.

(** The demand values the two files build: a filter on kinds and one indexed
    tag, pinned to one host, for the public, with a strict cache. *)
Record Demand := mkDemand {
  demand_kinds : list N;
  demand_tags : gmap str (list str);
  demand_pinned : list RelayUrl;
  demand_strict : bool;
}.

(** What a [Filter] selects (NIP-01): the kind is listed, and for every indexed
    tag the event has a tag of that name whose value is listed. *)
Definition filter_selects (d : Demand) (e : Event) : Prop :=
  event_kind e ∈ demand_kinds d ∧
  ∀ name values, demand_tags d !! name = Some values →
    ∃ tag v, tag ∈ event_tags e ∧ tag !! 0 = Some name ∧ tag !! 1 = Some v ∧ v ∈ values.

Definition tag_matches (tag : list str) (name value : str) : bool :=
  bool_decide (head tag = Some name) && bool_decide (tag !! 1 = Some value).

Lemma tag_matches_true tag name value :
  tag_matches tag name value = true ↔ ∃ rest, tag = name :: value :: rest.
Proof.
  unfold tag_matches. reflect. destruct tag as [|n [|v rest]]; naive_solver.
Qed.

Lemma existsb_tag ts name value :
  existsb (λ tag, tag_matches tag name value) ts = true ↔
  ∃ rest, name :: value :: rest ∈ ts.
Proof. rewrite existsb_True. setoid_rewrite tag_matches_true. naive_solver. Qed.

Module Membership.
Definition MEMBER_STATE_KINDS : list N := [39001; 39002]%N.
Definition PUT_USER_KIND : N := 9000.

Inductive MembershipError := InvalidGroup | InvalidAdmin | InvalidMember | InvalidTag.

(** [Display for MembershipError]. *)
Definition message (e : MembershipError) : str :=
  match e with
  | InvalidGroup => $"the group id is invalid"
  | InvalidAdmin => $"the group admin is not a public key"
  | InvalidMember => $"the group member is not a public key"
  | InvalidTag => $"NMP refused a generated membership tag"
  end.

Definition validate_group (group_id : str) : result MembershipError unit :=
  ok_or InvalidGroup ((λ _, ()) <$> bounded group_id 128).

Definition group_membership_demand (host : RelayUrl) (group_id : str)
    : result MembershipError Demand :=
  _ ← validate_group group_id;
  Ok (mkDemand MEMBER_STATE_KINDS {[ $"d" := [group_id] ]} [host] true).

Definition event_authorizes_member (event : Event) (group_id : str) (member : PublicKey)
    : bool :=
  existsb (N.eqb (event_kind event)) MEMBER_STATE_KINDS
  && existsb (λ tag, tag_matches tag $"d" group_id) (event_tags event)
  && existsb (λ tag, tag_matches tag $"p" (pk_hex member)) (event_tags event).

Section compose.
Context `{Nip29}.

Definition compose_membership_upsert (host : RelayUrl) (group_id admin member : str)
    (created_at : N) (correlation : str) : result MembershipError WriteIntent :=
  _ ← validate_group group_id;
  admin ← ok_or InvalidAdmin (pk_parse admin);
  member ← ok_or InvalidMember (pk_parse member);
  intent ← ok_or InvalidTag
    (compose_group_send host group_id admin created_at PUT_USER_KIND []
       [[$"p"; pk_hex member]]);
  Ok (set_correlation (Some correlation) intent).
End compose.

Lemma event_authorizes_member_iff e g m :
  event_authorizes_member e g m = true ↔
  (event_kind e = 39001%N ∨ event_kind e = 39002%N) ∧
  (∃ rest, $"d" :: g :: rest ∈ event_tags e) ∧
  (∃ rest, $"p" :: pk_hex m :: rest ∈ event_tags e).
Proof.
  unfold event_authorizes_member. rewrite !andb_true_iff, !existsb_tag. simpl.
  rewrite orb_false_r, orb_true_iff, !N.eqb_eq. naive_solver.
Qed.

Lemma demand_selects host g d e m :
  group_membership_demand host g = Ok d → event_authorizes_member e g m = true →
  filter_selects d e ∧ demand_pinned d = [host].
Proof.
  unfold group_membership_demand. intros Hd. okay Hd as [] _. injection Hd as <-.
  rewrite event_authorizes_member_iff. intros (Hk & (rest & Hin) & _).
  split; [|done]. split; simpl.
  - unfold MEMBER_STATE_KINDS. set_solver.
  - intros name values [<- <-]%lookup_singleton_Some.
    exists ($"d" :: g :: rest), g. set_solver.
Qed.

Lemma upsert_payload `{Nip29Laws} host g admin member t c w :
  compose_membership_upsert host g admin member t c = Ok w →
  ∃ a m, pk_parse admin = Some a ∧ pk_parse member = Some m ∧
    is_Some (bounded g 128) ∧
    intent_host w = host ∧ correlation w = Some c ∧ identity_override w = None ∧
    intent_payload w = mkUnsigned a t 9000 [[$"h"; g]; [$"p"; pk_hex m]] [].
Proof.
  unfold compose_membership_upsert, validate_group. intros Hc. okay Hc as u Hg.
  okay Hc as a Ha. okay Hc as m Hm. okay Hc as w0 Hw. injection Hc as <-.
  apply ok_or_ok in Hg, Ha, Hm, Hw. apply fmap_Some in Hg as (g' & Hg & _).
  exists a, m. rewrite correlation_host, correlation_get, correlation_payload,
    correlation_override. split_and!; try done.
  - by eapply send_host.
  - by eapply send_no_override.
  - by eapply send_payload.
Qed.
End Membership.

Module GroupAdmin.
Definition GROUP_METADATA_KIND : N := 39000.
Definition GROUP_ADMINS_KIND : N := 39001.
Definition PUT_USER_KIND : N := 9000.
Definition CREATE_GROUP_KIND : N := 9007.

Inductive GroupAdminError :=
  | InvalidGroup | InvalidDaemon | InvalidOwner | InvalidRole | InvalidTag.

(** [Display for GroupAdminError]. *)
Definition message (e : GroupAdminError) : str :=
  match e with
  | InvalidGroup => $"the group id is invalid"
  | InvalidDaemon => $"the daemon identity is not a public key"
  | InvalidOwner => $"the owner identity is not a public key"
  | InvalidRole => $"the owner role is invalid"
  | InvalidTag => $"NMP refused a generated group-management tag"
  end.

Definition validate_group (group_id : str) : result GroupAdminError unit :=
  ok_or InvalidGroup ((λ _, ()) <$> bounded group_id 128).

Definition group_admin_demand (host : RelayUrl) (group_id : str)
    : result GroupAdminError Demand :=
  _ ← validate_group group_id;
  Ok (mkDemand [GROUP_METADATA_KIND; GROUP_ADMINS_KIND] {[ $"d" := [group_id] ]}
        [host] true).

Definition event_establishes_group (event : Event) (group_id : str) : bool :=
  (event_kind event =? GROUP_METADATA_KIND)%N
  && existsb (λ tag, tag_matches tag $"d" group_id) (event_tags event).

Definition event_is_group_admin_state (event : Event) (group_id : str) : bool :=
  (event_kind event =? GROUP_ADMINS_KIND)%N
  && existsb (λ tag, tag_matches tag $"d" group_id) (event_tags event).

Definition event_assigns_role (event : Event) (group_id : str) (user : PublicKey)
    (role : str) : bool :=
  event_is_group_admin_state event group_id
  && existsb (λ row, bool_decide (head row = Some $"p")
                     && bool_decide (row !! 1 = Some (pk_hex user))
                     && existsb (λ value, value =?s role) (drop 2 row))
       (event_tags event).

Section compose.
Context `{Nip29}.

Definition compose_group_create (host : RelayUrl) (group_id daemon : str)
    (created_at : N) (correlation : str) : result GroupAdminError WriteIntent :=
  _ ← validate_group group_id;
  daemon ← ok_or InvalidDaemon (pk_parse daemon);
  intent ← ok_or InvalidTag
    (compose_group_send host group_id daemon created_at CREATE_GROUP_KIND
       $"TTS29 durable spoken queue" []);
  Ok (set_correlation (Some correlation) intent).

Definition compose_admin_upsert (host : RelayUrl)
    (group_id daemon owner role : str) (created_at : N) (correlation : str)
    : result GroupAdminError WriteIntent :=
  _ ← validate_group group_id;
  daemon ← ok_or InvalidDaemon (pk_parse daemon);
  owner ← ok_or InvalidOwner (pk_parse owner);
  role ← ok_or InvalidRole (bounded role 64);
  intent ← ok_or InvalidTag
    (compose_group_send host group_id daemon created_at PUT_USER_KIND []
       [[$"p"; pk_hex owner; role]]);
  Ok (set_correlation (Some correlation) intent).
End compose.

Lemma event_establishes_group_iff e g :
  event_establishes_group e g = true ↔
  event_kind e = 39000%N ∧ ∃ rest, $"d" :: g :: rest ∈ event_tags e.
Proof. unfold event_establishes_group. by rewrite andb_true_iff, N.eqb_eq, existsb_tag. Qed.

Lemma event_assigns_role_iff e g u r :
  event_assigns_role e g u r = true ↔
  event_kind e = 39001%N ∧ (∃ rest, $"d" :: g :: rest ∈ event_tags e) ∧
  ∃ roles, $"p" :: pk_hex u :: roles ∈ event_tags e ∧ r ∈ roles.
Proof.
  unfold event_assigns_role, event_is_group_admin_state.
  rewrite !andb_true_iff, N.eqb_eq, existsb_tag, existsb_True.
  assert (∀ x, (bool_decide (head x = Some $"p") && bool_decide (x !! 1 = Some (pk_hex u))
    && existsb (λ value, value =?s r) (drop 2 x)) = true ↔
    ∃ roles, x = $"p" :: pk_hex u :: roles ∧ r ∈ roles) as Hx.
  { intros x. rewrite !andb_true_iff, !bool_decide_eq_true, existsb_True.
    unfold str_eqb. setoid_rewrite bool_decide_eq_true.
    destruct x as [|n [|v roles]]; simpl; [naive_solver..|]. rewrite drop_0. naive_solver. }
  setoid_rewrite Hx. naive_solver.
Qed.

(** A role the relay was asked for is the role the predicate later looks for,
    as long as it had no surrounding white space. *)
Lemma admin_upsert_payload `{Nip29Laws} host g daemon owner role t c w :
  compose_admin_upsert host g daemon owner role t c = Ok w →
  ∃ d o, pk_parse daemon = Some d ∧ pk_parse owner = Some o ∧
    is_Some (bounded g 128) ∧ is_Some (bounded role 64) ∧
    intent_host w = host ∧ correlation w = Some c ∧ identity_override w = None ∧
    intent_payload w =
      mkUnsigned d t 9000 [[$"h"; g]; [$"p"; pk_hex o; trim role]] [].
Proof.
  unfold compose_admin_upsert, validate_group. intros Hc. okay Hc as u Hg.
  okay Hc as d Hd. okay Hc as o Ho. okay Hc as r Hr. okay Hc as w0 Hw. injection Hc as <-.
  apply ok_or_ok in Hg, Hd, Ho, Hr, Hw. apply fmap_Some in Hg as (g' & Hg & _).
  pose proof Hr as (-> & _)%bounded_Some.
  exists d, o. rewrite correlation_host, correlation_get, correlation_payload,
    correlation_override. split_and!; try done.
  - by eapply send_host.
  - by eapply send_no_override.
  - by eapply send_payload.
Qed.

Lemma group_create_payload `{Nip29Laws} host g daemon t c w :
  compose_group_create host g daemon t c = Ok w →
  ∃ d, pk_parse daemon = Some d ∧ is_Some (bounded g 128) ∧
    intent_host w = host ∧ correlation w = Some c ∧ identity_override w = None ∧
    intent_payload w =
      mkUnsigned d t 9007 [[$"h"; g]] $"TTS29 durable spoken queue".
Proof.
  unfold compose_group_create, validate_group. intros Hc. okay Hc as u Hg.
  okay Hc as d Hd. okay Hc as w0 Hw. injection Hc as <-.
  apply ok_or_ok in Hg, Hd, Hw. apply fmap_Some in Hg as (g' & Hg & _).
  exists d. rewrite correlation_host, correlation_get, correlation_payload,
    correlation_override. split_and!; try done.
  - by eapply send_host.
  - by eapply send_no_override.
  - by eapply send_payload.
Qed.
End GroupAdmin.
