(* ===== verification/Model.v ===== *)
(** The kernel's values ([core/src/model.rs]): configuration, the queue
    snapshot handed to the shell, and the phases it reports. *)

From S2P Require Export Contract.

Record KernelConfiguration := mkConfiguration {
  cfg_relay : str;
  cfg_group_id : str;
  cfg_store_path : option str;
  cfg_viewer_pubkey : option str;
}.

Inductive KernelPhase := KStarting | KListening | KFailed | KStopped.

Inductive IdentityPhase := SignedOut | Saving | SignedIn | LoggingOut.

Record IdentitySnapshot := mkIdentitySnapshot {
  identity_phase : IdentityPhase;
  identity_pubkey : option str;
  identity_error : option str;
}.

Definition signed_out : IdentitySnapshot := mkIdentitySnapshot SignedOut None None.

Inductive CredentialOperation := Store | Delete.

Record CredentialRequest := mkCredentialRequest {
  request_id : N;
  request_operation : CredentialOperation;
}.

Inductive AnswerSubmissionPhase := Sending | Published | SubmissionFailed.

Record AnswerSubmissionSnapshot := mkSubmission {
  submission_item_id : str;
  submission_phase : AnswerSubmissionPhase;
  submission_receipt_id : option N;
  submission_event_id : option str;
  submission_error : option str;
}.

Record QueueEvidence := mkQueueEvidence {
  source_count : N;
  shortfall_count : N;
  rejected_event_count : N;
}.

Record QueueSnapshot := mkQueueSnapshot {
  snapshot_phase : KernelPhase;
  snapshot_relay : str;
  snapshot_group_id : str;
  snapshot_items : list SpokenItem;
  snapshot_evidence : QueueEvidence;
  snapshot_error : option str;
  snapshot_identity : IdentitySnapshot;
  snapshot_credential_request : option CredentialRequest;
  snapshot_answer_submissions : list AnswerSubmissionSnapshot;
}.

#[export] Instance kernel_phase_eq_dec : EqDecision KernelPhase.
Proof. solve_decision. Defined.
#[export] Instance identity_phase_eq_dec : EqDecision IdentityPhase.
Proof. solve_decision. Defined.
#[export] Instance identity_snapshot_eq_dec : EqDecision IdentitySnapshot.
Proof. solve_decision. Defined.
#[export] Instance credential_operation_eq_dec : EqDecision CredentialOperation.
Proof. solve_decision. Defined.
#[export] Instance credential_request_eq_dec : EqDecision CredentialRequest.
Proof. solve_decision. Defined.
#[export] Instance submission_phase_eq_dec : EqDecision AnswerSubmissionPhase.
Proof. solve_decision. Defined.
#[export] Instance submission_eq_dec : EqDecision AnswerSubmissionSnapshot.
Proof. solve_decision. Defined.

(** [QueueSnapshot::lifecycle] and [QueueSnapshot::failed]. *)
Definition lifecycle (configuration : KernelConfiguration) (phase : KernelPhase)
    : QueueSnapshot :=
  mkQueueSnapshot phase (cfg_relay configuration) (cfg_group_id configuration) []
    (mkQueueEvidence 0 0 0) None signed_out None [].

Definition failed (configuration : KernelConfiguration) (error : str) : QueueSnapshot :=
  mkQueueSnapshot KFailed (cfg_relay configuration) (cfg_group_id configuration) []
    (mkQueueEvidence 0 0 0) (Some error) signed_out None [].
