(* ===== verification/Projection.v ===== *)
(** The deterministic projection ([core/src/projection.rs]): from the rows of
    the group to the queue snapshot, through maps of items, answers,
    acknowledgements and reactions, per-item resolution, and the bounded
    assembly of narrated children. *)

From S2P Require Export Parse Answer Model.

Definition MAX_PROJECTED_ITEMS : nat := 40.
Definition MAX_ATTACH_DEPTH : nat := 3.
Definition MAX_CHILDREN : N := 12.

(** [nmp::AcquisitionEvidence], of which the projection takes the lengths. *)
Record AcquisitionEvidence := mkEvidence {
  evidence_sources : N;
  evidence_shortfall : N;
}.

Definition acknowledgement_order (value : Acknowledgement) : N * str :=
  (ack_created_at value, ack_event_id value).
Definition reaction_order (value : Reaction) : N * str :=
  (reaction_created_at value, reaction_event_id value).

Definition is_hidden (item : SpokenItem) : bool :=
  match ack_state <$> item_acknowledgement item with
  | Some (Dismissed | Archived) => true
  | _ => false
  end.

Definition replace_latest {K V} `{Countable K} (values : gmap K V) (key : K)
    (candidate : V) (order : V → N * str) : gmap K V :=
  let should_replace :=
    match values !! key with
    | Some current => cmp_gtb (order candidate) (order current)
    | None => true
    end in
  if should_replace then <[key := candidate]> values else values.

(** ** Collecting the rows *)
Record Collected := mkCollected {
  col_items : gmap str SpokenItem;
  col_answers : gmap str (list AnswerBundle);
  col_acks : gmap (str * str) Acknowledgement;
  col_reactions : gmap (str * str * str) Reaction;
  col_rejected : N;
}.

Definition collected_empty : Collected := mkCollected ∅ ∅ ∅ ∅ 0.

(** One round of [for row in rows]. *)
Definition collect_parsed (c : Collected) (event : option ParsedEvent) : Collected :=
  let '(mkCollected items answers acks reactions rejected) := c in
  match event with
  | Some (PItem item) =>
      mkCollected (<[item_id item := item]> items) answers acks reactions rejected
  | Some (PAnswer event) =>
      let values := default [] (answers !! related_root_id event) in
      mkCollected items
        (<[related_root_id event := values ++ [related_value event]]> answers)
        acks reactions rejected
  | Some (PAcknowledgement event) =>
      let key := (related_root_id event, ack_author (related_value event)) in
      mkCollected items answers
        (replace_latest acks key (related_value event) acknowledgement_order)
        reactions rejected
  | Some (PReaction event) =>
      let value := related_value event in
      let key := (related_root_id event, reaction_author value, reaction_emoji value) in
      mkCollected items answers acks
        (replace_latest reactions key value reaction_order) rejected
  | None => mkCollected items answers acks reactions (rejected + 1)
  end.
Definition collect_step (group_id : str) (c : Collected) (row : Row) : Collected :=
  collect_parsed c (parse row group_id).

(** Related events whose root is not a known item. *)
Definition count_orphans (c : Collected) : N :=
  let known := dom (col_items c) in
  foldr N.add 0%N
    (len ∘ snd <$> filter (λ entry, entry.1 ∉ known) (btree_iter (col_answers c)))
  + len (filter (λ key, key.1 ∉ known) (btree_keys (col_acks c)))
  + len (filter (λ key, key.1.1 ∉ known) (btree_keys (col_reactions c))).

(** ** Resolving each item *)
Definition reaction_summaries (item_id : str)
    (reactions : gmap (str * str * str) Reaction) : list ReactionSummary :=
  let grouped : gmap str (list str) :=
    foldl (λ grouped '((root, author, emoji), reaction),
      if bool_decide (root = item_id) && reaction_active reaction
      then <[emoji := default [] (grouped !! emoji) ++ [author]]> grouped
      else grouped) ∅ (btree_iter reactions) in
  (λ '(emoji, authors),
     mkReactionSummary emoji (len authors) (sort_by_key id authors))
  <$> btree_iter grouped.

Record Resolving := mkResolving {
  rs_answers : gmap str (list AnswerBundle);
  rs_acks : gmap (str * str) Acknowledgement;
  rs_rejected : N;
  rs_resolved : gmap str SpokenItem;
}.

(** One round of [for (id, mut item) in items]. *)
Definition resolve_step (viewer : option str) (reactions : gmap (str * str * str) Reaction)
    (st : Resolving) (entry : str * SpokenItem) : Resolving :=
  let '(id, item) := entry in
  let candidates := default [] (rs_answers st !! item_id item) in
  let valid := filter (λ a, valid_answer (item_questions item) a = true) candidates in
  let invalid := filter (λ a, valid_answer (item_questions item) a ≠ true) candidates in
  let answer := max_by (λ left right, cmp (answer_order left) (answer_order right)) valid in
  let acknowledgement :=
    author ← viewer; rs_acks st !! (item_id item, author) in
  let acks :=
    match viewer with
    | Some author => delete (item_id item, author) (rs_acks st)
    | None => rs_acks st
    end in
  mkResolving (delete (item_id item) (rs_answers st)) acks
    (rs_rejected st + len invalid)
    (<[id := set_related answer acknowledgement
               (reaction_summaries (item_id item) reactions) item]> (rs_resolved st)).

(** ** Indexing children *)
Record Indexed := mkIndexed {
  ix_children : gmap str (list str);
  ix_top_level : list str;
  ix_rejected : N;
}.

(** One round of [for (id, item) in &resolved]. *)
Definition index_step (resolved : gmap str SpokenItem) (st : Indexed)
    (entry : str * SpokenItem) : Indexed :=
  let '(id, item) := entry in
  match item_attach item with
  | Some link =>
      if bool_decide (is_Some (resolved !! parent_id link)) then
        mkIndexed
          (<[parent_id link := default [] (ix_children st !! parent_id link) ++ [id]]>
             (ix_children st))
          (ix_top_level st) (ix_rejected st)
      else mkIndexed (ix_children st) (ix_top_level st) (ix_rejected st + 1)
  | None => mkIndexed (ix_children st) (ix_top_level st ++ [id]) (ix_rejected st)
  end.

(** [created_at] of an id known to be resolved. *)
Definition created_of (resolved : gmap str SpokenItem) (id : str) : N :=
  default 0%N (item_created_at <$> resolved !! id).

(** The comparator of children: ascending time, then id. *)
Definition child_key (resolved : gmap str SpokenItem) (id : str) : N * str :=
  (created_of resolved id, id).

(** The comparator of the queue compares [right] with [left] on time and
    [left] with [right] on ids. *)
Record Descending := mkDescending { descending : N }.
#[export] Instance descending_Cmp : Cmp Descending := λ x y,
  cmp (descending y) (descending x).
#[export] Instance descending_cmp_laws : CmpLaws Descending.
Proof.
  split; unfold cmp, descending_Cmp.
  - intros [x] [y]; simpl. rewrite cmp_eq. naive_solver.
  - intros. apply cmp_opp.
  - intros x y z ??. by eapply cmp_lt_trans.
Qed.

Definition queue_key (resolved : gmap str SpokenItem) (id : str) : Descending * str :=
  (mkDescending (created_of resolved id), id).

(** ** Assembling a subtree

    [remaining] is [MAX_ATTACH_DEPTH - depth]; the state is the visited set and the
    rejected count. *)
Fixpoint assemble_subtree (resolved : gmap str SpokenItem)
    (children_by_parent : gmap str (list str)) (remaining : nat) (id : str)
    (st : gset str * N) : option SpokenItem * (gset str * N) :=
  let '(visited, rejected) := st in
  if bool_decide (id ∈ visited) then (None, (visited, rejected))
  else
    let visited := {[id]} ∪ visited in
    match resolved !! id with
    | None => (None, (visited, rejected))
    | Some item =>
        let child_ids := default [] (children_by_parent !! id) in
        match remaining with
        | O => (Some (set_children [] item), (visited, (rejected + len child_ids)%N))
        | S remaining =>
            let '(children, st) :=
              foldl (λ '(children, st) child_id,
                if (MAX_CHILDREN <=? len children)%N then
                  (children, (st.1, (st.2 + 1)%N))
                else
                  match assemble_subtree resolved children_by_parent remaining child_id st with
                  | (Some child, st) => (children ++ [child], st)
                  | (None, st) => (children, (st.1, (st.2 + 1)%N))
                  end)
                ([], (visited, rejected)) child_ids in
            (Some (set_children children item), st)
        end
    end.

(** [top_level.iter().filter_map(..)]. *)
Definition assemble_step (resolved : gmap str SpokenItem)
    (children_by_parent : gmap str (list str))
    (acc : list SpokenItem * (gset str * N)) (id : str)
    : list SpokenItem * (gset str * N) :=
  let '(projected, st) := acc in
  match assemble_subtree resolved children_by_parent MAX_ATTACH_DEPTH id st with
  | (Some item, st) => (projected ++ [item], st)
  | (None, st) => (projected, st)
  end.

(** The stages of [project], in the order of the code. *)
Definition collect (group_id : str) (rows : list Row) : Collected :=
  foldl (collect_step group_id) collected_empty rows.

Definition resolve (viewer : option str) (c : Collected) : Resolving :=
  foldl (resolve_step viewer (col_reactions c))
    (mkResolving (col_answers c) (col_acks c) (col_rejected c + count_orphans c) ∅)
    (btree_iter (col_items c)).

Definition index_children (resolved : gmap str SpokenItem) (rejected : N) : Indexed :=
  let ix := foldl (index_step resolved) (mkIndexed ∅ [] rejected) (btree_iter resolved) in
  mkIndexed (sort_by_key (child_key resolved) <$> ix_children ix) (ix_top_level ix)
    (ix_rejected ix).

Definition hidden_id (resolved : gmap str SpokenItem) (id : str) : bool :=
  default false (is_hidden <$> resolved !! id).

Definition order_top_level (resolved : gmap str SpokenItem) (top_level : list str)
    : list str :=
  take MAX_PROJECTED_ITEMS
    (sort_by_key (queue_key resolved)
       (filter (λ id, hidden_id resolved id = false) top_level)).

Definition project (configuration : KernelConfiguration) (rows : list Row)
    (evidence : AcquisitionEvidence) : QueueSnapshot :=
  let c := collect (cfg_group_id configuration) rows in
  let rs := resolve (cfg_viewer_pubkey configuration) c in
  let resolved := rs_resolved rs in
  let ix := index_children resolved (rs_rejected rs) in
  let top_level := order_top_level resolved (ix_top_level ix) in
  let '(projected, (_, rejected)) :=
    foldl (assemble_step resolved (ix_children ix)) ([], (∅, ix_rejected ix)) top_level in
  mkQueueSnapshot KListening (cfg_relay configuration) (cfg_group_id configuration)
    projected
    (mkQueueEvidence (evidence_sources evidence) (evidence_shortfall evidence) rejected)
    None signed_out None [].
