(* ===== verification/ProjectionSpec.v ===== *)
(** What the collecting loop of the projection accumulates, read off the rows:
    the answers, acknowledgements, reactions and items of one id. *)

From S2P Require Export Projection.

(** ** Keeping the latest value of a key *)
Section latest.
Context {V : Type} (order : V → N * str).

Definition latest (current : option V) (candidate : V) : V :=
  match current with
  | Some v => if cmp_gtb (order candidate) (order v) then candidate else v
  | None => candidate
  end.

Lemma replace_latest_lookup {K} `{Countable K} (m : gmap K V) k v k' :
  replace_latest m k v order !! k' =
    if decide (k = k') then Some (latest (m !! k) v) else m !! k'.
Proof.
  unfold replace_latest, latest. destruct (decide (k = k')) as [<-|Hk].
  - destruct (m !! k) as [w|] eqn:E; [|by rewrite lookup_insert_eq].
    destruct (cmp_gtb _ _); [by rewrite lookup_insert_eq|done].
  - destruct (m !! k); [destruct (cmp_gtb _ _)|]; by rewrite ?lookup_insert_ne.
Qed.

Lemma latest_comm o a b :
  order a ≠ order b → latest (Some (latest o a)) b = latest (Some (latest o b)) a.
Proof.
  intros Hne. pose proof (cmp_gtb_antisym _ _ Hne) as Hba. destruct o as [c|]; simpl.
  - destruct (cmp_gtb (order a) (order c)) eqn:Ha, (cmp_gtb (order b) (order c)) eqn:Hb;
      rewrite ?Ha, ?Hb; try done.
    + rewrite Hba. by destruct (cmp_gtb (order a) (order b)).
    + by rewrite Hba, (cmp_gtb_le_trans _ _ _ Ha Hb).
    + rewrite (cmp_gtb_le_trans _ _ _ Hb Ha) in Hba. by destruct (cmp_gtb (order a) _).
  - rewrite Hba. by destruct (cmp_gtb (order a) (order b)).
Qed.

Lemma replace_latest_comm {K} `{Countable K} (m : gmap K V) k1 v1 k2 v2 :
  order v1 ≠ order v2 →
  replace_latest (replace_latest m k1 v1 order) k2 v2 order =
  replace_latest (replace_latest m k2 v2 order) k1 v1 order.
Proof.
  intros Hne. apply map_eq. intros k. rewrite !replace_latest_lookup.
  repeat case_decide; subst; try done. by rewrite latest_comm.
Qed.
(** Folding [latest] over a list finds a greatest element. *)
Lemma latest_foldl o l m :
  foldl (λ o v, Some (latest o v)) o l = Some m →
  (o = Some m ∨ m ∈ l) ∧ ∀ v, o = Some v ∨ v ∈ l → cmp_le (order v) (order m).
Proof.
  revert o. induction l as [|x l IH]; intros o; simpl.
  { intros ->. split; [by left|]. intros v [[= ->]|Hv%not_elem_of_nil]; [|done].
    reflexivity. }
  intros [Hin Hle]%IH. unfold latest in *. destruct o as [c|].
  - destruct (cmp_gtb (order x) (order c)) eqn:E; split; try set_solver.
    + intros v [[= <-]|[->|Hv]%elem_of_cons]; [|apply Hle; by left|apply Hle; by right].
      trans (order x); [|apply Hle; by left]. apply cmp_gtb_true in E.
      apply cmp_le_cases. by left.
    + intros v [[= <-]|[->|Hv]%elem_of_cons]; [apply Hle; by left| |apply Hle; by right].
      trans (order c); [by apply cmp_gtb_false|apply Hle; by left].
  - split; [set_solver|].
    intros v [?|[->|Hv]%elem_of_cons]; [done|apply Hle; by left|apply Hle; by right].
Qed.

Lemma latest_foldl_None l : foldl (λ o v, Some (latest o v)) None l = None ↔ l = [].
Proof.
  destruct l as [|x l]; [done|]. split; [|done]. intros Hn. simpl in Hn.
  assert (∀ z, foldl (λ o v, Some (latest o v)) (Some z) l ≠ None) as Hgen.
  { clear. induction l as [|y l IH]; intros z; simpl; [done|]. apply IH. }
  by apply Hgen in Hn.
Qed.
End latest.

(** The effect of one parsed row on each map. *)
Definition add_item (e : option ParsedEvent) (m : gmap str SpokenItem) :=
  match e with Some (PItem i) => <[item_id i := i]> m | _ => m end.
Definition add_answer (e : option ParsedEvent) (m : gmap str (list AnswerBundle)) :=
  match e with
  | Some (PAnswer r) =>
      <[related_root_id r := default [] (m !! related_root_id r) ++ [related_value r]]> m
  | _ => m
  end.
Definition add_ack (e : option ParsedEvent) (m : gmap (str * str) Acknowledgement) :=
  match e with
  | Some (PAcknowledgement r) =>
      replace_latest m (related_root_id r, ack_author (related_value r))
        (related_value r) acknowledgement_order
  | _ => m
  end.
Definition add_reaction (e : option ParsedEvent) (m : gmap (str * str * str) Reaction) :=
  match e with
  | Some (PReaction r) =>
      replace_latest m (related_root_id r, reaction_author (related_value r),
        reaction_emoji (related_value r)) (related_value r) reaction_order
  | _ => m
  end.
Definition add_rejected (e : option ParsedEvent) (n : N) : N :=
  match e with None => (n + 1)%N | _ => n end.

Lemma collect_parsed_fields c e :
  collect_parsed c e =
    mkCollected (add_item e (col_items c)) (add_answer e (col_answers c))
      (add_ack e (col_acks c)) (add_reaction e (col_reactions c))
      (add_rejected e (col_rejected c)).
Proof. by destruct c, e as [[]|]. Qed.

Lemma add_answer_lookup e m k :
  add_answer e m !! k =
    match e with
    | Some (PAnswer r) =>
        if decide (related_root_id r = k)
        then Some (default [] (m !! k) ++ [related_value r]) else m !! k
    | _ => m !! k
    end.
Proof.
  destruct e as [[]|]; try done. simpl. rewrite lookup_insert.
  by destruct (decide (related_root_id answer = k)) as [->|].
Qed.

(** ** The related events of an item, in the order of the rows *)
Definition answers_for (g : str) (rows : list Row) (id : str) : list AnswerBundle :=
  omap (λ row, match parse row g with
    | Some (PAnswer r) => if decide (related_root_id r = id) then Some (related_value r) else None
    | _ => None
    end) rows.

Definition acks_for (g : str) (rows : list Row) (key : str * str) : list Acknowledgement :=
  omap (λ row, match parse row g with
    | Some (PAcknowledgement r) =>
        if decide ((related_root_id r, ack_author (related_value r)) = key)
        then Some (related_value r) else None
    | _ => None
    end) rows.

Definition reactions_for (g : str) (rows : list Row) (key : str * str * str) : list Reaction :=
  omap (λ row, match parse row g with
    | Some (PReaction r) =>
        if decide ((related_root_id r, reaction_author (related_value r),
                    reaction_emoji (related_value r)) = key)
        then Some (related_value r) else None
    | _ => None
    end) rows.

Lemma collect_step_fields g c row :
  collect_step g c row =
    mkCollected (add_item (parse row g) (col_items c)) (add_answer (parse row g) (col_answers c))
      (add_ack (parse row g) (col_acks c)) (add_reaction (parse row g) (col_reactions c))
      (add_rejected (parse row g) (col_rejected c)).
Proof. apply collect_parsed_fields. Qed.

Lemma collect_answers g rows k :
  default [] (col_answers (collect g rows) !! k) = answers_for g rows k.
Proof.
  unfold collect. change (answers_for g rows k) with
    (default [] (col_answers collected_empty !! k) ++ answers_for g rows k).
  generalize collected_empty. induction rows as [|r rows IH]; intros c; simpl.
  { by rewrite app_nil_r. }
  rewrite IH, collect_step_fields. simpl. rewrite add_answer_lookup.
  destruct (parse r g) as [[]|]; try done. case_decide; [|done]. simpl.
  by rewrite <-app_assoc.
Qed.

Lemma collect_acks g rows k :
  col_acks (collect g rows) !! k =
    foldl (λ o v, Some (latest acknowledgement_order o v)) None (acks_for g rows k).
Proof.
  unfold collect. change None with (col_acks collected_empty !! k).
  generalize collected_empty. induction rows as [|r rows IH]; intros c; simpl; [done|].
  rewrite IH, collect_step_fields. clear IH. simpl.
  destruct (parse r g) as [[]|]; try done. simpl. rewrite replace_latest_lookup.
  by case_decide as E; [subst|].
Qed.

Lemma collect_reactions g rows k :
  col_reactions (collect g rows) !! k =
    foldl (λ o v, Some (latest reaction_order o v)) None (reactions_for g rows k).
Proof.
  unfold collect. change None with (col_reactions collected_empty !! k).
  generalize collected_empty. induction rows as [|r rows IH]; intros c; simpl; [done|].
  rewrite IH, collect_step_fields. clear IH. simpl.
  destruct (parse r g) as [[]|]; try done. simpl. rewrite replace_latest_lookup.
  by case_decide as E; [subst|].
Qed.

Lemma elem_of_answers_for g rows id a :
  a ∈ answers_for g rows id ↔
  ∃ row, row ∈ rows ∧ parse row g = Some (PAnswer (mkRelated id a)).
Proof.
  unfold answers_for. rewrite list_elem_of_omap. split.
  - intros (row & Hin & Hp). exists row. split; [done|].
    destruct (parse row g) as [[| r | |]|]; try done. case_decide; [|done].
    destruct r. simpl in *. by simplify_eq.
  - intros (row & Hin & Hp). exists row. split; [done|]. rewrite Hp. simpl.
    by rewrite decide_True.
Qed.

Lemma NoDup_omap_key {A B K} (f : A → option B) (key : B → K) (key' : A → K) l :
  (∀ x y, f x = Some y → key y = key' x) → NoDup (key' <$> l) → NoDup (key <$> omap f l).
Proof.
  intros Hf. induction l as [|x l IH]; csimpl; [done|]. intros [Hx Hnd]%NoDup_cons.
  destruct (f x) as [y|] eqn:E; [|auto]. csimpl. apply NoDup_cons. split; [|auto].
  rewrite (Hf _ _ E). intros (z & Hz & (w & Hw & Ew)%list_elem_of_omap)%list_elem_of_fmap.
  apply Hx. rewrite Hz, (Hf _ _ Ew). by apply list_elem_of_fmap_2.
Qed.

Lemma answers_for_distinct g rows id :
  NoDup (row_id <$> rows) → NoDup (answer_event_id <$> answers_for g rows id).
Proof.
  apply NoDup_omap_key. intros row a. destruct (parse row g) as [[| r | |]|] eqn:E; try done.
  case_decide; [|done]. intros [= <-]. apply parse_origin in E. by injection E.
Qed.

Lemma collect_items g rows id i :
  NoDup (row_id <$> rows) →
  col_items (collect g rows) !! id = Some i ↔
  item_id i = id ∧ ∃ row, row ∈ rows ∧ parse row g = Some (PItem i).
Proof.
  intros Hnd. unfold collect.
  enough (∀ c, (∀ j, is_Some (col_items c !! j) → j ∉ row_id <$> rows) →
    col_items (foldl (collect_step g) c rows) !! id = Some i ↔
    col_items c !! id = Some i ∨
    item_id i = id ∧ ∃ row, row ∈ rows ∧ parse row g = Some (PItem i)) as Hgen.
  { rewrite Hgen; simpl; [|by intros j [? ?%lookup_empty_Some]].
    rewrite lookup_empty. naive_solver. }
  induction rows as [|r rows IH]; intros c Hc; csimpl in *.
  { set_solver. }
  apply NoDup_cons in Hnd as [Hr Hnd].
  assert (∀ j, parse r g = Some (PItem j) → item_id j = row_id r) as Hid.
  { intros j Hj%parse_origin. by injection Hj. }
  rewrite IH; [|done|].
  - rewrite collect_step_fields. simpl. setoid_rewrite elem_of_cons.
    destruct (parse r g) as [[j| | |]|] eqn:E; simpl; [|naive_solver..].
    specialize (Hid j eq_refl). rewrite lookup_insert. case_decide as Hij; [|naive_solver].
    split; [naive_solver|]. intros [Hi|(? & row & [->|Hin] & Hp)].
    + destruct (Hc id); [by eexists|]. rewrite <-Hij, Hid. by left.
    + left. congruence.
    + right. eauto.
  - intros j. rewrite collect_step_fields. simpl. intros Hj Hin.
    assert (is_Some (col_items c !! j) ∨ j = row_id r) as [Hj'|Hj'].
    { destruct (parse r g) as [[k| | |]|] eqn:E; simpl in Hj; [|by left..].
      rewrite lookup_insert in Hj. case_decide; [right|by left].
      rewrite <-(Hid k eq_refl). done. }
    + apply (Hc j Hj'). by right.
    + by subst.
Qed.
