(* ===== verification/ProjectionOrder.v ===== *)
(** Order independence of the projection: relays deliver rows in any order,
    and the snapshot does not depend on it. *)

From S2P Require Export ProjectionSpec.

(** ** The collected maps, up to the order of the answers of one item *)
Definition answers_equiv (m m' : gmap str (list AnswerBundle)) : Prop :=
  ∀ k, option_Forall2 (≡ₚ) (m !! k) (m' !! k).

#[export] Instance answers_equiv_equivalence : Equivalence answers_equiv.
Proof.
  split.
  - intros m k. reflexivity.
  - intros m m' Hm k. symmetry. apply Hm.
  - intros m1 m2 m3 H12 H23 k. etrans; [apply H12|apply H23].
Qed.

Record col_equiv (c c' : Collected) : Prop := {
  eqv_items : col_items c = col_items c';
  eqv_answers : answers_equiv (col_answers c) (col_answers c');
  eqv_acks : col_acks c = col_acks c';
  eqv_reactions : col_reactions c = col_reactions c';
  eqv_rejected : col_rejected c = col_rejected c';
}.

#[export] Instance col_equiv_equivalence : Equivalence col_equiv.
Proof.
  split.
  - intros c. by split.
  - intros c c' []. by split.
  - intros c1 c2 c3 [] []. split; by etrans.
Qed.

#[export] Instance add_answer_proper e : Proper (answers_equiv ==> answers_equiv) (add_answer e).
Proof.
  intros m m' Hm k. rewrite !add_answer_lookup. specialize (Hm k).
  destruct e as [[]|]; try done. case_decide; [|done]. constructor.
  by destruct Hm; simpl; [apply Permutation_app_tail|].
Qed.

#[export] Instance collect_parsed_proper : Proper (col_equiv ==> (=) ==> col_equiv) collect_parsed.
Proof.
  intros c c' [] e ? <-. rewrite !collect_parsed_fields. split; simpl; try congruence.
  by apply add_answer_proper.
Qed.

Definition distinct_origins (e1 e2 : option ParsedEvent) : Prop :=
  ∀ ev1 ev2, e1 = Some ev1 → e2 = Some ev2 →
    (parsed_origin ev1).1.1 ≠ (parsed_origin ev2).1.1.

Lemma collect_parsed_comm c e1 e2 :
  distinct_origins e1 e2 →
  col_equiv (collect_parsed (collect_parsed c e1) e2) (collect_parsed (collect_parsed c e2) e1).
Proof.
  intros Hd. rewrite !collect_parsed_fields. split; simpl.
  - destruct e1 as [[]|], e2 as [[]|]; try done. simpl. apply insert_insert_ne.
    intros Heq. by eapply Hd.
  - intros k. rewrite !add_answer_lookup. destruct e1 as [[]|], e2 as [[]|]; try done.
    repeat case_decide; try done. simpl. constructor. rewrite <-!app_assoc.
    apply Permutation_app_head, Permutation_swap.
  - destruct e1 as [[]|], e2 as [[]|]; try done. simpl. apply replace_latest_comm.
    intros [= _ Heq]. by eapply Hd.
  - destruct e1 as [[]|], e2 as [[]|]; try done. simpl. apply replace_latest_comm.
    intros [= _ Heq]. by eapply Hd.
  - destruct e1 as [[]|], e2 as [[]|]; done.
Qed.

Lemma collect_foldl g rows c c' :
  col_equiv c c' →
  col_equiv (foldl (collect_step g) c rows) (foldl (collect_step g) c' rows).
Proof.
  revert c c'. induction rows as [|r rows IH]; intros c c' Hc; [done|]. simpl.
  apply IH. unfold collect_step. by rewrite Hc.
Qed.

Lemma collect_perm g rows rows' c c' :
  rows ≡ₚ rows' → NoDup (row_id <$> rows) → col_equiv c c' →
  col_equiv (foldl (collect_step g) c rows) (foldl (collect_step g) c' rows').
Proof.
  intros Hp. revert c c'. induction Hp as [|x l l' Hp IH|x y l|l1 l2 l3 H1 IH1 H2 IH2];
    intros c c' Hnd Hc; simpl.
  - done.
  - apply NoDup_cons in Hnd as [_ Hnd]. apply IH; [done|]. unfold collect_step. by rewrite Hc.
  - apply collect_foldl. unfold collect_step. rewrite Hc. apply collect_parsed_comm.
    intros ev1 ev2 H1%parse_origin H2%parse_origin. rewrite H1, H2. simpl.
    apply NoDup_cons in Hnd as [Hx _]. csimpl in *. set_solver.
  - etrans; [by apply IH1|]. apply IH2; [|done]. by rewrite <-H1.
Qed.

(** ** The later stages *)
Lemma answers_equiv_len m m' : answers_equiv m m' → len <$> m = len <$> m'.
Proof.
  intros Hm. apply map_eq. intros k. rewrite !lookup_fmap.
  destruct (Hm k) as [l l' Hl|]; [|done]. simpl. unfold len. by rewrite Hl.
Qed.

Lemma orphan_answers_len (known : gset str) (l : list (str * list AnswerBundle)) :
  len ∘ snd <$> filter (λ entry, entry.1 ∉ known) l =
  snd <$> filter (λ entry, entry.1 ∉ known) (prod_map id len <$> l).
Proof.
  induction l as [|[k v] l IH]; [done|]. csimpl. rewrite !filter_cons. simpl.
  destruct (decide (k ∉ known)); csimpl; by rewrite IH.
Qed.

#[export] Instance count_orphans_proper : Proper (col_equiv ==> (=)) count_orphans.
Proof.
  intros c c' [Hi Ha Hk Hr _]. unfold count_orphans. rewrite Hi, Hk, Hr.
  by rewrite !orphan_answers_len, <-!btree_iter_fmap, (answers_equiv_len _ _ Ha).
Qed.

Record rs_equiv (s s' : Resolving) : Prop := {
  rse_answers : answers_equiv (rs_answers s) (rs_answers s');
  rse_distinct : ∀ k, NoDup (answer_event_id <$> default [] (rs_answers s !! k));
  rse_acks : rs_acks s = rs_acks s';
  rse_rejected : rs_rejected s = rs_rejected s';
  rse_resolved : rs_resolved s = rs_resolved s';
}.

Lemma filter_len_perm {A} (P : A → Prop) `{∀ x, Decision (P x)} (l k : list A) :
  l ≡ₚ k → len (filter P l) = len (filter P k).
Proof. intros Hp. unfold len. by rewrite Hp. Qed.

Lemma resolve_step_equiv viewer reactions s s' entry :
  rs_equiv s s' →
  rs_equiv (resolve_step viewer reactions s entry) (resolve_step viewer reactions s' entry).
Proof.
  intros [Ha Hd Hk Hr Hres]. destruct entry as [id item].
  assert (default [] (rs_answers s !! item_id item)
    ≡ₚ default [] (rs_answers s' !! item_id item)) as Hp.
  { by destruct (Ha (item_id item)). }
  unfold resolve_step. split; simpl.
  - intros k. rewrite !lookup_delete. by case_decide.
  - intros k. rewrite lookup_delete. case_decide; [constructor|apply Hd].
  - by rewrite Hk.
  - by rewrite Hr, (filter_len_perm _ _ _ Hp).
  - change (max_by _ (filter _ (default [] (rs_answers s !! item_id item)))) with
      (select_answer (item_questions item) (default [] (rs_answers s !! item_id item))).
    change (max_by _ (filter _ (default [] (rs_answers s' !! item_id item)))) with
      (select_answer (item_questions item) (default [] (rs_answers s' !! item_id item))).
    by rewrite Hk, Hres, (select_answer_perm _ _ _ (Hd _) Hp).
Qed.

Lemma resolve_equiv viewer reactions s s' l :
  rs_equiv s s' →
  rs_equiv (foldl (resolve_step viewer reactions) s l) (foldl (resolve_step viewer reactions) s' l).
Proof.
  revert s s'. induction l as [|e l IH]; intros s s' Hs; [done|]. simpl.
  by apply IH, resolve_step_equiv.
Qed.

Lemma resolve_perm viewer g rows rows' :
  rows ≡ₚ rows' → NoDup (row_id <$> rows) →
  rs_equiv (resolve viewer (collect g rows)) (resolve viewer (collect g rows')).
Proof.
  intros Hp Hnd.
  assert (col_equiv (collect g rows) (collect g rows')) as Hc by by apply collect_perm.
  unfold resolve. rewrite <-(eqv_items _ _ Hc), <-(eqv_reactions _ _ Hc).
  apply resolve_equiv. split; simpl.
  - apply (eqv_answers _ _ Hc).
  - intros k. rewrite collect_answers. by apply answers_for_distinct.
  - apply (eqv_acks _ _ Hc).
  - by rewrite (eqv_rejected _ _ Hc), Hc.
  - done.
Qed.

(** C1: the projection is a function of the set of rows: whatever the order in
    which the relays delivered them, the same events give the same snapshot,
    rejected count included. *)
Theorem project_permutation cfg rows rows' evidence :
  NoDup (row_id <$> rows) → rows ≡ₚ rows' →
  project cfg rows evidence = project cfg rows' evidence.
Proof.
  intros Hnd Hp. unfold project.
  destruct (resolve_perm (cfg_viewer_pubkey cfg) (cfg_group_id cfg) rows rows')
    as [_ _ _ Hr Hres]; [done..|]. by rewrite Hr, Hres.
Qed.

Module Example_projection.
Definition cfg : KernelConfiguration :=
  mkConfiguration $"wss://relay.example" $"group" None (Some $"viewer").
Definition rows : list Row :=
  [Example_parse.item_row 49 5; Example_parse.item_row 50 7;
   Example_parse.answer_row 51 8 49 $"a"; Example_parse.answer_row 52 9 49 $"b"].
Lemma rows_distinct : NoDup (row_id <$> rows).
Proof. apply (bool_decide_unpack _). vm_compute. exact I. Qed.
End Example_projection.

Lemma project_permutation_witness :
  project Example_projection.cfg Example_projection.rows (mkEvidence 1 0) =
    project Example_projection.cfg (reverse Example_projection.rows) (mkEvidence 1 0) ∧
  len (snapshot_items (project Example_projection.cfg Example_projection.rows (mkEvidence 1 0)))
    = 2%N.
Proof.
  split; [|vm_compute; reflexivity].
  apply (project_permutation Example_projection.cfg).
  - apply Example_projection.rows_distinct.
  - symmetry. apply reverse_Permutation.
Defined.
