(* ===== verification/ProjectionTree.v ===== *)
(** What the projection shows: the resolved items, the index of narrated
    children, and the bounded forest assembled from them. *)

From S2P Require Export ProjectionSpec.

(** ** Resolution in closed form *)
Definition resolve_item (viewer : option str) (c : Collected) (item : SpokenItem)
    : SpokenItem :=
  set_related
    (select_answer (item_questions item) (default [] (col_answers c !! item_id item)))
    (author ← viewer; col_acks c !! (item_id item, author))
    (reaction_summaries (item_id item) (col_reactions c)) item.

Lemma resolve_foldl viewer c l st :
  NoDup l.*1 → Forall (λ e, item_id e.2 = e.1) l →
  (∀ id, id ∈ l.*1 → rs_answers st !! id = col_answers c !! id) →
  (∀ id a, id ∈ l.*1 → rs_acks st !! (id, a) = col_acks c !! (id, a)) →
  let st' := foldl (resolve_step viewer (col_reactions c)) st l in
  (∀ id i, (id, i) ∈ l → rs_resolved st' !! id = Some (resolve_item viewer c i)) ∧
  (∀ id, id ∉ l.*1 → rs_resolved st' !! id = rs_resolved st !! id).
Proof.
  revert st. induction l as [|[id i] l IH]; intros st Hnd Hid Ha Hk; csimpl.
  { split; [by intros ?? ?%not_elem_of_nil|done]. }
  apply NoDup_cons in Hnd as [Hx Hnd]. apply Forall_cons in Hid as [Hi Hid].
  simpl in Hi. subst id. csimpl in *.
  destruct (IH (resolve_step viewer (col_reactions c) st (item_id i, i))) as [Hin Hout];
    [done|done|..].
  { intros id Hid'. simpl. rewrite lookup_delete_ne by (intros ?; subst; done).
    apply Ha. by right. }
  { intros id a Hid'. simpl. destruct viewer as [v|]; [|apply Hk; by right].
    rewrite lookup_delete_ne by (intros [= ??]; subst; done). apply Hk. by right. }
  split.
  - intros id i' [[= -> ->]|?]%elem_of_cons; [|by apply Hin].
    rewrite Hout by done. simpl. rewrite lookup_insert_eq. unfold resolve_item.
    rewrite <-Ha by (by left). do 2 f_equal. destruct viewer as [v|]; [|done].
    simpl. apply Hk. by left.
  - intros id [? ?]%not_elem_of_cons. rewrite Hout by done. simpl. by apply lookup_insert_ne.
Qed.

Definition keyed (items : gmap str SpokenItem) : Prop :=
  ∀ id i, items !! id = Some i → item_id i = id.

Lemma resolve_lookup viewer c id :
  keyed (col_items c) →
  rs_resolved (resolve viewer c) !! id = resolve_item viewer c <$> col_items c !! id.
Proof.
  intros Hc. unfold resolve.
  destruct (resolve_foldl viewer c (btree_iter (col_items c))
    (mkResolving (col_answers c) (col_acks c) (col_rejected c + count_orphans c) ∅))
    as [Hin Hout].
  - apply NoDup_btree_keys.
  - apply Forall_forall. intros [k v] Hkv. apply Hc. by apply elem_of_btree_iter.
  - done.
  - done.
  - destruct (col_items c !! id) as [i|] eqn:E; simpl.
    + apply Hin. by apply elem_of_btree_iter.
    + rewrite Hout; [done|]. intros Hid. apply elem_of_btree_keys in Hid as [? ?]. congruence.
Qed.

Lemma resolve_keyed viewer c :
  keyed (col_items c) → keyed (rs_resolved (resolve viewer c)).
Proof.
  intros Hc id i. rewrite resolve_lookup by done. intros (j & Hj & ->)%fmap_Some.
  by apply Hc in Hj.
Qed.

(** ** The index of children in closed form *)
Section index.
Context (resolved : gmap str SpokenItem).

Definition child_of (parent : str) (entry : str * SpokenItem) : Prop :=
  item_attach entry.2 = Some (mkAttachLink parent) ∧ is_Some (resolved !! parent).
#[local] Instance child_of_dec parent entry : Decision (child_of parent entry).
Proof. unfold child_of. apply _. Defined.

Lemma index_foldl l st :
  let st' := foldl (index_step resolved) st l in
  (∀ p, default [] (ix_children st' !! p) =
     default [] (ix_children st !! p) ++ (filter (child_of p) l).*1) ∧
  ix_top_level st' = ix_top_level st ++ (filter (λ e, item_attach e.2 = None) l).*1.
Proof.
  revert st. induction l as [|[id i] l IH]; intros st; cbn [foldl]; cbv zeta.
  { split; [|by rewrite app_nil_r]. intros p. by rewrite app_nil_r. }
  destruct (IH (index_step resolved st (id, i))) as [Hc Ht]. split.
  - intros p. rewrite Hc. clear Hc Ht. rewrite filter_cons. unfold index_step. simpl.
    destruct (item_attach i) as [[q]|] eqn:E; simpl.
    + case_bool_decide as Hq; simpl.
      * rewrite lookup_insert. case_decide as Hqp; simpl.
        -- subst q. rewrite decide_True by done. csimpl. by rewrite <-app_assoc.
        -- rewrite decide_False; [done|]. unfold child_of. simpl. naive_solver.
      * rewrite decide_False; [done|]. unfold child_of. simpl. naive_solver.
    + rewrite decide_False; [done|]. unfold child_of. simpl. naive_solver.
  - rewrite Ht. clear Hc Ht. rewrite filter_cons. unfold index_step. simpl.
    destruct (item_attach i) as [[q]|] eqn:E; simpl.
    + by case_bool_decide.
    + by rewrite <-app_assoc.
Qed.

Lemma elem_of_filter_keys (P : str * SpokenItem → Prop) `{∀ e, Decision (P e)} id :
  id ∈ (filter P (btree_iter resolved)).*1 ↔ ∃ i, resolved !! id = Some i ∧ P (id, i).
Proof.
  rewrite list_elem_of_fmap. split.
  - intros ([k i] & -> & [HP Hin]%list_elem_of_filter). exists i. split; [|done].
    by apply elem_of_btree_iter.
  - intros (i & Hi & HP). exists (id, i). split; [done|]. apply list_elem_of_filter.
    split; [done|]. by apply elem_of_btree_iter.
Qed.

Lemma NoDup_filter_keys (P : str * SpokenItem → Prop) `{∀ e, Decision (P e)} :
  NoDup (filter P (btree_iter resolved)).*1.
Proof.
  pose proof (NoDup_btree_keys resolved) as Hnd. unfold btree_keys in Hnd.
  induction (btree_iter resolved) as [|e l IH]; [constructor|]. csimpl in *.
  apply NoDup_cons in Hnd as [He Hnd]. rewrite filter_cons. case_decide; [|by apply IH].
  csimpl. apply NoDup_cons. split; [|by apply IH].
  intros (e' & Heq & [_ He']%list_elem_of_filter)%list_elem_of_fmap. apply He.
  rewrite Heq. by apply list_elem_of_fmap_2.
Qed.

Lemma index_children_perm rejected p :
  default [] (ix_children (index_children resolved rejected) !! p) ≡ₚ
    (filter (child_of p) (btree_iter resolved)).*1.
Proof.
  unfold index_children. simpl. rewrite lookup_fmap.
  destruct (index_foldl (btree_iter resolved) (mkIndexed ∅ [] rejected)) as [Hc _].
  specialize (Hc p). simpl in Hc. rewrite lookup_empty in Hc. simpl in Hc.
  rewrite <-Hc. destruct (_ !! p); simpl; [|done]. apply sort_by_key_perm.
Qed.

Lemma index_children_nodup rejected p :
  NoDup (default [] (ix_children (index_children resolved rejected) !! p)).
Proof. rewrite index_children_perm. apply NoDup_filter_keys. Qed.

Lemma index_children_sorted rejected p :
  StronglySorted (key_le (child_key resolved))
    (default [] (ix_children (index_children resolved rejected) !! p)).
Proof.
  unfold index_children. simpl. rewrite lookup_fmap.
  destruct (_ !! p); simpl; [apply sort_by_key_sorted|constructor].
Qed.

Lemma index_top_level rejected :
  ix_top_level (index_children resolved rejected) =
    (filter (λ e, item_attach e.2 = None) (btree_iter resolved)).*1.
Proof.
  unfold index_children. simpl.
  by destruct (index_foldl (btree_iter resolved) (mkIndexed ∅ [] rejected)) as [_ ->].
Qed.
End index.

(** ** The assembled forest *)

(** The ids of an item and of all its narrated children, in preorder. *)
Fixpoint tree_ids (i : SpokenItem) : list str :=
  match i with
  | mkSpokenItem id _ _ _ _ _ _ _ _ _ _ _ _ _ _ children =>
      id :: concat (map tree_ids children)
  end.
Definition forest_ids (l : list SpokenItem) : list str := concat (map tree_ids l).

Lemma tree_ids_set_children cs i : tree_ids (set_children cs i) = item_id i :: forest_ids cs.
Proof. done. Qed.

Lemma forest_ids_snoc l i : forest_ids (l ++ [i]) = forest_ids l ++ tree_ids i.
Proof. unfold forest_ids. rewrite map_app, concat_app. simpl. by rewrite app_nil_r. Qed.

(** One item is no younger than another. *)
Definition earlier (resolved : gmap str SpokenItem) (x y : str) : Prop :=
  (created_of resolved x ≤ created_of resolved y)%N.

(** Nothing that belongs below a parent is missing among the children shown: a
    visible item that is attached to the parent is shown, or twelve that are no
    younger are. *)
Definition nested_all (resolved : gmap str SpokenItem) (parent : str) (shown : list str)
    : Prop :=
  ∀ c item, resolved !! c = Some item → item_attach item = Some (mkAttachLink parent) →
    is_hidden item = false →
    c ∈ shown ∨ len shown = MAX_CHILDREN ∧ Forall (λ j, earlier resolved j c) shown.

(** A tree over the resolved items, [depth] levels of children deep: every
    node is a resolved item with children in time order, at most twelve, each
    attached to it; and above the last level none is missing. *)
Fixpoint tree_ok (resolved : gmap str SpokenItem) (depth : nat) (i : SpokenItem) : Prop :=
  (∃ item, resolved !! item_id i = Some item ∧ i = set_children (item_children i) item) ∧
  (len (item_children i) ≤ MAX_CHILDREN)%N ∧
  Forall (λ c, item_attach c = Some (mkAttachLink (item_id i))) (item_children i) ∧
  StronglySorted (earlier resolved) (item_id <$> item_children i) ∧
  match depth with
  | O => item_children i = []
  | S depth =>
      Forall (tree_ok resolved depth) (item_children i) ∧
      nested_all resolved (item_id i) (item_id <$> item_children i)
  end.

Lemma tree_ok_resolved resolved depth i :
  tree_ok resolved depth i →
  ∃ item, resolved !! item_id i = Some item ∧ item_attach item = item_attach i ∧
    item_created_at item = item_created_at i ∧ is_hidden item = is_hidden i.
Proof.
  intros Ht. assert (∃ item, resolved !! item_id i = Some item ∧
    i = set_children (item_children i) item) as (item & Hr & Hi).
  { destruct depth; apply Ht. }
  exists item. split; [done|]. by rewrite Hi.
Qed.

Lemma sorted_sublist {A} (R : A → A → Prop) l k :
  sublist l k → StronglySorted R k → StronglySorted R l.
Proof.
  induction 1 as [|x l k Hs IH|x l k Hs IH]; intros Hk; inversion Hk; subst.
  - constructor.
  - constructor; [by apply IH|]. apply Forall_forall. intros y Hy.
    rewrite Forall_forall in H2. apply H2. by eapply elem_of_sublist.
  - by apply IH.
Qed.

Lemma sorted_weaken {A} (R S : A → A → Prop) l :
  (∀ x y, R x y → S x y) → StronglySorted R l → StronglySorted S l.
Proof.
  intros HRS. induction 1 as [|x l _ IH Hx]; constructor; [done|].
  by eapply Forall_impl; [exact Hx|apply HRS].
Qed.

(** What is cut off a sorted list comes after all that is kept. *)
Lemma taken_or_later {A} (R : A → A → Prop) n l x :
  StronglySorted R l → x ∈ l →
  x ∈ take n l ∨ length (take n l) = n ∧ Forall (λ j, R j x) (take n l).
Proof.
  intros Hs Hin. rewrite <-(take_drop n l) in Hin, Hs.
  apply elem_of_app in Hin as [?|Hin]; [by left|]. right. split.
  - rewrite length_take. apply Nat.min_l.
    apply list_elem_of_lookup in Hin as [k Hk]. rewrite lookup_drop in Hk.
    apply lookup_lt_Some in Hk. lia.
  - apply Forall_forall. intros j Hj. by eapply StronglySorted_app_1_elem_of.
Qed.

Lemma child_key_earlier resolved x y :
  key_le (child_key resolved) x y → earlier resolved x y.
Proof.
  unfold key_le, cmp_le, earlier, child_key, cmp, prod_Cmp, cmp, N_cmp. simpl.
  destruct (N.compare_spec (created_of resolved x) (created_of resolved y)); intros ?; [lia..|done].
Qed.

Lemma queue_key_earlier resolved x y :
  key_le (queue_key resolved) x y → earlier resolved y x.
Proof.
  unfold key_le, cmp_le, earlier, queue_key, cmp, prod_Cmp, cmp, descending_Cmp, cmp, N_cmp. simpl.
  destruct (N.compare_spec (created_of resolved y) (created_of resolved x)); intros ?; [lia..|done].
Qed.

(** What assembling subtrees adds to the visited set. *)
Record grows (ids : list str) (v v' : gset str) : Prop := {
  grows_sub : v ⊆ v';
  grows_ids : ∀ x, x ∈ ids → x ∈ v' ∧ x ∉ v;
  grows_nodup : NoDup ids;
}.

Lemma grows_app ids1 ids2 v1 v2 v3 :
  grows ids1 v1 v2 → grows ids2 v2 v3 → grows (ids1 ++ ids2) v1 v3.
Proof.
  intros [? H1 Hn1] [? H2 Hn2]. split; [set_solver|set_solver|].
  apply NoDup_app. split_and!; [done| |done]. intros x Hx Hx2.
  destruct (H1 x Hx). destruct (H2 x Hx2). done.
Qed.

Section assemble.
Context (resolved : gmap str SpokenItem) (kids : gmap str (list str)).
Context (Hkeyed : keyed resolved).
#[local] Abbreviation kids_of p := (default [] (kids !! p)).

(** [c] is attached to [p]. *)
Definition attached_to (c p : str) : Prop :=
  ∃ item, resolved !! c = Some item ∧ item_attach item = Some (mkAttachLink p).

Context (Hkids : ∀ p c, is_Some (resolved !! p) → (c ∈ kids_of p ↔ attached_to c p)).
Context (Hnodup : ∀ p, NoDup (kids_of p)).
Context (Hsorted : ∀ p, StronglySorted (earlier resolved) (kids_of p)).

(** With an item, the visited set has the one it is attached to. *)
Definition parents_in (v : gset str) : Prop := ∀ x p, x ∈ v → attached_to x p → p ∈ v.
Definition rooted (v : gset str) (id : str) : Prop := ∀ p, attached_to id p → p ∈ v.

(** [x] was visited on the way, below another item that was. *)
Definition below (v v' : gset str) (x : str) : Prop :=
  ∃ p, attached_to x p ∧ p ∈ v' ∧ p ∉ v.

Lemma attached_to_unique x p q : attached_to x p → attached_to x q → p = q.
Proof. intros (i & Hi & Hp) (j & Hj & Hq). congruence. Qed.

Lemma below_mono v1 v2 v3 v4 x : v1 ⊆ v2 → v3 ⊆ v4 → below v2 v3 x → below v1 v4 x.
Proof. intros ?? (p & ? & ? & ?). exists p. set_solver. Qed.

Record result_ok_at (depth : nat) (id : str) (v v' : gset str)
    (o : option SpokenItem) : Prop := {
  ra_sub : v ⊆ v';
  ra_result : match o with
    | Some i => item_id i = id ∧ tree_ok resolved depth i ∧ grows (tree_ids i) v v'
    | None => id ∈ v ∨ resolved !! id = None
    end;
  ra_below x : x ∈ v' → x ∈ v ∨ x = id ∨ below v v' x;
}.

Lemma parents_in_after v v' (ids : list str) :
  parents_in v → v ⊆ v' → (∀ x, x ∈ ids → rooted v x) →
  (∀ x, x ∈ v' → x ∈ v ∨ x ∈ ids ∨ below v v' x) → parents_in v'.
Proof using.
  intros Hc Hsub Hids Hv x p Hx Hp. destruct (Hv x Hx) as [Hx'|[Hx'|(q & Hq & Hin & _)]].
  - apply Hsub. by eapply Hc.
  - apply Hsub. by eapply Hids.
  - by rewrite (attached_to_unique _ _ _ Hp Hq).
Qed.

(** The loop over the children of a node whose own id is visited already, and
    whose children are not: the first twelve are nested. *)
Record children_ok (depth : nat) (id : str) (v : gset str) (ids : list str)
    (children : list SpokenItem) (v' : gset str) : Prop := {
  co_ids : item_id <$> children = take (N.to_nat MAX_CHILDREN) ids;
  co_trees : Forall (tree_ok resolved depth) children;
  co_grows : grows (forest_ids children) v v';
  co_below x : x ∈ v' → x ∈ v ∨ x ∈ ids ∨ below v v' x;
}.

Lemma assemble_children depth id v r children st :
  (∀ id v r o v' r', parents_in v → rooted v id →
    assemble_subtree resolved kids depth id (v, r) = (o, (v', r')) →
    result_ok_at depth id v v' o) →
  parents_in v → id ∈ v → (∀ c, attached_to c id → c ∉ v) → is_Some (resolved !! id) →
  foldl (λ '(children, st) child_id,
      if (MAX_CHILDREN <=? len children)%N then (children, (st.1, (st.2 + 1)%N))
      else match assemble_subtree resolved kids depth child_id st with
           | (Some child, st) => (children ++ [child], st)
           | (None, st) => (children, (st.1, (st.2 + 1)%N))
           end) ([], (v, r)) (kids_of id) = (children, st) →
  children_ok depth id v (kids_of id) children st.1.
Proof using All.
  intros Hrec Hparents Hid Hfresh Hsome.
  assert (∀ c, c ∈ kids_of id → attached_to c id) as Hatt by (intros c; by apply Hkids).
  pose proof (Hnodup id) as Hnd. revert Hatt Hnd children st.
  generalize (kids_of id) as ids. intros ids.
  induction ids as [|c ids IH] using rev_ind; intros Hatt Hnd children st.
  { intros [= <- <-]. split; [done..| |by left]. split; [done| |constructor].
    by intros x ?%not_elem_of_nil. }
  rewrite foldl_app. cbn [foldl].
  destruct (foldl _ _ ids) as [children1 [v1 r1]].
  apply NoDup_app in Hnd as (Hnd & Hnew & _).
  destruct (IH ltac:(set_solver) Hnd children1 (v1, r1) eq_refl) as [Hids Htrees Hg Hb].
  clear IH. simpl in *. assert (attached_to c id) as Hc by set_solver.
  assert (length children1 = length (take (N.to_nat MAX_CHILDREN) ids)) as Hlen
    by (by rewrite <-Hids, length_fmap). rewrite length_take in Hlen.
  destruct (N.leb_spec MAX_CHILDREN (len children1)) as [Hfull|Hroom].
  { intros [= <- <-]. unfold len in Hfull. split; simpl; [|done..|].
    - rewrite Hids, take_app_le by lia. done.
    - intros x [?|[?|?]]%Hb; set_solver. }
  assert (v ⊆ v1) as Hsub by apply Hg.
  assert (parents_in v1) as Hparents1.
  { eapply (parents_in_after v v1 ids); [done..| |done]. intros x Hx p Hp.
    by rewrite (attached_to_unique _ _ _ Hp (Hatt x ltac:(set_solver))). }
  assert (rooted v1 c) as Hroot.
  { intros p Hp. rewrite (attached_to_unique _ _ _ Hp Hc). set_solver. }
  assert (c ∉ v1) as Hcnew.
  { intros [Hx|[Hx|(p & Hp & _ & Hn)]]%Hb; [by eapply Hfresh|by apply (Hnew c Hx); left|].
    by rewrite (attached_to_unique _ _ _ Hp Hc) in Hn. }
  destruct (assemble_subtree _ _ _ _ _) as [o [v2 r2]] eqn:Ea.
  apply Hrec in Ea as [Hsub2 Ho Hb2]; [|done..].
  destruct o as [i|]; [|destruct Ho as [?|Hnone]; [done|];
    destruct Hc as (? & ? & _); congruence].
  intros [= <- <-]. destruct Ho as (Hi & Hti & Hgi). unfold len in Hroom. split; simpl.
  - rewrite fmap_app, Hids. simpl. rewrite Hi. by rewrite !take_ge by (rewrite ?length_app; simpl; lia).
  - apply Forall_app. split; [done|]. by apply Forall_singleton.
  - rewrite forest_ids_snoc. by eapply grows_app.
  - intros x [Hx| [->|Hx]]%Hb2; [|set_solver|right; right; by eapply (below_mono _ v1 v2)].
    destruct (Hb x Hx) as [?|[?|?]]; [by left|set_solver|].
    right. right. by eapply (below_mono v v v1).
Qed.

Lemma nested_taken id n :
  is_Some (resolved !! id) → n = N.to_nat MAX_CHILDREN →
  nested_all resolved id (take n (kids_of id)).
Proof using Hkids Hsorted.
  intros Hsome -> c item Hc Hatt _.
  assert (c ∈ kids_of id) as Hin by (apply Hkids; [done|by exists item]).
  destruct (taken_or_later _ (N.to_nat MAX_CHILDREN) _ _ (Hsorted id) Hin) as [?|[Hl ?]];
    [by left|]. right. split; [|done]. unfold len. by rewrite Hl.
Qed.

Lemma assemble_ok depth id v r o v' r' :
  parents_in v → rooted v id →
  assemble_subtree resolved kids depth id (v, r) = (o, (v', r')) →
  result_ok_at depth id v v' o.
Proof using All.
  revert id v r o v' r'. induction depth as [|depth IH]; intros id v r o v' r' Hparents Hroot; simpl;
    (case_bool_decide as Hv; [intros [= <- <- <-]; split; [done|by left|auto]|]);
    (destruct (resolved !! id) as [item|] eqn:Er;
      [|intros [= <- <- <-]; split; [set_solver|by right|set_solver]]);
    pose proof (Hkeyed _ _ Er) as Hid.
  - intros [= <- <- <-]. split; [set_solver| |set_solver]. split_and!; [done| |].
    + simpl. split_and!; [exists item; by rewrite Hid|done|done|constructor|done].
    + rewrite tree_ids_set_children, Hid. split; [set_solver| |apply NoDup_singleton].
      set_solver.
  - destruct (foldl _ _ _) as [children st] eqn:Ef. intros [= <- ->].
    assert (parents_in ({[id]} ∪ v)) as Hparents'.
    { intros x p [->%elem_of_singleton|Hx]%elem_of_union Hp; apply elem_of_union; right;
        [by apply Hroot|by eapply Hparents]. }
    apply (assemble_children depth id) in Ef as [Hids Htrees Hg Hb];
      [|done|done|set_solver| |by rewrite Er].
    2:{ intros c Hc [->%elem_of_singleton|Hx]%elem_of_union; apply Hv;
          [by apply Hroot|by eapply Hparents]. }
    simpl in *. destruct Hg as [Hs1 Hs2 Hs3].
    assert (∀ c, c ∈ item_id <$> children → attached_to c id) as Hatt.
    { intros c. rewrite Hids. intros Hc%elem_of_take. destruct Hc as (n & Hn & _).
      apply list_elem_of_lookup_2 in Hn. apply Hkids in Hn; [done|by rewrite Er]. }
    split; [set_solver| |].
    2:{ intros x [Hx|[Hx|Hx]]%Hb; [set_solver| |right; right; eapply below_mono; [..|exact Hx]; set_solver].
        right. right. exists id. split; [|set_solver].
        apply Hkids in Hx; [done|by rewrite Er]. }
    split_and!; [done| |].
    + simpl. rewrite Hid. split_and!; [by exists item|..|done|].
      * rewrite <-(len_fmap item_id children), Hids. unfold len. rewrite length_take. lia.
      * apply Forall_forall. intros c Hc. rewrite Forall_forall in Htrees.
        destruct (tree_ok_resolved _ _ _ (Htrees c Hc)) as (j & Hj & <- & _).
        destruct (Hatt (item_id c)) as (j' & Hj' & Ha); [by apply list_elem_of_fmap_2|congruence].
      * rewrite Hids. eapply sorted_sublist; [apply sublist_take|done].
      * rewrite Hids. apply nested_taken; [by rewrite Er|done].
    + rewrite tree_ids_set_children, Hid.
      split; [set_solver|set_solver|]. constructor; [|done]. intros Hin.
      destruct (Hs2 _ Hin). set_solver.
Qed.
End assemble.
