(* ===== verification/ProjectionReactions.v ===== *)
(** The reaction summaries of an item: one per emoji with an active reaction,
    listing the authors in order. *)

From S2P Require Export ProjectionSpec.

Section summaries.
Context (id : str).

(** A reaction entry that counts for an emoji. *)
Definition counts_for (emoji : str) (entry : str * str * str * Reaction) : Prop :=
  entry.1.1.1 = id ∧ entry.1.2 = emoji ∧ reaction_active entry.2 = true.
#[local] Instance counts_for_dec emoji entry : Decision (counts_for emoji entry).
Proof. unfold counts_for. apply _. Defined.

Definition group_step (grouped : gmap str (list str))
    (entry : str * str * str * Reaction) : gmap str (list str) :=
  let '((root, author, emoji), reaction) := entry in
  if bool_decide (root = id) && reaction_active reaction
  then <[emoji := default [] (grouped !! emoji) ++ [author]]> grouped
  else grouped.

Lemma group_foldl l m emoji :
  (∀ e, m !! e ≠ Some []) →
  (∀ e, foldl group_step m l !! e ≠ Some []) ∧
  default [] (foldl group_step m l !! emoji) =
    default [] (m !! emoji) ++ ((λ e, e.1.1.2) <$> filter (counts_for emoji) l).
Proof.
  revert m. induction l as [|[[[root author] e] r] l IH]; intros m Hm; cbn [foldl].
  { split; [done|]. by rewrite app_nil_r. }
  rewrite filter_cons. cbn [group_step]. case_bool_decide as Hr; cbn [andb].
  - destruct (reaction_active r) eqn:Hact; cbn [andb].
    + destruct (IH (<[e := default [] (m !! e) ++ [author]]> m)) as [? Heq].
      { intros e'. rewrite lookup_insert. case_decide; [|done].
        destruct (m !! e) as [[|??]|]; done. }
      split; [done|]. rewrite Heq, lookup_insert. case_decide; subst; simpl.
      * rewrite decide_True by done. csimpl. by rewrite <-app_assoc.
      * rewrite decide_False by (intros (?&?&?); done). done.
    + rewrite decide_False by (intros (?&?&?); simpl in *; congruence). by apply IH.
  - rewrite decide_False by (intros (?&?&?); done). by apply IH.
Qed.

Context (reactions : gmap (str * str * str) Reaction).

Definition grouped : gmap str (list str) := foldl group_step ∅ (btree_iter reactions).

Lemma reaction_summaries_grouped :
  reaction_summaries id reactions =
    (λ '(emoji, authors), mkReactionSummary emoji (len authors) (sort_by_key (λ x, x) authors))
    <$> btree_iter grouped.
Proof.
  unfold reaction_summaries, grouped. do 2 f_equal.
Qed.

Lemma grouped_authors emoji :
  default [] (grouped !! emoji) =
    (λ e, e.1.1.2) <$> filter (counts_for emoji) (btree_iter reactions).
Proof.
  destruct (group_foldl (btree_iter reactions) ∅ emoji) as [_ Heq];
    [by intros e; rewrite lookup_empty|].
  unfold grouped. by rewrite Heq, lookup_empty.
Qed.

Lemma grouped_Some emoji authors :
  grouped !! emoji = Some authors →
  authors ≠ [] ∧ NoDup authors ∧
  ∀ a, a ∈ authors ↔ ∃ r, reactions !! (id, a, emoji) = Some r ∧ reaction_active r = true.
Proof.
  intros Hg. pose proof (grouped_authors emoji) as Ha. rewrite Hg in Ha. simpl in Ha.
  subst authors. split_and!.
  - intros Hnil. rewrite Hnil in Hg.
    destruct (group_foldl (btree_iter reactions) ∅ emoji) as [Hne _];
      [by intros e; rewrite lookup_empty|]. by destruct (Hne emoji).
  - clear Hg. pose proof (NoDup_btree_keys reactions) as Hnd. unfold btree_keys in Hnd.
    induction (btree_iter reactions) as [|[[[root author] e] r] l IH]; [constructor|].
    csimpl in *. apply NoDup_cons in Hnd as [Hx Hnd]. rewrite filter_cons.
    case_decide as Hc; [|by apply IH]. csimpl. apply NoDup_cons. split; [|by apply IH].
    intros ([[[root' author'] e'] r'] & Heq & [Hc' Hin]%list_elem_of_filter)%list_elem_of_fmap.
    apply Hx. destruct Hc as (?&?&?), Hc' as (?&?&?). simpl in *. subst.
    by apply (list_elem_of_fmap_2 fst _ ((id, author', emoji), r')).
  - intros a. rewrite list_elem_of_fmap. split.
    + intros ([[[root author] e] r] & -> & [(?&?&?) Hin]%list_elem_of_filter).
      simpl in *. subst. exists r. split; [|done]. by apply elem_of_btree_iter.
    + intros (r & Hr & Hact). exists ((id, a, emoji), r). split; [done|].
      apply list_elem_of_filter. split; [done|]. by apply elem_of_btree_iter.
Qed.

Lemma reaction_summary_spec s :
  s ∈ reaction_summaries id reactions →
  summary_count s = len (summary_authors s) ∧ summary_authors s ≠ [] ∧
  NoDup (summary_authors s) ∧
  StronglySorted (key_le (λ x, x)) (summary_authors s) ∧
  ∀ a, a ∈ summary_authors s ↔
    ∃ r, reactions !! (id, a, summary_emoji s) = Some r ∧ reaction_active r = true.
Proof.
  rewrite reaction_summaries_grouped.
  intros ([emoji authors] & -> & Hin)%list_elem_of_fmap.
  apply elem_of_btree_iter, grouped_Some in Hin as (Hne & Hnd & Ha). simpl.
  assert (sort_by_key (λ x, x) authors ≡ₚ authors) as Hp by apply sort_by_key_perm.
  split_and!.
  - unfold len. by rewrite Hp.
  - intros Hnil. rewrite Hnil in Hp. by apply Permutation_nil_l in Hp.
  - by rewrite Hp.
  - apply sort_by_key_sorted.
  - intros a. by rewrite Hp.
Qed.

Lemma reaction_summaries_emojis :
  NoDup (summary_emoji <$> reaction_summaries id reactions) ∧
  ∀ a e r, reactions !! (id, a, e) = Some r → reaction_active r = true →
    e ∈ summary_emoji <$> reaction_summaries id reactions.
Proof.
  rewrite reaction_summaries_grouped, <-list_fmap_compose.
  assert ((summary_emoji ∘ λ '(emoji, authors),
    mkReactionSummary emoji (len authors) (sort_by_key (λ x, x) authors)) <$> btree_iter grouped
    = btree_keys grouped) as ->.
  { unfold btree_keys. apply list_fmap_ext. by intros ? []. }
  split; [apply NoDup_btree_keys|]. intros a e r Hr Hact.
  apply elem_of_btree_keys. pose proof (grouped_authors e) as Hg.
  destruct (grouped !! e); [by eexists|]. exfalso.
  assert (a ∈ (λ e, e.1.1.2) <$> filter (counts_for e) (btree_iter reactions)) as Hin.
  { apply (list_elem_of_fmap_2 (λ e, e.1.1.2) _ ((id, a, e), r)), list_elem_of_filter.
    split; [done|]. by apply elem_of_btree_iter. }
  rewrite <-Hg in Hin. by apply not_elem_of_nil in Hin.
Qed.
End summaries.
