(* ===== verification/ProjectionQueue.v ===== *)
(** The contract of the projected queue: which items are shown, in which
    order, with which related state, and how narrated children are nested. *)

From S2P Require Export ProjectionTree ProjectionReactions.
From S2P Require Import ProjectionOrder.

Section queue.
Context (cfg : KernelConfiguration) (rows : list Row).
Context (Hdistinct : NoDup (row_id <$> rows)).
Let g := cfg_group_id cfg.
Let viewer := cfg_viewer_pubkey cfg.

(** The items of the projection with their related state. *)
Definition resolved_items : gmap str SpokenItem := rs_resolved (resolve viewer (collect g rows)).

Lemma collected_keyed : keyed (col_items (collect g rows)).
Proof using Hdistinct. intros id i Hi. by apply collect_items in Hi as [? _]. Qed.

Lemma resolved_keyed : keyed resolved_items.
Proof using Hdistinct. apply resolve_keyed, collected_keyed. Qed.

Lemma resolved_items_lookup id i :
  resolved_items !! id = Some i ↔
  ∃ row p, row ∈ rows ∧ parse row g = Some (PItem p) ∧ item_id p = id ∧
    i = resolve_item viewer (collect g rows) p.
Proof using Hdistinct.
  unfold resolved_items. rewrite resolve_lookup by apply collected_keyed.
  rewrite fmap_Some. setoid_rewrite collect_items; [|done]. naive_solver.
Qed.

Definition indexed : Indexed :=
  index_children resolved_items (rs_rejected (resolve viewer (collect g rows))).

Lemma indexed_children p c :
  is_Some (resolved_items !! p) →
  c ∈ default [] (ix_children indexed !! p) ↔ attached_to resolved_items c p.
Proof using Hdistinct.
  intros Hp. unfold indexed. rewrite index_children_perm, elem_of_filter_keys.
  unfold child_of, attached_to. naive_solver.
Qed.

Lemma indexed_sorted p :
  StronglySorted (earlier resolved_items) (default [] (ix_children indexed !! p)).
Proof using Hdistinct.
  eapply sorted_weaken; [apply child_key_earlier|apply index_children_sorted].
Qed.

Definition top_ids : list str := order_top_level resolved_items (ix_top_level indexed).

Lemma elem_of_top_level id :
  id ∈ ix_top_level indexed ↔
  ∃ i, resolved_items !! id = Some i ∧ item_attach i = None.
Proof using Hdistinct. unfold indexed. by rewrite index_top_level, elem_of_filter_keys. Qed.

Lemma visible_top_level id :
  id ∈ filter (λ id, hidden_id resolved_items id = false) (ix_top_level indexed) ↔
  ∃ i, resolved_items !! id = Some i ∧ item_attach i = None ∧ is_hidden i = false.
Proof using Hdistinct.
  rewrite list_elem_of_filter, elem_of_top_level. unfold hidden_id. split.
  - intros (Hh & i & Hi & Ha). rewrite Hi in Hh. eauto.
  - intros (i & Hi & Ha & Hh). rewrite Hi. eauto.
Qed.

Lemma top_ids_sub id :
  id ∈ top_ids → ∃ i, resolved_items !! id = Some i ∧ item_attach i = None ∧
    is_hidden i = false.
Proof using Hdistinct.
  unfold top_ids, order_top_level. intros Hid%elem_of_take. destruct Hid as (n & Hn & _).
  apply list_elem_of_lookup_2 in Hn. rewrite sort_by_key_perm in Hn.
  by apply visible_top_level.
Qed.

Lemma top_ids_nodup : NoDup top_ids.
Proof using Hdistinct.
  unfold top_ids, order_top_level. eapply sublist_NoDup; [|apply sublist_take].
  rewrite sort_by_key_perm. apply NoDup_filter. unfold indexed.
  rewrite index_top_level. apply NoDup_filter_keys.
Qed.

Lemma top_ids_sorted : StronglySorted (key_le (queue_key resolved_items)) top_ids.
Proof using Hdistinct.
  unfold top_ids, order_top_level. eapply sorted_sublist; [apply sublist_take|].
  apply sort_by_key_sorted.
Qed.

(** A visible item that is not shown has forty shown items before it. *)
Lemma top_ids_complete id i :
  resolved_items !! id = Some i → item_attach i = None → is_hidden i = false →
  id ∈ top_ids ∨
  length top_ids = MAX_PROJECTED_ITEMS ∧
  Forall (λ j, key_le (queue_key resolved_items) j id) top_ids.
Proof using Hdistinct.
  intros Hi Ha Hh. unfold top_ids, order_top_level. apply taken_or_later.
  - apply sort_by_key_sorted.
  - rewrite sort_by_key_perm. apply visible_top_level. eauto.
Qed.

Lemma assemble_top ids r :
  NoDup ids → (∀ id, id ∈ ids → ∃ i, resolved_items !! id = Some i ∧ item_attach i = None) →
  ∀ items st, foldl (assemble_step resolved_items (ix_children indexed)) ([], (∅, r)) ids
    = (items, st) →
  item_id <$> items = ids ∧ Forall (tree_ok resolved_items MAX_ATTACH_DEPTH) items ∧
  grows (forest_ids items) ∅ st.1 ∧ parents_in resolved_items st.1 ∧
  ∀ x, x ∈ st.1 → x ∈ ids ∨ ∃ p, attached_to resolved_items x p.
Proof using Hdistinct.
  induction ids as [|id ids IH] using rev_ind; intros Hnd Hids items st.
  { intros [= <- <-]. split_and!; [done..| | |set_solver].
    - split; [done| |constructor]. by intros x ?%not_elem_of_nil.
    - intros x p. set_solver. }
  rewrite foldl_app. cbn [foldl]. destruct (foldl _ _ ids) as [items1 [v1 r1]].
  apply NoDup_app in Hnd as (Hnd & Hnew & _).
  destruct (IH Hnd) with (items := items1) (st := (v1, r1)) as (Hi & Ht & Hg & Hc & Hv);
    [set_solver|done|]. clear IH.
  destruct (Hids id) as (i & Hr & Ha); [set_solver|]. cbn [assemble_step].
  assert (∀ p, ¬ attached_to resolved_items id p) as Htop
    by (intros p (j & Hj & Hp); congruence).
  destruct (assemble_subtree _ _ _ _ _) as [o [v2 r2]] eqn:Ea.
  apply assemble_ok in Ea as [Hsub Ho Hx];
    [|apply resolved_keyed|apply indexed_children|apply index_children_nodup|apply indexed_sorted
     |done|by intros p ?%Htop].
  destruct o as [t|].
  - intros [= <- <-]. destruct Ho as (Hid & Hok & Hgt). simpl in *. split_and!.
    + by rewrite fmap_app, Hi, <-Hid.
    + apply Forall_app. split; [done|]. by apply Forall_singleton.
    + rewrite forest_ids_snoc. eapply grows_app; [..|exact Hg|exact Hgt].
    + eapply (parents_in_after _ v1 v2 [id]); [done..| |].
      * intros x ->%list_elem_of_singleton p ?%Htop. done.
      * intros x [?|[?|?]]%Hx; set_solver.
    + intros x [Hx1|[->|(p & ? & _)]]%Hx; [|set_solver|right; by exists p].
      apply Hv in Hx1. set_solver.
  - exfalso. destruct Ho as [Hin|Hnone]; [|congruence].
    apply Hv in Hin as [Hin|(p & Hp)]; [|by apply Htop in Hp].
    apply (Hnew id Hin). by left.
Qed.

Lemma project_items evidence :
  ∃ st, foldl (assemble_step resolved_items (ix_children indexed))
      ([], (∅, ix_rejected indexed)) top_ids =
    (snapshot_items (project cfg rows evidence), st).
Proof using Hdistinct.
  unfold project. fold g. fold viewer. fold resolved_items. fold indexed. fold top_ids.
  destruct (foldl _ _ top_ids) as [items [v r]]. by exists (v, r).
Qed.

Lemma project_forest_ok evidence :
  let items := snapshot_items (project cfg rows evidence) in
  item_id <$> items = top_ids ∧ Forall (tree_ok resolved_items MAX_ATTACH_DEPTH) items ∧
  NoDup (forest_ids items).
Proof using Hdistinct.
  intros items. destruct (project_items evidence) as [st Hst].
  apply assemble_top in Hst as (Hi & Ht & Hg & _ & _); [split_and!; [done..|apply Hg]| |].
  - apply top_ids_nodup.
  - intros id (i & ? & ? & _)%top_ids_sub. eauto.
Qed.
End queue.

(** C2: the queue has at most forty items, newest first, none of them hidden or
    attached, and a visible unattached item is missing only when forty shown
    items are no older. Narrated children are nested under the item they are
    attached to, oldest first, at most twelve per node and three levels deep;
    above the last level a visible child is missing only when twelve that are no
    younger are shown; and no item is shown twice. *)
Theorem project_queue cfg rows evidence :
  NoDup (row_id <$> rows) →
  let resolved := resolved_items cfg rows in
  let items := snapshot_items (project cfg rows evidence) in
  length items ≤ 40 ∧
  StronglySorted (λ j k, earlier resolved k j) (item_id <$> items) ∧
  Forall (λ i, item_attach i = None ∧ is_hidden i = false ∧ tree_ok resolved 3 i) items ∧
  NoDup (forest_ids items) ∧
  ∀ id i, resolved !! id = Some i → item_attach i = None → is_hidden i = false →
    id ∈ item_id <$> items ∨
    length items = 40 ∧ Forall (λ j, earlier resolved id j) (item_id <$> items).
Proof.
  intros Hd resolved items.
  destruct (project_forest_ok cfg rows Hd evidence) as (Hi & Ht & Hn).
  fold items in Hi, Ht, Hn. fold resolved in Ht.
  assert (length items = length (top_ids cfg rows)) as Hlen by by rewrite <-Hi, length_fmap.
  split_and!; [..|done|].
  - rewrite Hlen. unfold top_ids, order_top_level. rewrite length_take.
    apply Nat.le_min_l.
  - rewrite Hi. eapply sorted_weaken; [apply queue_key_earlier|by apply top_ids_sorted].
  - apply Forall_forall. intros i Hin. rewrite Forall_forall in Ht. specialize (Ht i Hin).
    destruct (tree_ok_resolved _ _ _ Ht) as (j & Hj & <- & _ & <-).
    assert (item_id i ∈ top_ids cfg rows) as Htop
      by (rewrite <-Hi; by apply list_elem_of_fmap_2).
    apply top_ids_sub in Htop as (j' & Hj' & ? & ?); [|done].
    fold resolved in Hj'. naive_solver.
  - intros id i Hid Ha Hh. rewrite Hi, Hlen.
    destruct (top_ids_complete cfg rows Hd id i Hid Ha Hh) as [?|[? Hall]]; [by left|right].
    split; [done|]. eapply Forall_impl; [exact Hall|]. intros j. apply queue_key_earlier.
Qed.

Lemma project_queue_witness :
  (length (snapshot_items (project Example_projection.cfg Example_projection.rows
     (mkEvidence 1 0))) ≤ 40) ∧
  (item_id <$> snapshot_items (project Example_projection.cfg Example_projection.rows
     (mkEvidence 1 0))) = [repeat 50%N 64; repeat 49%N 64].
Proof.
  split; [|vm_compute; reflexivity].
  apply (project_queue Example_projection.cfg Example_projection.rows (mkEvidence 1 0)).
  apply Example_projection.rows_distinct.
Defined.

(** An author reacts to an item with an emoji: the latest of the reactions with
    these three is active. *)
Definition reacts (g : str) (rows : list Row) (id author emoji : str) : Prop :=
  ∃ r, r ∈ reactions_for g rows (id, author, emoji) ∧ reaction_active r = true ∧
    foldl (λ o v, Some (latest reaction_order o v)) None
      (reactions_for g rows (id, author, emoji)) = Some r.

Lemma reacts_collected g rows id author emoji :
  (∃ r, col_reactions (collect g rows) !! (id, author, emoji) = Some r ∧
     reaction_active r = true) ↔ reacts g rows id author emoji.
Proof.
  unfold reacts. setoid_rewrite collect_reactions. split.
  - intros (r & Hr & Hact). exists r. split_and!; [|done..].
    by apply latest_foldl in Hr as [[?|?] _].
  - intros (r & _ & Hact & Hr). by exists r.
Qed.

Lemma reaction_summaries_exact g rows id :
  let summaries := reaction_summaries id (col_reactions (collect g rows)) in
  NoDup (summary_emoji <$> summaries) ∧
  (∀ emoji, emoji ∈ summary_emoji <$> summaries ↔ ∃ author, reacts g rows id author emoji) ∧
  ∀ s, s ∈ summaries →
    summary_count s = len (summary_authors s) ∧ NoDup (summary_authors s) ∧
    ∀ author, author ∈ summary_authors s ↔ reacts g rows id author (summary_emoji s).
Proof.
  intros summaries.
  destruct (reaction_summaries_emojis id (col_reactions (collect g rows))) as [Hnd Hall].
  split; [exact Hnd|split].
  - intros emoji. split.
    + intros (s & -> & Hs)%list_elem_of_fmap.
      apply reaction_summary_spec in Hs as (_ & Hne & _ & _ & Ha).
      destruct (summary_authors s) as [|author authors]; [done|].
      exists author. apply reacts_collected, Ha. by left.
    + intros (author & (r & Hr & Hact)%reacts_collected). by eapply Hall.
  - intros s (Hc & _ & Hn & _ & Ha)%reaction_summary_spec. split_and!; [done..|].
    intros author. by rewrite Ha, reacts_collected.
Qed.

(** C21: the related state of a resolved item is the protocol's: its answer fits
    its questions and is the latest that does, if any; its acknowledgement is
    the viewer's latest for it; and its reactions are exactly those that count.
    There is one summary for each emoji with which the latest reaction of some
    author is active, and no other; it lists exactly the authors of whom that
    holds, each once, and counts them. *)
Theorem resolved_item_state cfg rows id i :
  NoDup (row_id <$> rows) →
  resolved_items cfg rows !! id = Some i →
  let g := cfg_group_id cfg in
  (∃ row p, row ∈ rows ∧ parse row g = Some (PItem p) ∧ item_id p = id ∧
     i = set_related (item_answer i) (item_acknowledgement i) (item_reactions i) p) ∧
  (match item_answer i with
   | Some a => a ∈ answers_for g rows id ∧ answer_fits (item_questions i) a ∧
       ∀ b, b ∈ answers_for g rows id → answer_fits (item_questions i) b →
         cmp_le (answer_order b) (answer_order a)
   | None => ∀ a, a ∈ answers_for g rows id → ¬ answer_fits (item_questions i) a
   end) ∧
  (match cfg_viewer_pubkey cfg, item_acknowledgement i with
   | Some v, Some k => k ∈ acks_for g rows (id, v) ∧
       ∀ k', k' ∈ acks_for g rows (id, v) →
         cmp_le (acknowledgement_order k') (acknowledgement_order k)
   | Some v, None => acks_for g rows (id, v) = []
   | None, k => k = None
   end) ∧
  NoDup (summary_emoji <$> item_reactions i) ∧
  (∀ emoji, emoji ∈ summary_emoji <$> item_reactions i ↔ ∃ author, reacts g rows id author emoji) ∧
  ∀ s, s ∈ item_reactions i →
    summary_count s = len (summary_authors s) ∧ NoDup (summary_authors s) ∧
    ∀ author, author ∈ summary_authors s ↔ reacts g rows id author (summary_emoji s).
Proof.
  intros Hd (row & p & Hrow & Hp & Hid & ->)%resolved_items_lookup g; [|done].
  unfold resolve_item. cbn. rewrite Hid. pose proof Hp as Hq%parse_cases%parse_item_ok.
  pose proof (item_question_ids _ Hq) as Hqs.
  pose proof (reaction_summaries_exact g rows id) as (? & ? & ?). split_and!; [..|done|done|done].
  - exists row, p. by rewrite Hid.
  - rewrite collect_answers. fold g.
    assert (∀ a, answer_fits (item_questions p) a ↔ valid_answer (item_questions p) a = true)
      as Hv by (intros a; by rewrite valid_answer_fits).
    destruct (select_answer _ _) as [a|] eqn:E.
    + apply select_answer_Some in E as (? & ? & Hmax).
      split_and!; [done|by apply Hv|]. intros b Hb Hf%Hv. by apply Hmax.
    + rewrite select_answer_None, Forall_forall in E. intros a Ha Hf%Hv.
      rewrite (E a Ha) in Hf. done.
  - destruct (cfg_viewer_pubkey cfg) as [v|]; [|done]. cbn. fold g. rewrite collect_acks.
    destruct (foldl _ _ _) as [k|] eqn:E.
    + apply latest_foldl in E as [[?|?] Hle]; [done|]. split; [done|].
      intros k' ?. apply Hle. by right.
    + by apply latest_foldl_None in E.
Qed.

Lemma resolved_item_state_witness :
  ∃ i a, resolved_items Example_projection.cfg Example_projection.rows !! repeat 49%N 64 = Some i ∧
    item_answer i = Some a ∧ answer_event_id a = repeat 52%N 64 ∧
    answer_fits (item_questions i) a.
Proof.
  destruct (resolved_items Example_projection.cfg Example_projection.rows !! repeat 49%N 64)
    as [i|] eqn:E; [|vm_compute in E; discriminate].
  destruct (resolved_item_state Example_projection.cfg Example_projection.rows _ i
    Example_projection.rows_distinct E) as (_ & Ha & _).
  destruct (item_answer i) as [a|] eqn:Eai.
  - exists i, a. split; [reflexivity|]. split; [exact Eai|]. split; [|apply Ha].
    vm_compute in E. injection E as <-. vm_compute in Eai. injection Eai as <-.
    vm_compute. reflexivity.
  - exfalso. vm_compute in E. injection E as <-. vm_compute in Eai. discriminate.
Defined.
