(* ===== verification/Identity.v ===== *)
(** The account controller of the kernel ([core/src/identity.rs]) as a state
    machine over the NMP engine. The engine is not part of this repository: it
    is a class of responses, which may depend on every call made so far, and
    the calls are recorded in a log. *)

From S2P Require Export Model Nmp.

(** ** The engine *)
Inductive EngineCall (R W : Type) :=
  | AddAccount (secret : str) (answer : option R)
  | RemoveAccount (registration : R)
  | SetActiveAccount (key : option PublicKey) (error : option str)
  | PublishTracked (intent : W) (answer : result str N).
Arguments AddAccount {R W}.
Arguments RemoveAccount {R W}.
Arguments SetActiveAccount {R W}.
Arguments PublishTracked {R W}.

Class Engine `{Nip29} := {
  AccountRegistration : Type;
  registration_eq_dec :: EqDecision AccountRegistration;
  public_key : AccountRegistration → PublicKey;
  on_add_account :
    list (EngineCall AccountRegistration WriteIntent) → str → option AccountRegistration;
  on_set_active :
    list (EngineCall AccountRegistration WriteIntent) → option PublicKey → option str;
  on_publish :
    list (EngineCall AccountRegistration WriteIntent) → WriteIntent → result str N;
}.

Definition engine_log `{Engine} : Type := list (EngineCall AccountRegistration WriteIntent).

Section identity.
Context `{Engine}.

Definition add_account (log : engine_log) (secret : str)
    : option AccountRegistration * engine_log :=
  let answer := on_add_account log secret in (answer, log ++ [AddAccount secret answer]).
Definition remove_account (log : engine_log) (r : AccountRegistration) : engine_log :=
  log ++ [RemoveAccount r].
Definition set_active_account (log : engine_log) (key : option PublicKey)
    : option str * engine_log :=
  let error := on_set_active log key in (error, log ++ [SetActiveAccount key error]).

(** ** The controller *)
Inductive PendingCredential :=
  | PendingStore (request : CredentialRequest) (registration : AccountRegistration)
      (pubkey : str)
  | PendingDelete (request : CredentialRequest).

Record IdentityController := mkIdentity {
  id_account : option AccountRegistration;
  id_snapshot : IdentitySnapshot;
  id_pending : option PendingCredential;
  id_next_request : N;
}.

Definition new : IdentityController := mkIdentity None signed_out None 1.

Definition pending_request (p : PendingCredential) : CredentialRequest :=
  match p with PendingStore request _ _ | PendingDelete request => request end.

Definition credential_request (c : IdentityController) : option CredentialRequest :=
  pending_request <$> id_pending c.

Definition active_pubkey (c : IdentityController) : option str :=
  if bool_decide (identity_phase (id_snapshot c) = SignedIn)
  then identity_pubkey (id_snapshot c) else None.

Definition set_error (c : IdentityController) (message : str) : IdentityController :=
  mkIdentity (id_account c)
    (mkIdentitySnapshot (identity_phase (id_snapshot c)) (identity_pubkey (id_snapshot c))
       (Some message)) (id_pending c) (id_next_request c).

Definition capability_error (prefix : str) (error : option str) : str :=
  match error with
  | Some e => if negb (is_empty (trim e)) then prefix ++ $" " ++ e else prefix
  | None => prefix
  end.

Definition request (c : IdentityController) (operation : CredentialOperation)
    : CredentialRequest * IdentityController :=
  (mkCredentialRequest (id_next_request c) operation,
   mkIdentity (id_account c) (id_snapshot c) (id_pending c)
     (u64_saturating_add (id_next_request c) 1)).

Definition activate (c : IdentityController) (log : engine_log)
    (registration : AccountRegistration) (pubkey : str)
    : IdentityController * engine_log :=
  let '(failed, log) := set_active_account log (Some (public_key registration)) in
  match failed with
  | Some error =>
      (mkIdentity (id_account c)
         (mkIdentitySnapshot SignedOut None
            (Some ($"The account could not be activated: " ++ error)))
         (id_pending c) (id_next_request c), remove_account log registration)
  | None =>
      (mkIdentity (Some registration) (mkIdentitySnapshot SignedIn (Some pubkey) None)
         (id_pending c) (id_next_request c), log)
  end.

Definition detach (c : IdentityController) (log : engine_log)
    : IdentityController * engine_log :=
  let '(_, log) := set_active_account log None in
  match id_account c with
  | Some registration =>
      (mkIdentity None (id_snapshot c) (id_pending c) (id_next_request c),
       remove_account log registration)
  | None => (c, log)
  end.

Definition login (c : IdentityController) (log : engine_log) (secret : str)
    (persist : bool) : IdentityController * engine_log :=
  if negb (is_none (id_pending c)) then
    (set_error c $"Another account operation is still in progress.", log)
  else if negb (is_none (id_account c)) then
    (set_error c $"Log out before signing in with another key.", log)
  else
    let '(registered, log) := add_account log secret in
    match registered with
    | None =>
        (mkIdentity (id_account c)
           (mkIdentitySnapshot SignedOut None (Some $"That nsec is not valid."))
           (id_pending c) (id_next_request c), log)
    | Some registration =>
        let pubkey := pk_hex (public_key registration) in
        if persist then
          let '(req, c) := request c Model.Store in
          (mkIdentity (id_account c) (mkIdentitySnapshot Saving (Some pubkey) None)
             (Some (PendingStore req registration pubkey)) (id_next_request c), log)
        else activate c log registration pubkey
    end.

Definition logout (c : IdentityController) : IdentityController :=
  if negb (is_none (id_pending c)) then
    set_error c $"Another account operation is still in progress."
  else if is_none (id_account c) then
    mkIdentity (id_account c) signed_out (id_pending c) (id_next_request c)
  else
    let '(req, c) := request c Model.Delete in
    mkIdentity (id_account c)
      (mkIdentitySnapshot LoggingOut (identity_pubkey (id_snapshot c)) None)
      (Some (PendingDelete req)) (id_next_request c).

Definition restore_failed (c : IdentityController) (error : str) : IdentityController :=
  if is_none (id_account c) && is_none (id_pending c) then
    mkIdentity (id_account c)
      (mkIdentitySnapshot SignedOut None
         (Some (capability_error $"The saved login could not be read." (Some error))))
      (id_pending c) (id_next_request c)
  else c.

Definition credential_result (c : IdentityController) (log : engine_log)
    (request_id : N) (succeeded : bool) (error : option str)
    : IdentityController * engine_log :=
  match id_pending c with
  | None => (c, log)
  | Some pending =>
      if negb (Model.request_id (pending_request pending) =? request_id)%N then (c, log)
      else
        let c := mkIdentity (id_account c) (id_snapshot c) None (id_next_request c) in
        match pending, succeeded with
        | PendingStore _ registration pubkey, true => activate c log registration pubkey
        | PendingStore _ registration _, false =>
            (mkIdentity (id_account c)
               (mkIdentitySnapshot SignedOut None
                  (Some (capability_error $"The login could not be saved." error)))
               (id_pending c) (id_next_request c), remove_account log registration)
        | PendingDelete _, true =>
            let '(c, log) := detach c log in
            (mkIdentity (id_account c) signed_out (id_pending c) (id_next_request c), log)
        | PendingDelete _, false =>
            (mkIdentity (id_account c)
               (mkIdentitySnapshot SignedIn (identity_pubkey (id_snapshot c))
                  (Some (capability_error $"The saved login could not be removed." error)))
               (id_pending c) (id_next_request c), log)
        end
  end.

Definition shutdown (c : IdentityController) (log : engine_log)
    : IdentityController * engine_log :=
  let log :=
    match id_pending c with
    | Some (PendingStore _ registration _) => remove_account log registration
    | _ => log
    end in
  detach (mkIdentity (id_account c) (id_snapshot c) None (id_next_request c)) log.
End identity.

(** ** The account invariant *)
Section invariant.
Context `{Engine}.

Fixpoint remove_one (r : AccountRegistration) (l : list AccountRegistration)
    : list AccountRegistration :=
  match l with
  | [] => []
  | x :: l => if decide (x = r) then l else x :: remove_one r l
  end.

(** The registrations the engine still holds, and the key it last made
    active, according to its log. *)
Definition live_step (live : list AccountRegistration)
    (call : EngineCall AccountRegistration WriteIntent) : list AccountRegistration :=
  match call with
  | AddAccount _ (Some r) => r :: live
  | RemoveAccount r => remove_one r live
  | _ => live
  end.
Definition live (log : engine_log) : list AccountRegistration := foldl live_step [] log.

Definition active_step (active : option PublicKey)
    (call : EngineCall AccountRegistration WriteIntent) : option PublicKey :=
  match call with
  | SetActiveAccount key None => key
  | _ => active
  end.
Definition active (log : engine_log) : option PublicKey := foldl active_step None log.

Lemma live_snoc log call : live (log ++ [call]) = live_step (live log) call.
Proof. unfold live. by rewrite foldl_app. Qed.
Lemma active_snoc log call : active (log ++ [call]) = active_step (active log) call.
Proof. unfold active. by rewrite foldl_app. Qed.

(** The registration a controller is responsible for. *)
Definition held (c : IdentityController) : list AccountRegistration :=
  match id_account c, id_pending c with
  | Some r, _ => [r]
  | None, Some (PendingStore _ r _) => [r]
  | None, _ => []
  end.

Definition key_hex (r : AccountRegistration) : str := pk_hex (public_key r).

(** The phase shown is the state the controller is in. *)
Definition phase_ok (c : IdentityController) : Prop :=
  let shows phase key :=
    identity_phase (id_snapshot c) = phase ∧ identity_pubkey (id_snapshot c) = key in
  match id_pending c, id_account c with
  | None, None => shows SignedOut None
  | None, Some r => shows SignedIn (Some (key_hex r))
  | Some (PendingStore q r pk), None =>
      shows Saving (Some pk) ∧ pk = key_hex r ∧ request_operation q = Model.Store
  | Some (PendingDelete q), Some r =>
      shows LoggingOut (Some (key_hex r)) ∧ request_operation q = Model.Delete
  | _, _ => False
  end.

Record identity_inv (c : IdentityController) (log : engine_log) : Prop := {
  inv_live : live log = held c;
  inv_phase : phase_ok c;
  inv_active : ∀ r, id_account c = Some r → active log = Some (public_key r);
  inv_request : ∀ p, id_pending c = Some p →
    (request_id (pending_request p) < id_next_request c ∨ id_next_request c = u64_max)%N;
  inv_next : (1 ≤ id_next_request c ≤ u64_max)%N;
}.

(** The operations of the controller, and the publications the session makes
    in between. *)
Inductive identity_step :
    IdentityController * engine_log → IdentityController * engine_log → Prop :=
  | step_login c log secret persist :
      identity_step (c, log) (login c log secret persist)
  | step_logout c log : identity_step (c, log) (logout c, log)
  | step_restore_failed c log error :
      identity_step (c, log) (restore_failed c error, log)
  | step_credential_result c log id succeeded error :
      identity_step (c, log) (credential_result c log id succeeded error)
  | step_publish c log intent answer :
      identity_step (c, log) (c, log ++ [PublishTracked intent answer]).

Lemma inv_new : identity_inv new [].
Proof. split; simpl; try done; lia. Qed.

Lemma next_request_bound n :
  (1 ≤ n ≤ u64_max)%N →
  (1 ≤ u64_saturating_add n 1 ≤ u64_max)%N ∧
  (n < u64_saturating_add n 1 ∨ u64_saturating_add n 1 = u64_max)%N.
Proof. unfold u64_saturating_add. lia. Qed.

(** Activating the one live registration of a controller without account. *)
Lemma activate_inv c log r :
  live log = [r] → id_account c = None → id_pending c = None →
  (1 ≤ id_next_request c ≤ u64_max)%N →
  let '(c', log') := activate c log r (key_hex r) in identity_inv c' log'.
Proof.
  intros Hl Ha Hp Hn. unfold activate, set_active_account, remove_account.
  destruct (on_set_active log _) as [error|] eqn:E.
  - split; simpl; rewrite ?Hp; try done.
    + rewrite !live_snoc, Hl. simpl. rewrite decide_True by done.
      unfold held. simpl. by rewrite Ha, ?Hp.
    + unfold phase_ok. simpl. by rewrite ?Hp, Ha.
    + rewrite Ha. done.
  - split; simpl; rewrite ?Hp; try done.
    + rewrite live_snoc, Hl. done.
    + intros r' [= <-]. by rewrite active_snoc.
Qed.

Lemma detach_live c log :
  live log = held c → id_pending c = None → live (detach c log).2 = [].
Proof.
  intros Hl Hp. unfold detach, set_active_account, remove_account, held in *.
  destruct (id_account c) as [r|]; simpl; rewrite !live_snoc, Hl; simpl.
  - by rewrite decide_True.
  - by rewrite Hp.
Qed.

Lemma set_error_inv c log message :
  identity_inv c log → identity_inv (set_error c message) log.
Proof. intros [????]. by split. Qed.

(** A controller with neither account nor pending operation. *)
Lemma idle_inv log snapshot next :
  live log = [] → identity_phase snapshot = SignedOut → identity_pubkey snapshot = None →
  (1 ≤ next ≤ u64_max)%N → identity_inv (mkIdentity None snapshot None next) log.
Proof. intros Hl Hp Hk Hn. by split. Qed.

Lemma login_inv c log secret persist :
  identity_inv c log →
  let '(c', log') := login c log secret persist in identity_inv c' log'.
Proof.
  intros Hinv. unfold login. destruct c as [[r|] snapshot [p|] next]; simpl;
    try by apply set_error_inv.
  destruct Hinv as [Hl _ _ _ Hn]. unfold add_account, request. simpl in *.
  destruct (on_add_account log secret) as [r|] eqn:Eadd.
  2:{ apply idle_inv; try done. by rewrite live_snoc. }
  assert (live (log ++ [AddAccount secret (Some r)]) = [r]) as Hr1.
  { rewrite live_snoc. simpl. by rewrite Hl. }
  destruct persist; [|by apply activate_inv].
  apply next_request_bound in Hn as [Hn Hlt]. split; simpl; try done.
  by intros p [= <-].
Qed.

Lemma logout_inv c log : identity_inv c log → identity_inv (logout c) log.
Proof.
  intros Hinv. unfold logout. destruct c as [[r|] snapshot [p|] next]; simpl;
    try by apply set_error_inv.
  - destruct Hinv as [Hl [Hp Hk] Ha Hr Hn]. simpl in *.
    apply next_request_bound in Hn as [Hn Hlt]. split; simpl; try done.
    by intros p [= <-].
  - destruct Hinv as [Hl _ _ _ Hn]. by apply idle_inv.
Qed.

Lemma restore_failed_inv c log error :
  identity_inv c log → identity_inv (restore_failed c error) log.
Proof.
  intros Hinv. unfold restore_failed. destruct c as [[r|] snapshot [p|] next]; simpl; try done.
  destruct Hinv as [Hl _ _ _ Hn]. by apply idle_inv.
Qed.

Lemma credential_result_inv c log id succeeded error :
  identity_inv c log →
  let '(c', log') := credential_result c log id succeeded error in identity_inv c' log'.
Proof.
  intros Hinv. unfold credential_result.
  destruct c as [account snapshot [p|] next]; simpl; [|done].
  destruct (request_id (pending_request p) =? id)%N; simpl; [|done].
  destruct Hinv as [Hl Hph Ha Hr Hn]. unfold phase_ok in Hph. simpl in *.
  destruct p as [q r pk|q], account as [r'|]; try done; simpl in *.
  - destruct Hph as (_ & -> & _). destruct succeeded; [by apply activate_inv|].
    apply idle_inv; try done. unfold remove_account. rewrite live_snoc, Hl. simpl.
    by rewrite decide_True.
  - destruct succeeded.
    + pose proof (detach_live (mkIdentity (Some r') snapshot None next) log Hl eq_refl) as Hd.
      by apply idle_inv.
    + split; simpl; try done. unfold phase_ok. simpl. naive_solver.
Qed.

Lemma publish_inv c log intent answer :
  identity_inv c log → identity_inv c (log ++ [PublishTracked intent answer]).
Proof.
  intros [Hl Hph Ha Hr Hn]. split; try done.
  - by rewrite live_snoc.
  - intros r Hr'. rewrite active_snoc. by apply Ha.
Qed.

Lemma identity_step_inv s s' :
  identity_step s s' → identity_inv s.1 s.2 → identity_inv s'.1 s'.2.
Proof.
  destruct 1; simpl; intros Hinv.
  - pose proof (login_inv c log secret persist Hinv). by destruct (login _ _ _ _).
  - by apply logout_inv.
  - by apply restore_failed_inv.
  - pose proof (credential_result_inv c log id succeeded error Hinv).
    by destruct (credential_result _ _ _ _ _).
  - by apply publish_inv.
Qed.

Lemma identity_reachable_inv s :
  rtc identity_step (new, []) s → identity_inv s.1 s.2.
Proof.
  intros Hs. revert Hs.
  enough (∀ s0, identity_inv s0.1 s0.2 → rtc identity_step s0 s → identity_inv s.1 s.2)
    as Hgen by (intros Hs; apply (Hgen (new, []) inv_new Hs)).
  intros s0 Hinit Hs. induction Hs as [|s1 s2 s3 Hstep _ IH]; [done|].
  by apply IH, (identity_step_inv s1).
Qed.

Lemma shutdown_live c log : identity_inv c log → live (shutdown c log).2 = [].
Proof.
  intros [Hl Hph _ _ _]. unfold shutdown.
  destruct c as [account snapshot [[q r pk|q]|] next]; simpl in *;
    apply detach_live; try done; unfold held, phase_ok in *; simpl in *.
  destruct account; [done|]. unfold remove_account. rewrite live_snoc, Hl. simpl.
  by rewrite decide_True.
Qed.
End invariant.

(** C27: in every state the account controller can reach, whatever the engine
    answers: the engine holds exactly the registrations the controller is
    responsible for, the shown phase and key are those of its account or
    pending request, a signed-in account is the engine's active one, a pending
    request has an id below the next one, and shutting down leaves no
    registration behind. (The engine is taken to remove a registration when it is
    asked to.) *)
Theorem identity_invariant `{Engine} c log :
  rtc identity_step (new, []) (c, log) →
  live log = held c ∧ phase_ok c ∧
  (∀ r, id_account c = Some r → active log = Some (public_key r)) ∧
  (∀ p, id_pending c = Some p →
     (request_id (pending_request p) < id_next_request c ∨ id_next_request c = u64_max)%N) ∧
  live (shutdown c log).2 = [].
Proof.
  intros Hinv%identity_reachable_inv. simpl in Hinv.
  pose proof (shutdown_live _ _ Hinv). by destruct Hinv.
Qed.

(** A result for a request that is not the pending one changes nothing,
    so a late or repeated keychain answer cannot sign an account in or out. *)
Theorem stale_credential_result `{Engine} c log id succeeded error :
  (∀ q, credential_request c = Some q → request_id q ≠ id) →
  credential_result c log id succeeded error = (c, log).
Proof.
  unfold credential_request, credential_result. intros Hq.
  destruct (id_pending c) as [p|]; [|done]. specialize (Hq _ eq_refl).
  by apply N.eqb_neq in Hq as ->.
Qed.

Import Example_nmp.

(** An engine that registers any secret under its own text and accepts every
    other call. *)
Module Example_engine.
#[export] Instance engine : Engine := {|
  AccountRegistration := PublicKey;
  public_key r := r;
  on_add_account _ secret := Some (mkPublicKey secret);
  on_set_active _ _ := None;
  on_publish log _ := Ok (N.of_nat (length log));
|}.
End Example_engine.

Lemma identity_invariant_witness :
  let s1 := login (H0 := Example_engine.engine) new [] $"secret" true in
  let s2 := credential_result s1.1 s1.2 1 true None in
  active_pubkey s2.1 = Some $"secret" ∧ live (shutdown s2.1 s2.2).2 = [].
Proof.
  intros s1 s2. split; [vm_compute; reflexivity|].
  apply (@identity_invariant nip29 Example_engine.engine).
  rewrite <-surjective_pairing.
  apply (rtc_l _ _ s1); [apply (step_login new [] $"secret" true)|]. apply rtc_once.
  pose proof (step_credential_result s1.1 s1.2 1 true None) as Hstep.
  by rewrite <-surjective_pairing in Hstep.
Defined.

Lemma stale_credential_result_witness :
  let s1 := login (H0 := Example_engine.engine) new [] $"secret" true in
  credential_result s1.1 s1.2 7 true None = s1.
Proof.
  intros s1. rewrite (@stale_credential_result nip29 Example_engine.engine s1.1 s1.2 7 true None).
  - reflexivity.
  - vm_compute. intros q [= <-]. discriminate.
Defined.
