(* ===== verification/Session.v ===== *)
(** The kernel session ([core/src/session.rs]): the rows last observed, their
    projection, the account, and the answer submissions of the items in view. *)

From S2P Require Export Identity Projection Related.

(** ** Finding items in the projected forest *)
Fixpoint find_subtree (item_id : str) (item : SpokenItem) : option SpokenItem :=
  if Contract.item_id item =?s item_id then Some item
  else match item with
       | mkSpokenItem _ _ _ _ _ _ _ _ _ _ _ _ _ _ _ children =>
           (fix find_items (items : list SpokenItem) : option SpokenItem :=
              match items with
              | [] => None
              | i :: items =>
                  match find_subtree item_id i with
                  | Some found => Some found
                  | None => find_items items
                  end
              end) children
       end.
Definition find_item (items : list SpokenItem) (item_id : str) : option SpokenItem :=
  find_map (find_subtree item_id) items.

Fixpoint subtree_ids (item : SpokenItem) : gset str :=
  match item with
  | mkSpokenItem id _ _ _ _ _ _ _ _ _ _ _ _ _ _ children =>
      {[id]} ∪ ⋃ (map subtree_ids children)
  end.
Definition visible_item_ids (items : list SpokenItem) : gset str :=
  ⋃ (map subtree_ids items).

(** The text of an answer: one [title: values] line per question. *)
Definition answer_line (item : SpokenItem) (answer : QuestionAnswer) : option str :=
  question ← find (λ q, question_id q =?s qa_question_id answer) (item_questions item);
  let values := join $", "
    ((λ value, default value (option_title <$>
        find (λ o, option_id o =?s value) (question_options question)))
     <$> qa_values answer) in
  Some (question_title question ++ $": " ++ values).
Definition answer_content (item : SpokenItem) (answers : list QuestionAnswer) : str :=
  join [10%N] (omap (answer_line item) answers).

Definition fail (s : AnswerSubmissionSnapshot) (error : str) : AnswerSubmissionSnapshot :=
  mkSubmission (submission_item_id s) SubmissionFailed (submission_receipt_id s)
    (submission_event_id s) (Some error).

(** The arms of [match status] in [receipt_status]. *)
Definition apply_status (host : RelayUrl) (s : AnswerSubmissionSnapshot)
    (status : WriteStatus) : AnswerSubmissionSnapshot :=
  match status with
  | StatusSigned event_id =>
      mkSubmission (submission_item_id s) (submission_phase s) (submission_receipt_id s)
        (Some (eid_hex event_id)) (submission_error s)
  | StatusAcked relay =>
      if bool_decide (relay = host) then
        mkSubmission (submission_item_id s) Published (submission_receipt_id s)
          (submission_event_id s) None
      else s
  | StatusRejected relay reason =>
      if bool_decide (relay = host)
      then fail s ($"The group rejected the answer: " ++ reason) else s
  | StatusGaveUp relay =>
      if bool_decide (relay = host)
      then fail s $"The answer could not reach the group." else s
  | StatusOutcomeUnknown relay =>
      if bool_decide (relay = host)
      then fail s $"The answer delivery outcome is unknown; do not send it again blindly."
      else s
  | StatusCancelled => fail s $"The answer was cancelled."
  | StatusReplaceableConflict => fail s $"The answer conflicted before publication."
  | StatusFailed reason => fail s reason
  | StatusOther => s
  end.

(** ** The session *)
Section session.
Context `{Engine}.

Record Session := mkSession {
  se_configuration : KernelConfiguration;
  se_host : RelayUrl;
  se_log : engine_log;
  se_identity : IdentityController;
  se_rows : list Row;
  se_evidence : AcquisitionEvidence;
  se_queue : QueueSnapshot;
  se_submissions : gmap str AnswerSubmissionSnapshot;
}.

Definition new_session (configuration : KernelConfiguration) (host : RelayUrl) : Session :=
  mkSession configuration host [] new [] (mkEvidence 0 0)
    (lifecycle configuration KListening) ∅.

Definition with_viewer (viewer : option str) (c : KernelConfiguration)
    : KernelConfiguration :=
  mkConfiguration (cfg_relay c) (cfg_group_id c) (cfg_store_path c) viewer.

Definition reproject (s : Session) : Session :=
  let configuration := with_viewer (active_pubkey (se_identity s)) (se_configuration s) in
  mkSession configuration (se_host s) (se_log s) (se_identity s) (se_rows s)
    (se_evidence s)
    (if is_empty (se_rows s) then se_queue s
     else project configuration (se_rows s) (se_evidence s))
    (se_submissions s).

Definition set_identity (s : Session) (identity : IdentityController) (log : engine_log)
    : Session :=
  mkSession (se_configuration s) (se_host s) log identity (se_rows s) (se_evidence s)
    (se_queue s) (se_submissions s).

Definition set_submissions (s : Session) (m : gmap str AnswerSubmissionSnapshot)
    : Session :=
  mkSession (se_configuration s) (se_host s) (se_log s) (se_identity s) (se_rows s)
    (se_evidence s) (se_queue s) m.

Definition update_rows (s : Session) (rows : list Row) (evidence : AcquisitionEvidence)
    : Session :=
  let s := reproject (mkSession (se_configuration s) (se_host s) (se_log s)
    (se_identity s) rows evidence (se_queue s) (se_submissions s)) in
  let visible := visible_item_ids (snapshot_items (se_queue s)) in
  set_submissions s (filter (λ entry, entry.1 ∈ visible) (se_submissions s)).

Definition session_login (s : Session) (secret : str) (persist : bool) : Session :=
  let '(identity, log) := login (se_identity s) (se_log s) secret persist in
  reproject (set_identity s identity log).

Definition session_logout (s : Session) : Session :=
  set_identity s (logout (se_identity s)) (se_log s).

Definition credential_load_failed (s : Session) (error : str) : Session :=
  set_identity s (restore_failed (se_identity s) error) (se_log s).

Definition session_credential_result (s : Session) (request_id : N) (succeeded : bool)
    (error : option str) : Session :=
  let '(identity, log) :=
    credential_result (se_identity s) (se_log s) request_id succeeded error in
  reproject (set_identity s identity log).

Definition publish_tracked (log : engine_log) (intent : WriteIntent)
    : result str N * engine_log :=
  let answer := on_publish log intent in (answer, log ++ [PublishTracked intent answer]).

(** The checks of [submit_answer] up to the composed intent. *)
Definition prepare_answer (s : Session) (now : N) (item_id : str)
    (answers : list QuestionAnswer) : result str WriteIntent :=
  author ← ok_or $"Log in before answering." (active_pubkey (se_identity s));
  _ ← fail_if $"That answer is already being sent."
        (is_some_and (λ state, bool_decide (submission_phase state = Sending))
           (se_submissions s !! item_id));
  item ← ok_or $"The question is no longer in the bounded queue."
    (find_item (snapshot_items (se_queue s)) item_id);
  _ ← fail_if $"That update has no questions." (is_empty (item_questions item));
  _ ← fail_if $"That question already has an answer." (negb (is_none (item_answer item)));
  let candidate := mkAnswerBundle [] author now answers in
  _ ← fail_if $"The selected answer is not valid for this question."
        (negb (valid_answer (item_questions item) candidate));
  let frozen := mkFrozenAnswer author (answer_created_at candidate)
    (cfg_group_id (se_configuration s)) (Contract.item_id item)
    (answer_content item answers) answers in
  map_err related_error_message (compose_answer (se_host s) frozen).

Definition submit_answer (s : Session) (now : N) (item_id : str)
    (answers : list QuestionAnswer) : result str N * Session :=
  match prepare_answer s now item_id answers with
  | Err error => (Err error, s)
  | Ok intent =>
      let '(answer, log) := publish_tracked (se_log s) intent in
      let s := set_identity s (se_identity s) log in
      match answer with
      | Err error => (Err ($"NMP refused the answer: " ++ error), s)
      | Ok receipt =>
          (Ok receipt, set_submissions s
             (<[item_id := mkSubmission item_id Sending (Some receipt) None None]>
                (se_submissions s)))
      end
  end.

Definition receipt_status (s : Session) (item_id : str) (receipt_id : N)
    (status : WriteStatus) : Session :=
  match se_submissions s !! item_id with
  | None => s
  | Some submission =>
      if negb (bool_decide (submission_receipt_id submission = Some receipt_id)) then s
      else set_submissions s
             (<[item_id := apply_status (se_host s) submission status]> (se_submissions s))
  end.

Definition receipt_closed (s : Session) (item_id : str) (receipt_id : N) : Session :=
  match se_submissions s !! item_id with
  | None => s
  | Some submission =>
      if bool_decide (submission_receipt_id submission = Some receipt_id)
         && bool_decide (submission_phase submission = Sending)
      then set_submissions s
             (<[item_id := fail submission
                  $"Answer evidence closed before the group acknowledged it."]>
                (se_submissions s))
      else s
  end.

Definition set_queue_error (q : QueueSnapshot) (error : str) : QueueSnapshot :=
  mkQueueSnapshot (snapshot_phase q) (snapshot_relay q) (snapshot_group_id q)
    (snapshot_items q) (snapshot_evidence q) (Some error) (snapshot_identity q)
    (snapshot_credential_request q) (snapshot_answer_submissions q).

Definition action_error (s : Session) (item_id : option str) (error : str) : Session :=
  match item_id with
  | Some item_id =>
      set_submissions s
        (<[item_id := mkSubmission item_id SubmissionFailed None None (Some error)]>
           (se_submissions s))
  | None =>
      mkSession (se_configuration s) (se_host s) (se_log s) (se_identity s) (se_rows s)
        (se_evidence s) (set_queue_error (se_queue s) error) (se_submissions s)
  end.

Definition snapshot (s : Session) : QueueSnapshot :=
  let q := se_queue s in
  mkQueueSnapshot (snapshot_phase q) (snapshot_relay q) (snapshot_group_id q)
    (snapshot_items q) (snapshot_evidence q) (snapshot_error q)
    (id_snapshot (se_identity s)) (credential_request (se_identity s))
    (btree_values (se_submissions s)).

Definition session_shutdown (s : Session) : Session :=
  let '(identity, log) := shutdown (se_identity s) (se_log s) in
  set_identity s identity log.
End session.
