(* ===== verification/Runtime.v ===== *)
(** The kernel event loop ([core/src/runtime.rs], [core/src/action.rs]): which
    session operation each event runs, which snapshot is emitted after it, and
    how the loop ends. *)

From S2P Require Export Session.

(** [AppAction]. *)
Inductive AppAction :=
  | SubmitAnswer (item_id : str) (answers : list QuestionAnswer)
  | Logout.

(** A frame of the group observation, whose window may be absent. *)
Record Frame := mkFrame {
  frame_window : option (list Row);
  frame_evidence : AcquisitionEvidence;
}.

Inductive RuntimeEvent :=
  | EvAction (action : AppAction)
  | EvActionError (error : str)
  | EvLogin (secret : str) (persist : bool)
  | EvCredentialLoadFailed (error : str)
  | EvCredentialResult (request_id : N) (succeeded : bool) (error : option str)
  | EvFrame (frame : Frame)
  | EvQueryClosed
  | EvReceiptStatus (item_id : str) (receipt_id : N) (status : WriteStatus)
  | EvReceiptClosed (item_id : str) (receipt_id : N)
  | EvStop.

(** What the environment decides while one event is handled: the clock, whether
    a receipt thread could be started, and the control's stopping flag. *)
Record Moment := mkMoment {
  moment_now : N;
  moment_spawn : option str;
  moment_stopping : bool;
}.

(** How the handling of one event ends: the loop goes on, breaks, or the whole
    function returns an error early. *)
Inductive Outcome := Continue | Break | Return (error : str).

Section runtime.
Context `{Engine}.

(** The arms of [match event], with the snapshots they emit. *)
Definition handle (s : Session) (event : RuntimeEvent) (m : Moment)
    : Session * list QueueSnapshot * Outcome :=
  let emitting s := (s, [snapshot s], Continue) in
  match event with
  | EvFrame frame =>
      match frame_window frame with
      | Some rows => emitting (update_rows s rows (frame_evidence frame))
      | None => (s, [], Continue)
      end
  | EvLogin secret persist => emitting (session_login s secret persist)
  | EvCredentialResult request_id succeeded error =>
      emitting (session_credential_result s request_id succeeded error)
  | EvCredentialLoadFailed error => emitting (credential_load_failed s error)
  | EvAction Logout => emitting (session_logout s)
  | EvAction (SubmitAnswer item_id answers) =>
      match submit_answer s (moment_now m) item_id answers with
      | (Ok _, s) =>
          match moment_spawn m with
          | Some error =>
              (s, [], Return ($"TTS29 could not observe the answer receipt: " ++ error))
          | None => emitting s
          end
      | (Err error, s) => emitting (action_error s (Some item_id) error)
      end
  | EvActionError error => emitting (action_error s None error)
  | EvReceiptStatus item_id receipt_id status =>
      emitting (receipt_status s item_id receipt_id status)
  | EvReceiptClosed item_id receipt_id => emitting (receipt_closed s item_id receipt_id)
  | EvQueryClosed =>
      if negb (moment_stopping m) then
        let s := action_error s None $"The NMP group observation closed." in
        (s, [snapshot s], Break)
      else (s, [], Continue)
  | EvStop => (s, [], Break)
  end.

(** [while let Ok(event) = receiver.recv()] over the events of one run; the
    list ends when the channel closes. *)
Fixpoint event_loop (s : Session) (events : list (RuntimeEvent * Moment))
    : Session * list QueueSnapshot * result str unit :=
  match events with
  | [] => (s, [], Ok ())
  | (event, m) :: events =>
      let '(s, emitted, outcome) := handle s event m in
      match outcome with
      | Continue =>
          let '(s, later, r) := event_loop s events in (s, emitted ++ later, r)
      | Break => (s, emitted, Ok ())
      | Return error => (s, emitted, Err error)
      end
  end.

(** What starting up meets: the engine's, the observation's and the query
    thread's answers, and whether the control accepted the cancellation. *)
Record Startup := mkStartup {
  start_engine : option str;
  start_observe : option str;
  start_installed : bool;
  start_query_thread : option str;
}.

Definition run_inner (configuration : KernelConfiguration) (st : Startup)
    (events : list (RuntimeEvent * Moment))
    : list QueueSnapshot * engine_log * result str unit :=
  match start_engine st with
  | Some error => ([], [], Err ($"NMP engine refused startup: " ++ error))
  | None =>
  match relay_parse (cfg_relay configuration) with
  | None => ([], [], Err $"The configured NIP-29 host is invalid.")
  | Some host =>
  match start_observe st with
  | Some error => ([], [], Err ($"NMP refused the group observation: " ++ error))
  | None =>
  if negb (start_installed st) then ([], [], Ok ()) else
  match start_query_thread st with
  | Some error => ([], [], Err ($"TTS29 could not start its query observer: " ++ error))
  | None =>
      let s := new_session configuration host in
      let '(s', emitted, r) := event_loop s events in
      match r with
      | Ok _ => (snapshot s :: emitted, se_log (session_shutdown s'), Ok ())
      | Err error => (snapshot s :: emitted, se_log s', Err error)
      end
  end end end end.

(** [run], with the engine log it leaves behind. *)
Definition run (configuration : KernelConfiguration) (st : Startup)
    (events : list (RuntimeEvent * Moment)) : list QueueSnapshot * engine_log :=
  let '(emitted, log, r) := run_inner configuration st events in
  (lifecycle configuration KStarting :: emitted
     ++ match r with Ok _ => [] | Err error => [failed configuration error] end
     ++ [lifecycle configuration KStopped], log).
End runtime.
