(* ===== verification/RuntimeFacts.v ===== *)
(** What the kernel guarantees over whole runs: the snapshots it emits, the
    accounts it releases, the answers it publishes, and what a second
    submission does to the first. *)

From S2P Require Export Runtime.

Section facts.
Context `{Engine}.

Lemma reproject_identity s :
  se_identity (reproject s) = se_identity s ∧ se_log (reproject s) = se_log s.
Proof. done. Qed.

Lemma submit_answer_identity s now id answers r s' :
  submit_answer s now id answers = (r, s') →
  rtc identity_step (se_identity s, se_log s) (se_identity s', se_log s').
Proof.
  unfold submit_answer, publish_tracked. destruct (prepare_answer _ _ _ _) as [intent|e].
  - destruct (on_publish (se_log s) intent) eqn:Ep; intros [= <- <-]; simpl;
      apply rtc_once, step_publish.
  - by intros [= <- <-].
Qed.

Lemma identity_pair (p : IdentityController * engine_log) s0 :
  identity_step s0 p → let '(c, log) := p in identity_step s0 (c, log).
Proof. by destruct p. Qed.

Lemma handle_identity s event m s' out o :
  handle s event m = (s', out, o) →
  rtc identity_step (se_identity s, se_log s) (se_identity s', se_log s').
Proof.
  destruct event as [[id answers|]|e|secret persist|e|rid ok e|frame| |id rid st|id rid|];
    simpl.
  - destruct (submit_answer _ _ _ _) as [[receipt|e] s1] eqn:Es;
      apply submit_answer_identity in Es; [destruct (moment_spawn m)|];
      by intros [= <- <- <-].
  - intros [= <- <- <-]. apply rtc_once, step_logout.
  - by intros [= <- <- <-].
  - unfold session_login. pose proof (step_login (se_identity s) (se_log s) secret persist).
    destruct (login _ _ _ _). intros [= <- <- <-]. by apply rtc_once.
  - intros [= <- <- <-]. apply rtc_once, step_restore_failed.
  - unfold session_credential_result.
    pose proof (step_credential_result (se_identity s) (se_log s) rid ok e).
    destruct (credential_result _ _ _ _ _). intros [= <- <- <-]. by apply rtc_once.
  - destruct (frame_window frame); by intros [= <- <- <-].
  - destruct (negb _); by intros [= <- <- <-].
  - unfold receipt_status. intros [= <- <- <-].
    destruct (se_submissions s !! id); [|done]. by destruct (negb _).
  - unfold receipt_closed. intros [= <- <- <-].
    destruct (se_submissions s !! id); [|done]. by destruct (_ && _).
  - by intros [= <- <- <-].
Qed.

Lemma event_loop_identity s events s' out r :
  event_loop s events = (s', out, r) →
  rtc identity_step (se_identity s, se_log s) (se_identity s', se_log s').
Proof.
  revert s out. induction events as [|[event m] events IH]; simpl; intros s out.
  { by intros [= <- <- <-]. }
  destruct (handle s event m) as [[s1 emitted] o] eqn:Eh. apply handle_identity in Eh.
  destruct o; [|by intros [= <- <- <-]..].
  destruct (event_loop s1 events) as [[s2 later] r'] eqn:El. intros [= <- <- <-].
  etrans; [done|]. by eapply IH.
Qed.

(** ** Phases *)
Lemma project_phase cfg rows evidence :
  snapshot_phase (project cfg rows evidence) = KListening.
Proof. unfold project. by destruct (foldl _ _ _) as [? [? ?]]. Qed.

Lemma handle_phase s event m s' out o :
  handle s event m = (s', out, o) → snapshot_phase (se_queue s) = KListening →
  snapshot_phase (se_queue s') = KListening ∧
  Forall (λ q, snapshot_phase q = KListening) out.
Proof.
  intros Hh Hq. assert (∀ s1, se_queue s1 = se_queue s →
    snapshot_phase (se_queue s1) = KListening) as Hsame by congruence.
  assert (∀ s1, snapshot_phase (se_queue s1) = KListening →
    snapshot_phase (se_queue (reproject s1)) = KListening) as Hre.
  { intros s1 Hs1. simpl. destruct (is_empty (se_rows s1)); [done|apply project_phase]. }
  enough (snapshot_phase (se_queue s') = KListening ∧
    (out = [] ∨ out = [snapshot s'])) as [Hp [-> | ->]].
  { by split. } { split; [done|]. by constructor. }
  revert Hh.
  destruct event as [[id answers|]|e|secret persist|e|rid ok e|frame| |id rid st|id rid|];
    simpl.
  - destruct (submit_answer _ _ _ _) as [[receipt|e] s1] eqn:Es;
      (assert (snapshot_phase (se_queue s1) = KListening) as Hs1;
      [revert Es; unfold submit_answer; destruct (prepare_answer _ _ _ _); simpl;
       [destruct (on_publish _ _)|]; by intros [= <- <-]|]);
      [destruct (moment_spawn m)|]; intros [= <- <- <-]; auto.
  - intros [= <- <- <-]. auto.
  - intros [= <- <- <-]. auto.
  - unfold session_login. destruct (login _ _ _ _). intros [= <- <- <-]. auto.
  - intros [= <- <- <-]. auto.
  - unfold session_credential_result. destruct (credential_result _ _ _ _ _).
    intros [= <- <- <-]. auto.
  - destruct (frame_window frame); intros [= <- <- <-]; [|auto].
    split; [|auto]. simpl. destruct (is_empty _); [done|apply project_phase].
  - destruct (negb _); intros [= <- <- <-]; auto.
  - intros [= <- <- <-]. unfold receipt_status.
    destruct (se_submissions s !! id); [|auto]. destruct (negb _); auto.
  - intros [= <- <- <-]. unfold receipt_closed.
    destruct (se_submissions s !! id); [|auto]. destruct (_ && _); auto.
  - intros [= <- <- <-]. auto.
Qed.

Lemma event_loop_phase s events s' out r :
  event_loop s events = (s', out, r) → snapshot_phase (se_queue s) = KListening →
  Forall (λ q, snapshot_phase q = KListening) out.
Proof.
  revert s out. induction events as [|[event m] events IH]; simpl; intros s out.
  { by intros [= <- <- <-]. }
  destruct (handle s event m) as [[s1 emitted] o] eqn:Eh.
  intros Hl Hq. apply handle_phase in Eh as [Hq1 Hem]; [|done].
  destruct o; [|by injection Hl as <- <- <-..].
  destruct (event_loop s1 events) as [[s2 later] r'] eqn:El. injection Hl as <- <- <-.
  apply Forall_app. split; [done|]. by eapply IH.
Qed.

Lemma run_inner_listening configuration st events out log r :
  run_inner configuration st events = (out, log, r) →
  Forall (λ q, snapshot_phase q = KListening) out.
Proof.
  unfold run_inner. intros Hr. repeat (case_match; simplify_eq); try by constructor.
  all: constructor; [done|]; by eapply event_loop_phase.
Qed.

(** A run that did not fail leaves no registration behind. *)
Lemma run_inner_released configuration st events out log :
  run_inner configuration st events = (out, log, Ok ()) → live log = [].
Proof.
  unfold run_inner. intros Hr. repeat (case_match; simplify_eq); try done.
  lazymatch goal with Hl : event_loop _ _ = _ |- _ =>
    apply event_loop_identity, identity_reachable_inv in Hl end.
  lazymatch goal with Hi : identity_inv _ _ |- _ => apply shutdown_live in Hi end.
  unfold session_shutdown. by destruct (shutdown _ _).
Qed.
End facts.

(** A kernel run emits a starting snapshot first and a stopped one last;
    in between every snapshot is a listening one, except for a single failed
    snapshot just before the end when the run failed; and a run that did not
    fail leaves no account registration behind in the engine. *)
Theorem run_lifecycle `{Engine} configuration st events :
  let emitted := (run configuration st events).1 in
  let log := (run configuration st events).2 in
  ∃ middle failure,
    emitted = lifecycle configuration KStarting :: middle ++ failure
                ++ [lifecycle configuration KStopped] ∧
    Forall (λ q, snapshot_phase q = KListening) middle ∧
    (failure = [] ∧ live log = [] ∨ ∃ error, failure = [failed configuration error]).
Proof.
  intros emitted log. subst emitted log. unfold run.
  destruct (run_inner configuration st events) as [[out log] r] eqn:Hr. simpl.
  pose proof (run_inner_listening _ _ _ _ _ _ Hr) as Hall. destruct r as [[]|error].
  - exists out, []. split_and!; [done..|]. left. split; [done|]. by eapply run_inner_released.
  - exists out, [failed configuration error]. split_and!; [done..|]. right. by exists error.
Qed.

(** What a submission that passes the checks publishes, and for which item. *)
Lemma prepare_answer_ok `{Engine, !Nip29Laws} s now id answers intent :
  identity_inv (se_identity s) (se_log s) →
  prepare_answer s now id answers = Ok intent →
  ∃ r item,
    id_account (se_identity s) = Some r ∧ live (se_log s) = [r] ∧
    active (se_log s) = Some (public_key r) ∧
    find_item (snapshot_items (se_queue s)) id = Some item ∧
    item_questions item ≠ [] ∧ item_answer item = None ∧
    valid_answer (item_questions item) (mkAnswerBundle [] (key_hex r) now answers) = true ∧
    intent_host intent = se_host s ∧ identity_override intent = Some (public_key r) ∧
    ∃ content, intent_payload intent = mkUnsigned (public_key r) now 9
      ([$"h"; cfg_group_id (se_configuration s)] ::
       answer_tags (mkFrozenAnswer (key_hex r) now (cfg_group_id (se_configuration s))
         (Contract.item_id item) (answer_content item answers) answers)) content.
Proof.
  intros [Hlive Hph Hact _ _] Hp. unfold prepare_answer in Hp.
  okay Hp as author Ha. passed Hp as _. okay Hp as item Hitem. passed Hp as Hq.
  passed Hp as Hans. passed Hp as Hv. apply ok_or_ok in Ha. apply ok_or_ok in Hitem. simpl in *.
  apply map_err_ok in Hp. unfold compose_answer in Hp. okay Hp as a Hpk.
  okay Hp as g Hg. okay Hp as eid He. okay Hp as c Hc. okay Hp as u Hvs.
  okay Hp as w Hw. injection Hp as <-. apply ok_or_ok in Hpk. apply ok_or_ok in Hw. simpl in *.
  unfold active_pubkey in Ha. case_bool_decide as Hphase; [|done].
  unfold phase_ok in Hph. unfold held in Hlive.
  destruct (id_pending (se_identity s)) as [[q r pk|q]|], (id_account (se_identity s)) as [r'|];
    try done; destruct Hph as [[? ?] ?] || destruct Hph as [? ?]; simplify_eq; try congruence.
  unfold key_hex in *. rewrite pk_parse_hex in Hpk. injection Hpk as <-.
  exists r', item. rewrite override_get, override_host, override_payload.
  rewrite (send_payload _ _ _ _ _ _ _ _ Hw), (send_host _ _ _ _ _ _ _ _ Hw).
  split_and!; try done; [by apply Hact|]. by eexists.
Qed.

(** C24: an answer is published only by a signed-in account, for an item in
    view that has questions and no answer yet, with values that fit them; the
    published intent is an event of that account for the group's host whose
    root is the item, and the submission is then shown as being sent. *)
Theorem submit_answer_safe `{Engine, !Nip29Laws} c0 log0 s now id answers receipt s' :
  rtc identity_step (new, []) (c0, log0) → se_identity s = c0 → se_log s = log0 →
  submit_answer s now id answers = (Ok receipt, s') →
  ∃ r item intent,
    id_account c0 = Some r ∧ active log0 = Some (public_key r) ∧
    find_item (snapshot_items (se_queue s)) id = Some item ∧
    item_questions item ≠ [] ∧ item_answer item = None ∧
    valid_answer (item_questions item) (mkAnswerBundle [] (key_hex r) now answers) = true ∧
    se_log s' = log0 ++ [PublishTracked intent (Ok receipt)] ∧
    intent_host intent = se_host s ∧
    unsigned_pubkey (intent_payload intent) = public_key r ∧
    unsigned_created_at (intent_payload intent) = now ∧
    [$"e"; Contract.item_id item; []; $"root"] ∈ unsigned_tags (intent_payload intent) ∧
    se_submissions s' !! id = Some (mkSubmission id Sending (Some receipt) None None).
Proof.
  intros Hinv%identity_reachable_inv <- <-. unfold submit_answer, publish_tracked.
  destruct (prepare_answer s now id answers) as [intent|e] eqn:Hp; [|done].
  apply prepare_answer_ok in Hp as (r & item & Hr & _ & Ha & Hitem & Hq & Hans & Hv & Hhost & _ &
    content & Hpay); [|done].
  destruct (on_publish _ _) as [n|e] eqn:Epub; [|done]. intros [= <- <-].
  exists r, item, intent. rewrite Hpay. split_and!; try done; simpl.
  - unfold answer_tags. set_solver.
  - by rewrite lookup_insert_eq.
Qed.

(** Submitting an answer again while it is being sent does not leave the
    first submission alone: it is shown as failed and its receipt is forgotten,
    so that no later status of the first publication is reflected, and the
    guard against sending twice no longer applies. *)
Theorem duplicate_submit_forgets_receipt `{Engine} s m id answers pk sub receipt :
  active_pubkey (se_identity s) = Some pk →
  se_submissions s !! id = Some sub → submission_phase sub = Sending →
  submission_receipt_id sub = Some receipt →
  ∃ s' error,
    handle s (EvAction (SubmitAnswer id answers)) m = (s', [snapshot s'], Continue) ∧
    se_log s' = se_log s ∧
    se_submissions s' !! id = Some (mkSubmission id SubmissionFailed None None (Some error)) ∧
    (∀ status, receipt_status s' id receipt status = s') ∧
    ∀ now answers', prepare_answer s' now id answers' =
      prepare_answer (set_submissions s (delete id (se_submissions s))) now id answers'.
Proof.
  intros Ha Hs Hph Hrec.
  assert (submit_answer s (moment_now m) id answers =
    (Err $"That answer is already being sent.", s)) as Hsub.
  { unfold submit_answer, prepare_answer. rewrite Ha, Hs. simpl.
    by rewrite bool_decide_eq_true_2. }
  exists (action_error s (Some id) $"That answer is already being sent."),
    $"That answer is already being sent.".
  simpl. rewrite Hsub. split_and!; [done|done|by rewrite lookup_insert_eq| |].
  - intros status. unfold receipt_status. simpl. by rewrite lookup_insert_eq.
  - intros now answers'. unfold prepare_answer. simpl.
    rewrite lookup_insert_eq, lookup_delete_eq. done.
Qed.

Import Example_nmp.
Import Example_engine.

(** A session with one account signed in and one unanswered item in view. *)
Module Example_session.
Definition cfg : KernelConfiguration :=
  mkConfiguration $"wss://relay.example" $"group" None None.
Definition opened : Session := new_session cfg (mkRelayUrl $"wss://relay.example").
Definition signed_in : Session := session_login opened $"secret" false.
Definition viewing : Session :=
  update_rows signed_in [Example_parse.item_row 49 5] (mkEvidence 1 0).
Definition root : str := repeat 49%N 64.
Definition answers : list QuestionAnswer := [mkQuestionAnswer $"q1" [$"a"]].
Definition submitted : result str N * Session := submit_answer viewing 9 root answers.
End Example_session.

Lemma submit_answer_safe_witness :
  match Example_session.submitted with
  | (Ok receipt, s') =>
      se_submissions s' !! Example_session.root =
        Some (mkSubmission Example_session.root Sending (Some receipt) None None)
  | _ => False
  end.
Proof.
  destruct Example_session.submitted as [[receipt|e] s'] eqn:E.
  - destruct (@submit_answer_safe nip29 engine nip29_laws
      (se_identity Example_session.viewing) (se_log Example_session.viewing)
      Example_session.viewing 9 Example_session.root Example_session.answers receipt s')
      as (r & item & intent & _ & _ & _ & _ & _ & _ & _ & _ & _ & _ & _ & Hs).
    + apply rtc_once.
      replace (se_identity Example_session.viewing, se_log Example_session.viewing)
        with (login new [] $"secret" false) by (vm_compute; reflexivity).
      apply step_login.
    + reflexivity.
    + reflexivity.
    + exact E.
    + exact Hs.
  - vm_compute in E. discriminate.
Defined.

Lemma duplicate_submit_forgets_receipt_witness :
  ∃ s' error,
    handle Example_session.submitted.2
      (EvAction (SubmitAnswer Example_session.root Example_session.answers))
      (mkMoment 10 None false) = (s', [snapshot s'], Continue) ∧
    se_submissions s' !! Example_session.root =
      Some (mkSubmission Example_session.root SubmissionFailed None None (Some error)).
Proof.
  destruct (@duplicate_submit_forgets_receipt nip29 engine Example_session.submitted.2
    (mkMoment 10 None false) Example_session.root Example_session.answers $"secret"
    (mkSubmission Example_session.root Sending (Some 2%N) None None) 2%N)
    as (s' & error & Hh & _ & Hs & _); try (vm_compute; reflexivity).
  exists s', error. split; [exact Hh|exact Hs].
Defined.
