(* ===== verification/Handle.v ===== *)
(** The exported interface of the kernel ([core/src/lib.rs]) and the threads
    that feed its event loop ([core/src/runtime.rs]): what the foreign calls on
    a handle put into the channel, from starting the kernel to stopping it.

    The foreign caller keeps its part of the contract: a handle is null or live,
    and texts are null or NUL-terminated. JSON is a parameter. *)

From S2P Require Export Runtime Utf8.

(** A C string: null, or the bytes before its terminator. *)
Abbreviation CString := (option (list N)).

Definition parse_c_string (value : CString) : option str := value ≫= to_str.

(** [KernelHandle]: the configuration its thread runs with, the stopping flag,
    and what was sent into the channel. The thread sends and receives on its
    own, see [Control] for the flag. *)
Record KernelHandle := mkHandle {
  kh_configuration : KernelConfiguration;
  kh_stopping : bool;
  kh_sent : list RuntimeEvent;
}.

(** [Control::send]. *)
Definition control_send (event : RuntimeEvent) (k : KernelHandle) : KernelHandle :=
  if negb (kh_stopping k)
  then mkHandle (kh_configuration k) (kh_stopping k) (kh_sent k ++ [event])
  else k.

(** [Control::stop]: only the first call sends the event. *)
Definition control_stop (k : KernelHandle) : KernelHandle :=
  if kh_stopping k then k
  else mkHandle (kh_configuration k) true (kh_sent k ++ [EvStop]).

Section foreign.
Context (decode_configuration : str → option KernelConfiguration)
        (decode_action : str → option AppAction).

(** [tts29_start]: null without a callback, with an invalid configuration, and
    when the thread cannot be started. *)
Definition tts29_start (configuration_json : CString) (callback : bool) (spawned : bool)
    : option KernelHandle :=
  _ ← reject_if (negb callback);
  configuration ← parse_c_string configuration_json ≫= decode_configuration;
  _ ← reject_if (negb spawned);
  Some (mkHandle configuration false []).

Definition send_secret (handle : option KernelHandle) (secret : CString) (persist : bool)
    : option KernelHandle :=
  match handle, parse_c_string secret with
  | Some k, Some secret => Some (control_send (EvLogin secret persist) k)
  | handle, _ => handle
  end.
Definition tts29_login (handle : option KernelHandle) (secret : CString) : option KernelHandle :=
  send_secret handle secret true.
Definition tts29_restore_login (handle : option KernelHandle) (secret : CString)
    : option KernelHandle :=
  send_secret handle secret false.

Definition tts29_credential_load_failed (handle : option KernelHandle) (error : CString)
    : option KernelHandle :=
  match handle, parse_c_string error with
  | Some k, Some error => Some (control_send (EvCredentialLoadFailed error) k)
  | handle, _ => handle
  end.

Definition tts29_dispatch (handle : option KernelHandle) (action : CString)
    : option KernelHandle :=
  match handle with
  | Some k =>
      Some (control_send match parse_c_string action ≫= decode_action with
                         | Some action => EvAction action
                         | None => EvActionError $"The app action was invalid."
                         end k)
  | None => None
  end.

Definition tts29_credential_result (handle : option KernelHandle) (request_id : N)
    (succeeded : bool) (error : CString) : option KernelHandle :=
  match handle with
  | Some k =>
      Some (control_send (EvCredentialResult request_id succeeded (parse_c_string error)) k)
  | None => None
  end.

(** [tts29_stop], up to joining the thread and freeing the handle. *)
Definition tts29_stop (handle : option KernelHandle) : option KernelHandle :=
  control_stop <$> handle.

(** A call, as the foreign side makes it. *)
Inductive Call :=
  | CallLogin (secret : CString)
  | CallRestoreLogin (secret : CString)
  | CallCredentialLoadFailed (error : CString)
  | CallDispatch (action : CString)
  | CallCredentialResult (request_id : N) (succeeded : bool) (error : CString).

Definition make_call (handle : option KernelHandle) (call : Call) : option KernelHandle :=
  match call with
  | CallLogin secret => tts29_login handle secret
  | CallRestoreLogin secret => tts29_restore_login handle secret
  | CallCredentialLoadFailed error => tts29_credential_load_failed handle error
  | CallDispatch action => tts29_dispatch handle action
  | CallCredentialResult request_id succeeded error =>
      tts29_credential_result handle request_id succeeded error
  end.

(** The event a call stands for; a text that is missing or no UTF-8 has none,
    except that an action is reported as invalid. *)
Definition call_event (call : Call) : option RuntimeEvent :=
  match call with
  | CallLogin secret => secret ← parse_c_string secret; Some (EvLogin secret true)
  | CallRestoreLogin secret => secret ← parse_c_string secret; Some (EvLogin secret false)
  | CallCredentialLoadFailed error =>
      error ← parse_c_string error; Some (EvCredentialLoadFailed error)
  | CallDispatch action =>
      Some match parse_c_string action ≫= decode_action with
           | Some action => EvAction action
           | None => EvActionError $"The app action was invalid."
           end
  | CallCredentialResult request_id succeeded error =>
      Some (EvCredentialResult request_id succeeded (parse_c_string error))
  end.

(** ** The kernel's own threads *)

(** The query thread: the frames of the observation until it closes. *)
Definition query_thread (frames : list Frame) : list RuntimeEvent :=
  (EvFrame <$> frames) ++ [EvQueryClosed].
(** [forward_receipt]: the statuses of a receipt until it closes. *)
Definition forward_receipt (item_id : str) (receipt_id : N) (statuses : list WriteStatus)
    : list RuntimeEvent :=
  (EvReceiptStatus item_id receipt_id <$> statuses) ++ [EvReceiptClosed item_id receipt_id].

Definition is_internal (event : RuntimeEvent) : bool :=
  match event with
  | EvFrame _ | EvQueryClosed | EvReceiptStatus _ _ _ | EvReceiptClosed _ _ => true
  | _ => false
  end.

(** These threads hold senders of their own, without the stopping flag. *)
Definition internal_send (event : RuntimeEvent) (k : KernelHandle) : KernelHandle :=
  mkHandle (kh_configuration k) (kh_stopping k) (kh_sent k ++ [event]).

(** What happens while a handle is live: a call, or one event of a thread. *)
Inductive Activity := Called (call : Call) | Sent (event : RuntimeEvent).

Definition act (handle : option KernelHandle) (activity : Activity) : option KernelHandle :=
  match activity with
  | Called call => make_call handle call
  | Sent event => internal_send event <$> handle
  end.

Definition calls_of (life : list Activity) : list Call :=
  omap (λ a, match a with Called call => Some call | Sent _ => None end) life.
Definition sent_of (life : list Activity) : list RuntimeEvent :=
  omap (λ a, match a with Called _ => None | Sent event => Some event end) life.

(** ** The emitter *)
Section emit.
Context (encode : QueueSnapshot → option (list N)).

(** [Emitter::emit]: the C string the callback gets. *)
Definition emit (q : QueueSnapshot) : option (list N) :=
  json ← encode q;
  _ ← reject_if (existsb (N.eqb 0) json);
  Some json.
End emit.

(** ** Facts *)

Lemma call_event_external call event : call_event call = Some event → is_internal event = false.
Proof.
  destruct call as [[]|[]|[]| |]; simpl; intros He; try done;
    repeat (opt He as x Hx); try (by injection He as <-).
  injection He as <-. by destruct (_ ≫= _).
Qed.

(** A call on a live handle sends its event, if it has one. *)
Lemma make_call_live k call :
  kh_stopping k = false →
  make_call (Some k) call = Some (mkHandle (kh_configuration k) false
    (kh_sent k ++ match call_event call with Some event => [event] | None => [] end)).
Proof.
  intros Hk. destruct call; simpl;
    unfold tts29_login, tts29_restore_login, tts29_credential_load_failed, send_secret,
      control_send; rewrite ?Hk; simpl; try done;
    destruct (parse_c_string _); simpl; try done; rewrite app_nil_r, <-Hk; by destruct k.
Qed.

(** The channel over the life of a handle. *)
Lemma life_sent life k :
  kh_stopping k = false → Forall (λ e, is_internal e = true) (sent_of life) →
  ∃ events, foldl act (Some k) life
            = Some (mkHandle (kh_configuration k) false (kh_sent k ++ events)) ∧
    filter (λ e, is_internal e = false) events = omap call_event (calls_of life) ∧
    filter (λ e, is_internal e = true) events = sent_of life ∧ EvStop ∉ events.
Proof.
  revert k. induction life as [|a life IH]; intros k Hk Hin.
  { exists []. rewrite app_nil_r, <-Hk. split; [by destruct k|]. split_and!; try done.
    apply not_elem_of_nil. }
  destruct a as [call|event]; simpl in *.
  - rewrite make_call_live by done.
    destruct (IH (mkHandle (kh_configuration k) false
      (kh_sent k ++ match call_event call with Some event => [event] | None => [] end)) eq_refl Hin)
      as (events & -> & Hext & Hint & Hstop). simpl. rewrite <-(assoc_L (++)).
    eexists. split; [done|]. destruct (call_event call) as [event|] eqn:He; simpl; [|done].
    pose proof (call_event_external _ _ He) as Hf.
    rewrite filter_cons_True, filter_cons_False by (by rewrite Hf).
    rewrite Hext. split_and!; try done. rewrite not_elem_of_cons. split; [|done]. intros <-.
    by destruct call as [[]|[]|[]| |]; simpl in He; repeat (opt He as x Hx); try done;
      destruct (_ ≫= _).
  - apply Forall_cons in Hin as [Hi Hin].
    destruct (IH (internal_send event k) Hk Hin) as (events & -> & Hext & Hint & Hstop). simpl.
    rewrite <-(assoc_L (++)). eexists. split; [done|]. simpl.
    rewrite filter_cons_False, filter_cons_True by (by rewrite ?Hi).
    rewrite Hint. split_and!; try done. rewrite not_elem_of_cons. split; [|done].
    intros <-. done.
Qed.
End foreign.

(** The loop does not look at what is behind a stop. *)
Lemma event_loop_stop `{Engine} s l m more :
  event_loop s (l ++ (EvStop, m) :: more) = event_loop s (l ++ [(EvStop, m)]).
Proof.
  revert s. induction l as [|[event m'] l IH]; intros s; [done|]. simpl.
  destruct (Runtime.handle s event m') as [[s' emitted] [| |error]]; [|done|done].
  by rewrite IH.
Qed.

Lemma run_stop `{Engine} configuration st l m more :
  run configuration st (l ++ (EvStop, m) :: more) = run configuration st (l ++ [(EvStop, m)]).
Proof.
  unfold run, run_inner. destruct (start_engine st); [done|].
  destruct (relay_parse _); [|done]. destruct (start_observe st); [done|].
  destruct (negb _); [done|]. destruct (start_query_thread st); [done|].
  by rewrite event_loop_stop.
Qed.

(** The life of a kernel handle. However the foreign calls and the events of
    the kernel's own threads interleave between starting and stopping, the
    channel holds the events of the valid calls in the order of the calls, then
    the stop, which is sent once and last; the events of the threads keep their
    order as well. The kernel runs with the decoded configuration, and whatever
    the threads still send after the stop, and however the events are handled,
    makes no difference to the snapshots it emits and to what it does with the
    engine. *)
Theorem handle_life `{Engine} decode_configuration decode_action json callback spawned life k k' :
  tts29_start decode_configuration json callback spawned = Some k →
  Forall (λ e, is_internal e = true) (sent_of life) →
  tts29_stop (foldl (act decode_action) (Some k) life) = Some k' →
  parse_c_string json ≫= decode_configuration = Some (kh_configuration k') ∧
  filter (λ e, is_internal e = false) (kh_sent k')
    = omap (call_event decode_action) (calls_of life) ++ [EvStop] ∧
  filter (λ e, is_internal e = true) (kh_sent k') = sent_of life ∧
  (∃ before, kh_sent k' = before ++ [EvStop] ∧ EvStop ∉ before) ∧
  ∀ st moments more, length moments = length (kh_sent k') →
    run (kh_configuration k') st (zip (kh_sent k') moments ++ more)
    = run (kh_configuration k') st (zip (kh_sent k') moments).
Proof.
  intros Hstart Hin Hstop. unfold tts29_start in Hstart.
  guard Hstart as _. opt Hstart as configuration Hc. guard Hstart as _. injection Hstart as <-.
  destruct (life_sent decode_action life (mkHandle configuration false []) eq_refl Hin)
    as (events & Hl & Hext & Hint & Hno). rewrite Hl in Hstop. injection Hstop as <-. simpl.
  split; [done|]. rewrite !filter_app, Hext, Hint. split; [done|]. split; [by rewrite app_nil_r|].
  split; [by exists events|]. intros st moments more Hlen.
  rewrite length_app in Hlen. simpl in Hlen.
  destruct (exists_last (l := moments)) as (ms & m & ->); [by intros ->; simpl in Hlen; lia|].
  rewrite length_app in Hlen. simpl in Hlen. rewrite zip_with_app by lia. simpl.
  rewrite <-(assoc_L (++)). apply run_stop.
Qed.

(** A listener who logs in, answers, and closes the application, while the
    observation shows one frame; one text is no UTF-8. *)
Module Example_handle.
Definition json : CString := Some $"{}".
Definition decode_configuration (_ : str) : option KernelConfiguration :=
  Some (mkConfiguration $"wss://relay.example" $"group" None None).
Definition decode_action (text : str) : option AppAction :=
  if text =?s $"logout" then Some Logout else None.
Definition frame : Frame := mkFrame None (mkEvidence 1 0).
Definition life : list Activity :=
  [Called (CallLogin (Some $"secret")); Sent (EvFrame frame); Called (CallLogin (Some [255%N]));
   Called (CallDispatch (Some $"logout")); Called (CallDispatch None)].
Definition started : option KernelHandle := tts29_start decode_configuration json true true.
Definition stopped : option KernelHandle := tts29_stop (foldl (act decode_action) started life).
End Example_handle.

Lemma handle_life_witness :
  ∃ k', Example_handle.stopped = Some k' ∧
    kh_sent k' = [EvLogin $"secret" true; EvFrame Example_handle.frame; EvAction Logout;
                  EvActionError $"The app action was invalid."; EvStop] ∧
    filter (λ e, is_internal e = false) (kh_sent k')
      = [EvLogin $"secret" true; EvAction Logout;
         EvActionError $"The app action was invalid."] ++ [EvStop].
Proof.
  destruct Example_handle.started as [k|] eqn:Hs; [|vm_compute in Hs; discriminate].
  destruct Example_handle.stopped as [k'|] eqn:Hk; [|vm_compute in Hk; discriminate].
  exists k'. split; [done|]. split; [vm_compute in Hk; injection Hk as <-; reflexivity|].
  unfold Example_handle.stopped in Hk. rewrite Hs in Hk.
  assert (Forall (λ e, is_internal e = true) (sent_of Example_handle.life)) as Hin
    by (vm_compute; repeat constructor).
  destruct (@handle_life Example_nmp.nip29 Example_engine.engine _ _ _ _ _ _ _ _ Hs Hin Hk)
    as (_ & Hext & _).
  rewrite Hext. vm_compute. reflexivity.
Defined.
