(* ===== verification/Control.v ===== *)
(** Stopping the kernel while it starts ([Control] in [core/src/lib.rs]): the
    kernel thread installs the cancellation of its observation while the owner
    may stop the kernel at any moment. The two run concurrently, one atomic
    load, swap, lock operation or write at a time. *)

From S2P Require Export Prelude.

(** Where the kernel thread is in [install]. *)
Inductive InstallPc :=
  | IStart              (** before the first load of [stopping] *)
  | ILock               (** it was false; before taking the lock *)
  | ILocked             (** holding the lock, before the second load *)
  | IStore              (** it was false; before [*stored = Some(cancellation)] *)
  | IUnlock             (** stored; before releasing the lock *)
  | IRefuse             (** second load was true and the cancellation cancelled *)
  | IDone (installed : bool).

(** Where the owner's thread is in [stop] and the [cancel_observation] it
    calls. *)
Inductive StopPc :=
  | SStart              (** before [stopping.swap(true)] *)
  | SLock               (** it was false; before taking the lock *)
  | SLocked             (** holding the lock, before looking at [stored] *)
  | SUnlock             (** before releasing the lock *)
  | SSend               (** before [sender.send(Stop)] *)
  | SDone.

Inductive Holder := Installer | Stopper.

Record Control := mkControl {
  ct_stopping : bool;
  ct_stored : bool;
  ct_cancelled : bool;
  ct_lock : option Holder;
  ct_sent : list N;
  ct_install : InstallPc;
  ct_stop : StopPc;
}.

(** [Control::new], with both threads about to run. *)
Definition control_new : Control := mkControl false false false None [] IStart SStart.

(** [send]: an event is queued only while the kernel is not stopping. *)
Definition control_send (c : Control) (event : N) : Control :=
  if negb (ct_stopping c)
  then mkControl (ct_stopping c) (ct_stored c) (ct_cancelled c) (ct_lock c)
         (ct_sent c ++ [event]) (ct_install c) (ct_stop c)
  else c.

(** The [Stop] event. *)
Definition STOP : N := 0.

Inductive control_step : Control → Control → Prop :=
  (* install *)
  | install_load_true stored cancelled lock sent st :
      control_step (mkControl true stored cancelled lock sent IStart st)
                   (mkControl true stored true lock sent (IDone false) st)
  | install_load_false stored cancelled lock sent st :
      control_step (mkControl false stored cancelled lock sent IStart st)
                   (mkControl false stored cancelled lock sent ILock st)
  | install_lock stopping stored cancelled sent st :
      control_step (mkControl stopping stored cancelled None sent ILock st)
                   (mkControl stopping stored cancelled (Some Installer) sent ILocked st)
  | install_reload_true stored cancelled lock sent st :
      control_step (mkControl true stored cancelled lock sent ILocked st)
                   (mkControl true stored true lock sent IRefuse st)
  | install_reload_false stored cancelled lock sent st :
      control_step (mkControl false stored cancelled lock sent ILocked st)
                   (mkControl false stored cancelled lock sent IStore st)
  | install_store stopping stored cancelled lock sent st :
      control_step (mkControl stopping stored cancelled lock sent IStore st)
                   (mkControl stopping true cancelled lock sent IUnlock st)
  | install_unlock stopping stored cancelled lock sent st :
      control_step (mkControl stopping stored cancelled lock sent IUnlock st)
                   (mkControl stopping stored cancelled None sent (IDone true) st)
  | install_refuse stopping stored cancelled lock sent st :
      control_step (mkControl stopping stored cancelled lock sent IRefuse st)
                   (mkControl stopping stored cancelled None sent (IDone false) st)
  (* stop *)
  | stop_swap_true stored cancelled lock sent inst :
      control_step (mkControl true stored cancelled lock sent inst SStart)
                   (mkControl true stored cancelled lock sent inst SDone)
  | stop_swap_false stored cancelled lock sent inst :
      control_step (mkControl false stored cancelled lock sent inst SStart)
                   (mkControl true stored cancelled lock sent inst SLock)
  | stop_lock stopping stored cancelled sent inst :
      control_step (mkControl stopping stored cancelled None sent inst SLock)
                   (mkControl stopping stored cancelled (Some Stopper) sent inst SLocked)
  | stop_cancel stopping stored cancelled lock sent inst :
      control_step (mkControl stopping stored cancelled lock sent inst SLocked)
                   (mkControl stopping stored (stored || cancelled) lock sent inst SUnlock)
  | stop_unlock stopping stored cancelled lock sent inst :
      control_step (mkControl stopping stored cancelled lock sent inst SUnlock)
                   (mkControl stopping stored cancelled None sent inst SSend)
  | stop_send stopping stored cancelled lock sent inst :
      control_step (mkControl stopping stored cancelled lock sent inst SSend)
                   (mkControl stopping stored cancelled lock (sent ++ [STOP]) inst SDone)
  (* another caller of [send] *)
  | other_send c event : event ≠ STOP → control_step c (control_send c event).

(** ** The invariant *)
Definition past_cancel (s : StopPc) : bool :=
  match s with SUnlock | SSend | SDone => true | _ => false end.
Definition stores (i : InstallPc) : bool :=
  match i with IUnlock | IDone true => true | _ => false end.
Definition holds_lock (i : InstallPc) : bool :=
  match i with ILocked | IStore | IUnlock | IRefuse => true | _ => false end.
Definition holds_lock_stop (s : StopPc) : bool :=
  match s with SLocked | SUnlock => true | _ => false end.

Record control_inv (c : Control) : Prop := {
  ci_stopping : ct_stopping c = true ↔ ct_stop c ≠ SStart;
  ci_lock_install : ct_lock c = Some Installer ↔ holds_lock (ct_install c) = true;
  ci_lock_stop : ct_lock c = Some Stopper ↔ holds_lock_stop (ct_stop c) = true;
  ci_stored : ct_stored c = true ↔ stores (ct_install c) = true;
  ci_refused : ct_install c = IDone false ∨ ct_install c = IRefuse → ct_cancelled c = true;
  ci_store : ct_install c = IStore → past_cancel (ct_stop c) = false;
  ci_cancel : past_cancel (ct_stop c) = true → ct_stored c = true → ct_cancelled c = true;
  ci_sent : len (filter (λ e, e = STOP) (ct_sent c)) =
            (match ct_stop c with SDone => 1 | _ => 0 end)%N;
}.

Lemma control_new_inv : control_inv control_new.
Proof. split; simpl; naive_solver. Qed.

Lemma filter_snoc_len (l : list N) e :
  len (filter (λ e, e = STOP) (l ++ [e])) =
    (len (filter (λ e, e = STOP) l) + (if decide (e = STOP) then 1 else 0))%N.
Proof.
  rewrite filter_app, len_app, filter_cons. by case_decide.
Qed.

Lemma control_step_inv c c' : control_step c c' → control_inv c → control_inv c'.
Proof.
  intros Hstep [H1 H2 H3 H4 H5 H6 H7 H8].
  destruct Hstep as [| | | | | | | | | | |? stored| | |c event Hev].
  15:{ unfold control_send. destruct (negb (ct_stopping c)); [|by split].
       split; simpl; try done. rewrite filter_snoc_len, H8. rewrite decide_False by done.
       by rewrite N.add_0_r. }
  all: simpl in *; split; simpl; try done; try (intuition congruence).
  - intros _. destruct st; intuition congruence.
  - intros Hi. rewrite (H5 Hi). apply orb_true_r.
  - intros ->. simpl in *. destruct H2 as [_ H2], H3 as [_ H3].
    specialize (H2 eq_refl). specialize (H3 eq_refl). congruence.
  - by intros _ ->.
  - by rewrite filter_snoc_len, H8.
Qed.

Lemma control_reachable c : rtc control_step control_new c → control_inv c.
Proof.
  intros Hs. enough (∀ c0, control_inv c0 → rtc control_step c0 c → control_inv c) as Hgen
    by (apply (Hgen _ control_new_inv Hs)).
  intros c0 H0 Hs'. induction Hs' as [|c1 c2 c3 Hstep _ IH]; [done|].
  by apply IH, (control_step_inv c1).
Qed.

(** However starting and stopping interleave, once both are through the
    observation has been cancelled and exactly one stop event was queued; while
    a stop that has not run leaves the queue without one. The lock is never
    held by both. *)
Theorem stop_cancels_observation c :
  rtc control_step control_new c →
  (ct_stop c = SDone → ∀ b, ct_install c = IDone b → ct_cancelled c = true) ∧
  len (filter (λ e, e = STOP) (ct_sent c)) = (match ct_stop c with SDone => 1 | _ => 0 end)%N ∧
  ¬ (holds_lock (ct_install c) = true ∧ holds_lock_stop (ct_stop c) = true).
Proof.
  intros [H1 H2 H3 H4 H5 H6 H7 H8]%control_reachable. split_and!; [|done|naive_solver].
  intros Hs b Hi. rewrite Hs, Hi in *. simpl in *. destruct b; naive_solver.
Qed.

Lemma stop_cancels_observation_witness :
  let c := mkControl true true true None [STOP] (IDone true) SDone in
  rtc control_step control_new c ∧ ct_cancelled c = true.
Proof.
  intros c. assert (rtc control_step control_new c) as Hs.
  { eapply rtc_l; [apply install_load_false|]. eapply rtc_l; [apply install_lock|].
    eapply rtc_l; [apply install_reload_false|]. eapply rtc_l; [apply stop_swap_false|].
    eapply rtc_l; [apply install_store|]. eapply rtc_l; [apply install_unlock|].
    eapply rtc_l; [apply stop_lock|]. eapply rtc_l; [apply stop_cancel|].
    eapply rtc_l; [apply stop_unlock|]. apply rtc_once, (stop_send _ _ _ _ []). }
  split; [exact Hs|]. exact (proj1 (stop_cancels_observation c Hs) eq_refl true eq_refl).
Defined.
