(* ===== verification/Kernel.v ===== *)
(** The kernel as one concurrent machine ([core/src/lib.rs],
    [core/src/runtime.rs]): the owner of a handle, the kernel thread, the query
    thread and one thread per receipt run at once and share the stopping flag, the
    stored cancellation behind its lock, the channel of events, and the engine.
    A step makes at most one access to the flag, the lock, what the lock protects,
    or the tail of the channel, together with what only its own thread can see;
    any order of steps is possible. Only the kernel thread takes events out of the
    channel, which does not disturb those that add to it.

    The owner calls one function after another, as the application does from its
    main actor. The observation and the receipts are the engine's: frames and
    statuses arrive when they like, and both may end by themselves. What the code
    relies on is that an observation that was cancelled ends, and so do the
    receipts of an engine that was shut down, after whatever they still deliver. *)

From S2P Require Import Control.
From S2P Require Export Handle RuntimeFacts.

(** What the threads access through [Control]. *)
Record ControlState := mkControlState {
  cs_stopping : bool;
  cs_stored : bool;
  cs_cancelled : bool;
  cs_lock : option Holder;
}.
Definition set_stopping (c : ControlState) : ControlState :=
  mkControlState true (cs_stored c) (cs_cancelled c) (cs_lock c).
Definition set_stored (c : ControlState) : ControlState :=
  mkControlState (cs_stopping c) true (cs_cancelled c) (cs_lock c).
Definition set_cancelled (b : bool) (c : ControlState) : ControlState :=
  mkControlState (cs_stopping c) (cs_stored c) (b || cs_cancelled c) (cs_lock c).
Definition set_lock (l : option Holder) (c : ControlState) : ControlState :=
  mkControlState (cs_stopping c) (cs_stored c) (cs_cancelled c) l.

(** Where the owner of the handle is. *)
Inductive OwnerPc :=
  | OIdle
  | OSend (event : RuntimeEvent)  (** found the kernel not stopping *)
  | OStop (s : StopPc)            (** in [tts29_stop]; at [SDone] it joins the thread *)
  | OReturned.

Inductive QueryPc := QNone | QRunning | QEnded.
#[export] Instance query_pc_eq_dec : EqDecision QueryPc.
Proof. solve_decision. Defined.

(** A receipt thread: its item and receipt, and whether it still runs. *)
Record ReceiptThread := mkReceiptThread {
  rt_item : str;
  rt_receipt : N;
  rt_running : bool;
}.

Section kernel.
Context `{Engine} (configuration : KernelConfiguration) (st : Startup)
        (decode_action : str → option AppAction).

(** Where the kernel thread is in [run]. *)
Inductive MainPc :=
  | MStart
  | MInstall (host : RelayUrl) (i : InstallPc)  (** in [control.install] *)
  | MLoop (s : Session)         (** before [receiver.recv()] *)
  | MLock (s : Session)         (** behind the loop, in [cancel_observation] *)
  | MCancel (s : Session)       (** holding its lock *)
  | MUnlock (s : Session)
  | MShutdown (s : Session)     (** before [session.shutdown()] *)
  | MJoinQuery
  | MJoinReceipts
  | MEnd (r : result str unit)  (** [run_inner] has returned *)
  | MDone (r : result str unit).

(** The machine. Of what happened it keeps the snapshots that were emitted, the
    engine's log once the session is gone, the events that were received, the
    calls that were made, and whether the observation ended without being
    cancelled. *)
Record Kernel := mkKernel {
  k_control : ControlState;
  k_main : MainPc;
  k_owner : OwnerPc;
  k_query : QueryPc;
  k_receipts : list ReceiptThread;
  k_channel : list RuntimeEvent;
  k_receiving : bool;
  k_shut : bool;
  k_emitted : list QueueSnapshot;
  k_log : engine_log;
  k_consumed : list (RuntimeEvent * Moment);
  k_calls : list Call;
  k_ended_itself : bool;
}.

Definition kernel_new : Kernel :=
  mkKernel (mkControlState false false false None) MStart OIdle QNone [] [] true false
    [] [] [] [] false.

Definition with_control (f : ControlState → ControlState) (k : Kernel) : Kernel :=
  mkKernel (f (k_control k)) (k_main k) (k_owner k) (k_query k) (k_receipts k) (k_channel k)
    (k_receiving k) (k_shut k) (k_emitted k) (k_log k) (k_consumed k) (k_calls k)
    (k_ended_itself k).
Definition at_main (pc : MainPc) (k : Kernel) : Kernel :=
  mkKernel (k_control k) pc (k_owner k) (k_query k) (k_receipts k) (k_channel k)
    (k_receiving k) (k_shut k) (k_emitted k) (k_log k) (k_consumed k) (k_calls k)
    (k_ended_itself k).
Definition at_owner (pc : OwnerPc) (k : Kernel) : Kernel :=
  mkKernel (k_control k) (k_main k) pc (k_query k) (k_receipts k) (k_channel k)
    (k_receiving k) (k_shut k) (k_emitted k) (k_log k) (k_consumed k) (k_calls k)
    (k_ended_itself k).
Definition at_query (pc : QueryPc) (k : Kernel) : Kernel :=
  mkKernel (k_control k) (k_main k) (k_owner k) pc (k_receipts k) (k_channel k)
    (k_receiving k) (k_shut k) (k_emitted k) (k_log k) (k_consumed k) (k_calls k)
    (k_ended_itself k).
Definition with_receipts (receipts : list ReceiptThread) (k : Kernel) : Kernel :=
  mkKernel (k_control k) (k_main k) (k_owner k) (k_query k) receipts (k_channel k)
    (k_receiving k) (k_shut k) (k_emitted k) (k_log k) (k_consumed k) (k_calls k)
    (k_ended_itself k).
Definition emitting (emitted : list QueueSnapshot) (k : Kernel) : Kernel :=
  mkKernel (k_control k) (k_main k) (k_owner k) (k_query k) (k_receipts k) (k_channel k)
    (k_receiving k) (k_shut k) (k_emitted k ++ emitted) (k_log k) (k_consumed k) (k_calls k)
    (k_ended_itself k).
Definition calling (call : Call) (k : Kernel) : Kernel :=
  mkKernel (k_control k) (k_main k) (k_owner k) (k_query k) (k_receipts k) (k_channel k)
    (k_receiving k) (k_shut k) (k_emitted k) (k_log k) (k_consumed k) (k_calls k ++ [call])
    (k_ended_itself k).
Definition shutting (log : engine_log) (k : Kernel) : Kernel :=
  mkKernel (k_control k) (k_main k) (k_owner k) (k_query k) (k_receipts k) (k_channel k)
    (k_receiving k) true (k_emitted k) log (k_consumed k) (k_calls k) (k_ended_itself k).
Definition consuming (event : RuntimeEvent) (m : Moment) (channel : list RuntimeEvent)
    (k : Kernel) : Kernel :=
  mkKernel (k_control k) (k_main k) (k_owner k) (k_query k) (k_receipts k) channel
    (k_receiving k) (k_shut k) (k_emitted k) (k_log k) (k_consumed k ++ [(event, m)])
    (k_calls k) (k_ended_itself k).
Definition ending_itself (k : Kernel) : Kernel :=
  mkKernel (k_control k) (k_main k) (k_owner k) (k_query k) (k_receipts k) (k_channel k)
    (k_receiving k) (k_shut k) (k_emitted k) (k_log k) (k_consumed k) (k_calls k)
    (k_ended_itself k || negb (cs_cancelled (k_control k))).

(** A send into the channel; what is sent to a dropped receiver is lost. *)
Definition channel_send (event : RuntimeEvent) (k : Kernel) : Kernel :=
  if k_receiving k
  then mkKernel (k_control k) (k_main k) (k_owner k) (k_query k) (k_receipts k)
         (k_channel k ++ [event]) true (k_shut k) (k_emitted k) (k_log k) (k_consumed k)
         (k_calls k) (k_ended_itself k)
  else k.

(** [run_inner] returns, and with it the receiver is dropped; a session that was
    not shut down leaves the engine's log as it is. *)
Definition returning (r : result str unit) (log : engine_log) (k : Kernel) : Kernel :=
  mkKernel (k_control k) (MEnd r) (k_owner k) (k_query k) (k_receipts k)
    (k_channel k) false (k_shut k) (k_emitted k) log (k_consumed k) (k_calls k)
    (k_ended_itself k).

(** Taking the lock, which blocks while another thread holds it. *)
Definition locking (holder : Holder) (k : Kernel) : option Kernel :=
  match cs_lock (k_control k) with
  | None => Some (with_control (set_lock (Some holder)) k)
  | Some _ => None
  end.
Definition unlocking (k : Kernel) : Kernel := with_control (set_lock None) k.
(** What [cancel_observation] does with the lock held. *)
Definition cancel_stored (k : Kernel) : Kernel :=
  with_control (λ c, set_cancelled (cs_stored c) c) k.

(** What follows [control.install]: a refused start ends here; otherwise the query
    thread is started and the session opened. *)
Definition opened_step (host : RelayUrl) (installed : bool) (k : Kernel) : Kernel :=
  if installed then
    match start_query_thread st with
    | Some error =>
        returning (Err ($"TTS29 could not start its query observer: " ++ error)) [] k
    | None =>
        let s := new_session configuration host in
        at_main (MLoop s) (at_query QRunning (emitting [snapshot s] k))
    end
  else returning (Ok ()) [] (shutting [] (with_control (set_cancelled true) k)).

(** [control.install], one access at a time, and what follows. *)
Definition install_step (host : RelayUrl) (i : InstallPc) (k : Kernel) : option Kernel :=
  match i with
  | IStart =>
      if cs_stopping (k_control k)
      then Some (at_main (MInstall host (IDone false)) (with_control (set_cancelled true) k))
      else Some (at_main (MInstall host ILock) k)
  | ILock => at_main (MInstall host ILocked) <$> locking Installer k
  | ILocked =>
      if cs_stopping (k_control k)
      then Some (at_main (MInstall host IRefuse) (with_control (set_cancelled true) k))
      else Some (at_main (MInstall host IStore) k)
  | IStore => Some (at_main (MInstall host IUnlock) (with_control set_stored k))
  | IUnlock => Some (at_main (MInstall host (IDone true)) (unlocking k))
  | IRefuse => Some (at_main (MInstall host (IDone false)) (unlocking k))
  | IDone installed => Some (opened_step host installed k)
  end.

(** The receipt thread that handling an event starts. *)
Definition new_receipts (s : Session) (event : RuntimeEvent) (m : Moment)
    : list ReceiptThread :=
  match event with
  | EvAction (SubmitAnswer item_id answers) =>
      match (submit_answer s (moment_now m) item_id answers).1 with
      | Ok receipt => [mkReceiptThread item_id receipt true]
      | Err _ => []
      end
  | _ => []
  end.

(** One turn of the loop: an event is received and handled. Of what other threads
    write it reads the stopping flag, once. *)
Definition loop_step (s : Session) (now : N) (spawn : option str) (k : Kernel)
    : option Kernel :=
  match k_channel k with
  | [] => None
  | event :: channel =>
      let m := mkMoment now spawn (cs_stopping (k_control k)) in
      let '(s', emitted, outcome) := Runtime.handle s event m in
      let k := emitting emitted (consuming event m channel k) in
      Some match outcome with
      | Continue =>
          at_main (MLoop s') (with_receipts (k_receipts k ++ new_receipts s event m) k)
      | Break => at_main (MLock s') k
      | Return error => returning (Err error) (se_log s') k
      end
  end.

(** One step of the kernel thread, at a time and with an answer to starting a
    thread, where it needs them. *)
Definition main_step (now : N) (spawn : option str) (k : Kernel) : option Kernel :=
  match k_main k with
  | MStart =>
      let k := emitting [lifecycle configuration KStarting] k in
      Some match start_engine st with
      | Some error => returning (Err ($"NMP engine refused startup: " ++ error)) [] k
      | None =>
          match relay_parse (cfg_relay configuration) with
          | None => returning (Err $"The configured NIP-29 host is invalid.") [] k
          | Some host =>
              match start_observe st with
              | Some error =>
                  returning (Err ($"NMP refused the group observation: " ++ error)) [] k
              | None => at_main (MInstall host IStart) k
              end
          end
      end
  | MInstall host i => install_step host i k
  | MLoop s => loop_step s now spawn k
  | MLock s => at_main (MCancel s) <$> locking Installer k
  | MCancel s => Some (at_main (MUnlock s) (cancel_stored k))
  | MUnlock s => Some (at_main (MShutdown s) (unlocking k))
  | MShutdown s => Some (at_main MJoinQuery (shutting (se_log (session_shutdown s)) k))
  | MJoinQuery =>
      _ ← reject_if (negb (bool_decide (k_query k = QEnded))); Some (at_main MJoinReceipts k)
  | MJoinReceipts =>
      _ ← reject_if (existsb rt_running (k_receipts k)); Some (returning (Ok ()) (k_log k) k)
  | MEnd r =>
      Some (at_main (MDone r) (emitting
        (match r with Ok _ => [] | Err error => [failed configuration error] end
           ++ [lifecycle configuration KStopped]) k))
  | MDone _ => None
  end.

(** One step of the owner inside a call: the send, or [control.stop()] and the
    join. *)
Definition owner_step (k : Kernel) : option Kernel :=
  match k_owner k with
  | OIdle | OReturned => None
  | OSend event => Some (at_owner OIdle (channel_send event k))
  | OStop SStart =>
      if cs_stopping (k_control k) then Some (at_owner (OStop SDone) k)
      else Some (at_owner (OStop SLock) (with_control set_stopping k))
  | OStop SLock => at_owner (OStop SLocked) <$> locking Stopper k
  | OStop SLocked => Some (at_owner (OStop SUnlock) (cancel_stored k))
  | OStop SUnlock => Some (at_owner (OStop SSend) (unlocking k))
  | OStop SSend => Some (at_owner (OStop SDone) (channel_send EvStop k))
  | OStop SDone => match k_main k with MDone _ => Some (at_owner OReturned k) | _ => None end
  end.

(** The owner makes a call: what has an event to send looks at the flag first. *)
Definition call_step (call : Call) (k : Kernel) : option Kernel :=
  match k_owner k with
  | OIdle =>
      Some match call_event decode_action call with
      | Some event =>
          if negb (cs_stopping (k_control k)) then at_owner (OSend event) (calling call k)
          else calling call k
      | None => calling call k
      end
  | _ => None
  end.
Definition stop_step (k : Kernel) : option Kernel :=
  match k_owner k with OIdle => Some (at_owner (OStop SStart) k) | _ => None end.

(** The query thread: a frame, or the end of the observation. It returns when
    the receiver is gone. *)
Definition frame_step (frame : Frame) (k : Kernel) : option Kernel :=
  _ ← reject_if (negb (bool_decide (k_query k = QRunning)));
  Some (if k_receiving k then channel_send (EvFrame frame) k else at_query QEnded k).
Definition query_end_step (k : Kernel) : option Kernel :=
  _ ← reject_if (negb (bool_decide (k_query k = QRunning)));
  Some (at_query QEnded (channel_send EvQueryClosed (ending_itself k))).

(** A receipt thread, in the same way. *)
Definition running_receipt (i : nat) (k : Kernel) : option ReceiptThread :=
  t ← k_receipts k !! i; _ ← reject_if (negb (rt_running t)); Some t.
Definition end_receipt (i : nat) (t : ReceiptThread) (k : Kernel) : Kernel :=
  with_receipts (<[i := mkReceiptThread (rt_item t) (rt_receipt t) false]> (k_receipts k)) k.
Definition status_step (i : nat) (status : WriteStatus) (k : Kernel) : option Kernel :=
  t ← running_receipt i k;
  Some (if k_receiving k
        then channel_send (EvReceiptStatus (rt_item t) (rt_receipt t) status) k
        else end_receipt i t k).
Definition receipt_end_step (i : nat) (k : Kernel) : option Kernel :=
  t ← running_receipt i k;
  Some (end_receipt i t (channel_send (EvReceiptClosed (rt_item t) (rt_receipt t)) k)).

Inductive KernelAction :=
  | AMain (now : N) (spawn : option str)
  | AOwner
  | ACall (call : Call)
  | AStop
  | AFrame (frame : Frame)
  | AQueryEnd
  | AStatus (i : nat) (status : WriteStatus)
  | AReceiptEnd (i : nat).

Definition kernel_step (a : KernelAction) (k : Kernel) : option Kernel :=
  match a with
  | AMain now spawn => main_step now spawn k
  | AOwner => owner_step k
  | ACall call => call_step call k
  | AStop => stop_step k
  | AFrame frame => frame_step frame k
  | AQueryEnd => query_end_step k
  | AStatus i status => status_step i status k
  | AReceiptEnd i => receipt_end_step i k
  end.

(** What the program does by itself, without a new input: its threads run, and
    the streams end that it has ended. *)
Definition own_step (k : Kernel) (a : KernelAction) : bool :=
  match a with
  | AMain _ _ | AOwner => true
  | AQueryEnd => cs_cancelled (k_control k)
  | AReceiptEnd _ => k_shut k
  | _ => false
  end.

(** An execution. *)
Fixpoint kernel_run (actions : list KernelAction) (k : Kernel) : option Kernel :=
  match actions with
  | [] => Some k
  | a :: actions => k ← kernel_step a k; kernel_run actions k
  end.

(** Everything that was sent while the receiver was there, in order. *)
Definition k_history (k : Kernel) : list RuntimeEvent := (k_consumed k).*1 ++ k_channel k.
End kernel.
