(* ===== verification/KernelFacts.v ===== *)
(** What the kernel guarantees as a concurrent machine ([Kernel]): its
    invariants, that it does what the sequential [run] does with the events it
    receives, that a stop takes all calls before it into account, and that
    [tts29_stop] returns. *)

From S2P Require Import Control.
From S2P Require Export Kernel.

(** The cases of a step of a machine whose fields are named. *)
Ltac kernel_cases Hs :=
  unfold kernel_step, main_step, install_step, opened_step, loop_step, owner_step, call_step,
    stop_step, frame_step, query_end_step, status_step, receipt_end_step, running_receipt,
    end_receipt, locking, channel_send, reject_if in Hs; simpl in *;
  repeat (case_match; simpl in *; simplify_eq/=); try done;
  simplify_option_eq; repeat (case_match; simpl in *; simplify_eq/=); try done.

Section facts.
Context `{Engine} (configuration : KernelConfiguration) (st : Startup)
        (decode_action : str → option AppAction).
Implicit Types k : Kernel.

Abbreviation step := (kernel_step configuration st decode_action).
Abbreviation exec := (kernel_run configuration st decode_action).

(** A property that every step keeps holds along executions. *)
Lemma exec_invariant (P : Kernel → Prop) actions k k' :
  (∀ a k1 k2, step a k1 = Some k2 → P k1 → P k2) →
  exec actions k = Some k' → P k → P k'.
Proof.
  intros HP. revert k. induction actions as [|a actions IH]; simpl; intros k Hk HPk.
  { by injection Hk as <-. }
  opt Hk as k1 H1. eapply IH; [done|]. by eapply HP.
Qed.

(** ** The lock, the flag and the cancellation *)

(** The kernel thread may still receive an event. *)
Definition looping (pc : MainPc) : bool :=
  match pc with MStart | MInstall _ _ | MLoop _ => true | _ => false end.
Definition main_holds (pc : MainPc) : bool :=
  match pc with MInstall _ i => holds_lock i | MCancel _ | MUnlock _ => true | _ => false end.
Definition owner_holds (pc : OwnerPc) : bool :=
  match pc with OStop s => holds_lock_stop s | _ => false end.
Definition owner_stopping (pc : OwnerPc) : bool :=
  match pc with OIdle | OSend _ | OStop SStart => false | _ => true end.
Definition has_stored (pc : MainPc) : bool :=
  match pc with
  | MInstall _ (IUnlock | IDone true) | MLoop _ | MLock _ | MCancel _ => true
  | _ => false
  end.
Definition has_cancelled (pc : MainPc) : bool :=
  match pc with
  | MUnlock _ | MShutdown _ | MJoinQuery | MJoinReceipts | MEnd (Ok _) | MDone (Ok _) => true
  | _ => false
  end.
Definition not_cancelled (pc : MainPc) : bool :=
  match pc with MLock _ | MCancel _ => true | _ => looping pc end.
Definition refused (pc : MainPc) : bool :=
  match pc with MInstall _ (IRefuse | IDone false) => true | _ => false end.

Record locks_inv (c : ControlState) (pc : MainPc) (o : OwnerPc) : Prop := {
  li_stopping : cs_stopping c = owner_stopping o;
  li_main : cs_lock c = Some Installer ↔ main_holds pc = true;
  li_owner : cs_lock c = Some Stopper ↔ owner_holds o = true;
  li_stored : has_stored pc = true → cs_stored c = true;
  li_cancelled : has_cancelled pc = true → cs_cancelled c = true;
  li_stop : not_cancelled pc = true → cs_cancelled c = true → cs_stopping c = true;
  li_refused : refused pc = true → cs_stopping c = true;
}.

Lemma step_locks a k k' :
  step a k = Some k' → locks_inv (k_control k) (k_main k) (k_owner k) →
  locks_inv (k_control k') (k_main k') (k_owner k').
Proof.
  intros Hs Hi. destruct k as [[sp so ca lo] pc o q rs ch rc sh em lg co cl ei].
  destruct a; kernel_cases Hs.
  all: destruct Hi; split; simpl in *; try done; try (intuition congruence);
    destruct so; simpl; intuition congruence.
Qed.

(** ** The threads *)
Definition ended (pc : MainPc) : bool :=
  match pc with MEnd _ | MDone _ => true | _ => false end.
Definition has_ended (pc : MainPc) : bool :=
  match pc with MDone _ => true | _ => false end.
Definition failing (pc : MainPc) : bool :=
  match pc with MEnd (Err _) | MDone (Err _) => true | _ => false end.
Definition has_shut (pc : MainPc) : bool :=
  match pc with MJoinQuery | MJoinReceipts | MEnd _ | MDone _ => true | _ => false end.
Definition query_inv (q : QueryPc) (pc : MainPc) : Prop :=
  match pc with
  | MStart | MInstall _ _ => q = QNone
  | MEnd (Err _) | MDone (Err _) => True
  | MEnd (Ok _) | MDone (Ok _) => q ≠ QRunning
  | MJoinReceipts => q = QEnded
  | _ => q ≠ QNone
  end.
Definition receipts_inv (receipts : list ReceiptThread) (pc : MainPc) : Prop :=
  match pc with
  | MStart | MInstall _ _ => receipts = []
  | MEnd (Ok _) | MDone (Ok _) => existsb rt_running receipts = false
  | _ => True
  end.

Record threads_inv k : Prop := {
  ti_receiving : k_receiving k = negb (ended (k_main k));
  ti_query : query_inv (k_query k) (k_main k);
  ti_receipts : receipts_inv (k_receipts k) (k_main k);
  ti_shut : failing (k_main k) = false → k_shut k = has_shut (k_main k);
  ti_owner : k_owner k = OReturned → has_ended (k_main k) = true;
}.

Lemma all_ended (receipts : list ReceiptThread) (i : nat) t :
  existsb rt_running receipts = false → receipts !! i = Some t → rt_running t = false.
Proof.
  intros He Hi. destruct (rt_running t) eqn:Ht; [|done]. rewrite <-He. symmetry.
  apply existsb_exists. exists t. split; [|done]. apply list_elem_of_In.
  by eapply list_elem_of_lookup_2.
Qed.

Lemma step_threads a k k' : step a k = Some k' → threads_inv k → threads_inv k'.
Proof.
  intros Hs Hi. destruct k as [[sp so ca lo] pc o q rs ch rc sh em lg co cl ei].
  destruct a; kernel_cases Hs.
  all: destruct Hi as [I1 I2 I3 I4 I5]; simpl in *; split; simpl in *; try done; try congruence;
    try (intros Ho; by apply I5 in Ho); try (by rewrite I3);
    destruct pc as [| | | | | | | | |[]|[]]; simpl in *; try done; try congruence;
    try (by rewrite I3 in *); (lazymatch goal with Hi : _ !! _ = Some _ |- _ =>
      apply (all_ended _ _ _ I3) in Hi; by rewrite Hi in * end).
Qed.

(** ** The channel *)
Definition external (l : list RuntimeEvent) : list RuntimeEvent :=
  filter (λ e, is_internal e = false) l.
Definition pending (o : OwnerPc) : list RuntimeEvent :=
  match o with OSend event => [event] | _ => [] end.
Definition stop_sent (o : OwnerPc) : list RuntimeEvent :=
  match o with OStop SDone | OReturned => [EvStop] | _ => [] end.

(** The owner's events are in the history in the order of the calls, save those
    that met a receiver that was gone. *)
Definition history_inv k : Prop :=
  Forall (λ e, is_internal e = false) (pending (k_owner k)) ∧
  ∃ lost, external (k_history k) ++ lost ++ pending (k_owner k)
    = omap (call_event decode_action) (k_calls k) ++ stop_sent (k_owner k) ∧
    (k_receiving k = true → lost = []).

(** What a step sends to the receiver. *)
Definition step_sends (a : KernelAction) k : list RuntimeEvent :=
  if negb (k_receiving k) then [] else
  match a, k_owner k with
  | AOwner, OSend event => [event]
  | AOwner, OStop SSend => [EvStop]
  | AFrame frame, _ => [EvFrame frame]
  | AQueryEnd, _ => [EvQueryClosed]
  | AStatus i status, _ =>
      match k_receipts k !! i with
      | Some t => [EvReceiptStatus (rt_item t) (rt_receipt t) status]
      | None => []
      end
  | AReceiptEnd i, _ =>
      match k_receipts k !! i with
      | Some t => [EvReceiptClosed (rt_item t) (rt_receipt t)]
      | None => []
      end
  | _, _ => []
  end.
Fixpoint sent_along (actions : list KernelAction) k : list RuntimeEvent :=
  match actions with
  | [] => []
  | a :: actions =>
      step_sends a k ++ match step a k with Some k' => sent_along actions k' | None => [] end
  end.

(** The channel is a queue: what was received and what is still in it is what was
    sent, in that order. *)
Lemma step_queue a k k' : step a k = Some k' → k_history k' = k_history k ++ step_sends a k.
Proof.
  intros Hs. destruct k as [[sp so ca lo] pc o q rs ch rc sh em lg co cl ei].
  unfold k_history, step_sends in *. simpl in *. destruct a; kernel_cases Hs.
  all: rewrite ?fmap_app, <-?(assoc_L (++)), ?app_nil_r; simpl; try done.
Qed.
Lemma exec_queue actions k k' :
  exec actions k = Some k' → k_history k' = k_history k ++ sent_along actions k.
Proof.
  revert k. induction actions as [|a actions IH]; simpl; intros k Hr.
  { injection Hr as <-. by rewrite app_nil_r. }
  opt Hr as k1 Hs. rewrite Hs, (assoc_L (++)), <-(step_queue _ _ _ Hs). by apply IH.
Qed.

Lemma external_snoc l e :
  external (l ++ [e]) = external l ++ (if decide (is_internal e = false) then [e] else []).
Proof. unfold external. rewrite filter_app, filter_cons. by case_decide. Qed.

Lemma step_history a k k' :
  step a k = Some k' → locks_inv (k_control k) (k_main k) (k_owner k) →
  history_inv k → history_inv k'.
Proof.
  intros Hs [Hli _ _ _ _ _ _] (Hp & lost & Hl & Hr).
  destruct k as [[sp so ca lo] pc o q rs ch rc sh em lg co cl ei].
  unfold history_inv, k_history in *. simpl in *. destruct a; kernel_cases Hs.
  all: rewrite ?fmap_app, <-?(assoc_L (++)), ?omap_app in *; simpl in *; simplify_option_eq;
    rewrite ?app_nil_r, ?(assoc_L (++) co.*1 ch) in *; rewrite ?external_snoc; simpl;
    try (by split; [|exists lost; rewrite ?app_nil_r]).
  - rewrite (Hr eq_refl) in Hl. simpl in Hl. split; [done|]. exists [].
    by rewrite app_nil_r, decide_True by (by apply Forall_inv in Hp).
  - split; [done|]. exists (lost ++ [event]). by rewrite app_nil_r.
  - rewrite (Hr eq_refl), app_nil_r in Hl. split; [done|]. exists []. by rewrite Hl, app_nil_r.
  - split; [done|]. exists (lost ++ [EvStop]). by rewrite app_nil_r, (assoc_L (++)), Hl.
  - split; [by constructor; [eapply call_event_external|]|]. exists lost.
    by rewrite (assoc_L (++)), Hl.
Qed.

(** The end of the observation is not in the history before it has ended. *)
Definition closed_inv k : Prop :=
  EvQueryClosed ∈ k_history k → k_ended_itself k = true ∨ cs_cancelled (k_control k) = true.

Lemma step_closed a k k' :
  step a k = Some k' → history_inv k → closed_inv k → closed_inv k'.
Proof.
  intros Hs [Hp _] Hc. destruct k as [[sp so ca lo] pc o q rs ch rc sh em lg co cl ei].
  unfold closed_inv, k_history in *. simpl in *. destruct a; kernel_cases Hs.
  all: rewrite ?fmap_app, <-?(assoc_L (++)), ?(assoc_L (++) co.*1 ch) in *; simpl in *;
    intros Hin; try (by destruct ca; simpl; rewrite ?orb_true_r; auto);
    try (apply elem_of_app in Hin as [Hin|Hin%list_elem_of_singleton]; [by auto|]); try done;
    try (by destruct (Hc Hin) as [-> | ->]; rewrite ?orb_true_r; auto).
  subst. by apply Forall_inv in Hp.
Qed.

(** What only the kernel thread changes. *)
Lemma step_others a k k' :
  step a k = Some k' → (∀ now spawn, a ≠ AMain now spawn) →
  k_main k' = k_main k ∧ k_consumed k' = k_consumed k ∧ k_emitted k' = k_emitted k ∧
  k_log k' = k_log k ∧ (k_ended_itself k' = false → k_ended_itself k = false) ∧
  (cs_stopping (k_control k) = true → cs_stopping (k_control k') = true).
Proof.
  intros Hs Ha. destruct k as [[sp so ca lo] pc o q rs ch rc sh em lg co cl ei].
  destruct a as [now spawn| | | | | | |]; [by destruct (Ha now spawn)|..]; kernel_cases Hs.
  all: split_and!; try done; try by intros [? ?]%orb_false_iff.
Qed.

Lemma handle_break s event m s' emitted :
  Runtime.handle s event m = (s', emitted, Break) →
  event = EvStop ∨ event = EvQueryClosed ∧ moment_stopping m = false.
Proof.
  unfold Runtime.handle. intros Hh. repeat case_match; simplify_eq; auto.
  right. by destruct (moment_stopping m).
Qed.
Lemma handle_continue s event m s' emitted :
  Runtime.handle s event m = (s', emitted, Continue) → event ≠ EvStop.
Proof. by destruct event. Qed.

(** The loop receives no stop before it ends; when it has ended in order, and the
    observation was not lost, then by a stop, or it never began. *)
Definition by_stop k : Prop :=
  ∃ before m, k_consumed k = before ++ [(EvStop, m)] ∧ EvStop ∉ before.*1.
Definition loop_inv k : Prop :=
  match k_main k with
  | MStart => k_consumed k = [] ∧ k_emitted k = []
  | MInstall _ _ => k_consumed k = [] ∧ k_emitted k = [lifecycle configuration KStarting]
  | MLoop _ => EvStop ∉ (k_consumed k).*1
  | MEnd (Err _) | MDone (Err _) => True
  | MEnd (Ok _) =>
      k_ended_itself k = false →
      k_consumed k = [] ∧ k_emitted k = [lifecycle configuration KStarting] ∨ by_stop k
  | MDone (Ok _) =>
      k_ended_itself k = false →
      k_consumed k = [] ∧ k_emitted k = lifecycle configuration <$> [KStarting; KStopped] ∨
      by_stop k
  | _ => k_ended_itself k = false → by_stop k
  end.

Lemma step_loop a k k' :
  step a k = Some k' → locks_inv (k_control k) (k_main k) (k_owner k) → closed_inv k →
  loop_inv k → loop_inv k'.
Proof.
  intros Hs Hi Hc Hl. destruct a as [now spawn| | | | | | |].
  2-8: pose proof (step_others _ _ _ Hs) as (Hm & Hco & He & _ & Hei & _); [done|];
    unfold loop_inv, by_stop in *; rewrite Hm, Hco, He;
    destruct (k_main k) as [| | | | | | | | |[]|[]]; auto.
  destruct Hi as [_ _ _ _ _ Hstop _].
  destruct k as [[sp so ca lo] pc o q rs ch rc sh em lg co cl ei].
  unfold loop_inv, closed_inv, by_stop, k_history in *. simpl in *. kernel_cases Hs.
  all: rewrite ?fmap_app; simpl in *.
  all: try (destruct Hl as [-> ->]; by auto); try (intros Hei; destruct (Hl Hei); by eauto).
  - destruct Hl as [-> _]. apply not_elem_of_nil.
  - lazymatch goal with Hh : Runtime.handle _ _ _ = _ |- _ => apply handle_continue in Hh end.
    rewrite not_elem_of_app, list_elem_of_singleton. naive_solver.
  - intros ->. lazymatch goal with Hh : Runtime.handle _ _ _ = _ |- _ =>
      apply handle_break in Hh as [-> |[-> Hm]]; [by eauto|] end.
    simpl in Hm. destruct Hc as [|Hca]; [set_solver|done|]. by rewrite Hstop in Hm.
  - intros Hei. destruct (Hl Hei) as [[-> ->]|]; auto.
Qed.

(** ** The loop and its specification *)

(** [run] as [Startup] has it, when the control accepted the cancellation or
    refused it. *)
Definition startup (installed : bool) : Startup :=
  mkStartup (start_engine st) (start_observe st) installed (start_query_thread st).

(** The loop, from its beginning, has come to this session. *)
Definition reached (s0 s : Session) (events : list (RuntimeEvent * Moment))
    (out : list QueueSnapshot) : Prop :=
  ∀ more, event_loop s0 (events ++ more) =
    let '(s', later, r) := event_loop s more in (s', out ++ later, r).

Definition starts (host : RelayUrl) : Prop :=
  start_engine st = None ∧ relay_parse (cfg_relay configuration) = Some host ∧
  start_observe st = None.
Definition loops host (P : Session → list QueueSnapshot → Prop) (k : Kernel) : Prop :=
  starts host ∧ start_query_thread st = None ∧
  ∃ out, k_emitted k = lifecycle configuration KStarting ::
           snapshot (new_session configuration host) :: out ∧
    P (new_session configuration host) out.
(** Refused, it has handled nothing, and the owner is stopping the kernel. *)
Definition refused_start k : Prop :=
  k_consumed k = [] ∧ cs_stopping (k_control k) = true.
Definition returned (r : result str unit) k : Prop :=
  ∃ installed out,
    run_inner configuration (startup installed) (k_consumed k) = (out, k_log k, r) ∧
    k_emitted k = lifecycle configuration KStarting :: out ∧
    (installed = false → refused_start k).

(** What the machine has emitted and received, wherever the kernel thread is, is
    what the sequential [run] does with the events it received. *)
Definition run_inv k : Prop :=
  match k_main k with
  | MStart => k_consumed k = [] ∧ k_emitted k = []
  | MInstall host _ =>
      starts host ∧ k_consumed k = [] ∧ k_emitted k = [lifecycle configuration KStarting]
  | MLoop s => ∃ host, loops host (λ s0 out, reached s0 s (k_consumed k) out) k
  | MLock s | MCancel s | MUnlock s | MShutdown s =>
      ∃ host, loops host (λ s0 out, event_loop s0 (k_consumed k) = (s, out, Ok ())) k
  | MJoinQuery | MJoinReceipts => returned (Ok ()) k
  | MEnd r => returned r k
  | MDone r =>
      ∃ installed, run configuration (startup installed) (k_consumed k) = (k_emitted k, k_log k)
        ∧ (run_inner configuration (startup installed) (k_consumed k)).2 = r
        ∧ (installed = false → refused_start k)
  end.

Lemma reached_nil s : reached s s [] [].
Proof. intros more. simpl. by destruct (event_loop s more) as [[? ?] ?]. Qed.
Lemma reached_end s0 s s' events out event m emitted outcome :
  reached s0 s events out → Runtime.handle s event m = (s', emitted, outcome) →
  outcome ≠ Continue →
  event_loop s0 (events ++ [(event, m)]) =
    (s', out ++ emitted, match outcome with Return error => Err error | _ => Ok () end).
Proof. intros Hr Hh Ho. rewrite Hr. simpl. rewrite Hh. by destruct outcome. Qed.
Lemma reached_continue s0 s s' events out event m emitted :
  reached s0 s events out → Runtime.handle s event m = (s', emitted, Continue) →
  reached s0 s' (events ++ [(event, m)]) (out ++ emitted).
Proof.
  intros Hr Hh more. rewrite <-(assoc_L (++)), Hr. simpl. rewrite Hh.
  destruct (event_loop s' more) as [[? ?] ?]. by rewrite (assoc_L (++)).
Qed.

Lemma inner_refused host events :
  starts host → run_inner configuration (startup false) events = ([], [], Ok ()).
Proof. intros (He & Hh & Ho). unfold run_inner. simpl. by rewrite He, Hh, Ho. Qed.
Lemma inner_no_thread host events error :
  starts host → start_query_thread st = Some error →
  run_inner configuration (startup true) events
    = ([], [], Err ($"TTS29 could not start its query observer: " ++ error)).
Proof. intros (He & Hh & Ho) Hq. unfold run_inner. simpl. by rewrite He, Hh, Ho, Hq. Qed.
Lemma inner_loops host events s out r :
  starts host → start_query_thread st = None →
  event_loop (new_session configuration host) events = (s, out, r) →
  run_inner configuration (startup true) events
    = (snapshot (new_session configuration host) :: out,
       match r with Ok _ => se_log (session_shutdown s) | Err _ => se_log s end, r).
Proof.
  intros (He & Hh & Ho) Hq Hl. unfold run_inner. simpl. rewrite He, Hh, Ho, Hq. simpl.
  rewrite Hl. destruct r as [[]|]; done.
Qed.
Lemma run_returned installed events out log r :
  run_inner configuration (startup installed) events = (out, log, r) →
  run configuration (startup installed) events =
    (lifecycle configuration KStarting :: out
       ++ match r with Ok _ => [] | Err error => [failed configuration error] end
       ++ [lifecycle configuration KStopped], log).
Proof. intros Hr. unfold run. by rewrite Hr. Qed.

Lemma returned_kept r k k' :
  k_consumed k' = k_consumed k → k_emitted k' = k_emitted k → k_log k' = k_log k →
  (cs_stopping (k_control k) = true → cs_stopping (k_control k') = true) →
  returned r k → returned r k'.
Proof.
  intros Hc He Hg Hs (installed & out & Hr & Ho & Hf). exists installed, out.
  rewrite Hc, He, Hg. split_and!; [done..|]. intros [Hn Hsp]%Hf. split; [by rewrite Hc|auto].
Qed.

Lemma step_run a k k' :
  step a k = Some k' → locks_inv (k_control k) (k_main k) (k_owner k) →
  run_inv k → run_inv k'.
Proof.
  intros Hs Hi Hl. destruct a as [now spawn| | | | | | | ].
  2-8: pose proof (step_others _ _ _ Hs) as (Hm & Hco & He & Hg & _ & Hst); [done|];
    revert Hl; unfold run_inv, loops; rewrite Hm, Hco, He; destruct (k_main k); try done;
    try by apply returned_kept.
  2-8: intros (installed & Hrun & Hr & Hf); exists installed; rewrite Hg;
    (split_and!; [done..|]); intros [Hc Hsp]%Hf; split; [by rewrite Hco|auto].
  pose proof (li_refused _ _ _ Hi) as Hsp. clear Hi.
  destruct k as [[sp so ca lo] pc o q rs ch rc sh em lg co cl ei].
  unfold run_inv, returned, loops, refused_start in *. simpl in *.
  destruct pc as [|host i|s|s|s|s|s| | |r|r].
  - destruct Hl as [-> ->]. kernel_cases Hs; exists true, []; (split; [|done]);
      unfold run_inner; simpl; by simplify_option_eq.
  - destruct Hl as (Hst & -> & ->). kernel_cases Hs; try done.
    + exists host. split_and!; try done. exists []. split; [done|apply reached_nil].
    + exists true, []. split; [|done]. by eapply inner_no_thread.
    + exists false, []. split; [by eapply inner_refused|]. split; [done|]. by rewrite Hsp.
  - destruct Hl as (host & Hst & Hq & out & -> & Hr). kernel_cases Hs.
    + exists host. split_and!; try done. eexists. split; [done|]. by eapply reached_continue.
    + exists host. split_and!; try done. eexists. split; [done|].
      lazymatch goal with Hh : Runtime.handle _ _ _ = _ |- _ =>
        by rewrite (reached_end _ _ _ _ _ _ _ _ _ Hr Hh) end.
    + eexists true, _. split; [|done].
      lazymatch goal with Hh : Runtime.handle _ _ _ = _ |- _ =>
        apply (inner_loops _ _ _ _ (Err error) Hst Hq), (reached_end _ _ _ _ _ _ _ _ _ Hr Hh)
      end; done.
  - kernel_cases Hs.
  - kernel_cases Hs.
  - kernel_cases Hs.
  - destruct Hl as (host & Hst & Hq & out & -> & Hr). kernel_cases Hs.
    eexists true, _. split; [|done]. by apply (inner_loops _ _ _ _ (Ok ()) Hst Hq).
  - kernel_cases Hs.
  - kernel_cases Hs.
  - simpl in Hs. injection Hs as <-. destruct Hl as (installed & out & Hr & -> & Hf). simpl.
    exists installed. by rewrite (run_returned _ _ _ _ _ Hr), Hr.
  - done.
Qed.

(** ** All invariants *)
Record kernel_inv k : Prop := {
  kv_locks : locks_inv (k_control k) (k_main k) (k_owner k);
  kv_threads : threads_inv k;
  kv_history : history_inv k;
  kv_closed : closed_inv k;
  kv_loop : loop_inv k;
  kv_run : run_inv k;
}.

Lemma kernel_new_inv : kernel_inv kernel_new.
Proof.
  split; try (split; simpl; naive_solver).
  - split; [constructor|]. exists []. by split.
  - intros Hin. by apply elem_of_nil in Hin.
Qed.

Lemma step_inv a k k' : step a k = Some k' → kernel_inv k → kernel_inv k'.
Proof.
  intros Hs []. split; by eauto using step_locks, step_threads, step_history, step_closed,
    step_loop, step_run.
Qed.

Lemma reachable_inv actions k : exec actions kernel_new = Some k → kernel_inv k.
Proof. intros Hk. eapply exec_invariant; [apply step_inv|done|apply kernel_new_inv]. Qed.

(** ** What a stop finds *)
Lemma elem_of_external e l : e ∈ external l → e ∈ l.
Proof. unfold external. by intros [_ ?]%list_elem_of_filter. Qed.

Lemma no_stop_call (calls : list Call) : EvStop ∉ omap (call_event decode_action) calls.
Proof.
  intros (call & _ & Hc)%list_elem_of_omap.
  destruct call as [[]|[]|[]| |]; simpl in Hc; repeat (opt Hc as x Hx); try done;
    by destruct (_ ≫= _).
Qed.

Lemma app_stop_inj {A} (a b c : list A) x : x ∉ c → a ++ x :: b = c ++ [x] → a = c.
Proof.
  intros Hx Hl. destruct (decide (b = [])) as [->|(b' & y & ->)%exists_last].
  - by apply app_inj_2 in Hl as [].
  - rewrite app_comm_cons, (assoc_L (++)) in Hl. apply app_inj_2 in Hl as [<- _]; [|done].
    set_solver.
Qed.

(** When the loop ended by a stop, it has handled every call before it. *)
Lemma by_stop_calls k :
  history_inv k → by_stop k →
  external (k_consumed k).*1 = omap (call_event decode_action) (k_calls k) ++ [EvStop].
Proof.
  intros (_ & lost & Hl & _) (before & m & Hc & Hb).
  unfold k_history in Hl. rewrite Hc, fmap_app in *. simpl in *.
  unfold external in *. rewrite !filter_app, <-!(assoc_L (++)) in *. simpl in *.
  destruct (stop_sent (k_owner k)) as [|e l] eqn:Ho.
  - destruct (no_stop_call (k_calls k)). rewrite app_nil_r in Hl. rewrite <-Hl. set_solver.
  - assert (e = EvStop ∧ l = []) as [-> ->]
      by (destruct (k_owner k) as [| |[]|]; by simplify_eq/=).
    f_equal. eapply (app_stop_inj _ _ _ _ (no_stop_call _) Hl).
Qed.

(** ** What is left to do *)

(** The events up to the first stop. *)
Fixpoint until_stop (l : list RuntimeEvent) : nat :=
  match l with
  | [] => 0
  | EvStop :: _ => 1
  | _ :: l => S (until_stop l)
  end.
Definition install_left (i : InstallPc) : nat :=
  match i with
  | IStart => 6 | ILock => 5 | ILocked => 4 | IStore => 3 | IUnlock | IRefuse => 2 | IDone _ => 1
  end.
Definition main_left (pc : MainPc) : nat :=
  match pc with
  | MStart => 20
  | MInstall _ i => 12 + install_left i
  | MLoop _ => 8
  | MLock _ => 7 | MCancel _ => 6 | MUnlock _ => 5 | MShutdown _ => 4
  | MJoinQuery => 3 | MJoinReceipts => 2 | MEnd _ => 1 | MDone _ => 0
  end.
Definition owner_left (pc : OwnerPc) : nat :=
  match pc with
  | OIdle => 0
  | OSend _ => 3
  | OStop SStart => 8 | OStop SLock => 7 | OStop SLocked => 6 | OStop SUnlock => 5
  | OStop SSend => 4 | OStop SDone => 1
  | OReturned => 0
  end.
Definition running_receipts (l : list ReceiptThread) : nat :=
  length (filter (λ t, rt_running t = true) l).

Definition channel_left (pc : MainPc) (channel : list RuntimeEvent) : nat :=
  if looping pc then 2 * until_stop channel else 0.
Definition query_left (q : QueryPc) : nat := if q is QRunning then 3 else 0.

(** A bound on the steps the program still makes by itself. An event in the
    channel counts twice, since handling it may start a receipt thread; a running
    query thread may still send one. *)
Definition kernel_measure k : nat :=
  main_left (k_main k) + owner_left (k_owner k) +
  channel_left (k_main k) (k_channel k) + query_left (k_query k) +
  running_receipts (k_receipts k).

(** The steps of an execution that the program makes by itself. *)
Fixpoint own_steps (actions : list KernelAction) (k : Kernel) : nat :=
  match actions with
  | [] => 0
  | a :: actions =>
      (if own_step k a then 1 else 0) +
      match step a k with Some k' => own_steps actions k' | None => 0 end
  end.

Definition stop_called k : Prop :=
  match k_owner k with OIdle | OSend _ => False | _ => True end.
(** A stop is on its way to the kernel thread, if that still needs one. *)
Definition stop_queued k : Prop := looping (k_main k) = true → EvStop ∈ k_channel k.

Lemma until_stop_snoc l e : until_stop (l ++ [e]) ≤ S (until_stop l).
Proof. induction l as [|x l IH]; [by destruct e|]. destruct x; simpl in *; lia. Qed.
Lemma until_stop_stop l e : EvStop ∈ l → until_stop (l ++ [e]) = until_stop l.
Proof.
  induction l as [|x l IH]; [by intros ?%elem_of_nil|]. simpl.
  intros [<-|Hin]%elem_of_cons; [done|]. rewrite (IH Hin). by destruct x.
Qed.
Lemma until_stop_cons e l : e ≠ EvStop → until_stop (e :: l) = S (until_stop l).
Proof. by destruct e. Qed.

Lemma running_receipts_app l1 l2 :
  running_receipts (l1 ++ l2) = running_receipts l1 + running_receipts l2.
Proof. unfold running_receipts. by rewrite filter_app, length_app. Qed.
Lemma new_receipts_running s event m : running_receipts (new_receipts s event m) ≤ 1.
Proof.
  destruct event as [[]| | | | | | | | |]; unfold running_receipts; simpl; try lia.
  case_match; simpl; lia.
Qed.
Lemma running_receipts_end l i t :
  l !! i = Some t → rt_running t = true →
  running_receipts l =
    S (running_receipts (<[i := mkReceiptThread (rt_item t) (rt_receipt t) false]> l)).
Proof.
  intros Hi Ht. pose proof (lookup_lt_Some _ _ _ Hi) as Hlt.
  rewrite <-(take_drop_middle l i t Hi) at 1. rewrite insert_take_drop by done.
  rewrite !running_receipts_app. unfold running_receipts. rewrite !filter_cons. simpl.
  rewrite decide_True by done. simpl. lia.
Qed.

Lemma channel_left_snoc pc l e :
  channel_left pc (l ++ [e]) ≤ channel_left pc l + 2 ∧
  ((looping pc = true → EvStop ∈ l) → channel_left pc (l ++ [e]) = channel_left pc l).
Proof.
  unfold channel_left. destruct (looping pc); [|split; lia].
  pose proof (until_stop_snoc l e). split; [lia|]. intros Hs. by rewrite until_stop_stop by auto.
Qed.

(** An own step brings the measure down; anything else that happens while the
    owner stops the kernel adds at most one event to the channel, behind the stop
    once that is queued. *)
Lemma step_measure a k k' :
  step a k = Some k' → locks_inv (k_control k) (k_main k) (k_owner k) → threads_inv k →
  if own_step k a then kernel_measure k' < kernel_measure k
  else stop_called k → kernel_measure k' ≤ kernel_measure k + 2 ∧
    (stop_queued k → kernel_measure k' ≤ kernel_measure k).
Proof.
  intros Hs [Hli _ _ _ _ _ _] [Hr Hq _ Hsh _].
  destruct k as [[sp so ca lo] pc o q rs ch rc sh em lg co cl ei].
  assert (stop_called (mkKernel (mkControlState sp so ca lo) pc o q rs ch rc sh em lg co cl ei)
    → o ≠ OIdle) as Hidle by (by unfold stop_called; destruct o).
  assert (looping pc = true → sh = false) as Hlive 
    by (intros Hp; simpl in *; destruct pc; simpl in *; try done; by apply Hsh).
  unfold stop_queued. revert Hidle. generalize (stop_called
    (mkKernel (mkControlState sp so ca lo) pc o q rs ch rc sh em lg co cl ei)).
  intros called Hidle. simpl in *. destruct a; kernel_cases Hs.
  all: unfold kernel_measure; cbn -[Nat.mul Nat.add until_stop running_receipts];
    try (intros Hc; by apply Hidle in Hc);
    try match goal with |- context [channel_left ?pc (?ch ++ [?e])] =>
      destruct (channel_left_snoc pc ch e) as [Hle Heq] end;
    try match goal with Hi : _ !! _ = Some ?t |- _ =>
      assert (rt_running t = true) as Hrt by (by destruct (rt_running t));
      pose proof (running_receipts_end _ _ _ Hi Hrt) end;
    try lia; try (intros _; split; [lia|intros Hst; try specialize (Heq Hst); lia]).
  - lazymatch goal with Hh : Runtime.handle _ _ _ = _ |- _ => apply handle_continue in Hh end.
    rewrite until_stop_cons, running_receipts_app by done.
    lazymatch goal with |- context [new_receipts ?s ?e ?m] =>
      pose proof (new_receipts_running s e m) end. lia.
  - unfold channel_left in *. destruct (looping pc); [by specialize (Hlive eq_refl)|lia].
Qed.

(** ** Progress *)
Lemma sent_stop_queued k : kernel_inv k → stop_sent (k_owner k) = [EvStop] → stop_queued k.
Proof.
  intros [_ [Hr _ _ _ _] (_ & lost & Hl & Hlost) _ Hloop _] Hs Hp.
  assert (EvStop ∈ k_history k) as Hin.
  { rewrite Hlost, Hs in Hl by (rewrite Hr; by destruct (k_main k)).
    apply elem_of_external. simpl in Hl.
    assert (EvStop ∈ external (k_history k) ++ pending (k_owner k)) as Hin
      by (rewrite Hl; set_solver).
    apply elem_of_app in Hin as [|Hin]; [done|].
    destruct (k_owner k); simpl in *; try done; by apply elem_of_nil in Hin. }
  apply elem_of_app in Hin as [Hin|]; [|done]. unfold loop_inv in Hloop.
  destruct (k_main k); try done; destruct Hloop as [Hc _]; rewrite Hc in Hin;
    by apply elem_of_nil in Hin.
Qed.

Lemma step_stop_called a k k' : step a k = Some k' → stop_called k → stop_called k'.
Proof.
  intros Hs Hc. destruct k as [[sp so ca lo] pc o q rs ch rc sh em lg co cl ei].
  unfold stop_called in *. destruct a; kernel_cases Hs.
Qed.

(** The kernel thread only ever waits for an event, for the lock, and for its
    threads. *)
Lemma main_progress now spawn k :
  kernel_inv k → (looping (k_main k) = true → k_channel k ≠ []) →
  has_ended (k_main k) = false →
  is_Some (step (AMain now spawn) k) ∨ cs_lock (k_control k) = Some Stopper ∨
  ∃ a, own_step k a = true ∧ is_Some (step a k).
Proof.
  intros [[_ Hlm Hlo _ Hca _ _] [_ Hq _ Hsh _] _ _ _ _] Hch He.
  assert (main_holds (k_main k) = false → is_Some (locking Installer k) ∨
    cs_lock (k_control k) = Some Stopper) as Hlock.
  { intros Hm. unfold locking. destruct (cs_lock (k_control k)) as [[]|]; eauto.
    rewrite Hm in Hlm. destruct Hlm as [Hlm _]. by specialize (Hlm eq_refl). }
  simpl. unfold main_step, install_step, loop_step, own_step.
  destruct (k_main k) as [|host [| | | | | |[]]|s|s|s|s|s| | |r|r]; simpl in *; eauto.
  - case_match; eauto.
  - destruct Hlock as [[k1 ->]|]; simpl; eauto.
  - case_match; eauto.
  - destruct (k_channel k); [by destruct Hch|].
    destruct (Runtime.handle _ _ _) as [[? ?] []]; eauto.
  - destruct Hlock as [[k1 ->]|]; simpl; eauto.
  - destruct (k_query k) eqn:Hk; simpl; eauto; [done|]. right. right. exists AQueryEnd.
    simpl. unfold query_end_step. rewrite Hk. simpl. eauto.
  - destruct (existsb rt_running (k_receipts k)) eqn:Hx; simpl; eauto. right. right.
    apply existsb_exists in Hx as (t & [i Ht]%list_elem_of_In%list_elem_of_lookup_1 & Hr).
    exists (AReceiptEnd i). rewrite Hsh by done. split; [done|]. simpl.
    unfold receipt_end_step, running_receipt. rewrite Ht. simpl. rewrite Hr. simpl. eauto.
  - done.
Qed.

Lemma kernel_progress k :
  kernel_inv k → stop_called k → k_owner k ≠ OReturned →
  ∃ a, own_step k a = true ∧ is_Some (step a k).
Proof.
  intros Hk Hc Ho. unfold stop_called in Hc. pose proof Hk as [[_ Hlm Hlo _ _ _ _] _ _ _ _ _].
  assert (owner_step k = None → ∃ a, own_step k a = true ∧ is_Some (step a k)) as Hgen.
  { intros Hn. assert (cs_lock (k_control k) = Some Stopper → False) as Hns.
    { intros Hl. rewrite Hl in Hlo. destruct Hlo as [Hlo _]. specialize (Hlo eq_refl).
      unfold owner_step in Hn. by destruct (k_owner k) as [| |[]|]. }
    assert (has_ended (k_main k) = false) as He.
    { unfold owner_step, locking in Hn. destruct (k_main k) eqn:Hm; try done. exfalso.
      destruct (k_owner k) as [| |[]|] eqn:Hok; try done; [by case_match|].
      destruct (cs_lock (k_control k)) as [[]|] eqn:Hl; try done.
      destruct Hlm as [Hlm _]. by specialize (Hlm eq_refl). }
    destruct (cs_lock (k_control k)) as [[]|] eqn:Hl; [|by destruct Hns|].
    - exists (AMain 0 None). split; [done|]. destruct Hlm as [Hlm _]. specialize (Hlm eq_refl).
      simpl. unfold main_step, install_step.
      destruct (k_main k) as [|host [| | | | | |[]]|s|s|s|s|s| | |r|r]; try done;
        destruct (cs_stopping (k_control k)); eauto.
    - destruct (main_progress 0 None k Hk) as [|[Hs|]];
        [|done|by exists (AMain 0 None)|congruence|done].
      intros Hp. intros Hnil. unfold owner_step, locking in Hn.
      assert (stop_sent (k_owner k) = [EvStop]) as Hsent.
      { rewrite Hl in Hn.
        destruct (k_owner k) as [| |[]|]; try done. by case_match. }
      specialize (sent_stop_queued k Hk Hsent Hp). rewrite Hnil. apply not_elem_of_nil. }
  destruct (owner_step k) as [k1|] eqn:Hn; [|by apply Hgen].
  exists AOwner. simpl. rewrite Hn. eauto.
Qed.

Lemma step_stop_sent a k k' :
  step a k = Some k' → stop_sent (k_owner k) = [EvStop] → stop_sent (k_owner k') = [EvStop].
Proof.
  intros Hs Hc. destruct k as [[sp so ca lo] pc o q rs ch rc sh em lg co cl ei].
  destruct a; kernel_cases Hs.
Qed.

Lemma exec_measure actions k k' :
  kernel_inv k → stop_called k → exec actions k = Some k' →
  own_steps actions k ≤ length actions ∧
  own_steps actions k + kernel_measure k' ≤
    kernel_measure k + 2 * (length actions - own_steps actions k) ∧
  (stop_sent (k_owner k) = [EvStop] →
   own_steps actions k + kernel_measure k' ≤ kernel_measure k).
Proof.
  revert k. induction actions as [|a actions IH]; intros k Hk Hc Hr.
  { injection Hr as <-. simpl. lia. }
  simpl in *. opt Hr as k1 Hs. rewrite Hs.
  pose proof (step_measure _ _ _ Hs (kv_locks _ Hk) (kv_threads _ Hk)) as Hm.
  destruct (IH k1) as (Hlen & Hany & Hsent); [by eapply step_inv|by eapply step_stop_called|done|].
  destruct (own_step k a); [split_and!; try lia; intros Ho|].
  { specialize (Hsent (step_stop_sent _ _ _ Hs Ho)). lia. }
  destruct (Hm Hc) as [Hm1 Hm2]. split_and!; try lia. intros Ho.
  specialize (Hm2 (sent_stop_queued _ Hk Ho)). specialize (Hsent (step_stop_sent _ _ _ Hs Ho)).
  lia.
Qed.

Lemma own_run k :
  kernel_inv k → stop_called k →
  ∃ actions k', exec actions k = Some k' ∧ own_steps actions k = length actions ∧
    length actions ≤ kernel_measure k ∧ k_owner k' = OReturned.
Proof.
  remember (kernel_measure k) as n eqn:Hn. revert k Hn.
  induction (lt_wf n) as [n _ IH]. intros k -> Hk Hc.
  destruct (decide (owner_left (k_owner k) = 0)) as [Ho|Ho].
  { exists [], k. split_and!; try done; [simpl; lia|]. unfold stop_called in Hc.
    by destruct (k_owner k) as [| |[]|]. }
  destruct (kernel_progress k Hk Hc) as (a & Ha & k1 & Hs); [intros Hr; by rewrite Hr in Ho|].
  pose proof (step_measure _ _ _ Hs (kv_locks _ Hk) (kv_threads _ Hk)) as Hm. rewrite Ha in Hm.
  destruct (IH _ Hm k1) as (actions & k' & Hr & Hown & Hle & Hk'); [done|by eapply step_inv|
    by eapply step_stop_called|].
  exists (a :: actions), k'. simpl. rewrite Hs, Ha, Hown. split_and!; try done. lia.
Qed.
End facts.

(** C12: the kernel as a concurrent machine does what the sequential [run] does.
    However the owner, the kernel thread, the query thread and the receipt threads
    interleave, a kernel thread that has ended has emitted the snapshots, left
    the engine's log and got the result that [run] computes from the events it
    received, with the cancellation accepted or refused; and it received what was
    sent, in that order and without a gap. It is refused only when the owner stops the
    kernel while it starts, and then it handles nothing. *)
Theorem kernel_refines_run `{Engine} configuration st decode_action actions k r :
  kernel_run configuration st decode_action actions kernel_new = Some k →
  k_main k = MDone r →
  (k_consumed k).*1 `prefix_of` sent_along configuration st decode_action actions kernel_new ∧
  ∃ installed,
    run configuration (startup st installed) (k_consumed k) = (k_emitted k, k_log k) ∧
    (run_inner configuration (startup st installed) (k_consumed k)).2 = r ∧
    (installed = false → stop_called k ∧ k_consumed k = []).
Proof.
  intros Hexec Hm. split.
  { apply exec_queue in Hexec. simpl in Hexec. rewrite <-Hexec. by eexists. }
  apply reachable_inv in Hexec as [Hl _ _ _ _ Hr]. unfold run_inv in Hr. rewrite Hm in Hr.
  destruct Hr as (installed & Hrun & Hres & Hf). exists installed. split_and!; [done..|].
  intros [Hc Hs]%Hf. split; [|done]. rewrite (li_stopping _ _ _ Hl) in Hs.
  unfold stop_called. by destruct (k_owner k).
Qed.

(** C10: what stopping the kernel does. When [tts29_stop] has returned, the kernel
    thread has ended. If the observation did not end by itself, then either
    something failed, which was the last thing shown before [Stopped]; or no
    thread of the kernel runs any more, the observation is cancelled, the engine
    shut down and without a registered account, and every call that was made
    before the stop has been handled, in the order of the calls, the stop last.
    Only when the stop came while the kernel was starting are the calls not
    handled; then nothing but the lifecycle was shown. *)
Theorem stop_takes_calls `{Engine} configuration st decode_action actions k :
  kernel_run configuration st decode_action actions kernel_new = Some k →
  k_owner k = OReturned → k_ended_itself k = false →
  (∃ error shown, k_main k = MDone (Err error) ∧
     k_emitted k = shown ++ [failed configuration error; lifecycle configuration KStopped]) ∨
  k_main k = MDone (Ok ()) ∧
  k_query k ≠ QRunning ∧ existsb rt_running (k_receipts k) = false ∧
  cs_cancelled (k_control k) = true ∧ k_shut k = true ∧ live (k_log k) = [] ∧
  (external (k_consumed k).*1 = omap (call_event decode_action) (k_calls k) ++ [EvStop] ∨
   k_consumed k = [] ∧ k_emitted k = lifecycle configuration <$> [KStarting; KStopped]).
Proof.
  intros [[_ _ _ _ Hca _ _] [_ Hq Hrc Hsh Ho] Hhist _ Hloop Hrun]%reachable_inv Hret Hei.
  specialize (Ho Hret). unfold loop_inv, run_inv in *.
  destruct (k_main k) as [| | | | | | | | | |[[]|error]] eqn:Hm; try done; simpl in *.
  - right. split_and!; try done; try by auto.
    + destruct Hrun as (installed & Hr & Hres & _). unfold run in Hr.
      destruct (run_inner _ _ _) as [[out log] r] eqn:Hi. simpl in Hres. subst r.
      injection Hr as _ <-. by eapply run_inner_released.
    + destruct (Hloop Hei) as [|Hs]; [by right|left]. by apply by_stop_calls.
  - left. destruct Hrun as (installed & Hr & Hres & _). unfold run in Hr.
    destruct (run_inner _ _ _) as [[out log] r]. simpl in Hres. subst r.
    injection Hr as He _. exists error, (lifecycle configuration KStarting :: out).
    by rewrite <-He.
Qed.

(** C9: [tts29_stop] returns. From any state the kernel can be in when it was
    called, in every execution the program takes only a bounded number of steps
    by itself: each event of the observation or of a receipt that arrives adds two
    at most, and none once the stop event was sent, whatever still arrives. As long
    as [tts29_stop] has not returned one of these steps can be taken, so that no
    thread waits for a lock, an event or another thread for ever; and a run of
    them leads to its return. *)
Theorem stop_returns `{Engine} configuration st decode_action before k actions k' :
  kernel_run configuration st decode_action before kernel_new = Some k → stop_called k →
  kernel_run configuration st decode_action actions k = Some k' →
  let own := own_steps configuration st decode_action in
  own actions k ≤ kernel_measure k + 2 * (length actions - own actions k) ∧
  (k_owner k = OStop SDone → own actions k ≤ kernel_measure k) ∧
  (k_owner k' = OReturned ∨
   ∃ a, own_step k' a = true ∧ is_Some (kernel_step configuration st decode_action a k')) ∧
  ∃ rest k'', kernel_run configuration st decode_action rest k' = Some k'' ∧
    own rest k' = length rest ∧ length rest ≤ kernel_measure k' ∧ k_owner k'' = OReturned.
Proof.
  intros Hk%reachable_inv Hc Hr own.
  destruct (exec_measure _ _ _ _ _ _ Hk Hc Hr) as (_ & Hany & Hsent).
  assert (kernel_inv configuration st decode_action k') as Hk'
    by (by eapply exec_invariant; [apply step_inv|..]).
  assert (stop_called k') as Hc'
    by (by eapply exec_invariant; [apply step_stop_called|..]).
  split_and!.
  - unfold own. lia.
  - intros Ho. rewrite Ho in Hsent. specialize (Hsent eq_refl). unfold own. lia.
  - destruct (decide (owner_left (k_owner k') = 0)) as [Ho|Ho].
    + left. unfold stop_called in Hc'. by destruct (k_owner k') as [| |[]|].
    + right. apply kernel_progress; [done..|]. intros Hret. by rewrite Hret in Ho.
  - by apply own_run.
Qed.

(** A kernel that signs in while it starts, shows an item, answers it, and is
    stopped; a status of the answer, a frame and the end of the observation arrive
    while it stops. *)
Module Example_kernel.
Import Example_nmp Example_engine.
Definition st : Startup := mkStartup None None true None.
Definition main : KernelAction := AMain 9 None.
Definition decode_action (text : str) : option AppAction :=
  if text =?s $"answer"
  then Some (SubmitAnswer Example_session.root Example_session.answers) else None.
Definition machine : list KernelAction → Kernel → option Kernel :=
  kernel_run Example_session.cfg st decode_action.
Definition frame : Frame := mkFrame (Some [Example_parse.item_row 49 5]) (mkEvidence 1 0).
Definition life : list KernelAction :=
  [main; main; ACall (CallRestoreLogin (Some $"secret")); main; main; AOwner;
   main; main; main; main;
   AFrame frame; ACall (CallDispatch (Some $"answer")); main; AOwner; main;
   ACall (CallDispatch None); AStatus 0 StatusOther; AOwner; main; AStop; AOwner].
Definition stopping : list KernelAction :=
  [AOwner; AFrame frame; AStatus 0 StatusOther; AOwner; AQueryEnd; AOwner; main; main; main; main;
   AOwner] ++ repeat main 6 ++ [AReceiptEnd 0; main; main; AOwner].
Definition lived : option Kernel := machine life kernel_new.
Definition stopped : option Kernel := machine (life ++ stopping) kernel_new.
End Example_kernel.

Lemma kernel_refines_run_witness :
  ∃ k, Example_kernel.stopped = Some k ∧ length (k_consumed k) = 9 ∧
    ∃ installed, run Example_session.cfg (startup Example_kernel.st installed) (k_consumed k)
      = (k_emitted k, k_log k).
Proof.
  assert (((λ k, (length (k_consumed k),
      match k_main k with MDone (Ok _) => true | _ => false end))
    <$> Example_kernel.stopped) = Some (9, true)) as Hf by (vm_compute; reflexivity).
  destruct Example_kernel.stopped as [k|] eqn:Hs; [|discriminate Hf].
  exists k. split; [reflexivity|]. cbn [fmap option_fmap option_map] in Hf.
  destruct (k_main k) as [| | | | | | | | | |[[]|]] eqn:Hm; try discriminate Hf.
  injection Hf as Hlen. split; [exact Hlen|].
  destruct (@kernel_refines_run Example_nmp.nip29 Example_engine.engine Example_session.cfg
    Example_kernel.st Example_kernel.decode_action _ k _ Hs Hm) as (_ & installed & Hr & _ & _).
  exists installed. exact Hr.
Defined.

Lemma stop_takes_calls_witness :
  ∃ k, Example_kernel.stopped = Some k ∧ k_main k = MDone (Ok ()) ∧
    k_query k ≠ QRunning ∧ live (k_log k) = [].
Proof.
  assert (((λ k, (match k_main k with MDone (Ok _) => true | _ => false end,
    match k_owner k with OReturned => true | _ => false end, k_ended_itself k))
    <$> Example_kernel.stopped) = Some (true, true, false)) as Hf by (vm_compute; reflexivity).
  destruct Example_kernel.stopped as [k|] eqn:Hs; [|discriminate Hf].
  exists k. split; [reflexivity|]. cbn [fmap option_fmap option_map] in Hf.
  destruct (k_main k) as [| | | | | | | | | |[[]|]] eqn:Hm; try discriminate Hf.
  destruct (k_owner k) eqn:Ho; try discriminate Hf. injection Hf as He. split; [reflexivity|].
  destruct (@stop_takes_calls Example_nmp.nip29 Example_engine.engine Example_session.cfg
    Example_kernel.st Example_kernel.decode_action _ k Hs Ho He)
    as [(error & shown & Hd & _)|(_ & Hq & _ & _ & _ & Hl & _)];
    [rewrite Hm in Hd; discriminate Hd|].
  split; [exact Hq|exact Hl].
Defined.

Lemma stop_returns_witness :
  ∃ k k', Example_kernel.lived = Some k ∧ stop_called k ∧ kernel_measure k = 21 ∧
    Example_kernel.machine Example_kernel.stopping k = Some k' ∧
    ∃ rest k'', Example_kernel.machine rest k' = Some k'' ∧ k_owner k'' = OReturned.
Proof.
  assert (((λ k, (match k_owner k with OStop SLock => true | _ => false end, kernel_measure k,
      match Example_kernel.machine Example_kernel.stopping k with
      | Some _ => true | None => false end))
    <$> Example_kernel.lived) = Some (true, 21, true)) as Hf by (vm_compute; reflexivity).
  destruct Example_kernel.lived as [k|] eqn:Hs; [|discriminate Hf].
  cbn [fmap option_fmap option_map] in Hf.
  destruct (k_owner k) as [| |[]|] eqn:Ho; try discriminate Hf.
  destruct (Example_kernel.machine Example_kernel.stopping k) as [k'|] eqn:Hr; [|discriminate Hf].
  injection Hf as Hm.
  assert (stop_called k) as Hc by (unfold stop_called; rewrite Ho; exact I).
  exists k, k'. split; [reflexivity|]. split; [exact Hc|]. split; [exact Hm|].
  split; [exact Hr|].
  destruct (@stop_returns Example_nmp.nip29 Example_engine.engine Example_session.cfg
    Example_kernel.st Example_kernel.decode_action _ k _ k' Hs Hc Hr)
    as (_ & _ & _ & rest & k'' & Hrest & _ & _ & Hk).
  exists rest, k''. split; [exact Hrest|exact Hk].
Defined.
