(* ===== verification/KernelAccounts.v ===== *)
(** Who is signed in and who publishes, at every moment in the life of the kernel:
    what its calls to the engine amount to, over all interleavings of its
    threads. *)

From S2P Require Export KernelFacts.

Section accounts.
Context `{Engine, !Nip29Laws} (configuration : KernelConfiguration) (host : RelayUrl).

(** ** A log that is as it should be *)

(** An answer, by the one account that is registered and active, to the group. *)
Definition published_by (log : engine_log) (intent : WriteIntent) : Prop :=
  ∃ r, live log = [r] ∧ active log = Some (public_key r) ∧
    identity_override intent = Some (public_key r) ∧
    unsigned_pubkey (intent_payload intent) = public_key r ∧
    unsigned_kind (intent_payload intent) = 9%N ∧
    intent_host intent = host ∧
    [$"h"; cfg_group_id configuration] ∈ unsigned_tags (intent_payload intent).

(** One call, after those of the log. *)
Definition call_fine (log : engine_log) (call : EngineCall AccountRegistration WriteIntent)
    : Prop :=
  length (live (log ++ [call])) ≤ 1 ∧
  match call with PublishTracked intent _ => published_by log intent | _ => True end.
Definition log_fine (log : engine_log) : Prop :=
  ∀ before call after, log = before ++ call :: after → call_fine before call.

Lemma log_fine_nil : log_fine [].
Proof. intros [] ? ? ?; done. Qed.
Lemma log_fine_snoc log call : log_fine log → call_fine log call → log_fine (log ++ [call]).
Proof.
  intros Hl Hc before call' after Heq.
  destruct (decide (after = [])) as [->|(after' & x & ->)%exists_last].
  - apply app_inj_2 in Heq as [-> [= ->]]; done.
  - rewrite app_comm_cons, (assoc_L (++)) in Heq. apply app_inj_2 in Heq as [-> _]; [|done].
    by eapply Hl.
Qed.
Lemma log_fine_live log : log_fine log → length (live log) ≤ 1.
Proof.
  intros Hl. destruct (decide (log = [])) as [->|(log' & call & ->)%exists_last]; [simpl; lia|].
  by apply (Hl log' call []).
Qed.

Lemma remove_one_length r l : length (remove_one r l) ≤ length l.
Proof. induction l as [|x l IH]; simpl; [lia|]. case_decide; simpl; lia. Qed.

Lemma fine_remove log r : log_fine log → log_fine (remove_account log r).
Proof.
  intros Hl. apply log_fine_snoc; [done|]. split; [|done]. rewrite live_snoc. simpl.
  pose proof (remove_one_length r (live log)). pose proof (log_fine_live _ Hl). lia.
Qed.
Lemma fine_active log key : log_fine log → log_fine (set_active_account log key).2.
Proof.
  intros Hl. apply log_fine_snoc; [done|]. split; [|done]. rewrite live_snoc.
  by apply log_fine_live.
Qed.
Lemma fine_add log secret :
  log_fine log → live log = [] → log_fine (add_account log secret).2.
Proof.
  intros Hl Hn. apply log_fine_snoc; [done|]. split; [|done]. rewrite live_snoc, Hn.
  simpl. destruct (on_add_account log secret); simpl; lia.
Qed.

Lemma fine_activate c log r pk : log_fine log → log_fine (activate c log r pk).2.
Proof.
  intros Hl. unfold activate. pose proof (fine_active log (Some (public_key r)) Hl) as Hs.
  destruct (set_active_account _ _) as [[error|] log']; simpl in *; [by apply fine_remove|done].
Qed.
Lemma fine_detach c log : log_fine log → log_fine (detach c log).2.
Proof.
  intros Hl. unfold detach. pose proof (fine_active log None Hl) as Hs.
  destruct (set_active_account _ _) as [? log']. destruct (id_account c); simpl in *;
    [by apply fine_remove|done].
Qed.
Lemma fine_shutdown c log : log_fine log → log_fine (shutdown c log).2.
Proof.
  intros Hl. unfold shutdown. apply fine_detach.
  destruct (id_pending c) as [[]|]; try done. by apply fine_remove.
Qed.
Lemma fine_login c log secret persist :
  identity_inv c log → log_fine log → log_fine (login c log secret persist).2.
Proof.
  intros Hi Hl. unfold login. destruct c as [[r|] snapshot [p|] next]; simpl; try done.
  pose proof (fine_add log secret Hl (inv_live _ _ Hi)) as Ha. simpl in Ha.
  destruct (on_add_account log secret) as [r|]; [|done].
  destruct persist; [done|by apply fine_activate].
Qed.
Lemma fine_credential_result c log id succeeded error :
  log_fine log → log_fine (credential_result c log id succeeded error).2.
Proof.
  intros Hl. unfold credential_result. destruct (id_pending c) as [p|]; [|done].
  destruct (negb _); [done|]. destruct p, succeeded; simpl.
  - by apply fine_activate.
  - by apply fine_remove.
  - pose proof (fine_detach (mkIdentity (id_account c) (id_snapshot c) None (id_next_request c))
      log Hl) as Hd. by destruct (detach _ _).
  - done.
Qed.

(** ** The session *)

(** The parts of a session that do not change. *)
Definition session_for (s : Session) : Prop :=
  se_host s = host ∧ cfg_group_id (se_configuration s) = cfg_group_id configuration.

Lemma prepare_answer_published s now id answers intent :
  identity_inv (se_identity s) (se_log s) → session_for s →
  prepare_answer s now id answers = Ok intent → published_by (se_log s) intent.
Proof using All.
  intros Hi [Hhost Hgroup] Hp.
  apply prepare_answer_ok in Hp as (r & item & _ & Hlive & Ha & _ & _ & _ & _ & Hh & Ho & content &
    Hpay); [|done].
  exists r. rewrite Hpay, Hh, Ho, <-Hgroup. split_and!; try done. by left.
Qed.

Record session_fine (s : Session) : Prop := {
  sf_inv : identity_inv (se_identity s) (se_log s);
  sf_for : session_for s;
  sf_log : log_fine (se_log s);
}.

Lemma identity_steps_inv x y :
  rtc identity_step x y → identity_inv x.1 x.2 → identity_inv y.1 y.2.
Proof. induction 1 as [|x y z Hs _ IH]; [done|]. intros Hx. by eapply IH, identity_step_inv. Qed.

Lemma submit_fine s now id answers r s' :
  session_fine s → submit_answer s now id answers = (r, s') →
  session_for s' ∧ log_fine (se_log s').
Proof using All.
  intros [Hi Hf Hl] Hs. unfold submit_answer, publish_tracked in Hs.
  destruct (prepare_answer s now id answers) as [intent|e] eqn:Hp; [|by injection Hs as _ <-].
  assert (log_fine (se_log s ++ [PublishTracked intent (on_publish (se_log s) intent)])) as Hfine.
  { apply log_fine_snoc; [done|]. split; [|by eapply prepare_answer_published].
    rewrite live_snoc. by apply log_fine_live. }
  destruct (on_publish (se_log s) intent); by injection Hs as _ <-.
Qed.

Lemma handle_fine s event m s' out o :
  Runtime.handle s event m = (s', out, o) → session_fine s → session_fine s'.
Proof using All.
  intros Hh Hs. pose proof (handle_identity _ _ _ _ _ _ Hh) as Hi.
  apply identity_steps_inv in Hi; [|apply Hs]. simpl in Hi.
  enough (session_for s' ∧ log_fine (se_log s')) as [? ?] by by split.
  pose proof Hs as [Hinv Hf Hl]. revert Hh.
  destruct event as [[id answers|]|e|secret persist|e|rid ok e|frame| |id rid st|id rid|];
    simpl.
  - destruct (submit_answer _ _ _ _) as [r s1] eqn:Es.
    apply (submit_fine _ _ _ _ _ _ Hs) in Es. destruct r; [destruct (moment_spawn m)|];
      by intros [= <- _ _].
  - by intros [= <- _ _].
  - by intros [= <- _ _].
  - unfold session_login. pose proof (fine_login _ _ secret persist Hinv Hl) as Hlog.
    destruct (login _ _ _ _). by intros [= <- _ _].
  - by intros [= <- _ _].
  - unfold session_credential_result.
    pose proof (fine_credential_result (se_identity s) _ rid ok e Hl) as Hlog.
    destruct (credential_result _ _ _ _ _). by intros [= <- _ _].
  - destruct (frame_window frame); by intros [= <- _ _].
  - destruct (negb _); by intros [= <- _ _].
  - intros [= <- _ _]. unfold receipt_status. destruct (se_submissions s !! id); [|done].
    by destruct (negb _).
  - intros [= <- _ _]. unfold receipt_closed. destruct (se_submissions s !! id); [|done].
    by destruct (_ && _).
  - by intros [= <- _ _].
Qed.

Lemma new_session_fine : session_fine (new_session configuration host).
Proof using. split; [apply inv_new|done|apply log_fine_nil]. Qed.

(** ** The machine *)
Context (st : Startup) (decode_action : str → option AppAction).
Hypothesis relay : relay_parse (cfg_relay configuration) = Some host.

(** The calls made so far. *)
Definition kernel_log (k : Kernel) : engine_log :=
  match k_main k with
  | MLoop s | MLock s | MCancel s | MUnlock s | MShutdown s => se_log s
  | _ => k_log k
  end.

Definition accounts_inv (k : Kernel) : Prop :=
  match k_main k with
  | MStart => k_log k = []
  | MInstall host' _ => host' = host ∧ k_log k = []
  | MLoop s | MLock s | MCancel s | MUnlock s | MShutdown s => session_fine s
  | _ => log_fine (k_log k)
  end.

Lemma step_accounts a k k' :
  kernel_step configuration st decode_action a k = Some k' → accounts_inv k → accounts_inv k'.
Proof using All.
  intros Hs Hi. destruct a as [now spawn| | | | | | | ].
  2-8: pose proof (step_others _ _ _ _ _ _ Hs) as (Hm & _ & _ & Hg & _); [done|];
    unfold accounts_inv in *; by rewrite Hm, Hg.
  destruct k as [[sp so ca lo] pc o q rs ch rc sh em lg co cl ei].
  unfold accounts_inv in *. simpl in *. kernel_cases Hs.
  all: try apply log_fine_nil; try (by destruct Hi as [-> _]; apply new_session_fine);
    try (lazymatch goal with Hh : Runtime.handle _ _ _ = _ |- _ =>
      apply handle_fine in Hh; [|done] end); try done; try (by apply sf_log).
  apply sf_log in Hi. apply (fine_shutdown (se_identity s)) in Hi. unfold session_shutdown.
  by destruct (shutdown _ _).
Qed.

Lemma accounts_reachable actions k :
  kernel_run configuration st decode_action actions kernel_new = Some k →
  log_fine (kernel_log k).
Proof using All.
  intros Hk. assert (accounts_inv k) as Hi.
  { eapply exec_invariant; [apply step_accounts|exact Hk|done]. }
  unfold accounts_inv, kernel_log in *.
  destruct (k_main k); try done; try (by apply sf_log); [rewrite Hi|destruct Hi as [_ ->]];
    apply log_fine_nil.
Qed.
End accounts.

(** C11: the life of the kernel, whatever its owner calls, whatever arrives and
    however its threads interleave. At every moment at most one account is
    registered with the engine, and whatever was published is an answer by the one
    account that was registered and active at that moment, for the configured
    group at its host. When the kernel thread has ended, it has shown a starting
    snapshot first and a stopped one last, listening ones in between, and a failed
    one just before the end exactly when it failed; and if it did not, no account is
    left. (The engine is taken to remove an account when it is asked to.) *)
Theorem kernel_life `{Engine, !Nip29Laws} configuration st decode_action actions k :
  kernel_run configuration st decode_action actions kernel_new = Some k →
  (∀ host, relay_parse (cfg_relay configuration) = Some host →
     log_fine configuration host (kernel_log k)) ∧
  ∀ r, k_main k = MDone r → ∃ middle,
    Forall (λ q, snapshot_phase q = KListening) middle ∧
    k_emitted k = lifecycle configuration KStarting :: middle ++
      match r with Ok _ => [] | Err error => [failed configuration error] end ++
      [lifecycle configuration KStopped] ∧
    (r = Ok () → live (k_log k) = []).
Proof.
  intros Hk. split; [intros host Hhost; by eapply accounts_reachable|].
  intros r Hm. apply reachable_inv, kv_run in Hk. unfold run_inv in Hk. rewrite Hm in Hk.
  destruct Hk as (installed & Hrun & Hres & _). unfold run in Hrun.
  destruct (run_inner _ _ _) as [[out log] r'] eqn:Hi. simpl in Hres. subst r'.
  injection Hrun as Hem <-. exists out. split_and!; [by eapply run_inner_listening|by rewrite <-Hem|].
  intros ->. by eapply run_inner_released.
Qed.

Lemma kernel_life_witness :
  ∃ k, Example_kernel.stopped = Some k ∧ live (k_log k) = [] ∧
    length (k_log k) = 5 ∧
    log_fine Example_session.cfg (mkRelayUrl $"wss://relay.example") (kernel_log k).
Proof.
  assert (((λ k, (length (k_log k), match k_main k with MDone (Ok _) => true | _ => false end))
    <$> Example_kernel.stopped) = Some (5, true)) as Hf by (vm_compute; reflexivity).
  destruct Example_kernel.stopped as [k|] eqn:Hs; [|discriminate Hf].
  exists k. split; [reflexivity|]. cbn [fmap option_fmap option_map] in Hf.
  destruct (k_main k) as [| | | | | | | | | |[[]|]] eqn:Hm; try discriminate Hf.
  injection Hf as Hlen.
  destruct (@kernel_life Example_nmp.nip29 Example_engine.engine Example_nmp.nip29_laws
    Example_session.cfg Example_kernel.st Example_kernel.decode_action _ k Hs) as [Hlog Hend].
  destruct (Hend _ Hm) as (middle & _ & _ & Hlive).
  split; [exact (Hlive eq_refl)|]. split; [exact Hlen|]. apply Hlog. reflexivity.
Defined.
