(* ===== verification/Cancel.v ===== *)
(** Cancelling an answer wait ([AnswerWaitCancel] in
    [daemon/src/answer_wait.rs]): the waiting thread installs the cancellation
    of its observation while any number of other threads may call [cancel]. The
    threads run concurrently, one atomic load, store, lock operation or write
    at a time; the protocol refines an object whose two operations are atomic. *)

From S2P Require Export Prelude.

(** Where the waiting thread is in [install]. *)
Inductive InstallAt :=
  | InStart                     (** before the first load of [cancelled] *)
  | InLock                      (** it was false; before taking the lock *)
  | InLocked                    (** holding the lock, before the second load *)
  | InStore                     (** it was false; before [*stored = Some(observation)] *)
  | InRefuse (locked : bool)    (** a load was true; before [observation.cancel()] *)
  | InUnlock (installed : bool) (** before releasing the lock *)
  | InReturned (installed : bool).

(** Where a thread is in [cancel]. *)
Inductive CancelAt :=
  | CaStart                     (** before [cancelled.store(true)] *)
  | CaLock                      (** before taking the lock *)
  | CaLocked                    (** holding the lock, before looking at [observation] *)
  | CaUnlock                    (** before releasing the lock *)
  | CaReturned.

Inductive Thread := Installer | Canceller (i : nat).

#[export] Instance install_at_eq_dec : EqDecision InstallAt.
Proof. solve_decision. Defined.
#[export] Instance cancel_at_eq_dec : EqDecision CancelAt.
Proof. solve_decision. Defined.
#[export] Instance thread_eq_dec : EqDecision Thread.
Proof. solve_decision. Defined.

(** [AnswerWaitCancel], whether the cancellation of the observation was called,
    and where the threads are. *)
Record AnswerWaitCancel := mkCancel {
  ac_cancelled : bool;
  ac_observation : bool;
  ac_observation_cancelled : bool;
  ac_lock : option Thread;
  ac_install : InstallAt;
  ac_cancels : list CancelAt;
}.

(** [AnswerWaitCancel::new], with [n] threads about to cancel. *)
Definition cancel_new (n : nat) : AnswerWaitCancel :=
  mkCancel false false false None InStart (replicate n CaStart).

(** ** One step of a thread; [None] when it has returned or waits for the lock *)
Definition install (s : AnswerWaitCancel) : option AnswerWaitCancel :=
  let '(mkCancel flag stored obs lock at_ cancels) := s in
  match at_ with
  | InStart =>
      Some (mkCancel flag stored obs lock (if flag then InRefuse false else InLock) cancels)
  | InLock =>
      match lock with
      | None => Some (mkCancel flag stored obs (Some Installer) InLocked cancels)
      | Some _ => None
      end
  | InLocked =>
      Some (mkCancel flag stored obs lock (if flag then InRefuse true else InStore) cancels)
  | InStore => Some (mkCancel flag true obs lock (InUnlock true) cancels)
  | InRefuse locked =>
      Some (mkCancel flag stored true lock
              (if locked then InUnlock false else InReturned false) cancels)
  | InUnlock installed => Some (mkCancel flag stored obs None (InReturned installed) cancels)
  | InReturned _ => None
  end.

Definition cancel (i : nat) (s : AnswerWaitCancel) : option AnswerWaitCancel :=
  let '(mkCancel flag stored obs lock at_ cancels) := s in
  match cancels !! i with
  | Some CaStart => Some (mkCancel true stored obs lock at_ (<[i:=CaLock]> cancels))
  | Some CaLock =>
      match lock with
      | None => Some (mkCancel flag stored obs (Some (Canceller i)) at_ (<[i:=CaLocked]> cancels))
      | Some _ => None
      end
  | Some CaLocked =>
      Some (mkCancel flag stored (stored || obs) lock at_ (<[i:=CaUnlock]> cancels))
  | Some CaUnlock => Some (mkCancel flag stored obs None at_ (<[i:=CaReturned]> cancels))
  | Some CaReturned | None => None
  end.

Definition thread_step (t : Thread) : AnswerWaitCancel → option AnswerWaitCancel :=
  match t with Installer => install | Canceller i => cancel i end.

Definition cancel_step (s s' : AnswerWaitCancel) : Prop :=
  ∃ t, thread_step t s = Some s'.

(** ** The specification: both operations are atomic *)
Record CancelSpec := mkSpec {
  sp_requested : list bool;        (** the calls of [cancel] that have happened *)
  sp_installed : option bool;      (** what [install] returned *)
  sp_cancelled : bool;             (** whether the observation is cancelled *)
}.

Definition spec_new (n : nat) : CancelSpec := mkSpec (replicate n false) None false.

Inductive spec_step : CancelSpec → CancelSpec → Prop :=
  | spec_install requested cancelled :
      let was_cancelled := existsb id requested in
      spec_step (mkSpec requested None cancelled)
        (mkSpec requested (Some (negb was_cancelled)) (was_cancelled || cancelled))
  | spec_cancel i requested installed cancelled :
      requested !! i = Some false →
      spec_step (mkSpec requested installed cancelled)
        (mkSpec (<[i:=true]> requested) installed
           (bool_decide (installed = Some true) || cancelled)).

(** What an outside observer can tell of a state: [install] happens at its last
    load of the flag, [cancel] when it sets the flag. *)
Definition requested_at (c : CancelAt) : bool := negb (bool_decide (c = CaStart)).
Definition installed_at (i : InstallAt) : option bool :=
  match i with
  | InStart | InLock | InLocked => None
  | InStore => Some true
  | InRefuse _ => Some false
  | InUnlock installed | InReturned installed => Some installed
  end.
Definition abstraction (s : AnswerWaitCancel) : CancelSpec :=
  mkSpec (requested_at <$> ac_cancels s) (installed_at (ac_install s))
    (ac_cancelled s && negb (is_none (installed_at (ac_install s)))).

(** ** The invariant *)
Definition install_holds (i : InstallAt) : bool :=
  match i with InLocked | InStore | InRefuse true | InUnlock _ => true | _ => false end.
Definition cancel_holds (c : CancelAt) : bool :=
  match c with CaLocked | CaUnlock => true | _ => false end.
Definition past_cancel (c : CancelAt) : bool :=
  match c with CaUnlock | CaReturned => true | _ => false end.

Record cancel_inv (s : AnswerWaitCancel) : Prop := {
  ai_flag : ac_cancelled s = existsb requested_at (ac_cancels s);
  ai_lock_install : ac_lock s = Some Installer ↔ install_holds (ac_install s) = true;
  ai_lock_cancel i : ac_lock s = Some (Canceller i) ↔
    ∃ c, ac_cancels s !! i = Some c ∧ cancel_holds c = true;
  ai_stored : ac_observation s = true ↔
    ac_install s = InUnlock true ∨ ac_install s = InReturned true;
  ai_refuse : (∃ h, ac_install s = InRefuse h) → ac_cancelled s = true;
  ai_refused : ac_install s = InUnlock false ∨ ac_install s = InReturned false →
    ac_observation_cancelled s = true;
  ai_store : ac_install s = InStore →
    ∀ i c, ac_cancels s !! i = Some c → past_cancel c = false;
  ai_cancel i c : ac_cancels s !! i = Some c → past_cancel c = true →
    ac_observation s = true → ac_observation_cancelled s = true;
  ai_only_requested : ac_observation_cancelled s = true →
    ac_cancelled s = true ∧ is_Some (installed_at (ac_install s));
}.

Lemma existsb_insert {A} (f : A → bool) l i x y :
  l !! i = Some y → f x = f y → existsb f (<[i:=x]> l) = existsb f l.
Proof.
  intros Hi Hf. rewrite <-(take_drop_middle l i y Hi) at 2.
  rewrite (insert_take_drop l i x) by by eapply lookup_lt_Some.
  rewrite !existsb_app. simpl. by rewrite Hf.
Qed.

Lemma existsb_insert_true {A} (f : A → bool) l i x :
  i < length l → f x = true → existsb f (<[i:=x]> l) = true.
Proof.
  intros Hi Hf. rewrite (insert_take_drop l i x) by done.
  rewrite existsb_app. simpl. by rewrite Hf, orb_true_r.
Qed.

Lemma cancel_new_inv n : cancel_inv (cancel_new n).
Proof.
  split; simpl; try naive_solver.
  - by induction n.
  - intros i. split; [done|]. intros (c & [-> _]%lookup_replicate & ?). done.
Qed.

Lemma no_requests cancels i c :
  existsb requested_at cancels = false → cancels !! i = Some c → c = CaStart.
Proof.
  rewrite existsb_False, Forall_lookup. intros Hall Hc. specialize (Hall _ _ Hc).
  by apply negb_false_iff, bool_decide_eq_true in Hall.
Qed.

Lemma install_inv s s' : install s = Some s' → cancel_inv s → cancel_inv s'.
Proof.
  destruct s as [flag stored obs lock at_ cancels]. intros Hs [H1 H2 H3 H4 H5 H6 H7 H8 H9].
  assert (∀ locked, at_ = InRefuse locked → flag = true) as Hrefuse by eauto.
  destruct at_ as [| | | |locked|installed|]; simpl in *; try done;
    [injection Hs as <-; destruct flag|destruct lock; [done|injection Hs as <-]
    |injection Hs as <-; destruct flag|injection Hs as <-
    |injection Hs as <-; rewrite (Hrefuse _ eq_refl) in *; destruct locked
    |injection Hs as <-; destruct installed];
    split; simpl; try done; try (intuition congruence); try (by intros [? ?]).
  - intros i. by rewrite <-H3.
  - intros _ i c Hc. by rewrite (no_requests cancels i c) by done.
  - intros i c Hc. by rewrite (H7 eq_refl i c).
  - intros i. rewrite <-H3. destruct H2 as [_ H2]. by rewrite (H2 eq_refl).
  - intros i. rewrite <-H3. destruct H2 as [_ H2]. by rewrite (H2 eq_refl).
Qed.

(** What is known of the other threads when one moves from [c] to [c']. *)
Lemma holds_insert (P : CancelAt → bool) (l : list CancelAt) i j c c' :
  l !! i = Some c →
  (∃ x, <[i:=c']> l !! j = Some x ∧ P x = true) ↔
  (if decide (j = i) then P c' = true else ∃ x, l !! j = Some x ∧ P x = true).
Proof.
  intros Hi%lookup_lt_Some. case_decide as Hj.
  - subst j. rewrite list_lookup_insert_eq by done. naive_solver.
  - by rewrite list_lookup_insert_ne.
Qed.

Lemma all_insert (P : CancelAt → Prop) (l : list CancelAt) i c' :
  (∀ j x, l !! j = Some x → P x) → P c' →
  ∀ j x, <[i:=c']> l !! j = Some x → P x.
Proof. intros Hl Hc j x [(_ & <- & _)|[_ ?]]%list_lookup_insert_Some; eauto. Qed.

Lemma requested_insert (l : list CancelAt) i c c' :
  l !! i = Some c → c ≠ CaStart → c' ≠ CaStart →
  existsb requested_at (<[i:=c']> l) = existsb requested_at l.
Proof.
  intros Hi Hc Hc'. apply (existsb_insert _ _ _ _ c); [done|].
  unfold requested_at. by rewrite !bool_decide_eq_false_2.
Qed.

Lemma cancel_inv_step i s s' : cancel i s = Some s' → cancel_inv s → cancel_inv s'.
Proof.
  destruct s as [flag stored obs lock at_ cancels]. intros Hs [H1 H2 H3 H4 H5 H6 H7 H8 H9].
  simpl in *. destruct (cancels !! i) as [c|] eqn:Hi; [|done].
  pose proof (lookup_lt_Some _ _ _ Hi) as Hlt.
  assert (cancel_holds c = true → install_holds at_ = false ∧ lock = Some (Canceller i)) as Hc.
  { intros Hc. assert (lock = Some (Canceller i)) as Hl by (apply H3; eauto).
    split; [|done]. apply not_true_iff_false. rewrite <-H2. congruence. }
  destruct c; [injection Hs as <-|destruct lock; [done|injection Hs as <-]
    |injection Hs as <-..|done]; try (specialize (Hc eq_refl) as [Hnot ->]);
    split; simpl; try done; try (intuition congruence);
    try (intros j; rewrite (holds_insert _ _ _ _ _ _ Hi); case_decide; [subst j|rewrite <-H3]);
    try (erewrite requested_insert by done; done);
    try (intros Hst; apply (all_insert (λ c, past_cancel c = false)); [by apply H7|done]);
    try (apply (all_insert (λ c, past_cancel c = true → stored = true → obs = true)); [done|]);
    try (by intros ->); try done.
  - by rewrite existsb_insert_true.
  - split; [|done]. intros (c & Hc' & Hh)%H3. by rewrite Hi in Hc'; injection Hc' as <-.
  - split; [by intros [= ->]|done].
  - by intros ->%H6; rewrite orb_true_r.
  - by intros j c _ _ ->.
  - intros [->|Hobs]%orb_true_iff; [|by apply H9].
    split; [|destruct H4 as [[->| ->] _]; [done|eauto..]].
    rewrite H1. apply existsb_True. exists CaLocked. split; [by eapply list_elem_of_lookup_2|done].
  - split; [done|by intros [= ->]].
  - intros _. by apply (H8 i CaUnlock).
Qed.

Lemma cancel_step_inv s s' : cancel_step s s' → cancel_inv s → cancel_inv s'.
Proof. intros [[|i] Hs]; [by eapply install_inv|by eapply cancel_inv_step]. Qed.

(** ** The refinement *)

Lemma refused_requested s :
  cancel_inv s → installed_at (ac_install s) = Some false → ac_cancelled s = true.
Proof.
  intros [] Hi. destruct (ac_install s); simplify_eq/=; eauto; by apply ai_only_requested0, ai_refused0; auto.
Qed.

Lemma requested_existsb (l : list CancelAt) :
  existsb id (requested_at <$> l) = existsb requested_at l.
Proof. induction l as [|c l IH]; [done|]. simpl. by f_equal. Qed.

(** [install] happens at the load that decides it. *)
Lemma install_simulates flag stored obs lock at_ at_' lock' stored' obs' cancels :
  flag = existsb requested_at cancels →
  installed_at at_ = None → installed_at at_' = Some (negb flag) →
  spec_step (abstraction (mkCancel flag stored obs lock at_ cancels))
    (abstraction (mkCancel flag stored' obs' lock' at_' cancels)).
Proof.
  intros Hflag Ha Ha'. unfold abstraction. simpl. rewrite Ha, Ha', andb_false_r, andb_true_r.
  pose proof (spec_install (requested_at <$> cancels) false) as Hs. simpl in Hs.
  by rewrite requested_existsb, <-Hflag, orb_false_r in Hs.
Qed.

(** [cancel] happens when it sets the flag. *)
Lemma cancel_simulates s i :
  cancel_inv s → ac_cancels s !! i = Some CaStart →
  spec_step (abstraction s)
    (abstraction (mkCancel true (ac_observation s) (ac_observation_cancelled s) (ac_lock s)
       (ac_install s) (<[i:=CaLock]> (ac_cancels s)))).
Proof.
  intros Hinv Hi. unfold abstraction at 2. simpl. rewrite list_fmap_insert.
  assert (negb (is_none (installed_at (ac_install s))) =
    bool_decide (installed_at (ac_install s) = Some true) || sp_cancelled (abstraction s)) as ->.
  { unfold abstraction. simpl. destruct (installed_at (ac_install s)) as [[]|] eqn:Ha; simpl.
    - done.
    - by rewrite (refused_requested s Hinv Ha).
    - by rewrite andb_false_r. }
  apply spec_cancel. simpl. by rewrite list_lookup_fmap, Hi.
Qed.

Lemma abstraction_moves flag stored stored' obs obs' lock lock' at_ at_' cancels i c c' :
  installed_at at_ = installed_at at_' →
  cancels !! i = Some c → c ≠ CaStart → c' ≠ CaStart →
  abstraction (mkCancel flag stored obs lock at_ (<[i:=c']> cancels)) =
  abstraction (mkCancel flag stored' obs' lock' at_' cancels).
Proof.
  intros Ha Hi Hc Hc'. unfold abstraction. simpl. rewrite Ha, list_fmap_insert. f_equal.
  apply list_insert_id. rewrite list_lookup_fmap, Hi. simpl. unfold requested_at.
  by rewrite !bool_decide_eq_false_2.
Qed.

(** Every step of a thread is one step of the specification, or none. *)
Lemma cancel_step_simulates s s' :
  cancel_inv s → cancel_step s s' →
  abstraction s' = abstraction s ∨ spec_step (abstraction s) (abstraction s').
Proof.
  intros Hinv [[|i] Hs].
  - destruct Hinv as [Hflag _ _ _ _ _ _ _ _]. destruct s as [flag stored obs lock at_ cancels].
    simpl in *. destruct at_ as [| | | |locked|installed|installed]; [| destruct lock| | | | |done];
      try done; injection Hs as <-; try (by left); try (by destruct locked; left);
      destruct flag eqn:Hf; try (by left); right; apply install_simulates; congruence || done.
  - pose proof (cancel_simulates s i Hinv) as Hsim. destruct s as [flag stored obs lock at_ cancels].
    simpl in *. destruct (cancels !! i) as [c|] eqn:Hi; [|done].
    destruct c; [|destruct lock| | |done]; try done; injection Hs as <-;
      [by right; apply Hsim|..]; left; by eapply abstraction_moves.
Qed.

(** How often a thread can still move. *)
Definition install_left (i : InstallAt) : nat :=
  match i with
  | InStart => 5 | InLock => 4 | InLocked => 3 | InStore | InRefuse true => 2
  | InRefuse false | InUnlock _ => 1 | InReturned _ => 0
  end.
Definition cancel_left (c : CancelAt) : nat :=
  match c with CaStart => 4 | CaLock => 3 | CaLocked => 2 | CaUnlock => 1 | CaReturned => 0 end.
Definition steps_left (s : AnswerWaitCancel) : nat :=
  install_left (ac_install s) + sum_list_with cancel_left (ac_cancels s).

Lemma cancel_step_left s s' : cancel_step s s' → steps_left s' < steps_left s.
Proof.
  intros [[|i] Hs]; destruct s as [flag stored obs lock at_ cancels]; simpl in *.
  - destruct at_ as [| | | |[]| |]; [|destruct lock|..]; try done; injection Hs as <-;
      unfold steps_left; simpl; try destruct flag; simpl; lia.
  - destruct (cancels !! i) as [c|] eqn:Hi; [|done].
    destruct c; [|destruct lock| | |done]; try done; injection Hs as <-; unfold steps_left; simpl;
      match goal with |- context [<[i:=?c']> _] => pose proof (sum_list_insert cancel_left _ _ _ c' Hi) end;
      simpl in *; lia.
Qed.

Lemma cancel_simulates_all s s' :
  cancel_inv s → rtc cancel_step s s' →
  cancel_inv s' ∧ rtc spec_step (abstraction s) (abstraction s').
Proof.
  intros Hinv Hs. induction Hs as [|s s1 s2 Hs _ IH]; [done|].
  destruct IH as [Hinv2 Hsim]; [by eapply cancel_step_inv|]. split; [done|].
  destruct (cancel_step_simulates s s1 Hinv Hs) as [<-|?]; [done|by eapply rtc_l].
Qed.

(** Some thread can move, or all of them have returned. *)
Lemma cancel_progress s :
  cancel_inv s →
  (∃ s', cancel_step s s') ∨
  (∃ b, ac_install s = InReturned b) ∧ Forall (λ c, c = CaReturned) (ac_cancels s).
Proof.
  intros [_ Hli Hlc _ _ _ _ _ _]. destruct (ac_lock s) as [[|i]|] eqn:Hl.
  - left. destruct Hli as [Hli _]. specialize (Hli eq_refl).
    destruct s as [flag stored obs lock at_ cancels]; simpl in *.
    destruct at_; try done; eexists; by exists Installer.
  - left. destruct (proj1 (Hlc i) eq_refl) as (c & Hc & Hh).
    destruct s as [flag stored obs lock at_ cancels]; simpl in *.
    destruct c; try done; eexists; exists (Canceller i); simpl; by rewrite Hc.
  - destruct s as [flag stored obs lock at_ cancels]; simpl in *. subst lock.
    destruct (decide (Forall (λ c, c = CaReturned) cancels)) as [Hall|Hsome].
    + destruct at_; try (left; eexists; by exists Installer). right. eauto.
    + left. apply not_Forall_Exists in Hsome; [|intros c; apply _].
      apply Exists_exists in Hsome as (c & Hin & Hc).
      apply list_elem_of_lookup in Hin as [i Hi].
      destruct c; try (by destruct Hc); eexists; exists (Canceller i); simpl; by rewrite Hi.
Qed.

Lemma cancel_steps_bound k s s' : nsteps cancel_step k s s' → k + steps_left s' ≤ steps_left s.
Proof.
  induction 1 as [|k s s1 s2 Hs _ IH]; [lia|]. apply cancel_step_left in Hs. lia.
Qed.

Lemma cancel_new_left n : steps_left (cancel_new n) = 5 + 4 * n.
Proof.
  assert (sum_list_with cancel_left (replicate n CaStart) = 4 * n) as Hn
    by (induction n as [|n IH]; simpl; lia).
  unfold steps_left. simpl. lia.
Qed.

(** C20: however the waiting thread and any number of cancelling threads
    interleave, the protocol refines the object whose [install] and [cancel]
    are atomic: what the threads have done is an execution of it, in which
    [install] returned the same value, every [cancel] that has returned has
    happened, and the observation is cancelled only where it is there; once
    [install] has returned and refused, or some [cancel] has returned, the
    observation is cancelled; and no interleaving deadlocks or runs for more
    than [5 + 4 * n] steps. *)
Theorem answer_wait_cancel_refines n k s :
  nsteps cancel_step k (cancel_new n) s →
  rtc spec_step (spec_new n) (abstraction s) ∧
  (∀ b, ac_install s = InReturned b → sp_installed (abstraction s) = Some b) ∧
  (∀ i, ac_cancels s !! i = Some CaReturned → sp_requested (abstraction s) !! i = Some true) ∧
  (ac_observation_cancelled s = true → sp_cancelled (abstraction s) = true) ∧
  (∀ b, ac_install s = InReturned b → b = false ∨ CaReturned ∈ ac_cancels s →
     ac_observation_cancelled s = true) ∧
  k ≤ 5 + 4 * n ∧
  ((∃ s', cancel_step s s') ∨
   (∃ b, ac_install s = InReturned b) ∧ Forall (λ c, c = CaReturned) (ac_cancels s)).
Proof.
  intros Hk. pose proof (cancel_steps_bound _ _ _ Hk) as Hbound.
  apply rtc_nsteps_2, cancel_simulates_all in Hk as [Hinv Hsim]; [|apply cancel_new_inv].
  pose proof (cancel_progress s Hinv) as Hprogress. destruct Hinv. split_and!.
  - replace (spec_new n) with (abstraction (cancel_new n)); [done|].
    unfold abstraction, spec_new. simpl. by rewrite fmap_replicate.
  - intros b Hb. simpl. by rewrite Hb.
  - intros i Hi. simpl. by rewrite list_lookup_fmap, Hi.
  - intros [Hf Hi]%ai_only_requested0. simpl. by rewrite Hf, is_none_Some.
  - intros [] Hb [|(i & Hi)%list_elem_of_lookup]; try done; [|apply ai_refused0; eauto..].
    apply (ai_cancel0 i CaReturned Hi); [done|]. apply ai_stored0. eauto.
  - rewrite cancel_new_left in Hbound. lia.
  - done.
Qed.

(** One thread cancels while the other is between its two loads. *)
Definition example_schedule : list Thread :=
  [Installer; Installer; Installer; Canceller 0; Installer; Installer;
   Canceller 0; Canceller 0; Canceller 0].

Definition run_schedule (s : AnswerWaitCancel) (schedule : list Thread)
    : option AnswerWaitCancel :=
  try_fold (λ s t, thread_step t s) s schedule.

Lemma run_schedule_steps schedule : ∀ s s',
  run_schedule s schedule = Some s' → nsteps cancel_step (length schedule) s s'.
Proof.
  induction schedule as [|t l IH]; intros s s' Hs; simpl in *.
  - injection Hs as <-. constructor.
  - apply bind_Some' in Hs as (s1 & Ht & Hs). econstructor; [by exists t|by apply IH].
Qed.

Lemma answer_wait_cancel_refines_witness :
  ∃ s, run_schedule (cancel_new 1) example_schedule = Some s ∧
       ac_install s = InReturned true ∧ ac_observation_cancelled s = true.
Proof.
  eexists. split; [vm_compute; reflexivity|]. split; [reflexivity|].
  eapply (answer_wait_cancel_refines 1 (length example_schedule));
    [apply run_schedule_steps; vm_compute; reflexivity|reflexivity|right; by left].
Defined.
