(* ===== verification/ProducerApi.v ===== *)
(** The producer API ([producer-api/src]): requests, the agent-facing tree, the
    local protocol with its validators, and the bounded local client. *)

From S2P Require Export Contract.

Record ProducerRequest := mkRequest {
  pr_request_id : str;
  pr_group_id : str;
  pr_voice : str;
  pr_agent_name : str;
  pr_subject : str;
  pr_summary : str;
  pr_body : str;
  pr_attachments : list DurableArtifact;
  pr_questions : list Question;
  pr_attach : option AttachLink;
}.

#[export] Instance producer_request_eq_dec : EqDecision ProducerRequest.
Proof. solve_decision. Defined.

Inductive TreeAttachment :=
  | File (label file : str)
  | Narrated (label message : str) (questions : list Question)
      (attachments : list TreeAttachment).

Record SpokenTree := mkTree {
  tree_request_id : str;
  tree_group_id : str;
  tree_title : str;
  tree_summary : option str;
  tree_message : str;
  tree_questions : list Question;
  tree_attachments : list TreeAttachment;
}.

(** ** The local protocol *)
Definition LOCAL_PROTOCOL_VERSION : N := 1.
Definition MAX_LOCAL_FRAME_BYTES : N := 128 * 1024.
Definition MAX_ANSWER_WAIT_SECONDS : N := 300.

Record LocalPublishRequest := mkLocalPublish {
  lp_version : N;
  lp_request : ProducerRequest;
  lp_wait_for_answer_seconds : option N;
  lp_agent_nsec : option str;
}.

Record LocalTreeRequest := mkLocalTree {
  lt_version : N;
  lt_tree : SpokenTree;
  lt_agent_id : option str;
  lt_agent_nsec : option str;
}.

Record LocalRequestError := mkLocalError { err_code : str; err_message : str }.

Definition unsupported_version (version : N) : LocalRequestError :=
  mkLocalError $"unsupported_version"
    ($"local protocol version " ++ u64_to_string version ++ $" is unsupported; expected "
       ++ u64_to_string LOCAL_PROTOCOL_VERSION).

(** [value.is_empty() || value.len() > max]. *)
Definition bad_length (max : N) (value : str) : bool :=
  is_empty value || (max <? str_len value)%N.

(** [LocalPublishRequest::validate]. *)
Definition validate_publish (r : LocalPublishRequest) : result LocalRequestError unit :=
  _ ← fail_if (unsupported_version (lp_version r))
        (negb (lp_version r =? LOCAL_PROTOCOL_VERSION)%N);
  _ ← match lp_wait_for_answer_seconds r with
      | Some seconds =>
          _ ← fail_if (mkLocalError $"invalid_answer_wait"
                 ($"answer wait must be between 1 and "
                    ++ u64_to_string MAX_ANSWER_WAIT_SECONDS ++ $" seconds"))
                ((seconds =? 0)%N || (MAX_ANSWER_WAIT_SECONDS <? seconds)%N);
          fail_if (mkLocalError $"invalid_answer_wait"
                     $"answer wait requires at least one question")
            (is_empty (pr_questions (lp_request r)))
      | None => Ok ()
      end;
  fail_if (mkLocalError $"invalid_agent_identity"
             $"request identity has an invalid encoded length")
    (is_some_and (bad_length 128) (lp_agent_nsec r)).

(** [LocalTreeRequest::validate]. *)
Definition validate_tree (r : LocalTreeRequest) : result LocalRequestError unit :=
  _ ← fail_if (unsupported_version (lt_version r))
        (negb (lt_version r =? LOCAL_PROTOCOL_VERSION)%N);
  _ ← fail_if (mkLocalError $"invalid_agent_identity" $"agent id has an invalid length")
        (is_some_and (bad_length 80) (lt_agent_id r));
  fail_if (mkLocalError $"invalid_agent_identity"
             $"request identity has an invalid encoded length")
    (is_some_and (bad_length 128) (lt_agent_nsec r)).

Inductive AnswerWaitResult :=
  | NotRequested
  | Answered (answer : AnswerBundle)
  | TimedOut
  | Unavailable (code message : str).

Inductive LocalPublishResponse :=
  | ResponsePublished (version : N) (request_id : str) (receipt_id : N) (event_id : str)
      (answer_wait : AnswerWaitResult)
  | ResponsePublishedTree (version : N) (request_id root_event_id : str)
      (child_event_ids : list str)
  | ResponseError (version : N) (code message : str).

(** [LocalPublishResponse::error]. *)
Definition response_error (code message : str) : LocalPublishResponse :=
  ResponseError LOCAL_PROTOCOL_VERSION code message.

(** ** The local client ([producer-api/src/unix_client.rs])

    The socket and the JSON encodings are parameters. *)
Inductive ClientError :=
  | FrameLimit                 (** the request is too large; nothing is sent *)
  | ResponseLimit              (** the response is too large *)
  | InvalidData                (** JSON *)
  | SocketError (error : str).

Section client.
Context {R : Type} (encode : R → option (list N))
        (decode : list N → option LocalPublishResponse).
(** The answer of the daemon to one connection: everything it writes before
    closing, or the error of the connection. *)
Context (exchange : list N → result str (list N)).

(** [read_bounded]: at most one byte more than the limit is read. *)
Definition read_bounded (response : list N) : result ClientError (list N) :=
  let bytes := take (N.to_nat (MAX_LOCAL_FRAME_BYTES + 1)) response in
  if (MAX_LOCAL_FRAME_BYTES <? len bytes)%N then Err ResponseLimit else Ok bytes.

Definition submit (request : R) : result ClientError LocalPublishResponse :=
  payload ← ok_or InvalidData (encode request);
  _ ← fail_if FrameLimit (MAX_LOCAL_FRAME_BYTES <? len payload)%N;
  raw ← map_err SocketError (exchange payload);
  response ← read_bounded raw;
  ok_or InvalidData (decode response).
End client.

(** ** Facts *)
Lemma bad_length_false max s :
  bad_length max s = false ↔ s ≠ [] ∧ (str_len s ≤ max)%N.
Proof. unfold bad_length. by reflect. Qed.

Record publish_request_valid (r : LocalPublishRequest) : Prop := {
  pv_version : lp_version r = 1%N;
  pv_wait : ∀ s, lp_wait_for_answer_seconds r = Some s →
    (1 ≤ s ≤ 300)%N ∧ pr_questions (lp_request r) ≠ [];
  pv_nsec : ∀ n, lp_agent_nsec r = Some n → n ≠ [] ∧ (str_len n ≤ 128)%N;
}.

Lemma validate_publish_iff r : validate_publish r = Ok () ↔ publish_request_valid r.
Proof.
  unfold validate_publish. split.
  - intros H. passed H as Hv. okay H as [] Hw. apply fail_if_ok in H.
    rewrite is_some_and_false in H. split; [done| |].
    + intros s Hs. rewrite Hs in Hw. passed Hw as [H0 H1]. apply fail_if_ok in Hw.
      apply is_empty_false in Hw. unfold MAX_ANSWER_WAIT_SECONDS in H1. split; [lia|done].
    + intros n Hn. by apply bad_length_false, H.
  - intros [Hv Hw Hn]. rewrite Hv. simpl.
    assert (is_some_and (bad_length 128) (lp_agent_nsec r) = false) as ->.
    { apply is_some_and_false. intros n Hn'. by apply bad_length_false, Hn. }
    destruct (lp_wait_for_answer_seconds r) as [s|]; [|done].
    destruct (Hw s eq_refl) as [[H1 H2] Hq]. apply is_empty_false in Hq as ->.
    assert ((s =? 0)%N = false) as -> by (apply N.eqb_neq; lia).
    assert ((MAX_ANSWER_WAIT_SECONDS <? s)%N = false) as -> by by apply N.ltb_ge.
    done.
Qed.

Record tree_request_valid (r : LocalTreeRequest) : Prop := {
  tv_version : lt_version r = 1%N;
  tv_agent : ∀ n, lt_agent_id r = Some n → n ≠ [] ∧ (str_len n ≤ 80)%N;
  tv_nsec : ∀ n, lt_agent_nsec r = Some n → n ≠ [] ∧ (str_len n ≤ 128)%N;
}.

Lemma validate_tree_iff r : validate_tree r = Ok () ↔ tree_request_valid r.
Proof.
  unfold validate_tree. split.
  - intros H. passed H as Hv. passed H as Ha. apply fail_if_ok in H.
    rewrite is_some_and_false in H, Ha.
    split; [done|..]; intros n Hn; apply bad_length_false; auto.
  - intros [Hv Ha Hn]. rewrite Hv. simpl.
    assert (is_some_and (bad_length 80) (lt_agent_id r) = false) as ->.
    { apply is_some_and_false. intros n Hn'. by apply bad_length_false, Ha. }
    assert (is_some_and (bad_length 128) (lt_agent_nsec r) = false) as ->; [|done].
    apply is_some_and_false. intros n Hn'. by apply bad_length_false, Hn.
Qed.

(** What the client does with a response never exceeds the frame limit. *)
Lemma read_bounded_ok raw bytes :
  read_bounded raw = Ok bytes → bytes = raw ∧ (len raw ≤ MAX_LOCAL_FRAME_BYTES)%N.
Proof.
  unfold read_bounded. destruct (N.ltb_spec MAX_LOCAL_FRAME_BYTES
    (len (take (N.to_nat (MAX_LOCAL_FRAME_BYTES + 1)) raw))) as [|Hle]; [done|].
  intros [= <-]. unfold len in *. rewrite length_take in Hle.
  assert (length raw ≤ N.to_nat (MAX_LOCAL_FRAME_BYTES + 1)); [lia|].
  rewrite take_ge by done. split; [done|lia].
Qed.
