(* ===== verification/DaemonModel.v ===== *)
(** The durable job of the daemon ([daemon/src/model.rs]). *)

From S2P Require Export ProducerApi Compose.

Record LocalAudioArtifact := mkLocalAudio {
  la_path : str;
  la_sha256 : str;
  la_media_type : str;
  la_byte_count : N;
}.

Record MembershipEvidence := mkMembership {
  me_event_id : str;
  me_receipt_id : option N;
}.

Inductive JobPhase :=
  | JobAdmitted
  | Synthesized (audio : LocalAudioArtifact)
  | ArtifactsDurable (item : FrozenSpokenItem)
  | AuthorizationAccepted (item : FrozenSpokenItem) (receipt_id : N)
  | AuthorAuthorized (item : FrozenSpokenItem) (membership : MembershipEvidence)
  | PublicationAccepted (item : FrozenSpokenItem) (membership : option MembershipEvidence)
      (receipt_id : N)
  | JobPublished (item : FrozenSpokenItem) (membership : option MembershipEvidence)
      (receipt_id : N) (event_id : str).

Definition phase_name (p : JobPhase) : str :=
  match p with
  | JobAdmitted => $"admitted"
  | Synthesized _ => $"synthesized"
  | ArtifactsDurable _ => $"artifacts_durable"
  | AuthorizationAccepted _ _ => $"authorization_accepted"
  | AuthorAuthorized _ _ => $"author_authorized"
  | PublicationAccepted _ _ _ => $"publication_accepted"
  | JobPublished _ _ _ _ => $"published"
  end.

Definition is_published (p : JobPhase) : bool :=
  match p with JobPublished _ _ _ _ => true | _ => false end.

Definition phase_event_id (p : JobPhase) : option str :=
  match p with JobPublished _ _ _ event_id => Some event_id | _ => None end.

Record JobRecord := mkJob {
  job_schema_version : N;
  job_request_digest : str;
  job_author : str;
  job_created_at : N;
  job_request : ProducerRequest;
  job_phase : JobPhase;
}.

#[export] Instance local_audio_eq_dec : EqDecision LocalAudioArtifact.
Proof. solve_decision. Defined.
#[export] Instance membership_evidence_eq_dec : EqDecision MembershipEvidence.
Proof. solve_decision. Defined.
#[export] Instance job_phase_eq_dec : EqDecision JobPhase.
Proof. solve_decision. Defined.
#[export] Instance job_record_eq_dec : EqDecision JobRecord.
Proof. solve_decision. Defined.

Definition set_phase (p : JobPhase) (job : JobRecord) : JobRecord :=
  mkJob (job_schema_version job) (job_request_digest job) (job_author job)
    (job_created_at job) (job_request job) p.

Definition job_id (job : JobRecord) : str := pr_request_id (job_request job).
