(* ===== verification/Journal.v ===== *)
(** The job journal ([daemon/src/journal.rs]): what the daemon relies on
    ([JobJournal], [JobJournalLaws]), and the implementation over files
    ([FileJobJournal]), whose every file-system step may fail or be the last
    one before a crash. *)

From S2P Require Export DaemonModel Files.

Inductive JournalError :=
  | JournalIo (error : IoError)
  | JournalInvalidId (id : str)
  | JournalCorrupt (id : str).

Inductive InsertOutcome := Inserted | AlreadyExists.

#[export] Instance journal_error_eq_dec : EqDecision JournalError.
Proof. solve_decision. Defined.
#[export] Instance insert_outcome_eq_dec : EqDecision InsertOutcome.
Proof. solve_decision. Defined.

(** [Display for JournalError]. *)
Definition journal_error_message (e : JournalError) : str :=
  match e with
  | JournalIo error => $"job journal I/O failed: " ++ io_error_message error
  | JournalInvalidId id => $"job journal request id is invalid: " ++ id
  | JournalCorrupt id => $"job journal record is corrupt: " ++ id
  end.

(** ** The interface *)
Class JobJournal (J : Type) := {
  load : str → io J JournalError (option JobRecord);
  insert_job : JobRecord → io J JournalError InsertOutcome;
  save : JobRecord → io J JournalError unit;
}.

(** What a journal promises, on the records it holds: loading shows the record;
    inserting never replaces one; saving replaces it; and a failed operation
    leaves either the old record or the complete new one. *)
Class JobJournalLaws (J : Type) `{JobJournal J} := {
  record_at : J → str → option JobRecord;
  load_frame id j r j' :
    load id j = (r, j') → ∀ i, record_at j' i = record_at j i;
  load_ok id j o j' : load id j = (Ok o, j') → o = record_at j id;
  insert_inserted job j j' :
    insert_job job j = (Ok Inserted, j') →
    record_at j (job_id job) = None ∧
    ∀ i, record_at j' i = if decide (i = job_id job) then Some job else record_at j i;
  insert_exists job j j' :
    insert_job job j = (Ok AlreadyExists, j') → ∀ i, record_at j' i = record_at j i;
  insert_failed job j e j' :
    insert_job job j = (Err e, j') →
    ∀ i, record_at j' i = record_at j i ∨
         i = job_id job ∧ record_at j i = None ∧ record_at j' i = Some job;
  save_ok job j j' :
    save job j = (Ok (), j') →
    ∀ i, record_at j' i = if decide (i = job_id job) then Some job else record_at j i;
  save_failed job j e j' :
    save job j = (Err e, j') →
    ∀ i, record_at j' i = record_at j i ∨ i = job_id job ∧ record_at j' i = Some job;
}.

(** [valid_request_id]. *)
Definition valid_request_id (value : str) : bool :=
  negb (is_empty value) && (str_len value <=? 64)%N
  && forallb identifier_byte (bytes value).

(** ** The journal over files *)
Module FileJobJournal.

(** [FileJobJournal], with the process id of [staged_path]. *)
Record Config := mkConfig {
  root : str;
  process_id : N;
  fault : nat → option nat;
  to_json : JobRecord → option (list N);
  from_json : list N → option JobRecord;
}.

Section files.
Context (C : Config).

Definition M := io World JournalError.

#[local] Abbreviation create_new := (create_new (fault C)).
#[local] Abbreviation write_all := (write_all (fault C)).
#[local] Abbreviation sync := (sync (fault C)).
#[local] Abbreviation fs_read := (fs_read (fault C)).
#[local] Abbreviation hard_link := (hard_link (fault C)).
#[local] Abbreviation rename := (rename (fault C)).
#[local] Abbreviation remove_file := (remove_file (fault C)).

Definition record_name (request_id : str) : str :=
  join_name (root C) (request_id ++ $".json").
Definition record_path (request_id : str) : result JournalError str :=
  _ ← fail_if (JournalInvalidId request_id) (negb (valid_request_id request_id));
  Ok (record_name request_id).

Definition staged_path (request_id : str) : io World JournalError str :=
  id ← next_temp_id;
  mret (join_name (root C) ($"." ++ request_id ++ $"." ++ u64_to_string (process_id C)
          ++ $"." ++ u64_to_string id ++ $".tmp")).

Definition write_staged (job : JobRecord) : io World JournalError str :=
  path ← staged_path (job_id job);
  data ← io_lift (ok_or (JournalCorrupt (job_id job)) (to_json C job));
  _ ← io_map_err JournalIo (create_new path);
  _ ← io_map_err JournalIo (write_all path data);
  _ ← io_map_err JournalIo (write_all path [10%N]);
  _ ← io_map_err JournalIo sync;
  mret path.

Definition sync_root : io World JournalError unit := io_map_err JournalIo sync.

Definition remove_staged (path : str) : io World JournalError unit :=
  r ← io_try (remove_file path);
  io_lift (match r with
    | Ok _ => Ok ()
    | Err NotFound => Ok ()
    | Err error => Err (JournalIo error)
    end).

Definition load (request_id : str) : io World JournalError (option JobRecord) :=
  path ← io_lift (record_path request_id);
  r ← io_try (fs_read path);
  io_lift (match r with
    | Ok data =>
        match from_json C data with
        | Some job => Ok (Some job)
        | None => Err (JournalCorrupt request_id)
        end
    | Err NotFound => Ok None
    | Err error => Err (JournalIo error)
    end).

Definition insert (job : JobRecord) : io World JournalError InsertOutcome :=
  staged ← write_staged job;
  destination ← io_lift (record_path (job_id job));
  r ← io_try (hard_link staged destination);
  outcome ← match r with
    | Ok _ => _ ← sync_root; mret Inserted
    | Err AlreadyExistsError => mret AlreadyExists
    | Err error => io_err (JournalIo error)
    end;
  _ ← remove_staged staged;
  mret outcome.

Definition save (job : JobRecord) : io World JournalError unit :=
  staged ← write_staged job;
  destination ← io_lift (record_path (job_id job));
  _ ← io_map_err JournalIo (rename staged destination);
  sync_root.
End files.

(** ** The implementation meets the interface *)
Section proofs.
Context (C : Config).
Context (Hjson : ∀ job data, to_json C job = Some data →
  from_json C (data ++ [10%N]) = Some job).

Definition not_record (path : str) : Prop := ∀ id, path ≠ record_name C id.

(** No record file changed. *)
Definition same_records (w w' : World) : Prop :=
  ∀ id, w_files w' !! record_name C id = w_files w !! record_name C id.

#[local] Instance same_records_preorder : PreOrder same_records.
Proof using. split; [by intros w id|]. intros w1 w2 w3 H12 H23 id. by rewrite H23. Qed.

Lemma same_records_files w w' : w_files w' = w_files w → same_records w w'.
Proof using. intros Hw id. by rewrite Hw. Qed.

Lemma record_name_inj id id' : record_name C id = record_name C id' → id = id'.
Proof using.
  unfold record_name. destruct (join_name_prefix (root C)) as [p Hp]. rewrite !Hp.
  intros ?. by simplify_list_eq.
Qed.

Lemma staged_not_record prefix : not_record (join_name (root C) (prefix ++ $".tmp")).
Proof using.
  intros id' Heq. unfold record_name in Heq.
  destruct (join_name_prefix (root C)) as [p Hp]. rewrite !Hp in Heq.
  apply (f_equal last) in Heq. rewrite !last_app in Heq.
  assert (last $".tmp" = Some 112%N) as Ht by (vm_compute; reflexivity).
  assert (last $".json" = Some 110%N) as Hj by (vm_compute; reflexivity).
  by rewrite Ht, Hj in Heq.
Qed.

(** A step on a file that is not a record. *)
Lemma only_same path w w' : only path w w' → not_record path → same_records w w'.
Proof using. intros Ho Hp id. apply Ho. intros ?. by eapply Hp. Qed.

Lemma write_staged_spec job w r w' :
  write_staged C job w = (r, w') →
  same_records w w' ∧ ∀ path, r = Ok path → not_record path ∧
    ∃ data, to_json C job = Some data ∧ w_files w' !! path = Some (data ++ [10%N]).
Proof using.
  unfold write_staged, staged_path, next_temp_id, mbind, io_bind, io_lift, io_map_err; simpl.
  set (path := join_name (root C) _).
  assert (not_record path) as Hp by (unfold path; rewrite !(assoc_L (++)); apply staged_not_record).
  set (w0 := mkWorld _ _ _).
  assert (same_records w w0) as H0 by done.
  destruct (to_json C job) as [data|] eqn:Ej; simpl; [|intros [= <- <-]; done].
  destruct (create_new (fault C) path w0) as [r1 w1] eqn:E1.
  apply create_new_step in E1 as [H1 Hc]. apply only_same in H1; [|done].
  destruct r1 as [[]|e]; simpl; [|intros [= <- <-]; split; [by etrans|done]].
  destruct Hc as [_ Hc].
  destruct (write_all (fault C) path data w1) as [r2 w2] eqn:E2.
  apply write_all_step in E2 as [H2 Hd]. apply only_same in H2; [|done].
  destruct r2 as [[]|e]; simpl;
    [|intros [= <- <-]; split; [by repeat (etrans; [done|])|done]].
  destruct (write_all (fault C) path [10%N] w2) as [r3 w3] eqn:E3.
  apply write_all_step in E3 as [H3 He]. apply only_same in H3; [|done].
  destruct r3 as [[]|e]; simpl;
    [|intros [= <- <-]; split; [by repeat (etrans; [done|])|done]].
  destruct (sync (fault C) w3) as [r4 w4] eqn:E4. apply sync_step in E4.
  assert (same_records w w4) as H4.
  { etrans; [|by apply same_records_files]. by repeat (etrans; [done|]). }
  destruct r4 as [[]|e]; simpl; intros [= <- <-]; split; try done.
  intros p [= <-]. split; [done|]. exists data. split; [done|].
  rewrite E4, He, Hd, Hc by done. done.
Qed.

(** The record a reader finds under an id. *)
Definition stored (w : World) (id : str) : option JobRecord :=
  if valid_request_id id then data ← w_files w !! record_name C id; from_json C data
  else None.

Lemma same_records_stored w w' id : same_records w w' → stored w' id = stored w id.
Proof using. intros Hs. unfold stored. by rewrite Hs. Qed.

(** A record file that received a staged record. *)
Lemma stored_update w w' job data :
  valid_request_id (job_id job) = true → to_json C job = Some data →
  (∀ id, w_files w' !! record_name C id =
     if decide (id = job_id job) then Some (data ++ [10%N])
     else w_files w !! record_name C id) →
  ∀ id, stored w' id = if decide (id = job_id job) then Some job else stored w id.
Proof using Hjson.
  intros Hv Hj Hw id. unfold stored. rewrite Hw. case_decide as Hid; [|done].
  subst. rewrite Hv. simpl. by apply Hjson.
Qed.

Lemma load_spec id w r w' :
  load C id w = (r, w') →
  same_records w w' ∧ ∀ o, r = Ok o → o = stored w id.
Proof using.
  unfold load, record_path, mbind, io_bind, io_lift, io_try.
  destruct (valid_request_id id) eqn:Hv; simpl; [|by intros [= <- <-]].
  destruct (fs_read (fault C) (record_name C id) w) as [r1 w1] eqn:E.
  apply fs_read_step in E as [Hf Hr].
  intros Heq. split.
  { apply same_records_files. destruct r1 as [data|[]]; [destruct (from_json C data)|..];
      by injection Heq as _ <-. }
  intros o ->. unfold stored. rewrite Hv. destruct r1 as [data|e].
  - rewrite Hr. simpl. destruct (from_json C data); by simplify_eq.
  - destruct e; [|done..]. rewrite Hr by done. by simplify_eq.
Qed.

Lemma remove_staged_spec path w r w' :
  remove_staged C path w = (r, w') → not_record path → same_records w w'.
Proof using.
  unfold remove_staged, mbind, io_bind, io_lift, io_try.
  destruct (remove_file (fault C) path w) as [r1 w1] eqn:E. simpl. intros Heq Hp.
  injection Heq as _ <-. apply remove_file_step in E as [Ho _]. by apply only_same in Ho.
Qed.

Lemma insert_spec job w r w' :
  insert C job w = (r, w') →
  (∀ i, stored w' i = stored w i) ∧ r ≠ Ok Inserted ∨
  (stored w (job_id job) = None ∧ r ≠ Ok AlreadyExists ∧
   ∀ i, stored w' i = if decide (i = job_id job) then Some job else stored w i).
Proof using Hjson.
  unfold insert, record_path, sync_root, mbind, io_bind, io_lift, io_try, io_map_err.
  destruct (write_staged C job w) as [[staged|e] w1] eqn:E1;
    apply write_staged_spec in E1 as [H1 Hst].
  2:{ intros [= <- <-]. left. split; [|done]. intros i. by apply same_records_stored. }
  destruct (Hst staged eq_refl) as (Hp & data & Hj & Hd). clear Hst.
  destruct (valid_request_id (job_id job)) eqn:Hv; simpl.
  2:{ intros [= <- <-]. left. split; [|done]. intros i. by apply same_records_stored. }
  destruct (hard_link (fault C) staged _ w1) as [r2 w2] eqn:E2.
  apply hard_link_step in E2. destruct r2 as [[]|e].
  - destruct E2 as (data' & Hd' & Hnone & Hw2). rewrite Hd in Hd'. injection Hd' as <-.
    assert (stored w (job_id job) = None) as Hw0.
    { rewrite <-(same_records_stored _ _ _ H1). unfold stored. by rewrite Hv, Hnone. }
    assert (∀ w3, same_records w2 w3 →
      ∀ i, stored w3 i = if decide (i = job_id job) then Some job else stored w i) as Hfin.
    { intros w3 H3 i. rewrite (same_records_stored _ _ _ H3).
      rewrite (stored_update w1 w2 job data); [|done|done|].
      - by rewrite (same_records_stored _ _ _ H1).
      - intros id. rewrite Hw2, lookup_insert. repeat case_decide; try done; subst; try done.
        exfalso. by apply record_name_inj in H. }
    destruct (sync (fault C) w2) as [r3 w3] eqn:E3. apply sync_step in E3.
    apply same_records_files in E3. destruct r3 as [[]|e3]; simpl.
    2:{ intros [= <- <-]. right. split_and!; [done..|by apply Hfin]. }
    destruct (remove_staged C staged w3) as [r4 w4] eqn:E4.
    apply remove_staged_spec in E4; [|done].
    assert (same_records w2 w4) as H24 by by etrans.
    destruct r4 as [[]|e4]; intros [= <- <-]; right; split_and!; try done; by apply Hfin.
  - destruct E2 as [Hw2 _].
    assert (∀ w3, same_records w2 w3 → ∀ i, stored w3 i = stored w i) as Hfin.
    { intros w3 H3 i. rewrite (same_records_stored _ _ _ H3).
      rewrite (same_records_stored w1 w2) by by apply same_records_files.
      by apply same_records_stored. }
    destruct e; simpl.
    + intros [= <- <-]. left. split; [by apply Hfin|done].
    + destruct (remove_staged C staged w2) as [r4 w4] eqn:E4.
      apply remove_staged_spec in E4; [|done].
      destruct r4 as [[]|e4]; intros [= <- <-]; left; split; try done; by apply Hfin.
    + intros [= <- <-]. left. split; [by apply Hfin|done].
Qed.

Lemma save_spec job w r w' :
  save C job w = (r, w') →
  (∀ i, stored w' i = stored w i) ∧ r ≠ Ok () ∨
  ∀ i, stored w' i = if decide (i = job_id job) then Some job else stored w i.
Proof using Hjson.
  unfold save, record_path, sync_root, mbind, io_bind, io_lift, io_map_err.
  destruct (write_staged C job w) as [[staged|e] w1] eqn:E1;
    apply write_staged_spec in E1 as [H1 Hst].
  2:{ intros [= <- <-]. left. split; [|done]. intros i. by apply same_records_stored. }
  destruct (Hst staged eq_refl) as (Hp & data & Hj & Hd). clear Hst.
  destruct (valid_request_id (job_id job)) eqn:Hv; simpl.
  2:{ intros [= <- <-]. left. split; [|done]. intros i. by apply same_records_stored. }
  destruct (rename (fault C) staged _ w1) as [r2 w2] eqn:E2.
  apply fs_step_cases in E2 as [(n & -> & Hw2)|Ha].
  { simpl. intros [= <- <-]. left. split; [|done]. intros i.
    rewrite (same_records_stored w1 w2) by by apply same_records_files.
    by apply same_records_stored. }
  rewrite Hd in Ha. injection Ha as <- Hw2. simpl.
  destruct (sync (fault C) w2) as [r3 w3] eqn:E3. apply sync_step in E3.
  intros [= <- <-]. right. intros i.
  rewrite (same_records_stored w2 w3) by by apply same_records_files.
  rewrite (stored_update w1 w2 job data); [|done|done|].
  - by rewrite (same_records_stored _ _ _ H1).
  - intros id. rewrite <-Hw2, lookup_insert, lookup_delete_ne by (intros ?; by eapply Hp).
    repeat case_decide; try done; subst; try done. exfalso. by apply record_name_inj in H.
Qed.
End proofs.
End FileJobJournal.

#[export] Instance file_journal (C : FileJobJournal.Config) : JobJournal World := {|
  load := FileJobJournal.load C;
  insert_job := FileJobJournal.insert C;
  save := FileJobJournal.save C;
|}.

(** The file journal keeps every promise of the interface. *)
#[export, refine] Instance file_journal_laws (C : FileJobJournal.Config)
    (Hjson : ∀ job data, FileJobJournal.to_json C job = Some data →
       FileJobJournal.from_json C (data ++ [10%N]) = Some job) :
  @JobJournalLaws World (file_journal C) :=
  {| record_at := FileJobJournal.stored C |}.
Proof.
  - intros id j r j' [Hs _]%FileJobJournal.load_spec i.
    by apply FileJobJournal.same_records_stored.
  - intros id j o j' [_ Ho]%FileJobJournal.load_spec. by apply Ho.
  - intros job j j' [[_ ?]|(Hn & _ & Hu)]%FileJobJournal.insert_spec; done.
  - intros job j j' [[Hs _]|(_ & ? & _)]%FileJobJournal.insert_spec; done.
  - intros job j e j' [[Hs _]|(Hn & _ & Hu)]%FileJobJournal.insert_spec i; [by left| |done].
    rewrite Hu. case_decide; [subst; by right|by left].
  - intros job j j' [[_ ?]|Hu]%FileJobJournal.save_spec; done.
  - intros job j e j' [[Hs _]|Hu]%FileJobJournal.save_spec i; [by left| |done].
    rewrite Hu. case_decide; [subst; by right|by left].
Defined.

(** C6: whatever file-system steps fail, and wherever a crash cuts the
    operation short (a crash is a failure of every later step), saving a record
    leaves under its id either what was there or the complete new record, and
    every other record untouched; an insertion never replaces a record; an
    operation that reports success has done what it says. *)
Theorem file_journal_atomic (C : FileJobJournal.Config) :
  (∀ job data, FileJobJournal.to_json C job = Some data →
     FileJobJournal.from_json C (data ++ [10%N]) = Some job) →
  let stored := FileJobJournal.stored C in
  ∀ job w,
  (∀ r w', FileJobJournal.save C job w = (r, w') →
     (∀ i, i ≠ job_id job → stored w' i = stored w i) ∧
     (stored w' (job_id job) = stored w (job_id job) ∨ stored w' (job_id job) = Some job) ∧
     (r = Ok () → stored w' (job_id job) = Some job)) ∧
  (∀ r w', FileJobJournal.insert C job w = (r, w') →
     (∀ i old, stored w i = Some old → stored w' i = Some old) ∧
     (∀ i, i ≠ job_id job → stored w' i = stored w i) ∧
     (stored w' (job_id job) = stored w (job_id job) ∨ stored w' (job_id job) = Some job) ∧
     (r = Ok Inserted → stored w (job_id job) = None ∧ stored w' (job_id job) = Some job) ∧
     (r = Ok AlreadyExists → stored w' (job_id job) = stored w (job_id job))) ∧
  (∀ id r w', FileJobJournal.load C id w = (r, w') →
     (∀ i, stored w' i = stored w i) ∧ ∀ o, r = Ok o → o = stored w id).
Proof.
  intros Hjson stored job w. split_and!.
  - intros r w' [[Hs Hr]|Hu]%FileJobJournal.save_spec; [|
      |done]; unfold stored.
    + split_and!; [by intros|by left|done].
    + split_and!; intros; rewrite ?Hu; case_decide; naive_solver.
  - intros r w' [[Hs Hr]|(Hn & Hr & Hu)]%FileJobJournal.insert_spec; [| |done]; unfold stored.
    + split_and!; intros; rewrite ?Hs; naive_solver.
    + split_and!; intros; rewrite ?Hu; case_decide; naive_solver.
  - intros id r w' [Hs Ho]%FileJobJournal.load_spec. split; [|done].
    intros i. by apply FileJobJournal.same_records_stored.
Qed.

Module Example_journal.
Definition request : ProducerRequest :=
  mkRequest $"req-1" $"group" $"voice" $"agent" $"Hello" $"short" $"Body" [] [] None.
Definition job : JobRecord := mkJob 1 $"digest" $"author" 5 request JobAdmitted.
(** An encoding of this one job, and a disk that fails at its last step. *)
Definition config : FileJobJournal.Config := {|
  FileJobJournal.root := $"/jobs";
  FileJobJournal.process_id := 7;
  FileJobJournal.fault := λ n, if decide (n = 5) then Some 0 else None;
  FileJobJournal.to_json j := if decide (j = job) then Some [1%N] else None;
  FileJobJournal.from_json data := if decide (data = [1%N; 10%N]) then Some job else None;
|}.
Lemma json_roundtrip j data :
  FileJobJournal.to_json config j = Some data →
  FileJobJournal.from_json config (data ++ [10%N]) = Some j.
Proof. simpl. case_decide; [|done]. by intros [= <-]; subst. Qed.
Definition disk : World := mkWorld ∅ 0 1.
End Example_journal.

Lemma file_journal_atomic_witness :
  let '(r, w) := FileJobJournal.save Example_journal.config Example_journal.job
                   Example_journal.disk in
  r = Err (JournalIo (OtherError $"fault")) ∧
  (FileJobJournal.stored Example_journal.config w $"req-1" = None ∨
   FileJobJournal.stored Example_journal.config w $"req-1" = Some Example_journal.job).
Proof.
  destruct (FileJobJournal.save _ _ _) as [r w] eqn:E. split.
  - vm_compute in E. injection E as <- _. reflexivity.
  - exact (proj1 (proj2 (proj1 (file_journal_atomic Example_journal.config
      Example_journal.json_roundtrip Example_journal.job Example_journal.disk) r w E))).
Defined.
