(* ===== verification/Runner.v ===== *)
(** The producer runner ([daemon/src/request.rs], [daemon/src/runner.rs]):
    admitting a request and advancing its job one durable phase at a time. The
    capabilities it drives (synthesis, upload, publication, the work directory)
    are classes over one environment, and the journal is used through its
    interface. *)

From S2P Require Export Journal.

Inductive ProducerError :=
  | InvalidRequest (field : str)
  | RequestConflict (id : str)
  | JobNotFound (id : str)
  | ProducerJournal (error : JournalError)
  | Capability (stage reason : str).

#[export] Instance producer_error_eq_dec : EqDecision ProducerError.
Proof. solve_decision. Defined.

(** [Display for ProducerError]. *)
Definition producer_error_message (e : ProducerError) : str :=
  match e with
  | InvalidRequest field => $"invalid producer request: " ++ field
  | RequestConflict id => $"request id was reused: " ++ id
  | JobNotFound id => $"producer job was not found: " ++ id
  | ProducerJournal error => journal_error_message error
  | Capability stage reason => $"producer stage " ++ stage ++ $" failed: " ++ reason
  end.

(** ** Capabilities *)
Inductive AuthorizationStep :=
  | Authorized (event_id : str)
  | Accepted (receipt_id : N).

Class Synthesizer (E : Type) := {
  synthesize : ProducerRequest → str → io E str LocalAudioArtifact;
}.
Class ArtifactUploader (E : Type) := {
  make_durable : LocalAudioArtifact → io E str DurableArtifact;
}.
Class Publisher (E : Type) := {
  authorize : str → str → N → io E str AuthorizationStep;
  resume_authorization : N → str → io E str str;
  accept : FrozenSpokenItem → io E str N;
  resume : N → FrozenSpokenItem → io E str str;
}.
(** [std::fs] on the work directory. *)
Class WorkDir (E : Type) := {
  create_dir_all : str → io E IoError unit;
  read_file : str → io E IoError (list N);
}.
(** The [sha2] and [serde_json] crates: the lowercase hex digest of bytes, and
    the JSON text of a request. *)
Class Hashing := {
  sha256_hex : list N → str;
  request_json : ProducerRequest → option (list N);
}.

(** ** [daemon/src/request.rs] *)
Definition frozen_item (job : JobRecord) (audio : DurableArtifact) : FrozenSpokenItem :=
  let r := job_request job in
  mkFrozen (job_author job) (job_created_at job) (pr_group_id r) (pr_agent_name r)
    (pr_subject r) (pr_summary r) (pr_body r) audio (pr_attachments r) (pr_questions r)
    (pr_attach r).

Definition same_request (existing : JobRecord) (digest author : str)
    : result ProducerError JobRecord :=
  if (job_request_digest existing =?s digest) && (job_author existing =?s author)
  then Ok existing else Err (RequestConflict (job_id existing)).

Definition validate_request_id (value : str) : result ProducerError unit :=
  ok_or (InvalidRequest $"request_id") (then_some (valid_request_id value) ()).

Definition is_sha256 (value : str) : bool :=
  (str_len value =? 64)%N && forallb lower_hex_byte (bytes value).
Definition is_event_id (value : str) : bool := is_sha256 value.

Section runner.
Context `{Nip29, Hashing} {J E : Type} `{JobJournal J}.
Context `{Synthesizer E, ArtifactUploader E, Publisher E, WorkDir E}.
Context (work_root : str).

Definition request_digest (request : ProducerRequest) : result ProducerError str :=
  data ← ok_or (InvalidRequest $"serialization") (request_json request);
  Ok (sha256_hex data).

(** The state of [ProducerRunner]. *)
Record ProducerRunner := mkRunner {
  rn_journal : J;
  rn_env : E;
}.

Definition M := io ProducerRunner ProducerError.

(** A call on the journal, whose errors become [ProducerError::Journal]. *)
Definition on_journal {A} (m : io J JournalError A) : M A := λ w,
  let '(r, j) := m (rn_journal w) in (map_err ProducerJournal r, mkRunner j (rn_env w)).
(** A call on a capability. *)
Definition on_env {X A} (f : X → ProducerError) (m : io E X A) : M A := λ w,
  let '(r, e) := m (rn_env w) in (map_err f r, mkRunner (rn_journal w) e).

Definition validate_local_audio (audio : LocalAudioArtifact) (expected_path : str)
    : M unit :=
  data ← on_env (λ error, Capability $"synthesis" (io_error_message error))
           (read_file expected_path);
  let digest := sha256_hex data in
  let valid :=
    path_eqb (la_path audio) expected_path
    && (0 <? la_byte_count audio)%N
    && (la_byte_count audio =? len data)%N
    && starts_with $"audio/" (la_media_type audio)
    && is_sha256 (la_sha256 audio)
    && (la_sha256 audio =?s digest) in
  io_lift (ok_or (InvalidRequest $"synthesized_audio") (then_some valid ())).

(** ** [daemon/src/runner.rs] *)
Definition admit_job (request : ProducerRequest) (author : str) (created_at : N)
    : M JobRecord :=
  _ ← io_lift (validate_request_id (pr_request_id request));
  digest ← io_lift (request_digest request);
  existing ← on_journal (load (pr_request_id request));
  match existing with
  | Some existing => io_lift (same_request existing digest author)
  | None =>
      let job := mkJob 1 digest author created_at request JobAdmitted in
      outcome ← on_journal (insert_job job);
      match outcome with
      | Inserted => mret job
      | AlreadyExists =>
          existing ← on_journal (load (pr_request_id request));
          existing ← io_lift (ok_or (JobNotFound (pr_request_id request)) existing);
          io_lift (same_request existing digest author)
      end
  end.

Definition audio_path (request_id : str) : str :=
  join_name (join_name work_root request_id) $"speech.mp3".

Definition capability_check (stage reason : str) (ok : bool) : M unit :=
  io_lift (fail_if (Capability stage reason) (negb ok)).

(** The arms of [match &job.phase] up to [Published], which returns early. *)
Definition advance_admitted (request_id : str) (job : JobRecord) : M JobPhase :=
  let output := audio_path request_id in
  _ ← on_env (λ error, ProducerJournal (JournalIo error))
        (create_dir_all (join_name work_root request_id));
  audio ← on_env (Capability $"synthesis") (synthesize (job_request job) output);
  _ ← validate_local_audio audio output;
  mret (Synthesized audio).

Definition advance_synthesized (job : JobRecord) (audio : LocalAudioArtifact)
    : M JobPhase :=
  durable ← on_env (Capability $"artifact_upload") (make_durable audio);
  _ ← capability_check $"artifact_upload"
        $"durable metadata does not match synthesized bytes"
        ((artifact_sha256 durable =?s la_sha256 audio)
         && (artifact_byte_count durable =? la_byte_count audio)%N
         && (artifact_media_type durable =?s la_media_type audio));
  let item := frozen_item job durable in
  _ ← io_lift (map_err (λ error, Capability $"contract_freeze" (compose_error_message error))
                 (validate_spoken_item item));
  mret (ArtifactsDurable item).

Definition advance_durable (request_id : str) (job : JobRecord) (item : FrozenSpokenItem)
    : M JobPhase :=
  step ← on_env (Capability $"membership_authorization")
    (authorize request_id (fz_author item) (job_created_at job));
  match step with
  | Authorized event_id =>
      _ ← capability_check $"membership_authorization"
            $"publisher returned an invalid membership event id" (is_event_id event_id);
      mret (AuthorAuthorized item (mkMembership event_id None))
  | Accepted receipt_id => mret (AuthorizationAccepted item receipt_id)
  end.

Definition advance_authorization (item : FrozenSpokenItem) (receipt_id : N) : M JobPhase :=
  event_id ← on_env (Capability $"membership_receipt")
    (resume_authorization receipt_id (fz_author item));
  _ ← capability_check $"membership_receipt"
        $"publisher returned an invalid membership event id" (is_event_id event_id);
  mret (AuthorAuthorized item (mkMembership event_id (Some receipt_id))).

Definition advance_authorized (item : FrozenSpokenItem) (membership : MembershipEvidence)
    : M JobPhase :=
  receipt_id ← on_env (Capability $"publication_acceptance") (accept item);
  mret (PublicationAccepted item (Some membership) receipt_id).

Definition advance_publication (item : FrozenSpokenItem)
    (membership : option MembershipEvidence) (receipt_id : N) : M JobPhase :=
  event_id ← on_env (Capability $"publication_receipt") (resume receipt_id item);
  _ ← capability_check $"publication_receipt" $"publisher returned an invalid event id"
        (is_event_id event_id);
  mret (JobPublished item membership receipt_id event_id).

(** The next phase, or [None] for the early return of [Published]. *)
Definition next_phase (request_id : str) (job : JobRecord) : M (option JobPhase) :=
  match job_phase job with
  | JobAdmitted => Some <$> advance_admitted request_id job
  | Synthesized audio => Some <$> advance_synthesized job audio
  | ArtifactsDurable item => Some <$> advance_durable request_id job item
  | AuthorizationAccepted item receipt_id =>
      Some <$> advance_authorization item receipt_id
  | AuthorAuthorized item membership => Some <$> advance_authorized item membership
  | PublicationAccepted item membership receipt_id =>
      Some <$> advance_publication item membership receipt_id
  | JobPublished _ _ _ _ => mret None
  end.

Definition advance (request_id : str) : M JobRecord :=
  _ ← io_lift (validate_request_id request_id);
  job ← on_journal (load request_id);
  job ← io_lift (ok_or (JobNotFound request_id) job);
  phase ← next_phase request_id job;
  match phase with
  | None => mret job
  | Some phase =>
      let job := set_phase phase job in
      _ ← on_journal (save job);
      mret job
  end.
End runner.
