(* ===== verification/RunnerFacts.v ===== *)
(** What the runner guarantees of every job: its identity never changes, its
    phase only moves along the edges of the pipeline, and each phase carries
    valid evidence of the ones before it. *)

From S2P Require Export Runner.

(** ** The pipeline *)
Inductive phase_edge : JobPhase → JobPhase → Prop :=
  | edge_synthesize audio : phase_edge JobAdmitted (Synthesized audio)
  | edge_upload audio item : phase_edge (Synthesized audio) (ArtifactsDurable item)
  | edge_member item event_id :
      phase_edge (ArtifactsDurable item) (AuthorAuthorized item (mkMembership event_id None))
  | edge_authorize item receipt_id :
      phase_edge (ArtifactsDurable item) (AuthorizationAccepted item receipt_id)
  | edge_authorized item receipt_id event_id :
      phase_edge (AuthorizationAccepted item receipt_id)
        (AuthorAuthorized item (mkMembership event_id (Some receipt_id)))
  | edge_accept item membership receipt_id :
      phase_edge (AuthorAuthorized item membership)
        (PublicationAccepted item (Some membership) receipt_id)
  | edge_publish item membership receipt_id event_id :
      phase_edge (PublicationAccepted item membership receipt_id)
        (JobPublished item membership receipt_id event_id).

Definition phase_rank (p : JobPhase) : nat :=
  match p with
  | JobAdmitted => 0
  | Synthesized _ => 1
  | ArtifactsDurable _ => 2
  | AuthorizationAccepted _ _ => 3
  | AuthorAuthorized _ _ => 4
  | PublicationAccepted _ _ _ => 5
  | JobPublished _ _ _ _ => 6
  end.

Lemma phase_edge_rank p q : phase_edge p q → phase_rank p < phase_rank q.
Proof. destruct 1; simpl; lia. Qed.

(** The frozen item of a phase, once there is one; no edge changes it. *)
Definition phase_item (p : JobPhase) : option FrozenSpokenItem :=
  match p with
  | JobAdmitted | Synthesized _ => None
  | ArtifactsDurable item | AuthorizationAccepted item _ | AuthorAuthorized item _
  | PublicationAccepted item _ _ | JobPublished item _ _ _ => Some item
  end.

Lemma phase_edge_item p q item :
  phase_edge p q → phase_item p = Some item → phase_item q = Some item.
Proof. by destruct 1; simpl. Qed.

Section facts.
Context `{Nip29, Hashing} {J E : Type} `{JobJournalLaws J}.
Context `{Synthesizer E, ArtifactUploader E, Publisher E, WorkDir E}.
Context (work_root : str).

#[local] Abbreviation runner := (@ProducerRunner J E).

(** ** Evidence *)
Record audio_ok (audio : LocalAudioArtifact) : Prop := {
  ao_bytes : ∃ data, la_sha256 audio = sha256_hex data ∧ la_byte_count audio = len data;
  ao_nonempty : (0 < la_byte_count audio)%N;
  ao_media : starts_with $"audio/" (la_media_type audio) = true;
  ao_digest : is_sha256 (la_sha256 audio) = true;
}.

(** An item frozen from the job's request and synthesized audio. *)
Definition item_ok (job : JobRecord) (item : FrozenSpokenItem) : Prop :=
  validate_spoken_item item = Ok () ∧
  ∃ audio durable, audio_ok audio ∧ item = frozen_item job durable ∧
    artifact_sha256 durable = la_sha256 audio ∧
    artifact_byte_count durable = la_byte_count audio ∧
    artifact_media_type durable = la_media_type audio.

Definition member_ok (membership : MembershipEvidence) : Prop :=
  is_event_id (me_event_id membership) = true.

Definition phase_ok (job : JobRecord) (p : JobPhase) : Prop :=
  match p with
  | JobAdmitted => True
  | Synthesized audio => audio_ok audio
  | ArtifactsDurable item | AuthorizationAccepted item _ => item_ok job item
  | AuthorAuthorized item membership => item_ok job item ∧ member_ok membership
  | PublicationAccepted item membership _ =>
      item_ok job item ∧ ∃ m, membership = Some m ∧ member_ok m
  | JobPublished item membership _ event_id =>
      item_ok job item ∧ (∃ m, membership = Some m ∧ member_ok m) ∧
      is_event_id event_id = true
  end.

(** ** The steps leave the journal alone *)
Lemma keeps_on_env {X A} (f : X → ProducerError) (m : io E X A) :
  io_keeps (@rn_journal J E) (on_env f m).
Proof. intros w r w'. unfold on_env. destruct (m (rn_env w)). by intros [= _ <-]. Qed.

#[local] Hint Resolve keeps_on_env : tts29.

Lemma keeps_check stage reason ok :
  io_keeps (@rn_journal J E) (capability_check stage reason ok).
Proof. apply keeps_lift. Qed.
#[local] Hint Resolve keeps_check : tts29.

Lemma keeps_validate_audio audio path :
  io_keeps (@rn_journal J E) (validate_local_audio audio path).
Proof. unfold validate_local_audio. auto with tts29. Qed.
#[local] Hint Resolve keeps_validate_audio : tts29.

Lemma keeps_next_phase id job : io_keeps (@rn_journal J E) (next_phase work_root id job).
Proof.
  unfold next_phase. destruct (job_phase job);
    [apply keeps_fmap; unfold advance_admitted, advance_synthesized, advance_durable,
       advance_authorization, advance_authorized, advance_publication..|];
    repeat first [apply keeps_bind | apply keeps_on_env | apply keeps_ret
      | apply keeps_lift | apply keeps_check | apply keeps_validate_audio
      | progress (lazymatch goal with |- ∀ _, io_keeps _ _ => intros ? end)
      | case_match].
Qed.

(** ** What a step establishes *)
Lemma check_ok stage reason ok (w : runner) u w' :
  capability_check stage reason ok w = (Ok u, w') → ok = true.
Proof. intros [Hf _]%io_lift_ok. by apply fail_if_ok, negb_false_iff in Hf. Qed.

Lemma validate_audio_ok audio path (w : runner) u w' :
  validate_local_audio audio path w = (Ok u, w') → audio_ok audio.
Proof.
  unfold validate_local_audio. intros Hv. run Hv as data w1 Hread.
  apply io_lift_ok in Hv as [Hv _]. apply ok_or_ok, then_some_Some in Hv as [Hv _].
  rewrite !andb_true_iff in Hv. destruct Hv as (((((_ & H0') & Hl) & Hm) & Hx) & Hd).
  apply N.ltb_lt in H0'. apply N.eqb_eq in Hl. apply str_eqb_eq in Hd.
  split; [by exists data|done..].
Qed.

Lemma next_phase_ok id job (w : runner) p w' :
  next_phase work_root id job w = (Ok (Some p), w') →
  phase_edge (job_phase job) p ∧ (phase_ok job (job_phase job) → phase_ok job p).
Proof.
  unfold next_phase. destruct (job_phase job) as [|audio|item|item rid|item m|item m rid|item m rid ev];
    intros Hn; try (apply io_fmap_ok in Hn as (q & [= ->] & Hn)).
  - unfold advance_admitted in Hn. run Hn as u w1 Hc. run Hn as audio w2 Hs.
    run Hn as u' w3 Hv. injection Hn as <- _. split; [constructor|].
    intros _. by eapply validate_audio_ok.
  - unfold advance_synthesized in Hn. run Hn as durable w1 Hd. run Hn as u w2 Hc.
    pure Hn as u' Hv. injection Hn as <- _. split; [constructor|].
    intros Ha. apply check_ok in Hc. rewrite !andb_true_iff, !str_eqb_eq, N.eqb_eq in Hc.
    apply map_err_ok in Hv. split; [by destruct u'|]. exists audio, durable. naive_solver.
  - unfold advance_durable in Hn. run Hn as step w1 Hs. destruct step as [event_id|receipt_id].
    + run Hn as u w2 Hc. injection Hn as <- _. split; [constructor|].
      intros Hi. by apply check_ok in Hc.
    + injection Hn as <- _. by split; [constructor|].
  - unfold advance_authorization in Hn. run Hn as event_id w1 Hs. run Hn as u w2 Hc.
    injection Hn as <- _. split; [constructor|]. intros Hi. by apply check_ok in Hc.
  - unfold advance_authorized in Hn. run Hn as receipt_id w1 Hs. injection Hn as <- _.
    split; [constructor|]. intros [? ?]. split; [done|]. by exists m.
  - unfold advance_publication in Hn. run Hn as event_id w1 Hs. run Hn as u w2 Hc.
    injection Hn as <- _. split; [constructor|]. intros [? ?]. apply check_ok in Hc. done.
  - by injection Hn.
Qed.

Lemma next_phase_none id job (w : runner) w' :
  next_phase work_root id job w = (Ok None, w') → is_published (job_phase job) = true.
Proof.
  unfold next_phase. destruct (job_phase job); intros Hn; try done;
    by apply io_fmap_ok in Hn as (q & [=] & _).
Qed.

(** ** Whole operations on the journal *)
Definition at_ (w : runner) (id : str) : option JobRecord := record_at (rn_journal w) id.

(** The records a reader can find. *)
Record job_ok (id : str) (job : JobRecord) : Prop := {
  jo_id : job_id job = id;
  jo_valid : valid_request_id id = true;
  jo_schema : job_schema_version job = 1%N;
  jo_digest : request_digest (job_request job) = Ok (job_request_digest job);
  jo_phase : phase_ok job (job_phase job);
}.

Definition jobs_ok (w : runner) : Prop := ∀ id job, at_ w id = Some job → job_ok id job.

(** One job became another one: the same, or one edge further. *)
Definition job_moves (job job' : JobRecord) : Prop :=
  job' = job ∨ ∃ p, job' = set_phase p job ∧ phase_edge (job_phase job) p.

Lemma on_journal_inv {A} (m : io J JournalError A) (w : runner) r w' :
  on_journal m w = (r, w') →
  ∃ r0, m (rn_journal w) = (r0, rn_journal w') ∧ rn_env w' = rn_env w ∧
    r = map_err ProducerJournal r0.
Proof.
  unfold on_journal. destruct (m (rn_journal w)) as [r0 j]. intros [= <- <-]. by exists r0.
Qed.

Lemma on_load_inv id (w : runner) r w' :
  on_journal (load id) w = (r, w') →
  (∀ i, at_ w' i = at_ w i) ∧ ∀ o, r = Ok o → o = at_ w id.
Proof.
  intros (r0 & Hl & _ & ->)%on_journal_inv. split.
  - intros i. by eapply load_frame.
  - intros o Ho. apply map_err_ok in Ho as ->. by eapply load_ok.
Qed.

(** What one call of [advance] does to the records. *)
Lemma advance_spec id (w : runner) r w' :
  jobs_ok w → advance work_root id w = (r, w') →
  (∀ i, i ≠ id → at_ w' i = at_ w i) ∧
  match r with
  | Ok job' => ∃ job, at_ w id = Some job ∧ at_ w' id = Some job' ∧
      (job' = job ∧ is_published (job_phase job) = true ∨
       ∃ p, job' = set_phase p job ∧ phase_edge (job_phase job) p ∧ phase_ok job' p)
  | Err _ => at_ w' id = at_ w id ∨
      ∃ job p, at_ w id = Some job ∧ at_ w' id = Some (set_phase p job) ∧
        phase_edge (job_phase job) p ∧ phase_ok job p
  end.
Proof.
  intros Hok. unfold advance. intros [(u & w1 & [_ <-]%io_lift_ok & Ha)|(e & [= _ <-] & ->)]%io_bind_inv;
    [|by split; [|left]].
  apply io_bind_inv in Ha as [(o & w1 & Hl & Ha)|(e & [Hl _]%on_load_inv & ->)];
    [|split; [auto|left; auto]].
  apply on_load_inv in Hl as [Hf1 Ho]. specialize (Ho o eq_refl).
  apply io_bind_inv in Ha as [(job & w2 & [Hj <-]%io_lift_ok & Ha)|(e & [= _ <-] & ->)];
    [|split; [auto|left; auto]].
  apply ok_or_ok in Hj. subst o. pose proof (Hok id job Hj) as [Hid _ _ _ Hph].
  assert (∀ w2, rn_journal w2 = rn_journal w1 → ∀ i, at_ w2 i = at_ w i) as Hf.
  { intros w2 Hk i. unfold at_. rewrite Hk. apply Hf1. }
  apply io_bind_inv in Ha as [(p & w2 & Hn & Ha)|(e & Hn & ->)];
    pose proof (Hf _ (keeps_next_phase _ _ _ _ _ Hn)) as Hf2; [|by split; [|left]].
  destruct p as [p|].
  2:{ injection Ha as <- <-. split; [auto|]. exists job. rewrite Hf2.
      split_and!; [done..|]. left. split; [done|]. by eapply next_phase_none. }
  apply next_phase_ok in Hn as [Hedge Hpok]. specialize (Hpok Hph).
  apply io_bind_inv in Ha as [([] & w3 & Hs & Ha)|(e & Hs & ->)];
    apply on_journal_inv in Hs as (r0 & Hs & _ & Hr).
  - symmetry in Hr. apply map_err_ok in Hr as ->. injection Ha as <- <-.
    pose proof (save_ok _ _ _ Hs) as Hu. fold (at_ w2) in Hu. change (job_id (set_phase p job)) with (job_id job) in Hu.
    rewrite Hid in Hu. split.
    + intros i Hi. unfold at_. rewrite Hu. rewrite decide_False by done. apply Hf2.
    + exists job. split_and!; [done| |].
      * unfold at_. rewrite Hu. by rewrite decide_True.
      * right. exists p. done.
  - destruct r0 as [|e0]; [done|]. pose proof (save_failed _ _ _ _ Hs) as Hu.
    change (job_id (set_phase p job)) with (job_id job) in Hu. rewrite Hid in Hu. split.
    + intros i Hi. destruct (Hu i) as [Heq|[? _]]; [|done].
      unfold at_. rewrite Heq. apply Hf2.
    + destruct (Hu id) as [Heq|[_ Heq]].
      * left. unfold at_. rewrite Heq. apply Hf2.
      * right. exists job, p. done.
Qed.

Definition fresh_job (request : ProducerRequest) (author digest : str) (created_at : N)
    : JobRecord := mkJob 1 digest author created_at request JobAdmitted.

Lemma same_request_ok existing digest author job :
  same_request existing digest author = Ok job →
  job = existing ∧ job_request_digest existing = digest ∧ job_author existing = author.
Proof.
  unfold same_request. destruct (_ && _) eqn:Heq; [|done]. intros [= <-].
  by apply andb_true_iff in Heq as [->%str_eqb_eq ->%str_eqb_eq].
Qed.

(** What one call of [admit_job] does to the records. *)
Lemma admit_spec request author t (w : runner) r w' :
  admit_job request author t w = (r, w') →
  let id := pr_request_id request in
  (∀ i, i ≠ id → at_ w' i = at_ w i) ∧
  (at_ w' id = at_ w id ∨
   at_ w id = None ∧ valid_request_id id = true ∧ ∃ digest,
     request_digest request = Ok digest ∧
     at_ w' id = Some (fresh_job request author digest t)) ∧
  ∀ job, r = Ok job →
    at_ w' id = Some job ∧ job_author job = author ∧
    request_digest request = Ok (job_request_digest job) ∧
    (at_ w id = Some job ∨ at_ w id = None ∧ job = fresh_job request author (job_request_digest job) t).
Proof.
  intros Ha id. unfold admit_job in Ha.
  apply io_bind_inv in Ha as [([] & w1 & [Hv <-]%io_lift_ok & Ha)|(e & [= _ <-] & ->)];
    [|split_and!; auto; done].
  apply ok_or_ok, then_some_Some in Hv as [Hv _]. fold id in Hv.
  apply io_bind_inv in Ha as [(digest & w1 & [Hd <-]%io_lift_ok & Ha)|(e & [= _ <-] & ->)];
    [|split_and!; auto; done].
  apply io_bind_inv in Ha as [(o & w1 & Hl & Ha)|(e & [Hl _]%on_load_inv & ->)];
    [|split_and!; auto; done].
  apply on_load_inv in Hl as [Hf1 Ho]. specialize (Ho o eq_refl). fold id in Ho.
  destruct o as [existing|].
  { injection Ha as <- <-. split_and!; auto. intros job (-> & Hdig & <-)%same_request_ok.
    rewrite Hf1. split_and!; auto. congruence. }
  apply io_bind_inv in Ha as [(outcome & w2 & Hi & Ha)|(e & Hi & ->)];
    apply on_journal_inv in Hi as (r0 & Hi & _ & Hr).
  2:{ destruct r0 as [|e0]; [done|]. pose proof (insert_failed _ _ _ _ Hi) as Hu.
      split_and!; [| |done].
      - intros i Hne. destruct (Hu i) as [Heq|[? _]]; [|done].
        unfold at_. rewrite Heq. apply Hf1.
      - destruct (Hu id) as [Heq|(_ & _ & Heq)].
        + left. unfold at_. rewrite Heq. apply Hf1.
        + right. split_and!; [done..|]. by exists digest. }
  symmetry in Hr. apply map_err_ok in Hr as ->. destruct outcome.
  - injection Ha as <- <-. apply insert_inserted in Hi as [_ Hu].
    change (job_id _) with id in Hu.
    assert (at_ w2 id = Some (fresh_job request author digest t)) as Hnew.
    { unfold at_. rewrite Hu. by rewrite decide_True. }
    split_and!.
    + intros i Hne. unfold at_. rewrite Hu, decide_False by done. apply Hf1.
    + right. split_and!; [done..|]. by exists digest.
    + intros job [= <-]. split_and!; [done..|]. right. done.
  - pose proof (insert_exists _ _ _ Hi) as Hu.
    assert (∀ i, at_ w2 i = at_ w i) as Hf2.
    { intros i. unfold at_. rewrite Hu. apply Hf1. }
    apply io_bind_inv in Ha as [(o & w3 & Hl & Ha)|(e & [Hl _]%on_load_inv & ->)].
    2:{ assert (∀ i, at_ w' i = at_ w i) by (intros; by rewrite Hl). split_and!; auto. done. }
    apply on_load_inv in Hl as [Hf3 Ho3]. specialize (Ho3 o eq_refl). fold id in Ho3.
    rewrite Hf2, <-Ho in Ho3. subst o.
    apply io_bind_inv in Ha as [(existing & w4 & [[=]]%io_lift_ok & _)|(e & [= _ <-] & ->)].
    assert (∀ i, at_ w3 i = at_ w i) by (intros; by rewrite Hf3). split_and!; auto. done.
Qed.

(** ** Runs *)
Inductive runner_step : runner → runner → Prop :=
  | step_admit request author t w r w' :
      admit_job request author t w = (r, w') → runner_step w w'
  | step_advance id w r w' : advance work_root id w = (r, w') → runner_step w w'
  | step_env j e e' : runner_step (mkRunner j e) (mkRunner j e').

Lemma phase_ok_set job p q : phase_ok (set_phase q job) p ↔ phase_ok job p.
Proof. done. Qed.

Lemma job_ok_set id job p : job_ok id job → phase_ok job p → job_ok id (set_phase p job).
Proof. intros [????] Hp. by split. Qed.

Lemma runner_step_spec w w' :
  runner_step w w' → jobs_ok w →
  jobs_ok w' ∧ ∀ id job, at_ w id = Some job →
    ∃ p, at_ w' id = Some (set_phase p job) ∧ rtc phase_edge (job_phase job) p.
Proof.
  assert (∀ job, set_phase (job_phase job) job = job) as Hsame by by intros [].
  intros Hs Hok. destruct Hs as [request author t w r w' Ha|id w r w' Ha|j e e'].
  - apply admit_spec in Ha as (Hother & Hid & _). split.
    + intros i job Hj. destruct (decide (i = pr_request_id request)) as [->|Hne];
        [|rewrite Hother in Hj by done; by apply Hok].
      destruct Hid as [Heq|(_ & Hv & digest & Hd & Heq)].
      * rewrite Heq in Hj. by apply Hok.
      * rewrite Heq in Hj. injection Hj as <-. by split.
    + intros i job Hj. exists (job_phase job). rewrite Hsame. split; [|done].
      destruct (decide (i = pr_request_id request)) as [->|Hne]; [|by rewrite Hother].
      destruct Hid as [Heq|(Hn & _)]; [by rewrite Heq|congruence].
  - apply advance_spec in Ha as [Hother Hid]; [|done].
    assert (at_ w' id = at_ w id ∨ ∃ job p, at_ w id = Some job ∧
      at_ w' id = Some (set_phase p job) ∧ phase_edge (job_phase job) p ∧ phase_ok job p)
      as Hmoves.
    { destruct r as [job'|e]; [|done]. destruct Hid as (job & Hj & Hj' & [[-> _]|(p & -> & He & Hp)]).
      - left. congruence.
      - right. by exists job, p. }
    clear Hid. split.
    + intros i job Hj. destruct (decide (i = id)) as [->|Hne];
        [|rewrite Hother in Hj by done; by apply Hok].
      destruct Hmoves as [Heq|(job0 & p & Hj0 & Heq & _ & Hp)].
      * rewrite Heq in Hj. by apply Hok.
      * rewrite Heq in Hj. injection Hj as <-. apply job_ok_set; [by apply Hok|done].
    + intros i job Hj. destruct (decide (i = id)) as [->|Hne].
      * destruct Hmoves as [Heq|(job0 & p & Hj0 & Heq & He & Hp)].
        -- exists (job_phase job). rewrite Hsame, Heq. done.
        -- rewrite Hj in Hj0. injection Hj0 as <-. exists p. split; [done|]. by apply rtc_once.
      * exists (job_phase job). rewrite Hsame, Hother by done. done.
  - split; [done|]. intros i job Hj. exists (job_phase job). by rewrite Hsame.
Qed.

Lemma runner_reachable w w' :
  rtc runner_step w w' → jobs_ok w →
  jobs_ok w' ∧ ∀ id job, at_ w id = Some job →
    ∃ p, at_ w' id = Some (set_phase p job) ∧ rtc phase_edge (job_phase job) p.
Proof.
  induction 1 as [w|w w1 w2 Hs _ IH]; intros Hok.
  - split; [done|]. intros i [????? ph] Hj. by exists ph.
  - apply runner_step_spec in Hs as [Hok1 Hm1]; [|done].
    destruct (IH Hok1) as [Hok2 Hm2]. split; [done|]. intros i job Hj.
    destruct (Hm1 i job Hj) as (p & Hj1 & Hp). destruct (Hm2 _ _ Hj1) as (q & Hj2 & Hq).
    exists q. split; [done|]. by etrans.
Qed.
End facts.

(** C19: whatever the capabilities answer and whichever steps fail, in every
    run from an empty journal each record is filed under its own valid id with
    the digest of its request, and its phase carries valid evidence: a frozen
    item is the request's, passes validation and describes the synthesized
    bytes; a job accepted for publication or published has valid evidence that
    its author was a member first; a published job has a valid event id. *)
Theorem runner_evidence `{Nip29, Hashing} {J E} `{JobJournalLaws J, Synthesizer E,
    ArtifactUploader E, Publisher E, WorkDir E} work_root (w w' : @ProducerRunner J E) :
  (∀ id, record_at (rn_journal w) id = None) →
  rtc (runner_step work_root) w w' →
  ∀ id job, record_at (rn_journal w') id = Some job →
    job_id job = id ∧ valid_request_id id = true ∧
    request_digest (job_request job) = Ok (job_request_digest job) ∧
    match job_phase job with
    | JobAdmitted => True
    | Synthesized audio => audio_ok audio
    | ArtifactsDurable item | AuthorizationAccepted item _ => item_ok job item
    | AuthorAuthorized item m => item_ok job item ∧ is_event_id (me_event_id m) = true
    | PublicationAccepted item m _ =>
        item_ok job item ∧ ∃ e, m = Some e ∧ is_event_id (me_event_id e) = true
    | JobPublished item m _ event_id =>
        item_ok job item ∧ (∃ e, m = Some e ∧ is_event_id (me_event_id e) = true) ∧
        is_event_id event_id = true
    end.
Proof.
  intros Hempty Hs id job Hj. apply runner_reachable in Hs as [Hok _].
  - by destruct (Hok id job Hj).
  - intros i j Hi. unfold at_ in Hi. by rewrite Hempty in Hi.
Qed.

(** Records are durable and only move forward: a record of a well-formed
    journal is still there after any further run, with the same request,
    author, creation time and digest, and with a phase reached from its own
    along the edges of the pipeline. *)
Theorem runner_progress `{Nip29, Hashing} {J E} `{JobJournalLaws J, Synthesizer E,
    ArtifactUploader E, Publisher E, WorkDir E} work_root (w w' : @ProducerRunner J E) id job :
  jobs_ok w → rtc (runner_step work_root) w w' →
  record_at (rn_journal w) id = Some job →
  ∃ p, record_at (rn_journal w') id = Some (set_phase p job) ∧
    rtc phase_edge (job_phase job) p.
Proof. intros Hok Hs Hj. apply runner_reachable in Hs as [_ Hm]; [|done]. by apply Hm. Qed.

(** Admission is idempotent and exclusive: a successful admission answers
    with the record of that id, whose digest and author are the request's; if
    the id was taken by another request or author nothing is answered but an
    error; and an existing record never changes. *)
Theorem admit_idempotent `{Nip29, Hashing} {J E} `{JobJournalLaws J, Synthesizer E,
    ArtifactUploader E, Publisher E, WorkDir E} request author t (w : @ProducerRunner J E) r w' :
  admit_job request author t w = (r, w') →
  let at_ w := record_at (rn_journal w) (pr_request_id request) in
  (∀ job, r = Ok job →
     at_ w' = Some job ∧ job_author job = author ∧
     request_digest request = Ok (job_request_digest job)) ∧
  (∀ existing, at_ w = Some existing →
     at_ w' = Some existing ∧ ∀ job, r = Ok job → job = existing) ∧
  (∀ i, i ≠ pr_request_id request →
     record_at (rn_journal w') i = record_at (rn_journal w) i).
Proof.
  intros (Hother & Hid & Hr)%admit_spec at_. split_and!; [|intros existing He; split|done].
  - intros job Hj. destruct (Hr job Hj) as (? & ? & ? & _). done.
  - destruct Hid as [Heq|(Hn & _)]; [by etrans|]. unfold at_ in He. unfold RunnerFacts.at_ in Hn.
    congruence.
  - intros job Hj. destruct (Hr job Hj) as (_ & _ & _ & [Hk|(Hn & _)]);
      unfold at_ in He; unfold RunnerFacts.at_ in *; congruence.
Qed.

Import Example_nmp.

(** A journal in memory, and capabilities that always succeed. *)
Module Example_runner.
Abbreviation Store := (gmap str JobRecord).
#[export] Instance memory_journal : JobJournal Store := {|
  load id j := (Ok (j !! id), j);
  insert_job job j :=
    match j !! job_id job with
    | Some _ => (Ok AlreadyExists, j)
    | None => (Ok Inserted, <[job_id job := job]> j)
    end;
  save job j := (Ok (), <[job_id job := job]> j);
|}.
#[export, refine] Instance memory_journal_laws : JobJournalLaws Store :=
  {| record_at j id := j !! id |}.
Proof.
  - by intros id j r j' [= _ <-].
  - by intros id j o j' [= <- _].
  - intros job j j'. cbn. destruct (j !! job_id job) eqn:Heq; intros [= <-].
    split; [done|]. intros i. rewrite lookup_insert. repeat case_decide; naive_solver.
  - intros job j j'. cbn. by destruct (j !! job_id job); intros [= <-].
  - intros job j e j'. cbn. by destruct (j !! job_id job).
  - intros job j j' [= <-] i. rewrite lookup_insert. repeat case_decide; naive_solver.
  - by intros job j e j'.
Defined.

Definition digest : str := repeat 48%N 64.
Definition audio (path : str) : LocalAudioArtifact := mkLocalAudio path digest $"audio/mpeg" 3.
#[export] Instance hashing : Hashing := {| sha256_hex _ := digest; request_json _ := Some [] |}.
#[export] Instance synthesizer : Synthesizer unit :=
  {| synthesize _ path e := (Ok (audio path), e) |}.
#[export] Instance uploader : ArtifactUploader unit := {|
  make_durable a e := (Ok (mkArtifact $"https://a.example/x.mp3" (la_sha256 a)
    (la_media_type a) (la_byte_count a) None), e);
|}.
#[export] Instance publisher : Publisher unit := {|
  authorize _ _ _ e := (Ok (Accepted 1), e);
  resume_authorization _ _ e := (Ok digest, e);
  accept _ e := (Ok 2%N, e);
  resume _ _ e := (Ok digest, e);
|}.
#[export] Instance work_dir : WorkDir unit := {|
  create_dir_all _ e := (Ok (), e);
  read_file _ e := (Ok [1; 2; 3]%N, e);
|}.

Abbreviation runner := (@ProducerRunner Store unit).
Definition request : ProducerRequest :=
  mkRequest $"req-1" $"group" $"voice" $"agent" $"Hello" $"short" $"Body" [] [] None.
Definition start : runner := mkRunner ∅ ().
Definition admitted : result ProducerError JobRecord * runner :=
  admit_job request digest 5 start.
Definition step (w : runner) : runner := (advance $"/work" $"req-1" w).2.
Definition finished : runner := Nat.iter 6 step admitted.2.

Lemma steps n : rtc (runner_step $"/work") start (Nat.iter n step admitted.2).
Proof.
  induction n as [|n IH]; simpl.
  - eapply rtc_once, step_admit. apply surjective_pairing.
  - eapply rtc_r; [exact IH|]. eapply step_advance. apply surjective_pairing.
Qed.
End Example_runner.
Import Example_runner.

Lemma runner_evidence_witness :
  ∃ job, record_at (rn_journal finished) $"req-1" = Some job ∧
    is_published (job_phase job) = true ∧ job_id job = $"req-1".
Proof.
  destruct (record_at (rn_journal finished) $"req-1") as [job|] eqn:Hj;
    [|vm_compute in Hj; discriminate].
  exists job. split; [reflexivity|]. split.
  - vm_compute in Hj. injection Hj as <-. vm_compute. reflexivity.
  - refine (proj1 (runner_evidence $"/work" start finished _ (steps 6) _ _ Hj)). done.
Defined.

Lemma runner_progress_witness :
  ∃ job p, record_at (rn_journal admitted.2) $"req-1" = Some job ∧
    record_at (rn_journal (step admitted.2)) $"req-1" = Some (set_phase p job) ∧
    rtc phase_edge (job_phase job) p.
Proof.
  destruct (record_at (rn_journal admitted.2) $"req-1") as [job|] eqn:Hj;
    [|vm_compute in Hj; discriminate].
  exists job.
  destruct (runner_progress $"/work" admitted.2 (step admitted.2) $"req-1" job) as [p Hp].
  - apply (runner_reachable $"/work" start); [apply (steps 0)|]. intros id j Hi. done.
  - eapply rtc_once, step_advance. apply surjective_pairing.
  - exact Hj.
  - exists p. split; [reflexivity|exact Hp].
Defined.

Lemma admit_idempotent_witness :
  admit_job request digest 9 admitted.2 = (admitted.1, admitted.2) ∧
  ∃ job, record_at (rn_journal admitted.2) $"req-1" = Some job ∧ job_author job = digest.
Proof.
  split; [vm_compute; reflexivity|].
  destruct (admit_idempotent request digest 5 start admitted.1 admitted.2
    (surjective_pairing _)) as [Ha _].
  destruct admitted.1 as [job|e] eqn:Hr; [|vm_compute in Hr; discriminate].
  exists job. destruct (Ha job eq_refl) as (Hj & Hau & _). split; [exact Hj|exact Hau].
Defined.
