(* ===== verification/Kokoro.v ===== *)
(** Speech synthesis ([daemon/src/kokoro.rs]): the checks on the endpoint and
    on the response of the service, and the commit of the audio file, which a
    failure at any step must not leave half-written. The HTTP client is a
    parameter. *)

From S2P Require Export Paths Files Url Runner.

Inductive KokoroAuth := AuthNone | AuthBearer (token : str) | AuthBasic (username password : str).

Record KokoroConfig := mkKokoroConfig {
  kc_endpoint : str;
  kc_auth : KokoroAuth;
  kc_request_timeout_seconds : N;
  kc_max_audio_bytes : N;
  kc_allow_insecure_loopback : bool;
}.

(** [KokoroConfig::new]. *)
Definition kokoro_config (endpoint : str) : KokoroConfig :=
  mkKokoroConfig endpoint AuthNone 120 (50 * 1024 * 1024) false.

(** What is read of a response of [reqwest]; the text of a header that is not
    readable is empty, and the body can break off. *)
Record HttpResponse := mkHttp {
  http_success : bool;
  http_status : str;
  http_content_length : option N;
  http_content_type : option str;
  http_body : list N;
  http_body_error : option str;
}.

(** [take(limit + 1).read_to_end(..)]: an error is met when the body breaks off
    before the limit is read. *)
Definition read_body (limit : N) (response : HttpResponse) : result str (list N) :=
  let data := take (N.to_nat (limit + 1)) (http_body response) in
  match http_body_error response with
  | Some error => if (len (http_body response) <? limit + 1)%N then Err error else Ok data
  | None => Ok data
  end.

(** [media_type.split(';').next()]. *)
Definition essence (media_type : str) : str := default [] (head (split_on 59 media_type)).

Definition mp3_type (media_type : str) : bool :=
  let t := essence media_type in
  (t =?s $"audio/mpeg") || (t =?s $"audio/mp3") || (t =?s $"application/octet-stream").

(** The request body [generate] posts, and the authentication of the client. *)
Record SpeechPost := mkPost { post_input : str; post_voice : str; post_auth : KokoroAuth }.

Section endpoint.
Context `{UrlParser}.

Definition validated_endpoint (config : KokoroConfig) : result str Url :=
  endpoint ← ok_or $"Kokoro endpoint is not a valid URL" (url_parse (kc_endpoint config));
  _ ← fail_if $"Kokoro endpoint cannot contain credentials, query, or fragment"
        (negb (is_empty (url_username endpoint)) || negb (is_none (url_password endpoint))
         || negb (is_none (url_query endpoint)) || negb (is_none (url_fragment endpoint)));
  let secure := url_scheme endpoint =?s $"https" in
  let admitted_loopback :=
    (url_scheme endpoint =?s $"http") && kc_allow_insecure_loopback config
    && bool_decide (url_host_str endpoint ∈
         [Some $"localhost"; Some $"127.0.0.1"; Some $"::1"]) in
  _ ← fail_if $"Kokoro endpoint must use HTTPS" (negb secure && negb admitted_loopback);
  Ok endpoint.

(** [KokoroSynthesizer], without the HTTP client. *)
Record KokoroSynthesizer := mkSynthesizer {
  ks_endpoint : Url;
  ks_auth : KokoroAuth;
  ks_max_audio_bytes : N;
}.

(** [KokoroSynthesizer::new], up to the construction of the client. *)
Definition new_synthesizer (config : KokoroConfig) : result str KokoroSynthesizer :=
  endpoint ← validated_endpoint config;
  _ ← fail_if $"Kokoro audio limit must be positive" (kc_max_audio_bytes config =? 0)%N;
  Ok (mkSynthesizer endpoint (kc_auth config) (kc_max_audio_bytes config)).
End endpoint.

Section synthesizer.
Context `{Hashing} (fault : nat → option nat) (process_id : N).
(** One HTTP exchange; the answer may differ from one exchange to the next. *)
Context (send : nat → Url → SpeechPost → result str HttpResponse).
Context (K : KokoroSynthesizer).

#[local] Abbreviation M := (io World str).

Definition max_audio : N := ks_max_audio_bytes K.

(** [generate], given the answer of the service. *)
Definition generate (exchange : SpeechPost → result str HttpResponse)
    (request : ProducerRequest) : result str (list N) :=
  _ ← fail_if $"Kokoro input is empty" (is_empty (trim (pr_body request)));
  _ ← fail_if $"Kokoro voice is invalid"
        (is_empty (pr_voice request) || (64 <? str_len (pr_voice request))%N);
  response ← map_err (λ error, $"Kokoro request failed: " ++ error)
    (exchange (mkPost (pr_body request) (pr_voice request) (ks_auth K)));
  _ ← fail_if ($"Kokoro rejected synthesis with HTTP " ++ http_status response)
        (negb (http_success response));
  _ ← fail_if $"Kokoro response size is invalid"
        (is_some_and (λ length, (length =? 0)%N || (max_audio <? length)%N)
           (http_content_length response));
  _ ← fail_if $"Kokoro response is not MP3 audio"
        (is_some_and (λ media_type, negb (mp3_type media_type)) (http_content_type response));
  data ← map_err (λ error, $"Kokoro audio could not be read: " ++ error)
           (read_body max_audio response);
  _ ← fail_if $"Kokoro response size is invalid"
        (is_empty data || (max_audio <? len data)%N);
  Ok data.

Definition artifact_for_existing (path : str) : M LocalAudioArtifact :=
  data ← io_map_err (λ error, $"Kokoro audio could not be read: " ++ io_error_message error)
           (fs_read fault path);
  _ ← io_lift (fail_if $"existing Kokoro audio size is invalid"
                 (is_empty data || (max_audio <? len data)%N));
  mret (mkLocalAudio path (sha256_hex data) $"audio/mpeg" (len data)).

Definition staged_name (name : str) (id : N) : str :=
  $"." ++ name ++ $"." ++ u64_to_string process_id ++ $"." ++ u64_to_string id ++ $".tmp".

Definition staged_path (destination : str) : M str :=
  parent ← io_lift (ok_or $"Kokoro output has no parent directory" (parent destination));
  name ← io_lift (ok_or $"Kokoro output filename is invalid" (file_name destination));
  id ← next_temp_id;
  mret (join_name parent (staged_name name id)).

(** The closure of [write_atomic]: every error leaves it early. *)
Definition commit (staged destination : str) (data : list N) : io World IoError unit :=
  _ ← write_all fault staged data;
  _ ← sync fault;
  linked ← io_try (hard_link fault staged destination);
  _ ← io_lift (match linked with
        | Ok _ | Err AlreadyExistsError => Ok ()
        | Err error => Err error
        end);
  _ ← remove_file fault staged;
  sync fault.

Definition write_atomic (destination : str) (data : list N) : M unit :=
  staged ← staged_path destination;
  _ ← io_map_err (λ error, $"Kokoro audio staging failed: " ++ io_error_message error)
        (create_new fault staged);
  r ← io_try (commit staged destination data);
  match r with
  | Ok _ => mret ()
  | Err error =>
      _ ← io_try (E := IoError) (remove_file fault staged);
      io_err ($"Kokoro audio commit failed: " ++ io_error_message error)
  end.

Definition synthesize_audio (request : ProducerRequest) (output : str) : M LocalAudioArtifact :=
  present ← exists_file fault output;
  if (present : bool) then artifact_for_existing output
  else
    data ← (λ w, (generate (send (w_steps w) (ks_endpoint K)) request, w));
    _ ← write_atomic output data;
    artifact_for_existing output.

#[export] Instance kokoro : Synthesizer World := {| synthesize := synthesize_audio |}.
End synthesizer.

(** ** The commit *)
Section facts.
Context `{Hashing} (fault : nat → option nat) (process_id : N).
Context (send : nat → Url → SpeechPost → result str HttpResponse) (K : KokoroSynthesizer).

#[local] Abbreviation commit := (commit fault).
#[local] Abbreviation write_atomic := (write_atomic fault process_id).

(** The files other than a destination and its staged copy are left alone, and
    the destination keeps what it has or receives all of the data. *)
Record committed (staged dest : str) (data : list N) (w w' : World) : Prop := {
  cm_others : ∀ p, p ≠ staged → p ≠ dest → w_files w' !! p = w_files w !! p;
  cm_dest : w_files w' !! dest = w_files w !! dest ∨
            w_files w !! dest = None ∧ w_files w' !! dest = Some data;
}.

Lemma committed_staged staged dest data w w' :
  staged ≠ dest → only staged w w' → committed staged dest data w w'.
Proof. intros Hne Ho. split; [by intros p ? _; apply Ho|left; by apply Ho]. Qed.

Lemma committed_trans staged dest data w1 w2 w3 :
  committed staged dest data w1 w2 → committed staged dest data w2 w3 →
  committed staged dest data w1 w3.
Proof.
  intros [Ho1 Hd1] [Ho2 Hd2]. split.
  - intros p ? ?. by rewrite Ho2, Ho1.
  - destruct Hd1 as [Hd1|[? Hd1]], Hd2 as [Hd2|[? Hd2]]; rewrite ?Hd2, ?Hd1 in *; auto; done.
Qed.

Lemma commit_spec staged dest data w r w' :
  staged ≠ dest → w_files w !! staged = Some [] → commit staged dest data w = (r, w') →
  committed staged dest data w w' ∧
  (r = Ok () → is_Some (w_files w' !! dest) ∧ w_files w' !! staged = None).
Proof.
  intros Hne Hs. unfold Kokoro.commit.
  intros [([] & w1 & [Ho1 Hd1]%write_all_step & Hc)|(e & [Ho1 _]%write_all_step & ->)]%io_bind_inv;
    apply (committed_staged _ dest data) in Ho1; [|done|by split|done].
  specialize (Hd1 eq_refl). rewrite Hs in Hd1. simpl in Hd1.
  apply io_bind_inv in Hc as [([] & w2 & Hsync%sync_step & Hc)|(e & Hsync%sync_step & ->)];
    pose proof (committed_staged staged dest data _ _ Hne (only_files staged _ _ Hsync)) as Ho2;
    pose proof (committed_trans _ _ _ _ _ _ Ho1 Ho2) as Ho; [|by split].
  unfold mbind at 1, io_bind at 1, io_try in Hc.
  destruct (hard_link fault staged dest w2) as [linked w3] eqn:Hl. apply hard_link_step in Hl.
  assert (committed staged dest data w w3 ∧
    (match linked with Ok _ | Err AlreadyExistsError => True | _ => False end →
     is_Some (w_files w3 !! dest))) as [Ho3 Hdest].
  { destruct linked as [[]|e].
    - destruct Hl as (data' & Hd' & Hnone & Hw). rewrite Hsync, Hd1 in Hd'. injection Hd' as <-.
      split; [|by rewrite Hw, lookup_insert_eq].
      eapply committed_trans; [done|]. split.
      + intros p ? ?. rewrite Hw. by apply lookup_insert_ne.
      + right. by rewrite Hw, lookup_insert_eq.
    - destruct Hl as [Hw He]. split.
      + eapply committed_trans; [done|]. by apply committed_staged, only_files.
      + rewrite Hw. by destruct e; auto. }
  apply io_bind_inv in Hc as [([] & w4 & [Hlink <-]%io_lift_ok & Hc)|(e & [= _ <-] & ->)];
    [|by split].
  apply io_bind_inv in Hc as [([] & w5 & [Ho5 Hrem]%remove_file_step & Hc)
    |(e & [Ho5 _]%remove_file_step & ->)];
    apply (committed_staged _ dest data) in Ho5 as Hc5; try done;
    pose proof (committed_trans _ _ _ _ _ _ Ho3 Hc5) as Ho'; [|by split].
  apply sync_step in Hc. split.
  - eapply committed_trans; [done|]. by apply committed_staged, only_files.
  - intros ->. rewrite Hc. split; [|done]. rewrite Ho5 by done. apply Hdest.
    by destruct linked as [|[]].
Qed.

(** A staged name is never the name it is staged for. *)
Lemma staged_differs parent dest name id :
  file_name dest = Some name → join_name parent (staged_name process_id name id) ≠ dest.
Proof.
  intros Hn Heq. pose proof (file_name_no_separator _ _ Hn) as Hsep.
  assert (last (staged_name process_id name id) = Some 112%N) as Hlast
    by (unfold staged_name; rewrite !last_app; reflexivity).
  assert ((47%N ∉ u64_to_string process_id) ∧ (47%N ∉ u64_to_string id)) as [Hp Hi]
    by (split; by apply u64_to_string_free).
  assert (47%N ∉ staged_name process_id name id) as Hns.
  { unfold staged_name. rewrite !not_elem_of_app. split_and!; try done;
      apply (bool_decide_eq_true_1 _); vm_compute; reflexivity. }
  pose proof (file_name_join parent _ _ Hns Hlast ltac:(done)) as Hf.
  rewrite Heq, Hn in Hf. injection Hf as Hf. apply (f_equal length) in Hf.
  unfold staged_name in Hf. rewrite !length_app in Hf.
  change (length $".") with 1 in Hf. lia.
Qed.

(** What is written for a destination: all or nothing. *)
Lemma write_atomic_spec dest data w r w' :
  write_atomic dest data w = (r, w') →
  (w' = w ∧ r ≠ Ok ()) ∨
  ∃ staged, staged ≠ dest ∧ committed staged dest data w w' ∧
    (r = Ok () → is_Some (w_files w' !! dest) ∧ w_files w' !! staged = None).
Proof.
  unfold Kokoro.write_atomic, staged_path. intros Hw.
  apply io_bind_inv in Hw as [(staged & w1 & Hst & Hw)|(e & Hst & ->)].
  2:{ left. unfold mbind, io_bind, io_lift, next_temp_id in Hst.
      destruct (parent dest); simpl in Hst; [|by simplify_eq].
      destruct (file_name dest); by simplify_eq/=. }
  right. run Hst as dir w2 Hdir. apply io_lift_ok in Hdir as [_ <-].
  pure Hst as name Hn. apply ok_or_ok in Hn. run Hst as id w3 Hid.
  injection Hid as <- <-. injection Hst as <- <-.
  set (staged := join_name dir _) in *.
  assert (staged ≠ dest) as Hne by by apply staged_differs.
  exists staged. split; [done|].
  set (w0 := mkWorld (w_files w) _ _) in *.
  assert (committed staged dest data w w0) as H0 by (split; [done|by left]).
  apply io_bind_inv in Hw as [([] & w1 & Hc%io_map_err_ok & Hw)|(e & Hc & ->)].
  2:{ split; [|done]. eapply committed_trans; [done|]. apply committed_staged; [done|].
      unfold io_map_err in Hc. destruct (create_new _ _ _) as [r1 w1] eqn:E.
      injection Hc as _ <-. by apply create_new_step in E as [? _]. }
  apply create_new_step in Hc as [Ho [_ Hnew]].
  apply (committed_staged _ dest data) in Ho; [|done].
  pose proof (committed_trans _ _ _ _ _ _ H0 Ho) as H1.
  unfold mbind, io_bind, io_try in Hw. destruct (commit staged dest data w1) as [r1 w4] eqn:Hcom.
  apply commit_spec in Hcom as [Hcom Hok]; [|done..].
  pose proof (committed_trans _ _ _ _ _ _ H1 Hcom) as H2.
  destruct r1 as [[]|e]; simpl in Hw; [injection Hw as <- <-; split; auto|].
  destruct (remove_file fault staged w4) as [r5 w5] eqn:Hrem. injection Hw as <- <-.
  split; [|done]. eapply committed_trans; [done|]. apply committed_staged; [done|].
  by apply remove_file_step in Hrem as [? _].
Qed.

Lemma artifact_spec path w r w' :
  artifact_for_existing fault K path w = (r, w') →
  w_files w' = w_files w ∧
  ∀ audio, r = Ok audio → ∃ data, w_files w !! path = Some data ∧
    audio = mkLocalAudio path (sha256_hex data) $"audio/mpeg" (len data) ∧
    (1 ≤ len data ≤ max_audio K)%N.
Proof.
  unfold artifact_for_existing.
  intros [(data & w1 & Hr%io_map_err_ok & Ha)|(e & Hr & ->)]%io_bind_inv.
  2:{ unfold io_map_err in Hr. destruct (fs_read _ _ _) as [r1 w1] eqn:E.
      injection Hr as _ <-. by apply fs_read_step in E as [? _]. }
  apply fs_read_step in Hr as [Hf Hd].
  apply io_bind_inv in Ha as [(u & w2 & [Hg <-]%io_lift_ok & Ha)|(e & [= _ <-] & ->)]; [|done].
  injection Ha as <- <-. split; [done|]. intros audio [= <-]. exists data.
  split_and!; [done|done| |]; apply fail_if_ok in Hg; reflect;
    destruct Hg as [Hne Hl]; [|lia]. destruct data; [done|]. rewrite len_cons. lia.
Qed.
End facts.

(** C23: a synthesized audio file is committed once. Whatever step of the file
    system fails, and however often synthesis is repeated, an audio file that
    is there is never changed, one that appears is a complete response of the
    service that passed every check, and apart from one staged file nothing
    else is touched; when synthesis succeeds the artifact it reports is the
    path, digest and size of the bytes in the file, within the limit. *)
Theorem audio_committed_once `{Hashing} fault process_id send K request output w r w' :
  synthesize_audio fault process_id send K request output w = (r, w') →
  (∀ data, w_files w !! output = Some data → w_files w' !! output = Some data) ∧
  (w_files w !! output = None → w_files w' !! output = None ∨
     ∃ n data, generate K (send n (ks_endpoint K)) request = Ok data ∧
       w_files w' !! output = Some data) ∧
  (∃ staged, ∀ p, p ≠ output → p ≠ staged → w_files w' !! p = w_files w !! p) ∧
  ∀ audio, r = Ok audio → ∃ data, w_files w' !! output = Some data ∧
    audio = mkLocalAudio output (sha256_hex data) $"audio/mpeg" (len data) ∧
    (1 ≤ len data ≤ max_audio K)%N.
Proof.
  unfold synthesize_audio. intros Hs. 
  apply io_bind_inv in Hs as [(b & w1 & Hex & Hs)|(e & (_ & b & [=] & _)%exists_file_step & _)].
  apply exists_file_step in Hex as (Hf1 & ? & [= <-] & _). destruct b.
  { apply artifact_spec in Hs as [Hf Ha]. rewrite Hf, Hf1 in *.
    split_and!; [done|by left|by exists []|done]. }
  apply io_bind_inv in Hs as [(data & w2 & [= Hgen <-] & Hs)|(e & [= _ <-] & ->)].
  2:{ rewrite Hf1. split_and!; [done|by left|by exists []|done]. }
  assert (∀ w2 : World,
    (∃ staged, committed staged output data w1 w2) →
    (∀ data, w_files w !! output = Some data → w_files w2 !! output = Some data) ∧
    (w_files w !! output = None → w_files w2 !! output = None ∨
      ∃ n data, generate K (send n (ks_endpoint K)) request = Ok data ∧
        w_files w2 !! output = Some data) ∧
    ∃ staged, ∀ p, p ≠ output → p ≠ staged → w_files w2 !! p = w_files w !! p) as Hfin.
  { intros w2 (staged & [Ho Hd]). rewrite Hf1 in *. split_and!.
    - intros old Hold. destruct Hd as [->|[Hn _]]; [done|congruence].
    - intros Hn. destruct Hd as [->|[_ ->]]; [by left|]. right. eauto.
    - exists staged. intros p ? ?. by apply Ho. }
  apply io_bind_inv in Hs as [([] & w3 & Hw & Hs)|(e & Hw & ->)].
  - apply write_atomic_spec in Hw as [[_ ?]|(staged & _ & Hcom & _)]; [done|].
    apply artifact_spec in Hs as [Hf Ha]. rewrite Hf.
    destruct (Hfin w3) as (? & ? & ?); [by exists staged|]. by split_and!.
  - apply write_atomic_spec in Hw as [[-> _]|(staged & _ & Hcom & _)].
    + rewrite Hf1. split_and!; [done|by left|by exists []|done].
    + destruct (Hfin w') as (? & ? & ?); [by exists staged|]. by split_and!.
Qed.

(** A service that answers three bytes, and a disk that fails to remove the
    staged copy. *)
Module Example_kokoro.
Definition url : Url :=
  mkUrl $"https" [] None (Some $"kokoro.example") $"/v1" None None $"https://kokoro.example".
Definition K : KokoroSynthesizer := mkSynthesizer url AuthNone 100.
Definition send (_ : nat) (_ : Url) (_ : SpeechPost) : result str HttpResponse :=
  Ok (mkHttp true $"200" (Some 3%N) (Some $"audio/mpeg; x") [1; 2; 3]%N None).
Definition fault (n : nat) : option nat := if decide (n = 5) then Some 0 else None.
Definition request : ProducerRequest :=
  mkRequest $"req-1" $"group" $"voice" $"agent" $"Hello" $"short" $"Body" [] [] None.
#[export] Instance hashing : Hashing :=
  {| sha256_hex _ := $"digest"; request_json _ := Some [] |}.
Definition output : str := $"/work/req-1/speech.mp3".
Definition attempt (w : World) := synthesize_audio fault 7 send K request output w.
Definition start : World := mkWorld ∅ 0 1.
End Example_kokoro.

(** The first attempt fails after the commit; the second one finds the file. *)
Lemma audio_committed_once_witness :
  let first := Example_kokoro.attempt Example_kokoro.start in
  let second := Example_kokoro.attempt first.2 in
  (∃ error, first.1 = Err error) ∧ second.1 =
    Ok (mkLocalAudio Example_kokoro.output $"digest" $"audio/mpeg" 3) ∧
  w_files second.2 !! Example_kokoro.output = Some [1; 2; 3]%N.
Proof.
  intros first second. split; [eexists; vm_compute; reflexivity|]. split; [vm_compute; reflexivity|].
  apply (@audio_committed_once Example_kokoro.hashing Example_kokoro.fault 7
    Example_kokoro.send Example_kokoro.K Example_kokoro.request Example_kokoro.output
    first.2 second.1 second.2 (surjective_pairing _)). vm_compute. reflexivity.
Defined.
