(* ===== verification/Receipt.v ===== *)
(** Waiting for the group host to acknowledge a write
    ([daemon/src/nmp_receipt.rs]): a bounded loop over the statuses of a
    receipt. *)

From S2P Require Export Nmp.

(** [nmp::ReceiptReattachment]. An attached receipt is the stream of statuses
    received before [recv_timeout] fails. *)
Inductive ReceiptReattachment :=
  | Attached (statuses : list WriteStatus)
  | ReceiptNotFound
  | RetainedButUnreadable.

(** The local variables of the loop. *)
Record Waiting := mkWaiting {
  wt_event_id : option str;
  wt_host_acked : bool;
}.

(** How one status ends: the loop goes on, or the function returns. *)
Inductive Verdict := Wait (w : Waiting) | Done (event_id : str) | Refused (error : str).

Section receipt.
(** [Debug for WriteStatus]. *)
Context (status_debug : WriteStatus → str).
Context (host : RelayUrl) (operation : str).

(** The [match status] and the check after it. *)
Definition judge (w : Waiting) (status : WriteStatus) : Verdict :=
  let check w :=
    match wt_host_acked w, wt_event_id w with
    | true, Some event_id => Done event_id
    | _, _ => Wait w
    end in
  match status with
  | StatusSigned id => check (mkWaiting (Some (eid_hex id)) (wt_host_acked w))
  | StatusAcked relay =>
      if bool_decide (relay = host) then check (mkWaiting (wt_event_id w) true)
      else check w
  | StatusRejected relay reason =>
      Refused (operation ++ $" was rejected by " ++ relay_str relay ++ $": " ++ reason)
  | StatusGaveUp relay | StatusOutcomeUnknown relay =>
      Refused (operation ++ $" delivery was unresolved at " ++ relay_str relay)
  | StatusFailed reason => Refused (operation ++ $" failed: " ++ reason)
  | StatusCancelled => Refused (operation ++ $" was cancelled")
  | StatusReplaceableConflict =>
      Refused (operation ++ $" encountered a replaceable conflict")
  | StatusOther => check w
  end.

Definition receipt_text (receipt_id : N) : str :=
  operation ++ $" receipt " ++ u64_to_string receipt_id.

(** [for _ in 0..n]. *)
Fixpoint await_loop (n : nat) (receipt_id : N) (last_status : str) (w : Waiting)
    (statuses : list WriteStatus) : result str str :=
  match n with
  | O => Err (receipt_text receipt_id ++ $" exceeded its bounded status stream")
  | S n =>
      match statuses with
      | [] => Err (receipt_text receipt_id ++ $" is still pending (" ++ last_status ++ $")")
      | status :: statuses =>
          match judge w status with
          | Wait w => await_loop n receipt_id (status_debug status) w statuses
          | Done event_id => Ok event_id
          | Refused error => Err error
          end
      end
  end.

Definition STATUS_BOUND : nat := 32.

Definition await_host_ack (reattached : result str ReceiptReattachment) (receipt_id : N)
    : result str str :=
  match reattached with
  | Err error => Err error
  | Ok (Attached statuses) =>
      await_loop STATUS_BOUND receipt_id $"no status received" (mkWaiting None false) statuses
  | Ok ReceiptNotFound => Err (receipt_text receipt_id ++ $" was not found")
  | Ok RetainedButUnreadable =>
      Err (receipt_text receipt_id ++ $" is retained but unreadable")
  end.

(** ** What a wait means *)

(** A status that does not end the wait by itself. *)
Definition benign (status : WriteStatus) : bool :=
  match status with StatusSigned _ | StatusAcked _ | StatusOther => true | _ => false end.

(** The id of the last signature in a list of statuses. *)
Definition last_signed (statuses : list WriteStatus) : option str :=
  last (omap (λ s, match s with StatusSigned id => Some (eid_hex id) | _ => None end) statuses).

Definition acked (statuses : list WriteStatus) : Prop := StatusAcked host ∈ statuses.

(** The host has acknowledged and the event is signed. *)
Definition complete (statuses : list WriteStatus) : Prop :=
  is_Some (last_signed statuses) ∧ acked statuses.

(** The first [k] statuses are the ones a successful wait consumes: nothing
    among them is a refusal, together they are complete, and no shorter prefix
    is. *)
Definition finishes (statuses : list WriteStatus) (k : nat) (id : str) : Prop :=
  k ≤ length statuses ∧ Forall benign (take k statuses) ∧
  last_signed (take k statuses) = Some id ∧ acked (take k statuses) ∧
  ∀ j, j < k → ¬ complete (take j statuses).

(** The loop's variables after a list of benign statuses. *)
Definition after (statuses : list WriteStatus) : Waiting :=
  mkWaiting (last_signed statuses) (bool_decide (acked statuses)).

Lemma last_signed_snoc l s :
  last_signed (l ++ [s]) =
    match s with StatusSigned id => Some (eid_hex id) | _ => last_signed l end.
Proof.
  unfold last_signed. rewrite omap_app. destruct s; simpl; rewrite ?app_nil_r; try done.
  by rewrite last_snoc.
Qed.

Lemma acked_snoc l s : acked (l ++ [s]) ↔ acked l ∨ s = StatusAcked host.
Proof. unfold acked. rewrite elem_of_app, list_elem_of_singleton. naive_solver. Qed.

(** One more benign status moves the variables on. *)
Lemma judge_benign l s :
  benign s →
  judge (after l) s =
    match wt_host_acked (after (l ++ [s])), wt_event_id (after (l ++ [s])) with
    | true, Some id => Done id
    | _, _ => Wait (after (l ++ [s]))
    end.
Proof.
  unfold after; simpl. rewrite last_signed_snoc, (bool_decide_ext _ _ (acked_snoc _ _)).
  destruct s; try done; intros _; simpl.
  - by rewrite (bool_decide_ext (acked l ∨ _) (acked l)) by naive_solver.
  - case_bool_decide as Hr.
    + rewrite (bool_decide_eq_true_2 (acked l ∨ _)) by (right; by subst). done.
    + by rewrite (bool_decide_ext (acked l ∨ _) (acked l)) by naive_solver.
  - by rewrite (bool_decide_ext (acked l ∨ _) (acked l)) by naive_solver.
Qed.

Lemma judge_complete l s id :
  benign s → last_signed (l ++ [s]) = Some id → acked (l ++ [s]) →
  judge (after l) s = Done id.
Proof.
  intros Hs Hid Ha. rewrite judge_benign by done. simpl.
  by rewrite Hid, bool_decide_eq_true_2.
Qed.

Lemma judge_incomplete l s :
  benign s → ¬ complete (l ++ [s]) → judge (after l) s = Wait (after (l ++ [s])).
Proof.
  intros Hs Hc. rewrite judge_benign by done. simpl.
  case_bool_decide as Ha; [|done]. destruct (last_signed _) as [id|] eqn:Hid; [|done].
  destruct Hc. by split; [exists id|].
Qed.

Lemma judge_refused w s : benign s = false → ∃ error, judge w s = Refused error.
Proof. destruct s; try done; intros _; eexists; reflexivity. Qed.

#[local] Instance complete_dec l : Decision (complete l).
Proof. unfold complete, acked. apply _. Defined.

Lemma finishes_later statuses p k id :
  ¬ complete (take p statuses) → finishes statuses k id → p ≤ k → p < k.
Proof.
  intros Hp (_ & _ & Hid & Ha & _) Hk. destruct (decide (p = k)) as [->|]; [|lia].
  destruct Hp. by split; [exists id|].
Qed.

(** The loop at position [p] of the statuses succeeds when one of the next
    [n] positions completes them. *)
Lemma await_loop_ok all n : ∀ p rid last_status id,
  Forall benign (take p all) → (∀ j, j ≤ p → ¬ complete (take j all)) →
  await_loop n rid last_status (after (take p all)) (drop p all) = Ok id ↔
  ∃ k, p < k ≤ p + n ∧ finishes all k id.
Proof.
  induction n as [|n IH]; intros p rid last_status id Hb Hc; simpl.
  { split; [done|]. intros (k & ? & _). lia. }
  destruct (drop p all) as [|s rest] eqn:Hdrop.
  { split; [done|]. intros (k & Hk & Hl & _). apply (f_equal length) in Hdrop.
    rewrite length_drop in Hdrop. simpl in Hdrop. lia. }
  assert (all !! p = Some s) as Hs by (rewrite <-(Nat.add_0_r p), <-lookup_drop, Hdrop; done).
  assert (drop (S p) all = rest) as Hrest by (apply drop_S in Hs; congruence).
  pose proof (take_S_r all p s Hs) as Htake.
  destruct (benign s) eqn:Hbs.
  2:{ destruct (judge_refused (after (take p all)) s Hbs) as [error ->]. split; [done|].
      intros (k & Hk & _ & Hben & _). eapply Forall_forall in Hben; [|].
      2:{ apply (list_elem_of_lookup_2 _ p s). rewrite lookup_take_lt by lia. done. }
      by rewrite Hbs in Hben. }
  assert (Forall benign (take (S p) all)) as Hb'
    by (rewrite Htake; apply Forall_app; split; [done|by rewrite Forall_singleton, Hbs]).
  destruct (decide (complete (take (S p) all))) as [[[i Hi] Ha]|Hn].
  - rewrite (judge_complete _ _ i) by (by rewrite ?Hbs, <-?Htake). split.
    + intros [= <-]. exists (S p). split; [lia|].
      split_and!; [by apply lookup_lt_Some in Hs|done..|]. intros j ?. apply Hc. lia.
    + intros (k & Hk & _ & _ & Hid & _ & Hmin).
      destruct (decide (k = S p)) as [->|]; [congruence|].
      destruct (Hmin (S p)); [lia|]. by split; [exists i|].
  - rewrite judge_incomplete by (by rewrite ?Hbs, <-?Htake). rewrite <-Htake, <-Hrest.
    assert (∀ j, j ≤ S p → ¬ complete (take j all)) as Hc'
      by (intros j Hj; destruct (decide (j = S p)) as [->|]; [done|apply Hc; lia]).
    rewrite IH by done. split.
    + intros (k & ? & ?). exists k. split; [lia|done].
    + intros (k & ? & Hf). exists k. split; [|done].
      assert (S p < k) by (eapply finishes_later; [apply (Hc' (S p)); lia|done|lia]). lia.
Qed.

Lemma not_complete_nil j : j ≤ 0 → ∀ l, ¬ complete (take j l).
Proof. intros Hj l [[id Hid] _]. assert (j = 0) as -> by lia. done. Qed.

(** A wait for the group host succeeds with exactly the id of the last
    signature seen when, within the first thirty-two statuses of the receipt
    and before any refusal, both a signature and the host's own
    acknowledgement have arrived; acknowledgements of other relays and later
    statuses never matter. *)
Theorem await_host_ack_ok reattached rid id :
  await_host_ack reattached rid = Ok id ↔
  ∃ statuses k, reattached = Ok (Attached statuses) ∧ k ≤ STATUS_BOUND ∧
    finishes statuses k id.
Proof.
  unfold await_host_ack.
  destruct reattached as [[statuses| |]|error]; try (split; [done|naive_solver]).
  rewrite <-(drop_0 statuses) at 1.
  change (mkWaiting None false) with (mkWaiting (last_signed (take 0 statuses)) false).
  assert (false = bool_decide (acked (take 0 statuses))) as ->.
  { symmetry. apply bool_decide_eq_false_2. unfold acked. simpl. set_solver. }
  rewrite (await_loop_ok statuses STATUS_BOUND 0);
    [|by constructor|intros; by apply not_complete_nil].
  split; [intros (k & ? & ?); exists statuses, k; split_and!; [done|lia|done]|].
  intros (? & k & [= <-] & Hk & Hf). exists k. split; [|done].
  split; [|lia]. eapply finishes_later; [by apply (not_complete_nil 0)|done|lia].
Qed.

(** No wait is forever: every outcome is reached within the bound, and once
    thirty-two statuses have passed the wait is abandoned. *)
Lemma await_loop_bound all rid : ∀ n p last_status error,
  await_loop n rid last_status (after (take p all)) (drop p all) = Err error →
  Forall benign all → n ≤ length (drop p all) →
  error = receipt_text rid ++ $" exceeded its bounded status stream".
Proof.
  induction n as [|n IH]; intros p ls error H Hb Hn; simpl in H; [by simplify_eq|].
  destruct (drop p all) as [|s rest] eqn:Hdrop; [simpl in Hn; lia|].
  assert (all !! p = Some s) as Hs by (rewrite <-(Nat.add_0_r p), <-lookup_drop, Hdrop; done).
  assert (drop (S p) all = rest) as Hrest by (apply drop_S in Hs; congruence).
  assert (benign s) as Hbs by (by eapply Forall_lookup_1 in Hb).
  rewrite judge_benign, <-(take_S_r all p s Hs) in H by done.
  assert (await_loop n rid (status_debug s) (after (take (S p) all)) (drop (S p) all) = Err error)
    as H' by (rewrite Hrest; by repeat case_match; simplify_eq).
  eapply IH; [exact H'|done|]. rewrite Hrest. simpl in Hn. lia.
Qed.
End receipt.
