(* ===== verification/Observe.v ===== *)
(** How the daemon reads the relay's view of the group: the frames of an
    observation, the bounded set of current rows they leave, and the evidence
    of the selected host. [daemon/src/nmp_publisher.rs] and
    [daemon/src/group_bootstrap.rs] contain the same loop body, with different
    bounds and messages; both are proved through the facts of this file. *)

From S2P Require Export Order Membership Receipt.

(** [nmp::RowDelta], [nmp::SourceStatus] and the fields of a frame's evidence
    that are read; [of_evidence] is the evidence in debug format. *)
Inductive RowDelta := Added (row : Row) | Removed (id : EventId) | SourcesGrew.
Inductive SourceStatus := Requesting | AuthDenied | SourceFailed | OtherStatus.
Record SourceEvidence := mkSource {
  se_relay : RelayUrl;
  se_status : SourceStatus;
  se_reconciled_through : option N;
}.
Record ObservedFrame := mkObserved {
  of_deltas : list RowDelta;
  of_sources : list SourceEvidence;
  of_evidence : str;
}.

#[export] Instance source_status_eq_dec : EqDecision SourceStatus.
Proof. solve_decision. Defined.

(** [nmp::Engine] as the daemon's publishing code uses it. An observation is
    the list of frames received before [recv_timeout] fails. *)
Class DaemonEngine (E : Type) `{Nip29} := {
  publish_tracked : WriteIntent → io E str N;
  observe : Demand → io E str (list ObservedFrame);
  reattach_receipt : N → io E str ReceiptReattachment;
}.

(** [await_host_ack] on the engine. *)
Definition await_on_engine `{DaemonEngine E} (status_debug : WriteStatus → str)
    (host : RelayUrl) (operation : str) (receipt_id : N) : io E str str := λ e,
  let '(reattached, e) := reattach_receipt receipt_id e in
  (await_host_ack status_debug host operation reattached receipt_id, e).

(** [BTreeMap<EventId, Event>]. *)
Abbreviation Current := (gmap EventId Event).

Section frame.
Context (bound : nat) (overflow refused : str) (host : RelayUrl).

(** The [match delta] of both loops. *)
Definition apply_delta (current : Current) (delta : RowDelta) : result str Current :=
  match delta with
  | Added row =>
      let event := row_event row in
      if is_none (current !! event_id event) && (bound <=? size current)
      then Err overflow else Ok (<[event_id event := event]> current)
  | Removed id => Ok (delete id current)
  | SourcesGrew => Ok current
  end.

Definition host_source (frame : ObservedFrame) : option SourceEvidence :=
  find (λ source, bool_decide (se_relay source = host)) (of_sources frame).

Definition host_refused (frame : ObservedFrame) : bool :=
  is_some_and (λ source, bool_decide (se_status source = AuthDenied)
                         || bool_decide (se_status source = SourceFailed))
    (host_source frame).

Definition host_reconciled (frame : ObservedFrame) : bool :=
  is_some_and (λ source, bool_decide (se_status source = Requesting)
                         && negb (is_none (se_reconciled_through source)))
    (host_source frame).

(** One received frame: the rows it leaves, and whether the host is
    reconciled. *)
Definition apply_frame (current : Current) (frame : ObservedFrame)
    : result str (Current * bool) :=
  current ← try_fold apply_delta current (of_deltas frame);
  _ ← fail_if refused (host_refused frame);
  Ok (current, host_reconciled frame).
End frame.

(** ** The rows an observation stands for *)

(** The net effect of deltas, without a bound. *)
Definition net_delta (current : Current) (delta : RowDelta) : Current :=
  match delta with
  | Added row => <[event_id (row_event row) := row_event row]> current
  | Removed id => delete id current
  | SourcesGrew => current
  end.
Definition net : list RowDelta → Current := foldl net_delta ∅.

Definition touches (id : EventId) (delta : RowDelta) : Prop :=
  match delta with
  | Added row => event_id (row_event row) = id
  | Removed id' => id' = id
  | SourcesGrew => False
  end.

(** An event is live after some deltas when the last delta about its id added
    it. *)
Definition live (deltas : list RowDelta) (e : Event) : Prop :=
  ∃ before row after, deltas = before ++ Added row :: after ∧ row_event row = e ∧
    Forall (λ d, ¬ touches (event_id e) d) after.

Lemma net_snoc ds d : net (ds ++ [d]) = net_delta (net ds) d.
Proof. unfold net. by rewrite foldl_app. Qed.

Lemma live_after_snoc ds d e :
  live (ds ++ [d]) e ↔
  (∃ row, d = Added row ∧ row_event row = e) ∨ live ds e ∧ ¬ touches (event_id e) d.
Proof.
  split.
  - intros (before & row & after & Heq & He & Hafter).
    destruct after as [|a after _] using rev_ind.
    + apply app_inj_2 in Heq as [_ [= ->]]; [|done]. left. by exists row.
    + rewrite app_comm_cons, (assoc_L (++)) in Heq.
      apply app_inj_2 in Heq as [-> [= ->]]; [|done]. right.
      apply Forall_app in Hafter as [Hafter [Hd _]%Forall_cons].
      split; [by exists before, row, after|exact Hd].
  - intros [(row & -> & He)|((before & row & after & -> & He & Hafter) & Hd)].
    + exists ds, row, []. split_and!; [done|done|constructor].
    + exists before, row, (after ++ [d]).
      rewrite <-(assoc_L (++)). split_and!; [done..|].
      apply Forall_app. split; [done|by constructor].
Qed.

Lemma net_live ds id e : net ds !! id = Some e ↔ event_id e = id ∧ live ds e.
Proof.
  revert e. induction ds as [|d ds IH] using rev_ind; intros e.
  { unfold net. simpl. rewrite lookup_empty. split; [done|].
    intros [_ (before & row & after & Heq & _)]. by destruct before. }
  rewrite net_snoc, live_after_snoc. destruct d as [row|id'|]; simpl.
  - destruct (decide (event_id (row_event row) = id)) as [<-|Hne].
    + rewrite lookup_insert_eq. naive_solver congruence.
    + rewrite lookup_insert_ne, IH by done. naive_solver.
  - destruct (decide (id' = id)) as [->|Hne].
    + rewrite lookup_delete_eq. naive_solver.
    + rewrite lookup_delete_ne, IH by done. naive_solver.
  - rewrite IH. naive_solver.
Qed.

Section observation.
Context (bound : nat) (overflow refused : str) (host : RelayUrl).

#[local] Abbreviation step := (apply_frame bound overflow refused host).

(** The frames an observation consumes, ending with the first one on which the
    host is reconciled. *)
Inductive observes : Current → list ObservedFrame → Current → Prop :=
  | observes_last c frame c' : step c frame = Ok (c', true) → observes c [frame] c'
  | observes_more c frame c1 frames c' :
      step c frame = Ok (c1, false) → observes c1 frames c' →
      observes c (frame :: frames) c'.

Lemma apply_delta_net c d c' :
  apply_delta bound overflow c d = Ok c' → c' = net_delta c d ∧ (size c ≤ bound → size c' ≤ bound).
Proof.
  destruct d as [row|id|]; simpl; [|intros [= <-]|intros [= <-]; done].
  - destruct (is_none _ && _) eqn:Hb; [done|]. intros [= <-]. split; [done|]. intros Hs.
    apply andb_false_iff in Hb as [Hin%is_none_false|Hlt%Nat.leb_gt].
    + by rewrite map_size_insert_Some by done.
    + rewrite map_size_insert. case_match; simpl; lia.
  - split; [done|]. rewrite map_size_delete. case_match; simpl; lia.
Qed.

Lemma apply_deltas_net ds : ∀ c c',
  try_fold (apply_delta bound overflow) c ds = Ok c' →
  c' = foldl net_delta c ds ∧ (size c ≤ bound → size c' ≤ bound).
Proof.
  induction ds as [|d ds IH]; intros c c'; simpl; [by intros [= <-]|].
  intros (c1 & [-> Hs]%apply_delta_net & [-> Hs']%IH)%bind_ok. split; [done|]. auto.
Qed.

Lemma apply_frame_net c frame c' b :
  step c frame = Ok (c', b) →
  c' = foldl net_delta c (of_deltas frame) ∧ (size c ≤ bound → size c' ≤ bound) ∧
  host_refused host frame = false ∧ b = host_reconciled host frame.
Proof.
  unfold apply_frame. intros Hf. okay Hf as c1 Hds. passed Hf as Hr. injection Hf as <- <-.
  apply apply_deltas_net in Hds as [-> Hs]. done.
Qed.

Lemma observes_net_from c frames c' :
  observes c frames c' →
  c' = foldl net_delta c (frames ≫= of_deltas) ∧ (size c ≤ bound → size c' ≤ bound).
Proof.
  induction 1 as [c frame c' (-> & Hs & _)%apply_frame_net
    |c frame c1 frames c' (-> & Hs & _)%apply_frame_net _ [-> IH]]; simpl.
  - by rewrite app_nil_r.
  - rewrite foldl_app. auto.
Qed.

(** What the rows of an observation are, and how many there can be. *)
Lemma observes_rows frames c :
  observes ∅ frames c →
  size c ≤ bound ∧
  ∀ id e, c !! id = Some e ↔ event_id e = id ∧ live (frames ≫= of_deltas) e.
Proof.
  intros [-> Hs]%observes_net_from. rewrite map_size_empty in Hs.
  split; [apply Hs; lia|]. apply net_live.
Qed.

(** The host never refused, and is reconciled on the last frame only. *)
Lemma observes_evidence c frames c' :
  observes c frames c' →
  Forall (λ f, host_refused host f = false) frames ∧
  ∃ before final, frames = before ++ [final] ∧ host_reconciled host final = true ∧
    Forall (λ f, host_reconciled host f = false) before.
Proof.
  induction 1 as [c frame c' (_ & _ & Hr & Hb)%apply_frame_net
    |c frame c1 frames c' (_ & _ & Hr & Hb)%apply_frame_net _ (IH & before & final & -> & Hf & Hn)].
  - split; [by constructor|]. by exists [], frame.
  - split; [by constructor|]. exists (frame :: before), final. split_and!; [done|done|by constructor].
Qed.
End observation.

(** The live events, in the order of a [BTreeMap]. *)
Lemma elem_of_btree_values_live (c : Current) ds e :
  (∀ id e, c !! id = Some e ↔ event_id e = id ∧ live ds e) →
  e ∈ btree_values c ↔ live ds e.
Proof.
  intros Hc. unfold btree_values. rewrite list_elem_of_fmap. split.
  - intros ([id e'] & -> & Hin). apply elem_of_btree_iter, Hc in Hin. naive_solver.
  - intros Hl. exists (event_id e, e). split; [done|]. apply elem_of_btree_iter, Hc. done.
Qed.
