(* ===== verification/NmpPublisher.v ===== *)
(** The producer's publisher ([daemon/src/nmp_publisher.rs]): it establishes
    group membership for an author, hands frozen items to the NMP engine and
    waits for the group host. *)

From S2P Require Export Observe Runner.
Import Membership.Membership.

Record NmpPublisher {E : Type} := mkPublisher {
  np_engine : E;
  np_authorized : gmap str str;   (** author to membership event id *)
}.
Arguments NmpPublisher : clear implicits.

Section publisher.
Context `{Nip29, Hashing} {E : Type} `{!DaemonEngine E}.
(** [Debug for WriteStatus] and [CorrelationToken::try_from]. *)
Context (status_debug : WriteStatus → str) (token : str → result str str).
(** The configuration of the publisher. *)
Context (host : RelayUrl) (group_id : str) (admin_author : PublicKey).

#[local] Abbreviation M := (io (NmpPublisher E) str).

(** A call on the engine. *)
Definition on_engine {A} (m : io E str A) : M A := λ p,
  let '(r, e) := m (np_engine p) in (r, mkPublisher _ e (np_authorized p)).
Definition authorized_member (author : str) : M (option str) := λ p,
  (Ok (np_authorized p !! author), p).
Definition remember (author event_id : str) : M unit := λ p,
  (Ok (), mkPublisher _ (np_engine p) (<[author := event_id]> (np_authorized p))).

Definition MEMBER_STATES : nat := 4.

Definition membership_frame : Current → ObservedFrame → result str (Current * bool) :=
  apply_frame MEMBER_STATES
    $"NMP returned an invalid number of current membership states"
    $"NMP membership observation was refused by the selected host" host.

(** [current.values().find_map(..)]. *)
Definition find_membership (member : PublicKey) (current : Current) : option str :=
  find_map (λ event, then_some (event_authorizes_member event group_id member)
                       (eid_hex (event_id event)))
    (btree_values current).

(** The [loop] of [current_membership] over the frames received before the
    deadline. *)
Fixpoint membership_loop (member : PublicKey) (last_evidence : str) (current : Current)
    (frames : list ObservedFrame) : result str (option str) :=
  match frames with
  | [] => Err ($"NMP membership observation did not reconcile in time (" ++ last_evidence
                 ++ $")")
  | frame :: frames =>
      next ← membership_frame current frame;
      let '(current, reconciled) := next in
      if (reconciled : bool) then Ok (find_membership member current)
      else membership_loop member (of_evidence frame) current frames
  end.

Definition current_membership (member : PublicKey) : io E str (option str) :=
  demand ← io_lift (map_err message (group_membership_demand host group_id));
  frames ← observe demand;
  io_lift (membership_loop member $"no frame received" ∅ frames).

(** The digest that names a membership request. *)
Definition membership_digest (request_id author : str) : str :=
  sha256_hex (bytes $"tts29-membership-v1" ++ [0%N] ++ bytes request_id ++ [0%N]
                ++ bytes author).

Definition authorize (request_id author : str) (created_at : N) : M AuthorizationStep :=
  cached ← authorized_member author;
  match cached with
  | Some event_id => mret (Authorized event_id)
  | None =>
      member ← io_lift (ok_or $"frozen spoken-item author is not a public key"
                          (pk_parse author));
      found ← on_engine (current_membership member);
      match found with
      | Some event_id =>
          _ ← remember author event_id;
          mret (Authorized event_id)
      | None =>
          correlation ← io_lift (map_err (λ error,
              $"membership correlation was refused: " ++ error)
              (token (membership_digest request_id author)));
          intent ← io_lift (map_err message
            (compose_membership_upsert host group_id (pk_hex admin_author) author created_at
               correlation));
          receipt ← on_engine (publish_tracked intent);
          mret (Accepted receipt)
      end
  end.

Definition await_ack (receipt_id : N) : M str :=
  on_engine (await_on_engine status_debug host $"NMP write" receipt_id).

(** The test on the text of a refusal. *)
Definition is_duplicate (error : str) : bool :=
  contains $"members already" error || contains $"already a member" error.

Definition resume_authorization (receipt_id : N) (author : str) : M str :=
  outcome ← io_try (await_ack receipt_id);
  match outcome with
  | Ok event_id => _ ← remember author event_id; mret event_id
  | Err error =>
      if is_duplicate error then
        cached ← authorized_member author;
        io_lift (ok_or ($"membership add was rejected as duplicate but no prior "
                          ++ $"membership is known: " ++ error) cached)
      else io_err error
  end.

Definition accept (item : FrozenSpokenItem) : M N :=
  _ ← io_lift (fail_if $"spoken item group does not match the configured producer group"
                 (negb (fz_group_id item =?s group_id)));
  intent ← io_lift (map_err compose_error_message (compose_spoken_item host item));
  on_engine (publish_tracked intent).

Definition resume (receipt_id : N) (_ : FrozenSpokenItem) : M str := await_ack receipt_id.

#[export] Instance nmp_publisher : Publisher (NmpPublisher E) := {|
  Runner.authorize := authorize;
  Runner.resume_authorization := resume_authorization;
  Runner.accept := accept;
  Runner.resume := resume;
|}.

End publisher.

(** ** What the publisher promises *)
Section promises.
Context `{Nip29} {E : Type} `{!DaemonEngine E} (host : RelayUrl) (group_id : str).

#[local] Abbreviation membership_loop := (membership_loop host group_id).
#[local] Abbreviation find_membership := (find_membership group_id).
#[local] Abbreviation current_membership := (current_membership host group_id).


(** The relay's view that one observation reconciled. *)
Definition membership_view : list ObservedFrame → Current → Prop :=
  observes MEMBER_STATES $"NMP returned an invalid number of current membership states"
    $"NMP membership observation was refused by the selected host" host ∅.

Lemma membership_loop_ok member frames : ∀ last current answer,
  membership_loop member last current frames = Ok answer ↔
  ∃ used rest final, frames = used ++ rest ∧
    observes MEMBER_STATES $"NMP returned an invalid number of current membership states"
      $"NMP membership observation was refused by the selected host" host current used final ∧
    answer = find_membership member final.
Proof.
  induction frames as [|frame frames IH]; intros last current answer; simpl.
  { split; [done|]. intros (used & rest & final & Heq & Ho & _).
    symmetry in Heq. apply app_nil in Heq as [-> _]. inversion Ho. }
  unfold membership_frame. rewrite bind_ok. split.
  - intros ([c1 [|]] & Hf & Ha).
    + exists [frame], frames, c1. split_and!; [done| |naive_solver]. by constructor.
    + apply IH in Ha as (used & rest & final & -> & Ho & ->).
      exists (frame :: used), rest, final. split_and!; [done| |done]. by econstructor.
  - intros (used & rest & final & Heq & Ho & ->).
    destruct Ho as [? ? c' Hf|? ? c1 ? ? Hf Ho]; simplify_eq/=.
    + exists (c', true). by split.
    + exists (c1, false). split; [done|]. apply IH. by exists frames0, rest, c'.
Qed.

(** Which membership event answers for a member, among the live events. *)
Definition speaks_for (member : PublicKey) (e : Event) : Prop :=
  event_authorizes_member e group_id member = true.

Definition answers (member : PublicKey) (deltas : list RowDelta) (answer : option str) : Prop :=
  match answer with
  | Some id => ∃ e, live deltas e ∧ speaks_for member e ∧ id = eid_hex (event_id e) ∧
      ∀ e', live deltas e' → speaks_for member e' → cmp_le (event_id e) (event_id e')
  | None => ∀ e, live deltas e → ¬ speaks_for member e
  end.

Lemma find_membership_answers member deltas c :
  (∀ id e, c !! id = Some e ↔ event_id e = id ∧ live deltas e) →
  answers member deltas (find_membership member c).
Proof.
  intros Hc. pose proof (elem_of_btree_values_live c deltas) as Hl.
  unfold NmpPublisher.find_membership, answers. destruct (find_map _ _) as [id|] eqn:Hf.
  - apply find_map_Some in Hf as (before & e & after & Hv & [He <-]%then_some_Some & Hb).
    exists e. split_and!; [apply (Hl _ Hc); rewrite Hv; set_solver|done|done|].
    intros e' Hlive He'. apply (Hl _ Hc) in Hlive.
    assert (e' ∈ e :: after) as Hin.
    { rewrite Hv in Hlive. apply elem_of_app in Hlive as [Hin|Hin]; [|done].
      rewrite Forall_forall in Hb. apply Hb in Hin. unfold speaks_for in He'.
      by rewrite He' in Hin. }
    eapply (btree_values_order event_id); [|exact Hv|done]. intros k v Hk. by apply Hc in Hk as [? _].
  - intros e Hlive He. apply (Hl _ Hc) in Hlive.
    apply (proj1 (find_map_None _ _) Hf) in Hlive. unfold speaks_for in He.
    by rewrite He in Hlive.
Qed.

(** A successful look at the membership is a reconciled view of the host. *)
Lemma current_membership_ok member e answer e' :
  current_membership member e = (Ok answer, e') →
  ∃ demand frames used rest c,
    group_membership_demand host group_id = Ok demand ∧
    observe demand e = (Ok frames, e') ∧ frames = used ++ rest ∧
    membership_view used c ∧ answers member (used ≫= of_deltas) answer.
Proof.
  unfold NmpPublisher.current_membership. intros Hm. pure Hm as demand Hd. run Hm as frames e1 Ho.
  apply io_lift_ok in Hm as [Hm <-]. apply map_err_ok in Hd.
  apply membership_loop_ok in Hm as (used & rest & c & -> & Hobs & ->).
  exists demand, (used ++ rest), used, rest, c. split_and!; [done..|].
  apply find_membership_answers. by apply observes_rows in Hobs as [_ ?].
Qed.

Lemma on_engine_ok {A} (m : io E str A) p a p' :
  on_engine m p = (Ok a, p') ↔
  m (np_engine p) = (Ok a, np_engine p') ∧ np_authorized p' = np_authorized p.
Proof.
  unfold on_engine. destruct (m (np_engine p)) as [r e], p'; simpl. naive_solver.
Qed.
End promises.

(** ** The publisher's contract *)
Section contract.
Context `{Nip29Laws, Hashing} {E : Type} `{!DaemonEngine E}.
Context (status_debug : WriteStatus → str) (token : str → result str str).
Context (host : RelayUrl) (group_id : str) (admin_author : PublicKey).

#[local] Abbreviation authorize := (authorize token host group_id admin_author).
#[local] Abbreviation resume_authorization := (resume_authorization status_debug host).
#[local] Abbreviation accept := (accept host group_id).

(** C30: authorizing an author has one of three grounds: a membership already
    established in this session, and then the engine is not asked; or, by the
    frames that the engine's observation of this group on this host returns,
    up to the first one on which the host is reconciled: a membership event that
    is live in them, the least one that names the group and the author; or, when
    they have none, one membership request handed to the engine right after, for
    this host, group and author, signed by the administrator, and carrying the
    correlation of the request. The cache changes only in the second case. *)
Theorem authorize_correct request_id author t (p : NmpPublisher E) step p' :
  authorize request_id author t p = (Ok step, p') →
  match np_authorized p !! author with
  | Some id => step = Authorized id ∧ p' = p
  | None =>
      ∃ member demand frames observed used rest view,
        pk_parse author = Some member ∧
        group_membership_demand host group_id = Ok demand ∧
        observe demand (np_engine p) = (Ok frames, observed) ∧
        frames = used ++ rest ∧ membership_view host used view ∧
      match step with
      | Authorized id =>
          answers group_id member (used ≫= of_deltas) (Some id) ∧
          p' = mkPublisher _ observed (<[author := id]> (np_authorized p))
      | Accepted receipt =>
          answers group_id member (used ≫= of_deltas) None ∧
          np_authorized p' = np_authorized p ∧
          ∃ w c, publish_tracked w observed = (Ok receipt, np_engine p') ∧
            intent_host w = host ∧ identity_override w = None ∧
            token (membership_digest request_id author) = Ok c ∧ correlation w = Some c ∧
            intent_payload w = mkUnsigned admin_author t 9000
              [[$"h"; group_id]; [$"p"; pk_hex member]] []
      end
  end.
Proof.
  unfold NmpPublisher.authorize. intros Ha. run Ha as cached p1 Hcached.
  unfold authorized_member in Hcached. injection Hcached as <- <-.
  destruct (np_authorized p !! author) as [id|] eqn:Hc; [by injection Ha as <- <-|].
  pure Ha as member Hm. apply ok_or_ok in Hm.
  run Ha as found p2 Hf. apply on_engine_ok in Hf as [Hf Hcache].
  apply current_membership_ok in Hf as (d & frames & used & rest & view & Hd & Ho & Hfr & Hv & Hans).
  exists member, d, frames, (np_engine p2), used, rest, view. split_and!; [done..|].
  destruct found as [id|].
  - run Ha as u p3 Hr. unfold remember in Hr. injection Hr as _ <-. injection Ha as <- <-.
    by rewrite Hcache.
  - pure Ha as cor Ht. apply map_err_ok in Ht. pure Ha as intent Hw. apply map_err_ok in Hw.
    run Ha as receipt p3 Hp. apply on_engine_ok in Hp as [Hp Hcache']. injection Ha as <- <-.
    split_and!; [done|congruence|].
    apply Membership.upsert_payload in Hw as (a & m & Hpa & Hpm & _ & Hh & Hcor & Ho' & Hpay).
    rewrite pk_parse_hex in Hpa. simplify_eq. exists intent, cor. by split_and!.
Qed.

(** An item is handed to the engine only when it is an item of the
    publisher's own group and passes the contract's validation; what is handed
    over is pinned to the publisher's host, is overridden to the item's author
    and carries the group's tag, and in every other case nothing is
    published. *)
Theorem accept_own_group item (p : NmpPublisher E) r p' :
  accept item p = (r, p') →
  np_authorized p' = np_authorized p ∧
  match compose_spoken_item host item with
  | Ok w =>
      if fz_group_id item =?s group_id then
        publish_tracked w (np_engine p) = (r, np_engine p') ∧ intent_host w = host ∧
        ∃ author, pk_parse (fz_author item) = Some author ∧
          identity_override w = Some author ∧
          intent_payload w = mkUnsigned author (fz_created_at item) 9
            ([$"h"; group_id] :: tags item) (fz_body item)
      else p' = p ∧ ∃ error, r = Err error
  | Err _ => p' = p ∧ ∃ error, r = Err error
  end.
Proof.
  unfold NmpPublisher.accept. unfold mbind, io_bind, io_lift, on_engine; simpl.
  destruct (fz_group_id item =?s group_id) eqn:Hg; simpl;
    [|intros [= <- <-]; split; [done|]; case_match; eauto].
  destruct (compose_spoken_item host item) as [w|error] eqn:Hw; simpl;
    [|intros [= <- <-]; eauto].
  destruct (publish_tracked w (np_engine p)) as [r1 e1].
  intros Hr. injection Hr as <- <-. simpl. split; [done|]. split; [done|].
  unfold compose_spoken_item in Hw. okay Hw as u Hv.
  okay Hw as author Ha. okay Hw as w0 Hs. injection Hw as <-. apply ok_or_ok in Ha, Hs.
  rewrite override_host, override_get, override_payload.
  apply str_eqb_eq in Hg as <-. split; [by eapply send_host|]. exists author.
  split_and!; [done..|]. by eapply send_payload.
Qed.

(** The recovery from a duplicate membership request works only within the
    session that made the first one. When the host refuses the request of a
    job as a duplicate and the session has no membership of the author, as
    after a restart, every attempt to resume fails and learns nothing, however
    often it is repeated, although the author is a member. *)
Theorem duplicate_member_stuck receipt_id author relay reason (p : NmpPublisher E) :
  np_authorized p !! author = None →
  contains $"already a member" reason = true →
  (∀ e, ∃ later, (reattach_receipt receipt_id e).1
     = Ok (Attached (StatusRejected relay reason :: later))) →
  ∀ n, let q := Nat.iter n (λ q, (resume_authorization receipt_id author q).2) p in
    np_authorized q !! author = None ∧
    ∃ error, (resume_authorization receipt_id author q).1 = Err error.
Proof.
  intros Hnone Hdup Hstuck.
  assert (∀ q, np_authorized q !! author = None →
    np_authorized (resume_authorization receipt_id author q).2 !! author = None ∧
    ∃ error, (resume_authorization receipt_id author q).1 = Err error) as Hone.
  { intros q Hq. unfold NmpPublisher.resume_authorization, await_ack, on_engine, await_on_engine.
    unfold mbind, io_bind, io_try. destruct (Hstuck (np_engine q)) as [later Hl].
    destruct (reattach_receipt receipt_id (np_engine q)) as [reattached e]. simpl in Hl. subst.
    simpl. unfold is_duplicate.
    assert (contains $"already a member" ($"NMP write" ++ $" was rejected by "
      ++ relay_str relay ++ $": " ++ reason) = true) as Hc
      by (repeat apply contains_suffix; done).
    rewrite Hc, orb_true_r. unfold authorized_member, io_lift. simpl. rewrite Hq. simpl.
    split; [done|]. by eexists. }
  intros n q. assert (np_authorized q !! author = None) as Hq
    by (subst q; induction n as [|n IH]; simpl; [done|by apply Hone]).
  split; [done|by apply Hone].
Qed.
End contract.

(** A host that is reconciled at once, knows no member, and refuses every
    membership request as a duplicate. *)
Module Example_publisher.
Export Example_nmp.
Definition host : RelayUrl := mkRelayUrl $"wss://relay.example".
Definition frame : ObservedFrame := mkObserved [] [mkSource host Requesting (Some 5%N)] [].
Definition refusal : WriteStatus := StatusRejected host $"duplicate: already a member".

#[export] Instance engine : DaemonEngine (list intent) := {|
  publish_tracked w e := (Ok (len e), w :: e);
  observe _ e := (Ok [frame], e);
  reattach_receipt _ e := (Ok (Attached [refusal]), e);
|}.
#[export] Instance hashing : Hashing :=
  {| sha256_hex _ := $"digest"; request_json _ := Some [] |}.

Definition author : str := $"agent".
Definition admin : PublicKey := mkPublicKey $"daemon".
Definition start : NmpPublisher (list intent) := mkPublisher _ [] ∅.
Definition asked := authorize Ok host $"tts" admin $"req-1" author 7 start.
Definition item : FrozenSpokenItem :=
  mkFrozen author 7 $"tts" $"agent" $"Hello" [] $"Body"
    (mkArtifact $"https://a.example/x.mp3" (repeat 48%N 64) $"audio/mpeg" 3 None) [] [] None.
End Example_publisher.
Import Example_publisher.

Lemma authorize_correct_witness :
  asked.1 = Ok (Accepted 0) ∧
  ∃ w, np_engine asked.2 = [w] ∧ intent_host w = host ∧ correlation w = Some $"digest".
Proof.
  split; [vm_compute; reflexivity|].
  pose proof (@authorize_correct nip29 nip29_laws hashing _ engine Ok host $"tts" admin
    $"req-1" author 7 start (Accepted 0) asked.2 ltac:(vm_compute; reflexivity)) as Ha.
  destruct Ha as (member & demand & frames & e & used & rest & view & _ & _ & _ & _ & _ & _ & _ &
    w & c & Hp & Hh & _ & Ht & Hc & _).
  assert (np_engine asked.2 = w :: e) as Heq by (symmetry; exact (f_equal snd Hp)).
  assert (length (np_engine asked.2) = 1) as Hl by (vm_compute; reflexivity).
  rewrite Heq in Hl. destruct e; [|discriminate]. exists w. split; [exact Heq|].
  split; [exact Hh|]. rewrite Hc. by injection Ht as <-.
Defined.

Lemma accept_own_group_witness :
  (accept host $"tts" item start).1 = Ok 0%N ∧
  ∃ w, np_engine (accept host $"tts" item start).2 = [w] ∧ intent_host w = host.
Proof.
  split; [vm_compute; reflexivity|].
  destruct (@accept_own_group nip29 nip29_laws _ engine host $"tts" item start
    (accept host $"tts" item start).1 (accept host $"tts" item start).2
    (surjective_pairing _)) as [_ Ha].
  destruct (compose_spoken_item host item) as [w|] eqn:Hw; [|vm_compute in Hw; discriminate].
  replace (fz_group_id item =?s $"tts") with true in Ha by (vm_compute; reflexivity).
  destruct Ha as (Hp & Hh & _). exists w. split; [|exact Hh]. symmetry. exact (f_equal snd Hp).
Defined.

Lemma duplicate_member_stuck_witness :
  ∃ error, (resume_authorization (λ _, []) host 0
    author (Nat.iter 3 (λ q, (resume_authorization (λ _, []) host 0 author q).2) start)).1
  = Err error.
Proof.
  apply (@duplicate_member_stuck nip29 _ engine (λ _, []) host 0 author host
    $"duplicate: already a member" start).
  - reflexivity.
  - vm_compute; reflexivity.
  - intros e. by exists [].
Defined.
