(* ===== verification/Bootstrap.v ===== *)
(** Bringing the group up ([daemon/src/group_bootstrap.rs]): observe the group's
    administration, plan what is missing, and publish it. *)

From S2P Require Export Observe DaemonModel.
From S2P Require Import Runner.
Import Membership.GroupAdmin.

Record GroupBootstrapEvidence := mkBootstrap {
  be_daemon_pubkey : str;
  be_group_creation_receipt_id : option N;
  be_group_created_event_id : option str;
  be_owner_admin_receipt_id : option N;
  be_owner_admin_event_id : option str;
}.

Record GroupState := mkGroupState {
  gs_exists : bool;
  gs_daemon_is_admin : bool;
  gs_owner_is_admin : bool;
}.

Record BootstrapPlan := mkPlan {
  plan_create_group : bool;
  plan_promote_owner : bool;
}.

(** [BootstrapPlan::for_state]. *)
Definition for_state (state : GroupState) (owner_is_daemon : bool)
    : result str BootstrapPlan :=
  if negb (gs_exists state) then Ok (mkPlan true (negb owner_is_daemon))
  else if negb (gs_daemon_is_admin state) then
    Err ($"configured group exists, but this daemon identity does not have "
           ++ $"the admin role")
  else Ok (mkPlan false (negb (gs_owner_is_admin state))).

Section bootstrap.
Context `{Nip29, Hashing} {E : Type} `{!DaemonEngine E}.
Context (status_debug : WriteStatus → str) (token : str → result str str).
Context (host : RelayUrl) (group_id : str) (daemon owner : PublicKey).

Definition ADMIN_STATES : nat := 8.
Definition ADMIN_FRAMES : nat := 8.

Definition admin_frame : Current → ObservedFrame → result str (Current * bool) :=
  apply_frame ADMIN_STATES $"NMP returned too many current group administration states"
    $"group administration observation was refused by the selected host" host.

Definition group_state (current : Current) : GroupState :=
  let events := btree_values current in
  mkGroupState
    (existsb (λ event, event_establishes_group event group_id
                       || event_is_group_admin_state event group_id) events)
    (existsb (λ event, event_assigns_role event group_id daemon $"admin") events)
    (existsb (λ event, event_assigns_role event group_id owner $"admin") events).

(** [observe_frames]: [for _ in 0..n] over the frames that arrive in time. *)
Fixpoint observe_frames (n : nat) (last_evidence : str) (current : Current)
    (frames : list ObservedFrame) : result str GroupState :=
  match n with
  | O => Err ($"group administration exceeded its bounded observation stream ("
                ++ last_evidence ++ $")")
  | S n =>
      match frames with
      | [] => Err ($"group administration did not reconcile in time (" ++ last_evidence
                     ++ $")")
      | frame :: frames =>
          next ← admin_frame current frame;
          let '(current, reconciled) := next in
          if (reconciled : bool) then Ok (group_state current)
          else observe_frames n (of_evidence frame) current frames
      end
  end.

Definition observe_state : io E str GroupState :=
  demand ← io_lift (map_err message (group_admin_demand host group_id));
  frames ← io_map_err (λ error, $"group administration observation failed: " ++ error)
             (observe demand);
  io_lift (observe_frames ADMIN_FRAMES $"no frame received" ∅ frames).

Definition correlation_of (operation subject : str) : result str str :=
  map_err (λ error, $"group bootstrap correlation was refused: " ++ error)
    (token (sha256_hex (bytes $"tts29-group-bootstrap-v1" ++ [0%N] ++ bytes operation ++ [0%N]
       ++ bytes (relay_str host) ++ [0%N] ++ bytes group_id ++ [0%N] ++ bytes subject))).

(** Publish a composed intent and wait for the host: the receipt and the event
    id. *)
Definition publish_and_wait (operation : str) (intent : WriteIntent) : io E str (N * str) :=
  receipt ← io_map_err (λ error, operation ++ $" could not be accepted by NMP: " ++ error)
              (publish_tracked intent);
  event_id ← await_on_engine status_debug host operation receipt;
  mret (receipt, event_id).

Definition create_group (created_at : N) : io E str (N * str) :=
  correlation ← io_lift (correlation_of $"create" (pk_hex daemon));
  intent ← io_lift (map_err message
    (compose_group_create host group_id (pk_hex daemon) created_at correlation));
  publish_and_wait $"group creation" intent.

Definition promote_owner (created_at : N) : io E str (N * str) :=
  correlation ← io_lift (correlation_of $"owner-admin" (pk_hex owner));
  intent ← io_lift (map_err message
    (compose_admin_upsert host group_id (pk_hex daemon) (pk_hex owner) $"admin" created_at
       correlation));
  publish_and_wait $"owner promotion" intent.

(** An [if] without [else], whose result is recorded in the evidence. *)
Definition when {A} (b : bool) (m : io E str A) : io E str (option A) :=
  if b then Some <$> m else mret None.

Definition bootstrap_group (created_at : N) : io E str GroupBootstrapEvidence :=
  state ← observe_state;
  plan ← io_lift (for_state state (bool_decide (daemon = owner)));
  created ← when (plan_create_group plan) (create_group created_at);
  promoted ← when (plan_promote_owner plan) (promote_owner created_at);
  mret (mkBootstrap (pk_hex daemon) (fst <$> created) (snd <$> created)
          (fst <$> promoted) (snd <$> promoted)).
End bootstrap.

(** ** What bootstrapping promises *)
Section promises.
Context `{Nip29Laws, Hashing} {E : Type} `{!DaemonEngine E}.
Context (status_debug : WriteStatus → str) (token : str → result str str).
Context (host : RelayUrl) (group_id : str) (daemon owner : PublicKey).

#[local] Abbreviation bootstrap := (bootstrap_group status_debug token host group_id daemon owner).
#[local] Abbreviation frames_of := (observe_frames host group_id daemon owner).

(** The relay's view of the administration that one observation reconciled. *)
Definition admin_view : Current → list ObservedFrame → Current → Prop :=
  observes ADMIN_STATES $"NMP returned too many current group administration states"
    $"group administration observation was refused by the selected host" host.

Lemma observe_frames_ok n frames : ∀ last current state,
  frames_of n last current frames = Ok state ↔
  ∃ used rest final, frames = used ++ rest ∧ length used ≤ n ∧
    admin_view current used final ∧ state = group_state group_id daemon owner final.
Proof.
  revert frames. induction n as [|n IH]; intros frames last current state; simpl.
  { split; [done|]. intros ([|] & rest & final & _ & Hl & Ho & _); [inversion Ho|simpl in Hl; lia]. }
  destruct frames as [|frame frames].
  { split; [done|]. intros (used & rest & final & Heq & _ & Ho & _).
    symmetry in Heq. apply app_nil in Heq as [-> _]. inversion Ho. }
  unfold admin_frame. rewrite bind_ok. split.
  - intros ([c1 [|]] & Hf & Ha).
    + exists [frame], frames, c1. split_and!; [done|simpl; lia| |naive_solver]. by constructor.
    + apply IH in Ha as (used & rest & final & -> & Hl & Ho & ->).
      exists (frame :: used), rest, final. split_and!; [done|simpl; lia| |done]. by econstructor.
  - intros (used & rest & final & Heq & Hl & Ho & ->).
    destruct Ho as [? ? c' Hf|? ? c1 ? ? Hf Ho]; simplify_eq/=.
    + exists (c', true). by split.
    + exists (c1, false). split; [done|]. apply IH. exists frames0, rest, c'.
      split_and!; [done|lia|done..].
Qed.

(** What the three fields of the observed state mean. *)
Definition group_exists (deltas : list RowDelta) : Prop :=
  ∃ e, live deltas e ∧ (event_establishes_group e group_id = true ∨
                        event_is_group_admin_state e group_id = true).
Definition is_admin (deltas : list RowDelta) (user : PublicKey) : Prop :=
  ∃ e, live deltas e ∧ event_assigns_role e group_id user $"admin" = true.

Lemma group_state_spec deltas c :
  (∀ id e, c !! id = Some e ↔ event_id e = id ∧ live deltas e) →
  let state := group_state group_id daemon owner c in
  (gs_exists state = true ↔ group_exists deltas) ∧
  (gs_daemon_is_admin state = true ↔ is_admin deltas daemon) ∧
  (gs_owner_is_admin state = true ↔ is_admin deltas owner).
Proof.
  intros Hc. simpl. unfold group_exists, is_admin. rewrite !existsb_True.
  pose proof (elem_of_btree_values_live c deltas) as Hl.
  setoid_rewrite orb_true_iff. split_and!; split; intros (e & He & Hp); exists e;
    (split; [by apply (Hl _ Hc)|done]).
Qed.

(** A management event that was handed to the engine and acknowledged by the
    group's host: signed by the daemon, for this group. *)
Definition performed (operation : str) (created_at kind : N) (content : str)
    (ts : list (list str)) (e : E) (outcome : N * str) (e' : E) : Prop :=
  ∃ w e1, publish_tracked w e = (Ok outcome.1, e1) ∧
    await_on_engine status_debug host operation outcome.1 e1 = (Ok outcome.2, e') ∧
    intent_host w = host ∧ identity_override w = None ∧
    intent_payload w = mkUnsigned daemon created_at kind ([$"h"; group_id] :: ts) content.

Lemma publish_and_wait_ok operation w e outcome e' :
  publish_and_wait status_debug host operation w e = (Ok outcome, e') →
  ∃ e1, publish_tracked w e = (Ok outcome.1, e1) ∧
    await_on_engine status_debug host operation outcome.1 e1 = (Ok outcome.2, e').
Proof.
  unfold publish_and_wait. intros Hp. run Hp as receipt e1 Hr. run Hp as id e2 Ha.
  injection Hp as <- <-. apply io_map_err_ok in Hr. by exists e1.
Qed.

Definition created_ok (t : N) : E → N * str → E → Prop :=
  performed $"group creation" t 9007 $"TTS29 durable spoken queue" [].
Definition promoted_ok (t : N) : E → N * str → E → Prop :=
  performed $"owner promotion" t 9000 [] [[$"p"; pk_hex owner; $"admin"]].

Lemma create_group_ok t e outcome e' :
  create_group status_debug token host group_id daemon t e = (Ok outcome, e') →
  created_ok t e outcome e'.
Proof.
  unfold create_group. intros Hc. pure Hc as c _. pure Hc as w Hw.
  apply map_err_ok, GroupAdmin.group_create_payload in Hw as (d & Hd & _ & Hh & _ & Ho & Hp).
  rewrite pk_parse_hex in Hd. injection Hd as <-.
  apply publish_and_wait_ok in Hc as (e1 & Hpub & Hack). exists w, e1. by split_and!.
Qed.

Lemma promote_owner_ok t e outcome e' :
  promote_owner status_debug token host group_id daemon owner t e = (Ok outcome, e') →
  promoted_ok t e outcome e'.
Proof.
  unfold promote_owner. intros Hc. pure Hc as c _. pure Hc as w Hw.
  apply map_err_ok, GroupAdmin.admin_upsert_payload in Hw
    as (d & o & Hd & Ho' & _ & _ & Hh & _ & Ho & Hp).
  rewrite pk_parse_hex in Hd, Ho'. injection Hd as <-. injection Ho' as <-.
  apply publish_and_wait_ok in Hc as (e1 & Hpub & Hack). exists w, e1. by split_and!.
Qed.

(** One conditional action: it was skipped, or it was performed. *)
Definition did (b : Prop) (ok : E → N * str → E → Prop) (e : E)
    (outcome : option N * option str) (e' : E) : Prop :=
  (¬ b ∧ outcome = (None, None) ∧ e' = e) ∨
  (b ∧ ∃ rid id, outcome = (Some rid, Some id) ∧ ok e (rid, id) e').

Lemma when_ok b (m : io E str (N * str)) (P : Prop) ok e r e' :
  (b = true ↔ P) → (∀ o, m e = (Ok o, e') → ok e o e') → when b m e = (Ok r, e') →
  did P ok e (fst <$> r, snd <$> r) e'.
Proof.
  intros HP Hok. unfold when. destruct b.
  - intros (o & -> & Hm)%io_fmap_ok. right. split; [by apply HP|].
    exists o.1, o.2. split; [done|]. destruct o. by apply Hok.
  - intros [= <- <-]. left. split_and!; [|done..]. intros ?%HP. done.
Qed.

(** What bootstrapping sees: the frames that the engine's observation of the
    group returns, up to the first one on which the host is reconciled, which is
    among the first eight. *)
Definition administration (e : E) (used : list ObservedFrame) (e' : E) : Prop :=
  ∃ demand frames rest view, group_admin_demand host group_id = Ok demand ∧
    observe demand e = (Ok frames, e') ∧ frames = used ++ rest ∧
    length used ≤ ADMIN_FRAMES ∧ admin_view ∅ used view.

Lemma observe_state_ok e state e' :
  observe_state host group_id daemon owner e = (Ok state, e') →
  ∃ used, administration e used e' ∧
    (gs_exists state = true ↔ group_exists (used ≫= of_deltas)) ∧
    (gs_daemon_is_admin state = true ↔ is_admin (used ≫= of_deltas) daemon) ∧
    (gs_owner_is_admin state = true ↔ is_admin (used ≫= of_deltas) owner).
Proof.
  unfold observe_state. intros Ho. pure Ho as d Hd. run Ho as frames e1 Hobs.
  apply map_err_ok in Hd. apply io_map_err_ok in Hobs.
  apply io_lift_ok in Ho as [Ho <-].
  apply observe_frames_ok in Ho as (used & rest & view & Hfr & Hl & Hv & ->).
  exists used. split; [by exists d, frames, rest, view|].
  split_and!; apply group_state_spec; by apply observes_rows in Hv as [_ ?].
Qed.

(** What bootstrapping did, from one state of the engine to another. *)
Definition brought_up (t : N) (e : E) (evidence : GroupBootstrapEvidence) (e' : E) : Prop :=
  ∃ used e1 e2, administration e used e1 ∧
    let deltas := used ≫= of_deltas in
    (group_exists deltas → is_admin deltas daemon) ∧
    did (¬ group_exists deltas) (created_ok t) e1
      (be_group_creation_receipt_id evidence, be_group_created_event_id evidence) e2 ∧
    did (¬ group_exists deltas ∧ daemon ≠ owner ∨ group_exists deltas ∧ ¬ is_admin deltas owner)
      (promoted_ok t) e2
      (be_owner_admin_receipt_id evidence, be_owner_admin_event_id evidence) e'.

Lemma bootstrap_group_did t e evidence e' :
  bootstrap t e = (Ok evidence, e') → brought_up t e evidence e'.
Proof.
  unfold bootstrap_group. intros Hb. run Hb as state e1 Hs. pure Hb as plan Hplan.
  run Hb as created e2 Hc. run Hb as promoted e3 Hp. injection Hb as <- <-. unfold brought_up. simpl.
  apply observe_state_ok in Hs as (used & Hv & Hexists & Hdaemon & Howner).
  exists used, e1, e2. split_and!; [done| | |].
  - rewrite <-Hexists, <-Hdaemon. unfold for_state in Hplan.
    destruct (gs_exists state); [|done]. by destruct (gs_daemon_is_admin state).
  - eapply when_ok; [|intros o Ho; by apply create_group_ok in Ho|exact Hc].
    rewrite <-Hexists. unfold for_state in Hplan.
    destruct (gs_exists state), (gs_daemon_is_admin state); simplify_eq/=; naive_solver.
  - eapply when_ok; [|intros o Ho; by apply promote_owner_ok in Ho|exact Hp].
    rewrite <-Hexists, <-Howner. unfold for_state in Hplan.
    destruct (gs_exists state), (gs_daemon_is_admin state); simplify_eq/=;
      rewrite ?negb_true_iff, ?bool_decide_eq_false; destruct (gs_owner_is_admin state);
      naive_solver.
Qed.

(** C38: bootstrapping acts on what the engine's observation of the group's
    administration returns, read up to the first frame on which the host is
    reconciled, within eight frames; and starting from there it does exactly
    what is missing, in this order: the group is created when no live event
    establishes it; the owner is promoted when a new group has another owner
    than the daemon, or when the existing group does not list the owner as an
    administrator. It succeeds on an existing group only if the daemon is an
    administrator there, and the evidence names the receipts and acknowledged
    events of what was done. *)
Theorem bootstrap_group_correct t e evidence e' :
  bootstrap t e = (Ok evidence, e') →
  ∃ demand frames used rest view observed,
    group_admin_demand host group_id = Ok demand ∧
    observe demand e = (Ok frames, observed) ∧
    frames = used ++ rest ∧ length used ≤ ADMIN_FRAMES ∧ admin_view ∅ used view ∧
    let deltas := used ≫= of_deltas in
    (group_exists deltas → is_admin deltas daemon) ∧
    ∃ e1,
      did (¬ group_exists deltas) (created_ok t) observed
        (be_group_creation_receipt_id evidence, be_group_created_event_id evidence) e1 ∧
      did (¬ group_exists deltas ∧ daemon ≠ owner ∨ group_exists deltas ∧ ¬ is_admin deltas owner)
        (promoted_ok t) e1
        (be_owner_admin_receipt_id evidence, be_owner_admin_event_id evidence) e'.
Proof.
  intros Hb. apply bootstrap_group_did in Hb
    as (used & e1 & e2 & (demand & frames & rest & view & Hd & Ho & Hf & Hl & Hv) & Ha & Hc & Hp).
  exists demand, frames, used, rest, view, e1. split_and!; [done..|].
  split; [exact Ha|]. exists e2. split; [exact Hc|exact Hp].
Qed.

(** A group that exists and of which the daemon is not an administrator is
    left alone: bootstrapping stops with an error and publishes nothing. *)
Theorem foreign_group_untouched t e demand frames e1 used rest view :
  group_admin_demand host group_id = Ok demand →
  observe demand e = (Ok frames, e1) →
  frames = used ++ rest → length used ≤ ADMIN_FRAMES → admin_view ∅ used view →
  group_exists (used ≫= of_deltas) → ¬ is_admin (used ≫= of_deltas) daemon →
  (∃ error, (bootstrap t e).1 = Err error) ∧ (bootstrap t e).2 = e1.
Proof.
  intros Hd Ho -> Hl Hv Hexists Hadmin.
  assert (observe_frames host group_id daemon owner ADMIN_FRAMES $"no frame received" ∅
    (used ++ rest) = Ok (group_state group_id daemon owner view)) as Hf.
  { apply observe_frames_ok. by exists used, rest, view. }
  destruct (group_state_spec (used ≫= of_deltas) view) as (He & Hda & _).
  { by apply observes_rows in Hv as [_ ?]. }
  unfold bootstrap_group, observe_state, mbind, io_bind, io_lift, io_map_err.
  rewrite Hd. simpl map_err. cbv beta iota. rewrite Ho. simpl map_err. cbv beta iota.
  rewrite Hf. cbv beta iota. unfold for_state. apply He in Hexists as ->.
  destruct (gs_daemon_is_admin _); [destruct Hadmin; by apply Hda|]. simpl. eauto.
Qed.
End promises.

(** A host that acknowledges every write, with a given view of the group. *)
Module Example_bootstrap.
Export Example_nmp.
Definition host : RelayUrl := mkRelayUrl $"wss://relay.example".
Definition daemon : PublicKey := mkPublicKey $"daemon".
Definition owner : PublicKey := mkPublicKey $"owner".

Definition engine (rows : list Row) : DaemonEngine (list intent) := {|
  publish_tracked w e := (Ok (len e), w :: e);
  observe _ e := (Ok [mkObserved (Added <$> rows) [mkSource host Requesting (Some 5%N)] []], e);
  reattach_receipt _ e :=
    (Ok (Attached [StatusSigned (mkEventId $"id"); StatusAcked host]), e);
|}.
#[export] Instance hashing : Hashing :=
  {| sha256_hex _ := $"digest"; request_json _ := Some [] |}.

(** The metadata event of a group that somebody else created. *)
Definition metadata : Row :=
  mkRow (mkEvent (mkEventId $"meta") owner 1 39000 [[$"d"; $"tts"]] []) [host].

Definition run (rows : list Row) :=
  @bootstrap_group nip29 hashing _ (engine rows) (λ _, []) Ok host $"tts" daemon owner 7 [].
End Example_bootstrap.
Import Example_bootstrap.

Lemma bootstrap_group_correct_witness :
  ∃ evidence, (Example_bootstrap.run []).1 = Ok evidence ∧
    be_owner_admin_event_id evidence = Some $"id" ∧
    length (Example_bootstrap.run []).2 = 2 ∧
    ∃ demand used rest, length used ≤ 8 ∧
      (@observe _ _ (engine []) demand []).1 = Ok (used ++ rest) ∧
      is_Some (be_group_creation_receipt_id evidence) ∧
      ¬ group_exists $"tts" (used ≫= of_deltas).
Proof.
  destruct (Example_bootstrap.run []) as [[evidence|] e'] eqn:Hrun;
    [|vm_compute in Hrun; discriminate].
  exists evidence. split; [reflexivity|].
  destruct (@bootstrap_group_correct nip29 nip29_laws hashing _ (engine []) (λ _, []) Ok host
    $"tts" daemon owner 7 [] evidence e' Hrun) as (demand & frames & used & rest & view & observed & _ & Ho & Hf & Hl & _ &
    _ & e1 & Hc & _).
  assert (be_owner_admin_event_id evidence = Some $"id" ∧ length e' = 2 ∧
    be_group_creation_receipt_id evidence = Some 0%N) as (H1 & H2 & H3)
    by (vm_compute in Hrun; inversion Hrun; split_and!; reflexivity).
  split; [exact H1|]. split; [exact H2|].
  exists demand, used, rest. split; [exact Hl|]. split; [by rewrite <-Hf, Ho|].
  split; [by rewrite H3|].
  destruct Hc as [(_ & Hn & _)|(Hn & _)]; [|exact Hn].
  by rewrite H3 in Hn.
Defined.

Lemma foreign_group_untouched_witness :
  (∃ error, (Example_bootstrap.run [metadata]).1 = Err error) ∧
  (Example_bootstrap.run [metadata]).2 = [].
Proof.
  eapply (@foreign_group_untouched nip29 hashing _ (engine [metadata]) (λ _, []) Ok host $"tts"
    daemon owner 7 [] _ [mkObserved [Added metadata] [mkSource host Requesting (Some 5%N)] []]
    [] [mkObserved [Added metadata] [mkSource host Requesting (Some 5%N)] []] []).
  - vm_compute; reflexivity.
  - reflexivity.
  - reflexivity.
  - simpl. unfold ADMIN_FRAMES. lia.
  - apply observes_last. vm_compute. reflexivity.
  - exists (row_event metadata). split; [|left; vm_compute; reflexivity].
    exists [], metadata, []. split; [reflexivity|]. split; [reflexivity|constructor].
  - intros (e & (before & row & after & Heq & <- & _) & He).
    destruct before as [|b [|]]; try discriminate Heq. injection Heq as <- _.
    vm_compute in He. discriminate.
Defined.
