(* ===== verification/Production.v ===== *)
(** The production producer ([daemon/src/production.rs],
    [daemon/src/identity.rs]): it signs each request as the daemon or as the
    request's agent, drives a job through all its phases, and publishes a whole
    spoken tree, each narrated child linked to its parent. *)

From S2P Require Export RunnerFacts.

(** The NMP account operations, the files and the uploader the producer uses
    besides the runner's own capabilities, and the clock. *)
Class ProducerEnv (E : Type) := {
  Registration : Type;
  registered_key : Registration → PublicKey;
  add_account : str → io E str Registration;
  remove_account : Registration → io E str bool;
  read_to_string : str → io E IoError str;
  make_durable_file : str → str → io E str DurableArtifact;
  unix_millis : E → N * E;
}.

(** [TreePublication]. *)
Record TreePublication := mkTreePublication {
  tp_root_event_id : str;
  tp_child_event_ids : list str;
}.

Section production.
Context `{Nip29, Hashing} {J E : Type} `{JobJournal J}.
Context `{Synthesizer E, ArtifactUploader E, Publisher E, WorkDir E, !ProducerEnv E}.
Context (work_root group_id default_voice : str).

(** [ProductionProducer]: the runner and the identity registry, whose daemon
    registration can be replaced. *)
Record Producer := mkProducer {
  pd_runner : @ProducerRunner J E;
  pd_daemon : Registration;
}.

#[local] Abbreviation P := (io Producer ProducerError).

Definition on_runner {X A} (m : io (@ProducerRunner J E) X A) : io Producer X A := λ p,
  let '(r, w) := m (pd_runner p) in (r, mkProducer w (pd_daemon p)).
(** A call on the environment of the runner. *)
Definition on_producer_env {X Y A} (f : X → Y) (m : io E X A) : io Producer Y A :=
  on_runner (λ w, let '(r, e) := m (rn_env w) in
                  (map_err f r, mkRunner (rn_journal w) e)).
Definition get_daemon {X} : io Producer X Registration := λ p, (Ok (pd_daemon p), p).
Definition set_daemon {X} (r : Registration) : io Producer X unit := λ p,
  (Ok (), mkProducer (pd_runner p) r).

(** ** [daemon/src/identity.rs] *)
Record RequestIdentity := mkIdentity {
  ri_author : PublicKey;
  ri_registration : option Registration;
}.

(** [IdentityRegistry::request]. *)
Definition request (agent_secret : option str) : io Producer str RequestIdentity :=
  match agent_secret with
  | None =>
      daemon ← get_daemon;
      mret (mkIdentity (registered_key daemon) None)
  | Some secret =>
      registration ← on_producer_env (λ error, $"NMP request identity was refused: " ++ error)
                       (add_account secret);
      daemon ← get_daemon;
      let author := registered_key registration in
      if bool_decide (author = registered_key daemon) then
        _ ← set_daemon registration;
        mret (mkIdentity author None)
      else mret (mkIdentity author (Some registration))
  end.

(** [RequestIdentity::close]. *)
Definition close (identity : RequestIdentity) : io Producer str unit :=
  match ri_registration identity with
  | None => mret ()
  | Some registration =>
      removed ← on_producer_env (λ error, $"NMP request identity cleanup failed: " ++ error)
                  (remove_account registration);
      if (removed : bool) then mret ()
      else io_err $"NMP request identity changed before cleanup"
  end.

(** ** Publishing one request *)
Definition STAGES : nat := 6.

(** The [for _ in 0..6] and the check after it. *)
Fixpoint advance_to_published (n : nat) (request_id : str) (job : JobRecord)
    : io (@ProducerRunner J E) ProducerError JobRecord :=
  match n with
  | O =>
      io_lift (ok_or (Capability $"publication" $"producer exceeded its bounded stage count")
                 (then_some (is_published (job_phase job)) job))
  | S n =>
      if is_published (job_phase job) then mret job
      else job ← advance work_root request_id; advance_to_published n request_id job
  end.

Definition publish_as (request : ProducerRequest) (author : str) (created_at : N)
    : io (@ProducerRunner J E) ProducerError JobRecord :=
  job ← admit_job request author created_at;
  advance_to_published STAGES (pr_request_id request) job.

(** Run a publication under a request identity, which is closed whatever the
    publication gave; a failed cleanup hides its result. *)
Definition with_identity {A} (agent_secret : option str) (body : str → P A) : P A :=
  identity ← io_map_err (Capability $"request_identity") (request agent_secret);
  result ← io_try (body (pk_hex (ri_author identity)));
  _ ← io_map_err (Capability $"request_identity_cleanup") (close identity);
  io_lift result.

Definition check_group (group : str) : P unit :=
  io_lift (fail_if (InvalidRequest $"group_id") (negb (group =?s group_id))).

Definition publish (request : ProducerRequest) (created_at : N) (agent_secret : option str)
    : P JobRecord :=
  _ ← check_group (pr_group_id request);
  with_identity agent_secret (λ author, on_runner (publish_as request author created_at)).

(** [self.clock.unix_millis() / 1_000]. *)
Definition now : P N := on_runner (λ w,
  let '(millis, e) := unix_millis (rn_env w) in
  (Ok (millis / 1000)%N, mkRunner (rn_journal w) e)).

Definition publish_now (request : ProducerRequest) (agent_secret : option str)
    : P JobRecord :=
  created_at ← now;
  publish request created_at agent_secret.

(** ** Publishing a tree *)
Definition child_request_id (parent : str) (index : nat) : str :=
  take 60 parent ++ $"-" ++ u64_to_string (N.of_nat index).

(** The first loop over the attachments: the files are uploaded in order. *)
Definition upload_step (durable : list DurableArtifact) (attachment : TreeAttachment)
    : io (@ProducerRunner J E) ProducerError (list DurableArtifact) :=
  match attachment with
  | File label file =>
      artifact ← on_env (Capability $"attachment_upload") (make_durable_file file label);
      mret (durable ++ [artifact])
  | Narrated _ _ _ _ => mret durable
  end.

(** What is fixed for all the nodes of a tree. *)
Context (agent_name author : str) (created_at : N).

Definition node_request (request_id title summary body : str) (durable : list DurableArtifact)
    (questions : list Question) (parent : option str) : ProducerRequest :=
  mkRequest request_id group_id default_voice agent_name title summary body durable questions
    (mkAttachLink <$> parent).

(** [publish_node] up to the loop over the narrated children: the event id of
    the node. *)
Definition publish_node_event (request_id title summary message_path : str)
    (questions : list Question) (attachments : list TreeAttachment) (parent : option str)
    : io (@ProducerRunner J E) ProducerError str :=
  body ← on_env (λ error, Capability $"read_message" (io_error_message error))
           (read_to_string message_path);
  durable ← try_fold upload_step [] attachments;
  job ← publish_as (node_request request_id title summary body durable questions parent)
          author created_at;
  io_lift (ok_or (Capability $"publication" $"spoken node did not reach publication")
             (phase_event_id (job_phase job))).

(** The loop over the narrated children, with [publish_node] for a child. *)
Fixpoint publish_children
    (publish_child : TreeAttachment → str → str → list str →
       io (@ProducerRunner J E) ProducerError (str * list str))
    (request_id event_id : str) (index : nat) (attachments : list TreeAttachment)
    (published : list str) : io (@ProducerRunner J E) ProducerError (list str) :=
  match attachments with
  | [] => mret published
  | File _ _ :: attachments =>
      publish_children publish_child request_id event_id index attachments published
  | Narrated _ _ _ _ as child :: attachments =>
      node ← publish_child child (child_request_id request_id index) event_id published;
      publish_children publish_child request_id event_id (S index) attachments
        (node.2 ++ [node.1])
  end.

(** [publish_node] of a narrated attachment, under an id and a parent event. *)
Fixpoint publish_child (child : TreeAttachment) (request_id parent : str)
    (published : list str) : io (@ProducerRunner J E) ProducerError (str * list str) :=
  match child with
  | File _ _ => mret (request_id, published)   (** not reached *)
  | Narrated label message questions attachments =>
      event_id ← publish_node_event request_id label [] message questions attachments
                   (Some parent);
      published ← publish_children publish_child request_id event_id 0 attachments published;
      mret (event_id, published)
  end.

Definition publish_node (request_id title summary message_path : str)
    (questions : list Question) (attachments : list TreeAttachment) (parent : option str)
    (published : list str) : io (@ProducerRunner J E) ProducerError (str * list str) :=
  event_id ← publish_node_event request_id title summary message_path questions attachments
               parent;
  published ← publish_children publish_child request_id event_id 0 attachments published;
  mret (event_id, published).
End production.

Section tree.
Context `{Nip29, Hashing} {J E : Type} `{JobJournal J}.
Context `{Synthesizer E, ArtifactUploader E, Publisher E, WorkDir E, !ProducerEnv E}.
Context (work_root group_id default_voice : str).

Definition publish_tree (tree : SpokenTree) (agent_name : str) (agent_secret : option str)
    : io (@Producer J E _) ProducerError TreePublication :=
  _ ← check_group group_id (tree_group_id tree);
  with_identity agent_secret (λ author,
    created_at ← now;
    node ← on_runner (publish_node work_root group_id default_voice agent_name author created_at
             (tree_request_id tree) (tree_title tree) (default [] (tree_summary tree))
             (tree_message tree) (tree_questions tree) (tree_attachments tree) None []);
    mret (mkTreePublication node.1 node.2)).
End tree.
