(* ===== verification/ProductionFacts.v ===== *)
(** What the production producer guarantees: the bound on the stages is never
    reached, a published tree is complete and linked, and when the ids of a
    tree's nodes are distinct. *)

From S2P Require Export Production.

(** ** Runs of the producer *)
Section runs.
Context `{Nip29, Hashing} {J E : Type} `{JobJournalLaws J}.
Context `{Synthesizer E, ArtifactUploader E, Publisher E, WorkDir E, !ProducerEnv E}.
Context (work_root : str).

#[local] Abbreviation runner := (@ProducerRunner J E).
#[local] Abbreviation runs_to := (rtc (runner_step (J := J) (E := E) work_root)).

(** A computation that acts on the jobs through the runner only. *)
Definition runs {X A} (m : io runner X A) : Prop := ∀ w r w', m w = (r, w') → runs_to w w'.

Lemma runs_ret {X A} (a : A) : runs (mret a : io runner X A).
Proof. intros w r w' [= _ <-]. constructor. Qed.
Lemma runs_lift {X A} (m : result X A) : runs (io_lift m).
Proof. intros w r w' [= _ <-]. constructor. Qed.
Lemma runs_bind {X A B} (m : io runner X A) (f : A → io runner X B) :
  runs m → (∀ a, runs (f a)) → runs (m ≫= f).
Proof.
  intros Hm Hf w r w'' [(a & w' & Ha & Hb)|(e & He & _)]%io_bind_inv; [|by eapply Hm].
  etrans; [by eapply Hm|by eapply Hf].
Qed.
Lemma runs_env {X A} (f : X → ProducerError) (m : io E X A) : runs (on_env f m).
Proof.
  intros [j e] r w'. unfold on_env. simpl. destruct (m e) as [r0 e'].
  intros [= _ <-]. apply rtc_once. constructor.
Qed.
Lemma runs_admit q author t : runs (admit_job q author t).
Proof. intros w r w' Ha. eapply rtc_once. by econstructor. Qed.
Lemma runs_advance id : runs (advance work_root id).
Proof. intros w r w' Ha. eapply rtc_once. by econstructor. Qed.
Lemma runs_now : runs (λ w : runner, let '(millis, e) := unix_millis (rn_env w) in
  (Ok (millis / 1000)%N : result ProducerError N, mkRunner (rn_journal w) e)).
Proof.
  intros [j e] r w'. simpl. destruct (unix_millis e). intros [= _ <-].
  apply rtc_once. constructor.
Qed.
#[local] Hint Resolve runs_ret runs_lift runs_bind runs_env runs_admit runs_advance : tts29.

Lemma runs_advance_to_published n id job : runs (advance_to_published work_root n id job).
Proof.
  revert job. induction n as [|n IH]; intros job; simpl; [auto with tts29|].
  destruct (is_published _); auto with tts29.
Qed.
Lemma runs_publish_as q author t : runs (publish_as work_root q author t).
Proof. apply runs_bind; [apply runs_admit|intros; apply runs_advance_to_published]. Qed.

Lemma runs_uploads atts : ∀ durable : list DurableArtifact,
  runs (try_fold (M := io runner ProducerError) upload_step durable atts).
Proof.
  induction atts as [|a atts IH]; intros durable; simpl; [auto with tts29|].
  apply runs_bind; [|done]. destruct a; simpl; auto with tts29.
Qed.

(** A record that is published stays as it is. *)
Lemma published_final w w' id job :
  jobs_ok w → runs_to w w' → at_ w id = Some job → is_published (job_phase job) = true →
  at_ w' id = Some job.
Proof.
  intros Hok Hw Hj Hp. apply runner_reachable in Hw as [_ Hm]; [|done].
  destruct (Hm _ _ Hj) as (p & Hj' & Hedge). rewrite Hj'. f_equal.
  destruct job as [????? ph]; unfold set_phase; simpl in *. f_equal.
  destruct Hedge as [|p q r He _]; [done|]. destruct He; done.
Qed.

(** ** One request *)

(** An attempt at advancing on the way that failed with this error. *)
Definition advance_failed (id : str) (w : runner) (e : ProducerError) (w' : runner) : Prop :=
  ∃ w1, runs_to w w1 ∧ advance work_root id w1 = (Err e, w').

Lemma advance_to_published_spec n id : ∀ job w r w',
  jobs_ok w → at_ w id = Some job → 6 ≤ phase_rank (job_phase job) + n →
  advance_to_published work_root n id job w = (r, w') →
  match r with
  | Ok job' => at_ w' id = Some job' ∧ is_published (job_phase job') = true ∧
      ∃ p, job' = set_phase p job
  | Err e => advance_failed id w e w'
  end.
Proof.
  assert (∀ job w r w', at_ w id = Some job → is_published (job_phase job) = true →
    (mret job : io runner ProducerError JobRecord) w = (r, w') →
    match r with
    | Ok job' => at_ w' id = Some job' ∧ is_published (job_phase job') = true ∧
        ∃ p, job' = set_phase p job
    | Err e => advance_failed id w e w'
    end) as Hdone.
  { intros job w r w' Hj Hp [= <- <-]. split_and!; [done..|]. exists (job_phase job).
    by destruct job. }
  induction n as [|n IH]; intros job w r w' Hok Hj Hrank; simpl.
  - assert (is_published (job_phase job) = true) as Hp
      by (destruct (job_phase job); simpl in *; done || lia).
    rewrite Hp. simpl. by apply Hdone.
  - destruct (is_published (job_phase job)) eqn:Hp; [by apply Hdone|].
    intros [(job1 & w1 & Ha & Hn)|(e & Ha & ->)]%io_bind_inv.
    2:{ exists w. by split; [constructor|]. }
    pose proof (runs_advance _ _ _ _ Ha) as Hrun.
    apply advance_spec in Ha as [_ (job0 & Hj0 & Hj1 & Hcase)]; [|done].
    rewrite Hj in Hj0. injection Hj0 as <-.
    destruct Hcase as [[-> Hpub]|(p & -> & Hedge & _)]; [congruence|].
    pose proof (phase_edge_rank _ _ Hedge) as Hr.
    apply IH in Hn; [|by eapply runner_reachable|done|simpl; lia].
    destruct r as [job'|e].
    + destruct Hn as (? & ? & p' & ->). split_and!; [done..|]. by exists p'.
    + destruct Hn as (w2 & Hw2 & He). exists w2. split; [by etrans|done].
Qed.
End runs.

Section producing.
Context `{Nip29, Hashing} {J E : Type} `{JobJournalLaws J}.
Context `{Synthesizer E, ArtifactUploader E, Publisher E, WorkDir E, !ProducerEnv E}.
Context (work_root group_id default_voice : str).

#[local] Abbreviation runner := (@ProducerRunner J E).
#[local] Abbreviation runs_to := (rtc (runner_step (J := J) (E := E) work_root)).

Lemma publish_as_spec q author t (w : runner) r w' :
  jobs_ok w → publish_as work_root q author t w = (r, w') →
  match r with
  | Ok job => at_ w' (pr_request_id q) = Some job ∧ is_published (job_phase job) = true ∧
      job_author job = author ∧ request_digest q = Ok (job_request_digest job)
  | Err e => admit_job q author t w = (Err e, w') ∨
      advance_failed work_root (pr_request_id q) w e w'
  end.
Proof.
  intros Hok [(job & w1 & Ha & Hn)|(e & Ha & ->)]%io_bind_inv; [|by left].
  pose proof (runs_admit work_root _ _ _ _ _ _ Ha) as Hrun.
  apply admit_spec in Ha as (_ & _ & Hjob). destruct (Hjob _ eq_refl) as (Hj & Hau & Hd & _).
  apply advance_to_published_spec in Hn; [|by eapply runner_reachable|done|unfold STAGES; lia].
  destruct r as [job'|e].
  - destruct Hn as (? & ? & p & ->). done.
  - right. destruct Hn as (w2 & ? & ?). exists w2. split; [by etrans|done].
Qed.

(** ** Trees *)
Context (agent_name author : str) (created_at : N).

#[local] Abbreviation node_event :=
  (publish_node_event work_root group_id default_voice agent_name author created_at).
#[local] Abbreviation child_of :=
  (publish_child work_root group_id default_voice agent_name author created_at).

(** The record of one node: published as this event by the author, for a
    request with this title and these questions, linked to this parent. *)
Definition node_job (jobs : str → option JobRecord) (id title : str)
    (questions : list Question) (parent : option str) (event : str) : Prop :=
  ∃ job r, jobs id = Some job ∧ phase_event_id (job_phase job) = Some event ∧
    job_author job = author ∧ request_digest r = Ok (job_request_digest job) ∧
    pr_request_id r = id ∧ pr_group_id r = group_id ∧ pr_subject r = title ∧
    pr_questions r = questions ∧ pr_attach r = mkAttachLink <$> parent.

(** The narrated attachments of a node are published: each under the id
    derived from its place among them, as a child of the node's event, with its
    own children; the ids of the published events are listed children first. *)
Inductive children_published (jobs : str → option JobRecord) (id event : str) :
    nat → list TreeAttachment → list str → Prop :=
  | children_none i : children_published jobs id event i [] []
  | children_file i label file atts events :
      children_published jobs id event i atts events →
      children_published jobs id event i (File label file :: atts) events
  | children_narrated i label message questions sub atts child_event below events :
      node_job jobs (child_request_id id i) label questions (Some event) child_event →
      children_published jobs (child_request_id id i) child_event 0 sub below →
      children_published jobs id event (S i) atts events →
      children_published jobs id event i (Narrated label message questions sub :: atts)
        (below ++ child_event :: events).

(** The same, whatever the order in which the events are listed: each event of
    a node below occurs once, and no other does. *)
Inductive descendants_published (jobs : str → option JobRecord) (id event : str) :
    nat → list TreeAttachment → list str → Prop :=
  | descendants_none i : descendants_published jobs id event i [] []
  | descendants_file i label file atts events :
      descendants_published jobs id event i atts events →
      descendants_published jobs id event i (File label file :: atts) events
  | descendants_narrated i label message questions sub atts child_event below others events :
      node_job jobs (child_request_id id i) label questions (Some event) child_event →
      descendants_published jobs (child_request_id id i) child_event 0 sub below →
      descendants_published jobs id event (S i) atts others →
      events ≡ₚ child_event :: below ++ others →
      descendants_published jobs id event i (Narrated label message questions sub :: atts) events.

Lemma children_descendants jobs id event i atts events :
  children_published jobs id event i atts events →
  descendants_published jobs id event i atts events.
Proof.
  induction 1; [by constructor|by constructor|].
  eapply descendants_narrated; [done..|]. by rewrite Permutation_middle.
Qed.

Lemma node_event_runs id title summary path qs atts parent :
  runs work_root (node_event id title summary path qs atts parent).
Proof.
  apply runs_bind; [apply runs_env|intros body].
  apply runs_bind; [apply runs_uploads|intros durable].
  apply runs_bind; [apply runs_publish_as|intros job; apply runs_lift].
Qed.

Lemma node_event_ok id title summary path qs atts parent (w : runner) event w' :
  jobs_ok w → node_event id title summary path qs atts parent w = (Ok event, w') →
  node_job (at_ w') id title qs parent event.
Proof.
  unfold publish_node_event. intros Hok Hn.
  run Hn as body w1 Hb. run Hn as durable w2 Hu. run Hn as job w3 Hp.
  apply io_lift_ok in Hn as [Hev%ok_or_ok <-].
  apply runs_env with (work_root := work_root) in Hb. apply (runs_uploads work_root) in Hu.
  apply publish_as_spec in Hp as (Hj & _ & Hau & Hd);
    [|by eapply runner_reachable; [|eapply runner_reachable]].
  eexists job, _. split_and!; [exact Hj|done|done|exact Hd|done..].
Qed.

(** Only the records matter. *)
Lemma node_job_same (jobs jobs' : str → option JobRecord) id title qs parent event :
  (∀ i, jobs' i = jobs i) →
  node_job jobs id title qs parent event → node_job jobs' id title qs parent event.
Proof. intros Heq (job & r & Hj & Hrest). exists job, r. by rewrite Heq. Qed.

Lemma children_same (jobs jobs' : str → option JobRecord) id event i atts events :
  (∀ i, jobs' i = jobs i) →
  children_published jobs id event i atts events →
  children_published jobs' id event i atts events.
Proof. intros Heq. induction 1; constructor; try done. by eapply node_job_same. Qed.

(** The records of a tree stay published. *)
Lemma node_job_later (w w' : runner) id title qs parent event :
  jobs_ok w → runs_to w w' →
  node_job (at_ w) id title qs parent event → node_job (at_ w') id title qs parent event.
Proof.
  intros Hok Hw (job & r & Hj & Hev & Hrest). exists job, r. split_and!; try naive_solver.
  eapply published_final; [done..|]. by destruct (job_phase job).
Qed.

Lemma children_later (w w' : runner) id event i atts events :
  jobs_ok w → runs_to w w' →
  children_published (at_ w) id event i atts events →
  children_published (at_ w') id event i atts events.
Proof.
  intros Hok Hw. induction 1; constructor; try done. by eapply node_job_later.
Qed.

(** What [publish_child] does, for one attachment. *)
Definition child_spec (c : TreeAttachment) : Prop :=
  ∀ id parent acc (w : runner) r w',
    jobs_ok w → child_of c id parent acc w = (r, w') →
    runs_to w w' ∧
    ∀ event acc', r = Ok (event, acc') →
      match c with
      | File _ _ => True
      | Narrated label _ questions atts =>
          node_job (at_ w') id label questions (Some parent) event ∧
          ∃ below, acc' = acc ++ below ∧ children_published (at_ w') id event 0 atts below
      end.

Lemma publish_children_spec atts : Forall child_spec atts →
  ∀ id event i acc (w : runner) r w',
    jobs_ok w → publish_children child_of id event i atts acc w = (r, w') →
    runs_to w w' ∧
    ∀ acc', r = Ok acc' →
      ∃ events, acc' = acc ++ events ∧ children_published (at_ w') id event i atts events.
Proof.
  induction 1 as [|a atts Ha _ IH]; intros id event i acc w r w' Hok; simpl.
  { intros [= <- <-]. split; [done|]. intros ? [= <-]. exists [].
    by split; [rewrite app_nil_r|constructor]. }
  destruct a as [label file|label message questions sub].
  { intros [Hw Hk]%IH; [|done]. split; [done|].
    intros acc' (events & -> & Hc)%Hk. exists events. by split; [|constructor]. }
  intros [([ev acc1] & w1 & Hc & Hk)|(e & Hc & ->)]%io_bind_inv.
  2:{ by apply Ha in Hc as [Hw _]. }
  apply Ha in Hc as [Hw1 Hnode]; [|done].
  destruct (Hnode _ _ eq_refl) as (Hj & below & -> & Hsub).
  apply IH in Hk as [Hw2 Hk]; [|by eapply runner_reachable].
  split; [by etrans|]. intros acc' (events & -> & Hrest)%Hk. simpl.
  exists (below ++ ev :: events). split; [by rewrite <-!(assoc_L (++))|].
  assert (jobs_ok w1) by by eapply runner_reachable.
  constructor; [by eapply node_job_later|by eapply children_later|done].
Qed.

Lemma publish_child_spec c : child_spec c.
Proof.
  revert c. fix IH 1. intros [label file|label message questions atts].
  { intros id parent acc w r w' _ [= _ <-]. by split. }
  assert (Forall child_spec atts) as Hatts
    by (clear -IH; induction atts as [|a atts IHl]; constructor; [apply IH|exact IHl]).
  clear IH. intros id parent acc w r w' Hok. simpl.
  intros [(event & w1 & He & Hk)|(e & He & ->)]%io_bind_inv.
  2:{ by apply node_event_runs in He. }
  pose proof (node_event_runs _ _ _ _ _ _ _ _ _ _ He) as Hw1.
  apply node_event_ok in He; [|done].
  apply io_bind_inv in Hk as [(acc1 & w2 & Hc & Hk)|(e & Hc & ->)];
    (apply publish_children_spec in Hc as [Hw2 Hc]; [|done|by eapply runner_reachable]);
    [injection Hk as <- <-|by split; [etrans|]].
  split; [by etrans|]. intros ? ? [= <- <-].
  destruct (Hc _ eq_refl) as (below & -> & Hb).
  split; [|by exists below]. eapply node_job_later; [|done..]. by eapply runner_reachable.
Qed.
End producing.

(** ** The ids of the nodes of a tree *)

(** The id of the node at a path of child indices below the root. *)
Definition node_id : str → list nat → str := foldl child_request_id.

Lemma last_separator {A} (c : A) p q d d' :
  c ∉ d → c ∉ d' → p ++ c :: d = q ++ c :: d' → p = q ∧ d = d'.
Proof.
  intros Hd Hd'. revert q. induction p as [|x p IH]; intros [|y q]; simpl; intros Heq.
  - by injection Heq.
  - injection Heq as -> ->. destruct Hd. set_solver.
  - injection Heq as <- <-. destruct Hd'. set_solver.
  - injection Heq as -> Heq. by apply IH in Heq as [-> ->].
Qed.

Lemma child_request_id_inj p q i j :
  length p ≤ 60 → length q ≤ 60 →
  (N.of_nat i ≤ u64_max)%N → (N.of_nat j ≤ u64_max)%N →
  child_request_id p i = child_request_id q j → p = q ∧ i = j.
Proof.
  intros Hp Hq Hi Hj. unfold child_request_id. rewrite !take_ge by done.
  change ($"-" ++ ?d) with (45%N :: d).
  intros [-> Heq]%last_separator; [|by apply u64_to_string_free..].
  split; [done|]. apply u64_to_string_inj in Heq; lia.
Qed.

Lemma child_request_id_length p i :
  length (child_request_id p i) = min 60 (length p) + 1 + length (u64_to_string (N.of_nat i)).
Proof. unfold child_request_id. rewrite !length_app, length_take. by rewrite Nat.add_assoc. Qed.

(** The parent of every node on a path whose last parent is short is short. *)
Lemma node_id_short root path i :
  length (node_id root (path ++ [i])) ≤ 60 → length (node_id root path) ≤ 60.
Proof. unfold node_id. rewrite foldl_app. simpl. rewrite child_request_id_length. lia. Qed.

Lemma node_id_longer root path i :
  length (node_id root path) ≤ 60 → length root < length (node_id root (path ++ [i])).
Proof.
  revert i. induction path as [|j path IH] using rev_ind; intros i Hs.
  - simpl. rewrite child_request_id_length. simpl in Hs. lia.
  - pose proof (IH j (node_id_short _ _ _ Hs)) as Hlt.
    unfold node_id in *. rewrite foldl_app. simpl. rewrite child_request_id_length. lia.
Qed.

(** Within a tree whose inner nodes have ids of at most sixty characters,
    no two nodes share an id: equal ids come from equal paths. *)
Theorem node_ids_distinct root path path' :
  Forall (λ i, N.of_nat i ≤ u64_max)%N path → Forall (λ i, N.of_nat i ≤ u64_max)%N path' →
  length (node_id root (removelast path)) ≤ 60 →
  length (node_id root (removelast path')) ≤ 60 →
  node_id root path = node_id root path' → path = path'.
Proof.
  revert path'. induction path as [|i path IH] using rev_ind; intros path' Hb Hb' Hs Hs' Heq;
    induction path' as [|j path' _] using rev_ind; [done| | |];
    rewrite ?removelast_last in Hs; rewrite ?removelast_last in Hs'.
  - pose proof (node_id_longer root path' j Hs'). rewrite <-Heq in H. unfold node_id in H. simpl in H. lia.
  - pose proof (node_id_longer root path i Hs). rewrite Heq in H. unfold node_id in H. simpl in H. lia.
  - apply Forall_app in Hb as [Hb [Hi _]%Forall_cons], Hb' as [Hb' [Hj _]%Forall_cons].
    unfold node_id in Heq. rewrite !foldl_app in Heq. simpl in Heq.
    apply child_request_id_inj in Heq as [Heq ->]; [|done..].
    rewrite (IH path'); [done|done|done| | |done].
    + induction path as [|k path _] using rev_ind; [done|]. rewrite removelast_last.
      by eapply node_id_short.
    + induction path' as [|k path' _] using rev_ind; [done|]. rewrite removelast_last.
      by eapply node_id_short.
Qed.

(** With a longer id the names collide: below a node whose id has sixty
    characters or more, the [j]-th child of any child takes the id of the
    node's own [j]-th child. *)
Theorem long_ids_collide parent i j :
  60 ≤ length parent →
  child_request_id (child_request_id parent i) j = child_request_id parent j.
Proof.
  intros Hl. unfold child_request_id. f_equal.
  rewrite take_app_le by (rewrite length_take; lia). by rewrite take_take, Nat.min_id.
Qed.

(** The ids that are derived are valid ids, for fewer than a thousand children. *)
Lemma valid_request_id_iff s : valid_request_id s = true ↔ is_identifier s.
Proof.
  rewrite <-(identifier_check s). unfold identifier.
  fold (valid_request_id s). destruct (valid_request_id s); simpl; [|by split; [|intros [? [=]]]].
  by split.
Qed.

Lemma child_request_id_valid parent i :
  valid_request_id parent = true → i < 1000 →
  valid_request_id (child_request_id parent i) = true.
Proof.
  rewrite !valid_request_id_iff. intros (Hne & Hl & Hf) Hi.
  assert (length (u64_to_string (N.of_nat i)) ≤ 3 ∧
    Forall (λ c, identifier_byte c = true) (u64_to_string (N.of_nat i))) as [Hd Hdf].
  { assert (forallb (λ i, (length (u64_to_string (N.of_nat i)) <=? 3)
      && forallb identifier_byte (u64_to_string (N.of_nat i))) (seq 0 1000) = true) as Hall
      by (vm_compute; reflexivity).
    apply forallb_True in Hall. rewrite Forall_forall in Hall.
    specialize (Hall i ltac:(apply elem_of_seq; lia)). simpl in Hall.
    apply andb_true_iff in Hall as [H1 H2]. apply Nat.leb_le in H1. apply forallb_True in H2.
    done. }
  split_and!.
  - unfold child_request_id. by destruct (take 60 parent).
  - unfold len. rewrite child_request_id_length. lia.
  - unfold child_request_id. rewrite !Forall_app. split_and!; [by apply Forall_take| |done].
    change $"-" with [45%N]. by constructor.
Qed.

(** ** Whole publications *)
Section publications.
Context `{Nip29, Hashing} {J E : Type} `{JobJournalLaws J}.
Context `{Synthesizer E, ArtifactUploader E, Publisher E, WorkDir E, !ProducerEnv E}.
Context (work_root group_id default_voice : str).

#[local] Abbreviation producer := (@Producer J E _).
#[local] Abbreviation jobs p := (at_ (pd_runner (p : producer))).

Lemma on_producer_env_inv {X Y A} (f : X → Y) (m : io E X A) (p : producer) r p' :
  on_producer_env f m p = (r, p') →
  ∃ r0, m (rn_env (pd_runner p)) = (r0, rn_env (pd_runner p')) ∧ r = map_err f r0 ∧
    rn_journal (pd_runner p') = rn_journal (pd_runner p) ∧ pd_daemon p' = pd_daemon p.
Proof.
  unfold on_producer_env, on_runner. destruct p as [[j e] d]. simpl.
  destruct (m e) as [r0 e']. intros [= <- <-]. by exists r0.
Qed.

Lemma on_runner_inv {X A} (m : io (@ProducerRunner J E) X A) (p : producer) r p' :
  on_runner m p = (r, p') →
  m (pd_runner p) = (r, pd_runner p') ∧ pd_daemon p' = pd_daemon p.
Proof.
  unfold on_runner. destruct (m (pd_runner p)) as [r0 w]. by intros [= <- <-].
Qed.

(** How a request's identity was obtained. *)
Definition identified (secret : option str) (p : producer) (identity : RequestIdentity)
    (p1 : producer) : Prop :=
  rn_journal (pd_runner p1) = rn_journal (pd_runner p) ∧
  match secret with
  | None => p1 = p ∧ ri_author identity = registered_key (pd_daemon p) ∧
      ri_registration identity = None
  | Some secret =>
      ∃ reg, add_account secret (rn_env (pd_runner p)) = (Ok reg, rn_env (pd_runner p1)) ∧
        ri_author identity = registered_key reg ∧
        (registered_key reg = registered_key (pd_daemon p) ∧
           pd_daemon p1 = reg ∧ ri_registration identity = None ∨
         registered_key reg ≠ registered_key (pd_daemon p) ∧
           pd_daemon p1 = pd_daemon p ∧ ri_registration identity = Some reg)
  end.

Lemma request_ok secret (p : producer) identity p1 :
  request secret p = (Ok identity, p1) → identified secret p identity p1.
Proof.
  unfold request, identified. destruct secret as [secret|].
  - intros Hr. run Hr as reg p2 Ha. run Hr as daemon p3 Hd. injection Hd as <- <-.
    apply on_producer_env_inv in Ha as (r0 & Ha & Hr0 & Hj & Hd).
    symmetry in Hr0. apply map_err_ok in Hr0 as ->. rewrite Hd in Hr.
    case_bool_decide as Hk.
    + run Hr as u p4 Hs. injection Hs as <- <-. injection Hr as <- <-. simpl.
      split; [done|]. exists reg. split_and!; [done|done|]. by left.
    + injection Hr as <- <-. split; [done|]. exists reg. split_and!; [done|done|]. by right.
  - intros Hr. run Hr as daemon p3 Hd. injection Hd as <- <-. by injection Hr as <- <-.
Qed.

(** A publication under an identity: the request of the identity failed, or
    the body ran and the identity was closed after it. *)
Lemma with_identity_inv {A} secret (body : str → io producer ProducerError A) (p : producer) r p' :
  with_identity secret body p = (r, p') →
  (∃ reason, request secret p = (Err reason, p') ∧ r = Err (Capability $"request_identity" reason)) ∨
  ∃ identity p1 result p2 closed,
    identified secret p identity p1 ∧
    body (pk_hex (ri_author identity)) p1 = (result, p2) ∧
    close identity p2 = (closed, p') ∧
    r = match closed with
        | Ok _ => result
        | Err reason => Err (Capability $"request_identity_cleanup" reason)
        end.
Proof.
  unfold with_identity, mbind, io_bind, io_map_err, io_try, io_lift.
  destruct (request secret p) as [[identity|reason] p1] eqn:Hr; simpl.
  2:{ intros [= <- <-]. left. by exists reason. }
  apply request_ok in Hr. destruct (body _ p1) as [result p2] eqn:Hb.
  destruct (close identity p2) as [[[]|reason] p3] eqn:Hc; simpl; intros [= <- <-];
    right; eexists _, _, _, _, _; (split_and!; [done|done|exact Hc|done]).
Qed.

(** No agent key outlives its request. A publication for an agent whose
    key is not the daemon's registers that key, signs as it, and afterwards
    asks the engine to remove exactly that registration, whether or not the
    publication succeeded; unless the engine confirms the removal, the
    publication is reported as failed. An agent that presents the daemon's own
    key becomes the daemon's registration, which is kept. *)
Theorem agent_identity_closed {A} secret (body : str → io producer ProducerError A)
    (p : producer) r p' :
  (∀ author q r' q', body author q = (r', q') → pd_daemon q' = pd_daemon q) →
  with_identity (Some secret) body p = (r, p') →
  (∃ error p1, add_account secret (rn_env (pd_runner p)) = (Err error, p1) ∧
     r = Err (Capability $"request_identity" ($"NMP request identity was refused: " ++ error))) ∨
  ∃ reg e0, add_account secret (rn_env (pd_runner p)) = (Ok reg, e0) ∧
    if decide (registered_key reg = registered_key (pd_daemon p))
    then pd_daemon p' = reg
    else pd_daemon p' = pd_daemon p ∧
      ∃ e1 removal, remove_account reg e1 = (removal, rn_env (pd_runner p')) ∧
        (removal ≠ Ok true →
           ∃ reason, r = Err (Capability $"request_identity_cleanup" reason)).
Proof.
  intros Hbody [(reason & Hr & ->)|(identity & p1 & result & p2 & closed & Hid & Hb & Hc & ->)]
    %with_identity_inv.
  - left. unfold request in Hr. apply io_bind_inv in Hr as [(reg & q & Ha & Hr)|(error & Ha & [= <-])].
    + exfalso. unfold mbind, io_bind, get_daemon, set_daemon in Hr. by case_bool_decide.
    + apply on_producer_env_inv in Ha as ([|error0] & Ha & [= ->] & _). by eexists error0, _.
  - right. destruct Hid as (_ & reg & Ha & _ & Hcase). exists reg, (rn_env (pd_runner p1)).
    split; [done|]. apply Hbody in Hb. destruct Hcase as [(Hk & Hd & Hreg)|(Hk & Hd & Hreg)].
    + rewrite decide_True by done. unfold close in Hc. rewrite Hreg in Hc.
      injection Hc as _ <-. congruence.
    + rewrite decide_False by done. unfold close in Hc. rewrite Hreg in Hc.
      apply io_bind_inv in Hc as [(removed & q & Hrem & Hc)|(error & Hrem & ->)];
        apply on_producer_env_inv in Hrem as (r0 & Hrem & Hr0 & _ & Hd').
      * assert (q = p' ∧ (removed = false → ∃ reason, closed = Err reason)) as [-> Hfalse]
          by (destruct removed; injection Hc as <- <-; eauto; done).
        split; [congruence|]. eexists _, r0. split; [done|].
        symmetry in Hr0. apply map_err_ok in Hr0 as ->. destruct removed; [done|]. intros _.
        destruct (Hfalse eq_refl) as [reason ->]. by exists reason.
      * split; [congruence|]. eexists _, r0. split; [done|]. intros _. by eexists.
Qed.

(** The jobs of the producer after a step of the environment. *)
Lemma jobs_ok_env (p p' : producer) :
  rn_journal (pd_runner p') = rn_journal (pd_runner p) →
  (∀ id, jobs p' id = jobs p id) ∧ (jobs_ok (pd_runner p) → jobs_ok (pd_runner p')).
Proof. unfold jobs_ok, at_. intros ->. done. Qed.

Lemma close_journal identity (p : producer) r p' :
  close identity p = (r, p') → rn_journal (pd_runner p') = rn_journal (pd_runner p).
Proof.
  unfold close. destruct (ri_registration identity); [|by intros [= _ <-]].
  intros [(b & q & (_ & _ & _ & Hj & _)%on_producer_env_inv & Hc)
    |(e & (_ & _ & _ & Hj & _)%on_producer_env_inv & _)]%io_bind_inv; [|done].
  rewrite <-Hj. destruct b; by injection Hc as _ <-.
Qed.

(** C22: a publication that succeeds has gone through all its stages: its job is
    published in the journal, for the request and its author. A failure is a
    failure of admission or of one stage, and never the exhaustion of the six
    stages the loop allows; the jobs stay consistent either way. *)
Theorem publish_as_completes q author t (w : @ProducerRunner J E) r w' :
  jobs_ok w → publish_as work_root q author t w = (r, w') →
  jobs_ok w' ∧
  match r with
  | Ok job =>
      record_at (rn_journal w') (pr_request_id q) = Some job ∧
      is_published (job_phase job) = true ∧ job_author job = author ∧
      request_digest q = Ok (job_request_digest job)
  | Err e =>
      admit_job q author t w = (Err e, w') ∨
      ∃ w1, rtc (runner_step work_root) w w1 ∧
        advance work_root (pr_request_id q) w1 = (Err e, w')
  end.
Proof.
  intros Hok Hp. split; [|by apply publish_as_spec in Hp].
  eapply runner_reachable; [by eapply runs_publish_as|done].
Qed.

Lemma publish_tree_published tree agent_name secret (p : producer) publication p' :
  jobs_ok (pd_runner p) →
  publish_tree work_root group_id default_voice tree agent_name secret p
    = (Ok publication, p') →
  tree_group_id tree = group_id ∧ jobs_ok (pd_runner p') ∧
  ∃ identity p1, identified secret p identity p1 ∧
    let author := pk_hex (ri_author identity) in
    node_job group_id author (jobs p') (tree_request_id tree) (tree_title tree)
      (tree_questions tree) None (tp_root_event_id publication) ∧
    children_published group_id author (jobs p') (tree_request_id tree)
      (tp_root_event_id publication) 0 (tree_attachments tree)
      (tp_child_event_ids publication).
Proof.
  intros Hok. unfold publish_tree. intros Ht.
  apply io_bind_ok in Ht as ([] & q & [Hg%fail_if_ok <-]%io_lift_ok & Ht).
  apply negb_false_iff, str_eqb_eq in Hg. split; [done|].
  apply with_identity_inv in Ht as [(reason & _ & [=])|
    (identity & p1 & result & p2 & closed & Hid & Hb & Hc & Hr)].
  destruct closed as [[]|]; [|done]. subst result.
  run Hb as t q1 Hn. run Hb as node q2 Hp. injection Hb as <- ->. simpl.
  unfold now in Hn. apply on_runner_inv in Hn as [Hn%(runs_now work_root) _].
  apply on_runner_inv in Hp as [Hp _].
  destruct (jobs_ok_env p p1 (proj1 Hid)) as [_ Hok1]. specialize (Hok1 Hok).
  apply runner_reachable in Hn as [Hok2 _]; [|done].
  destruct (jobs_ok_env p2 p' (close_journal _ _ _ _ Hc)) as [Hjobs Hokp].
  unfold publish_node in Hp. run Hp as event w1 He. run Hp as below w2 Hch.
  injection Hp as <- Hw2. simpl. rewrite Hw2 in Hch.
  pose proof (node_event_runs _ _ _ _ _ _ _ _ _ _ _ _ _ _ _ _ He) as Hrun.
  apply node_event_ok in He; [|done].
  assert (jobs_ok w1) as Hok3 by by eapply runner_reachable.
  apply publish_children_spec in Hch as [Hrun' Hch];
    [|by apply Forall_true, publish_child_spec|done].
  destruct (Hch _ eq_refl) as (events & -> & Hpub). simpl.
  split; [by apply Hokp; eapply runner_reachable|].
  exists identity, p1. split; [done|]. split.
  - eapply node_job_same; [exact Hjobs|]. by eapply node_job_later.
  - by eapply children_same.
Qed.

(** C18: a tree that is published is published as a whole: the journal holds a
    published job of the tree's author for the root and for every narrated
    attachment at any depth, each with its title and questions, each linked to
    the event of its parent, under the ids derived from the root's; and the
    evidence lists, in some order, exactly their events, each once. *)
Theorem publish_tree_complete tree agent_name secret (p : producer) publication p' :
  jobs_ok (pd_runner p) →
  publish_tree work_root group_id default_voice tree agent_name secret p
    = (Ok publication, p') →
  tree_group_id tree = group_id ∧ jobs_ok (pd_runner p') ∧
  ∃ identity p1, identified secret p identity p1 ∧
    let author := pk_hex (ri_author identity) in
    node_job group_id author (jobs p') (tree_request_id tree) (tree_title tree)
      (tree_questions tree) None (tp_root_event_id publication) ∧
    descendants_published group_id author (jobs p') (tree_request_id tree)
      (tp_root_event_id publication) 0 (tree_attachments tree)
      (tp_child_event_ids publication).
Proof.
  intros Hok Ht.
  apply publish_tree_published in Ht as (Hg & Hok' & identity & p1 & Hid & Hn & Hc); [|done].
  split_and!; [done..|]. exists identity, p1. split; [done|]. split; [exact Hn|].
  by apply children_descendants.
Qed.
End publications.

(** A producer whose environment logs the subjects it accepts, in order. *)
Module Example_producer.
Export Example_nmp.
Abbreviation Store := (gmap str JobRecord).
#[export] Existing Instance Example_runner.memory_journal.
#[export] Existing Instance Example_runner.memory_journal_laws.

#[export] Instance hashing : Hashing := {|
  sha256_hex data := (λ b, 97 + b mod 6)%N <$> take 64 (data ++ repeat 0%N 64);
  request_json r := Some (bytes (pr_subject r));
|}.
Definition hex (n : N) : str := (97 + n)%N :: repeat 97%N 63.
#[export] Instance synthesizer : Synthesizer (list str) := {|
  synthesize _ path e := (Ok (mkLocalAudio path (sha256_hex [1; 2; 3]%N) $"audio/mpeg" 3), e);
|}.
#[export] Instance uploader : ArtifactUploader (list str) := {|
  make_durable a e := (Ok (mkArtifact $"https://a.example/x.mp3" (la_sha256 a)
    (la_media_type a) (la_byte_count a) None), e);
|}.
#[export] Instance publisher : Publisher (list str) := {|
  authorize _ _ _ e := (Ok (Authorized (hex 0)), e);
  resume_authorization _ _ e := (Ok (hex 0), e);
  accept item e := (Ok (len e), e ++ [fz_subject item]);
  resume receipt _ e := (Ok (hex receipt), e);
|}.
#[export] Instance work_dir : WorkDir (list str) := {|
  create_dir_all _ e := (Ok (), e);
  read_file _ e := (Ok [1; 2; 3]%N, e);
|}.
#[export] Instance producer_env : ProducerEnv (list str) := {|
  Registration := PublicKey;
  registered_key key := key;
  add_account secret e := (Ok (mkPublicKey secret), e);
  remove_account _ e := (Ok true, e);
  read_to_string _ e := (Ok $"Body", e);
  make_durable_file file label e :=
    (Ok (mkArtifact file (sha256_hex []) $"image/png" 1 (Some label)), e);
  unix_millis e := (5000%N, e);
|}.

Abbreviation producer := (@Producer Store (list str) producer_env).
Definition daemon : PublicKey := mkPublicKey (repeat 48%N 64).
Definition start : producer := mkProducer (mkRunner ∅ []) daemon.
Definition agent : str := repeat 49%N 64.

Definition tree (id : str) : SpokenTree := mkTree id $"tts" $"Root" None $"/root.md" []
  [Narrated $"Child" $"/c.md" [] [Narrated $"Grandchild" $"/g.md" [] []];
   Narrated $"Second" $"/s.md" [] []].
Definition outcome (id : str) : result ProducerError TreePublication * producer :=
  publish_tree $"/work" $"tts" $"voice" (tree id) $"agent" (Some agent) start.

Lemma start_ok : jobs_ok (pd_runner start).
Proof. by intros id job. Qed.
End Example_producer.
Import Example_producer.

(** The evidence lists the children's events below their parent's, although
    the parent was published first. *)
Lemma child_events_in_postorder :
  (outcome $"req").1 = Ok (mkTreePublication (hex 0) [hex 2; hex 1; hex 3]) ∧
  rn_env (pd_runner (outcome $"req").2) = [$"Root"; $"Child"; $"Grandchild"; $"Second"].
Proof. vm_compute. by split. Qed.

(** A tree whose root id has sixty characters stops half-way: its grandchild
    has the id of its child. *)
Lemma long_id_tree_conflicts :
  let id := repeat 97%N 60 in
  (outcome id).1 = Err (RequestConflict (id ++ $"-0")) ∧
  rn_env (pd_runner (outcome id).2) = [$"Root"; $"Child"].
Proof. vm_compute. by split. Qed.

Lemma publish_tree_complete_witness :
  ∃ publication, (outcome $"req").1 = Ok publication ∧
    ∃ identity, node_job $"tts" (pk_hex (ri_author identity))
      (at_ (pd_runner (outcome $"req").2)) $"req" $"Root" [] None (tp_root_event_id publication).
Proof.
  destruct (outcome $"req") as [[publication|e] p'] eqn:Hout;
    [|vm_compute in Hout; discriminate].
  exists publication. split; [reflexivity|].
  destruct (publish_tree_complete $"/work" $"tts" $"voice" (tree $"req") $"agent" (Some agent)
    start publication p' start_ok Hout) as (_ & _ & identity & p1 & _ & Hnode & _).
  exists identity. exact Hnode.
Defined.

Definition hello : ProducerRequest :=
  mkRequest $"r" $"tts" $"v" $"a" $"Hi" [] $"B" [] [] None.

Lemma agent_identity_closed_witness :
  let r := publish $"/work" $"tts" hello 5 (Some agent) start in
  (∃ job, r.1 = Ok job) ∧ pd_daemon r.2 = daemon ∧
  ∃ e1 removal, remove_account (mkPublicKey agent) e1 = (removal, rn_env (pd_runner r.2)).
Proof.
  set (r := publish _ _ _ _ _ _). assert (∃ job, r.1 = Ok job) as Hok.
  { destruct r.1 as [job|e] eqn:Hr; [by exists job|vm_compute in Hr; discriminate]. }
  split; [exact Hok|].
  destruct (agent_identity_closed agent (λ author, on_runner (publish_as $"/work" hello author 5))
    start r.1 r.2) as [(e & p1 & Ha & _)|(reg & e0 & Ha & Hcase)].
  - intros author q r' q' Hq. apply on_runner_inv in Hq as [_ Hd]. exact Hd.
  - vm_compute. reflexivity.
  - discriminate.
  - injection Ha as <- _. rewrite decide_False in Hcase by (vm_compute; discriminate).
    destruct Hcase as (Hd & e1 & removal & Hrem & _). split; [exact Hd|].
    exists e1, removal. exact Hrem.
Defined.

Lemma publish_as_completes_witness :
  ∃ job, record_at (rn_journal (publish_as $"/work"
      hello agent 5 (pd_runner start)).2) $"r"
    = Some job ∧ is_published (job_phase job) = true.
Proof.
  destruct (publish_as $"/work" hello
    agent 5 (pd_runner start)) as [[job|e] w'] eqn:Hp; [|vm_compute in Hp; discriminate].
  destruct (publish_as_completes $"/work" _ _ _ _ _ _ start_ok Hp) as (_ & Hj & Hpub & _).
  exists job. split; [exact Hj|exact Hpub].
Defined.

Lemma node_ids_distinct_witness :
  node_id $"req" [0; 1] ≠ node_id $"req" [1; 0].
Proof.
  intros Heq. enough ([0; 1] = [1; 0]) as [=]. apply (node_ids_distinct $"req"); try exact Heq.
  - repeat constructor; vm_compute; discriminate.
  - repeat constructor; vm_compute; discriminate.
  - vm_compute. lia.
  - vm_compute. lia.
Defined.

Lemma long_ids_collide_witness :
  child_request_id (child_request_id (repeat 97%N 60) 0) 0 = child_request_id (repeat 97%N 60) 0.
Proof. apply long_ids_collide. vm_compute. lia. Defined.
