(* ===== verification/AnswerWait.v ===== *)
(** Waiting for the answer to a published item ([AnswerWaiter] in
    [daemon/src/answer_wait.rs]): a bounded loop over the frames of an
    observation of the group, with a deadline and a cancellation that are looked
    at around every frame. The protocol of the cancellation itself is in
    [Cancel]. *)

From S2P Require Export Parse Answer Production.

Inductive AnswerWaitError :=
  | WaitNotPublished
  | WaitNoQuestions
  | WaitInvalidTimeout
  | WaitCancelled
  | WaitTimedOut
  | WaitEngineClosed
  | WaitFrameLimit
  | WaitObservation (reason : str).

(** [Display for AnswerWaitError]. *)
Definition answer_wait_message (e : AnswerWaitError) : str :=
  match e with
  | WaitNotPublished => $"answer wait requires a published job"
  | WaitNoQuestions => $"published item has no questions"
  | WaitInvalidTimeout => $"answer wait timeout is invalid"
  | WaitCancelled => $"answer wait was cancelled"
  | WaitTimedOut => $"answer wait timed out"
  | WaitEngineClosed => $"NMP answer stream closed"
  | WaitFrameLimit => $"NMP answer stream exceeded its frame bound"
  | WaitObservation reason => $"NMP refused answer observation: " ++ reason
  end.

(** What [recv_timeout] returns: a frame, whose window may be absent, or one of
    the two [RecvTimeoutError]s. *)
Inductive Received := AnswerFrame (window : option (list Row)) | RecvTimeout | Disconnected.

(** What one round of the loop meets: the reading of the clock before it waits,
    what it receives, and the reading of the clock after a frame. *)
Record Turn := mkTurn {
  turn_now : N;
  turn_received : Received;
  turn_now_after : N;
}.

(** What the waiting thread sees of its [AnswerWaitCancel]: what [install]
    returned, and the value of each load of the flag in the loop: two in each
    round, before waiting and after. *)
Record CancelView := mkView {
  cv_installed : bool;
  cv_before : nat → bool;
  cv_after : nat → bool;
}.

(** An [AnswerWaitCancel] that nobody else holds. *)
Definition never_cancelled : CancelView := mkView true (λ _, false) (λ _, false).

(** [nmp::Engine::observe] of [group_content_demand] with a window of 100 rows:
    the rounds the loop will meet. *)
Class AnswerEngine (E : Type) := {
  observe_answers : RelayUrl → str → io E str (nat → Turn);
}.

(** [AnswerWaiter], without the engine and the clock. *)
Record AnswerWaiter := mkWaiter { aw_host : RelayUrl; aw_group_id : str }.

Definition related_answer (group_id event_id : str) (row : Row) : option AnswerBundle :=
  match parse row group_id with
  | Some (PAnswer answer) =>
      if related_root_id answer =?s event_id then Some (related_value answer) else None
  | _ => None
  end.

Definition answer_from_rows (rows : list Row) (group_id event_id : str)
    (questions : list Question) : option AnswerBundle :=
  select_answer questions (omap (related_answer group_id event_id) rows).

(** [u64::try_from(timeout.as_millis()).ok().filter(..)]. *)
Definition timeout_millis (timeout : N) : option N :=
  if (0 <? timeout)%N && (timeout <=? u64_max)%N then Some timeout else None.

Section loop.
Context (cancel : CancelView) (turns : nat → Turn).
Context (deadline : N) (group_id event_id : str) (questions : list Question).

(** One round: [None] when the loop goes on. *)
Definition round (i : nat) : option (result AnswerWaitError AnswerBundle) :=
  let turn := turns i in
  if cv_before cancel i then Some (Err WaitCancelled)
  else if (deadline - turn_now turn =? 0)%N then Some (Err WaitTimedOut)
  else match turn_received turn with
    | AnswerFrame window =>
        if cv_after cancel i then Some (Err WaitCancelled)
        else if (deadline <=? turn_now_after turn)%N then Some (Err WaitTimedOut)
        else
          rows ← window;
          answer ← answer_from_rows rows group_id event_id questions;
          Some (Ok answer)
    | RecvTimeout => Some (Err WaitTimedOut)
    | Disconnected => Some (Err (if cv_after cancel i then WaitCancelled else WaitEngineClosed))
    end.

(** The rounds left, from round [i] on. *)
Fixpoint wait_loop (n i : nat) : result AnswerWaitError AnswerBundle :=
  match n with
  | O => Err WaitFrameLimit
  | S n => match round i with Some r => r | None => wait_loop n (S i) end
  end.
End loop.

Definition FRAME_BOUND : nat := 128.

Section wait.
Context {E : Type} `{!ProducerEnv E, !AnswerEngine E} (waiter : AnswerWaiter).

Definition wait (job : JobRecord) (timeout : N) (cancel : CancelView)
    : io E AnswerWaitError AnswerBundle :=
  '(item, event_id) ← io_lift (match job_phase job with
    | JobPublished item _ _ event_id => Ok (item, event_id)
    | _ => Err WaitNotPublished
    end);
  _ ← io_lift (fail_if WaitNoQuestions (is_empty (fz_questions item)));
  timeout ← io_lift (ok_or WaitInvalidTimeout (timeout_millis timeout));
  now ← (λ e, let '(millis, e) := unix_millis e in (Ok millis, e));
  deadline ← io_lift (ok_or WaitInvalidTimeout (u64_checked_add now timeout));
  turns ← io_map_err WaitObservation (observe_answers (aw_host waiter) (aw_group_id waiter));
  _ ← io_lift (fail_if WaitCancelled (negb (cv_installed cancel)));
  io_lift (wait_loop cancel turns deadline (aw_group_id waiter) event_id
             (fz_questions item) FRAME_BOUND 0).
End wait.

(** ** The loop *)

(** A round in which nothing stops the wait: not cancelled, a frame received,
    and the clock before the deadline when it is looked at. *)
Record open_round (cancel : CancelView) (turns : nat → Turn) (deadline : N) (i : nat)
    (window : option (list Row)) : Prop := {
  or_before : cv_before cancel i = false;
  or_now : (turn_now (turns i) < deadline)%N;
  or_received : turn_received (turns i) = AnswerFrame window;
  or_after : cv_after cancel i = false;
  or_now_after : (turn_now_after (turns i) < deadline)%N;
}.

Section loop_facts.
Context (cancel : CancelView) (turns : nat → Turn).
Context (deadline : N) (group_id event_id : str) (questions : list Question).

#[local] Abbreviation round := (round cancel turns deadline group_id event_id questions).
#[local] Abbreviation wait_loop := (wait_loop cancel turns deadline group_id event_id questions).
#[local] Abbreviation found rows := (answer_from_rows rows group_id event_id questions).

Lemma round_open i window :
  open_round cancel turns deadline i window →
  round i = rows ← window; answer ← found rows; Some (Ok answer).
Proof.
  intros [Hb Hn Hr Ha Hn']. unfold AnswerWait.round. rewrite Hb, Hr, Ha.
  assert ((deadline - turn_now (turns i) =? 0)%N = false) as -> by (apply N.eqb_neq; lia).
  by assert ((deadline <=? turn_now_after (turns i))%N = false) as -> by by apply N.leb_gt.
Qed.

(** A round that does not end with an error is open. *)
Lemma round_cases i :
  (∃ e, round i = Some (Err e)) ∨ ∃ window, open_round cancel turns deadline i window.
Proof.
  unfold AnswerWait.round. destruct (cv_before cancel i) eqn:Hb; [left; eauto|].
  destruct (N.eqb_spec (deadline - turn_now (turns i)) 0) as [|Hn]; [left; eauto|].
  destruct (turn_received (turns i)) as [window| |] eqn:Hr; [|left; eauto..].
  destruct (cv_after cancel i) eqn:Ha; [left; eauto|].
  destruct (N.leb_spec deadline (turn_now_after (turns i))); [left; eauto|].
  right. exists window. split; [done|lia|done..].
Qed.

Lemma round_ok i answer :
  round i = Some (Ok answer) ↔
  ∃ rows, open_round cancel turns deadline i (Some rows) ∧ found rows = Some answer.
Proof.
  split.
  - intros Hr. destruct (round_cases i) as [[e He]|[window Hw]]; [congruence|].
    rewrite (round_open _ _ Hw) in Hr. opt Hr as rows ->. opt Hr as a Ha.
    injection Hr as ->. eauto.
  - intros (rows & Hw & Ha). by rewrite (round_open _ _ Hw); simpl; rewrite Ha.
Qed.

Lemma round_continues i :
  round i = None ↔
  ∃ window, open_round cancel turns deadline i window ∧
    ∀ rows, window = Some rows → found rows = None.
Proof.
  split.
  - intros Hr. destruct (round_cases i) as [[e He]|[window Hw]]; [congruence|].
    exists window. split; [done|]. intros rows ->. rewrite (round_open _ _ Hw) in Hr.
    simpl in Hr. by destruct (found rows).
  - intros (window & Hw & Hnone). rewrite (round_open _ _ Hw).
    destruct window as [rows|]; [|done]. simpl. by rewrite Hnone.
Qed.

Lemma wait_loop_cases n : ∀ i r,
  wait_loop n i = r ↔
  (∃ k, k < n ∧ (∀ j, j < k → round (i + j) = None) ∧ round (i + k) = Some r) ∨
  (∀ j, j < n → round (i + j) = None) ∧ r = Err WaitFrameLimit.
Proof.
  induction n as [|n IH]; intros i r; simpl.
  { split; [intros <-; right; split; [lia|done]|]. intros [(k & ? & _)|[_ ->]]; [lia|done]. }
  destruct (round i) as [r0|] eqn:Hr.
  - split.
    + intros <-. left. exists 0. rewrite Nat.add_0_r. split_and!; [lia|lia|done].
    + intros [(k & _ & Hnone & Hk)|[Hnone _]].
      * destruct k as [|k]; [rewrite Nat.add_0_r in Hk; congruence|].
        specialize (Hnone 0). rewrite Nat.add_0_r in Hnone. rewrite Hnone in Hr by lia. done.
      * specialize (Hnone 0). rewrite Nat.add_0_r in Hnone. rewrite Hnone in Hr by lia. done.
  - rewrite IH. assert (∀ m, (∀ j, j < S m → round (i + j) = None) ↔
        (∀ j, j < m → round (S i + j) = None)) as Hshift.
    { intros m. split; intros Hnone j Hj.
      - specialize (Hnone (S j)). rewrite Nat.add_succ_r in Hnone. apply Hnone. lia.
      - destruct j as [|j]; [by rewrite Nat.add_0_r|]. rewrite Nat.add_succ_r. apply Hnone. lia. }
    rewrite Hshift. split; (intros [(k & Hk & Hnone & Hround)|?]; [left|by right]).
    + exists (S k). rewrite Hshift, Nat.add_succ_r. split_and!; [lia|done|done].
    + destruct k as [|k]; [rewrite Nat.add_0_r in Hround; congruence|].
      exists k. rewrite <-Hshift. rewrite Nat.add_succ_r in Hround. split_and!; [lia|done|done].
Qed.
End loop_facts.

Lemma wait_answer_in_rows rows group_id event_id questions answer :
  NoDup (question_id <$> questions) →
  answer_from_rows rows group_id event_id questions = Some answer →
  answer_fits questions answer ∧
  (∃ row r, row ∈ rows ∧ parse row group_id = Some (PAnswer r) ∧
     related_root_id r = event_id ∧ related_value r = answer) ∧
  ∀ row r, row ∈ rows → parse row group_id = Some (PAnswer r) → related_root_id r = event_id →
    answer_fits questions (related_value r) →
    cmp_le (answer_order (related_value r)) (answer_order answer).
Proof.
  intros Hnd (Hin & Hv & Hmax)%select_answer_Some.
  split_and!; [by apply valid_answer_fits| |].
  - apply list_elem_of_omap in Hin as (row & Hrow & Hr). unfold related_answer in Hr.
    destruct (parse row group_id) as [[| r| |]|] eqn:Hp; try done.
    destruct (related_root_id r =?s event_id) eqn:He; [|done]. apply str_eqb_eq in He.
    injection Hr as Hr. by exists row, r.
  - intros row r Hrow Hp Hroot Hfit. apply Hmax; [|by apply valid_answer_fits].
    apply list_elem_of_omap. exists row. split; [done|]. unfold related_answer.
    by rewrite Hp, Hroot, str_eqb_refl.
Qed.

(** A wait that succeeds: its timeout fits, the observation starts, and the
    first round that holds an acceptable answer, round [k], is within the bound
    and is reached. *)
Definition wait_succeeds {E} `{!ProducerEnv E, !AnswerEngine E} (waiter : AnswerWaiter)
    (questions : list Question) (event_id : str) (timeout : N) (cancel : CancelView)
    (answer : AnswerBundle) (e e' : E) : Prop :=
  let answer_in rows := answer_from_rows rows (aw_group_id waiter) event_id questions in
  questions ≠ [] ∧ (0 < timeout)%N ∧ cv_installed cancel = true ∧
  ∃ now e1 turns k rows,
    unix_millis e = (now, e1) ∧ (now + timeout ≤ u64_max)%N ∧
    observe_answers (aw_host waiter) (aw_group_id waiter) e1 = (Ok turns, e') ∧
    k < FRAME_BOUND ∧ open_round cancel turns (now + timeout) k (Some rows) ∧
    answer_in rows = Some answer ∧
    ∀ j, j < k → ∃ window, open_round cancel turns (now + timeout) j window ∧
      ∀ rows, window = Some rows → answer_in rows = None.

Lemma wait_returns {E} `{!ProducerEnv E, !AnswerEngine E} waiter job timeout cancel
    item membership receipt_id event_id answer (e e' : E) :
  job_phase job = JobPublished item membership receipt_id event_id →
  wait waiter job timeout cancel e = (Ok answer, e') →
  wait_succeeds waiter (fz_questions item) event_id timeout cancel answer e e'.
Proof.
  intros Hjob H. unfold wait in H. rewrite Hjob in H. pure H as [item' id'] Hp.
  injection Hp as <- <-. pure H as [] Hq. reflect.
  pure H as t Ht. reflect. unfold timeout_millis in Ht.
  destruct ((0 <? timeout)%N && _) eqn:Hb in Ht; [|done]. injection Ht as <-. reflect.
  destruct Hb as [Hpos _]. run H as now e1 Hnow. destruct (unix_millis e) as [now' e1'] eqn:Hm.
  injection Hnow as -> ->. pure H as deadline Hd. reflect.
  apply u64_checked_add_Some in Hd as [-> Hd]. run H as turns e2 Ho.
  apply io_map_err_ok in Ho. pure H as [] Hc. reflect.
  apply io_lift_ok in H as [H <-]. apply wait_loop_cases in H as [(k & Hk & Hnone & Hr)|[_ ?]];
    [|done]. apply round_ok in Hr as (rows & Hopen & Ha).
  split_and!; try done. exists now, e1, turns, k, rows. split_and!; try done.
  intros j Hj. by apply round_continues, Hnone.
Qed.

(** C26: for a published job, a wait returns an answer exactly when the item has
    questions, the timeout is positive and the deadline it gives does not
    overflow, the observation starts and is not cancelled, and within 128 rounds
    there is one that is open, that is, neither cancelled nor past the deadline
    before or after the wait for its frame, whose rows hold an acceptable
    answer, while every round before it was open and had none. Such an answer
    is that of a row of the group which replies to the published event; it fits
    the item's questions, and it is the latest that does. *)
Theorem wait_for_answer_correct {E} `{!ProducerEnv E, !AnswerEngine E} waiter job timeout cancel
    item membership receipt_id event_id answer (e e' : E) :
  job_phase job = JobPublished item membership receipt_id event_id →
  NoDup (question_id <$> fz_questions item) →
  let answer_in rows := answer_from_rows rows (aw_group_id waiter) event_id (fz_questions item) in
  (wait waiter job timeout cancel e = (Ok answer, e') ↔
   wait_succeeds waiter (fz_questions item) event_id timeout cancel answer e e') ∧
  (∀ rows, answer_in rows = Some answer →
     answer_fits (fz_questions item) answer ∧
     (∃ row r, row ∈ rows ∧ parse row (aw_group_id waiter) = Some (PAnswer r) ∧
        related_root_id r = event_id ∧ related_value r = answer) ∧
     ∀ row r, row ∈ rows → parse row (aw_group_id waiter) = Some (PAnswer r) →
       related_root_id r = event_id → answer_fits (fz_questions item) (related_value r) →
       cmp_le (answer_order (related_value r)) (answer_order answer)).
Proof.
  intros Hjob Hnd answer_in. split; [|intros rows; by apply wait_answer_in_rows].
  split; [by eapply wait_returns|].
  intros (Hq & Hpos & Hc & now & e1 & turns & k & rows & Hm & Hd & Ho & Hk & Hopen & Ha & Hnone).
  apply is_empty_false in Hq.
  assert (timeout_millis timeout = Some timeout) as Ht.
  { unfold timeout_millis. assert ((0 <? timeout)%N = true) as -> by by apply N.ltb_lt.
    assert ((timeout <=? u64_max)%N = true) as -> by (apply N.leb_le; lia). done. }
  assert (wait_loop cancel turns (now + timeout) (aw_group_id waiter) event_id
    (fz_questions item) FRAME_BOUND 0 = Ok answer) as Hloop.
  { apply wait_loop_cases. left. exists k.
    split_and!; [done|intros j Hj; by apply round_continues, Hnone|apply round_ok; eauto]. }
  unfold wait. rewrite Hjob. revert Hloop. generalize FRAME_BOUND as n. intros n Hloop.
  unfold mbind, io_bind, io_lift, io_map_err; simpl.
  rewrite Hq, Ht; simpl. rewrite Hm; simpl.
  rewrite (proj2 (u64_checked_add_Some now timeout (now + timeout)) (conj eq_refl Hd)); simpl.
  rewrite Ho; simpl. rewrite Hc; simpl. by rewrite Hloop.
Qed.

(** The first frame has no window; the second one holds an answer. *)
Module Example_wait.
#[export] Instance producer_env : ProducerEnv N := {|
  Registration := PublicKey;
  registered_key r := r;
  add_account secret t := (Ok (mkPublicKey secret), t);
  remove_account _ t := (Ok true, t);
  read_to_string _ t := (Ok [], t);
  make_durable_file _ _ t := (Err [], t);
  unix_millis t := (t, t + 1)%N;
|}.
Definition rows : list Row := [Example_parse.answer_row 50 9 49 $"a"].
Definition turns (i : nat) : Turn :=
  mkTurn 1001 (AnswerFrame (if decide (i = 0) then None else Some rows)) 1002.
#[export] Instance answer_engine : AnswerEngine N := {|
  observe_answers _ _ t := (Ok turns, t);
|}.
Definition item : FrozenSpokenItem :=
  mkFrozen $"author" 1 $"group" $"agent" $"Hello" [] $"Body" (mkArtifact [] [] [] 0 None) []
    [Example_answer.question] None.
Definition request : ProducerRequest :=
  mkRequest $"req-1" $"group" $"voice" $"agent" $"Hello" $"short" $"Body" [] [] None.
Definition job : JobRecord :=
  mkJob 1 [] $"author" 1 request (JobPublished item None 7 (repeat 49%N 64)).
Definition waiter : AnswerWaiter := mkWaiter (mkRelayUrl $"wss://relay") $"group".
Definition answer : AnswerBundle :=
  mkAnswerBundle (repeat 50%N 64) (pk_hex Example_parse.author) 9
    [mkQuestionAnswer $"q1" [$"a"]].
End Example_wait.
#[local] Existing Instance Example_wait.producer_env.
#[local] Existing Instance Example_wait.answer_engine.

Lemma wait_for_answer_correct_witness :
  wait Example_wait.waiter Example_wait.job 5000 never_cancelled 1000%N =
    (Ok Example_wait.answer, 1001%N) ∧
  answer_fits [Example_answer.question] Example_wait.answer.
Proof.
  assert (NoDup (question_id <$> fz_questions Example_wait.item)) as Hnd by apply NoDup_singleton.
  split; [vm_compute; reflexivity|].
  eapply (λ w, proj2 (wait_for_answer_correct w Example_wait.job 5000 never_cancelled
    Example_wait.item None 7 (repeat 49%N 64) Example_wait.answer 1000%N 1001%N eq_refl Hnd)
    Example_wait.rows).
  instantiate (1 := Example_wait.waiter). vm_compute. reflexivity.
Defined.
