(* ===== verification/LocalService.v ===== *)
(** The local publication service ([daemon/src/local_service.rs]): a request of
    the local protocol is validated, published by the production producer, and
    answered with durable evidence or with an error code. *)

From S2P Require Export AnswerWait ProductionFacts.

(** [trait LocalPublishService]. *)
Class LocalPublishService (S : Type) := {
  publish_local : LocalPublishRequest → S → LocalPublishResponse * S;
  publish_tree_local : LocalTreeRequest → S → LocalPublishResponse * S;
}.

Definition producer_error_code (error : ProducerError) : str :=
  match error with
  | InvalidRequest _ => $"invalid_request"
  | RequestConflict _ => $"request_conflict"
  | JobNotFound _ => $"job_not_found"
  | ProducerJournal _ => $"journal_failed"
  | Capability _ _ => $"capability_failed"
  end.
Definition producer_error (error : ProducerError) : LocalPublishResponse :=
  response_error (producer_error_code error) (producer_error_message error).

Definition answer_error_code (error : AnswerWaitError) : str :=
  match error with
  | WaitNotPublished => $"not_published"
  | WaitNoQuestions => $"no_questions"
  | WaitInvalidTimeout => $"invalid_timeout"
  | WaitCancelled => $"cancelled"
  | WaitTimedOut => $"timed_out"
  | WaitEngineClosed => $"engine_closed"
  | WaitFrameLimit => $"frame_limit"
  | WaitObservation _ => $"observation_failed"
  end.

(** The match on the result of [wait_for_answer]. *)
Definition answer_wait_result (r : result AnswerWaitError AnswerBundle) : AnswerWaitResult :=
  match r with
  | Ok answer => Answered answer
  | Err WaitTimedOut => TimedOut
  | Err error => Unavailable (answer_error_code error) (answer_wait_message error)
  end.

Section service.
Context `{Nip29, Hashing} {J E : Type} `{JobJournal J}.
Context `{Synthesizer E, ArtifactUploader E, Publisher E, WorkDir E, !ProducerEnv E,
          !AnswerEngine E}.
Context (work_root group_id default_voice : str) (waiter : AnswerWaiter).

#[local] Abbreviation producer := (@Producer J E _).

(** [ProductionProducer::wait_for_answer]. *)
Definition wait_for_answer (job : JobRecord) (timeout : N) (cancel : CancelView)
    : io producer AnswerWaitError AnswerBundle :=
  on_producer_env id (wait waiter job timeout cancel).

(** The match on [wait_for_answer_seconds]. *)
Definition requested_answer (job : JobRecord) (seconds : option N) (p : producer)
    : AnswerWaitResult * producer :=
  match seconds with
  | None => (NotRequested, p)
  | Some seconds =>
      let '(r, p) := wait_for_answer job (seconds * 1000)%N never_cancelled p in
      (answer_wait_result r, p)
  end.

Definition producer_publish_local (input : LocalPublishRequest) (p : producer)
    : LocalPublishResponse * producer :=
  match validate_publish input with
  | Err error => (response_error (err_code error) (err_message error), p)
  | Ok _ =>
      let '(published, p) := publish_now work_root group_id (lp_request input)
                               (lp_agent_nsec input) p in
      match published with
      | Err error => (producer_error error, p)
      | Ok job =>
          match job_phase job with
          | JobPublished _ _ receipt_id event_id =>
              let '(answer_wait, p) :=
                requested_answer job (lp_wait_for_answer_seconds input) p in
              (ResponsePublished LOCAL_PROTOCOL_VERSION (job_id job) receipt_id event_id
                 answer_wait, p)
          | _ =>
              (response_error $"publication_incomplete"
                 $"producer returned without durable publication evidence", p)
          end
      end
  end.

Definition producer_publish_tree_local (input : LocalTreeRequest) (p : producer)
    : LocalPublishResponse * producer :=
  match validate_tree input with
  | Err error => (response_error (err_code error) (err_message error), p)
  | Ok _ =>
      let tree := lt_tree input in
      let '(published, p) := publish_tree work_root group_id default_voice tree
                               (default [] (lt_agent_id input)) (lt_agent_nsec input) p in
      match published with
      | Ok publication =>
          (ResponsePublishedTree LOCAL_PROTOCOL_VERSION (tree_request_id tree)
             (tp_root_event_id publication) (tp_child_event_ids publication), p)
      | Err error => (producer_error error, p)
      end
  end.

#[export] Instance producer_service : LocalPublishService producer := {|
  publish_local := producer_publish_local;
  publish_tree_local := producer_publish_tree_local;
|}.
End service.

(** ** What the service guarantees *)
(** What an answer that is reported is: it fits the questions, and it is the one
    selected among the rows of the group that answer the event. *)
Definition answer_reported (group_id event_id : str) (questions : list Question)
    (answer : AnswerBundle) : Prop :=
  answer_fits questions answer ∧
  ∃ rows row r, row ∈ rows ∧ parse row group_id = Some (PAnswer r) ∧
    related_root_id r = event_id ∧ related_value r = answer ∧
    answer_from_rows rows group_id event_id questions = Some answer.

Section facts.
Context `{Nip29, Hashing} {J E : Type} `{JobJournalLaws J}.
Context `{Synthesizer E, ArtifactUploader E, Publisher E, WorkDir E, !ProducerEnv E,
          !AnswerEngine E}.
Context (work_root group_id default_voice : str) (waiter : AnswerWaiter).

#[local] Abbreviation producer := (@Producer J E _).
#[local] Abbreviation jobs p := (at_ (pd_runner (p : producer))).
#[local] Abbreviation runs_to p p' :=
  (rtc (runner_step (J := J) (E := E) work_root) (pd_runner (p : producer)) (pd_runner p')).

(** A computation of the producer that acts on the jobs through the runner
    only. *)
Definition producer_runs {X A} (m : io producer X A) : Prop :=
  ∀ p r p', m p = (r, p') → runs_to p p'.

Lemma producer_runs_ret {X A} (a : A) : producer_runs (mret a : io producer X A).
Proof. intros p r p' [= _ <-]. constructor. Qed.
Lemma producer_runs_lift {X A} (m : result X A) : producer_runs (io_lift m).
Proof. intros p r p' [= _ <-]. constructor. Qed.
Lemma producer_runs_bind {X A B} (m : io producer X A) (f : A → io producer X B) :
  producer_runs m → (∀ a, producer_runs (f a)) → producer_runs (m ≫= f).
Proof.
  intros Hm Hf p r p'' [(a & p' & Ha & Hb)|(e & He & _)]%io_bind_inv; [|by eapply Hm].
  etrans; [by eapply Hm|by eapply Hf].
Qed.
Lemma producer_runs_map_err {X Y A} (f : X → Y) (m : io producer X A) :
  producer_runs m → producer_runs (io_map_err f m).
Proof.
  intros Hm p r p'. unfold io_map_err. destruct (m p) as [r0 p0] eqn:Heq.
  intros [= _ <-]. by eapply Hm.
Qed.
Lemma producer_runs_try {X Y A} (m : io producer X A) :
  producer_runs m → producer_runs (io_try (F := Y) m).
Proof.
  intros Hm p r p'. unfold io_try. destruct (m p) as [r0 p0] eqn:Heq.
  intros [= _ <-]. by eapply Hm.
Qed.
Lemma producer_runs_runner {X A} (m : io (@ProducerRunner J E) X A) :
  runs work_root m → producer_runs (on_runner m).
Proof. intros Hm p r p' [Hp _]%on_runner_inv. by eapply Hm. Qed.
Lemma producer_runs_env {X Y A} (f : X → Y) (m : io E X A) :
  producer_runs (on_producer_env f m).
Proof.
  intros p r p'. unfold on_producer_env. intros [Hp _]%on_runner_inv.
  destruct p as [[j e] d], p' as [[j' e'] d']. simpl in *. destruct (m e) as [r0 e0].
  injection Hp as _ <- <-. apply rtc_once. constructor.
Qed.
#[local] Hint Resolve producer_runs_ret producer_runs_lift producer_runs_bind
  producer_runs_map_err producer_runs_try producer_runs_runner producer_runs_env : tts29.

Lemma producer_runs_get {X} : producer_runs (get_daemon (X := X)).
Proof. intros p r p' [= _ <-]. constructor. Qed.
Lemma producer_runs_set {X} reg : producer_runs (set_daemon (X := X) reg).
Proof. intros p r p' [= _ <-]. constructor. Qed.
#[local] Hint Resolve producer_runs_get producer_runs_set : tts29.

Lemma producer_runs_request secret : producer_runs (request secret).
Proof.
  unfold request. destruct secret as [secret|]; [|eauto with tts29].
  apply producer_runs_bind; [eauto with tts29|intros reg].
  apply producer_runs_bind; [eauto with tts29|intros daemon]. case_bool_decide; eauto with tts29.
Qed.
Lemma producer_runs_close identity : producer_runs (close identity).
Proof.
  unfold close. destruct (ri_registration identity); [|eauto with tts29].
  apply producer_runs_bind; [eauto with tts29|intros []]; [eauto with tts29|].
  apply producer_runs_lift.
Qed.
Lemma producer_runs_identity {A} secret (body : str → io producer ProducerError A) :
  (∀ author, producer_runs (body author)) → producer_runs (with_identity secret body).
Proof.
  intros Hbody. unfold with_identity.
  eauto 10 using producer_runs_request, producer_runs_close with tts29.
Qed.
Lemma producer_runs_now : producer_runs (X := ProducerError) now.
Proof. apply producer_runs_runner, runs_now. Qed.

Lemma producer_runs_publish_now q secret :
  producer_runs (publish_now work_root group_id q secret).
Proof.
  apply producer_runs_bind; [apply producer_runs_now|intros t].
  apply producer_runs_bind; [apply producer_runs_lift|intros []].
  apply producer_runs_identity. intros author. apply producer_runs_runner, runs_publish_as.
Qed.

(** Trees *)
Lemma runs_publish_node_event agent author t id title summary path qs atts parent :
  runs work_root (publish_node_event work_root group_id default_voice agent author t
    id title summary path qs atts parent).
Proof. apply node_event_runs. Qed.

Lemma runs_publish_children child_of atts :
  Forall (λ c, ∀ id parent acc, runs work_root (child_of c id parent acc)) atts →
  ∀ id event i acc, runs work_root (publish_children child_of id event i atts acc).
Proof.
  induction 1 as [|c atts Hc _ IH]; intros id event i acc; simpl; [apply runs_ret|].
  destruct c; [apply IH|]. apply runs_bind; [apply Hc|intros []; apply IH].
Qed.

Lemma runs_publish_child agent author t c :
  ∀ id parent acc, runs work_root
    (publish_child work_root group_id default_voice agent author t c id parent acc).
Proof.
  revert c. fix IH 1. intros [label file|label message questions atts] id parent acc; simpl;
    [apply runs_ret|].
  apply runs_bind; [apply runs_publish_node_event|intros event].
  apply runs_bind; [|intros; apply runs_ret]. apply runs_publish_children.
  clear -IH. induction atts as [|a atts IHl]; constructor; [apply IH|exact IHl].
Qed.

Lemma producer_runs_publish_tree tree agent secret :
  producer_runs (publish_tree work_root group_id default_voice tree agent secret).
Proof.
  apply producer_runs_bind; [apply producer_runs_lift|intros []].
  apply producer_runs_identity. intros author.
  apply producer_runs_bind; [apply producer_runs_now|intros t].
  apply producer_runs_bind; [|intros; apply producer_runs_ret].
  apply producer_runs_runner. unfold publish_node.
  apply runs_bind; [apply runs_publish_node_event|intros event].
  apply runs_bind; [|intros; apply runs_ret]. apply runs_publish_children, Forall_true.
  intros c. apply runs_publish_child.
Qed.

(** ** Responses *)

Lemma publish_now_spec q secret p job p' :
  jobs_ok (pd_runner p) → publish_now work_root group_id q secret p = (Ok job, p') →
  pr_group_id q = group_id ∧ jobs p' (pr_request_id q) = Some job ∧
  is_published (job_phase job) = true ∧ request_digest q = Ok (job_request_digest job).
Proof.
  intros Hok Hp. run Hp as t p1 Hnow. apply producer_runs_now in Hnow.
  unfold publish in Hp. apply io_bind_ok in Hp as ([] & p2 & [Hg%fail_if_ok <-]%io_lift_ok & Hp).
  apply negb_false_iff, str_eqb_eq in Hg. split; [done|].
  apply with_identity_inv in Hp as [(reason & _ & [=])|
    (identity & p2 & result & p3 & closed & Hid & Hb & Hc & Hr)].
  destruct closed as [[]|]; [|done]. subst result.
  apply on_runner_inv in Hb as [Hb _]. apply close_journal in Hc.
  apply runner_reachable in Hnow as [Hok1 _]; [|done].
  destruct (jobs_ok_env p1 p2 (proj1 Hid)) as [_ Hok2].
  destruct (jobs_ok_env p3 p' Hc) as [Hjobs _]. rewrite Hjobs.
  apply publish_as_spec in Hb as (Hj & Hpub & _ & Hd); auto.
Qed.

Lemma producer_runs_requested_answer job seconds (p : producer) r p' :
  requested_answer waiter job seconds p = (r, p') → runs_to p p'.
Proof.
  unfold requested_answer. destruct seconds as [seconds|]; [|by intros [= _ <-]].
  destruct (wait_for_answer _ _ _ _ p) as [r0 p0] eqn:Hw. intros [= _ <-].
  by eapply producer_runs_env.
Qed.

(** An answer that is reported was selected for the published item. *)
Lemma requested_answer_fits job seconds item membership receipt_id event_id
    (p : producer) answer p' :
  job_phase job = JobPublished item membership receipt_id event_id →
  NoDup (question_id <$> fz_questions item) →
  requested_answer waiter job seconds p = (Answered answer, p') →
  answer_reported (aw_group_id waiter) event_id (fz_questions item) answer.
Proof.
  intros Hjob Hnd. unfold requested_answer. destruct seconds as [seconds|]; [|done].
  destruct (wait_for_answer _ _ _ _ p) as [r0 p0] eqn:Hw. intros [= Hr _].
  destruct r0 as [answer'|[]]; try done. injection Hr as ->.
  apply on_producer_env_inv in Hw as (r0 & Hw & Hr0 & _). symmetry in Hr0.
  apply map_err_ok in Hr0 as ->. eapply wait_returns in Hw; [|done].
  destruct Hw as (_ & _ & _ & now & e1 & turns & k & rows & _ & _ & _ & _ & _ & Ha & _).
  destruct (wait_answer_in_rows _ _ _ _ _ Hnd Ha) as (Hfit & (row & r & ? & ? & ? & ?) & _).
  split; [done|]. by exists rows, row, r.
Qed.

Lemma published_questions_distinct p id job item membership receipt_id event_id :
  jobs_ok (pd_runner p) → jobs p id = Some job →
  job_phase job = JobPublished item membership receipt_id event_id →
  NoDup (question_id <$> fz_questions item).
Proof.
  intros Hok Hj Hph. pose proof (jo_phase _ _ (Hok _ _ Hj)) as Hp. rewrite Hph in Hp.
  destruct Hp as [[Hv _] _]. apply validate_spoken_item_ok in Hv.
  apply qsv_ids, fv_questions, Hv.
Qed.

Definition version_of (response : LocalPublishResponse) : N :=
  match response with
  | ResponsePublished version _ _ _ _ | ResponsePublishedTree version _ _ _
  | ResponseError version _ _ => version
  end.

Lemma publish_local_runs input p response p' :
  producer_publish_local work_root group_id waiter input p = (response, p') → runs_to p p'.
Proof.
  unfold producer_publish_local. destruct (validate_publish input); [|by intros [= _ <-]].
  destruct (publish_now _ _ _ _ p) as [published p1] eqn:Hp.
  apply producer_runs_publish_now in Hp. destruct published as [job|error]; [|by intros [= _ <-]].
  destruct (job_phase job); try by intros [= _ <-].
  destruct (requested_answer _ _ _ p1) as [answer p2] eqn:Ha.
  apply producer_runs_requested_answer in Ha. intros [= _ <-]. by etrans.
Qed.

Lemma publish_tree_local_runs input p response p' :
  producer_publish_tree_local work_root group_id default_voice input p = (response, p') →
  runs_to p p'.
Proof.
  unfold producer_publish_tree_local. destruct (validate_tree input); [|by intros [= _ <-]].
  destruct (publish_tree _ _ _ _ _ _ p) as [published p1] eqn:Hp.
  apply producer_runs_publish_tree in Hp. by destruct published; intros [= _ <-].
Qed.

(** What a response says of the request, the producer before it and the one
    after it. *)
Definition local_outcome (input : LocalPublishRequest) (p : producer)
    (response : LocalPublishResponse) (p' : producer) : Prop :=
  match response with
  | ResponsePublished _ id receipt_id event_id answer_wait =>
      publish_request_valid input ∧ pr_group_id (lp_request input) = group_id ∧
      id = pr_request_id (lp_request input) ∧
      (answer_wait = NotRequested ↔ lp_wait_for_answer_seconds input = None) ∧
      ∃ job item membership, jobs p' id = Some job ∧
        job_phase job = JobPublished item membership receipt_id event_id ∧
        request_digest (lp_request input) = Ok (job_request_digest job) ∧
        ∀ answer, answer_wait = Answered answer →
          answer_reported (aw_group_id waiter) event_id (fz_questions item) answer
  | ResponsePublishedTree _ _ _ _ => False
  | ResponseError _ code message =>
      (∃ e, validate_publish input = Err e ∧ code = err_code e ∧ p' = p) ∨
      ∃ e, publish_now work_root group_id (lp_request input) (lp_agent_nsec input) p
             = (Err e, p') ∧
        code = producer_error_code e ∧ message = producer_error_message e
  end.

Lemma publish_local_outcome input p response p' :
  jobs_ok (pd_runner p) →
  producer_publish_local work_root group_id waiter input p = (response, p') →
  runs_to p p' ∧ jobs_ok (pd_runner p') ∧ version_of response = LOCAL_PROTOCOL_VERSION ∧
  local_outcome input p response p'.
Proof.
  intros Hok Hp. pose proof (publish_local_runs _ _ _ _ Hp) as Hruns.
  pose proof Hruns as Hok'. apply runner_reachable in Hok' as [Hok' _]; [|done].
  split; [done|]. split; [done|]. unfold producer_publish_local in Hp.
  destruct (validate_publish input) as [[]|e] eqn:Hv.
  2:{ injection Hp as <- <-. split; [done|]. left. by exists e. }
  destruct (publish_now _ _ _ _ p) as [[job|e] p1] eqn:Hn.
  2:{ injection Hp as <- <-. split; [done|]. right. by exists e. }
  pose proof (publish_now_spec _ _ _ _ _ Hok Hn) as (Hg & Hj & Hpub & Hd).
  apply producer_runs_publish_now in Hn. apply runner_reachable in Hn as [Hok1 _]; [|done].
  destruct (job_phase job) as [| | | | | |item membership receipt_id event_id] eqn:Hph; try done.
  destruct (requested_answer _ _ _ p1) as [answer p2] eqn:Ha. injection Hp as <- <-.
  split; [done|]. split_and!; [by apply validate_publish_iff|done|apply (Hok1 _ _ Hj)| |].
  { unfold requested_answer in Ha. destruct (lp_wait_for_answer_seconds input).
    - split; [intros ->|done]. destruct (wait_for_answer _ _ _ _ p1) as [[|[]] ?]; done.
    - by injection Ha as <-. }
  pose proof (published_questions_distinct _ _ _ _ _ _ _ Hok1 Hj Hph) as Hnd.
  exists job, item, membership. rewrite (jo_id _ _ (Hok1 _ _ Hj)).
  split_and!; [|done|done|].
  - apply producer_runs_requested_answer in Ha. eapply published_final; [exact Hok1|done..|].
    by rewrite Hph.
  - intros answer' ->. by eapply requested_answer_fits.
Qed.

End facts.

(** A request with a question, answered in the second round of the wait. *)
Module Example_service.
Definition answer_row : Row :=
  mkRow (mkEvent (mkEventId (repeat 50%N 64)) Example_parse.author 6 9
    [[$"h"; $"tts"]; [$"tts29"; $"answer"; $"1"];
     [$"e"; Example_producer.hex 0; []; $"root"]; [$"answer"; $"q1"; $"b"]] []) [].
#[export] Instance answer_engine : AnswerEngine (list str) := {|
  observe_answers _ _ e := (Ok (λ i, mkTurn 5000
    (AnswerFrame (if decide (i = 0) then None else Some [answer_row])) 5001), e);
|}.
Definition request : ProducerRequest :=
  mkRequest $"r" $"tts" $"v" $"a" $"Hi" [] $"B" [] [Example_answer.question] None.
Definition input : LocalPublishRequest :=
  mkLocalPublish 1 request (Some 5%N) (Some Example_producer.agent).
Definition waiter : AnswerWaiter := mkWaiter (mkRelayUrl $"wss://relay") $"tts".
Definition answer : AnswerBundle :=
  mkAnswerBundle (repeat 50%N 64) (pk_hex Example_parse.author) 6
    [mkQuestionAnswer $"q1" [$"b"]].
End Example_service.
Import Example_producer Example_service.

