(* ===== verification/LocalServer.v ===== *)
(** The local endpoint ([daemon/src/local_server.rs]): one request per
    connection, read up to the frame limit, decoded, validated, served and
    answered; and the loop over connections with its shutdown. JSON and the
    sockets are parameters. *)

From S2P Require Export Paths LocalService.

(** ** One connection *)

(** An [io::Error]: whether its kind is [InvalidData], and its text. *)
Record SocketFailure := mkFailure { sf_invalid_data : bool; sf_text : str }.

#[export] Instance socket_failure_eq_dec : EqDecision SocketFailure.
Proof. solve_decision. Defined.

(** An accepted [UnixStream]: what the client sends before it closes its side
    or the connection breaks, and the results of the other calls. *)
Record Connection := mkConnection {
  cn_set_timeouts : result SocketFailure unit;
  cn_sent : list N;
  cn_broken : option SocketFailure;
  cn_write : list N → result SocketFailure unit;
  cn_shutdown : result SocketFailure unit;
}.

(** [read_bounded]: [take(limit + 1).read_to_end(..)], then the check. *)
Definition read_frame (stream : Connection) : result SocketFailure (list N) :=
  let limit := (MAX_LOCAL_FRAME_BYTES + 1)%N in
  data ← match cn_broken stream with
    | Some error =>
        if (len (cn_sent stream) <? limit)%N then Err error
        else Ok (take (N.to_nat limit) (cn_sent stream))
    | None => Ok (take (N.to_nat limit) (cn_sent stream))
    end;
  _ ← fail_if (mkFailure true $"local frame exceeds the byte limit")
        (MAX_LOCAL_FRAME_BYTES <? len data)%N;
  Ok data.

Section server.
Context {S : Type} `{LocalPublishService S}.
(** [serde_json::from_slice] and [serde_json::to_vec]. *)
Context (decode_publish : list N → option LocalPublishRequest)
        (decode_tree : list N → option LocalTreeRequest)
        (encode_response : LocalPublishResponse → result str (list N)).

(** The response to what was read. *)
Definition respond (frame : result SocketFailure (list N)) (service : S)
    : LocalPublishResponse * S :=
  match frame with
  | Ok [] => (response_error $"malformed_request" $"local request is empty", service)
  | Ok data =>
      match decode_publish data with
      | Some request =>
          match validate_publish request with
          | Ok _ => publish_local request service
          | Err error => (response_error (err_code error) (err_message error), service)
          end
      | None =>
          match decode_tree data with
          | Some tree =>
              match validate_tree tree with
              | Ok _ => publish_tree_local tree service
              | Err error => (response_error (err_code error) (err_message error), service)
              end
          | None =>
              (response_error $"malformed_request" $"local request is not valid protocol JSON",
               service)
          end
      end
  | Err error =>
      if sf_invalid_data error
      then (response_error $"request_too_large" (sf_text error), service)
      else (response_error $"request_read_failed" (sf_text error), service)
  end.

(** The bytes that were written, or the error that ended the connection. *)
Definition serve_stream (stream : Connection) : io S SocketFailure (list N) :=
  _ ← io_lift (cn_set_timeouts stream);
  response ← (λ service, let '(response, service) := respond (read_frame stream) service in
                         (Ok response, service));
  data ← io_lift (map_err (mkFailure true) (encode_response response));
  _ ← io_lift (cn_write stream data);
  _ ← io_lift (cn_shutdown stream);
  mret data.

(** ** The loop

    What the loop meets in one round: the flag, the result of [accept], and the
    flag again. *)
Record Round := mkRound {
  rd_requested : bool;
  rd_accept : result SocketFailure Connection;
  rd_requested_after : bool;
}.

(** [serve_until_shutdown] over the rounds that come; [None] while it waits for
    another connection. *)
Fixpoint serve_until_shutdown (rounds : list Round) (service : S)
    : option (result SocketFailure unit) * S :=
  match rounds with
  | [] => (None, service)
  | round :: rounds =>
      if rd_requested round then (Some (Ok ()), service)
      else match rd_accept round with
        | Err error => (Some (Err error), service)
        | Ok stream =>
            if rd_requested_after round then (Some (Ok ()), service)
            else let '(_, service) := serve_stream stream service in
                 serve_until_shutdown rounds service
        end
  end.

(** [serve_forever] and [serve_one]. *)
Fixpoint serve_forever (accepted : list (result SocketFailure Connection)) (service : S)
    : option SocketFailure * S :=
  match accepted with
  | [] => (None, service)
  | Err error :: _ => (Some error, service)
  | Ok stream :: accepted =>
      let '(_, service) := serve_stream stream service in serve_forever accepted service
  end.

Definition serve_one (accepted : result SocketFailure Connection) : io S SocketFailure unit :=
  stream ← io_lift accepted;
  _ ← serve_stream stream;
  mret ().
End server.

(** ** What a response means *)
Lemma read_frame_ok stream data :
  read_frame stream = Ok data → data = cn_sent stream ∧ (len data ≤ MAX_LOCAL_FRAME_BYTES)%N.
Proof.
  unfold read_frame. intros H. okay H as sent Hs. passed H as Hl. injection H as <-.
  assert (sent = take (N.to_nat (MAX_LOCAL_FRAME_BYTES + 1)) (cn_sent stream)) as ->.
  { destruct (cn_broken stream); [destruct (_ <? _)%N; [done|]|]; by injection Hs as <-. }
  split; [|done]. unfold len in Hl. rewrite length_take in Hl.
  assert (length (cn_sent stream) ≤ N.to_nat (MAX_LOCAL_FRAME_BYTES + 1)) by lia.
  by apply take_ge.
Qed.

(** The responses of a session, in the order of the requests they answer;
    whether a response could be delivered makes no difference to the service. *)
Section sessions.
Context {S : Type} `{LocalPublishService S}.
Context (decode_publish : list N → option LocalPublishRequest)
        (decode_tree : list N → option LocalTreeRequest)
        (encode_response : LocalPublishResponse → result str (list N)).

#[local] Abbreviation respond := (respond decode_publish decode_tree).
#[local] Abbreviation serve_stream := (serve_stream decode_publish decode_tree encode_response).
#[local] Abbreviation serve_until_shutdown :=
  (serve_until_shutdown decode_publish decode_tree encode_response).

Definition error_codes : list str :=
  [$"malformed_request"; $"request_too_large"; $"request_read_failed"; $"unsupported_version";
   $"invalid_answer_wait"; $"invalid_agent_identity"].

Lemma validate_publish_code r e : validate_publish r = Err e → err_code e ∈ error_codes.
Proof.
  unfold validate_publish. intros [He|([] & _ & H')]%bind_err.
  { destruct (negb _) in He; [|done]. injection He as <-. set_solver. }
  apply bind_err in H' as [He|([] & _ & He)].
  - destruct (lp_wait_for_answer_seconds r); [|done].
    apply bind_err in He as [He|([] & _ & He)];
      unfold fail_if in He; case_match; simplify_eq; set_solver.
  - unfold fail_if in He. case_match; simplify_eq. set_solver.
Qed.

Lemma validate_tree_code r e : validate_tree r = Err e → err_code e ∈ error_codes.
Proof.
  unfold validate_tree. intros [He|([] & _ & [He|([] & _ & He)]%bind_err)]%bind_err;
    unfold fail_if in He; case_match; simplify_eq; set_solver.
Qed.

(** How one connection is answered. *)
Inductive answered (stream : Connection) (s : S) : LocalPublishResponse → S → Prop :=
  | answered_publish request response s' :
      (len (cn_sent stream) ≤ MAX_LOCAL_FRAME_BYTES)%N →
      decode_publish (cn_sent stream) = Some request → publish_request_valid request →
      publish_local request s = (response, s') → answered stream s response s'
  | answered_tree tree response s' :
      (len (cn_sent stream) ≤ MAX_LOCAL_FRAME_BYTES)%N →
      decode_publish (cn_sent stream) = None → decode_tree (cn_sent stream) = Some tree →
      tree_request_valid tree →
      publish_tree_local tree s = (response, s') → answered stream s response s'
  | answered_error code message :
      code ∈ error_codes → answered stream s (response_error code message) s.

Lemma respond_answered stream s response s' :
  respond (read_frame stream) s = (response, s') → answered stream s response s'.
Proof.
  unfold LocalServer.respond. destruct (read_frame stream) as [data|error] eqn:Hr.
  2:{ destruct (sf_invalid_data error); intros [= <- <-]; apply answered_error; set_solver. }
  apply read_frame_ok in Hr as [-> Hl].
  destruct (cn_sent stream) as [|b data] eqn:Hs;
    [intros [= <- <-]; apply answered_error; set_solver|].
  rewrite <-Hs in *. clear Hs b data.
  destruct (decode_publish (cn_sent stream)) as [request|] eqn:Hd.
  - destruct (validate_publish request) as [[]|e] eqn:Hv.
    + intros Hp. apply validate_publish_iff in Hv. by eapply answered_publish.
    + intros [= <- <-]. by apply answered_error, (validate_publish_code request).
  - destruct (decode_tree (cn_sent stream)) as [tree|] eqn:Ht.
    + destruct (validate_tree tree) as [[]|e] eqn:Hv.
      * intros Hp. apply validate_tree_iff in Hv. by eapply answered_tree.
      * intros [= <- <-]. by apply answered_error, (validate_tree_code tree).
    + intros [= <- <-]. apply answered_error. set_solver.
Qed.

Lemma serve_stream_answered stream s r s' :
  serve_stream stream s = (r, s') →
  (∃ e, cn_set_timeouts stream = Err e ∧ r = Err e ∧ s' = s) ∨
  ∃ response, answered stream s response s' ∧
    ∀ data, r = Ok data → encode_response response = Ok data ∧ cn_write stream data = Ok ().
Proof.
  unfold LocalServer.serve_stream.
  intros [([] & s1 & [_ <-]%io_lift_ok & Hs)|(e & [= -> <-] & ->)]%io_bind_inv;
    [|left; by exists e].
  right. apply io_bind_inv in Hs as [(response & s1 & Hr & Hs)|(e & Hr & _)];
    destruct (respond (read_frame stream) s) as [response' s2] eqn:Heq; [|done].
  injection Hr as -> ->. apply respond_answered in Heq. exists response.
  assert (∀ A (m : result SocketFailure A), io_keeps id (io_lift (W := S) m)) as Hlift
    by (intros; apply keeps_lift).
  assert (s' = s1) as ->.
  { eapply (keeps_bind id); [apply Hlift| |exact Hs]. intros data.
    apply keeps_bind; [apply Hlift|intros _]. apply keeps_bind; [apply Hlift|intros _].
    apply keeps_ret. }
  split; [done|]. intros data ->. pure Hs as data' Hd. run Hs as [] s2 Hw.
  apply io_lift_ok in Hw as [Hw <-]. run Hs as [] s3 Hsh. injection Hs as -> ->.
  by apply map_err_ok in Hd.
Qed.

(** Whatever both operations of the service keep is kept by a session. *)
Inductive session : list LocalPublishResponse → S → S → Prop :=
  | session_nil s : session [] s s
  | session_answer stream response responses s s1 s' :
      answered stream s response s1 → session responses s1 s' →
      session (response :: responses) s s'.

Lemma serve_until_shutdown_session rounds : ∀ s r s',
  serve_until_shutdown rounds s = (r, s') →
  ∃ responses, session responses s s' ∧ length responses ≤ length rounds.
Proof.
  induction rounds as [|[before accepted after] rounds IH]; intros s r s'; simpl.
  { intros [= _ <-]. exists []. split; [constructor|simpl; lia]. }
  destruct before; [intros [= _ <-]; exists []; split; [constructor|simpl; lia]|].
  destruct accepted as [stream|e]; [|intros [= _ <-]; exists []; split; [constructor|simpl; lia]].
  destruct after; [intros [= _ <-]; exists []; split; [constructor|simpl; lia]|].
  destruct (serve_stream stream s) as [r1 s1] eqn:Hs. intros Hloop.
  apply IH in Hloop as (responses & Hses & Hlen).
  apply serve_stream_answered in Hs as [(e & _ & _ & ->)|(response & Ha & _)].
  - exists responses. split; [done|lia].
  - exists (response :: responses). split; [by econstructor|simpl; lia].
Qed.
End sessions.

(** ** The daemon *)
Section daemon.
Context `{Nip29, Hashing} {J E : Type} `{JobJournalLaws J}.
Context `{Synthesizer E, ArtifactUploader E, Publisher E, WorkDir E, !ProducerEnv E,
          !AnswerEngine E}.
Context (work_root group_id default_voice : str) (waiter : AnswerWaiter).
Context (decode_publish : list N → option LocalPublishRequest)
        (decode_tree : list N → option LocalTreeRequest)
        (encode_response : LocalPublishResponse → result str (list N)).

#[local] Abbreviation producer := (@Producer J E _).
#[local] Abbreviation jobs p := (at_ (pd_runner (p : producer))).
#[local] Abbreviation runs_to p p' :=
  (rtc (runner_step (J := J) (E := E) work_root) (pd_runner (p : producer)) (pd_runner p')).
#[local] Instance service : LocalPublishService producer :=
  producer_service work_root group_id default_voice waiter.

(** What a response claims of the journal. *)
Definition claims (response : LocalPublishResponse) (p : producer) : Prop :=
  match response with
  | ResponsePublished _ id receipt_id event_id wait =>
      ∃ job item membership, jobs p id = Some job ∧
        job_phase job = JobPublished item membership receipt_id event_id ∧
        ∀ answer, wait = Answered answer →
          answer_reported (aw_group_id waiter) event_id (fz_questions item) answer
  | ResponsePublishedTree _ id root children =>
      ∃ author title questions attachments,
        node_job group_id author (jobs p) id title questions None root ∧
        children_published group_id author (jobs p) id root 0 attachments children
  | ResponseError _ _ _ => True
  end.

Lemma claims_later response p p' :
  jobs_ok (pd_runner p) → runs_to p p' → claims response p → claims response p'.
Proof.
  intros Hok Hp. destruct response as [| |]; simpl; [| |done].
  { intros (job & item & membership & Hj & Hph & Ha). exists job, item, membership.
    split; [|done]. eapply published_final; [done..|]. by rewrite Hph. }
  intros (author & title & qs & atts & Hn & Hc). exists author, title, qs, atts.
  split; [by eapply node_job_later|by eapply children_later].
Qed.

Lemma answered_claims stream p response p' :
  jobs_ok (pd_runner p) → answered decode_publish decode_tree stream p response p' →
  runs_to p p' ∧ claims response p'.
Proof.
  intros Hok [request response' p1 _ _ _ Hp|tree response' p1 _ _ _ _ Hp|]; [| |by split].
  - apply publish_local_outcome in Hp as (Hruns & _ & _ & Hout); [|done]. split; [done|].
    destruct response'; simpl in *; [|done..].
    destruct Hout as (_ & _ & _ & _ & job & item & membership & Hj & Hph & _ & Ha).
    by exists job, item, membership.
  - pose proof (publish_tree_local_runs _ _ _ _ _ _ _ Hp) as Hruns. split; [done|].
    unfold publish_tree_local, service, producer_service, producer_publish_tree_local in Hp.
    destruct (validate_tree tree); [|by injection Hp as <- <-].
    destruct (publish_tree _ _ _ _ _ _ p) as [[publication|e] p2] eqn:Ht;
      injection Hp as <- <-; [|done].
    apply publish_tree_published in Ht as (_ & _ & identity & p3 & _ & Hn & Hc); [|done].
    simpl. by eexists _, _, _, _.
Qed.

Lemma session_claims responses p p' :
  jobs_ok (pd_runner p) → session decode_publish decode_tree responses p p' →
  runs_to p p' ∧ Forall (λ response, claims response p') responses.
Proof.
  intros Hok Hs. induction Hs as [|stream response responses p p1 p' Ha _ IH]; [by split|].
  apply answered_claims in Ha as [Hruns Hclaim]; [|done].
  assert (jobs_ok (pd_runner p1)) as Hok1 by by eapply runner_reachable.
  destruct (IH Hok1) as [Hruns' Hall]. split; [by etrans|]. constructor; [|done].
  by eapply claims_later.
Qed.

(** Over a whole run of the daemon, whatever bytes the connections carry and
    whichever of them break, no job is lost and none goes backwards, the
    records stay consistent, and everything the daemon has answered is true of
    the journal it leaves: each publication it reported is a published job, each
    answer it passed on is one given to its event, and each tree it reported is published completely, every node linked to its
    parent. *)
Theorem daemon_session_durable rounds (p : producer) r p' :
  jobs_ok (pd_runner p) →
  serve_until_shutdown decode_publish decode_tree encode_response rounds p = (r, p') →
  jobs_ok (pd_runner p') ∧
  (∀ id job, jobs p id = Some job →
     ∃ phase, jobs p' id = Some (set_phase phase job) ∧ rtc phase_edge (job_phase job) phase) ∧
  ∃ responses, session decode_publish decode_tree responses p p' ∧
    Forall (λ response, claims response p') responses.
Proof.
  intros Hok (responses & Hs & _)%serve_until_shutdown_session.
  pose proof (session_claims _ _ _ Hok Hs) as [Hruns Hall].
  apply runner_reachable in Hruns as [Hok' Hjobs]; [|done].
  split; [done|]. split; [done|]. by exists responses.
Qed.
End daemon.

(** Two connections, the first one carrying nothing the daemon understands; the
    third one finds the shutdown requested. *)
Module Example_server.
Export Example_producer Example_service.
Definition decode_publish (data : list N) : option LocalPublishRequest :=
  if decide (data = [1; 2]%N) then Some input else None.
Definition decode_tree (data : list N) : option LocalTreeRequest := None.
Definition encode_response (response : LocalPublishResponse) : result str (list N) := Ok [7%N].
Definition connection (data : list N) : Connection :=
  mkConnection (Ok ()) data None (λ _, Ok ()) (Ok ()).
Definition rounds : list Round :=
  [mkRound false (Ok (connection [9%N])) false;
   mkRound false (Ok (connection [1; 2]%N)) false;
   mkRound false (Ok (connection [])) true].
Definition run : option (result SocketFailure unit) * producer :=
  serve_until_shutdown (H := producer_service $"/work" $"tts" $"voice" waiter)
    decode_publish decode_tree encode_response rounds start.
End Example_server.
Import Example_server.

Lemma daemon_session_durable_witness :
  Example_server.run.1 = Some (Ok ()) ∧ jobs_ok (pd_runner Example_server.run.2) ∧
  is_published <$> (job_phase <$> at_ (pd_runner Example_server.run.2) $"r") = Some true.
Proof.
  split; [vm_compute; reflexivity|]. split; [|vm_compute; reflexivity].
  exact (proj1 (daemon_session_durable $"/work" $"tts" $"voice" waiter decode_publish decode_tree
    encode_response rounds start _ _ start_ok (surjective_pairing _))).
Defined.
