(* ===== verification/Ledger.v ===== *)
(** What the daemon promises, as a machine of its own: a ledger of orders, each
    of which is accepted once, published at once and at most once, and never
    forgotten, and responses that say only what the ledger holds. The steps of
    the producer's pipeline ([daemon/src/runner.rs]), with their seven phases,
    their failures and their retries, refine the steps of the ledger. *)

From S2P Require Export LocalService.

(** ** The specification *)

(** What never changes of an order, and what is known of it. *)
Record Order := mkOrder { or_digest : str; or_author : str; or_created_at : N }.
Inductive Entry :=
  | Open (order : Order)
  | Closed (order : Order) (receipt_id : N) (event_id : str).
Definition Ledger := str → option Entry.

(** Only this entry changes. *)
Definition books (id : str) (entry : Entry) (L L' : Ledger) : Prop :=
  L' id = Some entry ∧ ∀ i, i ≠ id → L' i = L i.

Definition closed (L : Ledger) (id event_id : str) : Prop :=
  ∃ order receipt_id, L id = Some (Closed order receipt_id event_id).

(** What a response says. *)
Definition answer_true (L : Ledger) (response : LocalPublishResponse) : Prop :=
  match response with
  | ResponsePublished _ id receipt_id event_id _ =>
      ∃ order, L id = Some (Closed order receipt_id event_id)
  | ResponsePublishedTree _ id root children =>
      closed L id root ∧ Forall (λ event, ∃ id, closed L id event) children
  | ResponseError _ _ _ => True
  end.

Record Service := mkService {
  sv_ledger : Ledger;
  sv_answers : list (str * LocalPublishResponse);
}.

Inductive service_step : Service → Service → Prop :=
  | service_accept id order L L' answers :
      valid_request_id id = true → L id = None → books id (Open order) L L' →
      service_step (mkService L answers) (mkService L' answers)
  | service_publish id order receipt_id event_id L L' answers :
      L id = Some (Open order) → is_event_id event_id = true →
      books id (Closed order receipt_id event_id) L L' →
      service_step (mkService L answers) (mkService L' answers)
  | service_answer group response L answers :
      answer_true L response →
      service_step (mkService L answers) (mkService L (answers ++ [(group, response)]))
  | service_idle L L' answers :
      (∀ i, L' i = L i) → service_step (mkService L answers) (mkService L' answers).

(** *** What holds of the specification *)

(** An entry of a later ledger: the same, or closed by now. *)
Definition entry_later (e e' : Entry) : Prop :=
  e' = e ∨ ∃ order receipt_id event_id, e = Open order ∧ e' = Closed order receipt_id event_id.

Lemma books_later id entry (L L' : Ledger) i e :
  books id entry L L' → L i = Some e → (∀ e0, L id = Some e0 → entry_later e0 entry) →
  ∃ e', L' i = Some e' ∧ entry_later e e'.
Proof.
  intros [Hid Hne] He Hlater. destruct (decide (i = id)) as [->|Hi].
  - exists entry. split; [done|]. by apply Hlater.
  - exists e. rewrite Hne by done. by split; [|left].
Qed.

Lemma service_step_later S S' i e :
  service_step S S' → sv_ledger S i = Some e →
  ∃ e', sv_ledger S' i = Some e' ∧ entry_later e e'.
Proof.
  intros [id order L L' answers Hv Hn Hb|id order receipt event L L' answers Ho Hev Hb
    |group response L answers Ha|L L' answers Heq] He; simpl in *.
  - eapply books_later; [done..|]. intros e0 He0. congruence.
  - eapply books_later; [done..|]. intros e0 He0. right. exists order, receipt, event.
    split; [congruence|done].
  - exists e. by split; [|left].
  - exists e. rewrite Heq. by split; [|left].
Qed.

Lemma entry_later_trans e1 e2 e3 : entry_later e1 e2 → entry_later e2 e3 → entry_later e1 e3.
Proof.
  intros [->|(o & r & ev & -> & ->)] [->|(o' & r' & ev' & He & ->)]; try done.
  - by left.
  - right. by exists o', r', ev'.
  - right. by exists o, r, ev.
Qed.

Lemma service_later S S' i e :
  rtc service_step S S' → sv_ledger S i = Some e →
  ∃ e', sv_ledger S' i = Some e' ∧ entry_later e e'.
Proof.
  intros Hs. revert e. induction Hs as [S|S S1 S2 H1 _ IH]; intros e He.
  - exists e. by split; [|left].
  - destruct (service_step_later _ _ _ _ H1 He) as (e1 & He1 & Hl1).
    destruct (IH e1 He1) as (e2 & He2 & Hl2). exists e2. split; [done|].
    by eapply entry_later_trans.
Qed.

(** A closed entry is final. *)
Lemma closed_final S S' i order receipt_id event_id :
  rtc service_step S S' → sv_ledger S i = Some (Closed order receipt_id event_id) →
  sv_ledger S' i = Some (Closed order receipt_id event_id).
Proof.
  intros Hs He. destruct (service_later _ _ _ _ Hs He) as (e' & He' & [->|(o & r & ev & [=] & _)]).
  done.
Qed.

Lemma service_answers group responses L answers :
  Forall (answer_true L) responses →
  rtc service_step (mkService L answers) (mkService L (answers ++ (pair group <$> responses))).
Proof.
  intros Hall. revert answers. induction Hall as [|response responses Ha _ IH]; intros answers.
  - by rewrite app_nil_r.
  - eapply rtc_l; [by apply (service_answer group)|].
    specialize (IH (answers ++ [(group, response)])). by rewrite <-(assoc_L (++)) in IH.
Qed.

(** ** The records as a ledger *)
Definition order_of (job : JobRecord) : Order :=
  mkOrder (job_request_digest job) (job_author job) (job_created_at job).
Definition entry_of (job : JobRecord) : Entry :=
  match job_phase job with
  | JobPublished _ _ receipt_id event_id => Closed (order_of job) receipt_id event_id
  | _ => Open (order_of job)
  end.
Definition ledger_of (jobs : str → option JobRecord) : Ledger := λ id, entry_of <$> jobs id.

Section refinement.
Context `{Nip29, Hashing} {J E : Type} `{JobJournalLaws J}.
Context `{Synthesizer E, ArtifactUploader E, Publisher E, WorkDir E}.
Context (work_root : str).

#[local] Abbreviation runner := (@ProducerRunner J E).
#[local] Abbreviation ledger w := (ledger_of (at_ (w : runner))).

(** One edge of the pipeline closes the order, or is not seen at all. *)
Lemma edge_entry job p :
  phase_edge (job_phase job) p → phase_ok job p →
  entry_of (set_phase p job) = entry_of job ∨
  ∃ receipt_id event_id, is_event_id event_id = true ∧ entry_of job = Open (order_of job) ∧
    entry_of (set_phase p job) = Closed (order_of job) receipt_id event_id.
Proof using.
  unfold entry_of. destruct job as [v d a c r phase]. simpl. intros Hedge Hp.
  destruct Hedge; simpl; try (by left). right. destruct Hp as (_ & _ & Hev). by eexists _, _.
Qed.

Lemma runner_step_refines (w w' : runner) answers :
  runner_step work_root w w' → jobs_ok w →
  service_step (mkService (ledger w) answers) (mkService (ledger w') answers).
Proof.
  intros Hs Hok. destruct Hs as [request author t w r w' Ha|id w r w' Ha|j e e'].
  - apply admit_spec in Ha as (Hother & Hid & _).
    destruct Hid as [Heq|(Hn & Hv & digest & _ & Heq)].
    + apply service_idle. intros i. unfold ledger_of.
      destruct (decide (i = pr_request_id request)) as [->|Hne]; [by rewrite Heq|].
      by rewrite Hother.
    + eapply (service_accept (pr_request_id request)); [done|unfold ledger_of; by rewrite Hn|].
      split; unfold ledger_of; [by rewrite Heq|]. intros i Hi. by rewrite Hother.
  - apply advance_spec in Ha as [Hother Hid]; [|done].
    assert (at_ w' id = at_ w id ∨ ∃ job p, at_ w id = Some job ∧
      at_ w' id = Some (set_phase p job) ∧ phase_edge (job_phase job) p ∧ phase_ok job p)
      as [Heq|(job & p & Hj & Hj' & Hedge & Hp)].
    { destruct r as [job'|e]; [|done]. destruct Hid as (job & Hj & Hj' & [[-> _]|(p & -> & He & Hp)]).
      - left. congruence.
      - right. by exists job, p. }
    + apply service_idle. intros i. unfold ledger_of.
      destruct (decide (i = id)) as [->|Hne]; [by rewrite Heq|by rewrite Hother].
    + destruct (edge_entry job p Hedge Hp) as [Heq|(receipt & event & Hev & Hopen & Hclosed)].
      * apply service_idle. intros i. unfold ledger_of.
        destruct (decide (i = id)) as [->|Hne]; [|by rewrite Hother].
        rewrite Hj, Hj'. simpl. by rewrite Heq.
      * eapply (service_publish id); [unfold ledger_of; rewrite Hj; simpl; by rewrite Hopen|done|].
        split; unfold ledger_of; [rewrite Hj'; simpl; by rewrite Hclosed|].
        intros i Hi. by rewrite Hother.
  - by apply service_idle.
Qed.

Lemma runner_refines (w w' : runner) answers :
  rtc (runner_step work_root) w w' → jobs_ok w →
  rtc service_step (mkService (ledger w) answers) (mkService (ledger w') answers).
Proof.
  induction 1 as [w|w w1 w2 Hs _ IH]; intros Hok; [done|].
  eapply rtc_l; [by apply runner_step_refines|]. apply IH.
  by apply runner_step_spec in Hs as [Hok1 _].
Qed.
End refinement.

(** ** Responses that are true of the records are true of the ledger *)
Section responses.
Context `{Hashing}.

Lemma node_closed group author jobs id title qs parent event :
  node_job group author jobs id title qs parent event → closed (ledger_of jobs) id event.
Proof.
  intros (job & r & Hj & Hev & _). unfold closed, ledger_of. rewrite Hj. simpl. unfold entry_of.
  destruct (job_phase job); try done. injection Hev as ->. by eexists _, _.
Qed.

Lemma children_closed group author jobs id event i atts events :
  children_published group author jobs id event i atts events →
  Forall (λ event, ∃ id, closed (ledger_of jobs) id event) events.
Proof.
  intros Hc. induction Hc as [| |id event i label message qs sub atts child below events Hn _ IHb _ IH];
    [done|done|].
  apply Forall_app. split; [done|]. constructor; [|done].
  exists (child_request_id id i). by eapply node_closed.
Qed.
End responses.
