(* ===== verification/Shutdown.v ===== *)
(** Shutting the local endpoint down ([LocalServerShutdown] and
    [serve_until_shutdown] in [daemon/src/local_server.rs]): the serving thread
    blocks in [accept], so a request for shutdown sets a flag and then connects
    to the socket to wake it. Any number of threads may request it, while
    clients connect; one atomic access or socket call at a time. *)

From S2P Require Export Prelude.

(** Where the serving thread is in [serve_until_shutdown]. *)
Inductive ServeAt :=
  | SvCheck             (** before [while !shutdown.is_requested()] *)
  | SvAccept            (** before [accept], which waits for a connection *)
  | SvRecheck           (** accepted; before looking at the flag again *)
  | SvServe             (** before [serve_stream] *)
  | SvReturned.

(** Where a thread is in [request]. *)
Inductive RequestAt :=
  | RqSwap              (** before [requested.swap(true)] *)
  | RqConnect           (** it was false; before [UnixStream::connect] *)
  | RqReturned.

#[export] Instance serve_at_eq_dec : EqDecision ServeAt.
Proof. solve_decision. Defined.
#[export] Instance request_at_eq_dec : EqDecision RequestAt.
Proof. solve_decision. Defined.

(** The flag, the number of connections waiting on the listener, the number of
    requests served, and where the threads are. *)
Record Endpoint := mkEndpoint {
  ep_requested : bool;
  ep_backlog : nat;
  ep_served : nat;
  ep_serve : ServeAt;
  ep_requests : list RequestAt;
}.

Section shutdown.
(** The listener queues at most this many connections; then [connect] waits. *)
Context (queue : nat).

(** [serve_until_shutdown]; [None] when it has returned or waits. *)
Definition serve_step (s : Endpoint) : option Endpoint :=
  let '(mkEndpoint requested backlog served at_ requests) := s in
  match at_ with
  | SvCheck =>
      Some (mkEndpoint requested backlog served (if requested then SvReturned else SvAccept)
              requests)
  | SvAccept =>
      match backlog with
      | O => None
      | S backlog => Some (mkEndpoint requested backlog served SvRecheck requests)
      end
  | SvRecheck =>
      Some (mkEndpoint requested backlog served (if requested then SvReturned else SvServe)
              requests)
  | SvServe => Some (mkEndpoint requested backlog (S served) SvCheck requests)
  | SvReturned => None
  end.

(** [request], by thread [i]. A connection that is refused because the server
    has returned is ignored. *)
Definition request_step (i : nat) (s : Endpoint) : option Endpoint :=
  let '(mkEndpoint requested backlog served at_ requests) := s in
  match requests !! i with
  | Some RqSwap =>
      Some (mkEndpoint true backlog served at_
              (<[i:=if requested then RqReturned else RqConnect]> requests))
  | Some RqConnect =>
      if decide (at_ = SvReturned) then
        Some (mkEndpoint requested backlog served at_ (<[i:=RqReturned]> requests))
      else if decide (backlog < queue) then
        Some (mkEndpoint requested (S backlog) served at_ (<[i:=RqReturned]> requests))
      else None
  | Some RqReturned | None => None
  end.

Inductive endpoint_step : Endpoint → Endpoint → Prop :=
  | step_serve s s' : serve_step s = Some s' → endpoint_step s s'
  | step_request i s s' : request_step i s = Some s' → endpoint_step s s'
  | step_client requested backlog served at_ requests :
      backlog < queue →
      endpoint_step (mkEndpoint requested backlog served at_ requests)
        (mkEndpoint requested (S backlog) served at_ requests)
  | step_accept_error requested backlog served requests :
      endpoint_step (mkEndpoint requested backlog served SvAccept requests)
        (mkEndpoint requested backlog served SvReturned requests).

(** A serving thread and [n] threads about to request the shutdown. *)
Definition endpoint_new (n : nat) : Endpoint :=
  mkEndpoint false 0 0 SvCheck (replicate n RqSwap).

(** ** The invariant: the wake-up is not lost *)
Record endpoint_inv (s : Endpoint) : Prop := {
  ei_requested i pc : ep_requests s !! i = Some pc → pc ≠ RqSwap → ep_requested s = true;
  ei_wake : ep_requested s = true → (∀ i, ep_requests s !! i ≠ Some RqConnect) →
    ep_serve s = SvAccept → 0 < ep_backlog s;
}.

Lemma endpoint_new_inv n : endpoint_inv (endpoint_new n).
Proof. split; simpl; [|done]. by intros i pc [-> _]%lookup_replicate. Qed.

Lemma serve_step_inv s s' : serve_step s = Some s' → endpoint_inv s → endpoint_inv s'.
Proof.
  destruct s as [requested backlog served at_ requests]. intros Hs [Hr Hw]. simpl in *.
  destruct at_; [| destruct backlog| | |]; try done; injection Hs as <-;
    split; simpl; try done; destruct requested; done.
Qed.

Lemma request_step_inv i s s' : request_step i s = Some s' → endpoint_inv s → endpoint_inv s'.
Proof.
  destruct s as [requested backlog served at_ requests]. intros Hs [Hr Hw]. simpl in *.
  destruct (requests !! i) as [pc|] eqn:Hi; [|done].
  assert (∀ c, pc ≠ RqConnect → (∀ j, <[i:=c]> requests !! j ≠ Some RqConnect) →
    ∀ j, requests !! j ≠ Some RqConnect) as Hothers.
  { intros c Hpc Hc j Hj. destruct (decide (j = i)) as [->|Hne]; [congruence|].
    apply (Hc j). by rewrite list_lookup_insert_ne. }
  destruct pc; [| |done].
  - injection Hs as <-. split; simpl; [done|]. intros _ Hc Ha.
    apply Hw; [|by eapply Hothers|done]. destruct requested eqn:Hreq; [done|]. exfalso.
    apply (Hc i). apply list_lookup_insert_eq. by eapply lookup_lt_Some.
  - assert (requested = true) as -> by by eapply (Hr i).
    destruct (decide (at_ = SvReturned)) as [->|]; [injection Hs as <-; by split|].
    destruct (decide (backlog < queue)); [|done]. injection Hs as <-.
    split; simpl; [done|lia].
Qed.

Lemma endpoint_step_inv s s' : endpoint_step s s' → endpoint_inv s → endpoint_inv s'.
Proof.
  intros [s1 s2 Hs|i s1 s2 Hs|requested backlog served at_ requests _
    |requested backlog served requests] Hinv.
  - by eapply serve_step_inv.
  - by eapply request_step_inv.
  - destruct Hinv as [Hr Hw]. split; simpl in *; [done|lia].
  - destruct Hinv as [Hr Hw]. by split.
Qed.

Lemma endpoint_reachable s s' : rtc endpoint_step s s' → endpoint_inv s → endpoint_inv s'.
Proof. induction 1; eauto using endpoint_step_inv. Qed.

(** ** After the request *)

(** The steps the serving thread has left once the flag is set, and the requests
    it may still serve. *)
Definition steps_left (at_ : ServeAt) : nat :=
  match at_ with SvServe | SvAccept => 2 | SvCheck | SvRecheck => 1 | SvReturned => 0 end.
Definition serves_left (at_ : ServeAt) : nat :=
  match at_ with SvServe => 1 | _ => 0 end.

Lemma requested_serves s s' :
  serve_step s = Some s' → ep_requested s = true →
  steps_left (ep_serve s') < steps_left (ep_serve s) ∧
  ep_served s' + serves_left (ep_serve s') = ep_served s + serves_left (ep_serve s).
Proof.
  destruct s as [requested backlog served at_ requests]. simpl. intros Hs ->.
  destruct at_; [|destruct backlog| | |]; try done; injection Hs as <-; simpl; lia.
Qed.

Lemma requested_step s s' :
  endpoint_step s s' → ep_requested s = true →
  ep_requested s' = true ∧
  ep_served s' + serves_left (ep_serve s') = ep_served s + serves_left (ep_serve s).
Proof.
  intros [s1 s2 Hs|i s1 s2 Hs|requested backlog served at_ requests _
    |requested backlog served requests] Hr; [| |by split..].
  - split; [|by apply requested_serves]. destruct s1 as [requested backlog served at_ requests].
    simpl in *. destruct at_; [|destruct backlog| | |]; try done; by injection Hs as <-.
  - destruct s1 as [requested backlog served at_ requests]. simpl in *.
    destruct (requests !! i) as [[]|]; [| |done..]; [by injection Hs as <-|].
    destruct (decide _); [by injection Hs as <-|].
    destruct (decide _); [by injection Hs as <-|done].
Qed.

Lemma requested_steps s s' :
  rtc endpoint_step s s' → ep_requested s = true →
  ep_requested s' = true ∧
  ep_served s' + serves_left (ep_serve s') = ep_served s + serves_left (ep_serve s).
Proof.
  induction 1 as [s|s s1 s2 Hs _ IH]; intros Hr; [done|].
  apply requested_step in Hs as [Hr1 Hn]; [|done]. destruct (IH Hr1) as [Hr2 Hn']. split; [done|lia].
Qed.

(** A thread in [request] is never stuck. *)
Lemma requests_progress s i pc :
  0 < queue → ep_requests s !! i = Some pc → pc ≠ RqReturned →
  is_Some (request_step i s) ∨ is_Some (serve_step s).
Proof.
  intros Hq Hi Hpc. destruct s as [requested backlog served at_ requests]. simpl in *.
  rewrite Hi. destruct pc; [by left| |done].
  destruct (decide (at_ = SvReturned)); [by left|].
  destruct (decide (backlog < queue)); [by left|]. right.
  destruct at_; [|destruct backlog; [lia|]| | |]; done.
Qed.

(** C28: a requested shutdown takes effect. However the serving thread, any
    number of requesting threads and the clients interleave: once the flag is
    set at most the request that is already being served is served, and no
    other one; each step of the serving thread brings it closer to its return,
    at most two steps away; and nobody waits forever, since every thread that
    has not returned can move itself or the serving thread can, and when all
    requests have returned the serving thread has returned or can move,
    whatever it found in the queue. *)
Theorem shutdown_takes_effect n s s' :
  0 < queue → rtc endpoint_step (endpoint_new n) s → ep_requested s = true →
  rtc endpoint_step s s' →
  ep_served s' ≤ ep_served s + serves_left (ep_serve s) ∧
  steps_left (ep_serve s') ≤ 2 ∧
  (∀ s'', serve_step s' = Some s'' → steps_left (ep_serve s'') < steps_left (ep_serve s')) ∧
  (∀ i pc, ep_requests s' !! i = Some pc → pc ≠ RqReturned →
     is_Some (request_step i s') ∨ is_Some (serve_step s')) ∧
  ((∀ i pc, ep_requests s' !! i = Some pc → pc = RqReturned) →
   ep_serve s' = SvReturned ∨ is_Some (serve_step s')).
Proof.
  intros Hq Hs Hr Hs'. destruct (requested_steps _ _ Hs' Hr) as [Hr' Hserved].
  assert (endpoint_inv s') as [_ Hwake].
  { eapply endpoint_reachable; [done|]. eapply endpoint_reachable; [done|apply endpoint_new_inv]. }
  split_and!; [lia|destruct (ep_serve s'); simpl; lia| | |].
  - intros s'' Hstep. by apply requested_serves.
  - intros i pc Hi Hpc. by eapply requests_progress.
  - intros Hall. assert (∀ i, ep_requests s' !! i ≠ Some RqConnect) as Hnone
      by (intros i Hi; by specialize (Hall i _ Hi)).
    specialize (Hwake Hr' Hnone). destruct s' as [requested backlog served at_ requests].
    simpl in *. destruct at_; [by right| |by right|by right|by left].
    right. destruct backlog; [|done]. specialize (Hwake eq_refl). lia.
Qed.
End shutdown.

(** The serving thread waits in [accept] when the shutdown is requested. *)
Lemma shutdown_takes_effect_witness :
  let s := mkEndpoint true 0 0 SvAccept [RqConnect] in
  let s' := mkEndpoint true 1 0 SvAccept [RqReturned] in
  rtc (endpoint_step 128) (endpoint_new 1) s ∧ rtc (endpoint_step 128) s s' ∧
  is_Some (serve_step s').
Proof.
  intros s s'.
  assert (rtc (endpoint_step 128) (endpoint_new 1) s) as Hs.
  { eapply rtc_l; [by apply step_serve|]. apply rtc_once. by apply (step_request _ 0). }
  assert (rtc (endpoint_step 128) s s') as Hs' by (apply rtc_once; by apply (step_request _ 0)).
  split; [exact Hs|]. split; [exact Hs'|].
  destruct (shutdown_takes_effect 128 1 s s' ltac:(lia) Hs eq_refl Hs') as (_ & _ & _ & _ & Hdone).
  destruct Hdone as [[=]|Hstep]; [|exact Hstep].
  intros [|i] pc Hi; [by injection Hi as <-|done].
Defined.
