(* ===== verification/Socket.v ===== *)
(** The private socket of the daemon ([PrivateUnixListener] in
    [daemon/src/local_server.rs]): its directory is made private, a stale
    socket is removed, a live one is not, and dropping the listener removes the
    socket only while it is its own.

    Every call of the operating system is one step, which may fail, and other
    processes may act between two steps. *)

From S2P Require Export Paths.

Inductive ErrorKind :=
  | KNotFound | KAlreadyExists | KAddrInUse | KInvalidInput | KPermissionDenied
  | KConnectionRefused | KOther.

#[export] Instance error_kind_eq_dec : EqDecision ErrorKind.
Proof. solve_decision. Defined.

Record SocketError := mkSocketError { se_kind : ErrorKind; se_text : str }.

(** What a name of the file system stands for; a socket is live while some
    process listens on it. *)
Inductive Kind :=
  | Directory
  | UnixSocket (live : bool)
  | Symlink (target : str)
  | OtherFile.

Record Node := mkNode { nd_kind : Kind; nd_mode : N; nd_device : N; nd_inode : N }.

#[export] Instance kind_eq_dec : EqDecision Kind.
Proof. solve_decision. Defined.
#[export] Instance node_eq_dec : EqDecision Node.
Proof. solve_decision. Defined.

Abbreviation Nodes := (gmap str Node).

(** The names, and the steps made so far. *)
Record SocketWorld := mkSocketWorld { sw_nodes : Nodes; sw_steps : nat }.

Definition is_socket (node : Node) : bool :=
  match nd_kind node with UnixSocket _ => true | _ => false end.
Definition is_live (node : Node) : bool :=
  match nd_kind node with UnixSocket live => live | _ => false end.
Definition is_directory (node : Node) : bool :=
  match nd_kind node with Directory => true | _ => false end.
Definition same_node (device inode : N) (node : Node) : bool :=
  ((nd_device node =? device) && (nd_inode node =? inode))%N.

(** The name a chain of symbolic links ends in, up to the limit of the kernel. *)
Fixpoint follow (links : nat) (nodes : Nodes) (path : str) : option str :=
  match nodes !! path with
  | Some (mkNode (Symlink target) _ _ _) =>
      match links with O => None | S links => follow links nodes target end
  | Some _ => Some path
  | None => None
  end.
Definition MAX_LINKS : nat := 40.
Definition stat (nodes : Nodes) (path : str) : option Node :=
  path ← follow MAX_LINKS nodes path; nodes !! path.

(** The process that listened on this socket closes it. *)
Definition stop_listening (device inode : N) (node : Node) : Node :=
  if is_socket node && same_node device inode node
  then mkNode (UnixSocket false) (nd_mode node) (nd_device node) (nd_inode node)
  else node.

Definition OTHERS_MASK : N := 63.      (** [0o077] *)
Definition DIRECTORY_MODE : N := 448.  (** [0o700] *)
Definition SOCKET_MODE : N := 384.     (** [0o600] *)

(** [PrivateUnixListener]; the listener is the socket that is open. *)
Record PrivateUnixListener := mkListener {
  pl_listener : N * N;
  pl_path : str;
  pl_device : N;
  pl_inode : N;
}.

Section socket.
(** Which steps fail; what other processes do before a step; the device and
    inode a new name gets; the process's umask. *)
Context (fault : nat → bool) (others : nat → Nodes → Nodes) (identity : nat → N * N) (umask : N).

#[local] Abbreviation M := (io SocketWorld SocketError).

Definition error {A} (kind : ErrorKind) (text : str) : result SocketError A :=
  Err (mkSocketError kind text).

Definition sys {A} (act : Nodes → result SocketError A * Nodes) : M A := λ w,
  let nodes := others (sw_steps w) (sw_nodes w) in
  if fault (sw_steps w) then (error KOther $"fault", mkSocketWorld nodes (S (sw_steps w)))
  else let '(r, nodes) := act nodes in (r, mkSocketWorld nodes (S (sw_steps w))).

(** A step that only reads. *)
Definition query {A} (ask : Nodes → result SocketError A) : M A :=
  sys (λ nodes, (ask nodes, nodes)).

Definition not_found {A} : result SocketError A := error KNotFound $"entity not found".
Definition found {A} (o : option A) : result SocketError A :=
  match o with Some a => Ok a | None => not_found end.

Definition symlink_metadata (path : str) : M Node := query (λ nodes, found (nodes !! path)).
Definition metadata (path : str) : M Node := query (λ nodes, found (stat nodes path)).
(** [Path::exists] and [Path::is_dir]: an error counts as absence. *)
Definition exists_path (path : str) : M bool :=
  r ← io_try (metadata path); mret match r with Ok _ => true | Err _ => false end.
Definition is_dir (path : str) : M bool :=
  r ← io_try (metadata path);
  mret match r with Ok node => is_directory node | Err _ => false end.

(** [mkdir(2)] with the mode of a private directory. *)
Definition mkdir (path : str) : M unit := λ w,
  sys (λ nodes,
    match nodes !! path with
    | Some _ => (error KAlreadyExists $"entity already exists", nodes)
    | None =>
        let made := (Ok (), <[path := mkNode Directory (N.ldiff DIRECTORY_MODE umask)
                                        (identity (sw_steps w)).1 (identity (sw_steps w)).2]> nodes) in
        match parent path with
        | None | Some [] => made
        | Some directory =>
            match stat nodes directory with
            | Some node =>
                if is_directory node then made else (error KOther $"not a directory", nodes)
            | None => (not_found, nodes)
            end
        end
    end) w.

(** [DirBuilder::create] with [recursive(true)]. *)
Fixpoint create_dir_all (fuel : nat) (path : str) : M unit :=
  match fuel, path with
  | O, _ => io_lift (error KOther $"failed to create whole tree")
  | _, [] => mret ()
  | S fuel, _ =>
      let or_dir (made : result SocketError unit) : M unit :=
        match made with
        | Ok _ => mret ()
        | Err error => directory ← is_dir path; io_lift (if directory : bool then Ok () else Err error)
        end in
      made ← io_try (mkdir path);
      match made with
      | Err (mkSocketError KNotFound _) =>
          _ ← match parent path with
              | Some directory => create_dir_all fuel directory
              | None => io_lift (error KOther $"failed to create whole tree")
              end;
          made ← io_try (mkdir path);
          or_dir made
      | made => or_dir made
      end
  end.

Definition remove_file (path : str) : M unit :=
  sys (λ nodes,
    match nodes !! path with
    | Some node =>
        if is_directory node then (error KOther $"is a directory", nodes)
        else (Ok (), delete path nodes)
    | None => (not_found, nodes)
    end).

(** [UnixStream::connect]; the connection is dropped. *)
Definition connect (path : str) : M unit :=
  query (λ nodes, node ← found (stat nodes path);
    if is_live node then Ok () else error KConnectionRefused $"connection refused").

(** [UnixListener::bind]: the device and inode of the new socket. *)
Definition bind_socket (path : str) : M (N * N) := λ w,
  sys (λ nodes,
    match nodes !! path with
    | Some _ => (error KAddrInUse $"address in use", nodes)
    | None =>
        let '(device, inode) := identity (sw_steps w) in
        (Ok (device, inode), <[path := mkNode (UnixSocket true) (N.ldiff 511 umask) device inode]> nodes)
    end) w.

Definition set_mode (mode : N) (node : Node) : Node :=
  mkNode (nd_kind node) mode (nd_device node) (nd_inode node).
Definition set_permissions (path : str) (mode : N) : M unit :=
  sys (λ nodes,
    match follow MAX_LINKS nodes path with
    | Some path => (Ok (), alter (set_mode mode) path nodes)
    | None => (not_found, nodes)
    end).

(** The open socket is closed; this cannot fail. *)
Definition close (listener : N * N) : M unit := λ w,
  (Ok (), mkSocketWorld (stop_listening listener.1 listener.2 <$> sw_nodes w) (sw_steps w)).

(** ** The listener *)

Definition prepare_parent (directory : str) : M unit :=
  exists_ ← exists_path directory;
  _ ← (if exists_ : bool then mret () else create_dir_all (S (length directory)) directory);
  node ← symlink_metadata directory;
  _ ← io_lift (if is_directory node then Ok ()
               else error KInvalidInput $"socket parent must be a real directory");
  io_lift (if (N.land (nd_mode node) OTHERS_MASK =? 0)%N then Ok ()
           else error KPermissionDenied
                  $"socket parent must not be accessible by group or other users").

Definition remove_if_same_socket (path : str) (device inode : N) : M unit :=
  seen ← io_try (symlink_metadata path);
  match seen with
  | Err (mkSocketError KNotFound _) => mret ()
  | Err error => io_err error
  | Ok node =>
      if is_socket node && same_node device inode node then remove_file path
      else io_lift (error KAlreadyExists $"socket path changed while checking ownership")
  end.

Definition remove_stale_socket (path : str) : M unit :=
  seen ← io_try (symlink_metadata path);
  match seen with
  | Err (mkSocketError KNotFound _) => mret ()
  | Err error => io_err error
  | Ok node =>
      if negb (is_socket node)
      then io_lift (error KAlreadyExists $"socket path exists and is not a Unix socket")
      else
        connected ← io_try (connect path);
        match connected with
        | Ok _ => io_lift (error KAddrInUse $"another daemon is already listening")
        | Err (mkSocketError (KConnectionRefused | KNotFound) _) =>
            remove_if_same_socket path (nd_device node) (nd_inode node)
        | Err error => io_err error
        end
  end.

(** What [bind] does with its open listener, which is closed on an error. *)
Definition make_private (path : str) : M Node :=
  _ ← set_permissions path SOCKET_MODE; symlink_metadata path.
Definition open_listener (path : str) (listener : N * N) : M PrivateUnixListener :=
  opened ← io_try (make_private path);
  match opened with
  | Ok node => mret (mkListener listener path (nd_device node) (nd_inode node))
  | Err error => _ ← close listener; io_err error
  end.

(** [PrivateUnixListener::bind]. *)
Definition bind (path : str) : M PrivateUnixListener :=
  directory ← io_lift match parent path with
    | Some ((_ :: _) as directory) => Ok directory
    | _ => error KInvalidInput $"socket path needs a parent directory"
    end;
  _ ← prepare_parent directory;
  _ ← remove_stale_socket path;
  listener ← bind_socket path;
  open_listener path listener.

(** [Drop for PrivateUnixListener], and then the drop of the socket. *)
Definition drop (l : PrivateUnixListener) : M unit :=
  _ ← io_try (E := SocketError) (remove_if_same_socket (pl_path l) (pl_device l) (pl_inode l));
  close (pl_listener l).
End socket.
