(* ===== verification/SocketFacts.v ===== *)
(** What the private socket of the daemon ([Socket]) guarantees, whichever steps
    fail: how it treats its name while other processes do anything to it, and, as
    long as they leave the name and its directory alone, that it never takes the
    place of anything in use and is its owner's alone. *)

From S2P Require Export Socket.

(** ** Directories above a path are shorter *)
Lemma trim_path_length r : length (trim_path r) ≤ length r.
Proof.
  induction r as [|c [|d r'] IH]; simpl in *; [done|by repeat case_match|].
  repeat case_match; simpl in *; lia.
Qed.

Lemma trim_path_head r t : trim_path r = 47%N :: t → t = [].
Proof.
  induction r as [|c r IH]; [done|]. cbn [trim_path].
  destruct (c =? 47)%N eqn:Hc; [destruct r; [congruence|done]|].
  destruct (c =? 46)%N; [destruct r as [|d r]; [congruence|]; destruct (d =? 47)%N; [done|]|];
    intros [= -> _]; discriminate.
Qed.

Lemma before_component_length r : length (before_component r) ≤ length r.
Proof. induction r as [|c r IH]; simpl; [done|]. case_match; simpl; lia. Qed.

Lemma parent_shorter path directory : parent path = Some directory → length directory < length path.
Proof.
  unfold parent. destruct (is_empty _ || _) eqn:Hr; [done|]. intros [= <-].
  pose proof (trim_path_length (reverse path)) as Hl. rewrite !length_reverse in *.
  pose proof (trim_path_length (before_component (trim_path (reverse path)))).
  pose proof (trim_path_head (reverse path)) as Hh.
  destruct (trim_path (reverse path)) as [|c r]; [done|]. simpl in *.
  pose proof (before_component_length r). destruct (N.eqb_spec c 47) as [->|]; [|simpl in *; lia].
  specialize (Hh _ eq_refl) as ->. done.
Qed.

(** The directories above a name are fewer than its letters: the fuel is enough. *)
Lemma create_dir_all_fuel fault others identity umask n m name w :
  length name < n → length name < m →
  create_dir_all fault others identity umask n name w
  = create_dir_all fault others identity umask m name w.
Proof.
  revert m name w. induction n as [|n IH]; intros [|m] name w Hn Hm; try lia.
  destruct name as [|c name]; [done|]. cbn [create_dir_all].
  apply io_bind_ext; [done|]. intros [u|[[] t]] w1; try done.
  apply io_bind_ext; [|done]. destruct (parent (c :: name)) as [up|] eqn:Hup; [|done].
  apply parent_shorter in Hup. simpl in *. apply IH; lia.
Qed.

(** ** Calls that keep a relation

    What preparing the directory does, in terms of the calls it makes: looking
    at names, and making directories other than the socket's name. *)
Section calls.
Context (fault : nat → bool) (others : nat → Nodes → Nodes) (identity : nat → N * N) (umask : N).
Context (path : str) (R : SocketWorld → SocketWorld → Prop) `{!PreOrder R}.
Hypothesis R_query : ∀ {A} (ask : Nodes → result SocketError A) w r w',
  query fault others ask w = (r, w') → R w w'.
Hypothesis R_mkdir : ∀ name w r w', name ≠ path →
  mkdir fault others identity umask name w = (r, w') → R w w'.

Lemma calls_try {A} (m : io SocketWorld SocketError A) w (r : result SocketError _) w' :
  io_try m w = (r, w') → (∀ r w', m w = (r, w') → R w w') → R w w'.
Proof using. unfold io_try. destruct (m w) as [r0 w0] eqn:Hm. intros [= _ <-] Hl. by eapply Hl. Qed.

Lemma calls_bind {A B} (m : io SocketWorld SocketError A) f w (r : result SocketError B) w' :
  (m ≫= f) w = (r, w') → (∀ r w', m w = (r, w') → R w w') →
  (∀ a w r w', f a w = (r, w') → R w w') → R w w'.
Proof using PreOrder0.
  intros [(a & w1 & Hm & Hf)|(e & Hm & _)]%io_bind_inv Hl Hk; [|by eapply Hl].
  etrans; [by eapply Hl|by eapply Hk].
Qed.

Lemma calls_lift {A} (m : result SocketError A) w r w' : io_lift m w = (r, w') → R w w'.
Proof using PreOrder0. by intros [= _ <-]. Qed.

Lemma calls_ret {A} (a : A) w (r : result SocketError A) w' :
  (mret a : io SocketWorld SocketError A) w = (r, w') → R w w'.
Proof using PreOrder0. by intros [= _ <-]. Qed.

Lemma calls_ask name w (r : result SocketError bool) w' :
  exists_path fault others name w = (r, w') ∨ is_dir fault others name w = (r, w') → R w w'.
Proof using PreOrder0 R_query.
  intros [Hm|Hm]; (eapply calls_bind; [exact Hm| |intros a w2 r2 w2' H2; exact (calls_ret _ _ _ _ H2)]);
    intros r1 w1 H1; (eapply calls_try; [exact H1|]); intros; by eapply R_query.
Qed.

Lemma calls_create_dir_all fuel name w r w' :
  length name < length path →
  create_dir_all fault others identity umask fuel name w = (r, w') → R w w'.
Proof using All.
  revert name w r w'. induction fuel as [|fuel IH]; intros name w r w' Hl Hc.
  { by eapply calls_lift. }
  assert (name ≠ path) as Hne by (intros ->; lia).
  assert (∀ (made : result SocketError unit) w (r : result SocketError unit) w',
    (match made with
     | Ok _ => mret ()
     | Err error => directory ← is_dir fault others name;
                    io_lift (if directory : bool then Ok () else Err error)
     end) w = (r, w') → R w w') as Hor.
  { intros [[]|e] w0 r0 w0' H0; [by eapply calls_ret|].
    eapply calls_bind; [exact H0|intros; eapply calls_ask; by right|].
    intros b w1 r1 w1' H1. exact (calls_lift _ _ _ _ H1). }
  assert (∀ w (r : result SocketError _) w',
    io_try (mkdir fault others identity umask name) w = (r, w') → R w w') as Htry.
  { intros ??? Hm. eapply calls_try; [exact Hm|]. intros; by eapply R_mkdir. }
  simpl in Hc. destruct name as [|c name]; [by eapply calls_ret|].
  eapply calls_bind; [exact Hc|intros; by eapply Htry|].
  clear Hc. intros [u|[k t]] w0 r0 w0' H0; [exact (Hor (Ok u) _ _ _ H0)|].
  destruct k; try exact (Hor (Err (mkSocketError _ t)) _ _ _ H0).
  eapply calls_bind; [exact H0| |].
  - intros r1 w1 H1. destruct (parent (c :: name)) as [up|] eqn:Hup; [|by eapply calls_lift].
    apply parent_shorter in Hup. eapply IH; [|exact H1]. lia.
  - intros [] w1 r1 w1' H1. eapply calls_bind; [exact H1|intros; by eapply Htry|].
    intros made w2 r2 w2' H2. exact (Hor _ _ _ _ H2).
Qed.

Lemma calls_prepare directory w r w' :
  parent path = Some directory →
  prepare_parent fault others identity umask directory w = (r, w') → R w w'.
Proof using All.
  intros Hparent Hp. eapply calls_bind; [exact Hp|intros; eapply calls_ask; by left|].
  intros b w1 r1 w1' H1. eapply calls_bind; [exact H1| |].
  - intros r2 w2 H2. destruct b; [by eapply calls_ret|].
    eapply calls_create_dir_all; [|exact H2]. by apply parent_shorter.
  - intros [] w2 r2 w2' H2. eapply calls_bind; [exact H2|intros; by eapply R_query|].
    intros node w3 r3 w3' H3. eapply calls_bind; [exact H3|intros; by eapply calls_lift|].
    intros [] w4 r4 w4' H4. by eapply calls_lift.
Qed.
End calls.

(** A directory that is made is not the socket's name. *)
Lemma mkdir_inv fault others identity umask name w r w' :
  mkdir fault others identity umask name w = (r, w') →
  sw_steps w' = S (sw_steps w) ∧
  let nodes := others (sw_steps w) (sw_nodes w) in
  sw_nodes w' = nodes ∨ nodes !! name = None ∧ ∃ node, sw_nodes w' = <[name := node]> nodes.
Proof.
  unfold mkdir, sys. cbv zeta. intros Hm.
  repeat case_match; simplify_eq/=; (split; [done|]); eauto.
Qed.

(** ** What the calls do to the socket's name and to its directory *)
Section facts.
Context (fault : nat → bool) (others : nat → Nodes → Nodes) (identity : nat → N * N) (umask : N).
Context (path directory : str) (Hparent : parent path = Some directory).

(** Other processes leave these two names alone; they may do anything else. *)
Hypothesis others_path : ∀ n nodes, others n nodes !! path = nodes !! path.
Hypothesis others_directory : ∀ n nodes, others n nodes !! directory = nodes !! directory.

#[local] Abbreviation at_path w := (sw_nodes w !! path).
#[local] Abbreviation at_directory w := (sw_nodes w !! directory).

Lemma path_not_directory : path ≠ directory.
Proof. intros Heq. pose proof (parent_shorter _ _ Hparent). rewrite Heq in *. lia. Qed.

(** The socket's name is left alone, and the directory once it exists. *)
Record leaves (w w' : SocketWorld) : Prop := {
  lv_path : at_path w' = at_path w;
  lv_directory node : at_directory w = Some node → at_directory w' = Some node;
}.

#[local] Instance leaves_preorder : PreOrder leaves.
Proof. split; [by split|]. intros w1 w2 w3 [H1 H2] [H3 H4]. split; [congruence|auto]. Qed.

Lemma sys_inv {A} (act : Nodes → result SocketError A * Nodes) w r w' :
  sys fault others act w = (r, w') →
  ∃ nodes, nodes !! path = at_path w ∧ nodes !! directory = at_directory w ∧
    (r = error KOther $"fault" ∧ sw_nodes w' = nodes ∨ act nodes = (r, sw_nodes w')).
Proof.
  unfold sys. intros Hs. exists (others (sw_steps w) (sw_nodes w)).
  rewrite others_path, others_directory. split; [done|]. split; [done|].
  destruct (fault _); [injection Hs as <- <-; by left|].
  destruct (act _) as [r0 nodes]. injection Hs as <- <-. by right.
Qed.

Lemma query_inv {A} (ask : Nodes → result SocketError A) w r w' :
  query fault others ask w = (r, w') →
  at_path w' = at_path w ∧ at_directory w' = at_directory w ∧
  (r = error KOther $"fault" ∨ r = ask (sw_nodes w')).
Proof.
  intros (nodes & Hp & Hd & [[-> Hn]|Ha])%sys_inv; [rewrite Hn; by auto|].
  injection Ha as <- <-. by auto.
Qed.

Lemma leaves_query {A} (ask : Nodes → result SocketError A) w r w' :
  query fault others ask w = (r, w') → leaves w w'.
Proof. intros (Hp & Hd & _)%query_inv. split; [done|by rewrite Hd]. Qed.

(** The metadata of one of the two names. *)
Lemma symlink_metadata_spec name w r w' :
  (name = path ∨ name = directory) →
  symlink_metadata fault others name w = (r, w') →
  at_path w' = at_path w ∧ at_directory w' = at_directory w ∧
  match r with
  | Ok node => sw_nodes w !! name = Some node
  | Err error => se_kind error = KNotFound → sw_nodes w !! name = None
  end.
Proof.
  intros Hname (Hp & Hd & Hr)%query_inv. split; [done|]. split; [done|].
  assert (sw_nodes w !! name = sw_nodes w' !! name) as -> by (by destruct Hname as [->| ->]).
  destruct Hr as [->| ->]; [done|]. by destruct (sw_nodes w' !! name).
Qed.

Lemma leaves_mkdir name w r w' :
  name ≠ path → mkdir fault others identity umask name w = (r, w') → leaves w w'.
Proof.
  intros Hne (_ & [Hn|(Hnone & node & Hn)])%mkdir_inv; split; rewrite Hn.
  - apply others_path.
  - by rewrite others_directory.
  - by rewrite lookup_insert_ne, others_path.
  - intros node' Hnode'. rewrite lookup_insert_ne; [by rewrite others_directory|].
    intros ->. rewrite others_directory in Hnone. congruence.
Qed.

(** A real directory that only its owner can use. *)
Definition private_directory (node : Node) : Prop :=
  nd_kind node = Directory ∧ N.land (nd_mode node) OTHERS_MASK = 0%N.

Lemma prepare_parent_spec w r w' :
  prepare_parent fault others identity umask directory w = (r, w') →
  leaves w w' ∧ (r = Ok () → ∃ node, at_directory w' = Some node ∧ private_directory node).
Proof.
  intros Hp. split.
  { eapply (calls_prepare fault others identity umask path leaves); [..|exact Hparent|exact Hp].
    - intros. by eapply leaves_query.
    - intros. by eapply leaves_mkdir. }
  intros ->. run Hp as b w1 H1. run Hp as u w2 H2. run Hp as node w3 H3. run Hp as u' w4 H4.
  apply symlink_metadata_spec in H3 as (_ & Hd & Hnode); [|by right].
  apply io_lift_ok in H4 as [Hdir <-]. apply io_lift_ok in Hp as [Hmode <-].
  exists node. rewrite Hd. split; [done|]. split.
  - unfold is_directory in Hdir. by destruct (nd_kind node).
  - by destruct (N.eqb_spec (N.land (nd_mode node) OTHERS_MASK) 0).
Qed.

(** ** The name of the socket *)

(** Nothing, or a socket nobody listens on. *)
Definition free (o : option Node) : Prop :=
  ∀ node, o = Some node → is_socket node = true ∧ is_live node = false.

Lemma follow_no_link links nodes name node :
  nodes !! name = Some node → (∀ target, nd_kind node ≠ Symlink target) →
  follow links nodes name = Some name.
Proof.
  intros Hn Hs. destruct links; simpl; rewrite Hn; destruct node as [[] mode device inode]; try done;
    by destruct (Hs target).
Qed.

Lemma stat_no_link nodes name node :
  nodes !! name = Some node → (∀ target, nd_kind node ≠ Symlink target) →
  stat nodes name = Some node.
Proof. intros Hn Hs. unfold stat. by rewrite (follow_no_link _ _ _ _ Hn Hs). Qed.

Lemma socket_no_link node : is_socket node = true → ∀ target, nd_kind node ≠ Symlink target.
Proof. unfold is_socket. by destruct (nd_kind node). Qed.

Lemma remove_file_spec w r w' :
  remove_file fault others path w = (r, w') →
  at_directory w' = at_directory w ∧
  at_path w' = match r with Ok _ => None | Err _ => at_path w end.
Proof.
  intros (nodes & Hp & Hd & [[-> Hn]|Ha])%sys_inv; [by rewrite Hn|].
  pose proof path_not_directory. rewrite <-Hp, <-Hd.
  destruct (nodes !! path) as [node|] eqn:Hnode; [destruct (is_directory node)|];
    injection Ha as <- <-; [done| |done].
  by rewrite lookup_delete_ne, lookup_delete_eq.
Qed.

Lemma remove_if_same_socket_spec device inode w r w' :
  remove_if_same_socket fault others path device inode w = (r, w') →
  at_directory w' = at_directory w ∧
  match r with
  | Ok _ => at_path w' = None ∧
      ∀ node, at_path w = Some node → is_socket node = true ∧ same_node device inode node = true
  | Err _ => at_path w' = at_path w
  end.
Proof.
  unfold remove_if_same_socket, mbind, io_bind, io_try.
  destruct (symlink_metadata fault others path w) as [seen w1] eqn:H1.
  apply symlink_metadata_spec in H1 as (Hp & Hd & Hseen); [|by left].
  destruct seen as [node|[kind text]].
  - destruct (is_socket node && same_node device inode node) eqn:Hsame.
    + intros [Hd2 Hp2]%remove_file_spec. rewrite Hd2, Hp2. split; [done|].
      apply andb_true_iff in Hsame. destruct r; [|done]. split; [done|].
      intros node' Hnode'. by assert (node' = node) as -> by congruence.
    + by intros [= <- <-].
  - destruct kind; intros [= <- <-]; (split; [done|]); try done.
    rewrite Hp. specialize (Hseen eq_refl) as ->. by split; [|intros ? [=]].
Qed.

Lemma connect_spec node w r w' :
  connect fault others path w = (r, w') → at_path w = Some node → is_socket node = true →
  at_path w' = at_path w ∧ at_directory w' = at_directory w ∧
  match r with
  | Ok _ => is_live node = true
  | Err error => se_kind error = KConnectionRefused ∨ se_kind error = KNotFound →
      is_live node = false
  end.
Proof.
  intros (Hp & Hd & Hr)%query_inv Hn Hs. split; [done|]. split; [done|].
  destruct Hr as [->| ->]; [by intros [?|?]|].
  rewrite (stat_no_link _ _ node) by (congruence || by apply socket_no_link). simpl. by destruct (is_live node).
Qed.

Lemma remove_stale_socket_spec w r w' :
  remove_stale_socket fault others path w = (r, w') →
  at_directory w' = at_directory w ∧
  match r with
  | Ok _ => at_path w' = None ∧ free (at_path w)
  | Err _ => at_path w' = at_path w
  end.
Proof.
  unfold remove_stale_socket, mbind at 1, io_bind at 1, io_try at 1.
  destruct (symlink_metadata fault others path w) as [seen w1] eqn:H1.
  apply symlink_metadata_spec in H1 as (Hp & Hd & Hseen); [|by left].
  destruct seen as [node|[kind text]].
  2:{ destruct kind; intros [= <- <-]; (split; [done|]); try done.
      rewrite Hp. specialize (Hseen eq_refl) as ->. by split; [|intros ? [=]]. }
  destruct (is_socket node) eqn:Hsocket; simpl; [|by intros [= <- <-]].
  unfold mbind, io_bind, io_try. destruct (connect fault others path w1) as [connected w2] eqn:H2.
  apply (connect_spec node) in H2 as (Hp2 & Hd2 & Hlive); [|congruence|done].
  rewrite <-Hp, <-Hd, <-Hp2, <-Hd2.
  assert (free (at_path w2) ∨ is_live node = true) as Hfree.
  { destruct (is_live node) eqn:Hl; [by right|left]. intros node' Hnode'.
    assert (node' = node) as -> by congruence. done. }
  destruct connected as [[]|[kind text]]; [by intros [= <- <-]|].
  destruct kind; try (by intros [= <- <-]); simpl in Hlive;
    (rewrite Hlive in Hfree by auto; destruct Hfree as [Hfree|]; [|done]);
    intros [Hd3 Hr]%remove_if_same_socket_spec; (split; [done|]);
    (destruct r; [by destruct Hr|done]).
Qed.

Lemma bind_socket_spec w r w' :
  bind_socket fault others identity umask path w = (r, w') →
  at_directory w' = at_directory w ∧
  match r with
  | Ok (device, inode) => at_path w = None ∧
      ∃ mode, at_path w' = Some (mkNode (UnixSocket true) mode device inode)
  | Err _ => at_path w' = at_path w
  end.
Proof.
  intros (nodes & Hp & Hd & [[-> Hn]|Ha])%sys_inv; [by rewrite Hn|].
  pose proof path_not_directory. rewrite <-Hp, <-Hd.
  destruct (nodes !! path) eqn:Hnode; [by injection Ha as <- <-|].
  destruct (identity (sw_steps w)) as [device inode]. injection Ha as <- <-.
  rewrite lookup_insert_ne, lookup_insert_eq by done. split; [done|]. split; [done|]. by eexists.
Qed.

Lemma set_permissions_spec mode device inode w r w' :
  set_permissions fault others path SOCKET_MODE w = (r, w') →
  at_path w = Some (mkNode (UnixSocket true) mode device inode) →
  at_directory w' = at_directory w ∧ ∃ mode',
    at_path w' = Some (mkNode (UnixSocket true) mode' device inode) ∧
    (r = Ok () → mode' = SOCKET_MODE).
Proof.
  intros (nodes & Hp & Hd & Hr)%sys_inv Hw. pose proof path_not_directory.
  destruct Hr as [[-> Hn]|Ha]; [rewrite Hn, Hd, Hp; split; [done|]; by exists mode|].
  rewrite Hw in Hp. rewrite (follow_no_link _ _ _ _ Hp) in Ha by done. injection Ha as <- <-.
  rewrite lookup_alter_ne, lookup_alter_eq, Hp by done. split; [done|]. simpl. by eexists.
Qed.

Lemma make_private_spec mode device inode w r w' :
  make_private fault others path w = (r, w') →
  at_path w = Some (mkNode (UnixSocket true) mode device inode) →
  at_directory w' = at_directory w ∧ ∃ mode',
    at_path w' = Some (mkNode (UnixSocket true) mode' device inode) ∧
    ∀ node, r = Ok node → mode' = SOCKET_MODE ∧
      node = mkNode (UnixSocket true) SOCKET_MODE device inode.
Proof.
  intros [([] & w1 & H1 & H2)|(e & H1 & ->)]%io_bind_inv Hw;
    apply (set_permissions_spec mode device inode) in H1 as (Hd1 & mode' & Hp1 & Hm); try done;
    [|split; [done|]; exists mode'; split; [done|]; by intros ? [=]].
  apply symlink_metadata_spec in H2 as (Hp2 & Hd2 & Hnode); [|by left].
  rewrite Hp2, Hd2. split; [done|]. exists mode'. split; [done|]. intros node ->.
  specialize (Hm eq_refl) as ->. split; congruence.
Qed.

(** An open listener ends as the owner's socket, or closed. *)
Lemma open_listener_spec mode device inode w r w' :
  open_listener fault others path (device, inode) w = (r, w') →
  at_path w = Some (mkNode (UnixSocket true) mode device inode) →
  (∀ node, at_directory w = Some node → is_socket node = false →
     at_directory w' = Some node) ∧
  match r with
  | Ok l => l = mkListener (device, inode) path device inode ∧
      at_path w' = Some (mkNode (UnixSocket true) SOCKET_MODE device inode)
  | Err _ => free (at_path w')
  end.
Proof.
  unfold open_listener, io_try, mbind, io_bind.
  destruct (make_private fault others path w) as [opened w1] eqn:H1. intros Ho Hw.
  apply (make_private_spec mode device inode) in H1 as (Hd1 & mode' & Hp1 & Hok); [|done].
  destruct opened as [node|error]; injection Ho as <- <-.
  - destruct (Hok _ eq_refl) as [-> ->]. by rewrite Hd1.
  - simpl. rewrite !lookup_fmap, Hd1, Hp1. split.
    + intros node Hnode Hs. rewrite Hnode. simpl. unfold stop_listening. by rewrite Hs.
    + intros node. unfold stop_listening, same_node, is_socket. simpl.
      rewrite !N.eqb_refl. simpl. by intros [= <-].
Qed.

(** ** Binding *)

(** What [bind] leaves behind. *)
Record bound (w : SocketWorld) (r : result SocketError PrivateUnixListener) (w' : SocketWorld)
    : Prop := {
  bd_kept node : at_directory w = Some node → is_socket node = false →
    at_directory w' = Some node;
  bd_result : match r with
    | Ok l => free (at_path w) ∧
        (∃ node, at_directory w' = Some node ∧ private_directory node) ∧
        l = mkListener (pl_device l, pl_inode l) path (pl_device l) (pl_inode l) ∧
        at_path w' = Some (mkNode (UnixSocket true) SOCKET_MODE (pl_device l) (pl_inode l))
    | Err _ => at_path w' = at_path w ∨ free (at_path w) ∧ free (at_path w')
    end;
}.

Lemma bind_spec w r w' :
  directory ≠ [] → bind fault others identity umask path w = (r, w') → bound w r w'.
Proof.
  intros Hne Hb.
  apply io_bind_inv in Hb as [(x & w0 & Hx & Hb)|(e & Hx & _)]; rewrite Hparent in Hx;
    [|by destruct directory].
  apply io_lift_ok in Hx as [Hx <-].
  assert (x = directory) as -> by (destruct directory; [done|by injection Hx]).
  apply io_bind_inv in Hb as [([] & w1 & H1 & Hb)|(e & H1 & ->)];
    apply prepare_parent_spec in H1 as [[Hp1 Hd1] Hdirectory]; [|split; by auto].
  destruct (Hdirectory eq_refl) as (node1 & Hnode1 & Hprivate).
  assert (is_socket node1 = false) as Hns by (unfold is_socket; by destruct Hprivate as [-> _]).
  apply io_bind_inv in Hb as [([] & w2 & H2 & Hb)|(e & H2 & ->)];
    apply remove_stale_socket_spec in H2 as [Hd2 Hp2]; rewrite Hp1 in Hp2;
    [|split; [by rewrite Hd2; auto|by left]].
  destruct Hp2 as [Hp2 Hfree].
  apply io_bind_inv in Hb as [([device inode] & w3 & H3 & Hb)|(e & H3 & ->)];
    apply bind_socket_spec in H3 as [Hd3 Hp3].
  2:{ split; [rewrite Hd3, Hd2; auto|]. right. split; [done|]. rewrite Hp3, Hp2. by intros ? [=]. }
  destruct Hp3 as (_ & mode & Hp3).
  apply (open_listener_spec mode device inode) in Hb as [Hd4 Hr]; [|done].
  split; [intros node Hnode Hs; apply Hd4; [rewrite Hd3, Hd2; auto|done]|].
  destruct r as [l|e]; [|by right]. destruct Hr as [-> Hp4]. split; [done|].
  split; [|done]. exists node1. split; [|done]. apply Hd4; [by rewrite Hd3, Hd2|done].
Qed.

(** Dropping the listener removes its socket, or nothing. *)
Lemma drop_spec device inode w r w' node :
  drop fault others (mkListener (device, inode) path device inode) w = (r, w') →
  at_path w = Some node →
  if is_socket node && same_node device inode node then free (at_path w')
  else at_path w' = Some node.
Proof.
  unfold drop, mbind, io_bind, io_try. simpl.
  destruct (remove_if_same_socket fault others path device inode w) as [r1 w1] eqn:H1.
  apply remove_if_same_socket_spec in H1 as [_ H1]. intros [= <- <-] Hnode. simpl.
  rewrite lookup_fmap. destruct r1 as [[]|e].
  - destruct H1 as [-> Hsame]. destruct (Hsame _ Hnode) as [-> ->]. simpl. by intros ? [=].
  - rewrite H1, Hnode. simpl. unfold stop_listening.
    destruct (is_socket node && same_node device inode node); [|done]. by intros ? [= <-].
Qed.

(** ** Without errors *)
Section quiet.
Hypothesis quiet : ∀ n, fault n = false.

Lemma query_quiet {A} (ask : Nodes → result SocketError A) w :
  ∃ w', query fault others ask w = (ask (sw_nodes w'), w') ∧
    at_path w' = at_path w ∧ at_directory w' = at_directory w.
Proof.
  unfold query, sys. rewrite quiet.
  exists (mkSocketWorld (others (sw_steps w) (sw_nodes w)) (S (sw_steps w))). simpl.
  by rewrite others_path, others_directory.
Qed.

Lemma prepare_parent_quiet w node :
  at_directory w = Some node → private_directory node →
  ∃ w', prepare_parent fault others identity umask directory w = (Ok (), w') ∧
    at_path w' = at_path w ∧ at_directory w' = at_directory w.
Proof.
  intros Hnode [Hk Hm].
  unfold prepare_parent, exists_path, metadata, symlink_metadata, mbind, io_bind, io_try, io_lift.
  destruct (query_quiet (λ nodes, found (stat nodes directory)) w) as (w1 & -> & Hp1 & Hd1).
  rewrite (stat_no_link _ _ node); [|by rewrite Hd1|by rewrite Hk]. simpl.
  destruct (query_quiet (λ nodes, found (nodes !! directory)) w1) as (w2 & -> & Hp2 & Hd2).
  rewrite Hd2, Hd1, Hnode. simpl. unfold is_directory. rewrite Hk, Hm. simpl.
  exists w2. split; [done|]. split; congruence.
Qed.

Lemma remove_stale_socket_quiet w :
  free (at_path w) →
  ∃ w', remove_stale_socket fault others path w = (Ok (), w') ∧ at_path w' = None.
Proof.
  intros Hfree. unfold remove_stale_socket, remove_if_same_socket, connect, remove_file,
    symlink_metadata, mbind, io_bind, io_try, io_lift.
  destruct (query_quiet (λ nodes, found (nodes !! path)) w) as (w1 & -> & Hp1 & _).
  rewrite Hp1. destruct (at_path w) as [node|] eqn:Hnode; simpl; [|by exists w1].
  destruct (Hfree _ eq_refl) as [Hs Hl]. rewrite Hs. simpl.
  match goal with |- context [query fault others ?ask w1] =>
    destruct (query_quiet ask w1) as (w2 & -> & Hp2 & _) end.
  rewrite (stat_no_link _ _ node); [|by rewrite Hp2|by apply socket_no_link]. simpl.
  rewrite Hl. simpl.
  destruct (query_quiet (λ nodes, found (nodes !! path)) w2) as (w3 & -> & Hp3 & _).
  rewrite Hp3, Hp2, Hp1. simpl. unfold same_node. rewrite Hs, !N.eqb_refl. simpl.
  unfold sys. rewrite quiet, others_path, Hp3, Hp2, Hp1.
  assert (is_directory node = false) as ->
    by (unfold is_socket, is_directory in *; by destruct (nd_kind node)).
  eexists. split; [done|]. simpl. by rewrite lookup_delete_eq.
Qed.

Lemma bind_socket_quiet w :
  at_path w = None →
  ∃ listener w', bind_socket fault others identity umask path w = (Ok listener, w').
Proof.
  intros Hnone. unfold bind_socket, sys. rewrite quiet, others_path, Hnone.
  destruct (identity _). by eexists _, _.
Qed.

Lemma open_listener_quiet device inode mode w :
  at_path w = Some (mkNode (UnixSocket true) mode device inode) →
  ∃ l w', open_listener fault others path (device, inode) w = (Ok l, w').
Proof.
  intros Hw.
  unfold open_listener, make_private, set_permissions, symlink_metadata, mbind, io_bind, io_try.
  unfold sys at 1. rewrite quiet.
  rewrite (follow_no_link _ _ _ (mkNode (UnixSocket true) mode device inode)) by (by rewrite ?others_path).
  match goal with |- context [query fault others ?ask ?w1] =>
    destruct (query_quiet ask w1) as (w2 & -> & Hp2 & _) end.
  simpl in Hp2. rewrite Hp2, lookup_alter_eq, others_path, Hw. simpl. by eexists _, _.
Qed.

Lemma bind_quiet w node :
  directory ≠ [] → at_directory w = Some node → private_directory node → free (at_path w) →
  ∃ l w', bind fault others identity umask path w = (Ok l, w').
Proof.
  intros Hne Hnode Hprivate Hfree. unfold bind, mbind, io_bind, io_lift. rewrite Hparent.
  destruct (prepare_parent_quiet _ _ Hnode Hprivate) as (w1 & H1 & Hp1 & _).
  destruct (remove_stale_socket_quiet w1) as (w2 & H2 & Hp2); [by rewrite Hp1|].
  destruct (bind_socket_quiet w2 Hp2) as ([device inode] & w3 & H3).
  pose proof (bind_socket_spec _ _ _ H3) as (_ & _ & mode & Hp3).
  destruct (open_listener_quiet _ _ _ _ Hp3) as (l & w4 & H4).
  assert (∀ A (x y : A), match directory with [] => x | _ :: _ => y end = y) as Hmatch
    by (by destruct directory).
  exists l, w4. destruct directory; [done|]. by rewrite H1, H2, H3.
Qed.
(** A listener that is dropped leaves no file behind. *)
Lemma drop_quiet device inode w node :
  at_path w = Some node → is_socket node = true → same_node device inode node = true →
  ∃ w', drop fault others (mkListener (device, inode) path device inode) w = (Ok (), w') ∧
    at_path w' = None.
Proof.
  intros Hnode Hs Hsame.
  unfold drop, remove_if_same_socket, remove_file, symlink_metadata, mbind, io_bind, io_try. simpl.
  destruct (query_quiet (λ nodes, found (nodes !! path)) w) as (w1 & -> & Hp1 & _).
  rewrite Hp1, Hnode. simpl. rewrite Hs, Hsame. simpl.
  unfold sys. rewrite quiet, others_path, Hp1, Hnode.
  assert (is_directory node = false) as ->
    by (unfold is_socket, is_directory in *; by destruct (nd_kind node)).
  eexists. split; [done|]. simpl. by rewrite lookup_fmap, lookup_delete_eq.
Qed.
End quiet.
End facts.

(** ** Whatever other processes do to the name

    Between two steps of this process others may do anything, also to the
    socket's name. *)
Section interference.
Context (fault : nat → bool) (others : nat → Nodes → Nodes) (identity : nat → N * N) (umask : N).
Context (path : str).

(** The names as the next step finds them, and a step that changes nothing. *)
Definition met (w : SocketWorld) : Nodes := others (sw_steps w) (sw_nodes w).
Definition next (w : SocketWorld) : SocketWorld := mkSocketWorld (met w) (S (sw_steps w)).

(** Steps of this process that do no more to the name than [own] says. *)
Inductive moves (own : option Node → option Node → Prop) : SocketWorld → SocketWorld → Prop :=
  | moves_none w : moves own w w
  | moves_call w w1 w' :
      sw_steps w1 = S (sw_steps w) → own (met w !! path) (sw_nodes w1 !! path) →
      moves own w1 w' → moves own w w'
  | moves_close w w1 w' :
      sw_steps w1 = sw_steps w → own (sw_nodes w !! path) (sw_nodes w1 !! path) →
      moves own w1 w' → moves own w w'.
Definition untouched : SocketWorld → SocketWorld → Prop := moves eq.

(** The name is removed in the step right after a step in which it was a socket
    of this device and inode. *)
Definition removes (device inode : N) (w w' : SocketWorld) : Prop :=
  ∃ node, met w !! path = Some node ∧ is_socket node = true ∧
    same_node device inode node = true ∧
    w' = mkSocketWorld (delete path (met (next w))) (S (S (sw_steps w))).

(** Four steps in a row: the name is a socket; nobody listens there; it is the
    same socket; it is removed. *)
Definition takes_stale (w w' : SocketWorld) : Prop :=
  ∃ node, met w !! path = Some node ∧ is_socket node = true ∧
    (∀ node, stat (met (next w)) path = Some node → is_live node = false) ∧
    removes (nd_device node) (nd_inode node) (next (next w)) w'.

(** The name stands for nothing, and becomes this process's socket. *)
Definition creates (listener : N * N) (w w' : SocketWorld) : Prop :=
  met w !! path = None ∧ listener = identity (sw_steps w) ∧
  w' = mkSocketWorld (<[path := mkNode (UnixSocket true) (N.ldiff 511 umask) listener.1 listener.2]>
         (met w)) (S (sw_steps w)).

(** A node stays, with another mode; or its own socket is closed. *)
Definition stays (listener : N * N) (o o' : option Node) : Prop :=
  o' = o ∨ o' = set_mode SOCKET_MODE <$> o ∨ o' = stop_listening listener.1 listener.2 <$> o.

#[local] Instance moves_preorder own : PreOrder (moves own).
Proof.
  split; [constructor|]. intros w1 w2 w3. induction 1; [done|intros; by eapply moves_call; eauto
    |intros; by eapply moves_close; eauto].
Qed.

Lemma moves_once own w w' :
  sw_steps w' = S (sw_steps w) → own (met w !! path) (sw_nodes w' !! path) → moves own w w'.
Proof. intros. by eapply moves_call; [..|constructor]. Qed.

Lemma query_next {A} (ask : Nodes → result SocketError A) w r w' :
  query fault others ask w = (r, w') →
  w' = next w ∧ (r = ask (met w) ∨ r = error KOther $"fault").
Proof. unfold query, sys. case_match; intros [= <- <-]; eauto. Qed.

Lemma untouched_next w : untouched w (next w).
Proof. by apply moves_once. Qed.
Lemma untouched_query {A} (ask : Nodes → result SocketError A) w r w' :
  query fault others ask w = (r, w') → untouched w w'.
Proof. intros [-> _]%query_next. apply untouched_next. Qed.
Lemma untouched_mkdir name w r w' :
  name ≠ path → mkdir fault others identity umask name w = (r, w') → untouched w w'.
Proof.
  intros Hne (Hs & Hn)%mkdir_inv. apply moves_once; [done|]. unfold met.
  destruct Hn as [->|(_ & node & ->)]; [done|]. by rewrite lookup_insert_ne.
Qed.
Lemma untouched_prepare directory w r w' :
  parent path = Some directory →
  prepare_parent fault others identity umask directory w = (r, w') → untouched w w'.
Proof.
  intros Hp Hw. eapply (calls_prepare fault others identity umask path untouched); [..|done|done].
  - intros. by eapply untouched_query.
  - intros. by eapply untouched_mkdir.
Qed.

Lemma remove_file_steps w r w' :
  remove_file fault others path w = (r, w') →
  untouched w w' ∧ (∃ e, r = Err e) ∨
  r = Ok () ∧ w' = mkSocketWorld (delete path (met w)) (S (sw_steps w)).
Proof.
  unfold remove_file, sys. fold (met w). intros Hr.
  repeat case_match; simplify_eq/=; try (left; split; [apply untouched_next|by eexists]). by right.
Qed.

Lemma remove_if_same_steps device inode w r w' :
  remove_if_same_socket fault others path device inode w = (r, w') →
  untouched w w' ∨ r = Ok () ∧ removes device inode w w'.
Proof.
  unfold remove_if_same_socket, symlink_metadata, mbind, io_bind, io_try.
  destruct (query fault others _ w) as [seen w1] eqn:Hq. apply query_next in Hq as [-> Hseen].
  destruct seen as [node|[kind text]].
  2:{ destruct kind; intros [= <- <-]; left; apply untouched_next. }
  destruct Hseen as [Hseen|]; [|done]. unfold found in Hseen.
  destruct (met w !! path) as [node'|] eqn:Hn; [|done]. injection Hseen as <-.
  destruct (is_socket node && same_node device inode node) eqn:Hsame;
    [|intros [= <- <-]; left; apply untouched_next].
  apply andb_true_iff in Hsame as [Hs Hsame].
  intros [[Hu _]|[-> ->]]%remove_file_steps; [left; by etrans; [apply untouched_next|]|].
  right. split; [done|]. by exists node.
Qed.

Lemma remove_stale_steps w r w' :
  remove_stale_socket fault others path w = (r, w') →
  untouched w w' ∨ r = Ok () ∧ takes_stale w w'.
Proof.
  unfold remove_stale_socket, symlink_metadata, connect, mbind at 1, io_bind at 1, io_try at 1.
  destruct (query fault others _ w) as [seen w1] eqn:Hq. apply query_next in Hq as [-> Hseen].
  destruct seen as [node|[kind text]].
  2:{ destruct kind; intros [= <- <-]; left; apply untouched_next. }
  destruct Hseen as [Hseen|]; [|done]. unfold found in Hseen.
  destruct (met w !! path) as [node'|] eqn:Hn; [|done]. injection Hseen as <-.
  destruct (is_socket node) eqn:Hsocket; simpl; [|intros [= <- <-]; left; apply untouched_next].
  unfold mbind, io_bind, io_try. destruct (query fault others _ (next w)) as [connected w2] eqn:Hq.
  apply query_next in Hq as [-> Hconnected].
  assert (untouched w (next (next w))) as Hu by (etrans; apply untouched_next).
  destruct connected as [[]|[kind text]]; [intros [= <- <-]; by left|].
  assert (kind = KConnectionRefused ∨ kind = KNotFound →
    ∀ node, stat (met (next w)) path = Some node → is_live node = false) as Hdead.
  { intros Hkind node1 Hs. rewrite Hs in Hconnected. simpl in Hconnected.
    destruct (is_live node1); [|done]. by destruct Hconnected as [|[= -> _]], Hkind. }
  destruct kind; try (intros [= <- <-]; by left).
  all: intros [Hr|[-> Hr]]%remove_if_same_steps; [left; by etrans|right; split; [done|]].
  all: exists node; split_and!; [done|done|apply Hdead; auto|done].
Qed.

Lemma bind_socket_steps w r w' :
  bind_socket fault others identity umask path w = (r, w') →
  match r with
  | Ok listener => creates listener w w'
  | Err _ => untouched w w'
  end.
Proof.
  unfold bind_socket, sys. fold (met w). intros Hb.
  repeat case_match; simplify_eq/=; try apply untouched_next.
  by split_and!.
Qed.

Lemma open_listener_steps listener w r w' :
  open_listener fault others path listener w = (r, w') →
  moves (stays listener) w w' ∧
  ∀ l, r = Ok l → pl_listener l = listener ∧ pl_path l = path.
Proof.
  unfold open_listener, make_private, set_permissions, symlink_metadata, mbind, io_bind, io_try.
  assert (∀ w, moves (stays listener) w (next w)) as Hnext.
  { intros w0. apply moves_once; [done|]. by left. }
  assert (∀ w, moves (stays listener) w (close listener w).2) as Hclose.
  { intros w0. apply (moves_close _ w0 (close listener w0).2); [done| |constructor]. simpl. rewrite lookup_fmap. by right; right. }
  destruct (sys fault others _ w) as [r1 w1] eqn:H1.
  assert (moves (stays listener) w w1) as Hw1.
  { unfold sys in H1. fold (met w) in H1.
    destruct (fault _); [injection H1 as _ <-; apply Hnext|].
    destruct (follow _ _ _) as [name|]; injection H1 as _ <-; [|apply Hnext].
    apply moves_once; [done|]. simpl. destruct (decide (name = path)) as [->|Hne].
    - rewrite lookup_alter_eq. by right; left.
    - rewrite lookup_alter_ne by done. by left. }
  destruct r1 as [[]|e].
  - destruct (query fault others _ w1) as [r2 w2] eqn:H2. apply query_next in H2 as [-> _].
    destruct r2 as [node|e]; intros [= <- <-].
    + split; [by etrans|]. by intros l [= <-].
    + split; [etrans; [exact Hw1|etrans; [apply Hnext|apply Hclose]]|by intros ? [=]].
  - intros [= <- <-]. split; [etrans; [exact Hw1|apply Hclose]|by intros ? [=]].
Qed.

(** How [bind] treats the name, from the first step to the last. *)
Definition bind_discipline (w : SocketWorld) (r : result SocketError PrivateUnixListener)
    (w' : SocketWorld) : Prop :=
  ∃ w1 w2, untouched w w1 ∧ (w2 = w1 ∨ takes_stale w1 w2) ∧
    ((∃ error, r = Err error) ∧ untouched w2 w' ∨
     ∃ listener w3, creates listener w2 w3 ∧ moves (stays listener) w3 w' ∧
       ∀ l, r = Ok l → pl_listener l = listener ∧ pl_path l = path).

Lemma bind_steps directory w r w' :
  parent path = Some directory → directory ≠ [] →
  bind fault others identity umask path w = (r, w') → bind_discipline w r w'.
Proof.
  intros Hparent Hne Hb.
  assert (∀ w', (∃ error, r = Err error) → untouched w w' → bind_discipline w r w') as Hstop.
  { intros w0 Herror Hu. exists w0, w0. split; [done|]. split; [by left|]. left. by split. }
  apply io_bind_inv in Hb as [(x & w0 & Hx & Hb)|(e & Hx & _)]; rewrite Hparent in Hx;
    [|by destruct directory].
  apply io_lift_ok in Hx as [Hx <-].
  assert (x = directory) as -> by (destruct directory; [done|by injection Hx]).
  apply io_bind_inv in Hb as [([] & w1 & H1 & Hb)|(e & H1 & ->)];
    (apply untouched_prepare in H1; [|exact Hparent]); [|by apply Hstop; eauto].
  apply io_bind_inv in Hb as [([] & w2 & H2 & Hb)|(e & H2 & ->)];
    apply remove_stale_steps in H2.
  2:{ destruct H2 as [H2|[? _]]; [|done]. apply Hstop; [by eauto|by etrans]. }
  assert (∃ wa, untouched w wa ∧ (w2 = wa ∨ takes_stale wa w2)) as (wa & Ha & Hcase).
  { destruct H2 as [H2|[_ H2]]; [exists w2|exists w1]; split; [by etrans|by left|done|by right]. }
  exists wa, w2. split; [done|]. split; [done|].
  apply io_bind_inv in Hb as [(listener & w3 & H3 & Hb)|(e & H3 & ->)];
    apply bind_socket_steps in H3; [|left; by eauto].
  apply open_listener_steps in Hb as [Hs Hl]. right. by exists listener, w3.
Qed.

(** How dropping treats it. *)
Lemma drop_steps l w r w' :
  pl_path l = path → drop fault others l w = (r, w') →
  ∃ w1, (untouched w w1 ∨ removes (pl_device l) (pl_inode l) w w1) ∧
    w' = (close (pl_listener l) w1).2.
Proof.
  intros Hp. unfold drop, mbind, io_bind, io_try. rewrite Hp.
  destruct (remove_if_same_socket _ _ _ _ _ w) as [r1 w1] eqn:H1. intros [= _ <-].
  exists w1. split; [|done]. apply remove_if_same_steps in H1 as [?|[_ ?]]; [by left|by right].
Qed.
End interference.

(** C29: the daemon's socket, whichever steps fail. Whatever other processes do
    between two of its steps, also to the socket's name: before [bind] has a
    socket of its own it takes something off the name at most once, and only in
    four steps in a row, in which the name was a socket, nobody listened there,
    the name was the same socket again by its device and inode, and it was
    removed; it binds the name only while it stands for nothing; from then on it
    changes a mode, or closes its own socket; and dropping the listener removes
    the name only right after having seen its own socket there. (What another
    process binds between the last check and the removal is lost, as [bind_race]
    shows.) As long as other processes leave the name and its directory alone,
    moreover: when binding succeeds, nothing or a socket nobody listened on was
    there, the directory is a real one that only its owner can use, and the name
    is the new socket, for its owner only; when it fails, the name is as it was,
    or nothing that anybody listens on; a socket somebody listens on, and anything
    that is no socket, stays; dropping the listener removes its own socket and
    leaves anything else. And if then no step fails, binding succeeds in a private
    directory, also over the socket of a daemon that crashed, and dropping leaves
    no file. *)
Theorem socket_private fault others identity umask path directory :
  parent path = Some directory → directory ≠ [] →
  let bind := bind fault others identity umask path in
  let drop := drop fault others in
  let own device inode := mkListener (device, inode) path device inode in
  (∀ w r w', bind w = (r, w') → bind_discipline others identity umask path w r w') ∧
  (∀ l w r w', pl_path l = path → drop l w = (r, w') →
     ∃ w1, (untouched others path w w1 ∨ removes others path (pl_device l) (pl_inode l) w w1) ∧
       w' = (close (pl_listener l) w1).2) ∧
  ((∀ n nodes, others n nodes !! path = nodes !! path) →
   (∀ n nodes, others n nodes !! directory = nodes !! directory) →
   (∀ w r w', bind w = (r, w') →
      bound path directory w r w' ∧
      ∀ node, sw_nodes w !! path = Some node → is_socket node = false ∨ is_live node = true →
        sw_nodes w' !! path = Some node ∧ ∃ error, r = Err error) ∧
   (∀ device inode w r w' node,
      drop (own device inode) w = (r, w') → sw_nodes w !! path = Some node →
      if is_socket node && same_node device inode node then free (sw_nodes w' !! path)
      else sw_nodes w' !! path = Some node) ∧
   ((∀ n, fault n = false) →
    (∀ w node, sw_nodes w !! directory = Some node → private_directory node →
       free (sw_nodes w !! path) → ∃ l w', bind w = (Ok l, w')) ∧
    (∀ device inode w node, sw_nodes w !! path = Some node →
       is_socket node = true → same_node device inode node = true →
       ∃ w', drop (own device inode) w = (Ok (), w') ∧ sw_nodes w' !! path = None))).
Proof.
  intros Hp Hne bind drop own. split; [|split].
  - intros w r w'. by apply bind_steps with directory.
  - intros l w r w'. apply drop_steps.
  - intros Hpath Hdir. split; [|split].
    + intros w r w' Hb.
      assert (bound path directory w r w') as Hbound by by eapply bind_spec.
      split; [done|]. intros node Hnode Hbusy.
      assert (¬ free (sw_nodes w !! path)) as Hnfree
        by (intros Hf; destruct (Hf _ Hnode), Hbusy; congruence).
      destruct Hbound as [_ Hr]. destruct r as [l|e]; [by destruct Hr|].
      destruct Hr as [->|[? _]]; [|done]. split; [done|by eexists].
    + intros device inode w r w' node. by apply (drop_spec fault others path directory).
    + intros Hquiet. split.
      * intros w node Hnode Hprivate Hfree. by eapply bind_quiet.
      * intros device inode w node. by apply (drop_quiet fault others path directory).
Qed.

(** A daemon that starts again after a crash: the stale socket is replaced. *)
Module Example_socket.
Definition directory : str := $"/run/tts29".
Definition path : str := $"/run/tts29/daemon.sock".
Definition nodes : Nodes :=
  <[path := mkNode (UnixSocket false) 384 1 7]>
    (<[directory := mkNode Directory 448 1 2]> ∅).
Definition identity (n : nat) : N * N := (1, N.of_nat n + 100)%N.
Definition start : SocketWorld := mkSocketWorld nodes 0.
Definition outcome :=
  bind (λ _, false) (λ _ nodes, nodes) identity 18 path start.

(** Another daemon that binds the name between the check of the inode and the
    removal: its socket is removed although it listens. *)
Definition another : Node := mkNode (UnixSocket true) 384 1 99.
Definition race (n : nat) (nodes : Nodes) : Nodes :=
  if (n =? 5)%nat then <[path := another]> nodes else nodes.
End Example_socket.

Example bind_race :
  let '(r, w) := bind (λ _, false) Example_socket.race Example_socket.identity 18
                   Example_socket.path Example_socket.start in
  (∃ l, r = Ok l) ∧ sw_nodes w !! Example_socket.path ≠ Some Example_socket.another.
Proof. vm_compute. split; [by eexists|done]. Qed.

Lemma socket_private_witness :
  ∃ l w, Example_socket.outcome = (Ok l, w) ∧ pl_device l = 1%N ∧ pl_inode l = 106%N ∧
    sw_nodes w !! Example_socket.path = Some (mkNode (UnixSocket true) 384 1 106).
Proof.
  destruct Example_socket.outcome as [[l|] w] eqn:Hb; [|vm_compute in Hb; discriminate].
  exists l, w. split; [done|].
  destruct (socket_private (λ _, false) (λ _ nodes, nodes) Example_socket.identity 18
    Example_socket.path Example_socket.directory eq_refl ltac:(done)) as (_ & _ & Halone).
  destruct (Halone (λ _ _, eq_refl) (λ _ _, eq_refl)) as (Hbound & _ & _).
  destruct (Hbound _ _ _ Hb) as [[_ (_ & _ & _ & Hp)] _].
  assert (pl_device l = 1%N ∧ pl_inode l = 106%N) as [Hd Hi]
    by (vm_compute in Hb; injection Hb as <- _; done).
  rewrite Hd, Hi in Hp. done.
Defined.
