(* ===== verification/Blossom.v ===== *)
(** Durable artifacts ([daemon/src/blossom.rs]): the checks before and after an
    upload to the Blossom server, and the signed authorization it needs. The
    Blossom client, the engine's signer and the URL parser are parameters. *)

From S2P Require Export Paths Url Production.

(** [BlossomUploadConfig], durations in seconds. *)
Record BlossomUploadConfig := mkBlossomConfig {
  bc_server : str;
  bc_allowed_local_hosts : gset str;
  bc_request_timeout_seconds : N;
  bc_authorization_lifetime_seconds : N;
  bc_max_upload_bytes : N;
}.

(** [BlossomUploadConfig::new]. *)
Definition blossom_config (server : str) : BlossomUploadConfig :=
  mkBlossomConfig server ∅ 60 300 (50 * 1024 * 1024).

(** The fields of [nmp_blossom::BlobDescriptor] that are read; the digest is in
    hexadecimal. *)
Record BlobDescriptor := mkDescriptor {
  bd_url : str;
  bd_sha256 : str;
  bd_size : N;
  bd_mime_type : option str;
}.

(** [nmp_blossom], and [nmp::Engine::sign_event] with the [recv] of its result:
    a server address, the event that asks for an authorization to upload the
    blob of a digest until a time, the check of the signed one, and the upload
    of bytes with a media type. *)
Class BlossomClient (E : Type) := {
  BlossomServerUrl : Type;
  SignedAuthorization : Type;
  parse_server : str → result str BlossomServerUrl;
  upload_authorization_draft :
    PublicKey → str → N → N → str → result str UnsignedEvent;
  sign_event : UnsignedEvent → io E str Event;
  validate_authorization : Event → str → N → result str SignedAuthorization;
  upload : BlossomServerUrl → list N → str → SignedAuthorization → io E str BlobDescriptor;
  metadata_len : str → io E IoError N;   (** [fs::metadata(path)?.len()] *)
}.

(** The extensions of [infer_media_type] and their media types. *)
Definition media_types : list (str * str) :=
  [($"png", $"image/png"); ($"jpg", $"image/jpeg"); ($"jpeg", $"image/jpeg");
   ($"gif", $"image/gif"); ($"webp", $"image/webp"); ($"heic", $"image/heic");
   ($"svg", $"image/svg+xml"); ($"md", $"text/markdown"); ($"markdown", $"text/markdown");
   ($"txt", $"text/plain"); ($"log", $"text/plain"); ($"json", $"application/json");
   ($"pdf", $"application/pdf"); ($"mp3", $"audio/mpeg"); ($"wav", $"audio/wav");
   ($"m4a", $"audio/mp4")].
Definition infer_media_type (path : str) : str :=
  let extension := to_ascii_lowercase (default [] (extension path)) in
  default $"application/octet-stream"
    (find_map (λ '(name, media_type), if extension =?s name then Some media_type else None)
       media_types).

Section urls.
Context `{UrlParser}.

Definition validate_public_url (text : str) : result str unit :=
  url ← ok_or $"Blossom descriptor URL is invalid" (url_parse text);
  fail_if $"Blossom descriptor URL must be public HTTPS"
    (negb (url_scheme url =?s $"https") || is_none (url_host_str url)
     || negb (is_empty (url_username url)) || negb (is_none (url_password url))
     || negb (is_none (url_query url)) || negb (is_none (url_fragment url))).

Definition validate_descriptor (url : str) (media_type : option str) : result str unit :=
  _ ← validate_public_url url;
  fail_if $"Blossom descriptor is not MP3 audio"
    (is_some_and (λ media_type,
       negb ((media_type =?s $"audio/mpeg") || (media_type =?s $"audio/mp3")
             || (media_type =?s $"application/octet-stream"))) media_type).
End urls.

Section uploader.
Context `{UrlParser, Hashing} {E : Type} `{!ProducerEnv E, !WorkDir E, !BlossomClient E}.

(** [BlossomArtifactUploader], without the client and the runtime. *)
Record BlossomArtifactUploader := mkUploader {
  bu_author : PublicKey;
  bu_server : BlossomServerUrl;
  bu_authorization_lifetime : N;
  bu_max_upload_bytes : N;
}.

(** [BlossomArtifactUploader::new], up to the construction of the client and
    the runtime. *)
Definition new_uploader (author : PublicKey) (config : BlossomUploadConfig)
    : result str BlossomArtifactUploader :=
  _ ← fail_if $"Blossom authorization lifetime and upload limit must be positive"
        ((bc_authorization_lifetime_seconds config =? 0)%N
         || (bc_max_upload_bytes config =? 0)%N);
  server ← parse_server (bc_server config);
  Ok (mkUploader author server (bc_authorization_lifetime_seconds config)
        (bc_max_upload_bytes config)).

Context (U : BlossomArtifactUploader).

#[local] Abbreviation M := (io E str).

(** [self.clock.unix_millis() / 1_000]. *)
Definition now_seconds : M N := λ e, let '(millis, e) := unix_millis e in (Ok (millis / 1000)%N, e).

Definition authorization (hash : str) (now : N) : M SignedAuthorization :=
  expiration ← io_lift (ok_or $"Blossom authorization time overflow"
                          (u64_checked_add now (bu_authorization_lifetime U)));
  draft ← io_lift (upload_authorization_draft (bu_author U) hash now expiration
                     $"Upload TTS29 spoken audio");
  signed ← sign_event draft;
  io_lift (validate_authorization signed hash now).

Definition make_durable_attachment (path label : str) : M DurableArtifact :=
  data ← io_map_err (λ error, $"attachment could not be read: " ++ io_error_message error)
           (read_file path);
  let size := len data in
  _ ← io_lift (fail_if $"attachment is empty or exceeds the Blossom upload limit"
                 ((size =? 0)%N || (bu_max_upload_bytes U <? size)%N));
  let media_type := infer_media_type path in
  let hash := sha256_hex data in
  now ← now_seconds;
  authorized ← authorization hash now;
  descriptor ← upload (bu_server U) data media_type authorized;
  _ ← io_lift (validate_public_url (bd_url descriptor));
  _ ← io_lift (fail_if $"Blossom descriptor size does not match the attachment"
                 (negb (bd_size descriptor =? size)%N));
  mret (mkArtifact (bd_url descriptor) (bd_sha256 descriptor) media_type (bd_size descriptor)
          (Some label)).

Definition make_durable_audio (audio : LocalAudioArtifact) : M DurableArtifact :=
  size ← io_map_err (λ error, $"synthesized audio could not be inspected: "
                                ++ io_error_message error) (metadata_len (la_path audio));
  _ ← io_lift (fail_if $"synthesized audio exceeds the Blossom upload limit"
                 ((size =? 0)%N || (bu_max_upload_bytes U <? size)%N));
  data ← io_map_err (λ error, $"synthesized audio could not be read: "
                                ++ io_error_message error) (read_file (la_path audio));
  let hash := sha256_hex data in
  _ ← io_lift (fail_if $"synthesized audio changed before Blossom upload"
                 (negb (hash =?s la_sha256 audio) || negb (len data =? la_byte_count audio)%N));
  now ← now_seconds;
  authorized ← authorization hash now;
  descriptor ← upload (bu_server U) data (la_media_type audio) authorized;
  _ ← io_lift (validate_descriptor (bd_url descriptor) (bd_mime_type descriptor));
  _ ← io_lift (fail_if $"Blossom descriptor size does not match synthesized audio"
                 (negb (bd_size descriptor =? la_byte_count audio)%N));
  mret (mkArtifact (bd_url descriptor) (bd_sha256 descriptor) (la_media_type audio)
          (bd_size descriptor) None).

#[export] Instance blossom_uploader : ArtifactUploader E := {|
  make_durable := make_durable_audio;
|}.
End uploader.

(** ** What an upload guarantees *)
Section facts.
Context `{UrlParser, Hashing} {E : Type} `{!ProducerEnv E, !WorkDir E, !BlossomClient E}.
Context (U : BlossomArtifactUploader).

(** A public HTTPS address: nothing of it is secret or variable. *)
Definition public_https (text : str) : Prop :=
  ∃ url, url_parse text = Some url ∧ url_scheme url = $"https" ∧ is_Some (url_host_str url) ∧
    url_username url = [] ∧ url_password url = None ∧ url_query url = None ∧
    url_fragment url = None.

Lemma validate_public_url_iff text : validate_public_url text = Ok () ↔ public_https text.
Proof.
  unfold validate_public_url, public_https. rewrite bind_ok. setoid_rewrite ok_or_ok.
  setoid_rewrite fail_if_ok. setoid_rewrite orb_false_iff. setoid_rewrite orb_false_iff.
  setoid_rewrite orb_false_iff. setoid_rewrite orb_false_iff. setoid_rewrite orb_false_iff.
  setoid_rewrite negb_false_iff. setoid_rewrite str_eqb_eq. setoid_rewrite is_none_false.
  setoid_rewrite is_none_true. setoid_rewrite is_empty_true. naive_solver.
Qed.

(** An upload of these bytes: the daemon's key asked for an authorization for
    exactly their digest, valid from now for the configured lifetime without
    overflow, and the server described the blob. *)
Definition uploaded (data : list N) (media_type : str) (descriptor : BlobDescriptor) : Prop :=
  ∃ now draft signed authorized e1 e2 e3 e4,
    (now + bu_authorization_lifetime U ≤ u64_max)%N ∧
    upload_authorization_draft (bu_author U) (sha256_hex data) now
      (now + bu_authorization_lifetime U) $"Upload TTS29 spoken audio" = Ok draft ∧
    sign_event draft e1 = (Ok signed, e2) ∧
    validate_authorization signed (sha256_hex data) now = Ok authorized ∧
    upload (bu_server U) data media_type authorized e3 = (Ok descriptor, e4).

Lemma authorization_ok hash now (e : E) authorized e' :
  authorization U hash now e = (Ok authorized, e') →
  (now + bu_authorization_lifetime U ≤ u64_max)%N ∧ ∃ draft signed e1 e2,
    upload_authorization_draft (bu_author U) hash now (now + bu_authorization_lifetime U)
      $"Upload TTS29 spoken audio" = Ok draft ∧
    sign_event draft e1 = (Ok signed, e2) ∧
    validate_authorization signed hash now = Ok authorized.
Proof.
  intros Ha. pure Ha as expiration He. apply ok_or_ok, u64_checked_add_Some in He as [-> He].
  pure Ha as draft Hd. run Ha as signed e1 Hs. apply io_lift_ok in Ha as [Ha <-].
  split; [done|]. by eexists draft, signed, _, _.
Qed.

(** What a server may call MP3 audio, if it says anything. *)
Definition audio_types : list str :=
  [$"audio/mpeg"; $"audio/mp3"; $"application/octet-stream"].

Lemma validate_descriptor_ok url media_type :
  validate_descriptor url media_type = Ok () →
  public_https url ∧ ∀ mime, media_type = Some mime → mime ∈ audio_types.
Proof.
  unfold validate_descriptor. intros Hd. okay Hd as [] Hurl. apply validate_public_url_iff in Hurl.
  split; [done|]. intros mime ->. apply fail_if_ok in Hd. simpl in Hd.
  apply negb_false_iff, orb_true_iff in Hd as [[Hd|Hd]%orb_true_iff|Hd];
    apply str_eqb_eq in Hd as ->; unfold audio_types; set_solver.
Qed.

Lemma make_durable_audio_ok audio (e : E) artifact e' :
  make_durable_audio U audio e = (Ok artifact, e') →
  ∃ size inspected data descriptor, metadata_len (la_path audio) e = (Ok size, inspected) ∧
    (1 ≤ size ≤ bu_max_upload_bytes U)%N ∧
    sha256_hex data = la_sha256 audio ∧ len data = la_byte_count audio ∧
    uploaded data (la_media_type audio) descriptor ∧ public_https (bd_url descriptor) ∧
    (∀ mime, bd_mime_type descriptor = Some mime → mime ∈ audio_types) ∧
    artifact = mkArtifact (bd_url descriptor) (bd_sha256 descriptor) (la_media_type audio)
                 (la_byte_count audio) None.
Proof.
  intros Hm. run Hm as size e1 Hlen. apply io_map_err_ok in Hlen.
  pure Hm as [] Hmax. apply fail_if_ok in Hmax. reflect. destruct Hmax as [Hpos Hmax].
  run Hm as data e2 _. pure Hm as [] Hsame. apply fail_if_ok in Hsame. reflect. destruct Hsame as [Hh Hl].
  run Hm as now e3 Hnow. run Hm as authorized e4 Ha. run Hm as descriptor e5 Hu.
  pure Hm as [] Hdesc. apply validate_descriptor_ok in Hdesc as [Hurl Hmime].
  pure Hm as [] Hsize. apply fail_if_ok in Hsize. reflect. injection Hm as <- _.
  exists size, e1, data, descriptor.
  split_and!; [done|lia|lia|done|done| |done|done|congruence].
  apply authorization_ok in Ha as (Hn & draft & signed & e6 & e7 & Hd & Hs & Hv).
  by eexists now, draft, signed, authorized, _, _, _, _.
Qed.

Lemma make_durable_attachment_ok path label (e : E) artifact e' :
  make_durable_attachment U path label e = (Ok artifact, e') →
  ∃ data descriptor, (1 ≤ len data ≤ bu_max_upload_bytes U)%N ∧
    uploaded data (infer_media_type path) descriptor ∧ public_https (bd_url descriptor) ∧
    artifact = mkArtifact (bd_url descriptor) (bd_sha256 descriptor) (infer_media_type path)
                 (len data) (Some label).
Proof.
  intros Hm. run Hm as data e1 _. pure Hm as [] Hsize. apply fail_if_ok in Hsize. reflect.
  destruct Hsize as [Hpos Hmax]. run Hm as now e3 Hnow. run Hm as authorized e4 Ha.
  run Hm as descriptor e5 Hu. pure Hm as [] Hurl.
  pure Hm as [] Hs. apply fail_if_ok in Hs. reflect. injection Hm as <- _.
  exists data, descriptor. split_and!; [lia|lia| |by apply validate_public_url_iff|congruence].
  apply authorization_ok in Ha as (Hn & draft & signed & e6 & e7 & Hd & Hsg & Hv).
  by eexists now, draft, signed, authorized, _, _, _, _.
Qed.

(** C35: an artifact is durable only when everything about it was checked. Audio
    is uploaded only when its file was found within the configured limit, and
    only as the very bytes the job recorded, by digest and length, and it is
    durable only if the server does not call it something else; an attachment is
    uploaded only within the limit. The upload carries an
    authorization the daemon's key signed for exactly this digest, whose expiry
    did not overflow; the address is public HTTPS without credentials, query or
    fragment; and the artifact has the media type that was sent and the number
    of bytes that were sent. *)
Theorem durable_artifacts_checked (e : E) artifact e' :
  (∀ audio, make_durable_audio U audio e = (Ok artifact, e') →
     ∃ size inspected data descriptor, metadata_len (la_path audio) e = (Ok size, inspected) ∧
       (1 ≤ size ≤ bu_max_upload_bytes U)%N ∧
       sha256_hex data = la_sha256 audio ∧ len data = la_byte_count audio ∧
       uploaded data (la_media_type audio) descriptor ∧ public_https (artifact_url artifact) ∧
       (∀ mime, bd_mime_type descriptor = Some mime → mime ∈ audio_types) ∧
       artifact = mkArtifact (bd_url descriptor) (bd_sha256 descriptor) (la_media_type audio)
                    (len data) None) ∧
  (∀ path label, make_durable_attachment U path label e = (Ok artifact, e') →
     ∃ data descriptor, (1 ≤ len data ≤ bu_max_upload_bytes U)%N ∧
       uploaded data (infer_media_type path) descriptor ∧ public_https (artifact_url artifact) ∧
       artifact = mkArtifact (bd_url descriptor) (bd_sha256 descriptor) (infer_media_type path)
                    (len data) (Some label)).
Proof.
  split.
  - intros audio Hm. apply make_durable_audio_ok in Hm
      as (size & inspected & data & descriptor & Hi & Hs & Hh & Hl & Hu & Hp & Hmime & ->).
    exists size, inspected, data, descriptor. by rewrite Hl.
  - intros path label (data & descriptor & Hl & Hu & Hp & ->)%make_durable_attachment_ok.
    by exists data, descriptor.
Qed.
End facts.

Module Example_blossom.
#[export] Instance urls : UrlParser := {|
  url_parse text := Some (mkUrl $"https" [] None (Some $"cdn.example") $"/x" None None text);
|}.
#[export] Instance hashing : Hashing := {|
  sha256_hex data := u64_to_string (len data); request_json _ := Some [];
|}.
#[export] Instance producer_env : ProducerEnv N := {|
  Registration := PublicKey;
  registered_key r := r;
  add_account secret t := (Ok (mkPublicKey secret), t);
  remove_account _ t := (Ok true, t);
  read_to_string _ t := (Ok [], t);
  make_durable_file _ _ t := (Err [], t);
  unix_millis t := (t, (t + 1)%N);
|}.
#[export] Instance work_dir : WorkDir N := {|
  create_dir_all _ t := (Ok (), t);
  read_file _ t := (Ok [1; 2; 3]%N, t);
|}.
#[export] Instance client : BlossomClient N := {|
  BlossomServerUrl := str;
  SignedAuthorization := Event;
  parse_server text := Ok text;
  upload_authorization_draft author hash now expiration reason :=
    Ok (mkUnsigned author now 24242 [[$"x"; hash]; [$"expiration"; u64_to_string expiration]]
          reason);
  sign_event draft t :=
    (Ok (mkEvent (mkEventId []) (unsigned_pubkey draft) (unsigned_created_at draft)
           (unsigned_kind draft) (unsigned_tags draft) (unsigned_content draft)), t);
  validate_authorization signed _ _ := Ok signed;
  upload server data _ _ t :=
    (Ok (mkDescriptor $"https://cdn.example/x" (sha256_hex data) (len data) None), t);
  metadata_len _ t := (Ok 3%N, t);
|}.
Definition uploader : BlossomArtifactUploader :=
  mkUploader (mkPublicKey $"daemon") $"https://blossom.example" 300 100.
Definition attached := make_durable_attachment uploader $"/home/notes.MD" $"Notes" 5000%N.
End Example_blossom.
#[local] Existing Instances Example_blossom.urls Example_blossom.hashing
  Example_blossom.producer_env Example_blossom.work_dir Example_blossom.client.

Lemma durable_artifacts_checked_witness :
  ∃ artifact e', Example_blossom.attached = (Ok artifact, e') ∧
    artifact_media_type artifact = $"text/markdown" ∧ public_https (artifact_url artifact).
Proof.
  destruct Example_blossom.attached as [[artifact|error] e'] eqn:Ha;
    [|vm_compute in Ha; discriminate].
  exists artifact, e'. split; [reflexivity|].
  destruct (proj2 (durable_artifacts_checked Example_blossom.uploader 5000%N artifact e')
    $"/home/notes.MD" $"Notes" Ha) as (data & descriptor & _ & _ & Hp & ->).
  split; [vm_compute; reflexivity|exact Hp].
Defined.
