(* ===== verification/DaemonIdentity.v ===== *)
(** The daemon's own key ([daemon/src/daemon_identity.rs]): given by the
    deployment, read from a private file, or generated once and written there.
    The engine and the random bytes are parameters; any file-system step may
    fail. *)

From S2P Require Export Utf8 Paths Files Production.

Definition MAX_IDENTITY_BYTES : N := 512.
(** [0o600], and the mask [0o077]. *)
Definition PRIVATE_FILE_MODE : N := 384.
Definition OTHERS_MASK : N := 63.

(** What [symlink_metadata] shows of a file, besides its length. *)
Record FileMeta := mkMeta { fm_symlink : bool; fm_regular : bool; fm_mode : N }.

#[export] Instance file_meta_eq_dec : EqDecision FileMeta.
Proof. solve_decision. Defined.

Inductive PersistError := PersistExists | PersistFailed (reason : str).

(** [encode_hex]: the table of digits, and two of them for each byte. *)
Definition HEX : str := $"0123456789abcdef".
Definition hex_digit (n : N) : N := default 0%N (HEX !! N.to_nat n).
Definition encode_hex (data : list N) : str :=
  data ≫= λ byte, [hex_digit (N.shiftr byte 4); hex_digit (N.land byte 15)].

(** [str::lines().count()]: a final line feed does not start another line. *)
Definition lines_count (s : str) : N :=
  let parts := split_on 10 s in
  if bool_decide (last parts = Some []) then (len parts - 1)%N else len parts.

(** The checks of [load_identity] on the metadata and on the text. *)
Definition check_metadata (meta : FileMeta) (length : N) : result str unit :=
  _ ← fail_if $"daemon identity file is not a bounded regular file"
        (fm_symlink meta || negb (fm_regular meta) || (length =? 0)%N
         || (MAX_IDENTITY_BYTES <? length)%N);
  fail_if $"daemon identity file must not be accessible by group or other users"
    (negb (N.land (fm_mode meta) OTHERS_MASK =? 0)%N).
Definition check_secret (text : str) : result str str :=
  let secret := trim text in
  _ ← fail_if $"daemon identity file is invalid"
        (is_empty secret || negb (lines_count secret =? 1)%N);
  Ok secret.

Section identity.
Context {E : Type} `{!ProducerEnv E, !WorkDir E}.
Context (fault : nat → option nat) (random_bytes : nat → list N) (path : str).

(** The files with their metadata, the engine, and the draws made so far. *)
Record IdentityWorld := mkIdentityWorld {
  iw_files : World;
  iw_meta : gmap str FileMeta;
  iw_env : E;
  iw_draws : nat;
}.

#[local] Abbreviation M := (io IdentityWorld str).

Definition on_files {X A} (m : io World X A) : io IdentityWorld X A := λ w,
  let '(r, files) := m (iw_files w) in
  (r, mkIdentityWorld files (iw_meta w) (iw_env w) (iw_draws w)).
Definition on_engine {X A} (m : io E X A) : io IdentityWorld X A := λ w,
  let '(r, env) := m (iw_env w) in
  (r, mkIdentityWorld (iw_files w) (iw_meta w) env (iw_draws w)).
(** [OsRng.fill_bytes]. *)
Definition draw {X} : io IdentityWorld X (list N) := λ w,
  (Ok (random_bytes (iw_draws w)),
   mkIdentityWorld (iw_files w) (iw_meta w) (iw_env w) (S (iw_draws w))).

(** [fs::symlink_metadata], with the length: one step on the file, like a read. *)
Definition symlink_metadata : io IdentityWorld IoError (FileMeta * N) := λ w,
  let '(r, w') := on_files (fs_read fault path) w in
  ((λ data, (default (mkMeta false true PRIVATE_FILE_MODE) (iw_meta w !! path), len data)) <$> r,
   w').
(** [fs::read_to_string]. *)
Definition read_text : io IdentityWorld IoError str :=
  data ← on_files (fs_read fault path);
  io_lift (ok_or (OtherError $"stream did not contain valid UTF-8") (from_utf8 data)).
(** [create_new] with the mode of a private file. *)
Definition set_private : io IdentityWorld IoError unit := λ w,
  (Ok (), mkIdentityWorld (iw_files w)
            (<[path := mkMeta false true PRIVATE_FILE_MODE]> (iw_meta w)) (iw_env w) (iw_draws w)).
Definition create_private : io IdentityWorld IoError unit :=
  _ ← on_files (create_new fault path); set_private.

(** [register]. *)
Definition register (secret : str) : M Registration :=
  io_map_err (λ error, $"NMP daemon identity was refused: " ++ error)
    (on_engine (add_account secret)).

Definition load_identity : M (option str) :=
  metadata ← io_try symlink_metadata;
  match metadata with
  | Err NotFound => mret None
  | Err error =>
      io_err ($"daemon identity metadata could not be read: " ++ io_error_message error)
  | Ok (meta, length) =>
      _ ← io_lift (check_metadata meta length);
      text ← io_map_err (λ error, $"daemon identity could not be read: "
                                    ++ io_error_message error) read_text;
      Some <$> io_lift (check_secret text)
  end.

Definition persist_new (secret : str) : io IdentityWorld PersistError unit :=
  _ ← io_map_err (λ error, match error with
        | AlreadyExistsError => PersistExists
        | error => PersistFailed ($"daemon identity could not be created: "
                                    ++ io_error_message error)
        end) create_private;
  written ← io_try (_ ← on_files (write_all fault path (bytes secret));
                    _ ← on_files (write_all fault path [10%N]);
                    on_files (sync fault));
  match written with
  | Ok _ => mret ()
  | Err error =>
      _ ← io_try (E := IoError) (on_files (remove_file fault path));
      io_err (PersistFailed ($"daemon identity could not be persisted: "
                               ++ io_error_message error))
  end.

(** The rounds left of [for _ in 0..16]. *)
Fixpoint generate_loop (n : nat) : M Registration :=
  match n with
  | O => io_err $"could not generate a valid daemon identity"
  | S n =>
      data ← draw;
      let secret := encode_hex data in
      registered ← io_try (register secret);
      match registered with
      | Err _ => generate_loop n
      | Ok registration =>
          persisted ← io_try (persist_new secret);
          match persisted with
          | Ok _ => mret registration
          | Err PersistExists =>
              _ ← io_map_err (λ error,
                    $"generated daemon identity cleanup failed after a file race: " ++ error)
                    (on_engine (remove_account registration));
              secret ← load_identity;
              secret ← io_lift (ok_or $"daemon identity disappeared during concurrent creation"
                                  secret);
              register secret
          | Err (PersistFailed reason) =>
              _ ← io_try (E := str) (on_engine (remove_account registration));
              io_err reason
          end
      end
  end.

Definition generate_and_install : M Registration :=
  _ ← match parent path with
      | Some parent =>
          io_map_err (λ error, $"daemon identity directory could not be created: "
                                 ++ io_error_message error)
            (on_engine (create_dir_all parent))
      | None => mret ()
      end;
  generate_loop 16.

Definition install_daemon_identity (secret_override : option str) : M Registration :=
  match secret_override with
  | Some secret => register secret
  | None =>
      secret ← load_identity;
      match secret with
      | Some secret => register secret
      | None => generate_and_install
      end
  end.
End identity.

(** ** The generated secret *)
Lemma hex_digit_lower n : (n < 16)%N → lower_hex_byte (hex_digit n) = true.
Proof.
  intros Hn. assert (Forall (λ k, lower_hex_byte (hex_digit (N.of_nat k)) = true) (seq 0 16)) as Hall
    by (apply (bool_decide_unpack _); vm_compute; exact I).
  rewrite Forall_forall in Hall. specialize (Hall (N.to_nat n)).
  rewrite N2Nat.id in Hall. apply Hall, elem_of_seq. lia.
Qed.

Lemma encode_hex_digits data :
  Forall (λ b, b < 256)%N data → Forall (λ c, lower_hex_byte c = true) (encode_hex data).
Proof.
  unfold encode_hex. induction 1 as [|b data Hb _ IH]; [constructor|].
  cbn [mbind list_bind app]. repeat constructor; [| |exact IH]; apply hex_digit_lower.
  - rewrite N.shiftr_div_pow2. apply N.Div0.div_lt_upper_bound. by change (2 ^ 4 * 16)%N with 256%N.
  - change 15%N with (N.ones 4). rewrite N.land_ones. by apply N.mod_lt.
Qed.

Lemma encode_hex_length data : length (encode_hex data) = 2 * length data.
Proof.
  unfold encode_hex. induction data as [|b data IH]; [done|].
  cbn [mbind list_bind app length] in *. rewrite IH. lia.
Qed.

Lemma split_on_whole sep s : sep ∉ s → split_on sep s = [s].
Proof.
  induction s as [|c s IH]; intros Hs; [done|]. apply not_elem_of_cons in Hs as [Hc Hs].
  simpl. rewrite (proj2 (N.eqb_neq c sep)) by congruence. by rewrite IH.
Qed.

(** A line of text that [check_secret] reads back. *)
Lemma check_secret_line s :
  s ≠ [] → Forall (λ c, is_whitespace c = false) s → check_secret (s ++ [10%N]) = Ok s.
Proof.
  intros Hne Hs. unfold check_secret.
  assert (trim (s ++ [10%N]) = s) as ->.
  { unfold trim. destruct s as [|c s']; [done|]. pose proof (proj1 (proj1 (Forall_cons _ _ _) Hs)) as Hc.
    assert (trim_start ((c :: s') ++ [10%N]) = (c :: s') ++ [10%N]) as ->
      by (apply trim_start_id; by intros ? [= <-]).
    unfold trim_end. rewrite reverse_app. change (reverse [10%N]) with [10%N].
    change ([10%N] ++ ?l) with (10%N :: l). cbn [trim_start].
    change (is_whitespace 10) with true. cbv iota.
    rewrite trim_start_id, reverse_involutive; [done|].
    intros d Hd. rewrite head_reverse in Hd. apply last_Some_elem_of in Hd.
    rewrite Forall_forall in Hs. by apply Hs. }
  rewrite (proj2 (is_empty_false s)) by done. unfold lines_count.
  rewrite split_on_whole by (intros Hin; rewrite Forall_forall in Hs; by specialize (Hs _ Hin)).
  cbn [last]. rewrite bool_decide_eq_false_2 by congruence. done.
Qed.

Lemma lower_hex_plain c :
  lower_hex_byte c = true → is_whitespace c = false ∧ (c < 128)%N ∧ is_scalar c.
Proof.
  unfold lower_hex_byte, is_scalar. intros Hc. assert (48 ≤ c ≤ 102)%N as [H1 H2].
  { unfold is_ascii_digit in Hc. reflect. lia. }
  split; [|lia]. unfold is_whitespace. rewrite !orb_false_iff, !andb_false_iff.
  rewrite !N.eqb_neq, !N.leb_gt. lia.
Qed.

Lemma hex_bytes s : Forall (λ c, lower_hex_byte c = true) s → bytes s = s.
Proof.
  induction 1 as [|c l Hc _ IH]; [done|].
  rewrite bytes_cons, IH, encode_utf8_ascii by by apply lower_hex_plain. done.
Qed.

Lemma hex_line_reads s :
  Forall (λ c, lower_hex_byte c = true) s → s ≠ [] →
  ∃ text, from_utf8 (bytes s ++ [10%N]) = Some text ∧ check_secret text = Ok s.
Proof.
  intros Hs Hne. exists (s ++ [10%N]). split.
  - change [10%N] with (bytes [10%N]) at 1. rewrite <-bytes_app. apply from_utf8_bytes, Forall_app. split; [|by constructor; [left|]].
    eapply Forall_impl; [exact Hs|]. intros c Hc. by apply lower_hex_plain.
  - apply check_secret_line; [done|]. eapply Forall_impl; [exact Hs|].
    intros c Hc. by apply lower_hex_plain.
Qed.

(** ** What the operations do to the file *)
Section facts.
Context {E : Type} `{!ProducerEnv E, !WorkDir E}.
Context (fault : nat → option nat) (random_bytes : nat → list N) (path : str).

#[local] Abbreviation world := (@IdentityWorld E).
#[local] Abbreviation content w := (w_files (iw_files (w : world))).

(** The files and their metadata. *)
Definition disk (w : world) := (content w, iw_meta w).

(** The file at the path holds this secret, in a form that is accepted. *)
Definition holds_secret (w : world) (secret : str) : Prop :=
  ∃ data text, content w !! path = Some data ∧
    check_metadata (default (mkMeta false true PRIVATE_FILE_MODE) (iw_meta w !! path)) (len data)
      = Ok () ∧
    from_utf8 data = Some text ∧ check_secret text = Ok secret.

Lemma on_engine_disk {X A} (m : io E X A) : io_keeps disk (on_engine m).
Proof. intros w r w'. unfold on_engine. destruct (m (iw_env w)). by intros [= _ <-]. Qed.

Lemma register_disk secret : io_keeps disk (register secret).
Proof.
  intros w r w'. unfold register, io_map_err.
  destruct (on_engine (add_account secret) w) as [r0 w0] eqn:Hr. apply on_engine_disk in Hr.
  by intros [= _ <-].
Qed.

Lemma register_ok secret (w : world) registration w' :
  register secret w = (Ok registration, w') →
  ∃ e e', add_account secret e = (Ok registration, e').
Proof.
  intros Hr%io_map_err_ok. unfold on_engine in Hr.
  destruct (add_account secret (iw_env w)) as [r e] eqn:Ha. injection Hr as -> _. by eexists _, _.
Qed.

Lemma fs_read_disk (w : world) r w' :
  on_files (fs_read fault path) w = (r, w') →
  disk w' = disk w ∧
  match r with
  | Ok data => content w !! path = Some data
  | Err e => e = NotFound → content w !! path = None
  end.
Proof.
  unfold on_files. destruct (fs_read fault path (iw_files w)) as [r0 files] eqn:Hr.
  intros [= <- <-]. apply fs_read_step in Hr as [Hf Hr]. unfold disk. simpl. by rewrite Hf.
Qed.

Lemma load_identity_spec (w : world) r w' :
  load_identity fault path w = (r, w') →
  disk w' = disk w ∧
  match r with
  | Ok None => content w !! path = None
  | Ok (Some secret) => holds_secret w secret
  | Err _ => True
  end.
Proof.
  unfold load_identity, symlink_metadata, mbind, io_bind, io_try.
  destruct (on_files (fs_read fault path) w) as [r1 w1] eqn:H1. apply fs_read_disk in H1 as [Hd1 H1].
  destruct r1 as [data|[]]; simpl; try (intros [= <- <-]; by auto).
  unfold io_lift. destruct (check_metadata _ _) as [[]|e] eqn:Hm; [|by intros [= <- <-]].
  unfold read_text, mbind, io_bind, io_map_err.
  destruct (on_files (fs_read fault path) w1) as [r2 w2] eqn:H2. apply fs_read_disk in H2 as [Hd2 H2].
  rewrite Hd1 in Hd2. destruct r2 as [data'|e]; simpl; [|by intros [= <- <-]].
  unfold io_lift. destruct (from_utf8 data') as [text|] eqn:Hu; simpl; [|by intros [= <- <-]].
  unfold fmap, io_fmap. destruct (check_secret text) as [secret|e] eqn:Hs; [|by intros [= <- <-]].
  intros [= <- <-]. split; [done|]. injection Hd1 as Hc _. rewrite Hc in H2.
  rewrite H1 in H2. injection H2 as <-. by exists data, text.
Qed.

(** The secret of an accepted file is read back, when the file can be read. *)
Lemma load_identity_again (w : world) secret :
  holds_secret w secret →
  fault (w_steps (iw_files w)) = None → fault (S (w_steps (iw_files w))) = None →
  (load_identity fault path w).1 = Ok (Some secret).
Proof.
  intros (data & text & Hd & Hm & Hu & Hs) H1 H2.
  unfold load_identity, symlink_metadata, read_text, on_files, fs_read, fs_step, mbind, io_bind,
    io_try, io_lift, io_map_err. destruct w as [[files steps temp] meta env draws]. simpl in *.
  rewrite H1, Hd. simpl. rewrite Hm. simpl. rewrite H2, Hd. simpl. rewrite Hu. simpl.
  unfold fmap, io_fmap. by rewrite Hs.
Qed.

(** Only this path's file and metadata can differ. *)
Record only_path (w w' : world) : Prop := {
  op_files p : p ≠ path → content w' !! p = content w !! p;
  op_meta p : p ≠ path → iw_meta w' !! p = iw_meta w !! p;
}.

Lemma only_path_disk w w' : disk w' = disk w → only_path w w'.
Proof. intros [= Hc Hm]. split; intros p _; by rewrite ?Hc, ?Hm. Qed.

Lemma only_path_trans w1 w2 w3 : only_path w1 w2 → only_path w2 w3 → only_path w1 w3.
Proof. intros [Hf Hm] [Hf' Hm']. split; intros p Hp; by rewrite ?Hf', ?Hf, ?Hm', ?Hm. Qed.

Lemma on_files_inv {X A} (m : io World X A) (w : world) r w' :
  on_files m w = (r, w') →
  m (iw_files w) = (r, iw_files w') ∧ iw_meta w' = iw_meta w.
Proof. unfold on_files. destruct (m (iw_files w)) as [r0 files]. by intros [= <- <-]. Qed.

(** A step on the file at the path. *)
Lemma on_files_only {X A} (m : io World X A) (w : world) r w' :
  on_files m w = (r, w') → only path (iw_files w) (iw_files w') → only_path w w'.
Proof. intros [_ Hm]%on_files_inv Ho. split; [exact Ho|by rewrite Hm]. Qed.

Lemma create_private_spec (w : world) r w' :
  create_private fault path w = (r, w') →
  only_path w w' ∧
  match r with
  | Ok _ => content w !! path = None ∧ content w' !! path = Some [] ∧
      iw_meta w' !! path = Some (mkMeta false true PRIVATE_FILE_MODE)
  | Err e => disk w' = disk w ∧ (e = AlreadyExistsError → is_Some (content w !! path))
  end.
Proof.
  unfold create_private.
  intros [([] & w1 & Hc & Hs)|(e & Hc & ->)]%io_bind_inv;
    pose proof Hc as Hfiles; apply on_files_inv in Hfiles as [Hf Hm]; pose proof Hf as Hex;
    apply create_new_step in Hf as [Ho Hf]; pose proof (on_files_only _ _ _ _ Hc Ho) as Hp.
  - injection Hs as <- <-. simpl. rewrite lookup_insert_eq. split; [|by destruct Hf].
    eapply only_path_trans; [exact Hp|]. split; [done|]. intros p Hne. simpl.
    by rewrite lookup_insert_ne.
  - split; [done|]. split; [unfold disk; by rewrite Hf, Hm|]. intros ->.
    by apply create_new_exists in Hex.
Qed.

(** The writes of [persist_new], on a new file. *)
Lemma write_secret_spec secret (w : world) r w' :
  (_ ← on_files (write_all fault path (bytes secret));
   _ ← on_files (write_all fault path [10%N]);
   on_files (sync fault)) w = (r, w') →
  content w !! path = Some [] →
  only_path w w' ∧ iw_meta w' = iw_meta w ∧
  (r = Ok () → content w' !! path = Some (bytes secret ++ [10%N])).
Proof.
  intros Hw Hnew.
  apply io_bind_inv in Hw as [([] & w1 & H1 & Hw)|(e & H1 & ->)];
    pose proof H1 as Hf1; apply on_files_inv in Hf1 as [Hf1 Hm1];
    apply write_all_step in Hf1 as [Ho1 Hd1]; pose proof (on_files_only _ _ _ _ H1 Ho1) as Hp1;
    [|done].
  specialize (Hd1 eq_refl). rewrite Hnew in Hd1. simpl in Hd1.
  apply io_bind_inv in Hw as [([] & w2 & H2 & Hw)|(e & H2 & ->)];
    pose proof H2 as Hf2; apply on_files_inv in Hf2 as [Hf2 Hm2];
    apply write_all_step in Hf2 as [Ho2 Hd2]; pose proof (on_files_only _ _ _ _ H2 Ho2) as Hp2;
    pose proof (only_path_trans _ _ _ Hp1 Hp2) as Hp; [|by rewrite Hm2].
  specialize (Hd2 eq_refl). rewrite Hd1 in Hd2. simpl in Hd2.
  pose proof Hw as Hf3. apply on_files_inv in Hf3 as [Hf3 Hm3]. apply sync_step in Hf3.
  pose proof (on_files_only _ _ _ _ Hw (only_files path _ _ Hf3)) as Hp3.
  split; [by eapply only_path_trans|]. split; [congruence|]. intros _. by rewrite Hf3.
Qed.

Lemma persist_new_spec secret (w : world) r w' :
  persist_new fault path secret w = (r, w') →
  only_path w w' ∧ (is_Some (content w !! path) → disk w' = disk w) ∧
  (r = Ok () → content w !! path = None ∧
     content w' !! path = Some (bytes secret ++ [10%N]) ∧
     iw_meta w' !! path = Some (mkMeta false true PRIVATE_FILE_MODE)) ∧
  (r = Err PersistExists → is_Some (content w !! path)).
Proof.
  unfold persist_new. intros [([] & w1 & Hc & Hp)|(e & Hc & ->)]%io_bind_inv.
  2:{ unfold io_map_err in Hc. destruct (create_private fault path w) as [r0 w0] eqn:H0.
      injection Hc as Hr <-. apply create_private_spec in H0 as [Ho H0].
      destruct r0 as [|e0]; [done|]. destruct H0 as [Hd Hex]. split_and!; [done..|].
      intros [= ->]. apply Hex. by destruct e0. }
  apply io_map_err_ok, create_private_spec in Hc as (Ho & Hnone & Hempty & Hmeta).
  unfold mbind at 1, io_bind at 1, io_try in Hp.
  destruct ((_ ← on_files (write_all fault path (bytes secret)); _) w1) as [r2 w2] eqn:H2.
  apply write_secret_spec in H2 as (Ho2 & Hm2 & Hd2); [|done].
  assert (∀ P : Prop, is_Some (content w !! path) → P) as Habsurd
    by (rewrite Hnone; by intros P [? [=]]).
  destruct r2 as [[]|e]; simpl in Hp.
  - injection Hp as <- <-. split; [by eapply only_path_trans|]. split; [apply Habsurd|].
    split; [intros _; rewrite Hm2; auto|done].
  - unfold mbind, io_bind, io_err in Hp.
    destruct (on_files (remove_file fault path) w2) as [r3 w3] eqn:H3. injection Hp as <- <-.
    pose proof H3 as Hf3. apply on_files_inv in Hf3 as [[Ho3 _]%remove_file_step _].
    pose proof (on_files_only _ _ _ _ H3 Ho3).
    split; [eapply only_path_trans; [exact Ho|by eapply only_path_trans]|].
    split_and!; [apply Habsurd|done..].
Qed.

(** ** Installing the identity *)
Hypothesis random_ok :
  ∀ k, length (random_bytes k) = 32 ∧ Forall (λ b, b < 256)%N (random_bytes k).

Definition registered (secret : str) (registration : Registration) : Prop :=
  ∃ e e', add_account secret e = (Ok registration, e').

(** The outcome of a way to install the daemon's key. *)
Record installs (w : world) (r : result str Registration) (w' : world) : Prop := {
  in_others : only_path w w';
  in_kept : is_Some (content w !! path) → disk w' = disk w;
  in_secret registration : r = Ok registration →
    ∃ secret, registered secret registration ∧ holds_secret w' secret ∧
      (content w !! path = None → ∃ k, secret = encode_hex (random_bytes k));
}.

Lemma holds_secret_disk w w' secret : disk w' = disk w → holds_secret w secret → holds_secret w' secret.
Proof. intros [= Hc Hm]. unfold holds_secret. by rewrite Hc, Hm. Qed.

(** A generated secret, once it is on disk. *)
Lemma generated_holds (w : world) k :
  content w !! path = Some (bytes (encode_hex (random_bytes k)) ++ [10%N]) →
  iw_meta w !! path = Some (mkMeta false true PRIVATE_FILE_MODE) →
  holds_secret w (encode_hex (random_bytes k)).
Proof.
  intros Hd Hm. destruct (random_ok k) as [Hlen Hbytes].
  pose proof (encode_hex_digits _ Hbytes) as Hdigits.
  pose proof (encode_hex_length (random_bytes k)) as Hl. rewrite Hlen in Hl.
  destruct (hex_line_reads _ Hdigits) as (text & Hu & Hs); [by intros Hn; rewrite Hn in Hl|].
  exists (bytes (encode_hex (random_bytes k)) ++ [10%N]), text. split; [done|].
  split; [|done]. rewrite Hm. simpl. rewrite hex_bytes by done.
  unfold check_metadata, len. rewrite length_app, Hl. reflexivity.
Qed.

Lemma installs_disk w0 w r w' : disk w = disk w0 → installs w r w' → installs w0 r w'.
Proof.
  intros Hd [Ho Hk Hs]. pose proof Hd as [= Hc Hm]. rewrite Hc in Hk, Hs. split; [|intros; rewrite Hk; auto|done].
  eapply only_path_trans; [by apply only_path_disk|done].
Qed.

Lemma installs_err w e w' : disk w' = disk w → installs w (Err e) w'.
Proof. intros Hd. split; [by apply only_path_disk|done|done]. Qed.

(** After a file race the other file's secret is used. *)
Lemma race_installs registration (w : world) r w' :
  is_Some (content w !! path) →
  (_ ← io_map_err (λ error,
         $"generated daemon identity cleanup failed after a file race: " ++ error)
         (on_engine (remove_account registration));
   secret ← load_identity fault path;
   secret ← io_lift (ok_or $"daemon identity disappeared during concurrent creation" secret);
   register secret) w = (r, w') →
  installs w r w'.
Proof.
  intros Hpresent Hr.
  apply io_bind_inv in Hr as [(b & w1 & H1%io_map_err_ok%on_engine_disk & Hr)|(e & H1 & ->)].
  2:{ apply installs_err. unfold io_map_err in H1.
      destruct (on_engine (remove_account registration) w) as [r0 w0] eqn:H0.
      injection H1 as _ <-. by apply on_engine_disk in H0. }
  apply (installs_disk _ w1); [done|].
  apply io_bind_inv in Hr as [(o & w2 & [H2 Hl]%load_identity_spec & Hr)|(e & [H2 _]%load_identity_spec & ->)];
    [|by apply installs_err].
  apply io_bind_inv in Hr as [(secret & w3 & [Ho%ok_or_ok <-]%io_lift_ok & Hr)|(e & [= _ <-] & ->)];
    [|by apply installs_err].
  subst o. pose proof (register_disk _ _ _ _ Hr) as H3. split.
  - apply only_path_disk. by rewrite H3.
  - intros _. by rewrite H3.
  - intros reg ->. exists secret. split; [by eapply register_ok|]. split.
    + eapply holds_secret_disk; [|exact Hl]. by rewrite H3, H2.
    + injection H1 as Hc _. rewrite Hc. by destruct Hpresent as [? ->].
Qed.

Lemma generate_loop_installs n : ∀ w r w',
  generate_loop fault random_bytes path n w = (r, w') → installs w r w'.
Proof.
  induction n as [|n IH]; intros w r w' Hg; [injection Hg as <- <-; by apply installs_err|].
  cbn [generate_loop] in Hg. unfold mbind at 1, io_bind at 1, draw in Hg.
  set (w0 := mkIdentityWorld _ _ _ _) in Hg. apply (installs_disk _ w0); [done|].
  set (secret := encode_hex _) in *. unfold mbind at 1, io_bind at 1, io_try at 1 in Hg.
  destruct (register secret w0) as [registered w1] eqn:Hreg.
  pose proof (register_disk _ _ _ _ Hreg) as Hd1. apply (installs_disk _ w1); [done|].
  destruct registered as [registration|e]; [|by apply IH].
  unfold mbind at 1, io_bind at 1, io_try at 1 in Hg.
  destruct (persist_new fault path secret w1) as [persisted w2] eqn:Hp.
  apply persist_new_spec in Hp as (Ho & Hkeep & Hok & Hexists).
  destruct persisted as [[]|[|reason]].
  - injection Hg as <- <-. split; [done|done|]. intros reg [= <-]. exists secret.
    split; [by eapply register_ok|]. split; [|by eexists].
    destruct (Hok eq_refl) as (_ & Hdata & Hmeta). by apply generated_holds.
  - specialize (Hexists eq_refl). specialize (Hkeep Hexists).
    apply (installs_disk _ w2); [done|]. eapply race_installs; [|exact Hg].
    by injection Hkeep as -> _.
  - unfold mbind, io_bind, io_try, io_err in Hg.
    destruct (on_engine (remove_account registration) w2) as [r3 w3] eqn:H3.
    apply on_engine_disk in H3. injection Hg as <- <-. split; [|intros; rewrite H3; auto|done].
    eapply only_path_trans; [done|by apply only_path_disk].
Qed.

(** The creation of the directory leaves the file alone. *)
Lemma parent_created (w : world) r w' :
  (match parent path with
   | Some parent =>
       io_map_err (λ error, $"daemon identity directory could not be created: "
                              ++ io_error_message error)
         (on_engine (create_dir_all parent))
   | None => mret ()
   end : io world str unit) w = (r, w') → disk w' = disk w.
Proof.
  destruct (parent path) as [dir|]; [|by intros [= _ <-]]. unfold io_map_err.
  destruct (on_engine (create_dir_all dir) w) as [r0 w0] eqn:H0. intros [= _ <-].
  by apply on_engine_disk in H0.
Qed.

Lemma generate_installs (w : world) r w' :
  generate_and_install fault random_bytes path w = (r, w') → installs w r w'.
Proof.
  unfold generate_and_install. intros [([] & w1 & Hdir & Hg)|(e & Hdir & ->)]%io_bind_inv;
    apply parent_created in Hdir; [|by apply installs_err].
  apply (installs_disk _ w1); [done|]. by eapply generate_loop_installs.
Qed.

Lemma install_installs (w : world) r w' :
  install_daemon_identity fault random_bytes path None w = (r, w') → installs w r w'.
Proof.
  intros [(o & w1 & [H1 Hl]%load_identity_spec & Hr)|(e & [H1 _]%load_identity_spec & ->)]%io_bind_inv;
    [|by apply installs_err].
  apply (installs_disk _ w1); [done|]. destruct o as [secret|]; [|by apply generate_installs].
  pose proof (register_disk _ _ _ _ Hr) as H2. split; [by apply only_path_disk|done|].
  intros reg ->. exists secret. split; [by eapply register_ok|].
  apply (holds_secret_disk w w') in Hl as Hl'; [|by rewrite H2]. split; [done|].
  destruct Hl as (data & text & Hd & _). injection H1 as Hc _. by rewrite Hc, Hd.
Qed.

Lemma install_kept secret_override (w : world) r w' :
  install_daemon_identity fault random_bytes path secret_override w = (r, w') →
  only_path w w' ∧
  (is_Some secret_override ∨ is_Some (content w !! path) → disk w' = disk w) ∧
  ∀ registration, r = Ok registration →
    ∃ secret, registered secret registration ∧
      match secret_override with
      | Some given => secret = given
      | None =>
          (content w !! path = None → ∃ k, secret = encode_hex (random_bytes k)) ∧
          ∀ later, content later !! path = content w' !! path →
            iw_meta later !! path = iw_meta w' !! path →
            fault (w_steps (iw_files later)) = None →
            fault (S (w_steps (iw_files later))) = None →
            (load_identity fault path later).1 = Ok (Some secret)
      end.
Proof.
  intros Hi. destruct secret_override as [given|].
  - pose proof (register_disk _ _ _ _ Hi) as Hd. split; [by apply only_path_disk|].
    split; [done|]. intros registration ->. exists given. split; [by eapply register_ok|done].
  - apply install_installs in Hi as [Ho Hk Hs]. split; [done|].
    split; [by intros [[? [=]]|]; auto|].
    intros registration Hr. destruct (Hs registration Hr) as (secret & Hreg & Hheld & Hnew).
    exists secret. split; [done|]. split; [done|]. intros later Hc Hm H1 H2.
    apply load_identity_again; [|done..]. unfold holds_secret. by rewrite Hc, Hm.
Qed.

(** C33: the daemon keeps one key. Whatever step of the file system fails,
    installing the identity touches no other file, never changes a key file
    that is there, and writes nothing when the deployment gives the key. When
    it succeeds, the registered account is that of the given key, or of the
    secret the private key file holds, which is the hexadecimal text of random
    bytes when there was no file; and from then on, as long as the file is
    left alone and can be read, every start loads exactly this secret. *)
Theorem daemon_identity_kept secret_override (w : world) r w' :
  install_daemon_identity fault random_bytes path secret_override w = (r, w') →
  only_path w w' ∧
  (is_Some secret_override ∨ is_Some (content w !! path) → disk w' = disk w) ∧
  ∀ registration, r = Ok registration →
    ∃ secret, registered secret registration ∧
      match secret_override with
      | Some given => secret = given
      | None =>
          (content w !! path = None → ∃ k, secret = encode_hex (random_bytes k)) ∧
          ∀ later, content later !! path = content w' !! path →
            iw_meta later !! path = iw_meta w' !! path →
            fault (w_steps (iw_files later)) = None →
            fault (S (w_steps (iw_files later))) = None →
            (load_identity fault path later).1 = Ok (Some secret)
      end.
Proof. apply install_kept. Qed.
End facts.

(** A first start: nothing on disk, and an engine that refuses the first key. *)
Module Example_identity.
Definition random_bytes (k : nat) : list N := replicate 32 ((N.of_nat k + 160) mod 256)%N.
#[export] Instance producer_env : ProducerEnv (list str) := {|
  Registration := PublicKey;
  registered_key key := key;
  add_account secret e :=
    (if decide (head secret = Some 97%N ∧ e = []) then Err $"refused" else Ok (mkPublicKey secret),
     secret :: e);
  remove_account _ e := (Ok true, e);
  read_to_string _ e := (Ok [], e);
  make_durable_file _ _ e := (Err [], e);
  unix_millis e := (0%N, e);
|}.
#[export] Instance work_dir : WorkDir (list str) := {|
  create_dir_all _ e := (Ok (), e);
  read_file _ e := (Ok [], e);
|}.
Definition path : str := $"/home/daemon.key".
Definition start : @IdentityWorld (list str) := mkIdentityWorld (mkWorld ∅ 0 1) ∅ [] 0.
Definition outcome := install_daemon_identity (λ _, None) random_bytes path None start.
End Example_identity.
#[local] Existing Instance Example_identity.producer_env.
#[local] Existing Instance Example_identity.work_dir.

Lemma daemon_identity_kept_witness :
  ∃ registration, Example_identity.outcome.1 = Ok registration ∧
    ∃ secret, (load_identity (λ _, None) Example_identity.path Example_identity.outcome.2).1
      = Ok (Some secret).
Proof.
  eexists. split; [vm_compute; reflexivity|].
  assert (∀ k, length (Example_identity.random_bytes k) = 32 ∧
    Forall (λ b, b < 256)%N (Example_identity.random_bytes k)) as Hrandom.
  { intros k. split; [reflexivity|]. apply Forall_replicate, N.mod_lt. done. }
  destruct (daemon_identity_kept (λ _, None) Example_identity.random_bytes Example_identity.path
    Hrandom None Example_identity.start _ _ (surjective_pairing _)) as (_ & _ & Hs).
  edestruct Hs as (secret & _ & _ & Hload); [vm_compute; reflexivity|].
  exists secret. apply Hload; reflexivity.
Defined.
