(* ===== verification/DaemonConfig.v ===== *)
(** The daemon's configuration ([daemon/src/daemon_config.rs]): a bounded JSON
    file with defaults, whose limits are checked, whose paths are relative to
    it, and whose secrets come from the environment only. *)

From S2P Require Export Utf8 Paths Kokoro Blossom.

Definition MAX_CONFIG_BYTES : N := 64 * 1024.
Definition MAX_CAPABILITY_SECONDS : N := 300.
Definition MAX_AUDIO_BYTES : N := 100 * 1024 * 1024.

(** [ProductionConfig] of [daemon/src/production.rs]. *)
Record ProductionConfig := mkProduction {
  pc_journal_root : str;
  pc_work_root : str;
  pc_nmp_store_path : option str;
  pc_daemon_identity_path : str;
  pc_secret_key_override : option str;
  pc_host : str;
  pc_group_id : str;
  pc_owner_pubkey : str;
  pc_default_voice : str;
  pc_kokoro : KokoroConfig;
  pc_blossom : BlossomUploadConfig;
  pc_receipt_timeout_seconds : N;
}.

Record LoadedDaemonConfig := mkLoaded {
  lc_socket_path : str;
  lc_production : ProductionConfig;
}.

(** The fields of the JSON file; a field with a default may be absent. *)
Record KokoroFileConfig := mkKokoroFile {
  kf_endpoint : str;
  kf_request_timeout_seconds : option N;
  kf_max_audio_bytes : option N;
  kf_allow_insecure_loopback : option bool;
}.
Record BlossomFileConfig := mkBlossomFile {
  bf_server : str;
  bf_allowed_local_hosts : option (gset str);
  bf_request_timeout_seconds : option N;
  bf_authorization_lifetime_seconds : option N;
  bf_max_upload_bytes : option N;
}.
Record FileConfig := mkFileConfig {
  fc_socket_path : str;
  fc_journal_root : str;
  fc_work_root : str;
  fc_nmp_store_path : option str;
  fc_daemon_identity_path : option str;
  fc_host : str;
  fc_group_id : str;
  fc_owner_pubkey : str;
  fc_kokoro : KokoroFileConfig;
  fc_blossom : BlossomFileConfig;
  fc_receipt_timeout_seconds : option N;
  fc_default_voice : option str;
}.

Definition default_receipt_timeout : N := 30.
Definition default_daemon_identity_path : str := $"daemon.key".
Definition default_voice : str := $"af_heart".
Definition default_kokoro_timeout : N := 120.
Definition default_blossom_timeout : N := 60.
Definition default_authorization_lifetime : N := 300.
Definition default_audio_bytes : N := 50 * 1024 * 1024.

(** The fields with their defaults. *)
Definition receipt_timeout (file : FileConfig) : N :=
  default default_receipt_timeout (fc_receipt_timeout_seconds file).
Definition kokoro_timeout (file : FileConfig) : N :=
  default default_kokoro_timeout (kf_request_timeout_seconds (fc_kokoro file)).
Definition kokoro_bytes (file : FileConfig) : N :=
  default default_audio_bytes (kf_max_audio_bytes (fc_kokoro file)).
Definition blossom_timeout (file : FileConfig) : N :=
  default default_blossom_timeout (bf_request_timeout_seconds (fc_blossom file)).
Definition blossom_lifetime (file : FileConfig) : N :=
  default default_authorization_lifetime (bf_authorization_lifetime_seconds (fc_blossom file)).
Definition blossom_bytes (file : FileConfig) : N :=
  default default_audio_bytes (bf_max_upload_bytes (fc_blossom file)).

(** [validate_duration] and [validate_audio_limit]. *)
Definition validate_duration (name : str) (value : N) : result str unit :=
  fail_if (name ++ $" must be between 1 and " ++ u64_to_string MAX_CAPABILITY_SECONDS
             ++ $" seconds")
    ((value =? 0)%N || (MAX_CAPABILITY_SECONDS <? value)%N).
Definition validate_audio_limit (name : str) (value : N) : result str unit :=
  fail_if (name ++ $" byte limit is invalid") ((value =? 0)%N || (MAX_AUDIO_BYTES <? value)%N).

Definition resolve (base value : str) : str :=
  if is_absolute value then value else join_name base value.

Section load.
Context (env : str → EnvVar).

Definition optional_env (name : str) : result str (option str) :=
  match env name with
  | EnvValue [] => Err ($"environment variable " ++ name ++ $" is empty")
  | EnvValue value => Ok (Some value)
  | NotPresent => Ok None
  | NotUnicode => Err ($"environment variable " ++ name ++ $" is not valid UTF-8")
  end.

Definition kokoro_auth : result str KokoroAuth :=
  bearer ← optional_env $"TTS29_KOKORO_BEARER";
  username ← optional_env $"TTS29_KOKORO_BASIC_USERNAME";
  password ← optional_env $"TTS29_KOKORO_BASIC_PASSWORD";
  match bearer, username, password with
  | None, None, None => Ok AuthNone
  | Some token, None, None => Ok (AuthBearer token)
  | None, Some username, Some password => Ok (AuthBasic username password)
  | _, _, _ => Err $"Kokoro authentication environment is incomplete or ambiguous"
  end.

(** The six checks on the limits. *)
Definition validate_limits (file : FileConfig) : result str unit :=
  _ ← validate_duration $"receipt timeout" (receipt_timeout file);
  _ ← validate_duration $"Kokoro timeout" (kokoro_timeout file);
  _ ← validate_duration $"Blossom timeout" (blossom_timeout file);
  _ ← validate_duration $"Blossom authorization lifetime" (blossom_lifetime file);
  _ ← validate_audio_limit $"Kokoro audio" (kokoro_bytes file);
  validate_audio_limit $"Blossom upload" (blossom_bytes file).

(** The configurations of the capabilities; [usize] is 64 bits wide here, so an
    audio limit always fits it. *)
Definition kokoro_of (auth : KokoroAuth) (file : FileConfig) : KokoroConfig :=
  mkKokoroConfig (kf_endpoint (fc_kokoro file)) auth (kokoro_timeout file) (kokoro_bytes file)
    (default false (kf_allow_insecure_loopback (fc_kokoro file))).
Definition blossom_of (file : FileConfig) : BlossomUploadConfig :=
  mkBlossomConfig (bf_server (fc_blossom file))
    (default ∅ (bf_allowed_local_hosts (fc_blossom file)))
    (blossom_timeout file) (blossom_lifetime file) (blossom_bytes file).

Definition loaded_of (base : str) (secret : option str) (auth : KokoroAuth) (file : FileConfig)
    : LoadedDaemonConfig :=
  mkLoaded (resolve base (fc_socket_path file))
    (mkProduction (resolve base (fc_journal_root file)) (resolve base (fc_work_root file))
       (resolve base <$> fc_nmp_store_path file)
       (resolve base (default default_daemon_identity_path (fc_daemon_identity_path file)))
       secret (fc_host file) (fc_group_id file) (fc_owner_pubkey file)
       (default default_voice (fc_default_voice file)) (kokoro_of auth file) (blossom_of file)
       (receipt_timeout file)).

(** [load_daemon_config], given the result of reading the file and the decoder
    of its JSON. *)
Definition load_daemon_config (path : str) (contents : result IoError (list N))
    (decode : list N → result str FileConfig) : result str LoadedDaemonConfig :=
  data ← map_err (λ error, $"daemon config could not be read: " ++ io_error_message error)
           contents;
  _ ← fail_if $"daemon config size is invalid"
        (is_empty data || (MAX_CONFIG_BYTES <? len data)%N);
  file ← map_err (λ error, $"daemon config is invalid: " ++ error) (decode data);
  _ ← validate_limits file;
  let base := default $"." (parent path) in
  secret ← optional_env $"TTS29_DAEMON_NSEC";
  auth ← kokoro_auth;
  Ok (loaded_of base secret auth file).

(** ** Facts *)

(** The limits that hold of a loaded configuration. *)
Record limits_ok (production : ProductionConfig) : Prop := {
  lo_receipt : (1 ≤ pc_receipt_timeout_seconds production ≤ 300)%N;
  lo_kokoro : (1 ≤ kc_request_timeout_seconds (pc_kokoro production) ≤ 300)%N;
  lo_kokoro_bytes : (1 ≤ kc_max_audio_bytes (pc_kokoro production) ≤ 104857600)%N;
  lo_blossom : (1 ≤ bc_request_timeout_seconds (pc_blossom production) ≤ 300)%N;
  lo_lifetime : (1 ≤ bc_authorization_lifetime_seconds (pc_blossom production) ≤ 300)%N;
  lo_blossom_bytes : (1 ≤ bc_max_upload_bytes (pc_blossom production) ≤ 104857600)%N;
}.

Lemma validate_duration_iff name value :
  validate_duration name value = Ok () ↔ (1 ≤ value ≤ 300)%N.
Proof.
  unfold validate_duration, MAX_CAPABILITY_SECONDS. rewrite fail_if_ok. reflect. lia.
Qed.

Lemma validate_audio_limit_iff name value :
  validate_audio_limit name value = Ok () ↔ (1 ≤ value ≤ 104857600)%N.
Proof.
  unfold validate_audio_limit, MAX_AUDIO_BYTES. rewrite fail_if_ok. reflect. lia.
Qed.

Lemma validate_limits_iff base secret auth file :
  validate_limits file = Ok () ↔ limits_ok (lc_production (loaded_of base secret auth file)).
Proof.
  unfold validate_limits. split.
  - intros H. okay H as [] H1. okay H as [] H2. okay H as [] H3. okay H as [] H4.
    okay H as [] H5. apply validate_duration_iff in H1, H2, H3, H4.
    apply validate_audio_limit_iff in H5, H. by split.
  - intros [H1 H2 H3 H4 H5 H6]. simpl in *.
    rewrite (proj2 (validate_duration_iff _ _) H1), (proj2 (validate_duration_iff _ _) H2),
      (proj2 (validate_duration_iff _ _) H4), (proj2 (validate_duration_iff _ _) H5),
      (proj2 (validate_audio_limit_iff _ _) H3). simpl. by apply validate_audio_limit_iff.
Qed.

(** The environment gives a variable: absent, or a non-empty text. *)
Definition given (name : str) (value : option str) : Prop :=
  match value with
  | None => env name = NotPresent
  | Some value => env name = EnvValue value ∧ value ≠ []
  end.

Lemma optional_env_iff name value : optional_env name = Ok value ↔ given name value.
Proof.
  unfold optional_env, given. destruct (env name) as [| |[|c v]], value; naive_solver.
Qed.

(** The authentication the environment stands for. *)
Definition auth_given (auth : KokoroAuth) : Prop :=
  let bearer := match auth with AuthBearer token => Some token | _ => None end in
  let username := match auth with AuthBasic username _ => Some username | _ => None end in
  let password := match auth with AuthBasic _ password => Some password | _ => None end in
  given $"TTS29_KOKORO_BEARER" bearer ∧ given $"TTS29_KOKORO_BASIC_USERNAME" username ∧
  given $"TTS29_KOKORO_BASIC_PASSWORD" password.

Lemma kokoro_auth_iff auth : kokoro_auth = Ok auth ↔ auth_given auth.
Proof.
  unfold kokoro_auth, auth_given. split.
  - intros H. okay H as bearer Hb. okay H as username Hu. okay H as password Hp.
    apply optional_env_iff in Hb, Hu, Hp.
    destruct bearer, username, password; simplify_eq/=; auto.
  - intros (Hb & Hu & Hp). apply optional_env_iff in Hb, Hu, Hp. rewrite Hb. simpl.
    rewrite Hu. simpl. rewrite Hp. simpl. by destruct auth.
Qed.

(** C36: a configuration loads exactly when the file is readable, not empty and
    within 64 KiB, decodes, and stays within its limits, defaults included
    (capability times between 1 and 300 seconds, sizes between 1 byte and
    100 MiB), and the environment is consistent: each secret absent or
    non-empty, and the synthesis authentication absent, a bearer token alone,
    or a user name with its password. What is loaded takes its secrets from the
    environment and nowhere else, and its relative paths from the directory of
    the file. *)
Theorem load_daemon_config_iff path contents decode loaded :
  load_daemon_config path contents decode = Ok loaded ↔
  ∃ data file secret auth,
    contents = Ok data ∧ (1 ≤ len data ≤ 65536)%N ∧ decode data = Ok file ∧
    limits_ok (lc_production loaded) ∧
    given $"TTS29_DAEMON_NSEC" secret ∧ auth_given auth ∧
    loaded = loaded_of (default $"." (parent path)) secret auth file.
Proof.
  unfold load_daemon_config. split.
  - intros H. okay H as data Hd. apply map_err_ok in Hd. passed H as [Hne Hlen].
    okay H as file Hf. apply map_err_ok in Hf. okay H as [] Hl. okay H as secret Hs.
    apply optional_env_iff in Hs. okay H as auth Ha. apply kokoro_auth_iff in Ha.
    injection H as <-. exists data, file, secret, auth. unfold MAX_CONFIG_BYTES in Hlen.
    split_and!; try done; [|by apply validate_limits_iff].
    destruct data; [done|]. rewrite len_cons. lia.
  - intros (data & file & secret & auth & -> & [Hpos Hlen] & Hf & Hl & Hs & Ha & ->).
    apply validate_limits_iff in Hl. apply optional_env_iff in Hs. apply kokoro_auth_iff in Ha.
    simpl. assert (is_empty data = false) as -> by (destruct data; done).
    assert ((MAX_CONFIG_BYTES <? len data)%N = false) as -> by by apply N.ltb_ge.
    simpl. rewrite Hf. simpl. rewrite Hl. simpl. rewrite Hs. simpl. by rewrite Ha.
Qed.
End load.
