(* ===== verification/McpAuth.v ===== *)
(** Access tokens of the MCP endpoint ([mcp/src/auth.rs]): which key sets are
    accepted, and which tokens. The JWT library and the JSON decoder are
    parameters. *)

From S2P Require Export Text.

Definition MAX_JWKS_BYTES : N := 1024 * 1024.
Definition CLOCK_SKEW_SECONDS : N := 30.

(** [jsonwebtoken::Algorithm]. *)
Inductive Algorithm :=
  | HS256 | HS384 | HS512 | RS256 | RS384 | RS512 | PS256 | PS384 | PS512 | ES256 | ES384 | EdDSA.

(** [jsonwebtoken::jwk::KeyAlgorithm]: a signing algorithm, or one of the key
    management algorithms and unknown names. *)
Inductive KeyAlgorithm := KeySigning (algorithm : Algorithm) | KeyOther.

#[export] Instance algorithm_eq_dec : EqDecision Algorithm.
Proof. solve_decision. Defined.

(** The fields of a [Jwk] that are read: its id, its algorithm, and whether its
    parameters are an octet key. *)
Record Jwk := mkJwk {
  jwk_key_id : option str;
  jwk_key_algorithm : option KeyAlgorithm;
  jwk_octet : bool;
  jwk_material : str;
}.

Record Header := mkHeader { header_alg : Algorithm; header_kid : option str }.

Record AccessClaims := mkClaims {
  claim_exp : N;
  claim_nbf : option N;
  claim_scope : str;
}.

Inductive AuthFailure := InvalidToken | InsufficientScope.

(** [jsonwebtoken]: [JwkSet::find], [decode_header], [DecodingKey::from_jwk],
    and [decode] with the issuer, the audience and the required claims [exp],
    [iss] and [aud] set, and the checks of the times switched off. *)
Class Jwt := {
  DecodingKey : Type;
  find_key : list Jwk → str → option Jwk;
  decode_header : str → option Header;
  from_jwk : Jwk → option DecodingKey;
  decode_claims : str → DecodingKey → Algorithm → str → str → option AccessClaims;
}.
(** [JwkSet::find] finds a key of the set by its id, and the numbers of the
    claims are 64 bits wide. *)
Class JwtLaws `{Jwt} : Prop := {
  find_key_Some keys kid jwk :
    find_key keys kid = Some jwk → jwk ∈ keys ∧ jwk_key_id jwk = Some kid;
  claims_u64 token key algorithm issuer audience claims :
    decode_claims token key algorithm issuer audience = Some claims →
    ∀ nbf, claim_nbf claims = Some nbf → (nbf ≤ u64_max)%N;
}.

Definition jwk_algorithm (key : Jwk) : option Algorithm :=
  algorithm ← jwk_key_algorithm key;
  match algorithm with
  | KeySigning (HS256 | HS384 | HS512) | KeyOther => None
  | KeySigning algorithm => Some algorithm
  end.

(** One round of the loop of [validate_jwks]; the state is the set of ids. *)
Definition validate_jwk_step (ids : gset str) (key : Jwk) : result str (gset str) :=
  id ← ok_or $"every JWK must have a bounded kid"
         (id ← jwk_key_id key;
          if negb (is_empty id) && (str_len id <=? 256)%N then Some id else None);
  _ ← fail_if $"JWKS contains a duplicate kid or unsupported signing key"
        (bool_decide (id ∈ ids) || is_none (jwk_algorithm key));
  _ ← fail_if $"JWKS must not contain symmetric signing secrets" (jwk_octet key);
  Ok ({[id]} ∪ ids).
Definition validate_jwks (keys : list Jwk) : result str unit :=
  _ ← fail_if $"JWKS must contain between 1 and 64 keys"
        (is_empty keys || (64 <? len keys)%N);
  _ ← try_fold validate_jwk_step ∅ keys;
  Ok ().

(** [load_jwks], given what can be read of the file (and the error that stops
    the reading) and the JSON decoder. *)
Definition load_jwks (contents : result str (list N)) (decode : list N → result str (list Jwk))
    : result str (list Jwk) :=
  data ← map_err (λ error, $"JWKS could not be read: " ++ error) contents;
  let data := take (N.to_nat (MAX_JWKS_BYTES + 1)) data in
  _ ← fail_if $"JWKS exceeds the byte limit" (MAX_JWKS_BYTES <? len data)%N;
  map_err (λ error, $"JWKS is invalid JSON: " ++ error) (decode data).

(** [str::split_ascii_whitespace]: ASCII whitespace does not include the
    vertical tab. *)
Fixpoint split_ascii_whitespace_from (word s : str) : list str :=
  match s with
  | [] => if is_empty word then [] else [word]
  | c :: s =>
      if is_ascii_whitespace c then
        (if is_empty word then [] else [word]) ++ split_ascii_whitespace_from [] s
      else split_ascii_whitespace_from (word ++ [c]) s
  end.
Definition split_ascii_whitespace : str → list str := split_ascii_whitespace_from [].

(** [AuthValidator], without the clock. *)
Record AuthValidator := mkValidator {
  av_keys : list Jwk;
  av_issuer : str;
  av_audience : str;
  av_required_scope : str;
}.

(** [AuthValidator::new]. *)
Definition new_validator (keys : list Jwk) (issuer audience required_scope : str)
    : result str AuthValidator :=
  _ ← validate_jwks keys;
  Ok (mkValidator keys issuer audience required_scope).

Section validate.
Context `{Jwt} (A : AuthValidator).

(** [AuthValidator::validate] at the time [now]. *)
Definition validate (now : N) (token : str) : result AuthFailure unit :=
  _ ← fail_if InvalidToken (is_empty token || (16 * 1024 <? str_len token)%N);
  header ← ok_or InvalidToken (decode_header token);
  kid ← ok_or InvalidToken (header_kid header);
  jwk ← ok_or InvalidToken (find_key (av_keys A) kid);
  algorithm ← ok_or InvalidToken (jwk_algorithm jwk);
  _ ← fail_if InvalidToken (negb (bool_decide (header_alg header = algorithm)));
  key ← ok_or InvalidToken (from_jwk jwk);
  claims ← ok_or InvalidToken (decode_claims token key algorithm (av_issuer A) (av_audience A));
  _ ← fail_if InvalidToken
        ((u64_saturating_add (claim_exp claims) CLOCK_SKEW_SECONDS <? now)%N
         || is_some_and (λ nbf, (u64_saturating_add now CLOCK_SKEW_SECONDS <? nbf)%N)
              (claim_nbf claims));
  fail_if InsufficientScope
    (negb (existsb (λ scope, scope =?s av_required_scope A)
             (split_ascii_whitespace (claim_scope claims)))).
End validate.

(** ** Key sets *)
Definition symmetric (algorithm : Algorithm) : bool :=
  match algorithm with HS256 | HS384 | HS512 => true | _ => false end.

(** A public signing key with a bounded id. *)
Record jwk_valid (key : Jwk) : Prop := {
  jv_id : ∃ id, jwk_key_id key = Some id ∧ id ≠ [] ∧ (str_len id ≤ 256)%N;
  jv_algorithm : ∃ algorithm, jwk_key_algorithm key = Some (KeySigning algorithm) ∧
    symmetric algorithm = false;
  jv_material : jwk_octet key = false;
}.

Record jwks_valid (keys : list Jwk) : Prop := {
  ks_bound : (1 ≤ len keys ≤ 64)%N;
  ks_ids : NoDup (default [] ∘ jwk_key_id <$> keys);
  ks_all : Forall jwk_valid keys;
}.

Lemma jwk_algorithm_Some key algorithm :
  jwk_algorithm key = Some algorithm ↔
  jwk_key_algorithm key = Some (KeySigning algorithm) ∧ symmetric algorithm = false.
Proof.
  unfold jwk_algorithm. destruct (jwk_key_algorithm key) as [[[]|]|]; simpl; naive_solver.
Qed.

Lemma validate_jwk_step_Ok ids key ids' :
  validate_jwk_step ids key = Ok ids' ↔
  ids' = {[(default [] ∘ jwk_key_id) key]} ∪ ids ∧
  ((default [] ∘ jwk_key_id) key ∉ ids) ∧ jwk_valid key.
Proof.
  unfold validate_jwk_step. simpl. split.
  - intros H. okay H as id Hid. apply ok_or_ok in Hid. opt Hid as id' Hk.
    destruct (negb (is_empty id') && _) eqn:Hb; [|done]. injection Hid as <-.
    passed H as [Hn Ha]. passed H as Ho. injection H as <-. rewrite Hk. reflect.
    split_and!; [done|done|]. destruct Hb as [Hne Hlen]. destruct Ha as [algorithm Ha].
    apply jwk_algorithm_Some in Ha. split; eauto.
  - intros (-> & Hn & [(id & Hid & Hne & Hlen) (algorithm & Ha & Hs) Ho]).
    rewrite Hid in *. simpl in *. apply is_empty_false in Hne as ->.
    apply N.leb_le in Hlen as ->. simpl. rewrite bool_decide_eq_false_2 by done.
    assert (jwk_algorithm key = Some algorithm) as -> by by apply jwk_algorithm_Some.
    simpl. by rewrite Ho.
Qed.

Lemma validate_jwks_iff keys : validate_jwks keys = Ok () ↔ jwks_valid keys.
Proof.
  unfold validate_jwks. pose proof (try_fold_distinct (M := result str) (default [] ∘ jwk_key_id) jwk_valid
    validate_jwk_step validate_jwk_step_Ok keys) as Hfold. split.
  - intros H. passed H as [Hne Hlen]. okay H as seen Hs.
    destruct Hfold as [Hfold _]. destruct Hfold as [Hnd Hall]; [by exists seen|].
    split; [|done|done]. destruct keys; [done|]. rewrite len_cons in *. lia.
  - intros [[Hpos Hlen] Hnd Hall]. assert (is_empty keys = false) as -> by by destruct keys.
    apply N.ltb_ge in Hlen as ->. simpl.
    destruct Hfold as [_ Hfold]. destruct Hfold as [seen Hs]; [done|].
    unfold returns in Hs. by rewrite Hs.
Qed.

(** ** Tokens *)
Section tokens.
Context `{JwtLaws} (A : AuthValidator).

(** A token of the issuer for this resource: its header names a key of the set
    and that key's own algorithm, which is asymmetric; the signature of that
    key, the issuer and the audience are checked; and the time is within the
    token's, up to a skew of 30 seconds and without wrapping around. *)
Record authentic (now : N) (token : str) (claims : AccessClaims) : Prop := {
  at_length : token ≠ [] ∧ (str_len token ≤ 16384)%N;
  at_signed : ∃ header kid jwk key,
    decode_header token = Some header ∧ header_kid header = Some kid ∧
    find_key (av_keys A) kid = Some jwk ∧ jwk ∈ av_keys A ∧ jwk_key_id jwk = Some kid ∧
    jwk_key_algorithm jwk = Some (KeySigning (header_alg header)) ∧
    symmetric (header_alg header) = false ∧ from_jwk jwk = Some key ∧
    decode_claims token key (header_alg header) (av_issuer A) (av_audience A) = Some claims;
  at_exp : (now ≤ claim_exp claims + 30)%N;
  at_nbf nbf : claim_nbf claims = Some nbf → (nbf ≤ now + 30)%N;
}.

Definition has_scope (claims : AccessClaims) : Prop :=
  av_required_scope A ∈ split_ascii_whitespace (claim_scope claims).

Lemma saturating_lt a b n : (n ≤ u64_max)%N → (u64_saturating_add a b <? n)%N = false ↔ (n ≤ a + b)%N.
Proof. unfold u64_saturating_add. intros Hn. rewrite N.ltb_ge. lia. Qed.

Lemma times_ok now claims :
  (now ≤ u64_max)%N → (∀ nbf, claim_nbf claims = Some nbf → (nbf ≤ u64_max)%N) →
  (u64_saturating_add (claim_exp claims) CLOCK_SKEW_SECONDS <? now)%N
    || is_some_and (λ nbf, (u64_saturating_add now CLOCK_SKEW_SECONDS <? nbf)%N)
         (claim_nbf claims) = false ↔
  (now ≤ claim_exp claims + 30)%N ∧ ∀ nbf, claim_nbf claims = Some nbf → (nbf ≤ now + 30)%N.
Proof.
  intros Hnow Hnbf. rewrite orb_false_iff, is_some_and_false, saturating_lt by done.
  split; intros [He Hn]; (split; [done|]); intros nbf Hc; specialize (Hn nbf Hc);
    by apply (saturating_lt now CLOCK_SKEW_SECONDS nbf (Hnbf nbf Hc)).
Qed.

Lemma scope_check claims :
  negb (existsb (λ scope, scope =?s av_required_scope A)
          (split_ascii_whitespace (claim_scope claims))) = false ↔ has_scope claims.
Proof.
  unfold has_scope. rewrite negb_false_iff, existsb_True. setoid_rewrite str_eqb_eq.
  naive_solver.
Qed.

(** The checks before the scope. *)
Lemma validate_authentic now token claims :
  (now ≤ u64_max)%N → authentic now token claims →
  validate A now token = fail_if InsufficientScope
    (negb (existsb (λ scope, scope =?s av_required_scope A)
             (split_ascii_whitespace (claim_scope claims)))).
Proof.
  intros Hnow [[Hne Hlen] (header & kid & jwk & key & Hh & Hk & Hf & _ & _ & Ha & Hs & Hkey & Hc)
    Hexp Hnbf].
  unfold validate. apply is_empty_false in Hne as ->.
  assert ((16 * 1024 <? str_len token)%N = false) as -> by by apply N.ltb_ge.
  simpl. rewrite Hh; simpl. rewrite Hk; simpl. rewrite Hf; simpl.
  rewrite (proj2 (jwk_algorithm_Some jwk (header_alg header)) (conj Ha Hs)); simpl.
  rewrite bool_decide_eq_true_2 by done. simpl. rewrite Hkey; simpl. rewrite Hc; simpl.
  rewrite (proj2 (times_ok now claims Hnow (claims_u64 _ _ _ _ _ _ Hc))) by done. done.
Qed.

Lemma validate_cases now token :
  (now ≤ u64_max)%N →
  validate A now token = Err InvalidToken ∨ ∃ claims, authentic now token claims.
Proof.
  intros Hnow. unfold validate.
  destruct (is_empty token || (16 * 1024 <? str_len token)%N) eqn:Hl; [by left|]. simpl.
  destruct (decode_header token) as [header|] eqn:Hh; [|by left]. simpl.
  destruct (header_kid header) as [kid|] eqn:Hk; [|by left]. simpl.
  destruct (find_key (av_keys A) kid) as [jwk|] eqn:Hf; [|by left]. simpl.
  destruct (jwk_algorithm jwk) as [algorithm|] eqn:Ha; [|by left]. simpl.
  case_bool_decide as Halg; [|by left]. simpl. subst algorithm.
  destruct (from_jwk jwk) as [key|] eqn:Hkey; [|by left]. simpl.
  destruct (decode_claims token key _ _ _) as [claims|] eqn:Hc; [|by left]. simpl.
  destruct (_ || is_some_and _ (claim_nbf claims)) eqn:Ht; [by left|]. simpl.
  right. exists claims. apply times_ok in Ht as [He Hn]; [|done|by eapply claims_u64].
  apply orb_false_iff in Hl as [Hne%is_empty_false Hlen%N.ltb_ge].
  destruct (find_key_Some _ _ _ Hf) as [Hin Hid]. apply jwk_algorithm_Some in Ha as [Ha Hs].
  split; [done| |done|done]. exists header, kid, jwk, key. split_and!; done.
Qed.

Lemma validate_accepted now token :
  (now ≤ u64_max)%N → validate A now token = Ok () →
  ∃ claims, authentic now token claims ∧ has_scope claims.
Proof.
  intros Hnow Hv. destruct (validate_cases now token Hnow) as [Hinv|[claims Hau]]; [congruence|].
  exists claims. split; [done|]. apply scope_check.
  rewrite (validate_authentic now token claims Hnow Hau) in Hv. by apply fail_if_ok in Hv.
Qed.

(** C31: which tokens the endpoint accepts. A token is accepted exactly when it is
    authentic and its scope names the required one; an authentic token without
    it is refused as insufficient, and everything else as invalid. Times do not
    wrap around: a token is in time exactly up to 30 seconds of skew, for every
    64-bit time. *)
Theorem access_token_iff now token :
  (now ≤ u64_max)%N →
  (validate A now token = Ok () ↔ ∃ claims, authentic now token claims ∧ has_scope claims) ∧
  (validate A now token = Err InsufficientScope ↔
     ∃ claims, authentic now token claims ∧ ¬ has_scope claims) ∧
  (validate A now token = Err InvalidToken ↔ ∀ claims, ¬ authentic now token claims).
Proof.
  intros Hnow. destruct (validate_cases now token Hnow) as [Hinv|[claims Hau]].
  - assert (∀ claims, ¬ authentic now token claims) as Hnone.
    { intros claims Hau. rewrite (validate_authentic _ _ claims) in Hinv by done.
      destruct (negb _); done. }
    rewrite Hinv. naive_solver.
  - assert (∀ claims', authentic now token claims' → (has_scope claims' ↔ has_scope claims)) as Hsame.
    { intros claims' Hau'. rewrite <-!scope_check.
      pose proof (validate_authentic now token claims Hnow Hau) as Hv.
      rewrite (validate_authentic now token claims' Hnow Hau') in Hv.
      destruct (negb _), (negb _); done. }
    rewrite (validate_authentic now token claims Hnow Hau). pose proof (scope_check claims) as Hsc.
    destruct (negb _); simpl.
    + assert (¬ has_scope claims) as Hno by (by rewrite <-Hsc). naive_solver.
    + assert (has_scope claims) as Hyes by (by rewrite <-Hsc). naive_solver.
Qed.
End tokens.

Module Example_auth.
Definition key : Jwk := mkJwk (Some $"k1") (Some (KeySigning ES256)) false $"material".
#[export] Instance jwt : Jwt := {|
  DecodingKey := str;
  find_key keys kid := find (λ jwk, bool_decide (jwk_key_id jwk = Some kid)) keys;
  decode_header token := Some (mkHeader ES256 (Some $"k1"));
  from_jwk jwk := Some (jwk_material jwk);
  decode_claims token key algorithm issuer audience :=
    Some (mkClaims u64_max (Some 130%N) $"openid tts29:publish");
|}.
#[export] Instance jwt_laws : JwtLaws.
Proof.
  split.
  - intros keys kid jwk (before & x & after & -> & Hx & _)%find_map_Some.
    case_bool_decide; simplify_eq. split; [set_solver|done].
  - intros ?????? [= <-] ? [= <-]. unfold u64_max. lia.
Qed.
Definition validator : AuthValidator :=
  mkValidator [key] $"https://auth" $"https://mcp" $"tts29:publish".
End Example_auth.
#[local] Existing Instances Example_auth.jwt Example_auth.jwt_laws.

(** A token that never expires and becomes valid within the skew. *)
Lemma access_token_iff_witness :
  validate Example_auth.validator 100 $"token" = Ok () ∧
  ∃ claims, authentic Example_auth.validator 100 $"token" claims ∧
    has_scope Example_auth.validator claims.
Proof.
  assert (validate Example_auth.validator 100 $"token" = Ok ()) as Hv by (vm_compute; reflexivity).
  split; [exact Hv|].
  exact (proj1 (proj1 (access_token_iff Example_auth.validator 100 $"token"
    ltac:(unfold u64_max; lia))) Hv).
Defined.
