(* ===== verification/McpConfig.v ===== *)
(** The configuration of the MCP endpoint ([mcp/src/config.rs]): a bounded JSON
    file every field of which is checked, and the addresses derived from the
    protected resource. The URL parser, the parser of socket addresses and the
    JSON decoder are parameters. *)

From S2P Require Export Paths Url.

Definition MAX_CONFIG_BYTES : N := 256 * 1024.
Definition MAX_HTTP_BYTES : N := 1024 * 1024.
Definition MAX_EXECUTION_SECONDS : N := 360.
Definition MAX_CONCURRENCY : N := 256.

Record FileConfig := mkFileConfig {
  fc_bind : str;
  fc_resource : str;
  fc_authorization_servers : list str;
  fc_issuer : str;
  fc_audience : str;
  fc_required_scope : str;
  fc_jwks_path : str;
  fc_daemon_socket_path : str;
  fc_tls_certificate_path : str;
  fc_tls_private_key_path : str;
  fc_allowed_hosts : list str;
  fc_allowed_origins : list str;
  fc_max_request_bytes : N;
  fc_max_response_bytes : N;
  fc_max_concurrency : N;
  fc_execution_timeout_seconds : N;
}.

(** [McpConfig]; a socket address is the text it was parsed from. *)
Record McpConfig := mkMcpConfig {
  mc_bind : str;
  mc_resource : str;
  mc_mcp_path : str;
  mc_metadata_path : str;
  mc_metadata_url : str;
  mc_authorization_servers : list str;
  mc_issuer : str;
  mc_audience : str;
  mc_required_scope : str;
  mc_jwks_path : str;
  mc_daemon_socket_path : str;
  mc_tls_certificate_path : str;
  mc_tls_private_key_path : str;
  mc_allowed_hosts : list str;
  mc_allowed_origins : list str;
  mc_max_request_bytes : N;
  mc_max_response_bytes : N;
  mc_max_concurrency : N;
  mc_execution_timeout_seconds : N;
}.

Definition resolve (base value : str) : str :=
  if is_absolute value then value else join_name base value.

(** [!(1..=max).contains(&value)]. *)
Definition outside (max value : N) : bool := ((value <? 1) || (max <? value))%N.

Definition validate_scope (value : str) : result str unit :=
  fail_if $"required_scope must be one printable OAuth scope token"
    (is_empty value || (128 <? str_len value)%N
     || existsb (λ byte, is_ascii_whitespace byte || is_ascii_control byte) (bytes value)).

(** The test of [validate_hosts] on one host. *)
Definition bad_host (value : str) : bool :=
  is_empty value || (value =?s $"*") || (255 <? str_len value)%N || contains $"//" value
  || contains_char 47 value || existsb is_ascii_whitespace (bytes value).
Definition validate_hosts (values : list str) : result str unit :=
  fail_if $"allowed_hosts must contain explicit host authorities"
    (is_empty values || (32 <? len values)%N || existsb bad_host values).

Definition validate_limits (file : FileConfig) : result str unit :=
  fail_if $"MCP request, response, concurrency, or execution limit is invalid"
    (outside MAX_HTTP_BYTES (fc_max_request_bytes file)
     || outside MAX_HTTP_BYTES (fc_max_response_bytes file)
     || outside MAX_CONCURRENCY (fc_max_concurrency file)
     || outside MAX_EXECUTION_SECONDS (fc_execution_timeout_seconds file)).

Section validate.
Context `{UrlParser} (is_socket_address : str → bool).

Definition secure_url (name value : str) : result str Url :=
  parsed ← ok_or (name ++ $" must be an absolute URL") (url_parse value);
  _ ← fail_if (name ++ $" must be a credential-free HTTPS URL")
        (negb (url_scheme parsed =?s $"https") || is_none (url_host_str parsed)
         || negb (is_empty (url_username parsed)) || negb (is_none (url_password parsed)));
  Ok parsed.

Definition validate_authorization_servers (file : FileConfig) : result str (list str) :=
  _ ← fail_if $"authorization_servers must contain between 1 and 8 issuers"
        (is_empty (fc_authorization_servers file)
         || (8 <? len (fc_authorization_servers file))%N);
  _ ← try_fold (λ _ server, _ ← secure_url $"authorization server" server; Ok ()) ()
        (fc_authorization_servers file);
  _ ← secure_url $"issuer" (fc_issuer file);
  _ ← fail_if $"issuer must appear in authorization_servers"
        (negb (bool_decide (fc_issuer file ∈ fc_authorization_servers file)));
  Ok (fc_authorization_servers file).

(** The body of the loop of [validate_origins]. *)
Definition validate_origin (value : str) : result str unit :=
  parsed ← secure_url $"allowed origin" value;
  fail_if $"allowed origins must not contain paths, queries, or fragments"
    (negb (url_path parsed =?s $"/") || negb (is_none (url_query parsed))
     || negb (is_none (url_fragment parsed))).
Definition validate_origins (values : list str) : result str unit :=
  _ ← fail_if $"allowed_origins must contain between 1 and 32 HTTPS origins"
        (is_empty values || (32 <? len values)%N);
  try_fold (λ _ value, validate_origin value) () values.

Definition metadata_path (resource : Url) : str :=
  $"/.well-known/oauth-protected-resource" ++ url_path resource.

Definition config_of (resource : Url) (authorization_servers : list str) (file : FileConfig)
    (base : str) : McpConfig :=
  mkMcpConfig (fc_bind file) (fc_resource file) (url_path resource) (metadata_path resource)
        (url_origin resource ++ metadata_path resource) authorization_servers (fc_issuer file)
        (fc_audience file) (fc_required_scope file) (resolve base (fc_jwks_path file))
        (resolve base (fc_daemon_socket_path file)) (resolve base (fc_tls_certificate_path file))
        (resolve base (fc_tls_private_key_path file)) (fc_allowed_hosts file)
        (fc_allowed_origins file) (fc_max_request_bytes file) (fc_max_response_bytes file)
        (fc_max_concurrency file) (fc_execution_timeout_seconds file).

Definition validate (file : FileConfig) (base : str) : result str McpConfig :=
  resource ← secure_url $"resource" (fc_resource file);
  _ ← fail_if $"resource must not contain a query or fragment"
        (negb (is_none (url_query resource)) || negb (is_none (url_fragment resource)));
  _ ← fail_if $"resource must identify the MCP endpoint path"
        ((url_path resource =?s $"/") || ends_with $"/" (url_path resource));
  _ ← fail_if $"audience must equal the protected resource URI"
        (negb (fc_audience file =?s fc_resource file));
  authorization_servers ← validate_authorization_servers file;
  _ ← validate_scope (fc_required_scope file);
  _ ← validate_hosts (fc_allowed_hosts file);
  _ ← validate_origins (fc_allowed_origins file);
  _ ← validate_limits file;
  _ ← fail_if $"bind must be an IP socket address" (negb (is_socket_address (fc_bind file)));
  Ok (config_of resource authorization_servers file base).

(** [read_bounded], given what can be read of the file. *)
Definition read_bounded (contents : result str (list N)) : result str (list N) :=
  data ← map_err (λ error, $"MCP config could not be read: " ++ error) contents;
  let data := take (N.to_nat (MAX_CONFIG_BYTES + 1)) data in
  _ ← fail_if $"MCP config exceeds the byte limit" (MAX_CONFIG_BYTES <? len data)%N;
  Ok data.

Definition load_config (path : str) (contents : result str (list N))
    (decode : list N → result str FileConfig) : result str McpConfig :=
  data ← read_bounded contents;
  file ← map_err (λ error, $"MCP config is invalid JSON: " ++ error) (decode data);
  validate file (default $"." (parent path)).
End validate.

(** ** What a valid configuration is *)
Section facts.
Context `{UrlParser} (is_socket_address : str → bool).

(** An HTTPS address without credentials. *)
Record secure (value : str) (url : Url) : Prop := {
  se_parse : url_parse value = Some url;
  se_scheme : url_scheme url = $"https";
  se_host : is_Some (url_host_str url);
  se_username : url_username url = [];
  se_password : url_password url = None;
}.

Lemma secure_url_Ok name value url : secure_url name value = Ok url ↔ secure value url.
Proof.
  unfold secure_url. split.
  - intros Hv. okay Hv as parsed Hp. apply ok_or_ok in Hp. passed Hv as [[[Hs Hh] Hu] Hw].
    injection Hv as ->. by split.
  - intros [Hp Hs Hh Hu Hw]. rewrite Hp. simpl. rewrite Hs, Hu, Hw, str_eqb_refl.
    by rewrite (is_none_Some (url_host_str url)).
Qed.

(** A loop of checks passes when each of them does. *)
Lemma try_fold_all {A} (check : A → result str unit) (l : list A) :
  try_fold (λ _ x, check x) () l = Ok () ↔ Forall (λ x, check x = Ok ()) l.
Proof.
  induction l as [|x l IH]; simpl; [by split; [constructor|]|]. rewrite Forall_cons, <-IH.
  destruct (check x) as [[]|]; simpl; naive_solver.
Qed.

Lemma outside_false max value : outside max value = false ↔ (1 ≤ value ≤ max)%N.
Proof. unfold outside. reflect. lia. Qed.

Record host_valid (value : str) : Prop := {
  ho_length : value ≠ [] ∧ (str_len value ≤ 255)%N;
  ho_wildcard : value ≠ $"*";
  ho_separator : contains $"//" value = false ∧ contains_char 47 value = false;
  ho_plain : Forall (λ b, is_ascii_whitespace b = false) (bytes value);
}.

Lemma bad_host_false value : bad_host value = false ↔ host_valid value.
Proof.
  unfold bad_host. rewrite !orb_false_iff, is_empty_false, str_eqb_neq, N.ltb_ge, existsb_False.
  split; [intros [[[[[? ?] ?] ?] ?] ?]|intros [[? ?] ? [? ?] ?]]; [by split|done].
Qed.

Record origin_valid (value : str) : Prop := {
  og_url : ∃ url, secure value url ∧ url_path url = $"/" ∧ url_query url = None ∧
    url_fragment url = None;
}.

Lemma validate_origin_iff value : validate_origin value = Ok () ↔ origin_valid value.
Proof.
  unfold validate_origin. split.
  - intros Hv. okay Hv as url Hu. apply secure_url_Ok in Hu. apply fail_if_ok in Hv. reflect_in Hv.
    destruct Hv as [[Hp Hq] Hf]. split. by exists url.
  - intros [(url & Hs & Hp & Hq & Hf)]. apply (secure_url_Ok $"allowed origin") in Hs.
    rewrite Hs. simpl. by rewrite Hp, Hq, Hf, str_eqb_refl.
Qed.

(** Everything a configuration must satisfy, for its parsed resource. *)
Record config_valid (file : FileConfig) (resource : Url) : Prop := {
  cf_resource : secure (fc_resource file) resource;
  cf_plain : url_query resource = None ∧ url_fragment resource = None;
  cf_path : url_path resource ≠ $"/" ∧ ends_with $"/" (url_path resource) = false;
  cf_audience : fc_audience file = fc_resource file;
  cf_servers : (1 ≤ len (fc_authorization_servers file) ≤ 8)%N ∧
    Forall (λ server, ∃ url, secure server url) (fc_authorization_servers file);
  cf_issuer : (∃ url, secure (fc_issuer file) url) ∧
    fc_issuer file ∈ fc_authorization_servers file;
  cf_scope : fc_required_scope file ≠ [] ∧ (str_len (fc_required_scope file) ≤ 128)%N ∧
    Forall (λ b, is_ascii_whitespace b = false ∧ is_ascii_control b = false)
      (bytes (fc_required_scope file));
  cf_hosts : (1 ≤ len (fc_allowed_hosts file) ≤ 32)%N ∧ Forall host_valid (fc_allowed_hosts file);
  cf_origins : (1 ≤ len (fc_allowed_origins file) ≤ 32)%N ∧
    Forall origin_valid (fc_allowed_origins file);
  cf_request_bytes : (1 ≤ fc_max_request_bytes file ≤ 1048576)%N;
  cf_response_bytes : (1 ≤ fc_max_response_bytes file ≤ 1048576)%N;
  cf_concurrency : (1 ≤ fc_max_concurrency file ≤ 256)%N;
  cf_execution : (1 ≤ fc_execution_timeout_seconds file ≤ 360)%N;
  cf_bind : is_socket_address (fc_bind file) = true;
}.

(** A list that is neither empty nor too long. *)
Lemma size_check {A} (max : N) (l : list A) :
  is_empty l || (max <? len l)%N = false ↔ (1 ≤ len l ≤ max)%N.
Proof.
  rewrite orb_false_iff, is_empty_false, N.ltb_ge. destruct l; [naive_solver (done || lia)|].
  rewrite len_cons. split; [lia|]. intros. split; [done|lia].
Qed.

Lemma validate_servers_iff file servers :
  validate_authorization_servers file = Ok servers ↔
  servers = fc_authorization_servers file ∧
  ((1 ≤ len (fc_authorization_servers file) ≤ 8)%N ∧
   Forall (λ server, ∃ url, secure server url) (fc_authorization_servers file)) ∧
  (∃ url, secure (fc_issuer file) url) ∧ fc_issuer file ∈ fc_authorization_servers file.
Proof.
  assert (∀ name value, (_ ← secure_url name value; Ok () : result str unit) = Ok () ↔
    ∃ url, secure value url) as Hone.
  { intros name value. rewrite bind_ok. setoid_rewrite secure_url_Ok. naive_solver. }
  unfold validate_authorization_servers. rewrite <-size_check. split.
  - intros Hv. apply bind_ok in Hv as ([] & Hs%fail_if_ok & Hv). okay Hv as [] Hall.
    okay Hv as url Hu. apply secure_url_Ok in Hu. passed Hv as Hin. injection Hv as Hv; subst servers.
    apply (try_fold_all (λ server, _ ← secure_url _ server; Ok ())) in Hall.
    split_and!; try done; [|by exists url].
    eapply Forall_impl; [exact Hall|]. intros server. apply Hone.
  - intros (-> & [Hs Hall] & [url Hu] & Hin). rewrite Hs. simpl.
    rewrite (proj2 (try_fold_all (λ server, _ ← secure_url $"authorization server" server; Ok ()) _)).
    2:{ eapply Forall_impl; [exact Hall|]. intros server. apply Hone. }
    simpl. apply (secure_url_Ok $"issuer") in Hu. rewrite Hu. simpl.
    by rewrite bool_decide_eq_true_2.
Qed.

Lemma validate_scope_iff value :
  validate_scope value = Ok () ↔
  value ≠ [] ∧ (str_len value ≤ 128)%N ∧
  Forall (λ b, is_ascii_whitespace b = false ∧ is_ascii_control b = false) (bytes value).
Proof.
  unfold validate_scope. rewrite fail_if_ok, !orb_false_iff, is_empty_false, N.ltb_ge, existsb_False.
  rewrite (Forall_iff _ _ _ (λ b, orb_false_iff (is_ascii_whitespace b) (is_ascii_control b))). tauto.
Qed.

Lemma validate_hosts_iff values :
  validate_hosts values = Ok () ↔ (1 ≤ len values ≤ 32)%N ∧ Forall host_valid values.
Proof.
  unfold validate_hosts. rewrite fail_if_ok, orb_false_iff, size_check, existsb_False.
  setoid_rewrite bad_host_false. done.
Qed.

Lemma validate_origins_iff values :
  validate_origins values = Ok () ↔ (1 ≤ len values ≤ 32)%N ∧ Forall origin_valid values.
Proof.
  unfold validate_origins.
  rewrite <-size_check, <-(Forall_iff _ _ _ (λ value, validate_origin_iff value)).
  rewrite <-(try_fold_all validate_origin). destruct (_ || _); simpl; [|naive_solver].
  split; [done|by intros [? _]].
Qed.

Lemma mcp_limits_iff file :
  validate_limits file = Ok () ↔
  (1 ≤ fc_max_request_bytes file ≤ 1048576)%N ∧ (1 ≤ fc_max_response_bytes file ≤ 1048576)%N ∧
  (1 ≤ fc_max_concurrency file ≤ 256)%N ∧ (1 ≤ fc_execution_timeout_seconds file ≤ 360)%N.
Proof.
  unfold validate_limits. rewrite fail_if_ok, !orb_false_iff, !outside_false.
  unfold MAX_HTTP_BYTES, MAX_CONCURRENCY, MAX_EXECUTION_SECONDS.
  change (1024 * 1024)%N with 1048576%N. tauto.
Qed.

(** The endpoint starts only with a sound configuration. A file is accepted
    exactly when its resource is an HTTPS address with a path, without
    credentials, query or fragment, the audience is that resource, the issuer
    is one of one to eight HTTPS authorization servers, the scope is one
    printable token, the one to thirty-two allowed hosts and origins are
    explicit, and the request, response, concurrency and execution limits are
    within their bounds; and the paths and addresses that are derived are those
    of the resource and of the directory of the file. *)
Theorem mcp_config_iff file base config :
  validate is_socket_address file base = Ok config ↔
  ∃ resource, config_valid file resource ∧
    config = config_of resource (fc_authorization_servers file) file base.
Proof.
  unfold validate. split.
  - intros Hv. okay Hv as resource Hr. apply secure_url_Ok in Hr. passed Hv as [Hq Hf].
    passed Hv as [Hp He]. passed Hv as Ha. okay Hv as servers Hs.
    apply validate_servers_iff in Hs as (-> & Hs & Hi). okay Hv as [] Hsc.
    apply validate_scope_iff in Hsc. okay Hv as [] Hh. apply validate_hosts_iff in Hh.
    okay Hv as [] Ho. apply validate_origins_iff in Ho. okay Hv as [] Hl.
    apply mcp_limits_iff in Hl as (? & ? & ? & ?). passed Hv as Hb. injection Hv as <-.
    exists resource. split; [|done]. by split.
  - intros (resource & [Hr [Hq Hf] [Hp He] Ha Hs Hi Hsc Hh Ho H1 H2 H3 H4 Hb] & ->).
    apply (secure_url_Ok $"resource") in Hr. rewrite Hr. simpl. rewrite Hq, Hf. simpl.
    apply str_eqb_neq in Hp as ->. rewrite He. simpl. rewrite Ha, str_eqb_refl. simpl.
    rewrite (proj2 (validate_servers_iff file _) (conj eq_refl (conj Hs Hi))). simpl.
    rewrite (proj2 (validate_scope_iff _) Hsc). simpl.
    rewrite (proj2 (validate_hosts_iff _) Hh). simpl.
    rewrite (proj2 (validate_origins_iff _) Ho). simpl.
    rewrite (proj2 (mcp_limits_iff file)) by done. simpl. by rewrite Hb.
Qed.
End facts.
