(* ===== verification/McpIngress.v ===== *)
(** The protection of the MCP endpoint ([mcp/src/ingress.rs]): every request is
    authorized, bounded in size and time, and admitted only while fewer than the
    configured number of requests are in the handler. Requests are served
    concurrently, one await at a time; a permit is returned on every way out,
    including a client that goes away. *)

From S2P Require Export McpAuth.

(** The parts of a request that are read: its query, the values of its
    [Authorization] headers ([None] for one that is not visible ASCII), and its
    body, which may break off. *)
Record Request := mkRequest {
  rq_query : option str;
  rq_authorization : list (option str);
  rq_body : list N;
  rq_body_broken : bool;
}.

Record Response := mkResponse {
  rs_status : N;
  rs_challenge : option str;        (** [WWW-Authenticate] *)
  rs_body : list N;
  rs_body_broken : bool;
}.

(** [str::split_once(' ')]. *)
Fixpoint split_once (sep : N) (s : str) : option (str * str) :=
  match s with
  | [] => None
  | c :: s =>
      if (c =? sep)%N then Some ([], s)
      else '(before, after) ← split_once sep s; Some (c :: before, after)
  end.

Definition bearer_token (values : list (option str)) : option str :=
  match values with
  | [] | None :: _ => None
  | Some value :: rest =>
      _ ← reject_if (negb (is_empty rest));
      '(scheme, token) ← split_once 32 value;
      then_some (eq_ignore_ascii_case scheme $"Bearer" && negb (is_empty token)
                 && negb (existsb is_ascii_whitespace (bytes token))) token
  end.

(** [IngressState], without its semaphore. *)
Record IngressState := mkIngress {
  is_auth : AuthValidator;
  is_concurrency : nat;
  is_max_request_bytes : N;
  is_max_response_bytes : N;
  is_resource_metadata : str;
  is_required_scope : str;
}.

(** Where a request is in [protect]. *)
Inductive Stage :=
  | Arrived (request : Request)
  | Reading (request : Request)          (** holds a permit; before [to_bytes] *)
  | Running (data : list N)              (** holds a permit; in the handler *)
  | Bounding (response : Response)       (** the permit is dropped *)
  | Finished (response : Response)
  | Gone.                                (** the client went away *)

Inductive Action :=
  | Arrive (request : Request)
  | Admit (i : nat) (now : N)
  | Read (i : nat)
  | Answer (i : nat) (response : Response)
  | TimeOut (i : nat)
  | Bound (i : nat)
  | Disconnect (i : nat).

(** The semaphore and the requests. *)
Record Ingress := mkState { in_permits : nat; in_requests : list Stage }.

Section ingress.
(** The keys of [url::form_urlencoded::parse], whether [HeaderValue::from_str]
    accepts a text, and [serde_json] on the body of an error. *)
Context (query_keys : str → list str) (header_value : str → bool) (error_body : str → list N).
Context `{Jwt} (I : IngressState).

Definition has_query_token (query : option str) : bool :=
  is_some_and (λ value, existsb (λ key, key =?s $"access_token") (query_keys value)) query.

Definition json_error (status : N) (code : str) : Response :=
  mkResponse status None (error_body code) false.

Definition failure_code (failure : AuthFailure) : N * str :=
  match failure with
  | InvalidToken => (401%N, $"invalid_token")
  | InsufficientScope => (403%N, $"insufficient_scope")
  end.

(** A double quote. *)
Definition quoted (s : str) : str := 34%N :: s ++ [34%N].

Definition challenge (failure : AuthFailure) (include_error : bool) : str :=
  $"Bearer resource_metadata=" ++ quoted (is_resource_metadata I)
  ++ $", scope=" ++ quoted (is_required_scope I)
  ++ (if include_error || match failure with InsufficientScope => true | _ => false end
      then $", error=" ++ quoted (failure_code failure).2 else []).

Definition auth_error (failure : AuthFailure) (include_error : bool) : Response :=
  let '(status, error) := failure_code failure in
  let text := challenge failure include_error in
  mkResponse status (if header_value text then Some text else None) (error_body error) false.

(** [axum::body::to_bytes]. *)
Definition to_bytes (data : list N) (broken : bool) (limit : N) : option (list N) :=
  if broken || (limit <? len data)%N then None else Some data.

Definition bound_response (response : Response) : Response :=
  match to_bytes (rs_body response) (rs_body_broken response) (is_max_response_bytes I) with
  | Some data => mkResponse (rs_status response) (rs_challenge response) data false
  | None => json_error 500 $"response_too_large"
  end.

(** The checks of [protect] before the permit. *)
Definition refuse (request : Request) (now : N) : option Response :=
  if has_query_token (rq_query request) then Some (json_error 400 $"invalid_request")
  else match bearer_token (rq_authorization request) with
    | None => Some (auth_error InvalidToken false)
    | Some token =>
        match validate (is_auth I) now token with
        | Err error => Some (auth_error error true)
        | Ok _ => None
        end
    end.

Definition set_stage (i : nat) (stage : Stage) (permits : nat) (s : Ingress) : Ingress :=
  mkState permits (<[i:=stage]> (in_requests s)).

(** [protect], one await at a time. *)
Definition protect_step (action : Action) (s : Ingress) : option Ingress :=
  let permits := in_permits s in
  match action with
  | Arrive request => Some (mkState permits (in_requests s ++ [Arrived request]))
  | Admit i now =>
      match in_requests s !! i with
      | Some (Arrived request) =>
          match refuse request now, permits with
          | Some response, _ => Some (set_stage i (Finished response) permits s)
          | None, O => Some (set_stage i (Finished (json_error 503 $"server_busy")) permits s)
          | None, S permits => Some (set_stage i (Reading request) permits s)
          end
      | _ => None
      end
  | Read i =>
      match in_requests s !! i with
      | Some (Reading request) =>
          match to_bytes (rq_body request) (rq_body_broken request) (is_max_request_bytes I) with
          | Some data => Some (set_stage i (Running data) permits s)
          | None =>
              Some (set_stage i (Finished (json_error 413 $"request_too_large")) (S permits) s)
          end
      | _ => None
      end
  | Answer i response =>
      match in_requests s !! i with
      | Some (Running _) => Some (set_stage i (Bounding response) (S permits) s)
      | _ => None
      end
  | TimeOut i =>
      match in_requests s !! i with
      | Some (Running _) =>
          Some (set_stage i (Finished (json_error 504 $"request_timed_out")) (S permits) s)
      | _ => None
      end
  | Bound i =>
      match in_requests s !! i with
      | Some (Bounding response) =>
          Some (set_stage i (Finished (bound_response response)) permits s)
      | _ => None
      end
  | Disconnect i =>
      match in_requests s !! i with
      | Some (Reading _ | Running _) => Some (set_stage i Gone (S permits) s)
      | Some (Arrived _ | Bounding _) => Some (set_stage i Gone permits s)
      | _ => None
      end
  end.

Definition ingress_new : Ingress := mkState (is_concurrency I) [].
Definition ingress_step (s s' : Ingress) : Prop := ∃ action, protect_step action s = Some s'.

(** ** The invariant *)

(** A request that carries its token in one header, not in the query, and whose
    token was accepted at some time. *)
Definition authorized (request : Request) : Prop :=
  ∃ token now, has_query_token (rq_query request) = false ∧
    bearer_token (rq_authorization request) = Some token ∧
    validate (is_auth I) now token = Ok ().

(** The refusals and failures of [protect] itself. *)
Definition own_response (response : Response) : Prop :=
  (∃ status code, response = json_error status code) ∨
  ∃ failure include_error, response = auth_error failure include_error.

Definition stage_ok (stage : Stage) : Prop :=
  match stage with
  | Arrived _ | Bounding _ | Gone => True
  | Reading request => authorized request
  | Running data =>
      (len data ≤ is_max_request_bytes I)%N ∧
      ∃ request, authorized request ∧ data = rq_body request
  | Finished response =>
      own_response response ∨
      rs_body_broken response = false ∧ (len (rs_body response) ≤ is_max_response_bytes I)%N
  end.

(** The permits a request holds. *)
Definition holds (stage : Stage) : nat :=
  match stage with Reading _ | Running _ => 1 | _ => 0 end.
Definition held (s : Ingress) : nat := sum_list_with holds (in_requests s).

Record ingress_inv (s : Ingress) : Prop := {
  ii_permits : in_permits s + held s = is_concurrency I;
  ii_stages : Forall stage_ok (in_requests s);
}.

Lemma ingress_new_inv : ingress_inv ingress_new.
Proof. split; [unfold held; simpl; lia|constructor]. Qed.

(** A request moves, and the permits with it. *)
Lemma set_stage_inv i stage stage' permits s :
  ingress_inv s → in_requests s !! i = Some stage → stage_ok stage' →
  permits + holds stage' = in_permits s + holds stage →
  ingress_inv (set_stage i stage' permits s).
Proof.
  intros [Hp Hs] Hi Hok Hn. split; simpl; [|by apply Forall_insert].
  pose proof (sum_list_insert holds _ _ _ stage' Hi). unfold held in *. simpl. lia.
Qed.

Lemma refuse_None request now : refuse request now = None → authorized request.
Proof.
  unfold refuse, authorized. destruct (has_query_token _) eqn:Hq; [done|].
  destruct (bearer_token _) as [token|] eqn:Hb; [|done].
  destruct (validate _ now token) as [[]|] eqn:Hv; [|done]. by exists token, now.
Qed.

Lemma refuse_Some request now response : refuse request now = Some response → own_response response.
Proof.
  unfold refuse, own_response. destruct (has_query_token _); [intros [= <-]; left; by eexists _, _|].
  destruct (bearer_token _) as [token|]; [|intros [= <-]; right; by eexists _, _].
  destruct (validate _ now token); [done|]. intros [= <-]. right. by eexists _, _.
Qed.

Lemma to_bytes_Some data broken limit data' :
  to_bytes data broken limit = Some data' → data' = data ∧ (len data ≤ limit)%N.
Proof.
  unfold to_bytes. destruct (broken || _) eqn:Hb; [done|]. intros [= <-]. reflect.
  by destruct Hb.
Qed.

Lemma bound_response_ok response : stage_ok (Finished (bound_response response)).
Proof.
  unfold bound_response. destruct (to_bytes _ _ _) as [data|] eqn:Ht; simpl.
  - apply to_bytes_Some in Ht as [-> Hl]. by right.
  - left. left. by eexists _, _.
Qed.

Lemma protect_step_inv action s s' :
  protect_step action s = Some s' → ingress_inv s → ingress_inv s'.
Proof.
  intros Hs Hinv. assert (∀ status code, stage_ok (Finished (json_error status code))) as Herr
    by (intros; left; left; by eexists _, _).
  destruct action as [request|i now|i|i response|i|i|i]; simpl in Hs;
    [|destruct (in_requests s !! i) as [stage|] eqn:Hi; [|done];
      pose proof (proj1 (Forall_lookup _ _) (ii_stages _ Hinv) _ _ Hi) as Hok;
      destruct stage as [request|request|data|response'|response'|]; try done..].
  - injection Hs as <-. destruct Hinv as [Hp Hall]. split; simpl.
    + rewrite <-Hp. unfold held. simpl. rewrite sum_list_with_app. simpl. lia.
    + apply Forall_app. by repeat constructor.
  - destruct (refuse request now) as [response|] eqn:Hr.
    + injection Hs as <-. eapply set_stage_inv; [done..|left; by eapply refuse_Some|simpl; lia].
    + destruct (in_permits s) as [|permits] eqn:Hp; injection Hs as <-;
        (eapply set_stage_inv; [done..| |simpl; lia]); [done|by eapply refuse_None].
  - destruct (to_bytes _ _ _) as [data|] eqn:Ht; injection Hs as <-;
      (eapply set_stage_inv; [done..| |simpl; lia]); [|done].
    apply to_bytes_Some in Ht as [-> Hl]. split; [done|]. by exists request.
  - injection Hs as <-. eapply set_stage_inv; [done..|simpl; lia].
  - injection Hs as <-. eapply set_stage_inv; [done..|simpl; lia].
  - injection Hs as <-. eapply set_stage_inv; [done..|apply bound_response_ok|simpl; lia].
  - injection Hs as <-. eapply set_stage_inv; [done..|simpl; lia].
  - injection Hs as <-. eapply set_stage_inv; [done..|simpl; lia].
  - injection Hs as <-. eapply set_stage_inv; [done..|simpl; lia].
  - injection Hs as <-. eapply set_stage_inv; [done..|simpl; lia].
Qed.

(** A schedule of actions, run one after the other. *)
Definition run_actions (s : Ingress) (actions : list Action) : option Ingress :=
  try_fold (λ s action, protect_step action s) s actions.

Lemma run_actions_rtc actions : ∀ s s', run_actions s actions = Some s' → rtc ingress_step s s'.
Proof.
  induction actions as [|action actions IH]; intros s s' Hs; simpl in *.
  - by injection Hs as <-.
  - apply bind_Some' in Hs as (s1 & Ha & Hs). eapply rtc_l; [by exists action|by apply IH].
Qed.

(** C15: however requests arrive, are served, time out and go away, the permits
    that are free and the requests that hold one always add up to the
    configured concurrency, so that never more requests than that are in the
    handler and none of the permits is ever lost; the handler only ever sees
    the complete body, within the limit, of a request whose bearer token was
    accepted; and every response that leaves is one of the endpoint's own or
    complete and within the limit. *)
Theorem ingress_bounded s :
  rtc ingress_step ingress_new s →
  in_permits s + held s = is_concurrency I ∧ held s ≤ is_concurrency I ∧
  ∀ i stage, in_requests s !! i = Some stage → stage_ok stage.
Proof.
  intros Hs. assert (ingress_inv s) as [Hp Hall].
  { pose proof ingress_new_inv as Hinv. induction Hs as [|s1 s2 s3 [action Hstep] _ IH]; [done|].
    apply IH. by eapply protect_step_inv. }
  split; [done|]. split; [lia|]. intros i stage Hi. by apply (proj1 (Forall_lookup _ _) Hall i).
Qed.
End ingress.

(** Two requests on an endpoint that serves one at a time: the second one is
    turned away while the first one is in the handler. *)
Module Example_ingress.
Definition state : IngressState :=
  mkIngress Example_auth.validator 1 100 100 $"https://mcp/meta" $"tts29:publish".
Definition request : Request := mkRequest None [Some $"bearer token"] [1; 2; 3]%N false.
Definition actions : list Action :=
  [Arrive request; Arrive request; Admit 0 200; Admit 1 200; Read 0].
Definition run : option Ingress :=
  @run_actions (λ _, []) (λ _, true) bytes Example_auth.jwt state (ingress_new state) actions.
End Example_ingress.

Lemma ingress_bounded_witness :
  ∃ s, Example_ingress.run = Some s ∧
    in_requests s = [Running [1; 2; 3]%N; Finished (json_error bytes 503 $"server_busy")] ∧
    in_permits s + held s = 1 ∧ held s ≤ 1.
Proof.
  destruct Example_ingress.run as [s|] eqn:Hrun; [|vm_compute in Hrun; discriminate].
  exists s. split; [done|]. split.
  - vm_compute in Hrun. injection Hrun as <-. vm_compute. reflexivity.
  - pose proof (@ingress_bounded (λ _, []) (λ _, true) bytes Example_auth.jwt
      Example_ingress.state s (run_actions_rtc _ _ _ _ _ _ _ Hrun)) as (Hsum & Hle & _).
    by split.
Defined.
