(* ===== verification/Startup.v ===== *)
(** Starting the daemon ([ProductionProducer::open_with_clock] in
    [daemon/src/production.rs]): from the configuration to a producer whose key
    is installed and active, whose group is there, and whose capabilities are
    built. The composition of [DaemonIdentity], [Bootstrap], [Kokoro] and
    [Blossom], over one file system and one engine. *)

From S2P Require Export DaemonConfig DaemonIdentity Bootstrap.

(** [Engine::new] with a store, and [Engine::set_active_account]. *)
Class EngineStart (E : Type) := {
  open_engine : option str → io E str unit;
  set_active_account : PublicKey → io E str unit;
}.

Section startup.
Context `{Nip29, Hashing, UrlParser} {E : Type}.
Context `{!ProducerEnv E, !WorkDir E, !DaemonEngine E, !BlossomClient E, !EngineStart E}.
Context (fault : nat → option nat) (random_bytes : nat → list N).
Context (status_debug : WriteStatus → str) (token : str → result str str).

#[local] Abbreviation world := (@IdentityWorld E).
#[local] Abbreviation M := (io world str).

(** What [ProductionProducer] is built from; the clients of the capabilities
    and the handles on the engine are left out. *)
Record ProductionProducer := mkProducer {
  op_host : RelayUrl;
  op_account : Registration;
  op_author : str;
  op_group_id : str;
  op_default_voice : str;
  op_synthesizer : KokoroSynthesizer;
  op_uploader : BlossomArtifactUploader;
  op_file_uploader : BlossomArtifactUploader;
  op_journal_root : str;
  op_work_root : str;
  op_bootstrap : GroupBootstrapEvidence;
}.

(** [clock.unix_millis() / 1_000]. *)
Definition now_secs : M N := on_engine (λ e, let '(millis, e) := unix_millis e in (Ok (millis / 1000)%N, e)).

(** [FileJobJournal::open] and the directory of [ProducerRunner::new], with the
    text of their errors. *)
Definition open_journal (root : str) : M unit :=
  io_map_err (λ error, journal_error_message (JournalIo error)) (on_engine (create_dir_all root)).
Definition open_work_root (root : str) : M unit :=
  io_map_err (λ error, producer_error_message (ProducerJournal (JournalIo error)))
    (on_engine (create_dir_all root)).

Definition open_with_clock (config : ProductionConfig) : M ProductionProducer :=
  let group_id := pc_group_id config in
  _ ← io_lift (fail_if $"configured group id is invalid"
                 (is_empty group_id || (128 <? str_len group_id)%N));
  host ← io_lift (ok_or $"configured NIP-29 host is invalid" (relay_parse (pc_host config)));
  owner_key ← io_lift (ok_or $"configured owner public key is invalid"
                         (pk_parse (pc_owner_pubkey config)));
  _ ← io_map_err (λ error, $"NMP engine refused startup: " ++ error)
        (on_engine (open_engine (pc_nmp_store_path config)));
  account ← install_daemon_identity fault random_bytes (pc_daemon_identity_path config)
              (pc_secret_key_override config);
  let author_key := registered_key account in
  _ ← io_map_err (λ error, $"NMP producer identity could not activate: " ++ error)
        (on_engine (set_active_account author_key));
  now ← now_secs;
  bootstrap ← on_engine (bootstrap_group status_debug token host group_id author_key owner_key now);
  synthesizer ← io_lift (new_synthesizer (pc_kokoro config));
  uploader ← io_lift (new_uploader author_key (pc_blossom config));
  file_uploader ← io_lift (new_uploader author_key (pc_blossom config));
  _ ← open_journal (pc_journal_root config);
  _ ← open_work_root (pc_work_root config);
  mret (mkProducer host account (pk_hex author_key) group_id (pc_default_voice config)
          synthesizer uploader file_uploader (pc_journal_root config) (pc_work_root config)
          bootstrap).
End startup.

(** ** What a daemon that started has *)
Section facts.
Context `{Nip29Laws, Hashing, UrlParser} {E : Type}.
Context `{!ProducerEnv E, !WorkDir E, !DaemonEngine E, !BlossomClient E, !EngineStart E}.
Context (fault : nat → option nat) (random_bytes : nat → list N).
Context (status_debug : WriteStatus → str) (token : str → result str str).
Hypothesis random_ok :
  ∀ k, length (random_bytes k) = 32 ∧ Forall (λ b, b < 256)%N (random_bytes k).

#[local] Abbreviation world := (@IdentityWorld E).

(** The files a start may write: that of the key, and only when there was none
    and the deployment gives no key. *)
Record key_file (config : ProductionConfig) (w w' : world) : Prop := {
  kf_others : only_path (pc_daemon_identity_path config) w w';
  kf_kept : is_Some (pc_secret_key_override config) ∨
    is_Some (w_files (iw_files w) !! pc_daemon_identity_path config) → disk w' = disk w;
}.

(** The account is that of the daemon's secret, and the next start finds it. *)
Definition key_installed (config : ProductionConfig) (w' : world) (account : Registration) : Prop :=
  ∃ secret, registered secret account ∧
    match pc_secret_key_override config with
    | Some given => secret = given
    | None => ∀ later : world,
        w_files (iw_files later) !! pc_daemon_identity_path config
          = w_files (iw_files w') !! pc_daemon_identity_path config →
        iw_meta later !! pc_daemon_identity_path config
          = iw_meta w' !! pc_daemon_identity_path config →
        fault (w_steps (iw_files later)) = None → fault (S (w_steps (iw_files later))) = None →
        (load_identity fault (pc_daemon_identity_path config) later).1 = Ok (Some secret)
    end.

(** What the engine went through: its store was opened; the key was installed
    and made active; the group was brought up with it, at the time of the clock,
    from there; then the two directories were made. *)
Definition engine_started (config : ProductionConfig) (w : world) (host : RelayUrl)
    (owner : PublicKey) (account : Registration) (evidence : GroupBootstrapEvidence)
    (w' : world) : Prop :=
  let daemon := registered_key account in
  ∃ (w1 w2 : world) active millis now up journal,
    open_engine (pc_nmp_store_path config) (iw_env w) = (Ok (), iw_env w1) ∧ disk w1 = disk w ∧
    install_daemon_identity fault random_bytes (pc_daemon_identity_path config)
      (pc_secret_key_override config) w1 = (Ok account, w2) ∧
    set_active_account daemon (iw_env w2) = (Ok (), active) ∧
    unix_millis active = (millis, now) ∧
    brought_up status_debug host (pc_group_id config) daemon owner (millis / 1000)
      now evidence up ∧
    create_dir_all (pc_journal_root config) up = (Ok (), journal) ∧
    create_dir_all (pc_work_root config) journal = (Ok (), iw_env w').

Lemma key_file_disk config w w1 w' : disk w' = disk w1 → key_file config w w1 → key_file config w w'.
Proof.
  intros Hd [Ho Hk]. split; [|intros; rewrite Hd; auto].
  eapply only_path_trans; [exact Ho|by apply only_path_disk].
Qed.

Lemma key_installed_disk config (w1 w' : world) account :
  disk w' = disk w1 → key_installed config w1 account → key_installed config w' account.
Proof. intros [= Hc Hm]. unfold key_installed. by rewrite Hc, Hm. Qed.

Lemma engine_step {X A} (m : io E X A) (w : world) a w' :
  on_engine m w = (Ok a, w') → disk w' = disk w ∧ m (iw_env w) = (Ok a, iw_env w').
Proof.
  intros Hm. split; [by apply on_engine_disk in Hm|].
  unfold on_engine in Hm. destruct (m (iw_env w)) as [r e]. by injection Hm as -> <-.
Qed.

Lemma new_uploader_ok author config (u : BlossomArtifactUploader) :
  new_uploader author config = Ok u →
  bu_author u = author ∧ (1 ≤ bu_authorization_lifetime u)%N ∧ (1 ≤ bu_max_upload_bytes u)%N ∧
  bu_authorization_lifetime u = bc_authorization_lifetime_seconds config ∧
  bu_max_upload_bytes u = bc_max_upload_bytes config.
Proof.
  unfold new_uploader. intros Hu. passed Hu as [Hl Hb]. okay Hu as server Hs. injection Hu as <-.
  simpl. split_and!; [done|lia|lia|done..].
Qed.

Lemma new_synthesizer_ok config s :
  new_synthesizer config = Ok s →
  validated_endpoint config = Ok (ks_endpoint s) ∧ ks_auth s = kc_auth config ∧
  ks_max_audio_bytes s = kc_max_audio_bytes config ∧ (1 ≤ ks_max_audio_bytes s)%N.
Proof.
  unfold new_synthesizer. intros Hn. okay Hn as endpoint He. passed Hn as Hb. injection Hn as <-.
  simpl. split_and!; [done..|lia].
Qed.

(** Installing the key, for the configured path. *)
Lemma install_step config (w : world) account w' :
  install_daemon_identity fault random_bytes (pc_daemon_identity_path config)
    (pc_secret_key_override config) w = (Ok account, w') →
  key_file config w w' ∧ key_installed config w' account.
Proof.
  intros Hi. apply install_kept in Hi as (Ho & Hk & Hs); [|done]. split; [by split|].
  destruct (Hs account eq_refl) as (secret & Hr & Hsecret). exists secret. split; [done|].
  destruct (pc_secret_key_override config); [done|]. by destruct Hsecret.
Qed.

(** C34: a daemon that starts is complete. Its group id has between 1 and 128
    bytes; its account is that of the configured secret, or of the secret in
    its private key file, which the next start loads again, and no other file
    was touched. On the engine, in this order: the store was opened, the account
    installed and made active, and the group brought up with it for the
    configured owner, by what the engine then showed of the group, before the
    directories of the journal and of the work were made. Everything it signs and
    uploads is in its name; and the capabilities have the configured addresses
    and limits, none of which is zero. *)
Theorem daemon_start_complete config (w : world) producer w' :
  open_with_clock fault random_bytes status_debug token config w = (Ok producer, w') →
  (1 ≤ str_len (pc_group_id config) ≤ 128)%N ∧
  key_file config w w' ∧ key_installed config w' (op_account producer) ∧
  let author := registered_key (op_account producer) in
  (∃ owner, pk_parse (pc_owner_pubkey config) = Some owner ∧
     relay_parse (pc_host config) = Some (op_host producer) ∧
     engine_started config w (op_host producer) owner (op_account producer)
       (op_bootstrap producer) w') ∧
  op_group_id producer = pc_group_id config ∧ op_author producer = pk_hex author ∧
  validated_endpoint (pc_kokoro config) = Ok (ks_endpoint (op_synthesizer producer)) ∧
  (1 ≤ ks_max_audio_bytes (op_synthesizer producer))%N ∧
  ∀ uploader, uploader = op_uploader producer ∨ uploader = op_file_uploader producer →
    bu_author uploader = author ∧ (1 ≤ bu_authorization_lifetime uploader)%N ∧
    (1 ≤ bu_max_upload_bytes uploader)%N ∧
    bu_max_upload_bytes uploader = bc_max_upload_bytes (pc_blossom config).
Proof.
  intros Ho. pure Ho as [] Hgroup. apply fail_if_ok in Hgroup. reflect. destruct Hgroup as [Hne Hl].
  pure Ho as host Hhost. apply ok_or_ok in Hhost. pure Ho as owner Howner. apply ok_or_ok in Howner.
  run Ho as u1 w1 K1. apply io_map_err_ok, engine_step in K1 as [D1 E1]. destruct u1.
  run Ho as account w2 K2. pose proof K2 as Hinstall. apply install_step in K2 as [Hkf Hki].
  run Ho as u3 w3 K3. apply io_map_err_ok, engine_step in K3 as [D3 E3]. destruct u3.
  run Ho as now w4 K4. unfold now_secs in K4. apply engine_step in K4 as [D4 E4].
  destruct (unix_millis (iw_env w3)) as [millis e4] eqn:Hmillis. injection E4 as <- E4.
  run Ho as evidence w5 K5. apply engine_step in K5 as [D5 E5]. apply bootstrap_group_did in E5.
  pure Ho as synthesizer Hsynth. pure Ho as uploader Hup. pure Ho as file_uploader Hfup.
  run Ho as u6 w6 K6. apply io_map_err_ok, engine_step in K6 as [D6 E6]. destruct u6.
  run Ho as u7 w7 K7. apply io_map_err_ok, engine_step in K7 as [D7 E7]. destruct u7.
  injection Ho as <- <-.
  assert (disk w7 = disk w2) as D by congruence. simpl.
  apply new_synthesizer_ok in Hsynth as (He & _ & _ & Hb). apply new_uploader_ok in Hup, Hfup.
  pose proof (len_le_str_len (pc_group_id config)) as Hlen.
  split_and!; [|lia| | | |done..|].
  - destruct (pc_group_id config); [done|]. rewrite len_cons in Hlen. lia.
  - eapply key_file_disk; [exact D|]. destruct Hkf as [Hoth Hk]. split.
    + eapply only_path_trans; [by apply only_path_disk|done].
    + intros Hcase. rewrite Hk; [done|]. by injection D1 as -> _.
  - by eapply key_installed_disk.
  - exists owner. split; [done|]. split; [done|]. subst e4.
    exists w1, w2, (iw_env w3), millis, (iw_env w4), (iw_env w5), (iw_env w6). by split_and!.
  - intros u [->| ->]; naive_solver.
Qed.
End facts.

(** A first start: no key file, and a host that has no group yet. *)
Module Example_start.
Import Example_nmp.
#[local] Existing Instances nip29 nip29_laws.
#[export] Instance urls : UrlParser := Example_blossom.urls.
#[export] Instance hashing : Hashing := Example_blossom.hashing.
#[export] Instance producer_env : ProducerEnv (list intent) := {|
  Registration := PublicKey;
  registered_key key := key;
  add_account secret e := (Ok (mkPublicKey secret), e);
  remove_account _ e := (Ok true, e);
  read_to_string _ e := (Ok [], e);
  make_durable_file _ _ e := (Err [], e);
  unix_millis e := (7000%N, e);
|}.
#[export] Instance work_dir : WorkDir (list intent) := {|
  create_dir_all _ e := (Ok (), e);
  read_file _ e := (Ok [], e);
|}.
#[export] Instance engine : DaemonEngine (list intent) := Example_bootstrap.engine [].
#[export] Instance client : BlossomClient (list intent) := {|
  BlossomServerUrl := str;
  SignedAuthorization := Event;
  parse_server text := Ok text;
  upload_authorization_draft _ _ _ _ _ := Err [];
  sign_event _ e := (Err [], e);
  validate_authorization signed _ _ := Ok signed;
  upload _ _ _ _ e := (Err [], e);
  metadata_len _ e := (Ok 0%N, e);
|}.
#[export] Instance start : EngineStart (list intent) := {|
  open_engine _ e := (Ok (), e);
  set_active_account _ e := (Ok (), e);
|}.
Definition config : ProductionConfig :=
  mkProduction $"/home/jobs" $"/home/work" None $"/home/daemon.key" None $"wss://relay.example"
    $"tts" $"owner" $"af_heart" (kokoro_config $"https://kokoro.example")
    (blossom_config $"https://blossom.example") 30.
Definition world : @IdentityWorld (list intent) := mkIdentityWorld (mkWorld ∅ 0 1) ∅ [] 0.
Definition outcome :=
  open_with_clock (λ _, None) Example_identity.random_bytes (λ _, []) Ok config world.
End Example_start.
#[local] Existing Instances Example_nmp.nip29 Example_nmp.nip29_laws Example_start.urls Example_start.hashing Example_start.producer_env
  Example_start.work_dir Example_start.engine Example_start.client Example_start.start.

Lemma daemon_start_complete_witness :
  ∃ producer w', Example_start.outcome = (Ok producer, w') ∧ length (iw_env w') = 2 ∧
    ∃ owner, pk_parse $"owner" = Some owner ∧
      engine_started (λ _, None) Example_identity.random_bytes (λ _, []) Example_start.config
        Example_start.world (op_host producer) owner (op_account producer)
        (op_bootstrap producer) w'.
Proof.
  destruct Example_start.outcome as [[producer|error] w'] eqn:Ho; [|vm_compute in Ho; discriminate].
  exists producer, w'. split; [reflexivity|].
  assert (length (iw_env Example_start.outcome.2) = 2) as Hl by (vm_compute; reflexivity).
  rewrite Ho in Hl. split; [exact Hl|].
  assert (∀ k, length (Example_identity.random_bytes k) = 32 ∧
    Forall (λ b, b < 256)%N (Example_identity.random_bytes k)) as Hrandom.
  { intros k. split; [reflexivity|]. apply Forall_replicate, N.mod_lt. done. }
  destruct (daemon_start_complete (λ _, None) Example_identity.random_bytes (λ _, []) Ok Hrandom
    Example_start.config Example_start.world producer w' Ho) as (_ & _ & _ & Hup & _).
  destruct Hup as (owner & Hp & _ & Hup). exists owner. split; [exact Hp|exact Hup].
Defined.
