(* ===== verification/Cli.v ===== *)
(** The command line: the client [daemon/src/bin/tts29.rs], and the argument of
    the two servers ([daemon/src/bin/tts29d.rs], [mcp/src/main.rs]). *)

From S2P Require Export Utf8 ProducerApi.

(** How a process ends: the usage was printed, an error was printed (status 1),
    or a response was printed. *)
Inductive Exit :=
  | Usage
  | Failed (error : str).

Inductive Outcome :=
  | Printed (response : LocalPublishResponse) (status : N)
  | Stopped (exit : Exit).

Record Command := mkCommand {
  cmd_socket_path : OsString;
  cmd_request_path : option OsString;
  cmd_wait_for_answer_seconds : option N;
  cmd_tree : bool;
  cmd_agent_id : option str;
}.

(** The variables of the loop of [parse_arguments]. *)
Record Arguments := mkArguments {
  arg_socket_path : option OsString;
  arg_request_path : option OsString;
  arg_wait : option N;
  arg_tree : bool;
  arg_agent_id : option str;
  arg_socket_seen : bool;
  arg_request_seen : bool;
}.

(** [required_value]: the error when no argument follows a flag. *)
Definition required_value (flag : str) : str := flag ++ $" requires a value".

Definition wait_seconds (value : OsString) : result str N :=
  text ← ok_or $"--wait-seconds must be UTF-8" (to_str value);
  ok_or ($"--wait-seconds must be between 1 and " ++ u64_to_string MAX_ANSWER_WAIT_SECONDS)
    (seconds ← u64_parse text;
     if ((0 <? seconds) && (seconds <=? MAX_ANSWER_WAIT_SECONDS))%N then Some seconds else None).

(** An arm of [match flag.to_str()]. *)
Definition flag_is (flag : OsString) (name : str) : bool :=
  match to_str flag with Some text => text =?s name | None => false end.

(** [while let Some(flag) = arguments.next()]. *)
Fixpoint parse_loop (arguments : list OsString) (st : Arguments) : result Exit Arguments :=
  let '(mkArguments socket request wait tree agent socket_seen request_seen) := st in
  match arguments with
  | [] => Ok st
  | flag :: rest =>
      if flag_is flag $"--socket" && negb socket_seen then
        match rest with
        | [] => Err (Failed (required_value $"--socket"))
        | value :: rest =>
            parse_loop rest (mkArguments (Some value) request wait tree agent true request_seen)
        end
      else if flag_is flag $"--tree" && negb tree then
        parse_loop rest (mkArguments socket request wait true agent socket_seen request_seen)
      else if flag_is flag $"--agent-id" && is_none agent then
        match rest with
        | [] => Err (Failed (required_value $"--agent-id"))
        | value :: rest =>
            agent ← ok_or (Failed $"--agent-id must be UTF-8") (to_str value);
            parse_loop rest
              (mkArguments socket request wait tree (Some agent) socket_seen request_seen)
        end
      else if flag_is flag $"--request" && negb request_seen then
        match rest with
        | [] => Err (Failed (required_value $"--request"))
        | value :: rest =>
            let request := if value =?s $"-" then request else Some value in
            parse_loop rest (mkArguments socket request wait tree agent socket_seen true)
        end
      else if flag_is flag $"--wait-seconds" && is_none wait then
        match rest with
        | [] => Err (Failed (required_value $"--wait-seconds"))
        | value :: rest =>
            seconds ← map_err Failed (wait_seconds value);
            parse_loop rest
              (mkArguments socket request (Some seconds) tree agent socket_seen request_seen)
        end
      else if flag_is flag $"--help" || flag_is flag $"-h" then Err Usage
      else Err (Failed $"invalid or repeated command argument; use --help")
  end.

(** [parse_arguments]; the first parameter is the variable [TTS29_SOCKET]. *)
Definition parse_arguments (socket_variable : option OsString) (arguments : list OsString)
    : result Exit Command :=
  st ← parse_loop arguments (mkArguments socket_variable None None false None false false);
  socket_path ← ok_or (Failed $"a socket path is required through --socket or TTS29_SOCKET")
                  (arg_socket_path st);
  _ ← fail_if (Failed $"--agent-id is only valid with --tree")
        (negb (arg_tree st) && negb (is_none (arg_agent_id st)));
  Ok (mkCommand socket_path (arg_request_path st) (arg_wait st) (arg_tree st) (arg_agent_id st)).

Definition optional_env (name : str) (variable : EnvVar) : result str (option str) :=
  match variable with
  | EnvValue [] => Err (name ++ $" is empty")
  | EnvValue value => Ok (Some value)
  | NotPresent => Ok None
  | NotUnicode => Err (name ++ $" is not valid UTF-8")
  end.

(** [read_request], given what opening and reading the source yields. *)
Definition read_request (source : option OsString → result str (result str (list N)))
    (path : option OsString) : result str (list N) :=
  contents ← map_err (λ error, $"request file could not be read: " ++ error) (source path);
  data ← map_err (λ error, $"producer request could not be read: " ++ error) contents;
  let data := take (N.to_nat (MAX_LOCAL_FRAME_BYTES + 1)) data in
  _ ← fail_if $"producer request size is invalid"
        (is_empty data || (MAX_LOCAL_FRAME_BYTES <? len data)%N);
  Ok data.

Section run.
Context (socket_variable : option OsString) (agent_variable : EnvVar).
Context (source : option OsString → result str (result str (list N))).
(** JSON, the connection to the daemon, and writing the response. *)
Context (decode_request : list N → result str ProducerRequest)
        (decode_spoken_tree : list N → result str SpokenTree)
        (encode_publish : LocalPublishRequest → option (list N))
        (encode_tree : LocalTreeRequest → option (list N))
        (decode_response : list N → option LocalPublishResponse)
        (exchange : OsString → list N → result str (list N))
        (client_error_message : ClientError → str)
        (print : LocalPublishResponse → result str unit).

Definition request_error (error : LocalRequestError) : str :=
  err_code error ++ $": " ++ err_message error.
Definition daemon_error (error : ClientError) : str :=
  $"daemon request failed: " ++ client_error_message error.

(** The two branches of [run]. *)
Definition submit_tree_command (command : Command) (agent_nsec : option str) (data : list N)
    : result str LocalPublishResponse :=
  tree ← map_err (λ error, $"spoken tree is invalid JSON: " ++ error) (decode_spoken_tree data);
  let local := mkLocalTree LOCAL_PROTOCOL_VERSION tree (cmd_agent_id command) agent_nsec in
  _ ← map_err request_error (validate_tree local);
  map_err daemon_error
    (submit encode_tree decode_response (exchange (cmd_socket_path command)) local).
Definition submit_command (command : Command) (agent_nsec : option str) (data : list N)
    : result str LocalPublishResponse :=
  request ← map_err (λ error, $"producer request is invalid JSON: " ++ error)
              (decode_request data);
  let local := mkLocalPublish LOCAL_PROTOCOL_VERSION request
                 (cmd_wait_for_answer_seconds command) agent_nsec in
  _ ← map_err request_error (validate_publish local);
  map_err daemon_error
    (submit encode_publish decode_response (exchange (cmd_socket_path command)) local).

Definition run_command (command : Command) : result str LocalPublishResponse :=
  data ← read_request source (cmd_request_path command);
  agent_nsec ← optional_env $"AGENT_NSEC" agent_variable;
  response ← (if cmd_tree command then submit_tree_command command agent_nsec data
              else submit_command command agent_nsec data);
  _ ← print response;
  Ok response.

(** [run] and [main]. *)
Definition run (arguments : list OsString) : Outcome :=
  match parse_arguments socket_variable arguments with
  | Err exit => Stopped exit
  | Ok command =>
      match run_command command with
      | Ok (ResponseError _ _ _ as response) => Printed response 2
      | Ok response => Printed response 0
      | Err error => Stopped (Failed error)
      end
  end.
End run.

(** [config_argument] of the servers. *)
Definition config_argument (usage : str) (arguments : list OsString) : result Exit OsString :=
  match arguments with
  | [flag; path] => if flag =?s $"--config" then Ok path else Err (Failed usage)
  | [flag] =>
      if (flag =?s $"--help") || (flag =?s $"-h") then Err Usage else Err (Failed usage)
  | _ => Err (Failed usage)
  end.

(** A path given as an argument; one that is not UTF-8 is kept as it is. *)
Definition path_of (value : OsString) : str := default value (to_str value).

(** ** What is a command line *)

(** The options, with what their values mean. *)
Inductive CommandOption :=
  | OptSocket (value : OsString)
  | OptTree
  | OptAgent (agent : str)
  | OptRequest (value : OsString)
  | OptWait (seconds : N).

Definition option_kind (o : CommandOption) : nat :=
  match o with
  | OptSocket _ => 0 | OptTree => 1 | OptAgent _ => 2 | OptRequest _ => 3 | OptWait _ => 4
  end.

(** An option and the arguments it is written with; a number may be written in
    several ways. *)
Inductive spelled : CommandOption → list OsString → Prop :=
  | spelled_socket flag value :
      to_str flag = Some $"--socket" → spelled (OptSocket value) [flag; value]
  | spelled_tree flag : to_str flag = Some $"--tree" → spelled OptTree [flag]
  | spelled_agent flag value agent :
      to_str flag = Some $"--agent-id" → to_str value = Some agent →
      spelled (OptAgent agent) [flag; value]
  | spelled_request flag value :
      to_str flag = Some $"--request" → spelled (OptRequest value) [flag; value]
  | spelled_wait flag value text seconds :
      to_str flag = Some $"--wait-seconds" → to_str value = Some text →
      u64_parse text = Some seconds → (1 ≤ seconds ≤ 300)%N →
      spelled (OptWait seconds) [flag; value].

Inductive spelled_all : list CommandOption → list OsString → Prop :=
  | spelled_nil : spelled_all [] []
  | spelled_cons o args options rest :
      spelled o args → spelled_all options rest → spelled_all (o :: options) (args ++ rest).

(** What an option contributes. *)
Definition option_socket (o : CommandOption) : option OsString :=
  match o with OptSocket value => Some value | _ => None end.
Definition option_request (o : CommandOption) : option OsString :=
  match o with OptRequest value => if value =?s $"-" then None else Some value | _ => None end.
Definition option_wait (o : CommandOption) : option N :=
  match o with OptWait seconds => Some seconds | _ => None end.
Definition option_agent (o : CommandOption) : option str :=
  match o with OptAgent agent => Some agent | _ => None end.
Definition option_tree (o : CommandOption) : bool :=
  match o with OptTree => true | _ => false end.

(** The command of a set of options; the variable stands in for [--socket]. *)
Record command_of (socket_variable : option OsString) (options : list CommandOption)
    (command : Command) : Prop := {
  co_distinct : NoDup (option_kind <$> options);
  co_socket : Some (cmd_socket_path command) =
    match find_map option_socket options with
    | Some value => Some value
    | None => socket_variable
    end;
  co_request : cmd_request_path command = find_map option_request options;
  co_wait : cmd_wait_for_answer_seconds command = find_map option_wait options;
  co_agent : cmd_agent_id command = find_map option_agent options;
  co_tree : cmd_tree command = existsb option_tree options;
  co_agent_tree : is_Some (cmd_agent_id command) → cmd_tree command = true;
}.

(** *** The loop *)

(** An option of this kind was seen. *)
Definition seen (st : Arguments) (o : CommandOption) : bool :=
  match o with
  | OptSocket _ => arg_socket_seen st
  | OptTree => arg_tree st
  | OptAgent _ => negb (is_none (arg_agent_id st))
  | OptRequest _ => arg_request_seen st
  | OptWait _ => negb (is_none (arg_wait st))
  end.

Definition or_else {A} (o k : option A) : option A :=
  match o with Some a => Some a | None => k end.

Definition apply_option (st : Arguments) (o : CommandOption) : Arguments :=
  mkArguments (or_else (option_socket o) (arg_socket_path st))
    (or_else (option_request o) (arg_request_path st))
    (or_else (option_wait o) (arg_wait st)) (option_tree o || arg_tree st)
    (or_else (option_agent o) (arg_agent_id st))
    (arg_socket_seen st || (option_kind o =? 0)%nat)
    (arg_request_seen st || (option_kind o =? 3)%nat).

(** Decide the comparisons of literals. *)
Ltac decide_flags H :=
  unfold flag_is; rewrite H; cbv iota;
  repeat match goal with |- context [?a =?s ?b] =>
    let v := eval vm_compute in (a =?s b) in
    match v with true => idtac | false => idtac end;
    change (a =?s b) with v
  end; cbn [andb orb].

(** One option is consumed by one round. *)
Lemma parse_loop_spelled o args rest st :
  spelled o args → seen st o = false →
  parse_loop (args ++ rest) st = parse_loop rest (apply_option st o).
Proof.
  unfold apply_option. destruct st as [socket request wait tree agent socket_seen request_seen].
  destruct 1 as [flag value Hf|flag Hf|flag value agent' Hf Hv|flag value Hf
    |flag value text seconds Hf Hv Ht Hs]; cbn [app parse_loop seen]; decide_flags Hf;
    cbn -[parse_loop wait_seconds str_eqb]; intros Hseen; rewrite ?orb_false_r;
    rewrite ?negb_false_iff in Hseen; rewrite Hseen; try done.
  - by rewrite Hv.
  - by destruct (value =?s $"-").
  - unfold wait_seconds. rewrite Hv. cbn [ok_or mbind result_bind map_err]. rewrite Ht.
    unfold MAX_ANSWER_WAIT_SECONDS. cbn [mbind option_bind].
    by rewrite (proj2 (N.ltb_lt 0 seconds)), (proj2 (N.leb_le seconds 300)) by lia.
Qed.

Lemma flag_is_Some flag name : flag_is flag name = true → to_str flag = Some name.
Proof.
  unfold flag_is. destruct (to_str flag) as [text|]; [|done]. by intros ->%str_eqb_eq.
Qed.

Lemma wait_seconds_Ok value seconds :
  wait_seconds value = Ok seconds →
  ∃ text, to_str value = Some text ∧ u64_parse text = Some seconds ∧ (1 ≤ seconds ≤ 300)%N.
Proof.
  unfold wait_seconds. intros Hw. okay Hw as text Ht. apply ok_or_ok in Ht. apply ok_or_ok in Hw.
  opt Hw as n Hn. unfold MAX_ANSWER_WAIT_SECONDS in Hw.
  destruct ((0 <? n) && (n <=? 300))%N eqn:Hb; [|done]. injection Hw as <-. reflect.
  exists text. split; [done|]. split; [done|]. lia.
Qed.

(** Every round that goes on consumed an option. *)
Lemma parse_loop_option flag rest st st' :
  parse_loop (flag :: rest) st = Ok st' →
  ∃ o args rest', flag :: rest = args ++ rest' ∧ spelled o args ∧ seen st o = false.
Proof.
  destruct st as [socket request wait tree agent socket_seen request_seen]. cbn [parse_loop].
  destruct (flag_is flag $"--socket" && _) eqn:H1.
  { apply andb_true_iff in H1 as [Hf%flag_is_Some Hn%negb_true_iff].
    destruct rest as [|value rest]; [done|]. intros _.
    by exists (OptSocket value), [flag; value], rest; split; [|split; [constructor|]]. }
  destruct (flag_is flag $"--tree" && _) eqn:H2.
  { apply andb_true_iff in H2 as [Hf%flag_is_Some Hn%negb_true_iff]. intros _.
    by exists OptTree, [flag], rest; split; [|split; [constructor|]]. }
  destruct (flag_is flag $"--agent-id" && _) eqn:H3.
  { apply andb_true_iff in H3 as [Hf%flag_is_Some Hn]. destruct rest as [|value rest]; [done|].
    intros Hp. okay Hp as agent' Ha. apply ok_or_ok in Ha.
    exists (OptAgent agent'), [flag; value], rest. split; [done|]. split; [by constructor|].
    simpl. by rewrite Hn. }
  destruct (flag_is flag $"--request" && _) eqn:H4.
  { apply andb_true_iff in H4 as [Hf%flag_is_Some Hn%negb_true_iff].
    destruct rest as [|value rest]; [done|]. intros _.
    by exists (OptRequest value), [flag; value], rest; split; [|split; [constructor|]]. }
  destruct (flag_is flag $"--wait-seconds" && _) eqn:H5.
  { apply andb_true_iff in H5 as [Hf%flag_is_Some Hn]. destruct rest as [|value rest]; [done|].
    intros Hp. okay Hp as seconds Hs.
    destruct (wait_seconds value) as [seconds'|] eqn:Hw; [|done].
    apply wait_seconds_Ok in Hw as (text & Ht & Hu & Hb).
    exists (OptWait seconds'), [flag; value], rest. split; [done|].
    split; [by econstructor|]. simpl. by rewrite Hn. }
  by destruct (_ || _).
Qed.

(** What was seen: the options so far, and those of the state. *)
Lemma seen_apply st o o' :
  seen (apply_option st o) o' = seen st o' || (option_kind o =? option_kind o')%nat.
Proof.
  destruct st as [socket request wait tree agent socket_seen request_seen].
  destruct o, o'; cbn; rewrite ?orb_false_r, ?orb_true_r; try done;
    repeat match goal with |- context [or_else _ ?x] => destruct x end; done.
Qed.

Lemma parse_loop_iff args st st' :
  parse_loop args st = Ok st' ↔
  ∃ options, spelled_all options args ∧ NoDup (option_kind <$> options) ∧
    Forall (λ o, seen st o = false) options ∧ st' = foldl apply_option st options.
Proof.
  split.
  - remember (length args) as n eqn:Hn. assert (length args ≤ n) as Hle by lia. clear Hn.
    revert args st Hle. induction n as [|n IH]; intros args st Hle Hp.
    + destruct args; [|simpl in Hle; lia]. exists []. destruct st. injection Hp as <-.
      repeat constructor.
    + destruct args as [|flag rest]; [apply (IH []); [simpl; lia|done]|].
      destruct (parse_loop_option _ _ _ _ Hp) as (o & a & rest' & Heq & Hs & Hseen).
      rewrite Heq in *. rewrite (parse_loop_spelled o) in Hp by done.
      apply IH in Hp as (options & Hall & Hnd & Hf & ->).
      2:{ apply (f_equal length) in Heq. rewrite length_app in *. simpl in *.
          destruct Hs; simpl in *; lia. }
      exists (o :: options). split; [by constructor|].
      rewrite Forall_forall in Hf. split; [|split].
      * apply NoDup_cons. split; [|done]. intros (o' & Hk & Ho')%list_elem_of_fmap.
        apply Hf in Ho'. rewrite seen_apply, Hk, Nat.eqb_refl, orb_true_r in Ho'. done.
      * constructor; [done|]. apply Forall_forall. intros o' Ho'%Hf. rewrite seen_apply in Ho'.
        by apply orb_false_iff in Ho' as [? _].
      * done.
  - intros (options & Hall & Hnd & Hf & ->). revert st Hnd Hf.
    induction Hall as [|o a options rest Hs _ IH]; intros st Hnd Hf; [by destruct st|].
    apply NoDup_cons in Hnd as [Hk Hnd]. apply Forall_cons in Hf as [Ho Hf].
    rewrite (parse_loop_spelled o) by done. rewrite IH; [done|done|].
    rewrite Forall_forall in *. intros o' Ho'. rewrite seen_apply, Hf by done. simpl.
    apply Nat.eqb_neq. intros Hk'. apply Hk. rewrite Hk'. by apply list_elem_of_fmap_2.
Qed.

(** *** The command *)

(** A variable of the loop that only one kind of option sets. *)
Lemma foldl_field {A} (field : Arguments → option A) (contribution : CommandOption → option A) k
    options :
  (∀ st o, field (apply_option st o) = or_else (contribution o) (field st)) →
  (∀ o, is_Some (contribution o) → option_kind o = k) →
  NoDup (option_kind <$> options) →
  ∀ st, field (foldl apply_option st options)
        = or_else (find_map contribution options) (field st).
Proof.
  intros Hfield Hkind. induction options as [|o options IH]; intros Hnd st; [done|].
  apply NoDup_cons in Hnd as [Hk Hnd]. simpl. rewrite IH, Hfield by done.
  destruct (contribution o) as [a|] eqn:Ho; [|done]. simpl.
  assert (find_map contribution options = None) as ->; [|done].
  apply find_map_None. intros o' Ho'. destruct (contribution o') eqn:Hc; [|done].
  destruct Hk. assert (option_kind o = option_kind o') as ->.
  { rewrite (Hkind o), (Hkind o'); [done|by rewrite Hc|by rewrite Ho]. }
  by apply list_elem_of_fmap_2.
Qed.

Lemma foldl_tree options st :
  arg_tree (foldl apply_option st options) = existsb option_tree options || arg_tree st.
Proof.
  revert st. induction options as [|o options IH]; intros st; [done|]. simpl.
  rewrite IH. destruct st. simpl. by destruct (option_tree o), (existsb _ options).
Qed.

(** C37: the arguments [tts29] accepts are exactly the spellings of a set of
    options, in any order, none of them given twice, that names a socket (or
    leaves it to the environment) and an agent only with [--tree]; the command
    has what the options say. A wait is between 1 and 300 seconds, and a
    request file [-] is the standard input. *)
Theorem command_line_iff socket_variable arguments command :
  parse_arguments socket_variable arguments = Ok command ↔
  ∃ options, spelled_all options arguments ∧ command_of socket_variable options command.
Proof.
  set (start := mkArguments socket_variable None None false None false false).
  assert (∀ options, NoDup (option_kind <$> options) →
    let st := foldl apply_option start options in
    arg_socket_path st = or_else (find_map option_socket options) socket_variable ∧
    arg_request_path st = find_map option_request options ∧
    arg_wait st = find_map option_wait options ∧
    arg_agent_id st = find_map option_agent options ∧
    arg_tree st = existsb option_tree options) as Hfields.
  { intros options Hnd st. unfold st.
    rewrite (foldl_field arg_socket_path option_socket 0),
      (foldl_field arg_request_path option_request 3), (foldl_field arg_wait option_wait 4),
      (foldl_field arg_agent_id option_agent 2), foldl_tree; try done; try (by intros [] []).
    simpl. rewrite orb_false_r. split_and!; try done; by destruct (find_map _ _). }
  unfold parse_arguments. fold start. split.
  - intros Hp. okay Hp as st Hst. okay Hp as socket Hs. passed Hp as Hagent. injection Hp as <-.
    apply ok_or_ok in Hs. apply parse_loop_iff in Hst as (options & Hall & Hnd & _ & ->).
    destruct (Hfields options Hnd) as (H1 & H2 & H3 & H4 & H5). exists options. split; [done|].
    split; simpl; try done; [by rewrite <-Hs, H1|].
    intros [a Ha]. rewrite Ha in Hagent. by destruct Hagent.
  - intros (options & Hall & [Hnd Hs Hr Hw Ha Ht Hat]).
    assert (parse_loop arguments start = Ok (foldl apply_option start options)) as ->.
    { apply parse_loop_iff. exists options. split; [done|]. split; [done|]. split; [|done].
      apply Forall_forall. intros [] _; done. }
    destruct (Hfields options Hnd) as (H1 & H2 & H3 & H4 & H5). simpl.
    rewrite H1, H2, H3, H4, H5. unfold or_else. rewrite <-Hs, <-Hr, <-Hw, <-Ha, <-Ht. simpl.
    destruct command as [socket request wait tree agent]. simpl in *.
    destruct agent as [agent|]; simpl; [by rewrite Hat|]. by rewrite andb_false_r.
Qed.

(** Two orders of the same options, and an option given twice. *)
Example command_line_order :
  parse_arguments None [$"--wait-seconds"; $"+05"; $"--socket"; $"/run/s"]
  = Ok (mkCommand $"/run/s" None (Some 5%N) false None) ∧
  parse_arguments None [$"--socket"; $"/run/s"; $"--request"; $"-"; $"--wait-seconds"; $"5"]
  = Ok (mkCommand $"/run/s" None (Some 5%N) false None) ∧
  parse_arguments None [$"--socket"; $"/run/s"; $"--socket"; $"/run/s"]
  = Err (Failed $"invalid or repeated command argument; use --help").
Proof. by vm_compute. Qed.
