(* ===== verification/McpTool.v ===== *)
(** The tool the MCP endpoint offers ([mcp/src/tool.rs]): a publication request
    is checked, handed to the daemon, and answered without the daemon's own
    error messages. The JSON encodings and the connection to the daemon are
    those of the local client. *)

From S2P Require Export ProducerApi.

Record PublishSpeechInput := mkInput {
  in_request : ProducerRequest;
  in_wait_for_answer_seconds : option N;
}.

(** [CallToolResult]: the structured response, and one block of text. *)
Record CallToolResult := mkResult {
  tr_response : LocalPublishResponse;
  tr_text : str;
  tr_error : bool;
}.

Definition public_error_message (code : str) : str :=
  if (code =?s $"invalid_request") || (code =?s $"malformed_request")
     || (code =?s $"unsupported_version") || (code =?s $"invalid_answer_wait")
  then $"the speech publication request is invalid"
  else if code =?s $"request_conflict"
  then $"the request ID was already used for different content"
  else if code =?s $"request_too_large"
  then $"the speech publication request is too large"
  else if code =?s $"daemon_unavailable"
  then $"the private TTS29 producer is unavailable"
  else $"the private TTS29 producer could not complete publication".

(** [tool_success] and [tool_error], on the variant each is called with. *)
Definition tool_success (version : N) (request_id : str) (receipt_id : N) (event_id : str)
    (answer_wait : AnswerWaitResult) : CallToolResult :=
  mkResult (ResponsePublished version request_id receipt_id event_id answer_wait)
    ($"Published TTS29 request " ++ request_id ++ $" as event " ++ event_id
     ++ $" with receipt " ++ u64_to_string receipt_id ++ $".") false.
Definition tool_error (version : N) (code message : str) : CallToolResult :=
  mkResult (ResponseError version code message) message true.

Section tool.
Context (encode : LocalPublishRequest → option (list N))
        (decode : list N → option LocalPublishResponse)
        (exchange : list N → result str (list N)).

Definition local_request (input : PublishSpeechInput) : LocalPublishRequest :=
  mkLocalPublish LOCAL_PROTOCOL_VERSION (in_request input) (in_wait_for_answer_seconds input) None.

(** The blocking call to the daemon; [joined] is false when the task that makes
    it fails. *)
Definition daemon_response (joined : bool) (local : LocalPublishRequest) : LocalPublishResponse :=
  match joined, submit encode decode exchange local with
  | true, Ok response => response
  | _, _ => response_error $"daemon_unavailable" $"the private TTS29 producer is unavailable"
  end.

(** The final [match]; it has no arm for a published tree. *)
Definition tool_result (response : LocalPublishResponse) : option CallToolResult :=
  match response with
  | ResponsePublished version request_id receipt_id event_id answer_wait =>
      Some (tool_success version request_id receipt_id event_id answer_wait)
  | ResponseError version code _ => Some (tool_error version code (public_error_message code))
  | ResponsePublishedTree _ _ _ _ => None
  end.

Definition publish_speech (joined : bool) (input : PublishSpeechInput) : option CallToolResult :=
  let local := local_request input in
  match validate_publish local with
  | Err error => Some (tool_error LOCAL_PROTOCOL_VERSION (err_code error) (err_message error))
  | Ok _ => tool_result (daemon_response joined local)
  end.

(** ** Facts *)

(** The texts of the failures that come from the daemon. *)
Definition public_messages : list str :=
  [$"the speech publication request is invalid";
   $"the request ID was already used for different content";
   $"the speech publication request is too large";
   $"the private TTS29 producer is unavailable";
   $"the private TTS29 producer could not complete publication"].

Lemma public_error_message_known code : public_error_message code ∈ public_messages.
Proof.
  unfold public_error_message, public_messages.
  repeat case_match; rewrite !elem_of_cons; tauto.
Qed.

(** Nothing of an error of the daemon is shown but its code: what the text of a
    failure says is fixed, or what the validation says about the request; no
    agent key is ever sent; and an answer that is not an error is a publication
    the daemon reported in a frame within the limit. *)
Theorem publish_speech_private joined input result :
  publish_speech joined input = Some result →
  lp_agent_nsec (local_request input) = None ∧
  match tr_response result with
  | ResponseError _ code message =>
      tr_error result = true ∧ tr_text result = message ∧
      (message ∈ public_messages ∨
       ∃ error, validate_publish (local_request input) = Err error ∧ message = err_message error)
  | ResponsePublished _ _ _ _ _ =>
      tr_error result = false ∧ validate_publish (local_request input) = Ok () ∧
      ∃ payload raw, encode (local_request input) = Some payload ∧
        (len payload ≤ MAX_LOCAL_FRAME_BYTES)%N ∧ exchange payload = Ok raw ∧
        (len raw ≤ MAX_LOCAL_FRAME_BYTES)%N ∧ decode raw = Some (tr_response result)
  | ResponsePublishedTree _ _ _ _ => False
  end.
Proof.
  unfold publish_speech. intros Hp. split; [done|].
  destruct (validate_publish (local_request input)) as [[]|error] eqn:Hv.
  2:{ injection Hp as <-. simpl. split; [done|]. split; [done|]. right. by exists error. }
  unfold daemon_response in Hp.
  destruct joined; [destruct (submit _ _ _ _) as [response|error] eqn:Hs|];
    [|injection Hp as <-; simpl; split_and!; [done|done|left; apply public_error_message_known]..].
  destruct response as [version request_id receipt_id event_id answer_wait| |version code message];
    [|done|].
  - injection Hp as <-. simpl. split; [done|]. split; [done|].
    unfold submit in Hs. okay Hs as payload Hpay. passed Hs as Hle. okay Hs as raw Hraw.
    okay Hs as data Hdata. apply ok_or_ok in Hpay, Hs. apply read_bounded_ok in Hdata as [-> Hb].
    apply map_err_ok in Hraw. by exists payload, raw.
  - injection Hp as <-. simpl. split; [done|]. split; [done|]. left.
    apply public_error_message_known.
Qed.
End tool.
