(* ===== verification/McpServer.v ===== *)
(** The MCP endpoint as a whole ([mcp/src/server.rs]): which paths are served
    and by what, and the way of a request from its path through the protection
    to the tool. The composition of [McpConfig], [McpAuth], [McpIngress] and
    [McpTool]. The router, the MCP transport and TLS are parameters. *)

From S2P Require McpConfig.
From S2P Require Export Url McpIngress McpTool.

Abbreviation McpConfig := McpConfig.McpConfig.

(** ** What is served *)
Record ProtectedResourceMetadata := mkMetadata {
  pm_resource : str;
  pm_authorization_servers : list str;
  pm_scopes_supported : list str;
  pm_bearer_methods_supported : list str;
  pm_resource_name : str;
}.

(** [StreamableHttpServerConfig], as far as it is set. *)
Record ServiceConfig := mkService {
  sc_stateful_mode : bool;
  sc_json_response : bool;
  sc_sse_keep_alive : option N;
  sc_allowed_hosts : list str;
  sc_allowed_origins : list str;
}.
Record SpeechTool := mkTool { st_socket_path : str; st_timeout : N }.

(** [route] serves one path; [nest_service] serves a path and all below it. *)
Inductive Pattern := Exactly (path : str) | Below (path : str).
Definition matches (pattern : Pattern) (path : str) : bool :=
  match pattern with
  | Exactly p => path =?s p
  | Below p => (path =?s p) || starts_with (p ++ $"/") path
  end.

Inductive Endpoint :=
  | ServeMetadata (metadata : ProtectedResourceMetadata)
  | ServeSpeech (ingress : IngressState) (service : ServiceConfig) (tool : SpeechTool).
Record Route := mkRoute { rt_pattern : Pattern; rt_endpoint : Endpoint }.
Definition Router := list Route.

Definition WELL_KNOWN : str := $"/.well-known/oauth-protected-resource".

Section build.
Context (config : McpConfig) (auth : AuthValidator).

Definition speech_tool : SpeechTool :=
  mkTool (McpConfig.mc_daemon_socket_path config) (McpConfig.mc_execution_timeout_seconds config).
Definition service_config : ServiceConfig :=
  mkService false true None (McpConfig.mc_allowed_hosts config)
    (McpConfig.mc_allowed_origins config).
(** [IngressState::new]. *)
Definition ingress_state : IngressState :=
  mkIngress auth (N.to_nat (McpConfig.mc_max_concurrency config))
    (McpConfig.mc_max_request_bytes config) (McpConfig.mc_max_response_bytes config)
    (McpConfig.mc_metadata_url config) (McpConfig.mc_required_scope config).
Definition resource_metadata : ProtectedResourceMetadata :=
  mkMetadata (McpConfig.mc_resource config) (McpConfig.mc_authorization_servers config)
    [McpConfig.mc_required_scope config] [$"header"] $"TTS29 speech publisher".

Definition build_router : Router :=
  [mkRoute (Exactly (McpConfig.mc_metadata_path config)) (ServeMetadata resource_metadata)]
  ++ (if negb (McpConfig.mc_metadata_path config =?s WELL_KNOWN)
      then [mkRoute (Exactly WELL_KNOWN) (ServeMetadata resource_metadata)] else [])
  ++ [mkRoute (Below (McpConfig.mc_mcp_path config))
        (ServeSpeech ingress_state service_config speech_tool)].
End build.

(** *** Building the router

    [axum] panics where a route takes a path that another one has. A nested
    service takes its path with and without a slash at the end. *)
Definition own_paths (pattern : Pattern) : list str :=
  match pattern with Exactly path => [path] | Below path => [path; path ++ $"/"] end.
Definition distinct_paths (router : Router) : Prop :=
  NoDup (router ≫= λ route, own_paths (rt_pattern route)).

(** The route a router chooses: one that matches, where there is one, and the
    one that names the path before those that are above it. *)
Class Axum := { select : Router → str → option Route }.
Class AxumLaws `{Axum} : Prop := {
  select_Some router path route :
    select router path = Some route → route ∈ router ∧ matches (rt_pattern route) path = true;
  select_None router path route :
    select router path = None → route ∈ router → matches (rt_pattern route) path = false;
  select_exactly router path route :
    distinct_paths router → route ∈ router → rt_pattern route = Exactly path →
    select router path = Some route;
}.

(** ** Serving *)

(** A request as it arrives; [hq_request] is what the protection reads of it. *)
Record HttpRequest := mkHttpRequest {
  hq_method : str;
  hq_path : str;
  hq_headers : list (str * str);
  hq_request : Request;
}.

(** The MCP transport: whether a request comes from an allowed host and origin,
    the tool call in its body, the response to a call with its result, and the
    responses to everything else. *)
Class Rmcp := {
  mcp_allowed : ServiceConfig → HttpRequest → bool;
  mcp_call : list N → option PublishSpeechInput;
  mcp_reply : list N → option CallToolResult → Response;
  mcp_other : ServiceConfig → HttpRequest → list N → Response;
}.

(** A response that is not the protection's. *)
Inductive Reply :=
  | ReplyMetadata (metadata : ProtectedResourceMetadata)
  | ReplyNotFound
  | ReplyMethodNotAllowed.

(** The requests in the protection, in the order of [in_requests], the ones
    answered without it, and, as a history, the calls of the tool. *)
Record Server := mkServer {
  sv_ingress : Ingress;
  sv_guarded : list HttpRequest;
  sv_direct : list (HttpRequest * Reply);
  sv_calls : list (HttpRequest * PublishSpeechInput);
}.

(** [Handle] is the nested service on a request in the handler, with what the
    call of the daemon meets; every other step of the protection is its own. *)
Inductive ServerAction :=
  | Incoming (request : HttpRequest)
  | Protect (action : Action)
  | Handle (i : nat) (joined : bool) (exchange : list N → result str (list N)).

Definition is_protection (action : Action) : bool :=
  match action with Arrive _ | Answer _ _ => false | _ => true end.

Section serve.
Context (query_keys : str → list str) (header_value : str → bool) (error_body : str → list N).
Context (encode : LocalPublishRequest → option (list N))
        (decode : list N → option LocalPublishResponse).
Context `{Jwt, Axum, Rmcp} (config : McpConfig) (auth : AuthValidator).

#[local] Abbreviation I := (ingress_state config auth).
#[local] Abbreviation protect := (protect_step query_keys header_value error_body I).
#[local] Abbreviation router := (build_router config auth).

Definition set_ingress (ingress : Ingress) (s : Server) : Server :=
  mkServer ingress (sv_guarded s) (sv_direct s) (sv_calls s).
Definition reply_direct (request : HttpRequest) (reply : Reply) (s : Server) : Server :=
  mkServer (sv_ingress s) (sv_guarded s) (sv_direct s ++ [(request, reply)]) (sv_calls s).

(** [get(handler)]: [GET], and [HEAD] in the same way. *)
Definition get_handler (method : str) (metadata : ProtectedResourceMetadata) : Reply :=
  if (method =?s $"GET") || (method =?s $"HEAD") then ReplyMetadata metadata
  else ReplyMethodNotAllowed.

Definition incoming (request : HttpRequest) (s : Server) : option Server :=
  match rt_endpoint <$> select router (hq_path request) with
  | None => Some (reply_direct request ReplyNotFound s)
  | Some (ServeMetadata metadata) =>
      Some (reply_direct request (get_handler (hq_method request) metadata) s)
  | Some (ServeSpeech _ _ _) =>
      ingress ← protect (Arrive (hq_request request)) (sv_ingress s);
      Some (mkServer ingress (sv_guarded s ++ [request]) (sv_direct s) (sv_calls s))
  end.

(** The nested service on one request: its response, and the call it makes. *)
Definition handle (request : HttpRequest) (data : list N) (joined : bool)
    (exchange : list N → result str (list N)) : Response * option PublishSpeechInput :=
  match then_some (mcp_allowed (service_config config) request) (mcp_call data) with
  | Some (Some input) =>
      (mcp_reply data (publish_speech encode decode exchange joined input), Some input)
  | _ => (mcp_other (service_config config) request data, None)
  end.

Definition server_step (action : ServerAction) (s : Server) : option Server :=
  match action with
  | Incoming request => incoming request s
  | Protect action =>
      _ ← reject_if (negb (is_protection action));
      ingress ← protect action (sv_ingress s);
      Some (set_ingress ingress s)
  | Handle i joined exchange =>
      match in_requests (sv_ingress s) !! i, sv_guarded s !! i with
      | Some (Running data), Some request =>
          let '(response, call) := handle request data joined exchange in
          ingress ← protect (Answer i response) (sv_ingress s);
          Some (mkServer ingress (sv_guarded s) (sv_direct s)
                  (sv_calls s ++ match call with Some input => [(request, input)] | None => [] end))
      | _, _ => None
      end
  end.

Definition server_new : Server := mkServer (ingress_new I) [] [] [].
Definition server_steps (s s' : Server) : Prop := ∃ action, server_step action s = Some s'.
End serve.

(** ** Starting and stopping *)

(** [AuthValidator::from_jwks_file], given what can be read of the file. *)
Definition from_jwks_file (contents : result str (list N))
    (decode : list N → result str (list Jwk)) (issuer audience required_scope : str)
    : result str AuthValidator :=
  keys ← load_jwks contents decode;
  new_validator keys issuer audience required_scope.

(** [run_server] up to what it serves: the key set, the router, the certificate
    (or the error of [RustlsConfig::from_pem_file]), and the error that ends the
    server, when one does. *)
Definition run_server (config : McpConfig) (contents : str → result str (list N))
    (decode : list N → result str (list Jwk)) (certificate : str → str → result str unit)
    (serve : str → Router → result str unit) : result str unit :=
  auth ← from_jwks_file (contents (McpConfig.mc_jwks_path config)) decode
           (McpConfig.mc_issuer config) (McpConfig.mc_audience config)
           (McpConfig.mc_required_scope config);
  let router := build_router config auth in
  _ ← map_err (λ error, $"TLS configuration could not be loaded: " ++ error)
        (certificate (McpConfig.mc_tls_certificate_path config)
           (McpConfig.mc_tls_private_key_path config));
  map_err (λ error, $"HTTPS MCP endpoint failed: " ++ error)
    (serve (McpConfig.mc_bind config) router).

(** [shutdown_signal]: whether the signals so far end the wait; the handler of
    [SIGTERM] may be missing. *)
Inductive Signal := CtrlC | Terminate.
Definition shutdown_signal (terminate : bool) (signals : list Signal) : bool :=
  existsb (λ signal, match signal with CtrlC => true | Terminate => terminate end) signals.

(** ** The routes of an accepted configuration *)
Section routes.
Context `{UrlParser} (is_socket_address : str → bool) (file : McpConfig.FileConfig) (base : str).
Context (config : McpConfig) (auth : AuthValidator).
Hypothesis accepted : McpConfig.validate is_socket_address file base = Ok config.

Lemma metadata_path_of :
  McpConfig.mc_metadata_path config = WELL_KNOWN ++ McpConfig.mc_mcp_path config.
Proof using accepted. apply McpConfig.mcp_config_iff in accepted as (resource & _ & ->). done. Qed.

Lemma well_known_slash (p : str) : WELL_KNOWN ≠ p ++ $"/".
Proof using.
  intros Hp. apply (f_equal last) in Hp. rewrite last_app in Hp. vm_compute in Hp. discriminate.
Qed.

Lemma build_router_paths :
  (build_router config auth ≫= λ route, own_paths (rt_pattern route)) =
  let p := McpConfig.mc_mcp_path config in
  (WELL_KNOWN ++ p) :: (if is_empty p then [] else [WELL_KNOWN]) ++ [p; p ++ $"/"].
Proof using accepted.
  unfold build_router. rewrite metadata_path_of. cbv zeta.
  destruct (McpConfig.mc_mcp_path config) as [|c p].
  - rewrite app_nil_r, str_eqb_refl. reflexivity.
  - assert ((WELL_KNOWN ++ c :: p =?s WELL_KNOWN) = false) as ->; [|reflexivity].
    apply str_eqb_neq. intros Heq. apply (f_equal length) in Heq. rewrite length_app in Heq.
    simpl in Heq. lia.
Qed.

(** The router can be built exactly when the resource is not at the path of the
    metadata. *)
Lemma build_router_distinct :
  distinct_paths (build_router config auth) ↔ McpConfig.mc_mcp_path config ≠ WELL_KNOWN.
Proof using accepted.
  unfold distinct_paths. rewrite build_router_paths. cbv zeta.
  set (p := McpConfig.mc_mcp_path config).
  assert (WELL_KNOWN ++ p ≠ p) as K1
    by (intros Hp; apply (f_equal length) in Hp; rewrite length_app in Hp; change (length WELL_KNOWN) with 37 in Hp; lia).
  assert (WELL_KNOWN ++ p ≠ p ++ $"/") as K2
    by (intros Hp; apply (f_equal length) in Hp; rewrite !length_app in Hp; change (length $"/") with 1 in Hp; change (length WELL_KNOWN) with 37 in Hp; lia).
  assert (p ≠ p ++ $"/") as K3
    by (intros Hp; apply (f_equal length) in Hp; rewrite length_app in Hp; change (length $"/") with 1 in Hp; lia).
  pose proof (well_known_slash p) as K4.
  assert (p = WELL_KNOWN ↔ WELL_KNOWN = p) as K5 by (split; congruence).
  pose proof (NoDup_nil_2 (A := str)) as K6. clearbody p.
  destruct (is_empty p) eqn:Hp; simpl; rewrite !NoDup_cons, !elem_of_cons, !elem_of_nil.
  - assert (WELL_KNOWN ≠ p) by (destruct p; done). tauto.
  - apply is_empty_false in Hp. assert (WELL_KNOWN ++ p ≠ WELL_KNOWN) as K7.
    { intros Heq. apply Hp. apply (f_equal length) in Heq. rewrite length_app in Heq.
      destruct p; [done|simpl in Heq; lia]. }
    tauto.
Qed.

Lemma build_router_speech ingress service tool pattern :
  mkRoute pattern (ServeSpeech ingress service tool) ∈ build_router config auth →
  pattern = Below (McpConfig.mc_mcp_path config).
Proof using.
  unfold build_router. destruct (negb _); simpl; rewrite !elem_of_cons, elem_of_nil; naive_solver.
Qed.
Lemma build_router_metadata pattern metadata :
  mkRoute pattern (ServeMetadata metadata) ∈ build_router config auth →
  metadata = resource_metadata config.
Proof using.
  unfold build_router. destruct (negb _); simpl; rewrite !elem_of_cons, elem_of_nil; naive_solver.
Qed.
End routes.

(** ** The invariant of the server *)
Section facts.
Context (query_keys : str → list str) (header_value : str → bool) (error_body : str → list N).
Context (encode : LocalPublishRequest → option (list N))
        (decode : list N → option LocalPublishResponse).
Context `{Jwt, AxumLaws, Rmcp} (config : McpConfig) (auth : AuthValidator).

#[local] Abbreviation I := (ingress_state config auth).
#[local] Abbreviation protect := (protect_step query_keys header_value error_body I).
#[local] Abbreviation step :=
  (server_step query_keys header_value error_body encode decode config auth).
#[local] Abbreviation steps :=
  (server_steps query_keys header_value error_body encode decode config auth).
#[local] Abbreviation authorized := (authorized query_keys I).

(** What a stage of the protection keeps of the request it belongs to. *)
Definition belongs (request : HttpRequest) (stage : Stage) : Prop :=
  matches (Below (McpConfig.mc_mcp_path config)) (hq_path request) = true ∧
  match stage with
  | Arrived r => r = hq_request request
  | Reading r => r = hq_request request ∧ authorized r
  | Running data =>
      authorized (hq_request request) ∧ data = rq_body (hq_request request) ∧
      (len data ≤ McpConfig.mc_max_request_bytes config)%N
  | _ => True
  end.

(** A call of the tool: on the resource, from an accepted token and an allowed
    host, with a body within the limit. *)
Definition call_ok (call : HttpRequest * PublishSpeechInput) : Prop :=
  let '(request, input) := call in
  matches (Below (McpConfig.mc_mcp_path config)) (hq_path request) = true ∧
  authorized (hq_request request) ∧ mcp_allowed (service_config config) request = true ∧
  mcp_call (rq_body (hq_request request)) = Some input ∧
  (len (rq_body (hq_request request)) ≤ McpConfig.mc_max_request_bytes config)%N.
Definition direct_ok (answer : HttpRequest * Reply) : Prop :=
  ∀ metadata, answer.2 = ReplyMetadata metadata → metadata = resource_metadata config.

Record server_inv (s : Server) : Prop := {
  si_ingress : ingress_inv query_keys header_value error_body I (sv_ingress s);
  si_belongs : Forall2 belongs (sv_guarded s) (in_requests (sv_ingress s));
  si_direct : Forall direct_ok (sv_direct s);
  si_calls : Forall call_ok (sv_calls s);
}.

Lemma protect_belongs action guarded s s' :
  is_protection action = true ∨ (∃ i response, action = Answer i response) →
  protect action s = Some s' → Forall2 belongs guarded (in_requests s) →
  Forall2 belongs guarded (in_requests s').
Proof using.
  intros Hact Hs Hall.
  assert (∀ i stage stage' permits, in_requests s !! i = Some stage →
    (∀ request, belongs request stage → belongs request stage') →
    Forall2 belongs guarded (in_requests (set_stage i stage' permits s))) as Hset.
  { intros i stage stage' permits Hi Hb. simpl.
    destruct (Forall2_lookup_r _ _ _ _ _ Hall Hi) as (request & Hr & Hbr).
    rewrite <-(list_insert_id guarded i request Hr). by apply Forall2_insert, Hb. }
  destruct action as [request|i now|i|i response|i|i|i]; simpl in Hs;
    [by destruct Hact as [|(? & ? & ?)]|
     destruct (in_requests s !! i) as [stage|] eqn:Hi; [|done];
     destruct stage as [request|request|data|response'|response'|]; try done..];
    try (injection Hs as <-; eapply Hset; [done|]; by intros r [? ?]).
  - destruct (refuse _ _ _ _ request now) as [response|] eqn:Hr;
      [|destruct (in_permits s); [|apply refuse_None in Hr]];
      injection Hs as <-; (eapply Hset; [done|]); intros r [? Hb]; by split.
  - destruct (to_bytes _ _ _) as [data|] eqn:Ht; injection Hs as <-; (eapply Hset; [done|]);
      intros r [? Hb]; split; try done. apply to_bytes_Some in Ht as [-> Hl].
    by destruct Hb as [-> ?].
Qed.

Lemma incoming_inv request s s' :
  server_inv s →
  incoming query_keys header_value error_body config auth request s = Some s' → server_inv s'.
Proof using All.
  intros [Hi Hb Hd Hc]. unfold incoming.
  assert (∀ reply, direct_ok (request, reply) → server_inv (reply_direct request reply s)) as Hdirect
    by (intros reply Hok; split; simpl; try done; apply Forall_app; by repeat constructor).
  destruct (select (build_router config auth) (hq_path request)) as [[pattern endpoint]|] eqn:Hs;
    simpl; [|intros [= <-]; by apply Hdirect].
  apply select_Some in Hs as [Hin Hm]. destruct endpoint as [metadata|ingress service tool].
  - intros [= <-]. apply Hdirect. intros metadata'. simpl. unfold get_handler.
    destruct (_ || _); [intros [= <-]; by eapply build_router_metadata|done].
  - intros [= <-]. apply build_router_speech in Hin as ->. split; simpl; try done.
    + eapply (protect_step_inv _ _ _ _ (Arrive (hq_request request))); [reflexivity|done].
    + apply Forall2_app; [done|]. by repeat constructor.
Qed.

Lemma server_step_inv action s s' : step action s = Some s' → server_inv s → server_inv s'.
Proof using All.
  intros Hs Hinv. pose proof Hinv as [Hi Hb Hd Hc].
  destruct action as [request|action|i joined exchange]; unfold server_step in Hs;
    [by eapply incoming_inv| |].
  - opt Hs as u Hp. apply reject_if_Some, negb_false_iff in Hp. opt Hs as ingress Hstep.
    injection Hs as <-. split; simpl; try done.
    + by eapply protect_step_inv.
    + eapply protect_belongs; [by left|done..].
  - destruct (in_requests (sv_ingress s) !! i) as [stage|] eqn:Hstage; [|done].
    destruct stage as [| |data| | |]; try done.
    destruct (sv_guarded s !! i) as [request|] eqn:Hrequest; [|done].
    destruct (handle _ _ _ request data joined exchange) as [response call] eqn:Hh.
    opt Hs as ingress Hstep. injection Hs as <-.
    destruct (Forall2_lookup_lr _ _ _ _ _ _ Hb Hrequest Hstage) as (Hpath & Hauth & -> & Hlen).
    split; simpl; [|eapply protect_belongs; [right; by eexists _, _|exact Hstep|done]|done|].
    + eapply (protect_step_inv _ _ _ _ (Answer i response)); [exact Hstep|done].
    + apply Forall_app. split; [done|]. unfold handle in Hh.
      destruct (mcp_allowed _ request) eqn:Hallowed; simpl in Hh; [|by injection Hh as _ <-].
      destruct (mcp_call _) as [input|] eqn:Hcall; injection Hh as _ <-; by repeat constructor.
Qed.

(** The tool is out of reach of everybody but the clients of the resource.
    However requests arrive, are served, time out and go away: every call of the
    tool was made by a request on the path of the resource, or below it, with a
    bearer token in its header that the authorization server of the
    configuration signed for this resource and whose scope was accepted, from an
    allowed host, and with a complete body within the limit, that holds the
    call; never more requests than configured are in the handler; and what is
    said without authorization is where to get it, the metadata of this
    configuration. *)
Theorem mcp_server_guarded s :
  rtc steps (server_new config auth) s →
  Forall call_ok (sv_calls s) ∧ Forall direct_ok (sv_direct s) ∧
  held (sv_ingress s) ≤ N.to_nat (McpConfig.mc_max_concurrency config) ∧
  in_permits (sv_ingress s) + held (sv_ingress s)
    = N.to_nat (McpConfig.mc_max_concurrency config).
Proof using All.
  intros Hs. assert (server_inv (server_new config auth)) as Hinv
    by (split; [apply ingress_new_inv|constructor..]).
  assert (server_inv s) as [Hi _ Hd Hc].
  { induction Hs as [|s1 s2 s3 [action Hstep] _ IH]; [done|]. by eapply IH, server_step_inv. }
  pose proof (ii_permits _ _ _ _ _ Hi) as Hp. simpl in Hp. split_and!; [done|done|lia|done].
Qed.
End facts.

(** C32: a client that was turned away finds its way. The server starts only with
    a valid configuration and key set; unless the resource is at the path of the
    metadata itself, its router can be built, and serves, without a token, at
    the path the challenge names, metadata that names the audience its tokens
    must have, their issuer among the authorization servers, and the scope they
    need; and the resource itself is served by the protected tool. *)
Theorem mcp_metadata_found `{UrlParser, Jwt, AxumLaws} is_socket_address file base config contents
    decode_keys auth :
  McpConfig.validate is_socket_address file base = Ok config →
  from_jwks_file contents decode_keys (McpConfig.mc_issuer config) (McpConfig.mc_audience config)
    (McpConfig.mc_required_scope config) = Ok auth →
  McpConfig.mc_mcp_path config ≠ WELL_KNOWN →
  distinct_paths (build_router config auth) ∧
  (∃ metadata origin,
    select (build_router config auth) (McpConfig.mc_metadata_path config)
      = Some (mkRoute (Exactly (McpConfig.mc_metadata_path config)) (ServeMetadata metadata)) ∧
    is_resource_metadata (ingress_state config auth)
      = origin ++ McpConfig.mc_metadata_path config ∧
    pm_resource metadata = av_audience auth ∧
    av_issuer auth ∈ pm_authorization_servers metadata ∧
    pm_scopes_supported metadata = [av_required_scope auth] ∧
    is_required_scope (ingress_state config auth) = av_required_scope auth) ∧
  ∀ path, matches (Below (McpConfig.mc_mcp_path config)) path = true →
    path ≠ McpConfig.mc_metadata_path config → path ≠ WELL_KNOWN →
    select (build_router config auth) path =
      Some (mkRoute (Below (McpConfig.mc_mcp_path config))
        (ServeSpeech (ingress_state config auth) (service_config config) (speech_tool config))).
Proof.
  intros Hv Hauth Hne. pose proof (proj2 (build_router_distinct _ _ _ _ auth Hv) Hne) as Hd.
  split; [exact Hd|]. unfold from_jwks_file, new_validator in Hauth.
  okay Hauth as keys Hkeys. okay Hauth as u Hvalid. injection Hauth as <-.
  apply McpConfig.mcp_config_iff in Hv as (resource & [_ _ _ Haud _ [_ Hissuer] _ _ _ _ _ _ _ _] & ->).
  split.
  - exists (resource_metadata (McpConfig.config_of resource
      (McpConfig.fc_authorization_servers file) file base)), (url_origin resource).
    split_and!; try done.
    apply select_exactly; [exact Hd|by left|done].
  - intros path Hpath Hmeta Hwk. set (router := build_router _ _).
    destruct (select router path) as [route|] eqn:Hs.
    + apply select_Some in Hs as [Hin Hm]. f_equal. unfold router, build_router in Hin.
      rewrite !elem_of_app, !elem_of_cons, elem_of_nil in Hin.
      destruct Hin as [[->|[]]|[Hin|[->|[]]]]; [|destruct (negb _); [|by apply elem_of_nil in Hin]|done].
      * by apply str_eqb_eq in Hm.
      * apply elem_of_cons in Hin as [->|[]%elem_of_nil]. by apply str_eqb_eq in Hm.
    + eapply select_None in Hs; [|unfold router, build_router; do 2 (apply elem_of_app; right); by left].
      simpl in *. congruence.
Qed.

(** ** An endpoint that serves one call *)
Module Example_endpoint.
Export Example_auth.
Definition resource : Url :=
  mkUrl $"https" [] None (Some $"mcp.example") $"/mcp" None None $"https://mcp.example".
Definition issuer_url : Url :=
  mkUrl $"https" [] None (Some $"auth.example") $"/" None None $"https://auth.example".
#[export] Instance urls : UrlParser := {| url_parse text :=
  if text =?s $"https://mcp.example/mcp" then Some resource
  else if text =?s $"https://auth.example" then Some issuer_url else None |}.
Definition file : McpConfig.FileConfig :=
  McpConfig.mkFileConfig $"127.0.0.1:8443" $"https://mcp.example/mcp" [$"https://auth.example"]
    $"https://auth.example" $"https://mcp.example/mcp" $"tts29:publish" $"jwks.json" $"daemon.sock"
    $"cert.pem" $"key.pem" [$"mcp.example"] [$"https://auth.example"] 1024 1024 2 30.
Definition config : McpConfig :=
  McpConfig.config_of resource [$"https://auth.example"] file $"/etc/tts29".
Lemma accepted : McpConfig.validate (λ _, true) file $"/etc/tts29" = Ok config.
Proof. vm_compute. reflexivity. Qed.
Definition auth : AuthValidator :=
  mkValidator [key] $"https://auth.example" $"https://mcp.example/mcp" $"tts29:publish".

(** The first route of exactly this path, or the first one that matches. *)
Definition exactly (path : str) (route : Route) : bool :=
  match rt_pattern route with Exactly p => path =?s p | Below _ => false end.
#[export] Instance axum : Axum := {| select router path :=
  match find (exactly path) router with
  | Some route => Some route
  | None => find (λ route, matches (rt_pattern route) path) router
  end |}.
Lemma find_exactly router path route :
  distinct_paths router → route ∈ router → rt_pattern route = Exactly path →
  find (exactly path) router = Some route.
Proof.
  unfold distinct_paths. intros Hd Hin Hp.
  induction router as [|route' router IH]; [by apply elem_of_nil in Hin|].
  simpl in Hd. apply NoDup_app in Hd as (_ & Hout & Hd). unfold find. simpl.
  assert (route ∈ router → path ∈ (router ≫= λ route, own_paths (rt_pattern route))) as Hpaths.
  { intros Hr. apply list_elem_of_bind. exists route. rewrite Hp. split; [by left|done]. }
  unfold exactly at 1. apply elem_of_cons in Hin as [<-|Hin]; [by rewrite Hp, str_eqb_refl|].
  destruct (rt_pattern route') as [p|p] eqn:Hp'; [|by apply IH].
  destruct (path =?s p) eqn:Heq; [|by apply IH]. apply str_eqb_eq in Heq as <-.
  exfalso. apply (Hout path); [by left|by apply Hpaths].
Qed.
#[export] Instance axum_laws : AxumLaws.
Proof.
  split.
  - intros router path route. simpl. destruct (find (exactly path) router) as [route'|] eqn:Hf.
    + intros [= <-]. apply find_Some in Hf as [Hin He]. split; [done|]. unfold exactly in He.
      by destruct (rt_pattern route').
    + intros Hr. by apply find_Some in Hr.
  - intros router path route. simpl. destruct (find (exactly path) router); [done|].
    intros Hn Hin. apply find_map_None with (x := route) in Hn; [|done].
    by destruct (matches _ _).
  - intros router path route Hd Hin Hp. simpl. by rewrite (find_exactly _ _ _ Hd Hin Hp).
Qed.

Definition input : PublishSpeechInput :=
  mkInput (mkRequest $"r" $"tts" $"af_heart" $"agent" $"Hello" $"short" $"Body" [] [] None) None.
#[export] Instance rmcp : Rmcp := {|
  mcp_allowed service request :=
    existsb (λ header, (header.1 =?s $"host")
      && existsb (λ host, host =?s header.2) (sc_allowed_hosts service)) (hq_headers request);
  mcp_call data := if decide (data = [1; 2]%N) then Some input else None;
  mcp_reply data result := mkResponse 200 None data false;
  mcp_other service request data := mkResponse 400 None [] false;
|}.
Definition call : HttpRequest :=
  mkHttpRequest $"POST" $"/mcp" [($"host", $"mcp.example")]
    (McpIngress.mkRequest None [Some $"Bearer token"] [1; 2]%N false).
Definition anonymous : HttpRequest :=
  mkHttpRequest $"GET" $"/.well-known/oauth-protected-resource/mcp" []
    (McpIngress.mkRequest None [] [] false).
Definition actions : list ServerAction :=
  [Incoming anonymous; Incoming call; Protect (Admit 0 200); Protect (Read 0);
   Handle 0 true (λ _, Err []); Protect (Bound 0)].
Abbreviation act := (server_step (λ _, []) (λ _, true) bytes (λ _, None) (λ _, None) config auth).
Definition run : option Server :=
  try_fold (λ s action, act action s) (server_new config auth) actions.
End Example_endpoint.
#[local] Existing Instances Example_endpoint.urls Example_endpoint.axum Example_endpoint.axum_laws
  Example_endpoint.rmcp Example_auth.jwt Example_auth.jwt_laws.

Lemma example_reached s s' actions :
  try_fold (λ s action, Example_endpoint.act action s) s actions = Some s' →
  rtc (server_steps (λ _, []) (λ _, true) bytes (λ _, None) (λ _, None)
    Example_endpoint.config Example_endpoint.auth) s s'.
Proof.
  revert s. induction actions as [|action actions IH]; intros s Hs; simpl in Hs.
  - by injection Hs as <-.
  - apply bind_Some' in Hs as (s1 & Ha & Hs). eapply rtc_l; [by exists action|by apply IH].
Qed.

Lemma mcp_server_guarded_witness :
  ∃ s, Example_endpoint.run = Some s ∧
    sv_calls s = [(Example_endpoint.call, Example_endpoint.input)] ∧
    Forall (call_ok (λ _, []) Example_endpoint.config Example_endpoint.auth) (sv_calls s) ∧
    in_permits (sv_ingress s) = 2.
Proof.
  destruct Example_endpoint.run as [s|] eqn:Hrun; [|vm_compute in Hrun; discriminate].
  exists s. split; [done|]. pose proof (mcp_server_guarded (λ _, []) (λ _, true) bytes (λ _, None)
    (λ _, None) Example_endpoint.config Example_endpoint.auth s (example_reached _ _ _ Hrun))
    as (Hcalls & _ & _ & Hsum).
  vm_compute in Hrun. injection Hrun as <-.
  split; [vm_compute; reflexivity|]. split; [exact Hcalls|vm_compute; reflexivity].
Defined.

Lemma mcp_metadata_found_witness :
  distinct_paths (build_router Example_endpoint.config Example_endpoint.auth) ∧
  rt_pattern <$> select (build_router Example_endpoint.config Example_endpoint.auth) $"/mcp/x" =
    Some (Below $"/mcp").
Proof.
  destruct (mcp_metadata_found (λ _, true) Example_endpoint.file $"/etc/tts29"
    Example_endpoint.config (Ok []) (λ _, Ok [Example_auth.key]) Example_endpoint.auth)
    as (Hd & _ & Hspeech).
  - exact Example_endpoint.accepted.
  - vm_compute. reflexivity.
  - vm_compute. discriminate.
  - split; [exact Hd|]. rewrite (Hspeech $"/mcp/x"); [reflexivity|vm_compute..]; [reflexivity|discriminate..].
Defined.
