(* ===== verification/McpMain.v ===== *)
(** The MCP endpoint as a process ([mcp/src/main.rs]): from the command line and
    the files it reads to what it serves, and how it ends. *)

From S2P Require Cli McpConfig Paths.
From S2P Require Export Utf8 McpServer.

(** One run of the program: whether the runtime could be built, the command
    line, what can be read of each file, what becomes of reading the certificate
    and its key, and how serving a router at an address ends. *)
Record McpRun := mkMcpRun {
  mr_runtime : option str;
  mr_arguments : list OsString;
  mr_contents : str → result str (list N);
  mr_certificate : str → str → result str unit;
  mr_serve : str → Router → result str unit;
}.

(** How it ends: what the program itself writes to the standard error, and the
    status. *)
Record Exited := mkExited { ex_error : option str; ex_status : N }.

(** [axum] also panics on a path with a segment that starts with a colon or an
    asterisk, as captures were written before; braces, as they are written now,
    do not occur in the path of a parsed URL. *)
Definition plain_segment (segment : str) : bool :=
  negb (starts_with $":" segment) && negb (starts_with $"*" segment).
Definition plain_pattern (pattern : Pattern) : bool :=
  match pattern with Exactly path | Below path => forallb plain_segment (split_on 47 path) end.

(** The router can be built; otherwise that is a panic. *)
Definition router_builds (config : McpConfig) (auth : AuthValidator) : bool :=
  let router := build_router config auth in
  bool_decide (distinct_paths router) && forallb (plain_pattern ∘ rt_pattern) router.

Section main.
Context `{UrlParser} (is_socket_address : str → bool)
        (decode_config : list N → result str McpConfig.FileConfig)
        (decode_keys : list N → result str (list Jwk)).

Definition usage : str := $"usage: tts29-mcp --config <mcp.json>".

Section run.
Context (R : McpRun).

Definition loaded_config : result Cli.Exit McpConfig :=
  argument ← Cli.config_argument usage (mr_arguments R);
  let path := Cli.path_of argument in
  map_err Cli.Failed
    (McpConfig.load_config is_socket_address path (mr_contents R path) decode_config).

Definition loaded_auth (config : McpConfig) : result str AuthValidator :=
  from_jwks_file (mr_contents R (McpConfig.mc_jwks_path config)) decode_keys
    (McpConfig.mc_issuer config) (McpConfig.mc_audience config)
    (McpConfig.mc_required_scope config).

Definition run : result Cli.Exit unit :=
  config ← loaded_config;
  map_err Cli.Failed
    (run_server config (mr_contents R) decode_keys (mr_certificate R) (mr_serve R)).

(** The run comes to building the router, and panics. *)
Definition router_panics : bool :=
  match loaded_config with
  | Ok config =>
      match loaded_auth config with
      | Ok auth => negb (router_builds config auth)
      | Err _ => false
      end
  | Err _ => false
  end.

(** [main]; a panic ends a process with 101. *)
Definition main : Exited :=
  match mr_runtime R with
  | Some error => mkExited (Some ($"tts29-mcp: runtime could not start: " ++ error)) 1
  | None =>
      if router_panics then mkExited None 101 else
      match run with
      | Ok _ | Err Cli.Usage => mkExited None 0
      | Err (Cli.Failed error) => mkExited (Some ($"tts29-mcp: " ++ error)) 1
      end
  end.

(** The run comes to serve this configuration. *)
Definition serves (config : McpConfig) (auth : AuthValidator) : Prop :=
  mr_runtime R = None ∧ loaded_config = Ok config ∧ loaded_auth config = Ok auth ∧
  router_builds config auth = true ∧
  mr_certificate R (McpConfig.mc_tls_certificate_path config)
    (McpConfig.mc_tls_private_key_path config) = Ok ().
End run.
End main.

Section facts.
Context `{UrlParser} (is_socket_address : str → bool)
        (decode_config : list N → result str McpConfig.FileConfig)
        (decode_keys : list N → result str (list Jwk)).

#[local] Abbreviation main := (main is_socket_address decode_config decode_keys).
#[local] Abbreviation run := (run is_socket_address decode_config decode_keys).
#[local] Abbreviation serves := (serves is_socket_address decode_config decode_keys).
#[local] Abbreviation loaded_config := (loaded_config is_socket_address decode_config).
#[local] Abbreviation loaded_auth := (loaded_auth decode_keys).

Definition with_serve (serve : str → Router → result str unit) (R : McpRun) : McpRun :=
  mkMcpRun (mr_runtime R) (mr_arguments R) (mr_contents R) (mr_certificate R) serve.

(** What the file of the command line says, when it is accepted. *)
Lemma loaded_config_ok R config :
  loaded_config R = Ok config →
  ∃ path data file resource,
    mr_arguments R = [$"--config"; path] ∧ mr_contents R (Cli.path_of path) = Ok data ∧
    (len data ≤ McpConfig.MAX_CONFIG_BYTES)%N ∧ decode_config data = Ok file ∧
    McpConfig.config_valid is_socket_address file resource ∧
    config = McpConfig.config_of resource (McpConfig.fc_authorization_servers file) file
      (default $"." (Paths.parent (Cli.path_of path))).
Proof.
  unfold McpMain.loaded_config. intros Hc. okay Hc as path Hp. apply map_err_ok in Hc.
  unfold McpConfig.load_config, McpConfig.read_bounded in Hc. okay Hc as data Hd.
  okay Hd as all Hall. apply map_err_ok in Hall. passed Hd as Hlen. injection Hd as <-.
  okay Hc as file Hf. apply map_err_ok in Hf.
  apply McpConfig.mcp_config_iff in Hc as (resource & Hv & ->).
  assert (take (N.to_nat (McpConfig.MAX_CONFIG_BYTES + 1)) all = all) as Htake.
  { apply take_ge. reflect. unfold len in Hlen. rewrite length_take in Hlen. lia. }
  rewrite Htake in *. reflect. exists path, all, file, resource. split_and!; try done.
  unfold Cli.config_argument in Hp. destruct (mr_arguments R) as [|flag [|value [|]]]; try done.
  - by destruct (_ || _).
  - destruct (flag =?s $"--config") eqn:Hflag; [|done]. apply str_eqb_eq in Hflag as ->.
    by injection Hp as <-.
Qed.

Lemma loaded_config_with serve R : loaded_config (with_serve serve R) = loaded_config R.
Proof. done. Qed.
Lemma loaded_auth_with serve R config :
  loaded_auth (with_serve serve R) config = loaded_auth R config.
Proof. done. Qed.

(** [main], step by step. *)
Definition failed (error : str) : Exited := mkExited (Some ($"tts29-mcp: " ++ error)) 1.
Lemma main_steps R :
  main R =
  match mr_runtime R with
  | Some error => failed ($"runtime could not start: " ++ error)
  | None =>
      match loaded_config R with
      | Err Cli.Usage => mkExited None 0
      | Err (Cli.Failed error) => failed error
      | Ok config =>
          match loaded_auth R config with
          | Err error => failed error
          | Ok auth =>
              if negb (router_builds config auth)
              then mkExited None 101 else
              match mr_certificate R (McpConfig.mc_tls_certificate_path config)
                      (McpConfig.mc_tls_private_key_path config) with
              | Err error => failed ($"TLS configuration could not be loaded: " ++ error)
              | Ok _ =>
                  match mr_serve R (McpConfig.mc_bind config) (build_router config auth) with
                  | Ok _ => mkExited None 0
                  | Err error => failed ($"HTTPS MCP endpoint failed: " ++ error)
                  end
              end
          end
      end
  end.
Proof.
  unfold McpMain.main, router_panics, McpMain.run, failed.
  destruct (mr_runtime R); [done|]. destruct (loaded_config R) as [config|[|error]]; [|done..].
  simpl. unfold run_server. fold (loaded_auth R config).
  destruct (loaded_auth R config) as [auth|error]; [|done]. simpl.
  destruct (negb _); [done|]. destruct (mr_certificate _ _ _) as [[]|error]; [|done]. simpl.
  by destruct (mr_serve _ _ _) as [[]|error].
Qed.

(** The program serves what it has loaded, or nothing: then it ends in the same
    way whatever serving would do. *)
Lemma main_serves R :
  (∃ config auth, serves R config auth ∧
     main R = match mr_serve R (McpConfig.mc_bind config) (build_router config auth) with
              | Ok _ => mkExited None 0
              | Err error => failed ($"HTTPS MCP endpoint failed: " ++ error)
              end) ∨
  ((∀ config auth, ¬ serves R config auth) ∧ ∀ serve, main (with_serve serve R) = main R).
Proof.
  destruct (mr_runtime R) eqn:Hr; [right|destruct (loaded_config R) as [config|exit] eqn:Hc;
    [destruct (loaded_auth R config) as [auth|] eqn:Ha;
     [destruct (router_builds config auth) eqn:Hd;
      [destruct (mr_certificate R (McpConfig.mc_tls_certificate_path config)
         (McpConfig.mc_tls_private_key_path config)) as [[]|] eqn:Hcert; [left|right]
      |right]|right]|right]].
  2:{ exists config, auth. split; [|by rewrite main_steps, Hr, Hc, Ha, Hd, Hcert].
      by split_and!. }
  all: split; [intros config' auth' (Hr' & Hc' & Ha' & Hd' & Hcert');
    try congruence; assert (config' = config) as -> by congruence; try congruence;
    assert (auth' = auth) as -> by congruence; congruence|].
  all: intros serve; rewrite !main_steps, loaded_config_with; simpl; rewrite Hr, ?Hc, ?Hd; try done;
    simpl; rewrite loaded_auth_with, Ha; try done; by rewrite Hd, ?Hcert.
Qed.
End facts.

(** C13: what a run of the endpoint comes to. Either it serves nothing, whatever
    serving would have done; or it was started with a configuration file that is
    sound, with a sound set of public keys, it serves the router of this
    configuration and no other, and ends as serving ends. Then, however requests
    arrive and are served, every call of the tool was made on the path of the
    resource, from an allowed host, with a complete body within the limit, and
    with a bearer token that is authentic for exactly this issuer and resource,
    signed by a key of the set, in time and of the required scope; no more
    requests than configured are in the handler; and what is said without a
    token is the metadata of this configuration. *)
Theorem mcp_process_guarded `{UrlParser, JwtLaws, AxumLaws, Rmcp} is_socket_address
    decode_config decode_keys query_keys header_value error_body encode decode R :
  let main := main is_socket_address decode_config decode_keys in
  let serves := serves is_socket_address decode_config decode_keys in
  ((∀ config auth, ¬ serves R config auth) ∧ ∀ serve, main (with_serve serve R) = main R) ∨
  ∃ config auth path data file resource,
    serves R config auth ∧
    mr_arguments R = [$"--config"; path] ∧ mr_contents R (Cli.path_of path) = Ok data ∧
    (len data ≤ McpConfig.MAX_CONFIG_BYTES)%N ∧ decode_config data = Ok file ∧
    McpConfig.config_valid is_socket_address file resource ∧ jwks_valid (av_keys auth) ∧
    distinct_paths (build_router config auth) ∧
    main R = match mr_serve R (McpConfig.fc_bind file) (build_router config auth) with
             | Ok _ => mkExited None 0
             | Err error => failed ($"HTTPS MCP endpoint failed: " ++ error)
             end ∧
    ∀ s,
      rtc (server_steps query_keys header_value error_body encode decode config auth)
        (server_new config auth) s →
      Forall (λ call, call_ok query_keys config auth call ∧ ∃ token now,
        bearer_token (rq_authorization (hq_request call.1)) = Some token ∧
        ((now ≤ u64_max)%N → ∃ claims,
          authentic auth now token claims ∧ av_issuer auth = McpConfig.fc_issuer file ∧
          av_audience auth = McpConfig.fc_resource file ∧
          McpConfig.fc_required_scope file ∈ split_ascii_whitespace (claim_scope claims)))
        (sv_calls s) ∧
      Forall (direct_ok config) (sv_direct s) ∧
      held (sv_ingress s) ≤ N.to_nat (McpConfig.fc_max_concurrency file).
Proof.
  intros main serves.
  destruct (main_serves is_socket_address decode_config decode_keys R)
    as [(config & auth & Hserves & Hmain)|Hno]; [right|by left].
  pose proof Hserves as (_ & Hc & Ha & Hd & _).
  apply loaded_config_ok in Hc as (path & data & file & resource & Hargs & Hdata & Hlen & Hf & Hv &
    Heq).
  pose proof (McpConfig.cf_audience _ _ _ Hv) as Haud.
  unfold loaded_auth, from_jwks_file, new_validator in Ha. okay Ha as keys Hkeys.
  okay Ha as [] Hvalid. injection Ha as Ha. apply validate_jwks_iff in Hvalid.
  exists config, auth, path, data, file, resource. split_and!; try done.
  { by rewrite <-Ha. } { by apply andb_true_iff in Hd as [Hd%bool_decide_eq_true _]. } { etrans; [exact Hmain|]. by rewrite Heq. }
  intros s Hs.
  pose proof (mcp_server_guarded _ _ _ _ _ _ _ _ Hs) as (Hcalls & Hdirect & Hheld & _).
  split_and!; [|done|by rewrite Heq in Hheld].
  eapply Forall_impl; [exact Hcalls|]. intros [request input] Hcall. split; [done|].
  destruct Hcall as (_ & (token & now & _ & Htoken & Hok) & _). exists token, now.
  split; [done|]. intros Hnow. apply validate_accepted in Hok as (claims & Hau & Hscope); [|done].
  exists claims. split; [done|]. unfold has_scope in Hscope. simpl in *. subst auth config.
  simpl in *. by rewrite <-Haud.
Qed.

(** A run that serves until it is stopped. *)
Module Example_process.
Export Example_endpoint.
Definition R : McpRun :=
  mkMcpRun None [$"--config"; $"/etc/tts29/mcp.json"] (λ _, Ok [1%N]) (λ _ _, Ok ())
    (λ _ _, Ok ()).
Definition decode_config (_ : list N) : result str McpConfig.FileConfig := Ok file.
Definition decode_keys (_ : list N) : result str (list Jwk) := Ok [key].
End Example_process.
#[local] Existing Instances Example_endpoint.urls Example_endpoint.axum Example_endpoint.axum_laws
  Example_endpoint.rmcp Example_auth.jwt Example_auth.jwt_laws.

Lemma mcp_process_guarded_witness :
  serves (λ _, true) Example_process.decode_config Example_process.decode_keys Example_process.R
    Example_endpoint.config Example_endpoint.auth ∧
  main (λ _, true) Example_process.decode_config Example_process.decode_keys Example_process.R
    = mkExited None 0 ∧
  ∃ auth, jwks_valid (av_keys auth) ∧ distinct_paths (build_router Example_endpoint.config auth).
Proof.
  assert (serves (λ _, true) Example_process.decode_config Example_process.decode_keys
    Example_process.R Example_endpoint.config Example_endpoint.auth) as Hserves
    by (repeat split; vm_compute; reflexivity).
  split; [exact Hserves|].
  destruct (mcp_process_guarded (λ _, true) Example_process.decode_config
    Example_process.decode_keys (λ _, []) (λ _, true) bytes (λ _, None) (λ _, None)
    Example_process.R)
    as [[Hno _]|(config & auth & path & data & file & resource & Hs & _ & _ & _ & _ & _ & Hkeys &
      Hpaths & Hmain & _)].
  - destruct (Hno _ _ Hserves).
  - split; [exact Hmain|]. exists auth. split; [exact Hkeys|].
    destruct Hs as (_ & Hc & _). destruct Hserves as (_ & Hc' & _).
    rewrite Hc in Hc'. injection Hc' as Hc'. rewrite <-Hc'. exact Hpaths.
Defined.
