(* ===== verification/Daemon.v ===== *)
(** The process [tts29d] ([daemon/src/bin/tts29d.rs]): its argument, its
    configuration, the start of the producer, the private socket, the loop over
    connections, and how it ends. The composition of [Cli], [DaemonConfig],
    [Startup], [Socket], [LocalServer] and of the capabilities, over one disk;
    and what is left of any number of runs, each of which may find other files
    gone wrong, other environments and other processes. *)

From S2P Require Cli Socket SocketFacts.
From S2P Require Export NmpPublisher Startup LocalServer Ledger.

(** [Engine::shutdown], and the files of the work directory. *)
Class EngineStop (E : Type) := { shutdown_engine : E → E }.
Class WorkHost (E : Type) := {
  work_files : E → World;
  set_work_files : World → E → E;
}.

(** ** The capabilities of the runner

    The runner's environment is the publisher and, in it, the engine with all
    that is outside the process; every capability acts on that. *)
Section capabilities.
Context `{Nip29, Hashing, UrlParser} {E : Type}.
Context `{!ProducerEnv E, !WorkDir E, !DaemonEngine E, !BlossomClient E, !AnswerEngine E,
          !WorkHost E}.

Definition through {X A} (m : io E X A) : io (NmpPublisher E) X A := λ p,
  let '(r, e) := m (np_engine p) in (r, mkPublisher _ e (np_authorized p)).
Definition on_work {X A} (m : io World X A) : io E X A := λ e,
  let '(r, files) := m (work_files e) in (r, set_work_files files e).

Definition synthesizer_of (fault : nat → option nat) (process_id : N)
    (send : nat → Url → SpeechPost → result str HttpResponse) (K : KokoroSynthesizer)
    : Synthesizer (NmpPublisher E) := {|
  synthesize request output :=
    through (on_work (synthesize_audio fault process_id send K request output));
|}.
Definition uploader_of (U : BlossomArtifactUploader) : ArtifactUploader (NmpPublisher E) := {|
  make_durable audio := through (make_durable_audio U audio);
|}.
#[export] Instance publisher_work_dir : WorkDir (NmpPublisher E) := {|
  create_dir_all path := through (create_dir_all path);
  read_file path := through (read_file path);
|}.
(** The files of a tree go through the uploader of the producer. *)
Definition producer_env_of (U : BlossomArtifactUploader) : ProducerEnv (NmpPublisher E) := {|
  Registration := Registration;
  registered_key := registered_key;
  add_account secret := through (add_account secret);
  remove_account registration := through (remove_account registration);
  read_to_string path := through (read_to_string path);
  make_durable_file path label := through (make_durable_attachment U path label);
  unix_millis p := let '(millis, e) := unix_millis (np_engine p) in
                   (millis, mkPublisher _ e (np_authorized p));
|}.
#[export] Instance publisher_answers : AnswerEngine (NmpPublisher E) := {|
  observe_answers host group_id := through (observe_answers host group_id);
|}.
End capabilities.

(** ** The responses of a session *)
Section history.
Context {S : Type} `{LocalPublishService S}.
Context (decode_publish : list N → option LocalPublishRequest)
        (decode_tree : list N → option LocalTreeRequest)
        (encode_response : LocalPublishResponse → result str (list N)).

(** The response of one connection, when it got as far as that. *)
Definition answer_of (stream : Connection) (service : S) : list LocalPublishResponse :=
  match cn_set_timeouts stream with
  | Err _ => []
  | Ok _ => [(respond decode_publish decode_tree (read_frame stream) service).1]
  end.
(** The responses of the loop, in the order of [serve_until_shutdown]. *)
Fixpoint answers (rounds : list Round) (service : S) : list LocalPublishResponse :=
  match rounds with
  | [] => []
  | round :: rounds =>
      if rd_requested round then []
      else match rd_accept round with
        | Err _ => []
        | Ok stream =>
            if rd_requested_after round then []
            else answer_of stream service ++
                   answers rounds
                     (serve_stream decode_publish decode_tree encode_response stream service).2
        end
  end.

Lemma serve_stream_state stream (s : S) :
  (serve_stream decode_publish decode_tree encode_response stream s).2 =
  match cn_set_timeouts stream with
  | Err _ => s
  | Ok _ => (respond decode_publish decode_tree (read_frame stream) s).2
  end.
Proof.
  unfold serve_stream, mbind, io_bind, io_lift. destruct (cn_set_timeouts stream); [|done].
  destruct (respond _ _ _ s) as [response s']. simpl.
  destruct (map_err _ _); [|done]. destruct (cn_write stream _); [|done].
  by destruct (cn_shutdown stream).
Qed.

Lemma answers_session rounds : ∀ s r s',
  serve_until_shutdown decode_publish decode_tree encode_response rounds s = (r, s') →
  session decode_publish decode_tree (answers rounds s) s s'.
Proof.
  induction rounds as [|[before accepted after] rounds IH]; intros s r s'; simpl.
  { intros [= _ <-]. constructor. }
  destruct before; [intros [= _ <-]; constructor|].
  destruct accepted as [stream|e]; [|intros [= _ <-]; constructor].
  destruct after; [intros [= _ <-]; constructor|].
  pose proof (serve_stream_state stream s) as Hstate.
  destruct (serve_stream _ _ _ stream s) as [r1 s1]. intros Hloop%IH. simpl in *. subst s1.
  unfold answer_of. destruct (cn_set_timeouts stream); [|done].
  econstructor; [|exact Hloop]. apply respond_answered, surjective_pairing.
Qed.

Lemma answer_session stream (s : S) :
  session decode_publish decode_tree (answer_of stream s) s
    (serve_stream decode_publish decode_tree encode_response stream s).2.
Proof.
  pose proof (answers_session [mkRound false (Ok stream) false] s _ _ (surjective_pairing _)) as K.
  simpl in K. rewrite app_nil_r in K.
  by destruct (serve_stream decode_publish decode_tree encode_response stream s).
Qed.
End history.

(** ** One run *)

(** What a run of the process meets. *)
Record Run := mkRun {
  in_arguments : list OsString;
  in_variable : str → EnvVar;
  in_config : str → result IoError (list N);   (** reading the configuration *)
  in_fault : nat → option nat;                 (** the file-system steps that fail *)
  in_random : nat → list N;
  in_process_id : N;
  in_send : nat → Url → SpeechPost → result str HttpResponse;
  in_handler : result str unit;                (** [ctrlc::set_handler] *)
  in_rounds : list Round;
  in_socket_fault : nat → bool;
  in_others : nat → Socket.Nodes → Socket.Nodes;
  in_identity : nat → N * N;
  in_umask : N;
}.

Abbreviation path_of := Cli.path_of.

Section run.
Context `{Nip29, Hashing, UrlParser} {E : Type}.
Context `{!ProducerEnv E, !WorkDir E, !DaemonEngine E, !BlossomClient E, !AnswerEngine E,
          !WorkHost E, !EngineStart E, !EngineStop E}.
(** Debug texts, correlation tokens, and JSON. *)
Context (status_debug : WriteStatus → str) (token : str → result str str).
Context (decode_config : list N → result str FileConfig)
        (to_json : JobRecord → option (list N)) (from_json : list N → option JobRecord).
Context (decode_publish : list N → option LocalPublishRequest)
        (decode_tree : list N → option LocalTreeRequest)
        (encode_response : LocalPublishResponse → result str (list N)).

#[local] Abbreviation world := (@IdentityWorld E).

(** What is there besides the process: the files and the engine, the names of
    the sockets, and, as a history, every response given so far with the group
    it was given for. *)
Record Host := mkHost {
  hs_world : world;
  hs_socket : Socket.SocketWorld;
  hs_answers : list (str * LocalPublishResponse);
}.

#[local] Abbreviation M := (io Host Cli.Exit).

Definition on_world {X A} (m : io world X A) : io Host X A := λ s,
  let '(r, w) := m (hs_world s) in (r, mkHost w (hs_socket s) (hs_answers s)).
Definition on_socket {X A} (m : io Socket.SocketWorld X A) : io Host X A := λ s,
  let '(r, w) := m (hs_socket s) in (r, mkHost (hs_world s) w (hs_answers s)).
Definition failed {X} (context : str) (text : X → str) (e : X) : Cli.Exit :=
  Cli.Failed (context ++ text e).

Context (R : Run).

Definition journal_config (root : str) : FileJobJournal.Config :=
  FileJobJournal.mkConfig root (in_process_id R) (in_fault R) to_json from_json.

(** The producer that [open] returned, as the server serves it. *)
Section serving.
Context (P : ProductionProducer (E := E)).
#[local] Existing Instances publisher_work_dir publisher_answers.
#[local] Instance live_journal : JobJournal World := file_journal (journal_config (op_journal_root P)).
#[local] Instance live_synthesis : Synthesizer (NmpPublisher E) :=
  synthesizer_of (in_fault R) (in_process_id R) (in_send R) (op_synthesizer P).
#[local] Instance live_upload : ArtifactUploader (NmpPublisher E) := uploader_of (op_uploader P).
#[local] Instance live_publication : Publisher (NmpPublisher E) :=
  nmp_publisher status_debug token (op_host P) (op_group_id P) (registered_key (op_account P)).
#[local] Instance live_environment : ProducerEnv (NmpPublisher E) :=
  producer_env_of (op_file_uploader P).

Definition live_producer : Type := @Producer World (NmpPublisher E) live_environment.

Definition opened (w : world) : live_producer :=
  Production.mkProducer (mkRunner (iw_files w) (mkPublisher _ (iw_env w) ∅)) (op_account P).
Definition left_by (w : world) (p : live_producer) : world :=
  mkIdentityWorld (rn_journal (pd_runner p)) (iw_meta w) (np_engine (rn_env (pd_runner p)))
    (iw_draws w).

#[local] Instance live_service : LocalPublishService live_producer :=
  producer_service (op_work_root P) (op_group_id P) (op_default_voice P)
    (mkWaiter (op_host P) (op_group_id P)).

(** [serve_until_shutdown] and [producer.shutdown()]; [None] while the process
    waits for a connection. *)
Definition shut (w : world) : world :=
  mkIdentityWorld (iw_files w) (iw_meta w) (shutdown_engine (iw_env w)) (iw_draws w).
Definition serve : M (option unit) := λ s,
  let start := opened (hs_world s) in
  let '(r, p) := serve_until_shutdown decode_publish decode_tree encode_response
                   (in_rounds R) start in
  let w := left_by (hs_world s) p in
  let log := hs_answers s ++ (pair (op_group_id P) <$> answers decode_publish decode_tree encode_response (in_rounds R) start) in
  match r with
  | None => (Ok None, mkHost w (hs_socket s) log)
  | Some r => (Some <$> map_err (failed $"local endpoint failed: " sf_text) r,
               mkHost (shut w) (hs_socket s) log)
  end.
End serving.

(** A value that goes out of scope when the computation is over, but not while
    it still runs. *)
Definition scope {X A} (leave : io Host X unit) (m : io Host X (option A))
    : io Host X (option A) :=
  r ← io_try m;
  match r with
  | Ok None => mret None
  | r => _ ← leave; io_lift r
  end.
(** [Drop for ProductionProducer] and [Drop for PrivateUnixListener]. *)
Definition drop_producer {X} : io Host X unit := on_world (λ w, (Ok (), shut w)).
Definition drop_listener {X} (l : Socket.PrivateUnixListener) : io Host X unit :=
  on_socket (λ w, (Ok (), (Socket.drop (in_socket_fault R) (in_others R) l w).2)).

Definition usage : str := $"usage: tts29d --config <daemon.json>".

Definition loaded_config : result Cli.Exit LoadedDaemonConfig :=
  argument ← Cli.config_argument usage (in_arguments R);
  let path := path_of argument in
  map_err Cli.Failed (load_daemon_config (in_variable R) path (in_config R path) decode_config).

Definition run : M (option unit) :=
  loaded ← io_lift loaded_config;
  producer ← io_map_err Cli.Failed
    (on_world (open_with_clock (in_fault R) (in_random R) status_debug token
                 (lc_production loaded)));
  scope drop_producer (
    listener ← io_map_err (failed $"local endpoint could not start: " Socket.se_text)
      (on_socket (Socket.bind (in_socket_fault R) (in_others R) (in_identity R) (in_umask R)
                    (lc_socket_path loaded)));
    scope (drop_listener listener) (
      _ ← io_lift (map_err (failed $"shutdown signal handler could not start: " id)
                     (in_handler R));
      serve producer)).

(** [main]: the status of the process, when it ends. *)
Definition exit_status (s : Host) : option N :=
  match (run s).1 with
  | Ok None => None
  | Ok (Some _) | Err Cli.Usage => Some 0
  | Err (Cli.Failed _) => Some 1
  end%N.
End run.

(** ** What a run leaves *)
Section facts.
Context `{Nip29Laws, Hashing, UrlParser} {E : Type}.
Context `{!ProducerEnv E, !WorkDir E, !DaemonEngine E, !BlossomClient E, !AnswerEngine E,
          !WorkHost E, !EngineStart E, !EngineStop E}.
Context (status_debug : WriteStatus → str) (token : str → result str str).
Context (decode_config : list N → result str FileConfig)
        (to_json : JobRecord → option (list N)) (from_json : list N → option JobRecord).
Context (decode_publish : list N → option LocalPublishRequest)
        (decode_tree : list N → option LocalTreeRequest)
        (encode_response : LocalPublishResponse → result str (list N)).
Hypothesis json_laws : ∀ job data, to_json job = Some data →
  from_json (data ++ [10%N]) = Some job.

#[local] Abbreviation host := (@Host E).
#[local] Abbreviation run :=
  (run status_debug token decode_config to_json from_json decode_publish decode_tree
     encode_response).
#[local] Abbreviation serve :=
  (serve status_debug token to_json from_json decode_publish decode_tree encode_response).

Definition Jobs := str → option JobRecord.

(** The records of a journal on the disk. *)
Definition records (root : str) (s : host) : Jobs :=
  FileJobJournal.stored (FileJobJournal.mkConfig root 0 (λ _, None) to_json from_json)
    (iw_files (hs_world s)).

Definition records_ok (jobs : Jobs) : Prop := ∀ id job, jobs id = Some job → job_ok id job.

(** No record is lost, and none goes backwards. *)
Definition carried (jobs jobs' : Jobs) : Prop :=
  ∀ id job, jobs id = Some job →
    ∃ phase, jobs' id = Some (set_phase phase job) ∧ rtc phase_edge (job_phase job) phase.

(** What a response given for a group says of the records. *)
Definition claimed (jobs : Jobs) (group : str) (response : LocalPublishResponse) : Prop :=
  match response with
  | ResponsePublished _ id receipt_id event_id wait =>
      ∃ job item membership, jobs id = Some job ∧
        job_phase job = JobPublished item membership receipt_id event_id ∧
        ∀ answer, wait = Answered answer →
          answer_reported group event_id (fz_questions item) answer
  | ResponsePublishedTree _ id root children =>
      ∃ author title questions attachments,
        node_job group author jobs id title questions None root ∧
        children_published group author jobs id root 0 attachments children
  | ResponseError _ _ _ => True
  end.

(** The state the daemon keeps its promises in: consistent records, and all the
    responses ever given are true of them. *)
Record host_ok (root : str) (s : host) : Prop := {
  ho_records : records_ok (records root s);
  ho_answers : Forall (λ answer, claimed (records root s) answer.1 answer.2) (hs_answers s);
}.

(** The specification's view of the records and of the history. *)
Definition service_of (root : str) (s : host) : Service :=
  mkService (ledger_of (records root s)) (hs_answers s).

Lemma claimed_true jobs group response :
  claimed jobs group response → answer_true (ledger_of jobs) response.
Proof using.
  destruct response as [version id receipt_id event_id wait|version id root children|];
    simpl; [| |done].
  - intros (job & item & membership & Hj & Hph & _). exists (order_of job). unfold ledger_of.
    rewrite Hj. simpl. unfold entry_of. by rewrite Hph.
  - intros (author & title & qs & atts & Hn & Hc).
    split; [by eapply node_closed|by eapply children_closed].
Qed.

(** *** Records that are carried on *)
#[export] Instance carried_preorder : PreOrder carried.
Proof using.
  split.
  - intros jobs id job Hj. exists (job_phase job). by destruct job.
  - intros jobs1 jobs2 jobs3 H12 H23 id job Hj.
    destruct (H12 _ _ Hj) as (p & Hp & Hpe). destruct (H23 _ _ Hp) as (q & Hq & Hqe).
    exists q. split; [done|]. simpl in Hqe. by etrans.
Qed.

Lemma published_edge phase event phase' :
  phase_event_id phase = Some event → rtc phase_edge phase phase' → phase' = phase.
Proof using.
  intros Hev Hs. inversion Hs as [|? ? ? Hedge]; subst; [done|]. by inversion Hedge; subst.
Qed.

Lemma carried_published jobs jobs' id job event :
  carried jobs jobs' → jobs id = Some job → phase_event_id (job_phase job) = Some event →
  jobs' id = Some job.
Proof using.
  intros Hc Hj Hev. destruct (Hc _ _ Hj) as (p & Hp & Hpe).
  apply (published_edge _ _ _ Hev) in Hpe as ->. by destruct job.
Qed.

Lemma node_job_carried group author jobs jobs' id title qs parent event :
  carried jobs jobs' → node_job group author jobs id title qs parent event →
  node_job group author jobs' id title qs parent event.
Proof using.
  intros Hc (job & r & Hj & Hev & Hrest). exists job, r.
  split; [by eapply carried_published|done].
Qed.

Lemma children_carried group author jobs jobs' id event i atts events :
  carried jobs jobs' → children_published group author jobs id event i atts events →
  children_published group author jobs' id event i atts events.
Proof using. intros Hc Hch. induction Hch; constructor; try done. by eapply node_job_carried. Qed.

Lemma claimed_carried jobs jobs' group response :
  carried jobs jobs' → claimed jobs group response → claimed jobs' group response.
Proof using.
  intros Hc. destruct response as [version id receipt_id event_id wait|version id root children|];
    simpl; [| |done].
  - intros (job & item & membership & Hj & Hph & Ha). exists job, item, membership.
    split; [|done]. eapply carried_published; [done..|]. by rewrite Hph.
  - intros (author & title & qs & atts & Hn & Hch). exists author, title, qs, atts.
    split; [by eapply node_job_carried|by eapply children_carried].
Qed.

Lemma host_ok_carried root s s' responses group :
  host_ok root s → records_ok (records root s') → carried (records root s) (records root s') →
  hs_answers s' = hs_answers s ++ (pair group <$> responses) →
  Forall (claimed (records root s') group) responses → host_ok root s'.
Proof using.
  intros [_ Ha] Hok Hc Hlog Hnew. split; [done|]. rewrite Hlog. apply Forall_app. split.
  - eapply Forall_impl; [exact Ha|]. intros [g response]. by apply claimed_carried.
  - apply Forall_fmap. exact Hnew.
Qed.

(** *** Serving *)
Lemma session_served R P root s s' responses p :
  op_journal_root P = root → host_ok root s →
  @session _ (live_service status_debug token to_json from_json R P) decode_publish decode_tree
    responses (opened P (hs_world s)) p →
  iw_files (hs_world s') = rn_journal (pd_runner p) →
  hs_answers s' = hs_answers s ++ (pair (op_group_id P) <$> responses) →
  host_ok root s' ∧ carried (records root s) (records root s') ∧
  rtc service_step (service_of root s) (service_of root s').
Proof using json_laws.
  intros <- Hs Hsession Hfiles Hlog.
  pose (laws := file_journal_laws (journal_config to_json from_json R (op_journal_root P)) json_laws).
  eapply session_claims in Hsession as [Hruns Hall]; [|exact (ho_records _ _ Hs)].
  pose proof (runner_refines _ _ _ (hs_answers s) Hruns (ho_records _ _ Hs)) as Hrefines.
  apply runner_reachable in Hruns as [Hok Hc]; [|exact (ho_records _ _ Hs)].
  assert (records (op_journal_root P) s' = FileJobJournal.stored
    (journal_config to_json from_json R (op_journal_root P)) (rn_journal (pd_runner p))) as Heq
    by (unfold records; rewrite Hfiles; done).
  assert (carried (records (op_journal_root P) s) (records (op_journal_root P) s')) as Hcarried
    by (rewrite Heq; exact Hc).
  assert (Forall (claimed (records (op_journal_root P) s') (op_group_id P)) responses) as Hclaims
    by (rewrite Heq; exact Hall).
  split_and!; [|done|].
  - eapply host_ok_carried; [done|rewrite Heq; exact Hok|done|exact Hlog|done].
  - unfold service_of. rewrite Hlog, Heq. etrans; [exact Hrefines|]. apply service_answers.
    rewrite Heq in Hclaims. eapply Forall_impl; [exact Hclaims|]. intros response.
    apply claimed_true.
Qed.

Lemma serve_served R P root s r s' :
  op_journal_root P = root → host_ok root s → serve R P s = (r, s') →
  host_ok root s' ∧ carried (records root s) (records root s') ∧
  rtc service_step (service_of root s) (service_of root s') ∧
  hs_socket s' = hs_socket s ∧ ∃ more, hs_answers s' = hs_answers s ++ more.
Proof using json_laws.
  intros HP Hs Hserve. unfold Daemon.serve in Hserve.
  set (p0 := opened P (hs_world s)) in Hserve.
  destruct (serve_until_shutdown _ _ _ _ p0) as [r0 p] eqn:Hloop.
  apply answers_session in Hloop.
  set (responses := answers _ _ _ (in_rounds R) p0) in *.
  assert (hs_answers s' = hs_answers s ++ (pair (op_group_id P) <$> responses) ∧
    hs_socket s' = hs_socket s ∧ iw_files (hs_world s') = rn_journal (pd_runner p))
    as (Hlog & Hsock & Hfiles) by (destruct r0; by injection Hserve as <- <-).
  destruct (session_served R P root s s' responses p HP Hs Hloop Hfiles Hlog) as (? & ? & ?).
  split_and!; [done..|by eexists].
Qed.

(** *** A step of the process: the promises are kept *)
Record progress (root : str) (s s' : host) : Prop := {
  pg_carried : carried (records root s) (records root s');
  pg_ok : host_ok root s → host_ok root s';
  pg_refines : host_ok root s → rtc service_step (service_of root s) (service_of root s');
  pg_answers : ∃ more, hs_answers s' = hs_answers s ++ more;
}.

#[export] Instance progress_preorder root : PreOrder (progress root).
Proof using.
  split.
  - intros s. split; [done..|]. exists []. by rewrite app_nil_r.
  - intros s1 s2 s3 [Hc Ho Hr [m Hm]] [Hc' Ho' Hr' [m' Hm']].
    split; [by etrans|auto|intros; etrans; auto|].
    exists (m ++ m'). by rewrite Hm', Hm, (assoc_L (++)).
Qed.

Lemma progress_files root s s' :
  records root s' = records root s → hs_answers s' = hs_answers s → progress root s s'.
Proof using.
  intros Hr Ha. split.
  - by rewrite Hr.
  - intros [Hok Hall]. split; rewrite Hr; [done|by rewrite Ha].
  - unfold service_of. by rewrite Hr, Ha.
  - exists []. by rewrite app_nil_r.
Qed.

Definition steady {X A} (root : str) (m : io host X A) : Prop :=
  ∀ s r s', m s = (r, s') → host_ok root s → progress root s s'.

Lemma steady_bind {X A B} root (m : io host X A) (f : A → io host X B) :
  steady root m → (∀ s a s', m s = (Ok a, s') → steady root (f a)) → steady root (m ≫= f).
Proof using.
  intros Hm Hf s r s'' [(a & s' & K1 & K2)|(e & K1 & _)]%io_bind_inv Hs; [|by eapply Hm].
  specialize (Hm _ _ _ K1 Hs). etrans; [exact Hm|]. eapply Hf; [exact K1|exact K2|by apply Hm].
Qed.
Lemma steady_lift {X A} root (m : result X A) : steady root (io_lift m).
Proof using. by intros s r s' [= _ <-] _. Qed.
Lemma steady_map_err {X Y A} root (f : X → Y) (m : io host X A) :
  steady root m → steady root (io_map_err f m).
Proof using.
  intros Hm s r s'. unfold io_map_err. destruct (m s) as [r0 s0] eqn:K1. intros [= _ <-].
  by eapply Hm.
Qed.
Lemma steady_try {X Y A} root (m : io host X A) :
  steady root m → steady root (io_try m : io host Y _).
Proof using.
  intros Hm s r s'. unfold io_try. destruct (m s) as [r0 s0] eqn:K1. intros [= _ <-].
  by eapply Hm.
Qed.
Lemma steady_socket {X A} root (m : io Socket.SocketWorld X A) : steady root (on_socket m).
Proof using.
  intros s r s'. unfold on_socket. destruct (m (hs_socket s)). intros [= _ <-] _.
  by apply progress_files.
Qed.
Lemma steady_scope {X A} root leave (m : io host X (option A)) :
  steady root leave → steady root m → steady root (scope leave m).
Proof using.
  intros Hl Hm. apply steady_bind; [by apply steady_try|]. intros _ [[a|]|e] _ _.
  - apply steady_bind; [done|intros; apply steady_lift].
  - apply (steady_lift root (Ok None)).
  - apply steady_bind; [done|intros; apply steady_lift].
Qed.

Lemma steady_serve R P root : op_journal_root P = root → steady root (serve R P).
Proof using json_laws.
  intros HP s r s' Hserve Hs. eapply serve_served in Hserve as (Hok & Hc & Hr & _ & Hlog); [|done..].
  by split.
Qed.

(** *** Starting *)
Definition random_ok (random_bytes : nat → list N) : Prop :=
  ∀ k, length (random_bytes k) = 32 ∧ Forall (λ b, b < 256)%N (random_bytes k).

Section start.
Context (fault : nat → option nat) (random_bytes : nat → list N) (config : ProductionConfig).

#[local] Abbreviation world := (@IdentityWorld E).
#[local] Abbreviation open := (open_with_clock fault random_bytes status_debug token config).
#[local] Abbreviation key_path := (pc_daemon_identity_path config).

Definition touches_key {X A} (m : io world X A) : Prop :=
  ∀ w r w', m w = (r, w') → only_path key_path w w'.

Lemma touches_bind {X A B} (m : io world X A) (f : A → io world X B) :
  touches_key m → (∀ a, touches_key (f a)) → touches_key (m ≫= f).
Proof using.
  intros Hm Hf w r w'' [(a & w' & K1 & K2)|(e & K1 & _)]%io_bind_inv; [|by eapply Hm].
  eapply only_path_trans; [by eapply Hm|by eapply Hf].
Qed.
Lemma touches_lift {X A} (m : result X A) : touches_key (io_lift m).
Proof using. intros w r w' [= _ <-]. by apply only_path_disk. Qed.
Lemma touches_map_err {X Y A} (f : X → Y) (m : io world X A) :
  touches_key m → touches_key (io_map_err f m).
Proof using.
  intros Hm w r w'. unfold io_map_err. destruct (m w) as [r0 w0] eqn:K1. intros [= _ <-].
  by eapply Hm.
Qed.
Lemma touches_engine {X A} (m : io E X A) : touches_key (DaemonIdentity.on_engine m).
Proof using. intros w r w' Hm. apply on_engine_disk in Hm. by apply only_path_disk. Qed.

Lemma open_touches : random_ok random_bytes → touches_key open.
Proof using.
  intros Hrandom. repeat first
    [ apply touches_bind; [|intros ?]
    | apply touches_lift | apply touches_map_err | apply touches_engine
    | (intros w r w' Hi; apply install_kept in Hi as (Ho & _ & _); [exact Ho|exact Hrandom]) ].
Qed.

(** What the producer keeps of its configuration. *)
Lemma open_config (w : world) P w' :
  open w = (Ok P, w') →
  op_journal_root P = pc_journal_root config ∧ op_group_id P = pc_group_id config.
Proof using.
  intros Ho. unfold open_with_clock in Ho.
  do 13 (apply io_bind_ok in Ho as (? & ? & _ & Ho)). by injection Ho as <- _.
Qed.
End start.

Lemma steady_open R config root :
  random_ok (in_random R) →
  (∀ id, pc_daemon_identity_path config ≠
     FileJobJournal.record_name
       (FileJobJournal.mkConfig root 0 (λ _, None) to_json from_json) id) →
  steady root (on_world (open_with_clock (in_fault R) (in_random R) status_debug token config)).
Proof using.
  intros Hrandom Hkey s r s'. unfold on_world.
  destruct (open_with_clock _ _ _ _ _ (hs_world s)) as [r0 w] eqn:Ho. intros [= _ <-] Hs.
  apply open_touches in Ho as [Hf _]; [|done].
  assert (∀ id, records root (mkHost w (hs_socket s) (hs_answers s)) id = records root s id) as Heq.
  { intros id. apply FileJobJournal.same_records_stored. intros i. simpl.
    apply Hf. intros ?. by eapply Hkey. }
  assert (carried (records root s) (records root (mkHost w (hs_socket s) (hs_answers s))))
    as Hc by (intros id job Hj; exists (job_phase job); rewrite Heq; by destruct job).
  split; [done| | |by exists []; rewrite app_nil_r].
  - intros [Hok Hall]. split.
    + intros id job. rewrite Heq. apply Hok.
    + eapply Forall_impl; [exact Hall|]. intros [g response]. by apply claimed_carried.
  - intros _. apply rtc_once, service_idle. intros id. unfold ledger_of. by rewrite Heq.
Qed.

(** *** Whole runs *)

(** A run on this journal: its configuration keeps the key out of it. *)
Record uses (root : str) (R : Run) : Prop := {
  us_random : random_ok (in_random R);
  us_config loaded : loaded_config decode_config R = Ok loaded →
    pc_journal_root (lc_production loaded) = root ∧
    ∀ id, pc_daemon_identity_path (lc_production loaded) ≠
      FileJobJournal.record_name
        (FileJobJournal.mkConfig root 0 (λ _, None) to_json from_json) id;
}.

Lemma steady_shut {X} root : steady root (drop_producer (X := X)).
Proof using. intros s r s' [= _ <-] _. by apply progress_files. Qed.

Lemma steady_run root R : uses root R → steady root (run R).
Proof using json_laws.
  intros [Hrandom Hconfig]. unfold Daemon.run.
  apply steady_bind; [apply steady_lift|].
  intros s0 loaded s1 [Hloaded _]%io_lift_ok. destruct (Hconfig _ Hloaded) as [Hroot Hkey].
  apply steady_bind; [by apply steady_map_err, steady_open|].
  intros s2 P s3 Ho%io_map_err_ok. unfold on_world in Ho.
  destruct (open_with_clock _ _ _ _ _ (hs_world s2)) as [r0 w] eqn:Hopen.
  injection Ho as -> _. apply open_config in Hopen as [HP _].
  apply steady_scope; [apply steady_shut|].
  apply steady_bind; [apply steady_map_err, steady_socket|]. intros _ l _ _.
  apply steady_scope; [apply steady_socket|].
  apply steady_bind; [apply steady_lift|]. intros _ [] _ _.
  apply steady_serve. congruence.
Qed.

(** Between two runs the engine and the sockets may be anything; the files and
    the history are what the last run left. *)
Record rebooted (s s' : host) : Prop := {
  rb_files : w_files (iw_files (hs_world s')) = w_files (iw_files (hs_world s));
  rb_meta : iw_meta (hs_world s') = iw_meta (hs_world s);
  rb_answers : hs_answers s' = hs_answers s;
}.

Inductive lives (root : str) : host → host → Prop :=
  | lives_none s : lives root s s
  | lives_run R s s0 r s1 s' :
      rebooted s s0 → uses root R → run R s0 = (r, s1) → lives root s1 s' → lives root s s'.

Lemma lives_progress root s s' :
  lives root s s' → host_ok root s → progress root s s'.
Proof using json_laws.
  intros Hl Hs.
  induction Hl as [s|R s s0 r s1 s' [Hf Hm Ha] Huses Hrun _ IH]; [done|].
  assert (progress root s s0) as Hboot.
  { apply progress_files; [|done]. unfold records, FileJobJournal.stored. by rewrite Hf. }
  assert (progress root s0 s1) as Hp.
  { eapply steady_run; [done|exact Hrun|by apply Hboot]. }
  etrans; [exact Hboot|]. etrans; [exact Hp|]. by apply IH, Hp, Hboot.
Qed.

(** C5: the daemon keeps its promises for as long as its disk lasts. Over any
    number of runs of the process [tts29d] on one journal, whatever their
    arguments, configurations and environments, whatever the connections carry,
    whichever file-system steps fail, and whether a run ended or is still
    waiting: no job is lost or goes backwards, every record stays consistent,
    and every response any of the runs ever gave is still true of the records:
    what was reported published is published, with that receipt and event, an
    answer that was passed on is one given to that event, selected for the
    published questions, and what was reported a published tree is a complete
    one. *)
Theorem daemon_lives_durable root s s' :
  lives root s s' → host_ok root s →
  host_ok root s' ∧ carried (records root s) (records root s') ∧
  ∃ more, hs_answers s' = hs_answers s ++ more.
Proof using json_laws.
  intros Hl Hs. destruct (lives_progress _ _ _ Hl Hs) as [Hc Hok _ Ha].
  split; [by apply Hok|]. by split.
Qed.

(** C3: the daemon implements the ledger. Whatever its pipeline does with its
    seven phases, its failures and its retries, over any number of runs, is a
    sequence of steps of the specification: an order is accepted under an id that
    was free, it is published in one step, with one receipt and one event, a
    response is given that is true at that point, or nothing happens. So an
    entry never disappears, and a published one never changes. *)
Theorem daemon_refines_ledger root s s' :
  lives root s s' → host_ok root s →
  rtc service_step (service_of root s) (service_of root s') ∧
  (∀ id e, sv_ledger (service_of root s) id = Some e →
     ∃ e', sv_ledger (service_of root s') id = Some e' ∧ entry_later e e').
Proof using json_laws.
  intros Hl Hs. destruct (lives_progress _ _ _ Hl Hs) as [_ _ Hr _].
  split; [by apply Hr|]. intros id e He. by eapply service_later; [apply Hr|].
Qed.

(** *** The socket of a run *)
Lemma scope_inv {X A} (leave : io host X unit) (m : io host X (option A)) s r s' :
  scope leave m s = (r, s') → (∀ s, (leave s).1 = Ok ()) →
  ∃ s1, m s = (r, s1) ∧ s' = match r with Ok None => s1 | _ => (leave s1).2 end.
Proof using.
  intros Hs Hleave. unfold scope, mbind, io_bind, io_try in Hs.
  destruct (m s) as [r1 s1]. exists s1. specialize (Hleave s1).
  destruct r1 as [[u|]|e]; cbn in Hs; unfold mret, io_ret in Hs; [|injection Hs as <- <-; done|];
    (destruct (leave s1) as [left s2]; simpl in Hleave; subst left; unfold io_lift in Hs; injection Hs as <- <-; done).
Qed.

Lemma drop_listener_ok {X} R l (s : host) : (drop_listener (X := X) R l s).1 = Ok ().
Proof using. done. Qed.

(** A run from the outside: what it makes of the socket, and of the history. *)
Inductive run_ends (R : Run) (path : str) (s : host) : result Cli.Exit (option unit) → host → Prop :=
  | ends_not_started error s' :
      hs_socket s' = hs_socket s → hs_answers s' = hs_answers s →
      run_ends R path s (Err (Cli.Failed error)) s'
  | ends_not_bound failure error s' :
      Socket.bind (in_socket_fault R) (in_others R) (in_identity R) (in_umask R) path
        (hs_socket s) = (Err failure, hs_socket s') →
      hs_answers s' = hs_answers s → run_ends R path s (Err (Cli.Failed error)) s'
  | ends_bound l sockets r s' :
      Socket.bind (in_socket_fault R) (in_others R) (in_identity R) (in_umask R) path
        (hs_socket s) = (Ok l, sockets) →
      r ≠ Err Cli.Usage →
      hs_socket s' = match r with
        | Ok None => sockets
        | _ => (Socket.drop (in_socket_fault R) (in_others R) l sockets).2
        end →
      run_ends R path s r s'.

Lemma run_inv R loaded s r s' :
  loaded_config decode_config R = Ok loaded → run R s = (r, s') →
  run_ends R (lc_socket_path loaded) s r s'.
Proof using.
  intros Hl Hrun. unfold Daemon.run in Hrun. rewrite Hl in Hrun.
  unfold mbind at 1, io_bind at 1, io_lift at 1 in Hrun.
  apply io_bind_inv in Hrun as [(P & s1 & Ho & Hrun)|(e & Ho & ->)];
    unfold io_map_err, on_world in Ho;
    destruct (open_with_clock _ _ _ _ _ (hs_world s)) as [r1 w1]; injection Ho as Hr1 <-.
  2:{ destruct r1; [done|]. simpl in Hr1. injection Hr1 as <-. by apply ends_not_started. }
  clear Hr1. apply scope_inv in Hrun as (s2 & Hrun & ->); [|done].
  apply io_bind_inv in Hrun as [(l & s3 & Hb & Hrun)|(e & Hb & ->)];
    unfold io_map_err, on_socket in Hb; simpl in Hb;
    destruct (Socket.bind _ _ _ _ _ (hs_socket s)) as [r2 sockets] eqn:Hbind;
    injection Hb as Hr2 <-; destruct r2 as [l'|failure]; try done.
  2:{ simpl in Hr2. injection Hr2 as <-. by eapply ends_not_bound. }
  simpl in Hr2. injection Hr2 as <-. apply scope_inv in Hrun as (s4 & Hrun & ->); [|apply drop_listener_ok].
  assert (hs_socket s4 = sockets ∧ r ≠ Err Cli.Usage) as [Hs4 Hr].
  { apply io_bind_inv in Hrun as [([] & s5 & [_ <-]%io_lift_ok & Hserve)|(e & Hh & ->)].
    - unfold Daemon.serve in Hserve. destruct (serve_until_shutdown _ _ _ _ _) as [[[]|] p];
        by injection Hserve as <- <-.
    - unfold io_lift in Hh. injection Hh as Hh <-. split; [done|]. intros [= ->].
      by destruct (in_handler R). }
  eapply ends_bound; [exact Hbind|exact Hr|].
  destruct r as [[u|]|e]; simpl; [|done|];
    unfold drop_listener, io_map_err, on_socket; rewrite Hs4;
    by destruct (Socket.drop _ _ l' sockets).
Qed.

Section socket.
Context (R : Run) (path directory : str) (Hparent : parent path = Some directory).
Context (Hdirectory : directory ≠ []).
Hypothesis others_path : ∀ n nodes, in_others R n nodes !! path = nodes !! path.
Hypothesis others_directory : ∀ n nodes, in_others R n nodes !! directory = nodes !! directory.

#[local] Abbreviation at_path s := (Socket.sw_nodes (hs_socket (s : host)) !! path).

Lemma run_ends_socket s r s' :
  run_ends R path s r s' →
  match r with
  | Ok None => SocketFacts.free (at_path s) ∧ ∃ device inode,
      at_path s' = Some (Socket.mkNode (Socket.UnixSocket true) Socket.SOCKET_MODE device inode)
  | _ => at_path s' = at_path s ∨ SocketFacts.free (at_path s) ∧ SocketFacts.free (at_path s')
  end.
Proof using Hparent Hdirectory others_path others_directory.
  intros [error s1 Hs _|failure error s1 Hb _|l sockets r1 s1 Hb Hr Hs]; simpl.
  - left. by rewrite Hs.
  - by apply (SocketFacts.bind_spec _ _ _ _ path directory) in Hb as [_ Hb].
  - apply (SocketFacts.bind_spec _ _ _ _ path directory) in Hb
      as [_ (Hfree & _ & Hl & Hown)]; [|done..].
    assert (SocketFacts.free (Socket.sw_nodes
      (Socket.drop (in_socket_fault R) (in_others R) l sockets).2 !! path)) as Hdropped.
    { destruct (Socket.drop _ _ l sockets) as [r2 w] eqn:Hd. rewrite Hl in Hd.
      apply (SocketFacts.drop_spec _ _ path directory Hparent others_path others_directory)
        with (node := Socket.mkNode (Socket.UnixSocket true) Socket.SOCKET_MODE
          (Socket.pl_device l) (Socket.pl_inode l)) in Hd; [|done].
      unfold Socket.is_socket, Socket.same_node in Hd. simpl in Hd. by rewrite !N.eqb_refl in Hd. }
    destruct r1 as [[u|]|e]; rewrite Hs; [by right| |by right]. split; [done|by eauto].
Qed.

(** A run that ended in an orderly way removed the file of its socket. *)
Lemma run_ends_gone s u s' :
  (∀ n, in_socket_fault R n = false) → run_ends R path s (Ok (Some u)) s' → at_path s' = None.
Proof using Hparent Hdirectory others_path others_directory.
  intros Hquiet Hends. inversion Hends as [| |l sockets r s1 Hb _ Hs]; subst. simpl in Hs.
  apply (SocketFacts.bind_spec _ _ _ _ path directory) in Hb as [_ (_ & _ & Hl & Hown)]; [|done..].
  destruct (SocketFacts.drop_quiet (in_socket_fault R) (in_others R) path directory
    others_path others_directory Hquiet (Socket.pl_device l) (Socket.pl_inode l) sockets _ Hown)
    as (w & Hd & Hnone); [done|unfold Socket.same_node; simpl; by rewrite !N.eqb_refl|].
  rewrite <-Hl in Hd. by rewrite Hs, Hd.
Qed.

Lemma run_ends_busy s r s' node :
  run_ends R path s r s' → at_path s = Some node →
  Socket.is_socket node = false ∨ Socket.is_live node = true →
  at_path s' = Some node ∧ hs_answers s' = hs_answers s ∧ ∃ error, r = Err (Cli.Failed error).
Proof using Hparent Hdirectory others_path others_directory.
  intros He Hnode Hbusy.
  assert (¬ SocketFacts.free (at_path s)) as Hn
    by (intros Hf; destruct (Hf _ Hnode), Hbusy; congruence).
  destruct He as [error s1 Hs Ha|failure error s1 Hb Ha|l sockets r1 s1 Hb Hr Hs].
  - rewrite Hs. by eauto.
  - apply (SocketFacts.bind_spec _ _ _ _ path directory) in Hb as [_ [Hb|[? _]]]; [|done..].
    rewrite Hb. by eauto.
  - by apply (SocketFacts.bind_spec _ _ _ _ path directory) in Hb as [_ (Hfree & _)].
Qed.
End socket.

End facts.

(** ** Two lives of a daemon: the first one publishes an item, whatever it needs
    working, and ends; the second one, after a reboot, is asked for nothing. *)
Module Example_daemon.
Export Example_nmp.
Definition hex : str := repeat 97%N 64.
Definition owner : str := repeat 98%N 64.
Definition host : RelayUrl := mkRelayUrl $"wss://relay.example".
#[export] Instance urls : UrlParser := Example_blossom.urls.
#[export] Instance hashing : Hashing :=
  {| sha256_hex _ := hex; request_json _ := Some [] |}.
#[export] Instance producer_env : ProducerEnv World := {|
  Registration := PublicKey;
  registered_key key := key;
  add_account secret e := (Ok (mkPublicKey secret), e);
  remove_account _ e := (Ok true, e);
  read_to_string _ e := (Ok [], e);
  make_durable_file _ _ e := (Err [], e);
  unix_millis e := (7000%N, e);
|}.
#[export] Instance work_dir : WorkDir World := {|
  create_dir_all _ e := (Ok (), e);
  read_file := fs_read (λ _, None);
|}.
#[export] Instance engine : DaemonEngine World := {|
  publish_tracked _ e := (Ok 5%N, e);
  observe _ e := (Ok [mkObserved [] [mkSource host Requesting (Some 5%N)] []], e);
  reattach_receipt _ e := (Ok (Attached [StatusSigned (mkEventId hex); StatusAcked host]), e);
|}.
#[export] Instance client : BlossomClient World := {|
  BlossomServerUrl := str;
  SignedAuthorization := Event;
  parse_server text := Ok text;
  upload_authorization_draft author _ now _ reason := Ok (mkUnsigned author now 24242 [] reason);
  sign_event draft e :=
    (Ok (mkEvent (mkEventId []) (unsigned_pubkey draft) (unsigned_created_at draft)
           (unsigned_kind draft) (unsigned_tags draft) (unsigned_content draft)), e);
  validate_authorization signed _ _ := Ok signed;
  upload server data _ _ e :=
    (Ok (mkDescriptor $"https://cdn.example/x" (sha256_hex data) (len data) None), e);
  metadata_len _ e := (Ok 3%N, e);
|}.
#[export] Instance answer_engine : AnswerEngine World :=
  {| observe_answers _ _ e := (Err [], e) |}.
#[export] Instance work_host : WorkHost World :=
  {| work_files e := e; set_work_files files _ := files |}.
#[export] Instance engine_start : EngineStart World :=
  {| open_engine _ e := (Ok (), e); set_active_account _ e := (Ok (), e) |}.
#[export] Instance engine_stop : EngineStop World := {| shutdown_engine e := e |}.

(** The request, and the records of its job from one phase to the next; a record
    is stored as its place among them. *)
Definition request : ProducerRequest :=
  mkRequest $"r" $"tts" $"af_heart" $"agent" $"Hello" $"short" $"Body" [] [] None.
Definition record : JobPhase → JobRecord := mkJob 1 hex hex 7 request.
Definition audio : LocalAudioArtifact := mkLocalAudio $"/work/r/speech.mp3" hex $"audio/mpeg" 3.
Definition item : FrozenSpokenItem := frozen_item (record JobAdmitted)
  (mkArtifact $"https://cdn.example/x" hex $"audio/mpeg" 3 None).
Definition membership : MembershipEvidence := mkMembership hex (Some 5%N).
Definition table : list JobRecord :=
  record <$> [JobAdmitted; Synthesized audio; ArtifactsDurable item;
    AuthorizationAccepted item 5; AuthorAuthorized item membership;
    PublicationAccepted item (Some membership) 5; JobPublished item (Some membership) 5 hex].
Definition to_json (job : JobRecord) : option (list N) :=
  '(i, _) ← list_find (λ job', job' = job) table; Some [N.of_nat i].
Definition from_json (data : list N) : option JobRecord :=
  match data with [i; 10%N] => table !! N.to_nat i | _ => None end.
Lemma json_laws job data : to_json job = Some data → from_json (data ++ [10%N]) = Some job.
Proof.
  unfold to_json. destruct (list_find _ table) as [[i job']|] eqn:Hf; [|done]. intros [= <-].
  apply list_find_Some in Hf as (Hi & -> & _). simpl. by rewrite Nat2N.id.
Qed.

Definition file : FileConfig :=
  mkFileConfig $"/run/tts29/daemon.sock" $"/jobs" $"/work" None None $"wss://relay.example"
    $"tts" owner (mkKokoroFile $"https://kokoro.example" None None None)
    (mkBlossomFile $"https://blossom.example" None None None None) None None.
Definition variable (name : str) : EnvVar :=
  if name =?s $"TTS29_DAEMON_NSEC" then EnvValue hex else NotPresent.
Definition decode_publish (data : list N) : option LocalPublishRequest :=
  if decide (data = [1]%N) then Some (mkLocalPublish 1 request None None) else None.
Definition life (rounds : list Round) : Run :=
  mkRun [$"--config"; $"/etc/daemon.json"] variable (λ _, Ok [1%N]) (λ _, None)
    (λ _, replicate 32 7%N) 42 Example_kokoro.send (Ok ()) rounds (λ _, false)
    (λ _ nodes, nodes) SocketFacts.Example_socket.identity 18.
Definition run (R : Run) := run (λ _, []) Ok (λ _, Ok file) to_json from_json decode_publish
  (λ _, None) (λ _, Ok []) R.
Definition start : Host :=
  mkHost (mkIdentityWorld (mkWorld ∅ 0 1) ∅ (mkWorld ∅ 0 1) 0) SocketFacts.Example_socket.start [].
Definition rounds : list Round :=
  [mkRound false (Ok (Example_server.connection [1%N])) false;
   mkRound true (Err (mkFailure false [])) true].
(** What the two lives leave. *)
Abbreviation first := (run (life rounds) start).2.
Abbreviation second := (run (life []) first).2.
End Example_daemon.

#[local] Existing Instances Example_nmp.nip29 Example_nmp.nip29_laws Example_daemon.urls Example_daemon.hashing Example_daemon.producer_env
  Example_daemon.work_dir Example_daemon.engine Example_daemon.client Example_daemon.answer_engine
  Example_daemon.work_host Example_daemon.engine_start Example_daemon.engine_stop.

Lemma example_key to_json from_json id :
  $"/etc/daemon.key" ≠ FileJobJournal.record_name
    (FileJobJournal.mkConfig $"/jobs" 0 (λ _, None) to_json from_json) id.
Proof.
  intros Hid. unfold FileJobJournal.record_name in Hid.
  destruct (join_name_prefix $"/jobs") as [p Hp]. simpl in Hid. rewrite Hp in Hid.
  apply (f_equal last) in Hid. rewrite !last_app in Hid. vm_compute in Hid. discriminate.
Qed.

Lemma example_uses rounds :
  uses (λ _, Ok Example_daemon.file) Example_daemon.to_json Example_daemon.from_json $"/jobs"
    (Example_daemon.life rounds).
Proof.
  split; [split; [done|by repeat constructor]|]. intros loaded [= <-]. split; [reflexivity|].
  intros id Hid. apply (example_key Example_daemon.to_json Example_daemon.from_json id).
  rewrite <-Hid. vm_compute. reflexivity.
Qed.

Lemma example_lives rounds rounds' s :
  lives (λ _, []) Ok (λ _, Ok Example_daemon.file) Example_daemon.to_json Example_daemon.from_json
    Example_daemon.decode_publish (λ _, None) (λ _, Ok []) $"/jobs" s
    (Example_daemon.run (Example_daemon.life rounds')
       (Example_daemon.run (Example_daemon.life rounds) s).2).2.
Proof.
  assert (∀ s : @Host World, rebooted s s) as Hboot by done.
  refine (lives_run _ _ _ _ _ _ _ _ _ (Example_daemon.life rounds) s s _ _ _ (Hboot s)
    (example_uses rounds) (surjective_pairing _) _).
  refine (lives_run _ _ _ _ _ _ _ _ _ (Example_daemon.life rounds') _ _ _ _ _ (Hboot _)
    (example_uses rounds') (surjective_pairing _) (lives_none _ _ _ _ _ _ _ _ _ _)).
Qed.

Lemma example_start_ok to_json from_json :
  host_ok to_json from_json $"/jobs" Example_daemon.start.
Proof.
  split; [|constructor]. intros id job Hj. exfalso. unfold records, FileJobJournal.stored in Hj.
  destruct (valid_request_id id); [|discriminate].
  change (w_files _) with (∅ : gmap str (list N)) in Hj. rewrite lookup_empty in Hj. discriminate.
Qed.

Lemma example_answers :
  hs_answers Example_daemon.second =
    [($"tts", ResponsePublished 1 $"r" 5 Example_daemon.hex NotRequested)].
Proof. vm_compute. reflexivity. Qed.

Lemma daemon_lives_durable_witness :
  hs_answers Example_daemon.second =
    [($"tts", ResponsePublished 1 $"r" 5 Example_daemon.hex NotRequested)] ∧
  ∃ job item membership,
    records Example_daemon.to_json Example_daemon.from_json $"/jobs" Example_daemon.second $"r"
      = Some job ∧
    job_phase job = JobPublished item membership 5 Example_daemon.hex.
Proof.
  split; [exact example_answers|].
  destruct (daemon_lives_durable (λ _, []) Ok (λ _, Ok Example_daemon.file)
    Example_daemon.to_json Example_daemon.from_json Example_daemon.decode_publish (λ _, None)
    (λ _, Ok []) Example_daemon.json_laws $"/jobs" Example_daemon.start Example_daemon.second)
    as ([_ Hall] & _ & _); [apply example_lives|apply example_start_ok|].
  rewrite example_answers in Hall. apply Forall_inv in Hall.
  destruct Hall as (job & item & membership & Hjob & Hphase & _). exists job, item, membership.
  split; [exact Hjob|exact Hphase].
Defined.

Lemma daemon_refines_ledger_witness :
  rtc service_step
    (service_of Example_daemon.to_json Example_daemon.from_json $"/jobs" Example_daemon.start)
    (service_of Example_daemon.to_json Example_daemon.from_json $"/jobs" Example_daemon.second) ∧
  sv_ledger (service_of Example_daemon.to_json Example_daemon.from_json $"/jobs"
    Example_daemon.second) $"r" =
    Some (Closed (mkOrder Example_daemon.hex Example_daemon.hex 7) 5 Example_daemon.hex).
Proof.
  split; [|vm_compute; reflexivity].
  exact (proj1 (daemon_refines_ledger (λ _, []) Ok (λ _, Ok Example_daemon.file)
    Example_daemon.to_json Example_daemon.from_json Example_daemon.decode_publish (λ _, None)
    (λ _, Ok []) Example_daemon.json_laws $"/jobs" Example_daemon.start Example_daemon.second
    (example_lives _ _ _) (example_start_ok _ _))).
Defined.

