(* ===== verification/Exchange.v ===== *)
(** A client and the daemon over one connection: the local client of
    [producer-api/src/unix_client.rs] on one side, [serve_stream] of
    [daemon/src/local_server.rs] with the producer of a running daemon on the
    other. What the client is told is what the daemon answered. *)

From S2P Require Export Daemon.

(** The connection: what the daemon meets on its side besides the bytes sent,
    and what the client reads of those that the daemon writes. *)
Record Wire := mkWire {
  wr_timeouts : result SocketFailure unit;
  wr_broken : option SocketFailure;
  wr_write : list N → result SocketFailure unit;
  wr_shutdown : result SocketFailure unit;
  wr_read : list N → result str (list N);
}.
Definition connection_of (wire : Wire) (data : list N) : Connection :=
  mkConnection (wr_timeouts wire) data (wr_broken wire) (wr_write wire) (wr_shutdown wire).

Section exchange.
Context `{Nip29, Hashing, UrlParser} {E : Type}.
Context `{!ProducerEnv E, !WorkDir E, !DaemonEngine E, !BlossomClient E, !AnswerEngine E,
          !WorkHost E, !EngineStart E, !EngineStop E}.
Context (status_debug : WriteStatus → str) (token : str → result str str).
Context (to_json : JobRecord → option (list N)) (from_json : list N → option JobRecord).
Context (decode_publish : list N → option LocalPublishRequest)
        (decode_tree : list N → option LocalTreeRequest)
        (encode_response : LocalPublishResponse → result str (list N)).
Context (R : Run) (wire : Wire) (P : ProductionProducer (E := E)).

(** One connection of the running daemon. *)
Definition serve_connection (data : list N) : io (@Host E) SocketFailure (list N) := λ s,
  let stream := connection_of wire data in
  let start := opened P (hs_world s) in
  let service := live_service status_debug token to_json from_json R P in
  let '(r, p) := serve_stream (H := service) decode_publish decode_tree encode_response
                   stream start in
  let given := answer_of (H := service) decode_publish decode_tree stream start in
  (r, mkHost (left_by P (hs_world s) p) (hs_socket s)
        (hs_answers s ++ (pair (op_group_id P) <$> given))).

(** The bytes it writes, or tries to write. *)
Definition written_for (data : list N) (s : @Host E) : list N :=
  let service := live_service status_debug token to_json from_json R P in
  match answer_of (H := service) decode_publish decode_tree (connection_of wire data)
          (opened P (hs_world s)) with
  | response :: _ => match encode_response response with Ok bytes => bytes | Err _ => [] end
  | [] => []
  end.
(** The connection as the client meets it. *)
Definition exchange_of (s : @Host E) (payload : list N) : result str (list N) :=
  wr_read wire (written_for payload s).

Lemma serve_connection_written data s bytes s' :
  serve_connection data s = (Ok bytes, s') → written_for data s = bytes.
Proof using.
  unfold serve_connection, written_for. generalize (connection_of wire data) as stream.
  intros stream. unfold serve_stream, answer_of, mbind, io_bind, io_lift, mret, io_ret.
  destruct (cn_set_timeouts stream); [|done].
  destruct (respond _ _ _ (opened P (hs_world s))) as [response p].
  destruct (encode_response response) as [bytes'|] eqn:Hencode; simpl; [|done].
  destruct (cn_write stream bytes'); [|done]. destruct (cn_shutdown stream); [|done].
  intros K. injection K as -> _. by rewrite Hencode.
Qed.
End exchange.

Section facts.
Context `{Nip29Laws, Hashing, UrlParser} {E : Type}.
Context `{!ProducerEnv E, !WorkDir E, !DaemonEngine E, !BlossomClient E, !AnswerEngine E,
          !WorkHost E, !EngineStart E, !EngineStop E}.
Context (status_debug : WriteStatus → str) (token : str → result str str).
Context (to_json : JobRecord → option (list N)) (from_json : list N → option JobRecord).
Context (decode_publish : list N → option LocalPublishRequest)
        (decode_tree : list N → option LocalTreeRequest)
        (encode_response : LocalPublishResponse → result str (list N))
        (decode_response : list N → option LocalPublishResponse).
Context (R : Run) (wire : Wire) (P : ProductionProducer (E := E)).
(** JSON is read back as it was written, and what arrives is a response only
    when it is all that was written. *)
Hypothesis json_laws : ∀ job data, to_json job = Some data →
  from_json (data ++ [10%N]) = Some job.
Hypothesis response_laws : ∀ response data, encode_response response = Ok data →
  decode_response data = Some response.
Hypothesis empty_laws : decode_response [] = None.
Hypothesis wire_laws : ∀ data received response, wr_read wire data = Ok received →
  decode_response received = Some response → received = data.

#[local] Abbreviation host := (@Host E).
#[local] Abbreviation records := (records to_json from_json).
#[local] Abbreviation progress := (progress to_json from_json).
#[local] Abbreviation host_ok := (host_ok to_json from_json).
#[local] Abbreviation serve_connection :=
  (serve_connection status_debug token to_json from_json decode_publish decode_tree
     encode_response R wire P).
#[local] Abbreviation exchange_of :=
  (exchange_of status_debug token to_json from_json decode_publish decode_tree encode_response
     R wire P).
#[local] Abbreviation answered_by :=
  (@answered _ (live_service status_debug token to_json from_json R P) decode_publish decode_tree).

Lemma serve_connection_served root data s r s' :
  op_journal_root P = root → host_ok root s → serve_connection data s = (r, s') →
  progress root s s'.
Proof using json_laws.
  intros HP Hs Hserve. unfold Exchange.serve_connection in Hserve.
  set (p0 := opened P (hs_world s)) in Hserve.
  pose proof (answer_session (H := live_service status_debug token to_json from_json R P)
    decode_publish decode_tree encode_response (connection_of wire data) p0) as Hsession.
  destruct (serve_stream _ _ _ _ p0) as [r0 p] eqn:Hstream. injection Hserve as _ <-.
  set (s' := mkHost _ _ _).
  destruct (session_served status_debug token to_json from_json decode_publish decode_tree
    json_laws R P root s s' _ _ HP Hs Hsession eq_refl eq_refl) as (Ho & Hc & Hr).
  split; [done..|by eexists].
Qed.

(** What the client decodes is what the daemon answered on this connection, in
    the state it left. *)
Lemma exchange_answered s payload raw response :
  exchange_of s payload = Ok raw → decode_response raw = Some response →
  ∃ p', answered_by (connection_of wire payload) (opened P (hs_world s)) response p' ∧
    hs_world (serve_connection payload s).2 = left_by P (hs_world s) p'.
Proof using response_laws empty_laws wire_laws.
  intros Hread Hdecode. pose proof (wire_laws _ _ _ Hread Hdecode) as ->. clear Hread.
  unfold written_for, answer_of in Hdecode. unfold Exchange.serve_connection.
  set (stream := connection_of wire payload) in *. clearbody stream.
  set (p0 := opened P (hs_world s)) in *.
  set (service := live_service _ _ _ _ R P) in *.
  pose proof (serve_stream_state (H := service) decode_publish decode_tree encode_response
    stream p0) as Hstate.
  destruct (serve_stream _ _ _ stream p0) as [r0 p] eqn:Hstream. simpl in Hstate.
  destruct (cn_set_timeouts stream) eqn:Htimeouts; [|congruence].
  destruct (respond decode_publish decode_tree (read_frame stream) p0) as [response' p1] eqn:Hr.
  simpl in Hdecode, Hstate. subst p.
  destruct (encode_response response') as [data|] eqn:Hencode; [|congruence].
  apply response_laws in Hencode. assert (response' = response) as -> by congruence.
  exists p1. split; [by apply respond_answered|done].
Qed.

(** *** The answers to the two kinds of requests *)

(** The journal after a publication that was answered. *)
Definition publication_true (group_id : str) (jobs : Jobs) (request : ProducerRequest)
    (receipt_id : N) (event_id : str) (answer_wait : AnswerWaitResult) : Prop :=
  ∃ job item membership, jobs (pr_request_id request) = Some job ∧
    job_phase job = JobPublished item membership receipt_id event_id ∧
    request_digest request = Ok (job_request_digest job) ∧
    ∀ answer, answer_wait = Answered answer →
      answer_reported group_id event_id (fz_questions item) answer.

Lemma publication_true_carried group_id jobs jobs' request receipt_id event_id answer_wait :
  carried jobs jobs' →
  publication_true group_id jobs request receipt_id event_id answer_wait →
  publication_true group_id jobs' request receipt_id event_id answer_wait.
Proof using.
  intros Hc (job & item & membership & Hj & Hph & Hrest). exists job, item, membership.
  split; [|done]. eapply carried_published; [done..|]. by rewrite Hph.
Qed.

Lemma exchange_publication root s payload raw request version id receipt_id event_id answer_wait :
  op_journal_root P = root → host_ok root s → decode_publish payload = Some request →
  exchange_of s payload = Ok raw →
  decode_response raw = Some (ResponsePublished version id receipt_id event_id answer_wait) →
  id = pr_request_id (lp_request request) ∧ pr_group_id (lp_request request) = op_group_id P ∧
  (answer_wait = NotRequested ↔ lp_wait_for_answer_seconds request = None) ∧
  publication_true (op_group_id P) (records root (serve_connection payload s).2)
    (lp_request request) receipt_id event_id answer_wait.
Proof using json_laws response_laws empty_laws wire_laws.
  intros <- Hs Hpayload Hread Hdecode.
  destruct (exchange_answered _ _ _ _ Hread Hdecode) as (p' & Ha & Hw). clear Hread Hdecode.
  inversion Ha as [request' response p1 _ Hd _ Hp|tree response p1 _ Hd|code message _]; subst;
    [|simpl in Hd; congruence].
  simpl in Hd. assert (request' = request) as -> by congruence.
  pose (laws := file_journal_laws (journal_config to_json from_json R (op_journal_root P)) json_laws).
  apply publish_local_outcome in Hp as (_ & _ & _ & Hout); [|exact (ho_records _ _ _ _ Hs)].
  destruct Hout as (_ & Hg & -> & Hwait & job & item & membership & Hjob & Hphase & Hdigest & Hans).
  split; [done|]. split; [done|]. split; [done|].
  exists job, item, membership. unfold Daemon.records, FileJobJournal.stored. rewrite Hw.
  split; [exact Hjob|]. split; [done|]. split; [done|]. intros answer Hanswer.
  by apply (Hans answer Hanswer).
Qed.

Lemma exchange_tree root s payload raw request version id event children :
  op_journal_root P = root → host_ok root s →
  decode_publish payload = None → decode_tree payload = Some request →
  exchange_of s payload = Ok raw →
  decode_response raw = Some (ResponsePublishedTree version id event children) →
  let jobs := records root (serve_connection payload s).2 in
  let tree := lt_tree request in
  tree_group_id tree = op_group_id P ∧ ∃ author,
    node_job (op_group_id P) author jobs (tree_request_id tree) (tree_title tree)
      (tree_questions tree) None event ∧
    children_published (op_group_id P) author jobs (tree_request_id tree) event 0
      (tree_attachments tree) children.
Proof using json_laws response_laws empty_laws wire_laws.
  intros <- Hs Hpublish Htree Hread Hdecode. cbv zeta.
  destruct (exchange_answered _ _ _ _ Hread Hdecode) as (p' & Ha & Hw). clear Hread Hdecode.
  inversion Ha as [request' response p1 _ Hd|request' response p1 _ _ Hd _ Hp|code message _]; subst;
    [simpl in Hd; congruence|].
  simpl in Hd. assert (request' = request) as -> by congruence.
  simpl in Hp. unfold producer_publish_tree_local in Hp.
  destruct (validate_tree request) as [[]|]; [|done].
  destruct (publish_tree _ _ _ _ _ _ _) as [[publication|e] p1] eqn:Hpub; [|done].
  injection Hp as K1 K2 K3 K4 K5; subst.
  pose (laws := file_journal_laws (journal_config to_json from_json R (op_journal_root P)) json_laws).
  apply publish_tree_published in Hpub as (Hg & _ & identity & p2 & _ & Hnode & Hchildren);
    [|exact (ho_records _ _ _ _ Hs)].
  split; [done|]. eexists. unfold Daemon.records, FileJobJournal.stored. rewrite Hw.
  split; [exact Hnode|exact Hchildren].
Qed.
End facts.
