(* ===== verification/LiveNetwork.v ===== *)
(** The independent client of the live checks ([daemon/src/live_network.rs]): an
    event is acquired again by its id from the selected host, its audio is
    downloaded and compared with its descriptor, and an answer is published and
    acknowledged. Each of these uses an engine of its own; the engine, the HTTP
    transport and the clock are parameters. *)

From S2P Require Export Url Related Startup.

Record SourceEvidence := mkSourceEvidence {
  sce_status : str;
  sce_reconciled : bool;
  sce_query_source_count : N;
  sce_shortfall_count : N;
  sce_row_source_count : N;
}.
Record AudioEvidence := mkAudioEvidence {
  aue_url : str;
  aue_sha256 : str;
  aue_byte_count : N;
  aue_media_type : str;
  aue_downloaded_and_matched : bool;
}.
Record ObservedEvent := mkObservedEvent { oe_parsed : ParsedEvent; oe_source : SourceEvidence }.

(** What is read of a frame of the observation; statuses and the evidence are in
    debug format. *)
Record LiveSource := mkLiveSource {
  ls_relay : RelayUrl;
  ls_status : str;
  ls_reconciled_through : option N;
}.
Record LiveFrame := mkLiveFrame {
  lf_evidence : str;
  lf_sources : list LiveSource;
  lf_shortfall : N;
  lf_window : option (list Row);
}.

(** A filter on one event id, pinned to one host. *)
Record ExactDemand := mkExact { ed_id : str; ed_host : RelayUrl }.

(** The answer to one request. *)
Inductive HttpAnswer :=
  | HttpRedirect (next : Url)
  | HttpFinal (success : bool) (status : str) (body : result str (list N)).

(** [nmp::Engine] and [reqwest] as the checks use them. A stream is what each
    call of [recv_timeout] yields, a time-out being [None]. *)
Class LiveNetwork (E : Type) `{Nip29} := {
  live_demand : str → RelayUrl → result str ExactDemand;
  live_observe : ExactDemand → io E str (nat → option LiveFrame);
  live_publish : WriteIntent → io E str N;
  live_reattach : N → io E str (option (nat → option WriteStatus));
  http_client : io E str unit;
  http_send : Url → io E str HttpAnswer;
  live_shutdown : E → E;
}.

(** ** Acquiring an event again *)
Section observe.
Context `{Nip29} (host : RelayUrl) (group_id event_id : str).

Definition frame_source (frame : LiveFrame) : option LiveSource :=
  find (λ source, bool_decide (ls_relay source = host)) (lf_sources frame).
Definition frame_row (frame : LiveFrame) : option Row :=
  rows ← lf_window frame; find (λ row, eid_hex (Nmp.event_id (row_event row)) =?s event_id) rows.

Definition source_evidence (frame : LiveFrame) (row : Row) (source : LiveSource)
    : SourceEvidence :=
  mkSourceEvidence (ls_status source) (negb (is_none (ls_reconciled_through source)))
    (len (lf_sources frame)) (lf_shortfall frame) (len (row_sources row)).

(** One frame: [None] when the loop goes on. *)
Definition exact_frame (frame : LiveFrame) : option (result str ObservedEvent) :=
  row ← frame_row frame;
  source ← frame_source frame;
  if bool_decide (host ∈ row_sources row) then
    Some (parsed ← ok_or ($"event " ++ event_id ++ $" failed the TTS29 protocol parser")
                     (parse row group_id);
          Ok (mkObservedEvent parsed (source_evidence frame row source)))
  else None.

Definition not_reacquired (last_evidence : str) : str :=
  $"event " ++ event_id ++ $" was not reacquired (" ++ last_evidence ++ $")".

(** The rounds left, from round [i] on: an error of the parser returns at once,
    the rest is the variable [result]. *)
Fixpoint exact_loop (n i : nat) (frames : nat → option LiveFrame) (last_evidence : str)
    : result str (result str ObservedEvent) :=
  match n with
  | O => Ok (Err (not_reacquired last_evidence))
  | S n =>
      match frames i with
      | None => exact_loop n (S i) frames last_evidence
      | Some frame =>
          match exact_frame frame with
          | Some outcome => observed ← outcome; Ok (Ok observed)
          | None => exact_loop n (S i) frames (lf_evidence frame)
          end
      end
  end.
End observe.

Definition EXACT_ROUNDS : nat := 12.
Definition ACK_ROUNDS : nat := 32.

Section network.
Context `{Nip29, Hashing, UrlParser} {E : Type}.
Context `{!ProducerEnv E, !EngineStart E, !LiveNetwork E}.

#[local] Abbreviation M := (io E str).

Definition shutdown : M unit := λ e, (Ok (), live_shutdown e).

(** An error of the parser returns before the engine is shut down. *)
Definition observe_exact (host : RelayUrl) (group_id event_id : str) : M ObservedEvent :=
  _ ← io_map_err (λ error, $"independent NMP consumer refused startup: " ++ error)
        (open_engine None);
  demand ← io_lift (map_err (λ error, $"exact-event demand was refused: " ++ error)
                      (live_demand event_id host));
  frames ← io_map_err (λ error, $"independent group observation failed: " ++ error)
             (live_observe demand);
  result ← io_lift (exact_loop host group_id event_id EXACT_ROUNDS 0 frames $"no relay frame");
  _ ← shutdown;
  io_lift result.

(** ** Downloading the audio *)

(** [Policy::custom]: the URLs requested so far, and the next one. *)
Definition redirect_policy (previous : list Url) (next : Url) : result str unit :=
  _ ← fail_if $"durable audio exceeded three redirects" (3 <=? len previous)%N;
  fail_if $"durable audio redirect attempted an HTTPS downgrade"
    (negb (url_scheme next =?s $"https")).

(** [send]: the answer after the redirects the policy admits. *)
Fixpoint follow_redirects (fuel : nat) (previous : list Url) (url : Url)
    : M (bool * str * result str (list N)) :=
  match fuel with
  | O => io_err $"redirects without end"
  | S fuel =>
      answer ← http_send url;
      match answer with
      | HttpFinal success status body => mret (success, status, body)
      | HttpRedirect next =>
          let previous := previous ++ [url] in
          _ ← io_lift (redirect_policy previous next);
          follow_redirects fuel previous next
      end
  end.
Definition REDIRECT_FUEL : nat := 3.

Definition verify_audio (item : SpokenItem) : M AudioEvidence :=
  let audio := item_audio item in
  _ ← io_map_err (λ error, $"audio verifier could not start: " ++ error) http_client;
  response ← io_map_err (λ error, $"durable audio could not be downloaded: " ++ error)
    (url ← io_lift (ok_or $"builder error" (url_parse (artifact_url audio)));
     follow_redirects REDIRECT_FUEL [] url);
  let '(success, status, body) := response in
  _ ← io_lift (fail_if ($"durable audio returned HTTP " ++ status) (negb success));
  data ← io_lift (map_err (λ error, $"durable audio body failed: " ++ error) body);
  let digest := sha256_hex data in
  _ ← io_lift (fail_if $"downloaded audio did not match its durable descriptor"
                 (negb (digest =?s artifact_sha256 audio)
                  || negb (len data =? artifact_byte_count audio)%N));
  mret (mkAudioEvidence (artifact_url audio) digest (len data) (artifact_media_type audio) true).

(** ** Publishing the answer *)

(** The variables of the loop of [await_ack]. *)
Record Acking := mkAcking { ak_event_id : option str; ak_acknowledged : bool }.

(** One status: an error that ends the wait, or the variables after it. *)
Definition ack_status (host : RelayUrl) (operation : str) (st : Acking) (status : WriteStatus)
    : result str Acking :=
  match status with
  | StatusSigned id => Ok (mkAcking (Some (eid_hex id)) (ak_acknowledged st))
  | StatusAcked relay =>
      if bool_decide (relay = host) then Ok (mkAcking (ak_event_id st) true) else Ok st
  | StatusRejected relay reason =>
      Err (operation ++ $" was rejected by " ++ relay_str relay ++ $": " ++ reason)
  | StatusGaveUp relay | StatusOutcomeUnknown relay =>
      Err (operation ++ $" delivery was unresolved at " ++ relay_str relay)
  | StatusFailed reason => Err (operation ++ $" write failed: " ++ reason)
  | _ => Ok st
  end.

Fixpoint ack_loop (host : RelayUrl) (operation overdue : str) (n i : nat)
    (statuses : nat → option WriteStatus) (st : Acking) : result str str :=
  match n with
  | O => Err overdue
  | S n =>
      match statuses i with
      | None => ack_loop host operation overdue n (S i) statuses st
      | Some status =>
          st ← ack_status host operation st status;
          match ak_acknowledged st, ak_event_id st with
          | true, Some event_id => Ok event_id
          | _, _ => ack_loop host operation overdue n (S i) statuses st
          end
      end
  end.

Definition await_ack (receipt_id : N) (host : RelayUrl) (operation : str) : M str :=
  let receipt := operation ++ $" receipt " ++ u64_to_string receipt_id in
  reattached ← live_reattach receipt_id;
  statuses ← io_lift (ok_or (receipt ++ $" could not be reattached") reattached);
  io_lift (ack_loop host operation (receipt ++ $" exceeded its bounded status stream")
             ACK_ROUNDS 0 statuses (mkAcking None false)).

(** [unix_seconds]. *)
Definition unix_seconds : M N := λ e,
  let '(millis, e) := unix_millis e in (Ok (millis / 1000)%N, e).

Definition live_answer (author : str) (created_at : N) (group_id root_event_id : str)
    : FrozenAnswer :=
  mkFrozenAnswer author created_at group_id root_event_id $"Live E2E confirmed."
    [mkQuestionAnswer $"live-e2e" [$"confirmed"]].

Definition publish_answer (host : RelayUrl) (group_id root_event_id secret : str)
    : M (N * str * str) :=
  _ ← open_engine None;
  account ← add_account secret;
  let author := registered_key account in
  _ ← set_active_account author;
  now ← unix_seconds;
  intent ← io_lift (map_err related_error_message
    (compose_answer host (live_answer (pk_hex author) now group_id root_event_id)));
  receipt_id ← live_publish intent;
  event_id ← await_ack receipt_id host $"answer";
  _ ← shutdown;
  mret (receipt_id, event_id, pk_hex author).
End network.

(** ** What a check that succeeds has seen *)
Section facts.
Context `{Nip29, Hashing, UrlParser} {E : Type}.
Context `{!ProducerEnv E, !EngineStart E, !LiveNetwork E}.

(** An observation pinned to the host yielded, in its first rounds, a row with
    this id which that host delivered and which parses to this event. *)
Definition delivered (host : RelayUrl) (group_id event_id : str) (parsed : ParsedEvent) : Prop :=
  ∃ demand e frames e' i frame rows row,
    live_demand event_id host = Ok demand ∧ live_observe demand e = (Ok frames, e') ∧
    i < EXACT_ROUNDS ∧ frames i = Some frame ∧ lf_window frame = Some rows ∧ row ∈ rows ∧
    row_id row = event_id ∧ host ∈ row_sources row ∧ parse row group_id = Some parsed.

Lemma exact_frame_ok host group_id event_id frame o :
  exact_frame host group_id event_id frame = Some (Ok o) →
  ∃ rows row, lf_window frame = Some rows ∧ row ∈ rows ∧ row_id row = event_id ∧
    host ∈ row_sources row ∧ parse row group_id = Some (oe_parsed o).
Proof using.
  unfold exact_frame. intros Hf. opt Hf as row Hrow. opt Hf as source Hs.
  case_bool_decide as Hin; [|done]. injection Hf as Hf. okay Hf as parsed Hp.
  apply ok_or_ok in Hp. injection Hf as <-.
  unfold frame_row in Hrow. opt Hrow as rows Hw.
  apply find_Some in Hrow as [Hr Hid]. apply str_eqb_eq in Hid.
  exists rows, row. by split_and!.
Qed.

Lemma exact_loop_ok host group_id event_id frames o n : ∀ i last,
  exact_loop host group_id event_id n i frames last = Ok (Ok o) →
  ∃ k frame, i ≤ k < i + n ∧ frames k = Some frame ∧
    exact_frame host group_id event_id frame = Some (Ok o).
Proof using.
  induction n as [|n IH]; intros i last; simpl; [done|].
  assert (∀ last, exact_loop host group_id event_id n (S i) frames last = Ok (Ok o) →
    ∃ k frame, i ≤ k < i + S n ∧ frames k = Some frame ∧
      exact_frame host group_id event_id frame = Some (Ok o)) as Hnext.
  { intros last' (k & frame & Hk & Hf)%IH. exists k, frame. split; [lia|done]. }
  destruct (frames i) as [frame|] eqn:Hi; [|apply Hnext].
  destruct (exact_frame host group_id event_id frame) as [outcome|] eqn:He; [|apply Hnext].
  intros Ho. okay Ho as observed Hobs. injection Ho as ->. exists i, frame. subst.
  split; [lia|done].
Qed.

Lemma observe_exact_ok host group_id event_id e o e' :
  observe_exact host group_id event_id e = (Ok o, e') →
  delivered host group_id event_id (oe_parsed o).
Proof using.
  intros Ho. run Ho as u e1 K1. pure Ho as demand Hd. apply map_err_ok in Hd.
  run Ho as frames e2 Hf. apply io_map_err_ok in Hf. pure Ho as o' Hl. run Ho as u2 e3 K2.
  apply io_lift_ok in Ho as [-> _]. apply exact_loop_ok in Hl as (k & frame & Hk & Hfk & Hx).
  apply exact_frame_ok in Hx as (rows & row & Hrows). exists demand, e1, frames, e2, k, frame, rows, row.
  split_and!; try done; try lia; apply Hrows.
Qed.

(** *** Redirects *)
Lemma redirect_policy_ok previous next :
  redirect_policy previous next = Ok () ↔ (len previous ≤ 2)%N ∧ url_scheme next = $"https".
Proof using.
  unfold redirect_policy. split.
  - intros Hp. passed Hp as Hl. apply fail_if_ok, negb_false_iff, str_eqb_eq in Hp. split; [lia|done].
  - intros [Hl Hs]. rewrite Hs, str_eqb_refl.
    by replace (3 <=? len previous)%N with false by (symmetry; apply N.leb_gt; lia).
Qed.

Lemma follow_redirects_ok fuel : ∀ previous url e answer e',
  follow_redirects fuel previous url e = (Ok answer, e') →
  ∃ last e1, http_send last e1 = (Ok (HttpFinal answer.1.1 answer.1.2 answer.2), e') ∧
    (last = url ∨ url_scheme last = $"https").
Proof using.
  induction fuel as [|fuel IH]; intros previous url e [[success status] body] e'; simpl; [done|].
  intros Hf. run Hf as answer e1 Ha. destruct answer as [next|success' status' body'].
  - pure Hf as u Hp. destruct u. apply redirect_policy_ok in Hp as [_ Hs].
    apply IH in Hf as (last & e2 & Hl & [->|?]); exists last || exists next; eauto.
  - injection Hf as -> -> -> ->. exists url, e. by split; [|left].
Qed.

(** Three requests are enough: the policy admits no fourth one. *)
Lemma follow_redirects_fuel fuel : ∀ previous url e,
  3 ≤ fuel + length previous → 1 ≤ fuel →
  follow_redirects (S fuel) previous url e = follow_redirects fuel previous url e.
Proof using.
  induction fuel as [|fuel IH]; intros previous url e Hl Hf; [lia|].
  change (follow_redirects (S (S fuel)) previous url) with
    (answer ← http_send url;
     match answer with
     | HttpFinal success status body => mret (success, status, body)
     | HttpRedirect next =>
         let previous := previous ++ [url] in
         _ ← io_lift (redirect_policy previous next); follow_redirects (S fuel) previous next
     end).
  change (follow_redirects (S fuel) previous url) with
    (answer ← http_send url;
     match answer with
     | HttpFinal success status body => mret (success, status, body)
     | HttpRedirect next =>
         let previous := previous ++ [url] in
         _ ← io_lift (redirect_policy previous next); follow_redirects fuel previous next
     end).
  apply io_bind_ext; [done|]. intros [next|success status body] e1; [|done].
  unfold mbind, io_bind, io_lift. destruct (redirect_policy _ next) as [[]|error] eqn:Hp; [|done].
  apply redirect_policy_ok in Hp as [Hp _]. unfold len in Hp.
  rewrite length_app in Hp. simpl in Hp. apply IH; rewrite ?length_app; simpl; lia.
Qed.

Lemma redirects_bounded n url e :
  3 ≤ n → follow_redirects n [] url e = follow_redirects REDIRECT_FUEL [] url e.
Proof using.
  intros Hn. replace n with ((n - 3) + 3) by lia. induction (n - 3) as [|k IH]; [done|].
  simpl Nat.add. rewrite follow_redirects_fuel by (simpl; lia). exact IH.
Qed.

(** Two redirects are followed, a third one is refused: the list of previous
    requests holds the first one. *)
Lemma third_redirect_refused url1 url2 url3 url4 e e1 e2 e3 :
  url_scheme url2 = $"https" → url_scheme url3 = $"https" →
  http_send url1 e = (Ok (HttpRedirect url2), e1) →
  http_send url2 e1 = (Ok (HttpRedirect url3), e2) →
  http_send url3 e2 = (Ok (HttpRedirect url4), e3) →
  follow_redirects REDIRECT_FUEL [] url1 e = (Err $"durable audio exceeded three redirects", e3).
Proof using.
  intros Hs2 Hs3 K1 K2 K3. unfold REDIRECT_FUEL, follow_redirects, mbind, io_bind.
  rewrite K1. unfold redirect_policy, mbind, result_bind. rewrite Hs2. simpl.
  rewrite K2. rewrite Hs3. simpl. by rewrite K3.
Qed.

(** The bytes somebody served, over HTTPS after a redirect, are the described
    ones. *)
Definition downloaded (item : SpokenItem) (evidence : AudioEvidence) : Prop :=
  ∃ first last e status data e',
    url_parse (artifact_url (item_audio item)) = Some first ∧
    (last = first ∨ url_scheme last = $"https") ∧
    http_send last e = (Ok (HttpFinal true status (Ok data)), e') ∧
    sha256_hex data = artifact_sha256 (item_audio item) ∧
    len data = artifact_byte_count (item_audio item) ∧
    evidence = mkAudioEvidence (artifact_url (item_audio item)) (sha256_hex data) (len data)
                 (artifact_media_type (item_audio item)) true.

Lemma verify_audio_ok item e evidence e' :
  verify_audio item e = (Ok evidence, e') → downloaded item evidence.
Proof using.
  intros Hv. run Hv as u0 e0' K0. run Hv as response e1 Hf. apply io_map_err_ok in Hf. pure Hf as first Hfirst.
  apply ok_or_ok in Hfirst. apply follow_redirects_ok in Hf as (last & e0 & Hlast & Hs).
  destruct response as [[success status] body]. simpl in *.
  pure Hv as u Hok. apply fail_if_ok, negb_false_iff in Hok as ->.
  pure Hv as data Hbody. apply map_err_ok in Hbody as ->.
  pure Hv as u' Hm. apply fail_if_ok, orb_false_iff in Hm as [Hd Hl].
  apply negb_false_iff, str_eqb_eq in Hd. apply negb_false_iff, N.eqb_eq in Hl.
  injection Hv as <- _. by exists first, last, e0, status, data, e1.
Qed.

(** *** The acknowledgement *)
Lemma ack_status_ok host operation st status st' :
  ack_status host operation st status = Ok st' →
  (ak_event_id st' = ak_event_id st ∨
   ∃ event, status = StatusSigned event ∧ ak_event_id st' = Some (eid_hex event)) ∧
  (ak_acknowledged st' = ak_acknowledged st ∨ status = StatusAcked host).
Proof using.
  unfold ack_status. destruct status; try case_bool_decide; intros; simplify_eq/=; naive_solver.
Qed.

(** What the statuses from [i] on, [n] of them, have told. *)
Definition told (host : RelayUrl) (statuses : nat → option WriteStatus) (i n : nat)
    (st : Acking) (id : str) : Prop :=
  (ak_event_id st = Some id ∨
   ∃ k event, i ≤ k < i + n ∧ statuses k = Some (StatusSigned event) ∧ eid_hex event = id) ∧
  (ak_acknowledged st = true ∨ ∃ k, i ≤ k < i + n ∧ statuses k = Some (StatusAcked host)).

Lemma told_later host statuses i n st id :
  told host statuses (S i) n st id → told host statuses i (S n) st id.
Proof using.
  intros [Hid Hack]. split.
  - destruct Hid as [?|(k & event & Hk & Hev)]; [by left|]. right. exists k, event. split; [lia|done].
  - destruct Hack as [?|(k & Hk & Ha)]; [by left|]. right. exists k. split; [lia|done].
Qed.

Lemma told_status host operation statuses i n st status st' id :
  statuses i = Some status → ack_status host operation st status = Ok st' →
  told host statuses i (S n) st' id → told host statuses i (S n) st id.
Proof using.
  intros Hi Hst [Hid Hack]. apply ack_status_ok in Hst as [Hev Ha]. split.
  - destruct Hid as [Hid|?]; [|by right]. destruct Hev as [<-|(event & -> & He)]; [by left|].
    right. exists i, event. split_and!; try lia; [done|congruence].
  - destruct Hack as [Hack|?]; [|by right]. destruct Ha as [<-| ->]; [by left|].
    right. exists i. split; [lia|done].
Qed.

Lemma ack_loop_ok host operation overdue statuses id n : ∀ i st,
  ack_loop host operation overdue n i statuses st = Ok id → told host statuses i n st id.
Proof using.
  induction n as [|n IH]; intros i st; simpl; [done|].
  destruct (statuses i) as [status|] eqn:Hi; [|intros Hl; by apply told_later, IH].
  intros Hl. okay Hl as st' Hst. apply (told_status _ _ _ _ _ _ _ _ _ Hi Hst).
  destruct (ak_acknowledged st') eqn:Hka; [|by apply told_later, IH].
  destruct (ak_event_id st') as [event_id|] eqn:Hke; [|by apply told_later, IH].
  injection Hl as ->. split; by left.
Qed.

(** The answer was composed for the item, handed over under this receipt, signed
    under this id and acknowledged by the host. *)
Definition answer_published (host : RelayUrl) (group_id root_event_id : str)
    (receipt_id : N) (event_id author : str) : Prop :=
  ∃ now intent e1 e1' e2 e2' statuses i j event,
    compose_answer host (live_answer author now group_id root_event_id) = Ok intent ∧
    live_publish intent e1 = (Ok receipt_id, e1') ∧
    live_reattach receipt_id e2 = (Ok (Some statuses), e2') ∧
    i < ACK_ROUNDS ∧ statuses i = Some (StatusSigned event) ∧ eid_hex event = event_id ∧
    j < ACK_ROUNDS ∧ statuses j = Some (StatusAcked host).

Lemma await_ack_ok receipt_id host operation e event_id e' :
  await_ack receipt_id host operation e = (Ok event_id, e') →
  ∃ statuses i j event,
    live_reattach receipt_id e = (Ok (Some statuses), e') ∧
    i < ACK_ROUNDS ∧ statuses i = Some (StatusSigned event) ∧ eid_hex event = event_id ∧
    j < ACK_ROUNDS ∧ statuses j = Some (StatusAcked host).
Proof using.
  intros Ha. run Ha as reattached e1 Hr. pure Ha as statuses Hs. apply ok_or_ok in Hs as ->.
  apply io_lift_ok in Ha as [Ha <-].
  apply ack_loop_ok in Ha as [[[=]|(i & event & Hi & Hev)] [[=]|(j & Hj & Hack)]].
  exists statuses, i, j, event. unfold ACK_ROUNDS in *.
  split_and!; try done; try lia; apply Hev.
Qed.

Lemma publish_answer_ok host group_id root_event_id secret e receipt_id event_id author e' :
  publish_answer host group_id root_event_id secret e = (Ok (receipt_id, event_id, author), e') →
  answer_published host group_id root_event_id receipt_id event_id author.
Proof using.
  intros Hp. run Hp as u e1 K1. run Hp as account e2 K2. run Hp as u3 e3 K3.
  run Hp as now e4 K4. pure Hp as intent Hc. apply map_err_ok in Hc.
  run Hp as receipt e5 Hl. run Hp as event e6 Ha. run Hp as u7 e7 K7. injection Hp as <- <- <- _.
  apply await_ack_ok in Ha as (statuses & i & j & ev & Hr & Hrest).
  by exists now, intent, e4, e5, e5, e6, statuses, i, j, ev.
Qed.
End facts.
