(* ===== verification/LiveSmoke.v ===== *)
(** The live checks ([daemon/src/live_smoke.rs], with the programs
    [tts29-live-e2e] and [tts29-tree-e2e]): a daemon of their own serves one
    request of a client of their own, and what came of it is verified from
    outside. The composition of [Daemon], of the local client and of
    [LiveNetwork]; everything outside is a parameter, as it is there. *)

From S2P Require Socket.
From S2P Require Export LiveNetwork Exchange.

Record LiveRelayEvidence := mkLiveEvidence {
  lre_relay : str;
  lre_group_id : str;
  lre_request_id : str;
  lre_group_creation_receipt_id : option N;
  lre_group_creation_event_id : option str;
  lre_item_receipt_id : N;
  lre_item_event_id : str;
  lre_item_author : str;
  lre_item_source : LiveNetwork.SourceEvidence;
  lre_audio : AudioEvidence;
  lre_answer_receipt_id : N;
  lre_answer_event_id : str;
  lre_answer_root_id : str;
  lre_answer_author : str;
  lre_answer_source : LiveNetwork.SourceEvidence;
}.
Record TreeSmokeEvidence := mkTreeEvidence {
  tse_relay : str;
  tse_group_id : str;
  tse_root_event_id : str;
  tse_child_event_ids : list str;
}.

(** [std::fs] for the messages of a tree, and [std::env::temp_dir]. *)
Class LiveFiles (E : Type) := {
  temp_dir : str;
  make_dirs : str → io E str unit;
  write_text : str → str → io E str unit;
  remove_dirs : str → E → E;
}.

Definition live_request (voice : EnvVar) (request_id group_id : str) : ProducerRequest :=
  mkRequest request_id group_id
    (match voice with EnvValue voice => voice | _ => $"af_heart" end)
    $"TTS29 live smoke" ($"Live relay E2E " ++ request_id)
    $"Published, reacquired, and played through the real TTS29 path."
    $"This is a bounded TTS29 live relay end-to-end verification item." []
    [mkQuestion $"live-e2e" SingleChoice $"Confirmed?"
       $"Did the second live client confirm this item?"
       (Some $"The live verifier publishes one related answer.")
       [mkOption $"confirmed" $"Confirmed" None]]
    None.

(** [published]. *)
Definition published (response : LocalPublishResponse) : result str (N * str) :=
  match response with
  | ResponsePublished _ _ receipt_id event_id NotRequested => Ok (receipt_id, event_id)
  | ResponsePublished _ _ _ _ _ => Err $"live daemon returned an unexpected answer-wait state"
  | ResponsePublishedTree _ _ _ _ =>
      Err $"live daemon returned a tree response for a single item"
  | ResponseError _ code message =>
      Err ($"live daemon refused publication (" ++ code ++ $"): " ++ message)
  end.

(** The match on the response to a tree. *)
Definition published_tree (response : LocalPublishResponse) : result str (str * list str) :=
  match response with
  | ResponsePublishedTree _ _ root children => Ok (root, children)
  | ResponseError _ code message =>
      Err ($"tree daemon refused publication (" ++ code ++ $"): " ++ message)
  | ResponsePublished _ _ _ _ _ =>
      Err $"tree daemon returned a single-item response for a tree"
  end.

(** The tree of [run_tree_relay_smoke] over the paths of its messages. *)
Definition smoke_tree (stamp group_id root child grandchild : str) : SpokenTree :=
  mkTree ($"tree-" ++ stamp) group_id $"Daemon proposal"
    (Some $"Published as a tree by the daemon.") root []
    [Narrated $"Detailed explanation" child []
       [Narrated $"Further note" grandchild [] []]].

Section smoke.
Context `{Nip29, Hashing, UrlParser} {E : Type}.
Context `{!ProducerEnv E, !WorkDir E, !DaemonEngine E, !BlossomClient E, !AnswerEngine E,
          !WorkHost E, !EngineStart E, !EngineStop E, !LiveNetwork E, !LiveFiles E}.
Context (status_debug : WriteStatus → str) (token : str → result str str).
Context (decode_config : list N → result str FileConfig)
        (to_json : JobRecord → option (list N)) (from_json : list N → option JobRecord).
Context (decode_publish : list N → option LocalPublishRequest)
        (decode_tree : list N → option LocalTreeRequest)
        (encode_response : LocalPublishResponse → result str (list N)).
(** The other side of the same protocol, and the text of the client's errors. *)
Context (encode_publish : LocalPublishRequest → option (list N))
        (encode_tree : LocalTreeRequest → option (list N))
        (decode_response : list N → option LocalPublishResponse)
        (client_error_message : ClientError → str).
Context (R : Run) (wire : Wire).

#[local] Abbreviation M := (io (@Host E) str).

Definition on_network {X A} (m : io E X A) : io (@Host E) X A :=
  on_world (DaemonIdentity.on_engine m).
(** [OsRng.fill_bytes] and the digits of the bytes. *)
Definition disposable_secret : M str := encode_hex <$> on_world (DaemonIdentity.draw (in_random R)).
Definition public_key_for (secret : str) : M str :=
  _ ← io_map_err (λ error, $"disposable NMP identity engine failed: " ++ error)
        (on_network (open_engine None));
  account ← io_map_err (λ error, $"disposable NMP identity was refused: " ++ error)
              (on_network (add_account secret));
  _ ← on_network shutdown;
  mret (pk_hex (registered_key account)).

Definition set_owner (owner secret : str) (config : ProductionConfig) : ProductionConfig :=
  mkProduction (pc_journal_root config) (pc_work_root config) (pc_nmp_store_path config)
    (pc_daemon_identity_path config) (Some secret) (pc_host config) (pc_group_id config) owner
    (pc_default_voice config) (pc_kokoro config) (pc_blossom config)
    (pc_receipt_timeout_seconds config).
Definition set_group (group_id : str) (config : ProductionConfig) : ProductionConfig :=
  mkProduction (pc_journal_root config) (pc_work_root config) (pc_nmp_store_path config)
    (pc_daemon_identity_path config) (pc_secret_key_override config) (pc_host config) group_id
    (pc_owner_pubkey config) (pc_default_voice config) (pc_kokoro config) (pc_blossom config)
    (pc_receipt_timeout_seconds config).

(** A fresh key for the daemon, which then owns the group. *)
Definition with_own_key (config : ProductionConfig) : M ProductionConfig :=
  secret ← disposable_secret;
  owner ← public_key_for secret;
  mret (set_owner owner secret config).

(** *** One request, served by the daemon *)

(** [serve_one] on the client's connection, and [producer.shutdown()]: the bytes
    that were written. *)
Definition serve_client (P : ProductionProducer (E := E)) (data : list N)
    : io (@Host E) SocketFailure (list N) :=
  result ← io_try (serve_connection status_debug token to_json from_json decode_publish decode_tree
                     encode_response R wire P data);
  _ ← on_world (λ w, (Ok (), shut w));
  io_lift result.

(** The thread of the client and the one of the server; [None] when the client
    gives up before it connects, and the server waits for ever. *)
Definition serve_request {A} (kind : str) (encode : A → option (list N))
    (P : ProductionProducer (E := E)) (request : A) : M (option LocalPublishResponse) :=
  match encode request with
  | Some payload =>
      if (MAX_LOCAL_FRAME_BYTES <? len payload)%N then mret None
      else
        written ← io_map_err (λ error, kind ++ $" daemon request failed: " ++ sf_text error)
                    (serve_client P payload);
        Some <$> io_lift (map_err
          (λ error, kind ++ $" daemon client failed: " ++ client_error_message error)
          (submit encode decode_response (λ _, wr_read wire written) request))
  | None => mret None
  end.

(** [ProductionProducer::open], [PrivateUnixListener::bind], the request, and
    what is dropped when this is left. *)
Definition with_daemon {A B} (kind : str) (encode : A → option (list N)) (loaded : LoadedDaemonConfig)
    (request : A) (verify : ProductionProducer (E := E) → LocalPublishResponse → M (option B))
    : M (option B) :=
  P ← on_world (open_with_clock (in_fault R) (in_random R) status_debug token
                  (lc_production loaded));
  scope (drop_producer) (
    listener ← io_map_err (λ error, kind ++ $" daemon socket could not bind: "
                                      ++ Socket.se_text error)
      (on_socket (Socket.bind (in_socket_fault R) (in_others R) (in_identity R) (in_umask R)
                    (lc_socket_path loaded)));
    scope (drop_listener R listener) (
      served ← serve_request kind encode P request;
      match served with
      | Some response => verify P response
      | None => mret None
      end)).

Definition load_config (path : str) : result str LoadedDaemonConfig :=
  load_daemon_config (in_variable R) path (in_config R path) decode_config.

(** *** [run_live_relay_smoke] *)

(** What is verified once the daemon has answered. *)
Definition verify_live (relay : RelayUrl) (group_id request_id secret : str)
    (P : ProductionProducer (E := E)) (response : LocalPublishResponse)
    : M (option LiveRelayEvidence) :=
  '(item_receipt_id, item_event_id) ← io_lift (published response);
  observed ← on_network (observe_exact relay group_id item_event_id);
  match oe_parsed observed with
  | PItem item =>
      audio ← on_network (verify_audio item);
      '(answer_receipt_id, answer_event_id, answer_author) ←
        on_network (publish_answer relay group_id item_event_id secret);
      answered ← on_network (observe_exact relay group_id answer_event_id);
      match oe_parsed answered with
      | PAnswer answer =>
          _ ← io_lift (fail_if $"live answer did not preserve the expected item relationship"
            (negb (related_root_id answer =?s item_event_id)
             || negb (bool_decide (answer_answers (related_value answer)
                                   = [mkQuestionAnswer $"live-e2e" [$"confirmed"]]))));
          mret (Some (mkLiveEvidence (relay_str relay) group_id request_id
            (be_group_creation_receipt_id (op_bootstrap P))
            (be_group_created_event_id (op_bootstrap P))
            item_receipt_id item_event_id (item_author item) (oe_source observed) audio
            answer_receipt_id answer_event_id (related_root_id answer) answer_author
            (oe_source answered)))
      | _ => io_err $"live relay returned the answer id with the wrong TTS29 type"
      end
  | _ => io_err $"live relay returned the item id with the wrong TTS29 type"
  end.

Definition creates_group : bool :=
  match in_variable R $"TTS29_LIVE_CREATE_GROUP" with
  | EnvValue value => value =?s $"1"
  | _ => false
  end.
Definition run_live_relay_smoke (path : str) : M (option LiveRelayEvidence) :=
  loaded ← io_lift (load_config path);
  relay ← io_lift (ok_or $"live relay URL is invalid"
                     (relay_parse (pc_host (lc_production loaded))));
  let group_id := pc_group_id (lc_production loaded) in
  production ← (if creates_group then with_own_key (lc_production loaded)
                else mret (lc_production loaded));
  request_secret ← disposable_secret;
  stamp ← on_network unix_seconds;
  let request_id := $"live-e2e-" ++ u64_to_string stamp in
  let local := mkLocalPublish LOCAL_PROTOCOL_VERSION
    (live_request (in_variable R $"TTS29_LIVE_VOICE") request_id group_id) None
    (Some request_secret) in
  with_daemon $"live" encode_publish (mkLoaded (lc_socket_path loaded) production) local
    (verify_live relay group_id request_id request_secret).

(** *** [run_tree_relay_smoke] *)

(** The closure [write]. *)
Definition write_message (dir name body : str) : M str :=
  let file := join_name dir name in
  _ ← io_map_err (λ error, $"tree message write failed: " ++ error)
        (on_network (write_text file body));
  mret file.

Definition tree_group (stamp : str) : str :=
  match in_variable R $"TTS29_TREE_GROUP" with
  | EnvValue group_id => group_id
  | _ => $"tts29-tree-" ++ stamp
  end.
Definition run_tree_relay_smoke (path : str) : M (option TreeSmokeEvidence) :=
  loaded ← io_lift (load_config path);
  seconds ← on_network unix_seconds;
  let stamp := u64_to_string seconds in
  let group_id := tree_group stamp in
  production ← with_own_key (set_group group_id (lc_production loaded));
  let dir := join_name temp_dir ($"tts29-tree-" ++ stamp) in
  _ ← io_map_err (λ error, $"tree temp dir failed: " ++ error) (on_network (make_dirs dir));
  root ← write_message dir $"root.md"
    $"Daemon-published proposal. Open the [Detailed explanation](attachment:).";
  child ← write_message dir $"child.md"
    $"Here is the detailed explanation. See the [Further note](attachment:).";
  grandchild ← write_message dir $"gc.md" $"This is the further note, one level deeper.";
  let tree := smoke_tree stamp group_id root child grandchild in
  request_secret ← disposable_secret;
  let local := mkLocalTree LOCAL_PROTOCOL_VERSION tree (Some $"indigo-claude")
    (Some request_secret) in
  with_daemon $"tree" encode_tree (mkLoaded (lc_socket_path loaded) production) local
    (λ _ response,
       _ ← on_network (λ e, (Ok (), remove_dirs dir e));
       '(root_event_id, child_event_ids) ← io_lift (published_tree response);
       mret (Some (mkTreeEvidence (pc_host (lc_production loaded)) group_id root_event_id
                     child_event_ids))).

(** *** The programs, up to the JSON they print *)
Definition path_argument (usage : str) (arguments : list OsString) : result str OsString :=
  match arguments with
  | [flag; path] => if flag =?s $"--config" then Ok path else Err usage
  | _ => Err usage
  end.
Definition live_e2e : M (option LiveRelayEvidence) :=
  path ← io_lift (path_argument $"usage: tts29-live-e2e --config <daemon.json>" (in_arguments R));
  run_live_relay_smoke (path_of path).
Definition tree_e2e : M (option TreeSmokeEvidence) :=
  path ← io_lift (path_argument $"usage: tts29-tree-e2e --config <daemon.json>" (in_arguments R));
  run_tree_relay_smoke (path_of path).
End smoke.

(** ** What a check that succeeds has shown *)
Section facts.
Context `{Nip29Laws, Hashing, UrlParser} {E : Type}.
Context `{!ProducerEnv E, !WorkDir E, !DaemonEngine E, !BlossomClient E, !AnswerEngine E,
          !WorkHost E, !EngineStart E, !EngineStop E, !LiveNetwork E, !LiveFiles E}.
Context (status_debug : WriteStatus → str) (token : str → result str str).
Context (decode_config : list N → result str FileConfig)
        (to_json : JobRecord → option (list N)) (from_json : list N → option JobRecord).
Context (decode_publish : list N → option LocalPublishRequest)
        (decode_tree : list N → option LocalTreeRequest)
        (encode_response : LocalPublishResponse → result str (list N)).
Context (encode_publish : LocalPublishRequest → option (list N))
        (encode_tree : LocalTreeRequest → option (list N))
        (decode_response : list N → option LocalPublishResponse)
        (client_error_message : ClientError → str).
Context (R : Run) (wire : Wire).
(** JSON is read back as it was written, a request for a tree is no other
    request, and what arrives is a response only when it is all that was
    written. *)
Hypothesis json_laws : ∀ job data, to_json job = Some data →
  from_json (data ++ [10%N]) = Some job.
Hypothesis publish_laws : ∀ request data, encode_publish request = Some data →
  decode_publish data = Some request.
Hypothesis tree_laws : ∀ request data, encode_tree request = Some data →
  decode_publish data = None ∧ decode_tree data = Some request.
Hypothesis response_laws : ∀ response data, encode_response response = Ok data →
  decode_response data = Some response.
Hypothesis empty_laws : decode_response [] = None.
Hypothesis wire_laws : ∀ data received response, wr_read wire data = Ok received →
  decode_response received = Some response → received = data.

#[local] Abbreviation host := (@Host E).
#[local] Abbreviation records := (records to_json from_json).
#[local] Abbreviation progress := (progress to_json from_json).
#[local] Abbreviation host_ok := (host_ok to_json from_json).
#[local] Abbreviation steady := (steady to_json from_json).
#[local] Abbreviation serve_connection :=
  (serve_connection status_debug token to_json from_json decode_publish decode_tree
     encode_response R wire).
#[local] Abbreviation serve_client :=
  (serve_client status_debug token to_json from_json decode_publish decode_tree encode_response
     R wire).
#[local] Abbreviation serve_request :=
  (serve_request status_debug token to_json from_json decode_publish decode_tree encode_response
     decode_response client_error_message R wire).
#[local] Abbreviation with_daemon :=
  (with_daemon status_debug token to_json from_json decode_publish decode_tree encode_response
     decode_response client_error_message R wire).

(** *** Steps outside the journal *)
Lemma progress_network {X A} root (m : io E X A) (s : host) r s' :
  on_network m s = (r, s') → progress root s s'.
Proof using.
  unfold on_network, on_world. destruct (on_engine m (hs_world s)) as [r0 w] eqn:Hm.
  intros [= _ <-]. apply progress_files; [|done]. apply on_engine_disk in Hm.
  unfold Daemon.records, FileJobJournal.stored. simpl. by injection Hm as ->.
Qed.
Lemma steady_network {X A} root (m : io E X A) : steady root (on_network m).
Proof using. intros s r s' Hm _. by eapply progress_network. Qed.

Lemma steady_secret root : steady root (disposable_secret R : io host str str).
Proof using. intros s r s' [= _ <-] _. by apply progress_files. Qed.

Lemma steady_own_key root config : steady root (with_own_key R config : io host str ProductionConfig).
Proof using.
  apply steady_bind; [apply steady_secret|]. intros _ secret _ _.
  apply steady_bind; [|intros; apply steady_lift].
  apply steady_bind; [apply steady_map_err, steady_network|]. intros _ _ _ _.
  apply steady_bind; [apply steady_map_err, steady_network|]. intros _ account _ _.
  apply steady_bind; [apply steady_network|]. intros _ _ _ _. apply steady_lift.
Qed.

(** *** The request *)
Lemma serve_client_inv P data s r s' :
  serve_client P data s = (r, s') →
  ∃ s1, serve_connection P data s = (r, s1) ∧ progress (op_journal_root P) s1 s'.
Proof using.
  unfold LiveSmoke.serve_client, mbind, io_bind, io_try, on_world, io_lift.
  destruct (serve_connection P data s) as [r1 s1]. intros K. injection K as -> <-. exists s1.
  split; [done|]. by apply progress_files.
Qed.

Lemma serve_client_served P root data s r s' :
  op_journal_root P = root → host_ok root s → serve_client P data s = (r, s') →
  progress root s s'.
Proof using json_laws.
  intros <- Hs (s1 & Hserve & Hp)%serve_client_inv. etrans; [|exact Hp].
  by eapply serve_connection_served.
Qed.

Lemma steady_request {A} P root kind (encode : A → option (list N)) (request : A) :
  op_journal_root P = root → steady root (serve_request kind encode P request).
Proof using json_laws.
  intros HP. unfold LiveSmoke.serve_request.
  destruct (encode request) as [payload|]; [|apply steady_lift].
  destruct (_ <? _)%N; [apply steady_lift|].
  apply steady_bind; [apply steady_map_err; intros s r s' Hc Hs; by eapply serve_client_served|].
  intros _ written _ _ s r s'. unfold fmap, io_fmap, io_lift. intros K _. assert (s' = s) as -> by (by destruct (map_err _ _); injection K as _ <-).
  by apply progress_files.
Qed.

(** The client has read what the daemon wrote. *)
Lemma serve_request_inv {A} P kind (encode : A → option (list N)) request s response s' :
  serve_request kind encode P request s = (Ok (Some response), s') →
  ∃ payload raw, encode request = Some payload ∧
    exchange_of status_debug token to_json from_json decode_publish decode_tree encode_response
      R wire P s payload = Ok raw ∧
    decode_response raw = Some response ∧
    progress (op_journal_root P) (serve_connection P payload s).2 s'.
Proof using.
  intros Hserve. unfold LiveSmoke.serve_request in Hserve.
  destruct (encode request) as [payload|] eqn:Hencode; [|done].
  destruct (_ <? _)%N; [done|]. run Hserve as written s1 Hclient.
  apply io_map_err_ok in Hclient.
  apply io_bind_ok in Hserve as (response' & s2 & [Hsubmit <-]%io_lift_ok & Hret).
  injection Hret as -> <-. apply map_err_ok in Hsubmit. unfold submit in Hsubmit.
  okay Hsubmit as payload' Hpay. apply ok_or_ok in Hpay.
  assert (payload' = payload) as -> by congruence. passed Hsubmit as Hlimit.
  okay Hsubmit as raw Hraw. apply map_err_ok in Hraw.
  okay Hsubmit as data Hdata. apply read_bounded_ok in Hdata as [-> _].
  apply ok_or_ok in Hsubmit. apply serve_client_inv in Hclient as (s3 & Hserve & Hp).
  exists payload, raw. split; [done|]. rewrite Hserve. split; [|done].
  unfold exchange_of. by rewrite (serve_connection_written _ _ _ _ _ _ _ _ _ _ _ _ _ _ Hserve).
Qed.

(** What the client reports is what the daemon answered to its request: the
    journal holds it. *)
Lemma serve_request_published P root kind request s response s' receipt event :
  op_journal_root P = root → host_ok root s →
  serve_request kind encode_publish P request s = (Ok (Some response), s') →
  published response = Ok (receipt, event) →
  publication_true (pr_group_id (lp_request request)) (records root s') (lp_request request)
    receipt event NotRequested.
Proof using json_laws publish_laws response_laws empty_laws wire_laws.
  intros <- Hs (payload & raw & Hencode & Hread & Hdecode & Hp)%serve_request_inv Hpub.
  destruct response as [version id receipt' event' wait| |]; [|done..].
  destruct wait; [|done..]. simpl in Hpub. injection Hpub as -> ->.
  apply publish_laws in Hencode.
  eapply exchange_publication in Hdecode as (_ & Hg & _ & Htrue);
    [|exact json_laws|exact response_laws|exact empty_laws|exact wire_laws|reflexivity|exact Hs|
     exact Hencode|exact Hread].
  rewrite Hg. eapply publication_true_carried; [apply Hp|exact Htrue].
Qed.

Lemma serve_request_tree P root kind request s response s' event children :
  op_journal_root P = root → host_ok root s →
  serve_request kind encode_tree P request s = (Ok (Some response), s') →
  published_tree response = Ok (event, children) →
  let tree := lt_tree request in
  tree_group_id tree = op_group_id P ∧ ∃ author,
    node_job (op_group_id P) author (records root s') (tree_request_id tree) (tree_title tree)
      (tree_questions tree) None event ∧
    children_published (op_group_id P) author (records root s') (tree_request_id tree) event 0
      (tree_attachments tree) children.
Proof using json_laws tree_laws response_laws empty_laws wire_laws.
  intros <- Hs (payload & raw & Hencode & Hread & Hdecode & Hp)%serve_request_inv Hpub.
  destruct response as [|version id root' children'|]; [done| |done].
  simpl in Hpub. injection Hpub as -> ->. apply tree_laws in Hencode as [Hno Hyes].
  eapply exchange_tree in Hdecode as (Hg & author & Hnode & Hch);
    [|exact json_laws|exact response_laws|exact empty_laws|exact wire_laws|reflexivity|exact Hs|
     exact Hno|exact Hyes|exact Hread].
  split; [done|]. exists author.
  split; [eapply node_job_carried|eapply children_carried]; (apply Hp || done).
Qed.

(** The journal a configuration names, with the key kept out of it. *)
Definition configured (root : str) (config : ProductionConfig) : Prop :=
  pc_journal_root config = root ∧
  ∀ id, pc_daemon_identity_path config ≠
    FileJobJournal.record_name
      (FileJobJournal.mkConfig root 0 (λ _, None) to_json from_json) id.

Lemma with_daemon_inv {A B} root kind (encode : A → option (list N)) loaded request verify s
    (b : B) s' :
  random_ok (in_random R) → configured root (lc_production loaded) → host_ok root s →
  with_daemon kind encode loaded request verify s = (Ok (Some b), s') →
  ∃ P response s1 s2 s3,
    op_journal_root P = root ∧ progress root s s1 ∧
    serve_request kind encode P request s1 = (Ok (Some response), s2) ∧
    verify P response s2 = (Ok (Some b), s3) ∧ progress root s3 s'.
Proof using.
  intros Hrandom [Hroot Hkey] Hs Hrun. unfold LiveSmoke.with_daemon in Hrun.
  run Hrun as P s1 Hopen.
  assert (progress root s s1) as Hp1 by by eapply steady_open.
  unfold on_world in Hopen. destruct (open_with_clock _ _ _ _ _ (hs_world s)) as [r0 w] eqn:Ho.
  injection Hopen as -> _. apply open_config in Ho as [HP _].
  apply scope_inv in Hrun as (s2 & Hrun & ->); [|done].
  run Hrun as l s3 Hbind. apply io_map_err_ok in Hbind.
  assert (progress root s1 s3) as Hp2
    by (eapply steady_socket; [exact Hbind|by apply Hp1]).
  apply scope_inv in Hrun as (s4 & Hrun & ->); [|done].
  run Hrun as served s5 Hserve. destruct served as [response|]; [|done].
  exists P, response, s3, s5, s4. split_and!; [congruence|by etrans|done|done|].
  by apply progress_files.
Qed.

(** *** What is verified from outside *)
Record confirmed (relay : RelayUrl) (group_id : str) (ev : LiveRelayEvidence) : Prop := {
  cf_item : ∃ item, delivered relay group_id (lre_item_event_id ev) (PItem item) ∧
    item_author item = lre_item_author ev ∧ downloaded item (lre_audio ev);
  cf_published : answer_published relay group_id (lre_item_event_id ev)
    (lre_answer_receipt_id ev) (lre_answer_event_id ev) (lre_answer_author ev);
  cf_answer : ∃ answer, delivered relay group_id (lre_answer_event_id ev) (PAnswer answer) ∧
    related_root_id answer = lre_item_event_id ev ∧
    answer_answers (related_value answer) = [mkQuestionAnswer $"live-e2e" [$"confirmed"]];
}.

Lemma on_network_ok {X A} (m : io E X A) (s : host) a s' :
  on_network m s = (Ok a, s') → ∃ e', m (iw_env (hs_world s)) = (Ok a, e').
Proof using.
  unfold on_network, on_world, on_engine. destruct (m (iw_env (hs_world s))) as [r e'].
  intros [= -> _]. by exists e'.
Qed.

Lemma verify_live_ok root relay group_id request_id secret P response s ev s' :
  verify_live relay group_id request_id secret P response s = (Ok (Some ev), s') →
  progress root s s' ∧ confirmed relay group_id ev ∧ lre_request_id ev = request_id ∧
  published response = Ok (lre_item_receipt_id ev, lre_item_event_id ev).
Proof using.
  intros Hv. unfold verify_live in Hv. pure Hv as [receipt event] Hpub.
  run Hv as observed s1 K1. destruct (oe_parsed observed) as [item| | |] eqn:Hitem; [|done..].
  run Hv as audio s2 K2. run Hv as [[areceipt aevent] aauthor] s3 K3. run Hv as answered s4 K4.
  destruct (oe_parsed answered) as [|answer| |] eqn:Hanswer; [done| |done..].
  pure Hv as u Hrel. apply fail_if_ok in Hrel. injection Hv as <- <-.
  split; [do 3 (etrans; [by eapply progress_network|]); by eapply progress_network|].
  apply on_network_ok in K1 as [e1 K1%observe_exact_ok], K2 as [e2 K2%verify_audio_ok],
    K3 as [e3 K3%publish_answer_ok], K4 as [e4 K4%observe_exact_ok].
  rewrite Hitem in K1. rewrite Hanswer in K4.
  apply orb_false_iff in Hrel as [Hroot Hval]. apply negb_false_iff in Hroot, Hval.
  apply str_eqb_eq in Hroot. apply bool_decide_eq_true in Hval.
  split; [|by split]. by split; simpl; eauto.
Qed.

(** C17: what the live check reports is so. When [run_live_relay_smoke] succeeds, the
    daemon's journal holds a published job for exactly the request of the check,
    with the reported receipt and event; the selected host delivered that event
    to an engine of its own, as an item of the group whose audio was downloaded
    and is the described one; the answer that was composed for it was handed
    over under the reported receipt, signed under the reported id and
    acknowledged by the host; and the host delivered it again, as an answer to
    that item with the value that was chosen. The daemon's records are
    consistent and none was lost. *)
Theorem live_evidence_true root path loaded s ev s' :
  load_config decode_config R path = Ok loaded → configured root (lc_production loaded) →
  random_ok (in_random R) → host_ok root s →
  run_live_relay_smoke status_debug token decode_config to_json from_json decode_publish
    decode_tree encode_response encode_publish decode_response client_error_message R wire path s
    = (Ok (Some ev), s') →
  let group_id := pc_group_id (lc_production loaded) in
  host_ok root s' ∧ carried (records root s) (records root s') ∧
  publication_true group_id (records root s')
    (live_request (in_variable R $"TTS29_LIVE_VOICE") (lre_request_id ev) group_id)
    (lre_item_receipt_id ev) (lre_item_event_id ev) NotRequested ∧
  ∃ relay, relay_parse (pc_host (lc_production loaded)) = Some relay ∧
    confirmed relay group_id ev.
Proof using json_laws publish_laws response_laws empty_laws wire_laws.
  intros Hload [Hroot Hkey] Hrandom Hs Hrun. unfold run_live_relay_smoke in Hrun.
  rewrite Hload in Hrun. unfold mbind at 1, io_bind at 1, io_lift at 1 in Hrun.
  pure Hrun as relay Hrelay. apply ok_or_ok in Hrelay.
  run Hrun as production s1 Hprod. run Hrun as secret s2 Hsecret. run Hrun as stamp s3 Hstamp.
  assert (progress root s s1 ∧ configured root production) as [Hp1 Hconfig].
  { destruct (creates_group R); [|by injection Hprod as <- <-].
    split; [by eapply steady_own_key|]. unfold with_own_key in Hprod.
    run Hprod as own s4 K1. run Hprod as owner s5 K2. by injection Hprod as <- _. }
  assert (progress root s s3) as Hp3.
  { etrans; [exact Hp1|]. etrans; [by eapply steady_secret, Hp1|]. by eapply progress_network. }
  eapply with_daemon_inv in Hrun as (P & response & s4 & s5 & s6 & HP & Hp4 & Hserve & Hverify & Hp6);
    [|done|exact Hconfig|by apply Hp3].
  apply (verify_live_ok root) in Hverify as (Hp5 & Hconfirmed & Hid & Hpub).
  assert (progress root s s4) as Hp by by etrans. pose proof (pg_ok _ _ _ _ _ Hp Hs) as Hok4.
  assert (progress root s4 s5) as Hp' by by eapply steady_request.
  eapply serve_request_published in Hserve; [|done..].
  assert (progress root s5 s') as Hp'' by by etrans.
  assert (progress root s s') as Hall by by do 2 (etrans; [done|]).
  rewrite Hid. split; [by apply Hall|]. split; [by apply Hall|]. split; [|by exists relay].
  eapply publication_true_carried; [apply Hp''|exact Hserve].
Qed.

Lemma own_key_configured root config s production s' :
  configured root config → with_own_key R config (s : host) = (Ok production, s') →
  configured root production.
Proof using.
  intros Hconfig Hprod. unfold with_own_key in Hprod.
  run Hprod as own s4 K1. run Hprod as owner s5 K2. by injection Hprod as <- _.
Qed.

Lemma progress_write root dir name body (s : host) file s' :
  write_message dir name body s = (Ok file, s') → progress root s s'.
Proof using.
  intros Hw. unfold write_message in Hw. run Hw as u s1 Hf. apply io_map_err_ok in Hf.
  injection Hw as _ <-. by eapply progress_network.
Qed.

(** What the tree check reports is so: when [run_tree_relay_smoke] succeeds, the
    journal holds the whole tree, the root, its child and its grandchild, each a
    published job of one author in the group of the check, the events linked as
    reported, the children listed from the bottom up; and no record of the
    daemon was lost. *)
Theorem tree_evidence_true root path loaded s ev s' :
  load_config decode_config R path = Ok loaded → configured root (lc_production loaded) →
  random_ok (in_random R) → host_ok root s →
  run_tree_relay_smoke status_debug token decode_config to_json from_json decode_publish
    decode_tree encode_response encode_tree decode_response client_error_message R wire path s
    = (Ok (Some ev), s') →
  let group := tse_group_id ev in
  let jobs := records root s' in
  host_ok root s' ∧ carried (records root s) jobs ∧
  ∃ id author child grandchild,
    tse_child_event_ids ev = [grandchild; child] ∧
    node_job group author jobs id $"Daemon proposal" [] None (tse_root_event_id ev) ∧
    node_job group author jobs (child_request_id id 0) $"Detailed explanation" []
      (Some (tse_root_event_id ev)) child ∧
    node_job group author jobs (child_request_id (child_request_id id 0) 0) $"Further note" []
      (Some child) grandchild.
Proof using json_laws tree_laws response_laws empty_laws wire_laws.
  intros Hload Hconfig Hrandom Hs Hrun. unfold run_tree_relay_smoke in Hrun.
  rewrite Hload in Hrun. unfold mbind at 1, io_bind at 1, io_lift at 1 in Hrun.
  run Hrun as seconds s1 K1. cbv zeta in Hrun.
  run Hrun as production s2 K2.
  run Hrun as u3 s3 K3. apply io_map_err_ok in K3. run Hrun as rootm s4 K4.
  run Hrun as childm s5 K5. run Hrun as grandm s6 K6. run Hrun as secret s7 K7.
  assert (configured root production) as Hprod by (eapply own_key_configured; [|exact K2]; done).
  assert (progress root s s1) as Hp1 by by eapply progress_network.
  assert (progress root s s7) as Hp.
  { etrans; [exact Hp1|]. etrans; [by eapply steady_own_key, Hp1|].
    etrans; [by eapply progress_network|]. do 3 (etrans; [by eapply progress_write|]).
    injection K7 as _ <-. by apply progress_files. }
  eapply with_daemon_inv in Hrun as (P & response & s8 & s9 & s10 & HP & Hp8 & Hserve & Hverify & Hp10);
    [|done|exact Hprod|by apply Hp].
  run Hverify as u s11 K11. pure Hverify as [root_event children] Hpub. injection Hverify as <- <-.
  assert (host_ok root s8) as Hok8 by by apply Hp8, Hp.
  assert (progress root s8 s9) as Hp9 by by eapply steady_request.
  assert (progress root s9 s') as Hlast.
  { etrans; [by eapply progress_network|exact Hp10]. }
  eapply serve_request_tree in Hserve as (Hg & author & Hnode & Hch); [|done..].
  simpl in *. rewrite <-Hg in Hnode, Hch.
  assert (progress root s s') as Hall by (etrans; [exact Hp|]; etrans; [exact Hp8|]; by etrans).
  split; [by apply Hall|]. split; [by apply Hall|].
  inversion Hch as [| |? ? ? ? ? ? child below events Hchild Hbelow Hrest]; subst.
  inversion Hrest; subst.
  inversion Hbelow as [| |? ? ? ? ? ? grandchild below' events' Hgrand Hbelow' Hrest']; subst.
  inversion Hrest'; subst. inversion Hbelow'; subst.
  eexists _, author, child, grandchild.
  split; [done|]. split_and!; (eapply node_job_carried; [apply Hlast|eassumption]).
Qed.
End facts.

(** ** A live check that succeeds

    The daemon of [Example_daemon] serves it; the relay then delivers what was
    published, and the answer to it. *)
Module Example_live.
Export Example_daemon.
#[export] Instance wait_eq : EqDecision AnswerWaitResult.
Proof. solve_decision. Defined.
#[export] Instance response_eq : EqDecision LocalPublishResponse.
Proof. solve_decision. Defined.
#[export] Instance request_eq : EqDecision LocalPublishRequest.
Proof. solve_decision. Defined.

Definition author : str := encode_hex (replicate 32 7%N).
Definition request_id : str := $"live-e2e-7".
Definition request : ProducerRequest := live_request NotPresent request_id $"tts".
Definition local : LocalPublishRequest := mkLocalPublish 1 request None (Some author).
Definition response : LocalPublishResponse :=
  ResponsePublished 1 request_id 5 hex NotRequested.

(** JSON by the place in a table. *)
Definition encode {A} `{EqDecision A} (table : list A) (value : A) : option (list N) :=
  '(i, _) ← list_find (λ value', value' = value) table; Some [N.of_nat i].
Definition decode {A} (table : list A) (data : list N) : option A :=
  match data with [i] => table !! N.to_nat i | _ => None end.
Lemma table_laws {A} `{EqDecision A} (table : list A) value data :
  encode table value = Some data → decode table data = Some value.
Proof.
  unfold encode. destruct (list_find _ table) as [[i value']|] eqn:Hf; [|done]. intros [= <-].
  apply list_find_Some in Hf as (Hi & -> & _). simpl. by rewrite Nat2N.id.
Qed.

Definition record : JobPhase → JobRecord := mkJob 1 hex author 7 request.
Definition audio : LocalAudioArtifact :=
  mkLocalAudio $"/work/live-e2e-7/speech.mp3" hex $"audio/mpeg" 3.
Definition item : FrozenSpokenItem := frozen_item (record JobAdmitted)
  (mkArtifact $"https://cdn.example/x" hex $"audio/mpeg" 3 None).
Definition jobs : list JobRecord :=
  record <$> [JobAdmitted; Synthesized audio; ArtifactsDurable item;
    AuthorizationAccepted item 5; AuthorAuthorized item membership;
    PublicationAccepted item (Some membership) 5; JobPublished item (Some membership) 5 hex].
Definition to_json : JobRecord → option (list N) := encode jobs.
Definition from_json (data : list N) : option JobRecord :=
  match data with [i; 10%N] => decode jobs [i] | _ => None end.
Lemma live_json_laws job data : to_json job = Some data → from_json (data ++ [10%N]) = Some job.
Proof.
  unfold to_json. intros Hj. pose proof (table_laws _ _ _ Hj) as Hd. unfold encode in Hj.
  destruct (list_find _ jobs) as [[i job']|]; [|done]. by injection Hj as <-.
Qed.
Definition encode_response (r : LocalPublishResponse) : result str (list N) :=
  ok_or [] (encode [response] r).
Lemma response_laws r data :
  encode_response r = Ok data → decode [response] data = Some r.
Proof. intros Hr%ok_or_ok. by apply table_laws. Qed.

(** The relay. *)
Definition live_event (id : str) (w : WriteIntent) : Event :=
  let u := intent_payload w in
  mkEvent (mkEventId id) (unsigned_pubkey u) (unsigned_created_at u)
    (unsigned_kind u) (unsigned_tags u) (unsigned_content u).
Definition published_row (id : str) {X} (w : result X WriteIntent) : list Row :=
  match w with Ok w => [mkRow (live_event id w) [host]] | Err _ => [] end.
Definition answer_id : str := repeat 99%N 64.
Definition live_rows : list Row :=
  published_row hex (compose_spoken_item host item) ++
  published_row answer_id (compose_answer host (live_answer author 7 $"tts" hex)).
Definition frame : LiveFrame :=
  mkLiveFrame [] [mkLiveSource host $"connected" (Some 5%N)] 0 (Some live_rows).
Definition audio_url : Url :=
  mkUrl $"https" [] None (Some $"cdn.example") $"/x" None None $"https://cdn.example/x".
#[export] Instance live_urls : UrlParser := {| url_parse text :=
  if text =?s $"https://cdn.example/x" then Some audio_url else url_parse text |}.
#[export] Instance live_network : LiveNetwork World := {|
  live_demand id host := Ok (mkExact id host);
  live_observe _ e := (Ok (λ i, if decide (i = 1) then Some frame else None), e);
  live_publish _ e := (Ok 6%N, e);
  live_reattach _ e := (Ok (Some (λ i,
    nth i [None; Some (StatusAcked host); Some (StatusSigned (mkEventId answer_id))] None)), e);
  http_client e := (Ok (), e);
  http_send _ e := (Ok (HttpFinal true $"200 OK" (Ok [1; 2; 3]%N)), e);
  live_shutdown e := e;
|}.
Definition wire : Wire := mkWire (Ok ()) None (λ _, Ok ()) (Ok ()) Ok.
Definition life : Run := life [].
Abbreviation checked := (run_live_relay_smoke (λ _, []) Ok (λ _, Ok file) to_json from_json
  (decode [local]) (λ _, None) encode_response (encode [local]) (decode [response]) (λ _, [])
  life wire $"/etc/daemon.json" start).
(** What the evidence says, where there is one. *)
Definition reports (r : result str (option LiveRelayEvidence)) : bool :=
  match r with
  | Ok (Some ev) =>
      (lre_request_id ev =?s request_id) && (lre_item_receipt_id ev =? 5)%N
      && (lre_item_event_id ev =?s hex) && (lre_answer_event_id ev =?s answer_id)
  | _ => false
  end.
End Example_live.

#[local] Existing Instances Example_nmp.nip29 Example_nmp.nip29_laws Example_daemon.hashing
  Example_daemon.producer_env Example_daemon.work_dir Example_daemon.engine Example_daemon.client
  Example_daemon.answer_engine Example_daemon.work_host Example_daemon.engine_start
  Example_daemon.engine_stop Example_live.live_urls Example_live.live_network
  Example_live.request_eq.

Lemma live_evidence_true_witness :
  Example_live.reports Example_live.checked.1 = true ∧
  ∃ job item membership,
    records Example_live.to_json Example_live.from_json $"/jobs" Example_live.checked.2
      Example_live.request_id = Some job ∧
    job_phase job = JobPublished item membership 5 Example_daemon.hex.
Proof.
  assert (Hok : Example_live.reports Example_live.checked.1 = true) by (vm_compute; reflexivity).
  split; [exact Hok|].
  pose proof (live_evidence_true (λ _, []) Ok (λ _, Ok Example_daemon.file)
    Example_live.to_json Example_live.from_json (Example_live.decode [Example_live.local])
    (λ _, None) Example_live.encode_response (Example_live.encode [Example_live.local])
    (Example_live.decode [Example_live.response]) (λ _, []) Example_live.life Example_live.wire
    Example_live.live_json_laws (Example_live.table_laws _) Example_live.response_laws
    eq_refl ltac:(by intros ? ? ? [= ->]) $"/jobs" $"/etc/daemon.json"
    (loaded_of $"/etc" (Some Example_daemon.hex) AuthNone Example_daemon.file)
    Example_daemon.start) as Htrue.
  destruct Example_live.checked as [[[ev|]|] s'] eqn:Hrun; [|discriminate Hok..].
  destruct (Htrue ev s') as (_ & _ & (job & item & membership & Hjob & Hphase & _) & _).
  - vm_compute. reflexivity.
  - split; [vm_compute; reflexivity|]. intros id Hid.
    apply (example_key Example_live.to_json Example_live.from_json id). rewrite <-Hid.
    vm_compute. reflexivity.
  - split; [done|by repeat constructor].
  - apply example_start_ok.
  - reflexivity.
  - cbn [fst snd Example_live.reports] in Hok. rewrite !andb_true_iff, !str_eqb_eq, N.eqb_eq in Hok.
    destruct Hok as [[[Hid Hreceipt] Hevent] _]. rewrite Hid in Hjob. rewrite Hreceipt, Hevent in Hphase.
    exists job, item, membership. split; [exact Hjob|exact Hphase].
Defined.
