(* ===== verification/Gateway.v ===== *)
(** The MCP endpoint in front of a running daemon, as one system: [mcp/src] with
    [tool.rs] as a client of the daemon's socket, and the daemon
    ([daemon/src]) which serves other clients at the same time. The composition
    of [McpServer], [Exchange] and [Daemon]. *)

From S2P Require Export McpServer Exchange.

(** The calls of the tool with the results they had are kept as a history. *)
Record System {E : Type} := mkSystem {
  sy_server : Server;
  sy_host : @Host E;
  sy_results : list (HttpRequest * PublishSpeechInput * option CallToolResult);
}.
Arguments System : clear implicits.

(** A step: one of the endpoint that makes no call, one request in the handler
    (whose blocking task may fail, and whose client and the wire are what they
    are), or another client's connection. *)
Inductive SystemAction :=
  | OnServer (action : ServerAction)
  | OnTool (i : nat) (joined : bool) (wire : Wire)
  | OnSocket (wire : Wire) (data : list N).

Section system.
Context `{Nip29, Hashing, UrlParser} {E : Type}.
Context `{!ProducerEnv E, !WorkDir E, !DaemonEngine E, !BlossomClient E, !AnswerEngine E,
          !WorkHost E, !EngineStart E, !EngineStop E}.
Context (status_debug : WriteStatus → str) (token : str → result str str).
Context (to_json : JobRecord → option (list N)) (from_json : list N → option JobRecord).
Context (decode_publish : list N → option LocalPublishRequest)
        (decode_tree : list N → option LocalTreeRequest)
        (encode_response : LocalPublishResponse → result str (list N)).
Context (encode_publish : LocalPublishRequest → option (list N))
        (decode_response : list N → option LocalPublishResponse).
Context (query_keys : str → list str) (header_value : str → bool) (error_body : str → list N).
Context `{Jwt, Axum, Rmcp} (config : McpConfig) (auth : AuthValidator).
Context (R : Run) (P : ProductionProducer (E := E)).

#[local] Abbreviation serve_connection wire :=
  (serve_connection status_debug token to_json from_json decode_publish decode_tree
     encode_response R wire P).
#[local] Abbreviation exchange_of wire :=
  (exchange_of status_debug token to_json from_json decode_publish decode_tree encode_response
     R wire P).
#[local] Abbreviation server_step :=
  (server_step query_keys header_value error_body encode_publish decode_response config auth).
#[local] Abbreviation handle := (handle encode_publish decode_response config).

(** What the tool sends for an input, when it connects at all. *)
Definition sent_for (input : PublishSpeechInput) : option (list N) :=
  let local := local_request input in
  match validate_publish local with
  | Ok _ =>
      payload ← encode_publish local;
      then_some (len payload <=? MAX_LOCAL_FRAME_BYTES)%N payload
  | Err _ => None
  end.

Definition is_handle (action : ServerAction) : bool :=
  match action with Handle _ _ _ => true | _ => false end.

Definition system_step (action : SystemAction) (s : System E) : option (System E) :=
  match action with
  | OnServer action =>
      _ ← reject_if (is_handle action);
      server ← server_step action (sy_server s);
      Some (mkSystem _ server (sy_host s) (sy_results s))
  | OnTool i joined wire =>
      let exchange := exchange_of wire (sy_host s) in
      server ← server_step (Handle i joined exchange) (sy_server s);
      match in_requests (sv_ingress (sy_server s)) !! i, sv_guarded (sy_server s) !! i with
      | Some (Running data), Some request =>
          match (handle request data joined exchange).2 with
          | Some input =>
              let result := publish_speech encode_publish decode_response exchange joined input in
              let host := match sent_for input with
                | Some payload => (serve_connection wire payload (sy_host s)).2
                | None => sy_host s
                end in
              Some (mkSystem _ server host (sy_results s ++ [(request, input, result)]))
          | None => Some (mkSystem _ server (sy_host s) (sy_results s))
          end
      | _, _ => None
      end
  | OnSocket wire data =>
      Some (mkSystem _ (sy_server s) (serve_connection wire data (sy_host s)).2 (sy_results s))
  end.
Definition system_steps (s s' : System E) : Prop := ∃ action, system_step action s = Some s'.
End system.

(** ** What a client is told *)
Section facts.
Context `{Nip29Laws, Hashing, UrlParser} {E : Type}.
Context `{!ProducerEnv E, !WorkDir E, !DaemonEngine E, !BlossomClient E, !AnswerEngine E,
          !WorkHost E, !EngineStart E, !EngineStop E}.
Context (status_debug : WriteStatus → str) (token : str → result str str).
Context (to_json : JobRecord → option (list N)) (from_json : list N → option JobRecord).
Context (decode_publish : list N → option LocalPublishRequest)
        (decode_tree : list N → option LocalTreeRequest)
        (encode_response : LocalPublishResponse → result str (list N)).
Context (encode_publish : LocalPublishRequest → option (list N))
        (decode_response : list N → option LocalPublishResponse).
Context (query_keys : str → list str) (header_value : str → bool) (error_body : str → list N).
Context `{Jwt, AxumLaws, Rmcp} (config : McpConfig) (auth : AuthValidator).
Context (R : Run) (P : ProductionProducer (E := E)).
Hypothesis json_laws : ∀ job data, to_json job = Some data →
  from_json (data ++ [10%N]) = Some job.
Hypothesis publish_laws : ∀ request data, encode_publish request = Some data →
  decode_publish data = Some request.
Hypothesis response_laws : ∀ response data, encode_response response = Ok data →
  decode_response data = Some response.
Hypothesis empty_laws : decode_response [] = None.

(** A connection on which what arrives is a response only when it is all that was
    written. *)
Definition wire_ok (wire : Wire) : Prop := ∀ data received response,
  wr_read wire data = Ok received → decode_response received = Some response → received = data.

#[local] Abbreviation root := (op_journal_root P).
#[local] Abbreviation records := (@records E to_json from_json root).
#[local] Abbreviation progress := (progress to_json from_json root).
#[local] Abbreviation host_ok := (host_ok to_json from_json root).
#[local] Abbreviation step :=
  (system_step status_debug token to_json from_json decode_publish decode_tree encode_response
     encode_publish decode_response query_keys header_value error_body config auth R P).

(** What a result says, of the input and of the journal: a publication that is
    reported is in the journal, for exactly this request, and an answer is one given
    to its event; a failure says nothing but a fixed text or what the validation
    says. *)
Definition result_true (jobs : Jobs) (input : PublishSpeechInput) (result : CallToolResult) : Prop :=
  match tr_response result with
  | ResponsePublished _ id receipt_id event_id answer_wait =>
      tr_error result = false ∧ id = pr_request_id (in_request input) ∧
      pr_group_id (in_request input) = op_group_id P ∧
      (answer_wait = NotRequested ↔ in_wait_for_answer_seconds input = None) ∧
      publication_true (op_group_id P) jobs (in_request input) receipt_id event_id answer_wait
  | ResponsePublishedTree _ _ _ _ => False
  | ResponseError _ _ message =>
      tr_error result = true ∧ tr_text result = message ∧
      (message ∈ public_messages ∨
       ∃ error, validate_publish (local_request input) = Err error ∧ message = err_message error)
  end.

Lemma result_true_carried jobs jobs' input result :
  carried jobs jobs' → result_true jobs input result → result_true jobs' input result.
Proof using.
  intros Hc. unfold result_true. destruct (tr_response result); [|done..].
  intros (? & ? & ? & ? & Htrue). split_and!; try done. by eapply publication_true_carried.
Qed.

#[local] Abbreviation serve_connection wire :=
  (serve_connection status_debug token to_json from_json decode_publish decode_tree
     encode_response R wire P).
#[local] Abbreviation exchange_of wire :=
  (exchange_of status_debug token to_json from_json decode_publish decode_tree encode_response
     R wire P).

Lemma served_progress wire data (s : @Host E) :
  host_ok s → progress s (serve_connection wire data s).2.
Proof using json_laws.
  intros Hs. eapply serve_connection_served; [done|reflexivity|exact Hs|apply surjective_pairing].
Qed.

Lemma tool_result_true wire joined input s result :
  wire_ok wire → host_ok s →
  publish_speech encode_publish decode_response (exchange_of wire s) joined input = Some result →
  result_true (records (match sent_for encode_publish input with
    | Some payload => (serve_connection wire payload s).2 | None => s end)) input result.
Proof using json_laws publish_laws response_laws empty_laws.
  intros Hwire Hs Hp. pose proof (publish_speech_private _ _ _ _ _ _ Hp) as [_ Hprivate].
  unfold result_true. destruct (tr_response result) as [version id receipt event wait| |] eqn:Hr;
    [|done|done].
  destruct Hprivate as (Herr & Hvalid & payload & raw & Hpay & Hle & Hread & _ & Hdecode).
  unfold sent_for. rewrite Hvalid, Hpay. simpl. apply N.leb_le in Hle as ->. simpl.
  apply publish_laws in Hpay.
  eapply exchange_publication in Hdecode as (Hid & Hg & Hwait & Htrue);
    [|exact json_laws|exact response_laws|exact empty_laws|exact Hwire|reflexivity|exact Hs|
     exact Hpay|exact Hread].
  split_and!; [done|done|done|exact Hwait|exact Htrue].
Qed.

Record system_inv (s : System E) : Prop := {
  sy_guarded_ok : server_inv query_keys header_value error_body config auth (sy_server s);
  sy_host_ok : host_ok (sy_host s);
  sy_results_ok : Forall (λ '(request, input, result),
    call_ok query_keys config auth (request, input) ∧
    ∀ told, result = Some told → result_true (records (sy_host s)) input told) (sy_results s);
}.

Definition action_ok (action : SystemAction) : Prop :=
  match action with OnTool _ _ wire => wire_ok wire | _ => True end.

Lemma results_progress (s s' : @Host E) results :
  progress s s' →
  Forall (λ '(request, input, result), call_ok query_keys config auth (request, input) ∧
    ∀ told, result = Some told → result_true (records s) input told) results →
  Forall (λ '(request, input, result), call_ok query_keys config auth (request, input) ∧
    ∀ told, result = Some told → result_true (records s') input told) results.
Proof using.
  intros [Hc _ _ _] Hall. eapply Forall_impl; [exact Hall|].
  intros [[request input] result] [Hcall Htrue]. split; [done|]. intros told Htold.
  eapply result_true_carried; [exact Hc|by apply Htrue].
Qed.

Lemma handle_calls i joined exchange (s s' : Server) data request input :
  server_step query_keys header_value error_body encode_publish decode_response config auth
    (Handle i joined exchange) s = Some s' →
  in_requests (sv_ingress s) !! i = Some (Running data) → sv_guarded s !! i = Some request →
  (handle encode_publish decode_response config request data joined exchange).2 = Some input →
  sv_calls s' = sv_calls s ++ [(request, input)].
Proof using.
  intros Hs Hi Hg Hh. unfold server_step in Hs. rewrite Hi, Hg in Hs.
  destruct (handle _ _ _ _ _ _ _) as [response call]. simpl in Hh. subst call.
  opt Hs as ingress Hstep. by injection Hs as <-.
Qed.

Lemma system_step_inv action s s' :
  action_ok action → step action s = Some s' → system_inv s → system_inv s'.
Proof using All.
  intros Hok Hs [Hserver Hhost Hresults].
  destruct action as [action|i joined wire|wire data]; simpl in Hok; unfold system_step in Hs.
  - opt Hs as u Hno. opt Hs as server Hstep. injection Hs as <-. split; simpl; try done.
    by eapply server_step_inv.
  - opt Hs as server Hstep.
    assert (server_inv query_keys header_value error_body config auth server) as Hserver'
      by by eapply server_step_inv.
    destruct (in_requests _ !! i) as [stage|] eqn:Hi; [|done].
    destruct stage as [| |data| | |]; try done.
    destruct (sv_guarded _ !! i) as [request|] eqn:Hg; [|done].
    destruct (handle _ _ _ _ _ _ _).2 as [input|] eqn:Hh; injection Hs as <-;
      [|by split].
    pose proof (handle_calls _ _ _ _ _ _ _ _ Hstep Hi Hg Hh) as Hcalls.
    set (host := match sent_for _ input with Some _ => _ | None => _ end).
    assert (progress (sy_host s) host) as Hp
      by (unfold host; destruct (sent_for _ input); [by apply served_progress|done]).
    split; simpl; [done|by apply Hp|]. apply Forall_app. split; [by eapply results_progress|].
    constructor; [|constructor]. split.
    + pose proof (si_calls _ _ _ _ _ _ Hserver') as Hall. rewrite Hcalls in Hall.
      by apply Forall_app in Hall as [_ Hall%Forall_inv].
    + intros told Htold. by eapply tool_result_true.
  - injection Hs as <-. pose proof (served_progress wire data _ Hhost) as Hp.
    split; simpl; [done|by apply Hp|by eapply results_progress].
Qed.

(** Any number of steps, over connections that are as assumed. *)
Inductive reaches : System E → System E → Prop :=
  | reaches_none s : reaches s s
  | reaches_step action s s1 s' :
      action_ok action → step action s = Some s1 → reaches s1 s' → reaches s s'.

(** C14: what the endpoint tells its clients is so. With the endpoint and the
    daemon running together, while requests of any number of clients are served
    at the same time and other clients use the daemon's socket: every result of
    a call went to a request on the resource with an accepted token; a
    publication it reports is that of its own request, in the daemon's group, and
    stays in the journal as a published job of exactly this request, with the
    receipt and the event it reports, and an answer it reports is the one
    selected among the rows of the group that answer this event, and fits the
    questions; a failure it reports says only what may be said; and no record of
    the daemon is ever lost. *)
Theorem endpoint_tells_truth host s :
  host_ok host → reaches (mkSystem E (server_new config auth) host []) s →
  host_ok (sy_host s) ∧
  Forall (λ '(request, input, result), call_ok query_keys config auth (request, input) ∧
    ∀ told, result = Some told → result_true (records (sy_host s)) input told) (sy_results s).
Proof using All.
  intros Hhost Hs.
  assert (system_inv (mkSystem E (server_new config auth) host [])) as Hinv
    by (split; [split; [apply ingress_new_inv|constructor..]|done|constructor]).
  revert Hinv. induction Hs as [s|action s s1 s' Hok Hstep _ IH]; [by intros []|].
  intros Hinv. by eapply IH, system_step_inv.
Qed.
End facts.

(** ** One call through both programs *)
Module Example_gateway.
Export Example_daemon.
#[export] Instance wait_eq : EqDecision AnswerWaitResult.
Proof. solve_decision. Defined.
#[export] Instance response_eq : EqDecision LocalPublishResponse.
Proof. solve_decision. Defined.

(** The producer of a daemon that has started. *)
Definition uploader : BlossomArtifactUploader (E := World) :=
  mkUploader (mkPublicKey hex) $"https://blossom.example" 300 1000000.
Definition P : ProductionProducer (E := World) :=
  Startup.mkProducer host (mkPublicKey hex : Registration (E := World)) hex $"tts" $"af_heart" Example_kokoro.K uploader uploader
    $"/jobs" $"/work" (mkBootstrap hex None None None None).
Definition local : LocalPublishRequest := mkLocalPublish 1 request None None.
Definition response : LocalPublishResponse := ResponsePublished 1 $"r" 5 hex NotRequested.
Definition encode_publish (r : LocalPublishRequest) : option (list N) :=
  if decide (lp_request r = request ∧ lp_version r = 1%N ∧ lp_wait_for_answer_seconds r = None ∧
             lp_agent_nsec r = None) then Some [1%N] else None.
Lemma gateway_publish_laws r data :
  encode_publish r = Some data → decode_publish data = Some r.
Proof.
  unfold encode_publish. destruct (decide _) as [(Hr & Hv & Hw & Hn)|]; [|done]. intros [= <-].
  destruct r. simpl in *. by subst.
Qed.
Definition encode_response (r : LocalPublishResponse) : result str (list N) :=
  if decide (r = response) then Ok [7%N] else Err [].
Definition decode_response (data : list N) : option LocalPublishResponse :=
  match data with [7%N] => Some response | _ => None end.
Lemma gateway_response_laws r data :
  encode_response r = Ok data → decode_response data = Some r.
Proof. unfold encode_response. destruct (decide _) as [->|]; [|done]. by intros [= <-]. Qed.

Definition wire : Wire := mkWire (Ok ()) None (λ _, Ok ()) (Ok ()) Ok.
Definition actions : list SystemAction :=
  OnServer <$> [Incoming Example_endpoint.anonymous; Incoming Example_endpoint.call;
                Protect (Admit 0 200); Protect (Read 0)].
Definition later : list SystemAction :=
  [OnTool 0 true wire; OnServer (Protect (Bound 0)); OnSocket wire [9%N]].
#[local] Existing Instances Example_auth.jwt Example_endpoint.axum Example_endpoint.rmcp.
Abbreviation act := (system_step (λ _, []) Ok to_json from_json decode_publish (λ _, None)
  encode_response encode_publish decode_response (λ _, []) (λ _, true) bytes
  Example_endpoint.config Example_endpoint.auth (life []) P).
Definition run : option (System World) :=
  try_fold (λ s action, act action s)
    (mkSystem World (server_new Example_endpoint.config Example_endpoint.auth) start [])
    (actions ++ later).
(** What the run has to show. *)
Definition shows (s : option (System World)) : bool :=
  match s with
  | Some s =>
      match sy_results s with
      | [(request, input, Some result)] =>
          (hq_path request =?s $"/mcp") && negb (tr_error result)
          && bool_decide (tr_response result = response)
      | _ => false
      end
  | None => false
  end.
End Example_gateway.

#[local] Existing Instances Example_nmp.nip29 Example_nmp.nip29_laws Example_daemon.urls
  Example_daemon.hashing Example_daemon.producer_env Example_daemon.work_dir Example_daemon.engine
  Example_daemon.client Example_daemon.answer_engine Example_daemon.work_host
  Example_daemon.engine_start Example_daemon.engine_stop Example_auth.jwt Example_endpoint.axum
  Example_endpoint.axum_laws Example_endpoint.rmcp.

Lemma example_reaches actions : ∀ s s',
  Forall (action_ok Example_gateway.decode_response) actions →
  try_fold (λ s action, Example_gateway.act action s) s actions = Some s' →
  reaches (λ _, []) Ok Example_daemon.to_json Example_daemon.from_json
    Example_daemon.decode_publish (λ _, None) Example_gateway.encode_response
    Example_gateway.encode_publish Example_gateway.decode_response (λ _, []) (λ _, true) bytes
    Example_endpoint.config Example_endpoint.auth (Example_daemon.life []) Example_gateway.P s s'.
Proof.
  induction actions as [|action actions IH]; intros s s' Hok Hs; simpl in Hs.
  - injection Hs as <-. constructor.
  - apply Forall_cons in Hok as [Ha Hok]. apply bind_Some' in Hs as (s1 & Hstep & Hs).
    econstructor; [exact Ha|exact Hstep|by apply IH].
Qed.

Lemma endpoint_tells_truth_witness :
  Example_gateway.shows Example_gateway.run = true ∧
  ∃ s job item membership, Example_gateway.run = Some s ∧
    records Example_daemon.to_json Example_daemon.from_json $"/jobs" (sy_host s) $"r" = Some job ∧
    job_phase job = JobPublished item membership 5 Example_daemon.hex.
Proof.
  assert (Hshows : Example_gateway.shows Example_gateway.run = true) by (vm_compute; reflexivity).
  split; [exact Hshows|].
  destruct Example_gateway.run as [s|] eqn:Hrun; [|discriminate Hshows].
  destruct (endpoint_tells_truth (λ _, []) Ok Example_daemon.to_json Example_daemon.from_json
    Example_daemon.decode_publish (λ _, None) Example_gateway.encode_response
    Example_gateway.encode_publish Example_gateway.decode_response (λ _, []) (λ _, true) bytes
    Example_endpoint.config Example_endpoint.auth (Example_daemon.life []) Example_gateway.P
    Example_daemon.json_laws Example_gateway.gateway_publish_laws
    Example_gateway.gateway_response_laws eq_refl Example_daemon.start s) as [_ Hall].
  - apply example_start_ok.
  - eapply example_reaches; [|exact Hrun]. repeat constructor. by intros ? ? ? [= ->].
  - unfold Example_gateway.shows in Hshows.
    destruct (sy_results s) as [|[[request input] [result|]] [|]]; try discriminate Hshows.
    apply Forall_inv in Hall as [_ Htrue]. specialize (Htrue result eq_refl).
    rewrite !andb_true_iff, bool_decide_eq_true in Hshows. destruct Hshows as [_ Hresponse].
    unfold result_true in Htrue. rewrite Hresponse in Htrue. unfold Example_gateway.response in Htrue.
    destruct Htrue as (_ & Hid & _ & _ & job & item & membership & Hjob & Hphase & _).
    rewrite <-Hid in Hjob. exists s, job, item, membership.
    split; [reflexivity|]. split; [exact Hjob|exact Hphase].
Defined.
