(* ===== verification/EndToEnd.v ===== *)
(** From one end to the other: an item the daemon publishes is what every client
    of the group shows, and the answer a client submits is what the daemon's
    wait, and every other client, finds. The composition of the composers, the
    parser, the projection, the kernel session and the answer wait, over the
    events of the group; signing and the relay are what is between them. *)

From S2P Require Export NmpPublisher AnswerWait Roundtrip ProjectionQueue RuntimeFacts.

(** ** The questions of an item, before and after publication *)
Lemma option_ids_published q : option_ids (published_question q) = option_ids q.
Proof.
  unfold option_ids.
  change (question_options (published_question q)) with (published_option <$> question_options q).
  by rewrite <-(list_fmap_compose published_option option_id).
Qed.

Lemma question_index_published qs :
  question_index (published_question <$> qs) = published_question <$> question_index qs.
Proof.
  unfold question_index. rewrite <-list_to_map_fmap. f_equal. rewrite !fmap_reverse. f_equal.
  induction qs as [|q qs IH]; [done|]. csimpl. by f_equal.
Qed.

Lemma valid_answer_step_published index answered value :
  valid_answer_step (published_question <$> index) answered value =
  valid_answer_step index answered value.
Proof.
  unfold valid_answer_step.
  destruct (bool_decide (qa_question_id value ∈ answered)); simpl; [done|].
  rewrite lookup_fmap. destruct (index !! _) as [q|]; simpl; [|done].
  by rewrite option_ids_published.
Qed.

Lemma valid_answer_published qs a :
  valid_answer (published_question <$> qs) a = valid_answer qs a.
Proof.
  unfold valid_answer. rewrite question_index_published. destruct (is_empty _ || _); [done|].
  do 2 f_equal. generalize (∅ : gset str) as seen.
  induction (answer_answers a) as [|v vs IH]; intros seen; simpl; [done|].
  rewrite valid_answer_step_published. destruct (valid_answer_step _ seen v); simpl; [|done].
  apply IH.
Qed.

(** ** The daemon and the clients choose the same answer *)
Lemma answers_for_related g rows id : answers_for g rows id = omap (related_answer g id) rows.
Proof.
  apply list_omap_ext, Forall_Forall2_diag, Forall_true. intros row. unfold related_answer. destruct (parse row g) as [[| r| |]|]; try done.
  destruct (decide (related_root_id r = id)) as [->|Hne]; [by rewrite str_eqb_refl|].
  by destruct (related_root_id r =?s id) eqn:He; [apply str_eqb_eq in He|].
Qed.

Lemma select_answer_published qs cs :
  select_answer (published_question <$> qs) cs = select_answer qs cs.
Proof.
  unfold select_answer. f_equal. apply list_filter_iff. intros a. by rewrite valid_answer_published.
Qed.

Lemma client_answer cfg rows id i qs :
  NoDup (row_id <$> rows) → resolved_items cfg rows !! id = Some i →
  item_questions i = published_question <$> qs →
  item_answer i = answer_from_rows rows (cfg_group_id cfg) id qs.
Proof.
  intros Hd (row & p & Hrow & Hp & Hid & ->)%resolved_items_lookup Hqs; [|done].
  simpl in *. rewrite Hid, collect_answers, answers_for_related, Hqs. apply select_answer_published.
Qed.

(** ** Finding an item in the projected forest *)
Lemma find_subtree_unfold id i :
  find_subtree id i =
  if item_id i =?s id then Some i else find_map (find_subtree id) (item_children i).
Proof.
  destruct i as [? ? ? ? ? ? ? ? ? ? ? ? ? ? ? children]; simpl. destruct (_ =?s id); [done|].
  induction children as [|c cs IH]; [done|]. simpl. by destruct (find_subtree id c).
Qed.

Lemma find_map_in {A B} (f : A → option B) l b :
  find_map f l = Some b → ∃ x, x ∈ l ∧ f x = Some b.
Proof.
  intros (before & x & after & -> & Hx & _)%find_map_Some. exists x. split; [|done].
  apply elem_of_app. right. by left.
Qed.

Lemma find_subtree_resolved resolved id j depth : ∀ i,
  tree_ok resolved depth i → find_subtree id i = Some j →
  ∃ item, resolved !! id = Some item ∧ j = set_children (item_children j) item.
Proof.
  induction depth as [|depth IH]; intros i Ht; rewrite find_subtree_unfold;
    destruct (item_id i =?s id) eqn:Hid.
  1, 3: intros [= <-]; apply str_eqb_eq in Hid; subst id; by destruct Ht as [Hr _].
  - destruct Ht as (_ & _ & _ & _ & ->). done.
  - destruct Ht as (_ & _ & _ & _ & Hc & _). intros Hf.
    apply find_map_in in Hf as (c & Hin & Hj). rewrite Forall_forall in Hc. by eapply IH; [apply Hc|].
Qed.

Lemma find_item_resolved cfg rows evidence id j :
  NoDup (row_id <$> rows) →
  find_item (snapshot_items (project cfg rows evidence)) id = Some j →
  ∃ item, resolved_items cfg rows !! id = Some item ∧ j = set_children (item_children j) item.
Proof.
  intros Hd Hf. destruct (project_forest_ok cfg rows Hd evidence) as (_ & Ht & _).
  apply find_map_in in Hf as (i & Hin & Hj).
  rewrite Forall_forall in Ht. by eapply find_subtree_resolved; [apply Ht|].
Qed.

(** ** The item, on its way to the clients *)
Section item.
Context `{Nip29Laws} (host : RelayUrl) (item : FrozenSpokenItem) (w : WriteIntent).
Context (Hcompose : compose_spoken_item host item = Ok w) (Hu64 : frozen_u64 item).
Context (Hlabels : forallb label_readable (fz_attachments item) = true).

Lemma resolved_published cfg rows ev srcs :
  signs ev (intent_payload w) → cfg_group_id cfg = fz_group_id item →
  NoDup (row_id <$> rows) → mkRow ev srcs ∈ rows →
  ∃ i, resolved_items cfg rows !! eid_hex (event_id ev) = Some i ∧
    i = set_related (item_answer i) (item_acknowledgement i) (item_reactions i)
          (published_item ev item).
Proof using All.
  intros Hs Hg Hd Hrow.
  eexists (resolve_item (cfg_viewer_pubkey cfg) (collect (cfg_group_id cfg) rows)
    (published_item ev item)).
  split; [|done]. apply resolved_items_lookup; [done|].
  exists (mkRow ev srcs), (published_item ev item). split_and!; [done| |done|done].
  rewrite Hg. by rewrite (compose_parse host item w), Hlabels.
Qed.

Lemma questions_composed : questions_valid (fz_questions item).
Proof using Hcompose H0. destruct (compose_inv _ _ _ Hcompose) as [Hv _]. apply (fv_questions _ Hv). Qed.

Lemma shown_published cfg rows evidence ev srcs j :
  signs ev (intent_payload w) → cfg_group_id cfg = fz_group_id item →
  NoDup (row_id <$> rows) → mkRow ev srcs ∈ rows →
  find_item (snapshot_items (project cfg rows evidence)) (eid_hex (event_id ev)) = Some j →
  item_id j = eid_hex (event_id ev) ∧
  item_questions j = published_question <$> fz_questions item.
Proof using All.
  intros Hs Hg Hd Hrow Hf. apply find_item_resolved in Hf as (i & Hi & ->); [|done].
  destruct (resolved_published cfg rows ev srcs) as (i' & Hi' & Heq); [done..|].
  rewrite Hi in Hi'. injection Hi' as <-. rewrite Heq. done.
Qed.
End item.

(** C7: what the daemon hands to the engine, every client shows. When the
    publisher accepts an item with readable labels, each event that signs what
    it handed over is, for every client of the group that has seen it, the item
    itself (texts trimmed) with the state of its own; and unless it is attached
    to another item or hidden, it is in the client's queue, or forty items that
    come before it are. *)
Theorem item_reaches_clients `{Nip29Laws, Hashing} {E} `{!DaemonEngine E} host group_id item
    (p : NmpPublisher E) receipt p' :
  NmpPublisher.accept host group_id item p = (Ok receipt, p') → frozen_u64 item →
  forallb label_readable (fz_attachments item) = true →
  ∃ w, Observe.publish_tracked w (np_engine p) = (Ok receipt, np_engine p') ∧
    intent_host w = host ∧
    ∀ ev srcs cfg rows evidence,
      signs ev (intent_payload w) → cfg_group_id cfg = group_id →
      NoDup (row_id <$> rows) → mkRow ev srcs ∈ rows →
      let id := eid_hex (event_id ev) in
      let items := snapshot_items (project cfg rows evidence) in
      ∃ i, resolved_items cfg rows !! id = Some i ∧
        i = set_related (item_answer i) (item_acknowledgement i) (item_reactions i)
              (published_item ev item) ∧
        (fz_attach item = None → is_hidden i = false →
           id ∈ item_id <$> items ∨
           length items = 40 ∧
           Forall (λ j, key_le (queue_key (resolved_items cfg rows)) j id) (item_id <$> items)).
Proof.
  intros Ha Hu Hl. unfold NmpPublisher.accept in Ha. pure Ha as [] Hgroup.
  apply fail_if_ok, negb_false_iff, str_eqb_eq in Hgroup. pure Ha as w Hw. apply map_err_ok in Hw.
  exists w. split_and!; [| |].
  - unfold on_engine in Ha. destruct (Observe.publish_tracked w _) as [r e].
    by injection Ha as -> <-.
  - by destruct (compose_inv _ _ _ Hw) as (_ & author & _ & ? & _).
  - intros ev srcs cfg rows evidence Hs Hg Hd Hrow id items.
    destruct (resolved_published host item w Hw Hu Hl cfg rows ev srcs)
      as (i & Hi & Heq); [done|congruence|done..|].
    exists i. split; [done|]. split; [done|]. intros Hattach Hhidden.
    destruct (project_forest_ok cfg rows Hd evidence) as (Hids & _ & _). fold items in Hids.
    rewrite Hids. rewrite <-(length_fmap item_id items), Hids.
    eapply top_ids_complete; [done|exact Hi| |done]. by rewrite Heq.
Qed.

(** ** The answer, on its way back *)

(** Publication trims the values of an answer, which changes only texts. *)
Lemma published_values_fit q v :
  question_valid q → value_fits q v → value_fits q (published_values v).
Proof.
  intros Hq [Hd Hs Ho]. destruct (decide (question_kind q = Freeform)) as [Hf|Hf].
  - assert (∃ value, qa_values v = [value]) as [value Hv].
    { assert (len (qa_values v) = 1%N) as Hl by (apply Hs; by rewrite Hf).
      destruct (qa_values v) as [|value [|? vs]]; [done|by exists value|].
      rewrite !len_cons in Hl. lia. }
    unfold published_values. rewrite Hv. split; simpl; [by apply NoDup_singleton| |done].
    by intros _.
  - assert (trim <$> qa_values v = qa_values v) as Ht.
    { rewrite <-(list_fmap_id (qa_values v)) at 2. apply list_fmap_ext. intros i s Hi.
      apply list_elem_of_lookup_2 in Hi. destruct (Ho Hf s Hi) as (o & Hin & <-).
      pose proof (qv_options _ Hq) as Hall. rewrite Forall_forall in Hall.
      by apply trim_identifier, (ov_id _ (Hall o Hin)). }
    unfold published_values. rewrite Ht. by split.
Qed.

Lemma published_answer_fits qs a b :
  questions_valid qs → answer_fits qs a →
  answer_answers b = published_values <$> answer_answers a → answer_fits qs b.
Proof.
  intros Hqs [Hb Hd Hv] Hab. pose proof (qsv_all _ Hqs) as Hall. rewrite Forall_forall in Hall.
  split; rewrite Hab.
  - by rewrite len_fmap.
  - by rewrite <-list_fmap_compose.
  - intros v' (v & -> & Hin)%list_elem_of_fmap. destruct (Hv v Hin) as (q & Hq & Hid & Hfits).
    exists q. split; [done|]. split; [done|]. apply published_values_fit; [by apply Hall|done].
Qed.

(** The wait of the daemon, over rows that hold an answer that fits. *)
Lemma answer_from_rows_finds rows group id qs row r :
  NoDup (question_id <$> qs) → row ∈ rows → parse row group = Some (PAnswer r) →
  related_root_id r = id → answer_fits qs (related_value r) →
  ∃ answer, answer_from_rows rows group id qs = Some answer ∧
    cmp_le (answer_order (related_value r)) (answer_order answer) ∧
    ((∀ row' r', row' ∈ rows → parse row' group = Some (PAnswer r') →
        related_root_id r' = id → related_value r' = related_value r) →
     answer = related_value r).
Proof.
  intros Hnd Hrow Hp Hroot Hfits.
  assert (related_answer group id row = Some (related_value r)) as Hr
    by (unfold related_answer; by rewrite Hp, Hroot, str_eqb_refl).
  destruct (answer_from_rows rows group id qs) as [answer|] eqn:Ha.
  - exists answer. split; [done|].
    apply wait_answer_in_rows in Ha as (_ & (row' & r' & Hrow' & Hp' & Hroot' & <-) & Hmax); [|done].
    split; [exact (Hmax row r Hrow Hp Hroot Hfits)|]. intros Honly.
    exact (Honly row' r' Hrow' Hp' Hroot').
  - exfalso. unfold answer_from_rows in Ha. rewrite select_answer_None, Forall_forall in Ha.
    assert (related_value r ∈ omap (related_answer group id) rows) as Hin
      by (apply list_elem_of_omap; by exists row).
    apply Ha in Hin. apply valid_answer_fits in Hfits; [congruence|done].
Qed.

(** What a session submits, from the item it shows. *)
Lemma submit_answer_intent `{Engine} s now id answers receipt s' :
  submit_answer s now id answers = (Ok receipt, s') →
  ∃ author j intent, find_item (snapshot_items (se_queue s)) id = Some j ∧
    valid_answer (item_questions j) (mkAnswerBundle [] author now answers) = true ∧
    compose_answer (se_host s)
      (mkFrozenAnswer author now (cfg_group_id (se_configuration s)) (item_id j)
         (answer_content j answers) answers) = Ok intent ∧
    se_log s' = se_log s ++ [PublishTracked intent (Ok receipt)].
Proof.
  intros Hs. unfold submit_answer, publish_tracked in Hs.
  destruct (prepare_answer s now id answers) as [intent|e] eqn:Hp; [|done].
  unfold prepare_answer in Hp. okay Hp as author Ha. passed Hp as _. okay Hp as j Hj.
  apply ok_or_ok in Hj. passed Hp as Hq. passed Hp as Hn. passed Hp as Hv. apply map_err_ok in Hp.
  exists author, j, intent. destruct (on_publish _ intent) as [n|e]; [|done].
  injection Hs as <- <-. by split_and!.
Qed.

Lemma update_rows_queue `{Engine} s rows evidence :
  rows ≠ [] →
  let viewer := active_pubkey (se_identity s) in
  let cfg := with_viewer viewer (se_configuration s) in
  se_queue (update_rows s rows evidence) = project cfg rows evidence ∧
  se_configuration (update_rows s rows evidence) = cfg ∧
  se_log (update_rows s rows evidence) = se_log s.
Proof. intros Hne. by destruct rows. Qed.

(** C4: the answer comes back. The daemon composed an item with questions; a
    client that has seen the event submits an answer, which its kernel accepts.
    Whatever other rows there are, the event that signs the submission fits the
    daemon's questions, so that the daemon's wait finds an answer in any view of
    the group that holds it: this one, if there is no other, and otherwise one
    at least as new. And every client with that view shows the same answer the
    daemon finds. *)
Theorem answer_comes_back `{Engine, !Nip29Laws} host item w ev srcs s rows evidence now answers
    receipt s' :
  let id := eid_hex (event_id ev) in
  let g := fz_group_id item in
  compose_spoken_item host item = Ok w → frozen_u64 item →
  forallb label_readable (fz_attachments item) = true →
  signs ev (intent_payload w) → hex64 id →
  cfg_group_id (se_configuration s) = g → NoDup (row_id <$> rows) → mkRow ev srcs ∈ rows →
  submit_answer (update_rows s rows evidence) now id answers = (Ok receipt, s') →
  ∃ intent, se_log s' = se_log s ++ [PublishTracked intent (Ok receipt)] ∧
    ∀ ev' srcs' view,
      signs ev' (intent_payload intent) → mkRow ev' srcs' ∈ view →
      let mine := mkAnswerBundle (eid_hex (event_id ev')) (pk_hex (event_pubkey ev')) now
                    (published_values <$> answers) in
      answer_fits (fz_questions item) mine ∧
      ∃ answer, answer_from_rows view g id (fz_questions item) = Some answer ∧
        cmp_le (answer_order mine) (answer_order answer) ∧
        ((∀ row r, row ∈ view → parse row g = Some (PAnswer r) → related_root_id r = id →
            related_value r = mine) → answer = mine) ∧
        ∀ cfg srcs'', cfg_group_id cfg = g → NoDup (row_id <$> view) → mkRow ev srcs'' ∈ view →
          ∃ i, resolved_items cfg view !! id = Some i ∧ item_answer i = Some answer.
Proof.
  intros id g Hw Hu Hl Hs Hhex Hg Hd Hrow Hsubmit.
  assert (rows ≠ []) as Hne by (by intros ->; apply not_elem_of_nil in Hrow).
  destruct (update_rows_queue s rows evidence Hne) as (Hqueue & Hcfg & Hlog).
  apply submit_answer_intent in Hsubmit as (author & j & intent & Hj & Hv & Hc & Hlog').
  rewrite Hqueue in Hj. rewrite Hcfg in Hc. rewrite Hlog in Hlog'.
  eapply (shown_published host item w Hw Hu Hl) in Hj as [Hid Hqs];
    [|exact Hs|exact Hg|exact Hd|exact Hrow].
  exists intent. split; [done|]. intros ev' srcs' view Hs' Hrow' mine.
  pose proof (questions_composed host item w Hw) as Hvalid.
  pose proof (qsv_ids _ Hvalid) as Hnd.
  rewrite Hqs, valid_answer_published in Hv. apply valid_answer_fits in Hv; [|done].
  assert (answer_fits (fz_questions item) mine) as Hfits by by eapply published_answer_fits.
  split; [done|].
  eapply (composed_answer_roundtrip _ _ _ ev' srcs') in Hc; [|by rewrite Hid|exact Hs'].
  assert (parse (mkRow ev' srcs') g = Some (PAnswer (mkRelated id mine))) as Hp.
  { rewrite <-Hg. unfold id. rewrite <-Hid. exact Hc. }
  destruct (answer_from_rows_finds view g id (fz_questions item) (mkRow ev' srcs')
    (mkRelated id mine)) as (answer & Ha & Hle & Honly); [done..|].
  exists answer. split; [done|]. split; [done|]. split; [exact Honly|].
  intros cfg srcs'' Hg' Hd' Hrow''.
  destruct (resolved_published host item w Hw Hu Hl cfg view ev srcs'') as (i & Hi & Heq); [done..|].
  exists i. split; [done|].
  rewrite (client_answer cfg view id i (fz_questions item)); [|done|done|by rewrite Heq].
  by rewrite Hg'.
Qed.

(** An item with a question, a client that answers it, and the daemon. *)
Module Example_group.
Export Example_nmp.
Definition host : RelayUrl := mkRelayUrl $"wss://relay.example".
Definition item : FrozenSpokenItem := Example_compose.item $"Notes".
Definition composed : intent :=
  mkIntent host (mkUnsigned (mkPublicKey (fz_author item)) (fz_created_at item) 9
    ([$"h"; $"group"] :: tags item) (fz_body item)) (Some (mkPublicKey (fz_author item))) None.
Definition event (id : N) (w : intent) : Event :=
  let u := i_payload w in
  mkEvent (mkEventId (repeat id 64)) (unsigned_pubkey u) (unsigned_created_at u)
    (unsigned_kind u) (unsigned_tags u) (unsigned_content u).
Definition row (id : N) (w : intent) : Row := mkRow (event id w) [].
Lemma event_signs id w : signs (event id w) (i_payload w).
Proof. done. Qed.
Definition client : Session := Example_session.signed_in.
Definition answers : list QuestionAnswer := [mkQuestionAnswer $"q1" [$"a"]].
Definition submitted : result str N * Session :=
  submit_answer (update_rows client [row 49 composed] (mkEvidence 1 0)) 9 (repeat 49%N 64) answers.
Definition publisher : NmpPublisher (list intent) := mkPublisher _ [] ∅.
End Example_group.

Import Example_nmp Example_engine.

Lemma item_reaches_clients_witness :
  let cfg := Example_session.cfg in
  ∃ i, resolved_items cfg [Example_group.row 49 Example_group.composed] !! repeat 49%N 64 = Some i ∧
    item_subject i = $"Hello".
Proof.
  intros cfg.
  destruct (@item_reaches_clients nip29 nip29_laws Example_publisher.hashing (list intent)
    Example_publisher.engine Example_group.host $"group" Example_group.item Example_group.publisher
    0%N (mkPublisher _ [Example_group.composed] ∅)) as (w & Hw & _ & Hall);
    [vm_compute; reflexivity|apply Example_compose.item_u64|vm_compute; reflexivity|].
  injection Hw as Hw.
  destruct (Hall (Example_group.event 49 w) [] cfg [Example_group.row 49 w] (mkEvidence 1 0))
    as (i & Hi & Heq & _);
    [done|done|by apply NoDup_singleton|by left|].
  exists i. subst w. split; [exact Hi|]. rewrite Heq. vm_compute. reflexivity.
Defined.

Lemma answer_comes_back_witness :
  ∃ intent answer i, let view := [Example_group.row 49 Example_group.composed;
                                  Example_group.row 50 intent] in
    se_log Example_group.submitted.2 = se_log Example_group.client ++ [PublishTracked intent (Ok 2%N)] ∧
    answer_from_rows view $"group" (repeat 49%N 64) (fz_questions Example_group.item) = Some answer ∧
    resolved_items Example_session.cfg view !! repeat 49%N 64 = Some i ∧
    item_answer i = Some answer.
Proof.
  destruct (@answer_comes_back nip29 engine nip29_laws Example_group.host Example_group.item
    Example_group.composed (Example_group.event 49 Example_group.composed) [] Example_group.client
    [Example_group.row 49 Example_group.composed] (mkEvidence 1 0) 9 Example_group.answers
    2%N Example_group.submitted.2) as (intent & Hlog & Hall).
  - vm_compute. reflexivity.
  - apply Example_compose.item_u64.
  - vm_compute. reflexivity.
  - done.
  - split; [reflexivity|]. repeat constructor.
  - reflexivity.
  - by apply NoDup_singleton.
  - by left.
  - transitivity (Example_group.submitted.1, Example_group.submitted.2); [apply surjective_pairing|].
    f_equal.
  - destruct (Hall (Example_group.event 50 intent) [] [Example_group.row 49 Example_group.composed;
      Example_group.row 50 intent]) as (_ & answer & Ha & _ & _ & Hshow);
      [apply Example_group.event_signs|rewrite !elem_of_cons; right; left; reflexivity|].
    destruct (Hshow Example_session.cfg []) as (i & Hi & Hai); [reflexivity| |rewrite !elem_of_cons; left; reflexivity|].
    + change (NoDup [repeat 49%N 64; repeat 50%N 64]). apply NoDup_cons.
      split; [|apply NoDup_singleton]. rewrite elem_of_cons, elem_of_nil. intros [[=]|[]].
    + exists intent, answer, i. split; [exact Hlog|]. split; [exact Ha|].
      split; [exact Hi|exact Hai].
Defined.
